(* ===== verification/_CoqProject ===== *)
-Q . S2P
Prelude.v
Ordered.v
Text.v
Truncate.v
Decimal.v
Bytes.v
Timing.v
Float.v
Protocol.v
Settings.v
Widgets.v
TwitchPrefs.v
WarframePrefs.v
Stopwatch.v
Process.v
Portal.v
X11Shortcut.v
Watch.v
Runtime.v
Broker.v
Session.v
Hyprland.v
HyprShortcut.v
Notes.v
NotesSpec.v
NotesService.v
SteamBinary.v
FileSystem.v
SteamMetadata.v
KeyValues.v
SteamLibrary.v
UpdateRelease.v
Updates.v
UpdatePackage.v
Logging.v
EventLog.v
ConfigStore.v
ControlModel.v
Lifecycle.v
CoreClient.v
OverlayRuntime.v
Discord.v
DiscordClient.v
WarframeModel.v
Worldstate.v
WarframeController.v
Http.v
WarframeMarket.v
TwitchChat.v
TwitchHttp.v
TwitchAuth.v
TwitchClient.v
Media.v
