(* ===== verification/Prelude.v ===== *)
(** * A verification library of PlayerVox OverCrow

    OverCrow shows an overlay on top of games the user has authorized. It is
    a set of Rust programs under [src/crates]: the Core service decides which
    game is on screen and publishes that over D-Bus ([overcrow-core],
    [overcrow-protocol]); the overlay draws and runs the widgets with their
    providers ([overcrow-overlay]); adapters tell Core about windows and bind
    shortcuts ([overcrow-hyprland], the X11 and portal parts of
    [overcrow-core]); the control application finds games, edits settings,
    switches the services on and off and updates the program
    ([overcrow-control]); [overcrow-config] holds the configuration files and
    [overcrow-logging] the diagnostic logs.

    This library translates their logic into definitions that can be
    evaluated, and proves what makes it correct. Every definition that models
    code names its file in the doc comment of its own file or next to it, and
    keeps the source's name where the names do not clash.

    ** How code is modelled

    - Rust values: integers are [Z] with the operations of Prelude
      ([checked_add], [saturating_sub], ...) that write out what the type's
      width does; [str] is the list of its characters and byte strings are
      lists of bytes (Text, Bytes); [Option] is [option], [Result] is [result]
      with a monad whose bind is the source's [?]; a panic is an outcome of
      its own where the code can panic. Records have setters through the
      class [Eta] of this file.
    - State: a struct is a Record; a method is a function from the old value
      to the new one. Threads, tasks and processes that share state are step
      functions or step relations whose runs are the interleavings.
    - The world (D-Bus, sockets, HTTP, the key ring, files, systemd, clocks,
      JSON and URL libraries) is not translated: its answers are arguments of
      the steps, or a class of functions ([DiscordJson], [MarketJson],
      [EventSubJson], [TwitchJson], [WebUrls], [CredentialJson], the file
      system of FileSystem, the parser of KeyValues). Theorems hold for every
      such answer unless they name a hypothesis about it.
    - Loops that are not structural carry fuel, and a theorem says the fuel is
      enough; see the list below.

    ** The files

    Shared: Prelude (records, results, machine integers, lists, the hints
    [oc]), Ordered (sorted collections), Text, Truncate, Decimal, Bytes,
    Timing, Float, Watch ([tokio]'s watch channels), Http (what [ureq] and
    [url] answer), FileSystem (an interface of [std::fs]).

    Core and the protocol:
    - Protocol: [overcrow-protocol/src/state.rs], the overlay's state machine.
    - Runtime: [overcrow-core/src/runtime.rs], [window.rs], [hwmon.rs]; the
      game on screen, its process and the published snapshots. Uses Protocol,
      Settings (who is authorized), Process (who the process is, what it
      uses), Stopwatch.
    - Process: [classifier.rs] (the walk over a process's ancestors) and
      [telemetry.rs]; Stopwatch: [manual_stopwatch.rs]; EventLog:
      [event_log.rs].
    - Portal and Broker: [shortcut.rs], the portal's protocol and the broker
      that keeps one session bound; X11Shortcut: [x11_shortcut.rs]; Session:
      [session.rs], the units kept running for a game.
    - Hyprland and HyprShortcut: [overcrow-hyprland/src], windows, focus and
      the compositor's bindings.

    Configuration and control:
    - Settings, Widgets, TwitchPrefs, WarframePrefs: the data of
      [overcrow-config/src] with its validation; ConfigStore: its files.
    - SteamBinary, SteamMetadata, KeyValues, SteamLibrary:
      [overcrow-control/src/steam_binary.rs] and [steam.rs].
    - ControlModel: [model.rs]; Lifecycle: [lifecycle.rs]; UpdateRelease,
      Updates, UpdatePackage: [update_release.rs], [updates.rs],
      [update_download.rs], [update_install.rs].
    - Logging: [overcrow-logging/src/lib.rs].

    The overlay ([overcrow-overlay/src]):
    - CoreClient: [runtime/core_client.rs], the connection to Core;
      OverlayRuntime: the other files of [runtime/] and [session_clock.rs].
    - Notes, NotesSpec, NotesService: [notes/model.rs], its abstract
      specification, and [notes/service.rs].
    - Discord, DiscordClient: [discord/].
    - WarframeModel, Worldstate, WarframeController, WarframeMarket:
      [warframe/].
    - TwitchChat, TwitchHttp, TwitchAuth, TwitchClient: [twitch/].
    - Media: [media/], the player shown and the worker that asks for it.

    Core publishes to CoreClient; Runtime asks Settings and Process; the
    control application's Lifecycle writes the files of ConfigStore that
    Runtime's settings come from; the providers (Discord, Warframe, Twitch)
    are gated by what CoreClient received and publish through the channel of
    OverlayRuntime.

    ** What the theorems show

    - Authorization and privacy: only the identity the settings authorize is
      ever on screen ([active_game_authorized], [allows_identity_iff_authorized],
      [classify_process_identity_reference]); the providers ask nothing of the
      network and show nothing private outside an authorized game
      ([twitch_quiet_when_closed], [discord_display_presentable]).
    - What is shown is what is true: revisions, times, worlds and chats
      ([revision_gate_newest], [session_time_monotone],
      [worldstate_shown_honest], [live_timers_reference],
      [prefs_follow_store], [twitch_chat_of_channel], [market_shown_clean]).
    - Nothing is lost or done twice: edits of notes in every interleaving of
      the threads ([notes_service_settles], [notes_service_progress],
      [notes_edits_refine]), widget commands ([widget_actions_coalesce],
      [passive_request_reaches_core]), chat messages ([twitch_sends_answered]),
      log lines ([log_files_keep_lines], [log_events_accounted],
      [log_worker_stops]), files ([save_atomic], [save_load],
      [write_verified_stores]), sign-ins ([twitch_sign_in_consistent],
      [credentials_consistent], [rotated_token_stored_first]).
    - Resources are given back: portal sessions ([sessions_closed_once],
      [broker_waits_settled]), units ([run_session_ends_stopped],
      [enable_all_or_nothing]), bindings and grabs ([shortcut_requests_safe],
      [shortcut_converges], [x11_grabs_are_the_shortcuts]).
    - Untrusted input is bounded: binary and text metadata
      ([walk_binary_vdf_encoded], [preflight_bounds_nesting],
      [merge_reports_reference]), messages and answers of services
      ([socket_next_message], [worldstate_fit_to_show],
      [eventsub_messages_clean], [twitch_calls_safe]), and the rate at which
      services are asked ([update_requests_disciplined],
      [device_polls_spaced]).

    Witnesses named [.._witness] run the theorems on concrete inputs. What the
    code does against its own intent is proved as examples beside the theorems
    ([vallis_turning_cold], [disabled_widget_keeps_channel],
    [color_across_a_slice], [late_cancel_strands]).

    ** Fuel and bounds

    The ancestor walk takes at most [MAX_ANCESTORS] = 64 steps, the source's
    own bound. Cutting text at a byte bound has the bound as fuel. The walk
    over binary VDF has the source's limit of 100,000 entries, and appinfo.vdf
    16,384 records; the reading of the X authority file has its length. A
    download follows at most two redirects, as the source does. Reading a
    socket message has one unit per byte and one more, enough for every
    heartbeat ([socket_next_fuel]). Draining the log queue takes 2n + 6 turns
    for n waiting events ([log_worker_stops]). The phases of a world cycle are
    walked at most 64 times, the daily reset one step per day. The market
    worker takes at most seven steps for a command ([market_worker_drains]).

    ** What is not modelled, and why

    Drawing ([egui] code of the widgets, [app.rs], icons and branding), the
    Tauri shell and the command line, D-Bus declarations generated by [zbus],
    the emote and avatar images, the reading of procfs and of the clipboard,
    sockets and process spawning, the X11 window bridge and the JavaScript of
    the compositor integrations: they are input and output around the modelled
    steps, or generated code. Name tables of Warframe are data, given as
    functions. Destroying secrets in memory ([zeroize]) has no observable
    behaviour here. Time-outs appear as answers, not as durations; an instant
    is read where the code reads the clock, except that one turn of the Twitch
    and Discord workers reads it once before and once after the calls that
    block.

    ** Where it goes on

    The media player's client and MPRIS, the layout of widgets and its
    manager, the view state of the notes widget, the X11 window bridge, the
    compatibility and diagnostic reports of the control application. *)

From stdpp Require Export base tactics option list gmap strings pretty sorting.
From Stdlib Require Export ZArith Lia.

#[export] Set Warnings "-clear-no-such-hyp,-postfix-notation-not-level-1,-level-tolerance".

#[global] Open Scope Z_scope.

#[global] Arguments Nat.ltb : simpl never.
#[global] Arguments Nat.leb : simpl never.
#[global] Arguments Z.ltb : simpl never.
#[global] Arguments Z.leb : simpl never.
#[global] Arguments Z.eqb : simpl never.

(** * Record update

    A record declares its eta expansion once, as an instance of [Eta]; an
    assignment [r.field = v] of the source is then [r <| field := v |>] and
    an in-place change [r <| field ::= f |>]. *)

Class Eta (R : Type) := eta_expand : R → R.
Class Setter {R E : Type} (field : R → E) := set_field : (E → E) → R → R.
Arguments set_field {R E} field {Setter} f r /.

Ltac derive_setter :=
  lazymatch goal with
  | |- @Setter ?R ?E ?field =>
      let inst := constr:(_ : Eta R) in
      let body := eval hnf in inst in
      lazymatch eval pattern field in body with
      | ?F _ =>
          let s := eval cbv beta in (fun f : E -> E => F (fun r => f (field r))) in
          exact s
      end
  end.
#[export] Hint Extern 1 (Setter _) => derive_setter : typeclass_instances.

Declare Scope record_scope.
#[global] Open Scope record_scope.
Notation "r <| field := v |>" := (set_field field (λ _, v) r)
  (at level 12, v at level 99, left associativity) : record_scope.
Notation "r <| field ::= f |>" := (set_field field f r)
  (at level 12, f at level 99, left associativity) : record_scope.

(** * Results

    [Result<T, E>] of the source, error type first so that [result E] is a
    monad; [x ← e; k] is the source's [let x = e?; k]. *)

Inductive result (E T : Type) : Type :=
| Ok (value : T)
| Err (error : E).
Arguments Ok {E T} value.
Arguments Err {E T} error.

#[export] Instance result_ret {E} : MRet (result E) := λ T x, Ok x.
#[export] Instance result_bind {E} : MBind (result E) :=
  λ T U f r, match r with Ok x => f x | Err e => Err e end.
#[export] Instance result_fmap {E} : FMap (result E) :=
  λ T U f r, match r with Ok x => Ok (f x) | Err e => Err e end.

Definition is_ok {E T} (r : result E T) : bool :=
  match r with Ok _ => true | Err _ => false end.

(** [Result::ok]. *)
Definition ok_opt {E T} (r : result E T) : option T :=
  match r with Ok x => Some x | Err _ => None end.

(** [Result::unwrap_or]. *)
Definition ok_or_default {E T} (d : T) (r : result E T) : T :=
  match r with Ok x => x | Err _ => d end.

(** [Result::map_error]. *)
Definition map_error {E F T} (f : E → F) (r : result E T) : result F T :=
  match r with Ok x => Ok x | Err e => Err (f e) end.

(** [Option::ok_or]. *)
Definition ok_or {E T} (e : E) (o : option T) : result E T :=
  match o with Some x => Ok x | None => Err e end.

Lemma result_bind_Ok {E T U} (r : result E T) (f : T → result E U) y :
  r ≫= f = Ok y ↔ ∃ x, r = Ok x ∧ f x = Ok y.
Proof. destruct r; cbn; naive_solver. Qed.

Lemma map_error_Ok {E F T} (f : E → F) (r : result E T) x : map_error f r = Ok x ↔ r = Ok x.
Proof. destruct r; cbn; naive_solver. Qed.

Lemma ok_or_Ok {E T} (e : E) (o : option T) x : ok_or e o = Ok x ↔ o = Some x.
Proof. destruct o; cbn; naive_solver. Qed.

#[export] Instance result_eq_dec {E T} `{EqDecision E, EqDecision T} :
  EqDecision (result E T).
Proof. solve_decision. Defined.

(** * Machine integers

    An integer of the source is a [Z] in its type's range; what the source
    does at the range's ends is written out with these. *)

Definition u8_max : Z := 255.
Definition u16_max : Z := 65535.
Definition u32_max : Z := 4294967295.
Definition u64_max : Z := 18446744073709551615.
Definition u128_max : Z := 340282366920938463463374607431768211455.
Definition i32_max : Z := 2147483647.
Definition i32_min : Z := -2147483648.
Definition i64_max : Z := 9223372036854775807.
Definition i64_min : Z := -9223372036854775808.

(** [T::try_from(z)] for a type whose range is [lo..=hi]. *)
Definition try_from (lo hi z : Z) : option Z :=
  if (lo <=? z) && (z <=? hi) then Some z else None.

Definition saturating_add (hi a b : Z) : Z := Z.min hi (a + b).
Definition saturating_sub (a b : Z) : Z := Z.max 0 (a - b).
Definition saturating_mul (hi a b : Z) : Z := Z.min hi (a * b).

(** Unsigned [checked_sub], and [checked_add]/[checked_mul] up to [hi]. *)
Definition checked_sub (a b : Z) : option Z := if b <=? a then Some (a - b) else None.
Definition checked_add (hi a b : Z) : option Z := if a + b <=? hi then Some (a + b) else None.
Definition checked_mul (hi a b : Z) : option Z := if a * b <=? hi then Some (a * b) else None.

Lemma try_from_Some lo hi z y : try_from lo hi z = Some y ↔ y = z ∧ lo ≤ z ≤ hi.
Proof.
  unfold try_from. destruct (Z.leb_spec lo z), (Z.leb_spec z hi); cbn; naive_solver lia.
Qed.

Lemma try_from_in lo hi z : lo ≤ z ≤ hi → try_from lo hi z = Some z.
Proof. intros ?. by apply try_from_Some. Qed.

Lemma checked_sub_Some a b c : checked_sub a b = Some c ↔ b ≤ a ∧ c = a - b.
Proof. unfold checked_sub. destruct (Z.leb_spec b a); naive_solver lia. Qed.

(** * Booleans and options *)

(** [Option::is_some_and] and [Option::is_none_or]. *)
Definition is_some_and {A} (p : A → bool) (o : option A) : bool :=
  match o with Some x => p x | None => false end.
Definition is_none_or {A} (p : A → bool) (o : option A) : bool :=
  match o with Some x => p x | None => true end.

(** [Option::filter] and [bool::then_some]. *)
Definition opt_filter {A} (p : A → bool) (o : option A) : option A :=
  match o with Some x => if p x then Some x else None | None => None end.
Definition then_some {A} (b : bool) (x : A) : option A := if b then Some x else None.

Definition isSome {A} (o : option A) : bool := match o with Some _ => true | None => false end.
Definition isNone {A} (o : option A) : bool := negb (isSome o).

(** [Iterator::find] and [Iterator::find_map]. *)
Fixpoint find_first {A} (p : A → bool) (l : list A) : option A :=
  match l with
  | [] => None
  | x :: l => if p x then Some x else find_first p l
  end.
Fixpoint find_map {A B} (f : A → option B) (l : list A) : option B :=
  match l with
  | [] => None
  | x :: l => match f x with Some y => Some y | None => find_map f l end
  end.

(** [[x] = slice] as the source matches a slice of exactly one element. *)
Definition only {A} (l : list A) : option A :=
  match l with [x] => Some x | _ => None end.

Lemma is_some_and_true {A} (p : A → bool) o :
  is_some_and p o = true ↔ ∃ x, o = Some x ∧ p x = true.
Proof. destruct o; cbn; naive_solver. Qed.

Lemma opt_filter_Some {A} (p : A → bool) o x :
  opt_filter p o = Some x ↔ o = Some x ∧ p x = true.
Proof.
  destruct o as [y|]; cbn; [destruct (p y) eqn:E|];
    split; try done; try (intros [= ->]; done); intros [[= ->] ?]; congruence.
Qed.

Lemma then_some_Some {A} b (x y : A) : then_some b x = Some y ↔ b = true ∧ x = y.
Proof. destruct b; cbn; naive_solver. Qed.

Lemma find_first_Some {A} (p : A → bool) l x :
  find_first p l = Some x → x ∈ l ∧ p x = true.
Proof.
  induction l as [|y l IH]; cbn; [done|].
  destruct (p y) eqn:E; intros H; simplify_eq; [split; [constructor|done]|].
  destruct (IH H). split; [by constructor|done].
Qed.

Lemma find_first_None {A} (p : A → bool) l :
  find_first p l = None ↔ ∀ x, x ∈ l → p x = false.
Proof.
  induction l as [|y l IH]; cbn; [split; [intros _ x Hx; by apply elem_of_nil in Hx|done]|].
  destruct (p y) eqn:E; split; try done.
  - intros H. by rewrite (H y) in E by constructor.
  - intros H x [->|Hx]%elem_of_cons; [done|]. by apply IH.
  - intros H. apply IH. intros x Hx. apply H. by constructor.
Qed.

Lemma find_first_app {A} (p : A → bool) l k :
  find_first p (l ++ k) = match find_first p l with Some x => Some x | None => find_first p k end.
Proof. induction l as [|x l IH]; cbn; [done|]. by destruct (p x). Qed.

Lemma only_Some {A} (l : list A) x : only l = Some x ↔ l = [x].
Proof. destruct l as [|? [|??]]; cbn; naive_solver. Qed.

(** * Automation

    [bools] turns the boolean tests a definition makes into propositions;
    [branches] splits the tests and matches of the goal. *)

Lemma bool_decide_true_iff (P : Prop) `{!Decision P} : bool_decide P = true ↔ P.
Proof. apply bool_decide_eq_true. Qed.
Lemma bool_decide_false_iff (P : Prop) `{!Decision P} : bool_decide P = false ↔ ¬ P.
Proof. apply bool_decide_eq_false. Qed.

Lemma forallb_Forall' {A} (p : A → bool) l : forallb p l = true ↔ Forall (λ x, p x = true) l.
Proof. rewrite forallb_forall, Forall_forall. by setoid_rewrite <- list_elem_of_In. Qed.

Lemma existsb_false {A} (p : A → bool) l : existsb p l = false ↔ Forall (λ x, p x = false) l.
Proof. induction l as [|x l IH]; cbn; [done|]. rewrite orb_false_iff, Forall_cons, IH. done. Qed.

Create HintDb oc.
Create Rewrite HintDb oc.
#[export] Hint Rewrite @bool_decide_true_iff @bool_decide_false_iff Bool.andb_true_iff
  Bool.orb_true_iff Bool.andb_false_iff Bool.orb_false_iff Bool.negb_true_iff
  Bool.negb_false_iff Z.eqb_eq Z.eqb_neq Z.leb_le Z.leb_gt Z.ltb_lt Z.ltb_ge
  @is_some_and_true @opt_filter_Some @then_some_Some @only_Some : oc.

Ltac bools := autorewrite with oc in *; destruct_and?.
Ltac branches :=
  repeat (case_match; simplify_eq/=; try done).

(** * Lists *)

(** [Iterator::position]. *)
Fixpoint position {A} (p : A → bool) (l : list A) : option nat :=
  match l with
  | [] => None
  | x :: l => if p x then Some 0%nat else S <$> position p l
  end.

(** Keep the first occurrence of each element, as a loop that pushes an
    element onto [out] unless [out] already contains it. *)
Fixpoint dedup_onto {A} `{EqDecision A} (out l : list A) : list A :=
  match l with
  | [] => out
  | x :: l => dedup_onto (if bool_decide (x ∈ out) then out else out ++ [x]) l
  end.

Lemma position_Some {A} (p : A → bool) l i :
  position p l = Some i → ∃ x, l !! i = Some x ∧ p x = true ∧
    ∀ j y, (j < i)%nat → l !! j = Some y → p y = false.
Proof.
  revert i. induction l as [|x l IH]; intros i; cbn; [done|].
  destruct (p x) eqn:E.
  - intros [= <-]. exists x. split_and!; [done..|lia].
  - destruct (position p l) as [k|] eqn:Ek; [|done]. intros [= <-].
    destruct (IH k eq_refl) as (y & ? & ? & H). exists y. split_and!; [done..|].
    intros [|j] z ??; cbn in *; [by simplify_eq|]. apply (H j); [lia|done].
Qed.

Lemma position_None {A} (p : A → bool) l :
  position p l = None ↔ ∀ x, x ∈ l → p x = false.
Proof.
  induction l as [|x l IH]; cbn; [split; [by intros _ ? ?%not_elem_of_nil|done]|].
  setoid_rewrite elem_of_cons. destruct (p x) eqn:E.
  - split; [done|]. intros H. rewrite (H x) in E by auto. done.
  - rewrite fmap_None, IH. split; [intros H y [->|?]; auto|auto].
Qed.

Lemma dedup_onto_NoDup {A} `{EqDecision A} (out l : list A) : NoDup out → NoDup (dedup_onto out l).
Proof.
  revert out. induction l as [|x l IH]; intros out Hout; cbn; [done|]. apply IH.
  case_bool_decide; [done|]. apply NoDup_app. split_and!; [done| |apply NoDup_singleton].
  intros y ? ->%list_elem_of_singleton. done.
Qed.

Lemma elem_of_dedup_onto {A} `{EqDecision A} (out l : list A) x :
  x ∈ dedup_onto out l ↔ x ∈ out ∨ x ∈ l.
Proof.
  revert out. induction l as [|y l IH]; intros out; cbn; [rewrite elem_of_nil; naive_solver|].
  rewrite IH, elem_of_cons. case_bool_decide; [|rewrite elem_of_app, list_elem_of_singleton]; naive_solver.
Qed.

Lemma dedup_onto_id {A} `{EqDecision A} (out l : list A) :
  NoDup (out ++ l) → dedup_onto out l = out ++ l.
Proof.
  revert out. induction l as [|x l IH]; intros out H; cbn; [by rewrite app_nil_r|].
  rewrite bool_decide_eq_false_2; [rewrite IH; by rewrite <- app_assoc|].
  apply NoDup_app in H as (_ & H & _). intros Hx. apply (H x Hx). constructor.
Qed.

Lemma delete_sublist {A} i (l : list A) : delete i l `sublist_of` l.
Proof. apply sublist_delete. Qed.

Lemma elem_of_delete {A} i (l : list A) x : x ∈ delete i l → x ∈ l.
Proof. intros H. eapply elem_of_submseteq; [exact H|]. apply sublist_submseteq, sublist_delete. Qed.

Lemma delete_lookup_split {A} i (l : list A) x :
  l !! i = Some x → l = take i l ++ x :: drop (S i) l ∧ delete i l = take i l ++ drop (S i) l.
Proof. intros H. split; [symmetry; by apply take_drop_middle|apply delete_take_drop]. Qed.

Lemma NoDup_delete {A} i (l : list A) : NoDup l → NoDup (delete i l).
Proof. intros H. eapply sublist_NoDup; [exact H|apply sublist_delete]. Qed.

(** Deleting the element at [i] from a list without duplicates removes it. *)
Lemma not_elem_of_delete {A} i (l : list A) x :
  NoDup l → l !! i = Some x → x ∉ delete i l.
Proof.
  intros Hn Hi. destruct (delete_lookup_split i l x Hi) as [E ->]. rewrite E in Hn.
  apply NoDup_app in Hn as (_ & H & Hn). apply NoDup_cons in Hn as [Hx _].
  intros [?|?]%elem_of_app; [|done]. apply (H x); [done|constructor].
Qed.

Lemma fmap_sublist {A B} (f : A → B) (l k : list A) : l `sublist_of` k → f <$> l `sublist_of` f <$> k.
Proof. induction 1; cbn; by constructor. Qed.

Lemma Forall_sublist {A} (P : A → Prop) (l k : list A) : l `sublist_of` k → Forall P k → Forall P l.
Proof. induction 1; intros Hk; [done|inversion Hk; subst; auto..]. Qed.

Lemma StronglySorted_impl {A} (R S : A → A → Prop) l :
  (∀ x y, R x y → S x y) → StronglySorted R l → StronglySorted S l.
Proof. intros HRS. induction 1 as [|x l Hl IH Hx]; constructor; [done|]. eapply Forall_impl; [exact Hx|]. auto. Qed.
