(* ===== verification/Ordered.v ===== *)
(** Ordered collections: a [BTreeSet] of the source is the list of its
    elements in increasing order, which is the order it is iterated in.  The
    order is that of a key of the elements, so that elements the source
    compares as equal need not be the same (two spellings of a path). *)

From S2P Require Import Prelude.

(** A type with its [Ord]. *)
Class BOrd (A : Type) := {
  blt : A → A → bool;
  blt_irrefl x : blt x x = false;
  blt_trans x y z : blt x y = true → blt y z = true → blt x z = true;
  blt_total x y : blt x y = false → blt y x = false → x = y
}.

#[export] Instance Z_bord : BOrd Z.
Proof.
  refine {| blt := Z.ltb |}; intros *; rewrite ?Z.ltb_irrefl, ?Z.ltb_lt, ?Z.ltb_ge; try done; lia.
Defined.

#[export] Instance prod_bord {A B} `{BOrd A, BOrd B} : BOrd (A * B).
Proof.
  refine {| blt := λ p q, blt p.1 q.1 || (negb (blt q.1 p.1) && blt p.2 q.2) |}.
  - intros [x y]. cbn. by rewrite !blt_irrefl, andb_false_r.
  - intros [x y] [x' y'] [x'' y'']. cbn.
    destruct (blt x x') eqn:E1, (blt x' x'') eqn:E2; cbn; intros H1 H2.
    + by rewrite (blt_trans _ _ _ E1 E2).
    + apply andb_true_iff in H2 as [H2%negb_true_iff _]. rewrite <- (blt_total _ _ E2 H2). by rewrite E1.
    + apply andb_true_iff in H1 as [H1%negb_true_iff _]. rewrite (blt_total _ _ E1 H1). by rewrite E2.
    + apply andb_true_iff in H1 as [H1%negb_true_iff G1], H2 as [H2%negb_true_iff G2].
      rewrite (blt_total _ _ E1 H1), (blt_total _ _ E2 H2), blt_irrefl. cbn. by apply (blt_trans _ y').
  - intros [x y] [x' y']. cbn. intros [E1 H1]%orb_false_iff [E2 H2]%orb_false_iff.
    rewrite E2 in H1. rewrite E1 in H2. f_equal; by apply blt_total.
Defined.

(** Lists in lexicographic order, as [Vec], [str] and [OsStr] compare. *)
Fixpoint lex_lt {A} `{BOrd A} (l k : list A) : bool :=
  match l, k with
  | _, [] => false
  | [], _ :: _ => true
  | x :: l, y :: k => blt x y || (negb (blt y x) && lex_lt l k)
  end.

#[export] Instance list_bord {A} `{BOrd A} : BOrd (list A).
Proof.
  refine {| blt := lex_lt |}.
  - intros l. induction l as [|x l IH]; cbn; [done|]. by rewrite blt_irrefl.
  - intros l. induction l as [|x l IH]; intros [|y k] [|z j]; cbn; try done.
    destruct (blt x y) eqn:E1, (blt y z) eqn:E2; cbn; intros H1 H2.
    + by rewrite (blt_trans _ _ _ E1 E2).
    + apply andb_true_iff in H2 as [H2%negb_true_iff _]. rewrite <- (blt_total _ _ E2 H2). by rewrite E1.
    + apply andb_true_iff in H1 as [H1%negb_true_iff _]. rewrite (blt_total _ _ E1 H1). by rewrite E2.
    + apply andb_true_iff in H1 as [H1%negb_true_iff G1], H2 as [H2%negb_true_iff G2].
      rewrite (blt_total _ _ E1 H1), (blt_total _ _ E2 H2), blt_irrefl. cbn. by apply (IH k).
  - intros l. induction l as [|x l IH]; intros [|y k]; cbn; try done.
    intros [E1 H1]%orb_false_iff [E2 H2]%orb_false_iff.
    rewrite E2 in H1. rewrite E1 in H2. f_equal; [by apply blt_total|by apply IH].
Defined.

Lemma blt_asym {A} `{BOrd A} x y : blt x y = true → blt y x = false.
Proof.
  intros Hxy. destruct (blt y x) eqn:Hyx; [|done].
  pose proof (blt_trans _ _ _ Hxy Hyx) as E. by rewrite blt_irrefl in E.
Qed.

Section keyed.
Context {A K : Type} `{BOrd K} (key : A → K).

(** [BTreeSet::insert]: an element already there is kept. *)
Fixpoint bk_insert (x : A) (s : list A) : list A :=
  match s with
  | [] => [x]
  | y :: s' => if blt (key x) (key y) then x :: s
               else if blt (key y) (key x) then y :: bk_insert x s' else s
  end.

Definition bk_extend (s l : list A) : list A := foldl (λ s x, bk_insert x s) s l.

(** [BTreeSet::contains]. *)
Definition bk_contains (x : A) (s : list A) : bool := existsb (λ y, negb (blt (key y) (key x)) && negb (blt (key x) (key y))) s.

Definition bk_sorted (s : list A) : Prop := StronglySorted (λ x y, blt (key x) (key y) = true) s.

Lemma elem_of_bk_insert_1 x y s : x ∈ bk_insert y s → x = y ∨ x ∈ s.
Proof.
  induction s as [|z s IH]; cbn; [by intros ->%list_elem_of_singleton; left|].
  destruct (blt (key y) (key z)); [by rewrite elem_of_cons|].
  destruct (blt (key z) (key y)); [|by right]. rewrite !elem_of_cons. naive_solver.
Qed.

Lemma elem_of_bk_insert_2 x y s : x ∈ s → x ∈ bk_insert y s.
Proof.
  induction s as [|z s IH]; cbn; [by intros ?%elem_of_nil|]. intros Hx.
  destruct (blt (key y) (key z)); [by right|]. destruct (blt (key z) (key y)); [|done].
  apply elem_of_cons in Hx as [->|Hx]; [by left|]. right. by apply IH.
Qed.

Lemma bk_contains_true x s : bk_contains x s = true ↔ ∃ y, y ∈ s ∧ key y = key x.
Proof.
  unfold bk_contains. rewrite existsb_exists. split.
  - intros (y & Hy%list_elem_of_In & [E1%negb_true_iff E2%negb_true_iff]%andb_true_iff).
    exists y. split; [done|by apply blt_total].
  - intros (y & Hy & E). exists y. rewrite E, blt_irrefl. split; [by apply list_elem_of_In|done].
Qed.

Lemma bk_insert_sorted x s : bk_sorted s → bk_sorted (bk_insert x s).
Proof.
  induction 1 as [|y s Hs IH Hy]; cbn; [repeat constructor|].
  destruct (blt (key x) (key y)) eqn:E1.
  - constructor; [by constructor|]. constructor; [done|]. eapply Forall_impl; [exact Hy|].
    intros z Hz. by apply (blt_trans _ (key y)).
  - destruct (blt (key y) (key x)) eqn:E2; [|by constructor]. constructor; [done|].
    apply Forall_forall. intros z [->|Hz]%elem_of_bk_insert_1; [done|]. rewrite Forall_forall in Hy. by apply Hy.
Qed.

Lemma bk_extend_sorted s l : bk_sorted s → bk_sorted (bk_extend s l).
Proof.
  unfold bk_extend. revert s. induction l as [|y l IH]; intros s Hs; cbn; [done|]. by apply IH, bk_insert_sorted.
Qed.

Lemma bk_sorted_NoDup s : bk_sorted s → NoDup s.
Proof.
  induction 1 as [|y s Hs IH Hy]; constructor; [|done]. intros Hin.
  rewrite Forall_forall in Hy. specialize (Hy y Hin). by rewrite blt_irrefl in Hy.
Qed.

(** Inserting an element that is there changes nothing. *)
Lemma bk_insert_contained x s : bk_sorted s → bk_contains x s = true → bk_insert x s = s.
Proof.
  intros Hs (y & Hy & E)%bk_contains_true. induction Hs as [|z s Hs IH Hz]; [by apply elem_of_nil in Hy|]. cbn.
  apply elem_of_cons in Hy as [->|Hy]; [by rewrite E, blt_irrefl|].
  rewrite Forall_forall in Hz. pose proof (Hz y Hy) as Hlt. rewrite E in Hlt.
  rewrite (blt_asym _ _ Hlt), Hlt. f_equal. by apply IH.
Qed.

(** The first [n] elements after an insertion depend on the first [n] before. *)
Lemma take_bk_insert n x s : take n (bk_insert x s) = take n (bk_insert x (take n s)).
Proof.
  revert n. induction s as [|y s IH]; intros [|n]; cbn; try done.
  destruct (blt (key x) (key y)); cbn; [by destruct n; cbn; [|rewrite take_take, Nat.min_l by lia]|].
  destruct (blt (key y) (key x)); cbn; [by rewrite IH|]. by rewrite take_take, Nat.min_id.
Qed.

(** An element after all the others is inserted last. *)
Lemma bk_insert_last x s : Forall (λ y, blt (key y) (key x) = true) s → bk_insert x s = s ++ [x].
Proof.
  induction 1 as [|y s Hy _ IH]; cbn; [done|]. by rewrite (blt_asym _ _ Hy), Hy, IH.
Qed.

(** An element before the last one pushes it out of the first [length s]. *)
Lemma take_bk_insert_before x s z :
  bk_sorted (s ++ [z]) → bk_contains x (s ++ [z]) = false → blt (key x) (key z) = true →
  take (S (length s)) (bk_insert x (s ++ [z])) = bk_insert x s.
Proof.
  intros Hs Hc Hx. induction s as [|y s IH]; cbn; [by rewrite Hx|].
  inversion Hs as [|?? Hs' Hy]; subst. cbn in Hc. apply orb_false_iff in Hc as [Ey Hc].
  destruct (blt (key x) (key y)) eqn:E1; [cbn; by rewrite take_app_length|].
  destruct (blt (key y) (key x)) eqn:E2; [cbn; f_equal; by apply IH|].
  done.
Qed.

(** [sort_by_key]: a stable sort. *)
Fixpoint sort_insert (x : A) (l : list A) : list A :=
  match l with
  | [] => [x]
  | y :: l' => if blt (key x) (key y) then x :: l else y :: sort_insert x l'
  end.
Definition sort_by_key (l : list A) : list A := foldl (λ s x, sort_insert x s) [] l.

Lemma sort_insert_perm x l : sort_insert x l ≡ₚ x :: l.
Proof.
  induction l as [|y l IH]; cbn; [done|]. destruct (blt (key x) (key y)); [done|].
  rewrite IH. apply Permutation_swap.
Qed.

Lemma sort_by_key_perm l : sort_by_key l ≡ₚ l.
Proof.
  unfold sort_by_key. enough (∀ s, foldl (λ s x, sort_insert x s) s l ≡ₚ s ++ l) as E by apply E.
  induction l as [|x l IH]; intros s; cbn; [by rewrite app_nil_r|].
  rewrite IH, sort_insert_perm. cbn. by rewrite Permutation_middle.
Qed.

Lemma sort_insert_sorted x l :
  StronglySorted (λ x y, blt (key y) (key x) = false) l →
  StronglySorted (λ x y, blt (key y) (key x) = false) (sort_insert x l).
Proof.
  induction 1 as [|y s Hs IH Hy]; cbn; [repeat constructor|].
  destruct (blt (key x) (key y)) eqn:E; constructor.
  - by constructor.
  - constructor; [by apply blt_asym|]. eapply Forall_impl; [exact Hy|]. intros z Hz.
    cbn in *. destruct (blt (key z) (key x)) eqn:Ez; [|done]. rewrite (blt_trans _ _ _ Ez E) in Hz. done.
  - done.
  - rewrite sort_insert_perm. constructor; [done|]. done.
Qed.

Lemma sort_by_key_sorted l : StronglySorted (λ x y, blt (key y) (key x) = false) (sort_by_key l).
Proof.
  unfold sort_by_key. enough (∀ s, StronglySorted (λ x y, blt (key y) (key x) = false) s →
    StronglySorted (λ x y, blt (key y) (key x) = false) (foldl (λ s x, sort_insert x s) s l)) as E by (apply E; constructor).
  induction l as [|x l IH]; intros s Hs; cbn; [done|]. by apply IH, sort_insert_sorted.
Qed.
End keyed.

(** [BTreeSet]s of elements compared as they are. *)
Section btree.
Context {A : Type} `{BOrd A}.

Definition bt_insert (x : A) (s : list A) : list A := bk_insert (λ x, x) x s.

(** [collect::<BTreeSet<_>>] and [extend]. *)
Definition bt_extend (s l : list A) : list A := bk_extend (λ x, x) s l.
Definition bt_collect (l : list A) : list A := bt_extend [] l.

Lemma elem_of_bt_insert x y s : x ∈ bt_insert y s ↔ x = y ∨ x ∈ s.
Proof.
  split; [apply elem_of_bk_insert_1|]. intros [->|Hx]; [|by apply elem_of_bk_insert_2].
  unfold bt_insert. induction s as [|z s IH]; cbn; [by left|].
  destruct (blt y z) eqn:E1; [by left|]. destruct (blt z y) eqn:E2; [by right|].
  rewrite (blt_total _ _ E1 E2). by left.
Qed.

Lemma elem_of_bt_extend x s l : x ∈ bt_extend s l ↔ x ∈ s ∨ x ∈ l.
Proof.
  unfold bt_extend, bk_extend. revert s. induction l as [|y l IH]; intros s; cbn; [rewrite elem_of_nil; naive_solver|].
  rewrite IH. change (bk_insert (λ x, x) y s) with (bt_insert y s). rewrite elem_of_bt_insert, elem_of_cons. naive_solver.
Qed.

Lemma elem_of_bt_collect x l : x ∈ bt_collect l ↔ x ∈ l.
Proof. unfold bt_collect. rewrite elem_of_bt_extend, elem_of_nil. naive_solver. Qed.
End btree.
