(* ===== verification/Text.v ===== *)
(** Text: Rust's [str], [char], byte strings and [Path] as the program uses
    them.  A [str] is its sequence of Unicode scalar values, each a [Z];
    [str_len] is the length of its UTF-8 encoding, which is what [str::len]
    returns.  A byte string (an [OsStr], a socket payload) is a list of [Z]
    in [0..256]; a path is the byte string under [PathBuf], compared by
    components as [Path]'s [Eq], [Ord] and [Hash] compare it. *)

From S2P Require Import Prelude.

Abbreviation char := Z (only parsing).
Abbreviation str := (list Z).

(** A string literal of the source. *)
Definition lit (s : string) : str :=
  (λ a, Z.of_N (Ascii.N_of_ascii a)) <$> String.list_ascii_of_string s.

Definition str_eqb (a b : str) : bool := bool_decide (a = b).

Lemma str_eqb_eq a b : str_eqb a b = true ↔ a = b.
Proof. apply bool_decide_eq_true. Qed.
Lemma str_eqb_neq a b : str_eqb a b = false ↔ a ≠ b.
Proof. apply bool_decide_eq_false. Qed.
#[export] Hint Rewrite str_eqb_eq str_eqb_neq : oc.

(** * Characters *)

Definition is_ascii_digit (c : char) : bool := (48 <=? c) && (c <=? 57).
Definition is_ascii_upper (c : char) : bool := (65 <=? c) && (c <=? 90).
Definition is_ascii_lower (c : char) : bool := (97 <=? c) && (c <=? 122).
Definition is_ascii_alphabetic (c : char) : bool := is_ascii_upper c || is_ascii_lower c.
Definition is_ascii_alphanumeric (c : char) : bool := is_ascii_alphabetic c || is_ascii_digit c.
Definition is_ascii_hexdigit (c : char) : bool :=
  is_ascii_digit c || ((65 <=? c) && (c <=? 70)) || ((97 <=? c) && (c <=? 102)).
Definition is_ascii_graphic (c : char) : bool := (33 <=? c) && (c <=? 126).

(** [char::is_control]: general category Cc. *)
Definition is_control (c : char) : bool := (c <=? 31) || ((127 <=? c) && (c <=? 159)).

(** [char::is_whitespace]: the White_Space property. *)
Definition is_whitespace (c : char) : bool :=
  ((9 <=? c) && (c <=? 13)) || (c =? 32) || (c =? 133) || (c =? 160) || (c =? 5760)
  || ((8192 <=? c) && (c <=? 8202)) || (c =? 8232) || (c =? 8233) || (c =? 8239)
  || (c =? 8287) || (c =? 12288).

(** A Unicode scalar value. *)
Definition is_scalar (c : Z) : bool :=
  (0 <=? c) && (c <=? 1114111) && negb ((55296 <=? c) && (c <=? 57343)).

Definition ascii_lower (c : char) : char := if is_ascii_upper c then c + 32 else c.
Definition ascii_upper (c : char) : char := if is_ascii_lower c then c - 32 else c.
Definition to_ascii_lowercase (s : str) : str := ascii_lower <$> s.
Definition eq_ignore_ascii_case (a b : str) : bool :=
  str_eqb (to_ascii_lowercase a) (to_ascii_lowercase b).

Definition len_utf8 (c : char) : Z :=
  if c <? 128 then 1 else if c <? 2048 then 2 else if c <? 65536 then 3 else 4.

(** [str::len]. *)
Definition str_len (s : str) : Z := foldr (λ c n, len_utf8 c + n) 0 s.

(** * Slices of strings *)

Fixpoint trim_start (s : str) : str :=
  match s with
  | c :: s' => if is_whitespace c then trim_start s' else s
  | [] => []
  end.
Definition trim_end (s : str) : str := reverse (trim_start (reverse s)).
Definition trim (s : str) : str := trim_end (trim_start s).

Fixpoint starts_with (p s : str) : bool :=
  match p, s with
  | [], _ => true
  | a :: p, b :: s => (a =? b) && starts_with p s
  | _ :: _, [] => false
  end.
Lemma starts_with_app (p s : str) : starts_with p (p ++ s) = true.
Proof. induction p as [|a p IH]; cbn; [done|]. by rewrite Z.eqb_refl. Qed.

Lemma starts_with_iff p s : starts_with p s = true ↔ ∃ rest, s = p ++ rest.
Proof.
  split; [|by intros [rest ->]; apply starts_with_app].
  revert s. induction p as [|a p IH]; intros s H; [by exists s|].
  destruct s as [|b s]; [done|]. cbn in H. apply andb_true_iff in H as [E%Z.eqb_eq H].
  apply IH in H as [rest ->]. exists rest. by subst.
Qed.

Definition ends_with (p s : str) : bool := starts_with (reverse p) (reverse s).

Definition strip_prefix (p s : str) : option str :=
  then_some (starts_with p s) (drop (length p) s).

Lemma strip_prefix_Some p s rest : strip_prefix p s = Some rest ↔ s = p ++ rest.
Proof.
  unfold strip_prefix. rewrite then_some_Some, starts_with_iff. split.
  - intros [[r ->] <-]. by rewrite drop_app_length.
  - intros ->. rewrite drop_app_length. eauto.
Qed.

Definition strip_suffix (p s : str) : option str :=
  then_some (ends_with p s) (take (length s - length p) s).

(** [str::contains] of a string. *)
Fixpoint contains (p s : str) : bool :=
  starts_with p s || match s with [] => false | _ :: s => contains p s end.

(** [str::split] at a character: always at least one piece. *)
Fixpoint split (sep : char) (s : str) : list str :=
  match s with
  | [] => [[]]
  | c :: s =>
      if c =? sep then [] :: split sep s
      else match split sep s with p :: ps => (c :: p) :: ps | [] => [[c]] end
  end.

(** The text whose pieces at [sep] are the given ones. *)
Fixpoint join (sep : char) (parts : list str) : str :=
  match parts with
  | [] => []
  | [p] => p
  | p :: parts => p ++ sep :: join sep parts
  end.

Lemma strip_prefix_char a s :
  strip_prefix [a] s = match s with c :: s' => then_some (a =? c) s' | [] => None end.
Proof.
  unfold strip_prefix. destruct s as [|c s]; cbn [starts_with length drop]; [done|].
  destruct (a =? c); [|done]. by destruct s.
Qed.

(** Trimming: a string with no white space at either end is a fixed point,
    and trimming leaves none. *)
Definition head_ok (s : str) : Prop := ∀ c s', s = c :: s' → is_whitespace c = false.

Lemma trim_start_head s : head_ok (trim_start s).
Proof.
  induction s as [|c s IH]; cbn; [by intros ? ?|]. destruct (is_whitespace c) eqn:E; [done|].
  by intros ? ? [= <- _].
Qed.

Lemma trim_start_id s : head_ok s → trim_start s = s.
Proof. destruct s as [|c s]; [done|]. intros H. cbn. by rewrite (H c s). Qed.

Lemma trim_start_suffix s : trim_start s `suffix_of` s.
Proof.
  induction s as [|c s IH]; cbn; [done|]. destruct (is_whitespace c); [|done].
  by apply suffix_cons_r.
Qed.

Lemma trim_end_prefix s : trim_end s `prefix_of` s.
Proof.
  unfold trim_end. destruct (trim_start_suffix (reverse s)) as [l E].
  exists (reverse l). rewrite <- reverse_app, <- E. by rewrite reverse_involutive.
Qed.

Lemma head_ok_prefix s t : t `prefix_of` s → head_ok s → head_ok t.
Proof. intros [l ->] H c t' ->. by apply (H c (t' ++ l)). Qed.

Lemma trim_head s : head_ok (trim s).
Proof. eapply head_ok_prefix; [apply trim_end_prefix|apply trim_start_head]. Qed.

Lemma trim_last s : head_ok (reverse (trim s)).
Proof. unfold trim, trim_end. rewrite reverse_involutive. apply trim_start_head. Qed.

Lemma trim_id s : head_ok s → head_ok (reverse s) → trim s = s.
Proof.
  intros H1 H2. unfold trim, trim_end. rewrite (trim_start_id s H1), (trim_start_id _ H2).
  apply reverse_involutive.
Qed.

Lemma trim_trim s : trim (trim s) = trim s.
Proof. apply trim_id; [apply trim_head|apply trim_last]. Qed.

Lemma trim_sub s x : x ∈ trim s → x ∈ s.
Proof.
  unfold trim. destruct (trim_end_prefix (trim_start s)) as [l E].
  destruct (trim_start_suffix s) as [k Ek]. intros H. rewrite Ek, E. set_solver.
Qed.

Lemma trim_length s : (length (trim s) ≤ length s)%nat.
Proof.
  unfold trim. destruct (trim_end_prefix (trim_start s)) as [l E].
  destruct (trim_start_suffix s) as [k Ek].
  pose proof (f_equal length E) as H1. pose proof (f_equal length Ek) as H2.
  rewrite length_app in H1, H2. lia.
Qed.

#[export] Hint Rewrite trim_trim : oc.

Lemma split_nonempty sep s : split sep s ≠ [].
Proof. destruct s as [|c s]; cbn; [done|]. destruct (c =? sep); [done|]. by destruct (split sep s). Qed.

Lemma split_no_sep sep s : Forall (λ p, sep ∉ p) (split sep s).
Proof.
  induction s as [|c s IH]; cbn; [constructor; [apply not_elem_of_nil|done]|].
  destruct (Z.eqb_spec c sep) as [->|Hc]; [constructor; [apply not_elem_of_nil|done]|].
  destruct (split sep s) as [|p ps]; inversion IH; subst; repeat constructor; try done.
  - by intros [->|?%not_elem_of_nil]%elem_of_cons.
  - by intros [->|?]%elem_of_cons.
Qed.

Lemma join_split sep s : join sep (split sep s) = s.
Proof.
  induction s as [|c s IH]; cbn; [done|].
  pose proof (split_nonempty sep s). destruct (Z.eqb_spec c sep) as [->|Hc].
  - destruct (split sep s) as [|p ps] eqn:E; [done|]. by rewrite <- IH.
  - destruct (split sep s) as [|p [|q ps]] eqn:E; [done| |]; cbn in *; by rewrite IH.
Qed.

Lemma split_piece sep p : sep ∉ p → split sep p = [p].
Proof.
  induction p as [|c p IH]; intros Hp; cbn; [done|]. apply not_elem_of_cons in Hp as [? ?].
  rewrite IH by done. by destruct (Z.eqb_spec c sep); [congruence|].
Qed.

Lemma split_app sep p s : sep ∉ p → split sep (p ++ sep :: s) = p :: split sep s.
Proof.
  induction p as [|c p IH]; intros Hp; cbn; [by rewrite Z.eqb_refl|].
  apply not_elem_of_cons in Hp as [? ?]. rewrite IH by done.
  by destruct (Z.eqb_spec c sep); [congruence|].
Qed.

Lemma split_join sep parts :
  parts ≠ [] → Forall (λ p, sep ∉ p) parts → split sep (join sep parts) = parts.
Proof.
  induction parts as [|p [|q parts] IH]; intros Hne Hp; [done| |]; inversion Hp; subst.
  - by apply split_piece.
  - change (join sep (p :: q :: parts)) with (p ++ sep :: join sep (q :: parts)).
    rewrite split_app by done. f_equal. by apply IH.
Qed.

(** * Parsing and printing of numbers *)

Definition digit_value (c : char) : option Z := then_some (is_ascii_digit c) (c - 48).

Fixpoint digits_from (hi : Z) (acc : Z) (s : str) : option Z :=
  match s with
  | [] => Some acc
  | c :: s =>
      d ← digit_value c;
      a ← checked_mul hi acc 10;
      a ← checked_add hi a d;
      digits_from hi a s
  end.

(** [str::parse] at an unsigned type whose largest value is [hi]. *)
Definition parse_unsigned (hi : Z) (s : str) : option Z :=
  match s with
  | [] => None
  | c :: rest =>
      if c =? 43 then match rest with [] => None | _ => digits_from hi 0 rest end
      else digits_from hi 0 s
  end.

(** [str::parse] at a signed type with range [lo..=hi], [lo < 0]. *)
Definition parse_signed (lo hi : Z) (s : str) : option Z :=
  match s with
  | 45 :: (_ :: _) as rest => Z.opp <$> digits_from (- lo) 0 (drop 1 rest)
  | _ => parse_unsigned hi s
  end.

(** [to_string] of an integer. *)
Definition show_Z (z : Z) : str := lit (pretty z).

(** * Byte strings and paths *)

Definition bytes_Forall (l : list Z) : Prop := Forall (λ b, 0 ≤ b < 256) l.

Definition is_cont (lo hi b : Z) : bool := (lo <=? b) && (b <=? hi).

(** [String::from_utf8_lossy]: each maximal ill-formed prefix of a sequence
    becomes U+FFFD. *)
Fixpoint from_utf8_lossy (l : list Z) : str :=
  match l with
  | [] => []
  | a :: l1 =>
      if a <? 128 then a :: from_utf8_lossy l1
      else if (194 <=? a) && (a <=? 223) then
        match l1 with
        | b :: l2 => if is_cont 128 191 b then ((a - 192) * 64 + (b - 128)) :: from_utf8_lossy l2
                     else 65533 :: from_utf8_lossy l1
        | [] => [65533]
        end
      else if (224 <=? a) && (a <=? 239) then
        let lo := if a =? 224 then 160 else 128 in
        let hi := if a =? 237 then 159 else 191 in
        match l1 with
        | b :: l2 =>
            if is_cont lo hi b then
              match l2 with
              | c :: l3 =>
                  if is_cont 128 191 c
                  then ((a - 224) * 4096 + (b - 128) * 64 + (c - 128)) :: from_utf8_lossy l3
                  else 65533 :: from_utf8_lossy l2
              | [] => [65533]
              end
            else 65533 :: from_utf8_lossy l1
        | [] => [65533]
        end
      else if (240 <=? a) && (a <=? 244) then
        let lo := if a =? 240 then 144 else 128 in
        let hi := if a =? 244 then 143 else 191 in
        match l1 with
        | b :: l2 =>
            if is_cont lo hi b then
              match l2 with
              | c :: l3 =>
                  if is_cont 128 191 c then
                    match l3 with
                    | d :: l4 =>
                        if is_cont 128 191 d
                        then ((a - 240) * 262144 + (b - 128) * 4096 + (c - 128) * 64 + (d - 128))
                               :: from_utf8_lossy l4
                        else 65533 :: from_utf8_lossy l3
                    | [] => [65533]
                    end
                  else 65533 :: from_utf8_lossy l2
              | [] => [65533]
              end
            else 65533 :: from_utf8_lossy l1
        | [] => [65533]
        end
      else 65533 :: from_utf8_lossy l1
  end.

Abbreviation path := (list Z) (only parsing).

(** [Path::components]: whether the path has a root, and its components
    after it; a [.] survives only at the front of a path with no root. *)
Definition path_is_absolute (p : path) : bool := starts_with (lit "/") p.
Definition path_components (p : path) : bool * list (list Z) :=
  let pieces := split 47 p in
  let kept := filter (λ q, q ≠ [] ∧ q ≠ lit ".") pieces in
  let leading := bool_decide (head pieces = Some (lit ".")) in
  (path_is_absolute p, if leading then lit "." :: kept else kept).

(** [Path]'s [==]. *)
Definition path_eqb (p q : path) : bool := bool_decide (path_components p = path_components q).
Definition path_equiv (p q : path) : Prop := path_components p = path_components q.

(** [contains] of a set of paths, whose elements are compared by [path_eqb]. *)
Definition path_mem (p : path) (s : list path) : bool := existsb (path_eqb p) s.

#[global] Arguments lit : simpl never.
#[global] Arguments str_eqb : simpl never.
#[global] Arguments path_is_absolute : simpl never.
#[global] Arguments path_components : simpl never.
#[global] Arguments is_ascii_alphanumeric : simpl never.
#[global] Arguments is_whitespace : simpl never.
#[global] Arguments is_control : simpl never.
