(* ===== verification/Truncate.v ===== *)
(** Cutting text at a byte bound, which must not split a character. *)

From S2P Require Import Prelude Text.

(** [&s[..n]]: the prefix of [n] bytes, when [n] is a character boundary. *)
Fixpoint slice_to (s : str) (n : Z) : option str :=
  if n =? 0 then Some []
  else match s with
       | [] => None
       | c :: s => if n <? len_utf8 c then None else cons c <$> slice_to s (n - len_utf8 c)
       end.

(** [while !message.is_char_boundary(end) { end -= 1; }], then the slice. *)
Fixpoint slice_to_boundary (fuel : nat) (message : str) (end_ : Z) : str :=
  match slice_to message end_, fuel with
  | Some s, _ => s
  | None, S fuel => slice_to_boundary fuel message (end_ - 1)
  | None, O => []
  end.

Lemma len_utf8_bounds c : 1 ≤ len_utf8 c ≤ 4.
Proof. unfold len_utf8. repeat case_match; lia. Qed.

Lemma str_len_nonneg s : 0 ≤ str_len s.
Proof. unfold str_len. induction s as [|c s IH]; cbn; [lia|]. pose proof (len_utf8_bounds c). lia. Qed.

Lemma str_len_cons c s : str_len (c :: s) = len_utf8 c + str_len s.
Proof. done. Qed.

Lemma str_len_app s t : str_len (s ++ t) = str_len s + str_len t.
Proof. induction s as [|c s IH]; cbn; [done|]. unfold str_len in *. rewrite IH. lia. Qed.

Lemma slice_to_iff s n p : slice_to s n = Some p ↔ p `prefix_of` s ∧ str_len p = n.
Proof.
  revert n p. induction s as [|c s IH]; intros n p; cbn [slice_to];
    destruct (Z.eqb_spec n 0) as [->|Hn].
  - split; [intros [= <-]; split; [by apply prefix_nil|done]|].
    intros [->%prefix_nil_inv _]. done.
  - split; [done|]. intros [->%prefix_nil_inv ?]. done.
  - split; [intros [= <-]; split; [apply prefix_nil|done]|].
    intros [_ H]. destruct p as [|d p]; [done|]. rewrite str_len_cons in H.
    pose proof (len_utf8_bounds d). pose proof (str_len_nonneg p). lia.
  - split.
    + case_match; [done|]. intros (q & [Hq E]%IH & ->)%fmap_Some.
      split; [by apply prefix_cons|]. rewrite str_len_cons. lia.
    + intros [Hp E]. destruct p as [|d p]; [cbn in E; lia|].
      pose proof (prefix_cons_inv_1 _ _ _ _ Hp) as ->. apply prefix_cons_inv_2 in Hp.
      rewrite str_len_cons in E. pose proof (str_len_nonneg p).
      destruct (Z.ltb_spec n (len_utf8 c)); [lia|].
      apply fmap_Some. exists p. split; [|done]. apply IH. split; [done|lia].
Qed.

Lemma slice_to_boundary_spec fuel m end_ :
  0 ≤ end_ ≤ Z.of_nat fuel →
  let p := slice_to_boundary fuel m end_ in
  p `prefix_of` m ∧ str_len p ≤ end_ ∧
  ∀ q, q `prefix_of` m → str_len q ≤ end_ → str_len q ≤ str_len p.
Proof.
  revert end_. induction fuel as [|fuel IH]; intros end_ He; cbn [slice_to_boundary];
    (destruct (slice_to m end_) as [p|] eqn:E;
     [apply slice_to_iff in E as [? <-]; by split_and!|]).
  - assert (end_ = 0) as -> by lia.
    assert (slice_to m 0 = Some []) as E' by (apply slice_to_iff; split; [apply prefix_nil|done]).
    congruence.
  - destruct (decide (end_ = 0)) as [->|].
    { assert (slice_to m 0 = Some []) as E' by (apply slice_to_iff; split; [apply prefix_nil|done]).
      congruence. }
    destruct (IH (end_ - 1)) as (Hp & Hl & Hm); [lia|]. split_and!; [done|lia|].
    intros q Hq Hle. apply Hm; [done|].
    destruct (decide (str_len q = end_)) as [Eq|]; [|lia].
    rewrite (proj2 (slice_to_iff m end_ q)) in E by done. done.
Qed.

(** A text cut to [end_] bytes fits, and is the longest that does. *)
Lemma slice_to_boundary_length s end_ :
  0 ≤ end_ → str_len (slice_to_boundary (Z.to_nat end_) s end_) ≤ end_.
Proof. intros H. destruct (slice_to_boundary_spec (Z.to_nat end_) s end_) as (_ & Hl & _); [lia|done]. Qed.
