(* ===== verification/Decimal.v ===== *)
(** Printed numbers: what [to_string] prints, [parse] reads back, and how
    long and of which characters the text is. *)

From S2P Require Import Prelude Text.

(** The characters [to_string] puts before [s] for [x]. *)
Lemma digit_value_pretty x :
  (x < 10)%N → digit_value (Z.of_N (Ascii.N_of_ascii (pretty_N_char x))) = Some (Z.of_N x).
Proof.
  intros Hx.
  assert (x = 0 ∨ x = 1 ∨ x = 2 ∨ x = 3 ∨ x = 4 ∨ x = 5 ∨ x = 6 ∨ x = 7 ∨ x = 8 ∨ x = 9)%N as H by lia.
  repeat (destruct H as [-> | H]; [reflexivity|]). by rewrite H.
Qed.

Lemma digits_from_go hi x s :
  Z.of_N x ≤ hi →
  digits_from hi 0 (lit (pretty_N_go x s)) = digits_from hi (Z.of_N x) (lit s).
Proof.
  revert s. induction (N.lt_wf_0 x) as [x _ IH]; intros s Hx.
  destruct (decide (x = 0)%N) as [->|Hne]; [by rewrite pretty_N_go_0|].
  pose proof (N.div_lt x 10 ltac:(lia) ltac:(lia)) as Hlt.
  pose proof (N.div_mod x 10 ltac:(lia)) as Hdm. pose proof (N.mod_lt x 10 ltac:(lia)) as Hr.
  rewrite pretty_N_go_step by lia.
  set (q := (x / 10)%N) in *. set (r := (x `mod` 10)%N) in *. clearbody q r.
  rewrite IH by lia.
  change (lit (String ?c s)) with (Z.of_N (Ascii.N_of_ascii c) :: lit s).
  cbn [digits_from]. rewrite digit_value_pretty by done. cbn [mbind option_bind].
  unfold checked_mul, checked_add.
  destruct (Z.leb_spec (Z.of_N q * 10) hi); [|lia]. cbn [mbind option_bind].
  destruct (Z.leb_spec (Z.of_N q * 10 + Z.of_N r) hi); [|lia].
  cbn [mbind option_bind]. f_equal. lia.
Qed.

Lemma go_digits x s :
  Forall (λ c, is_ascii_digit c = true) (lit s) →
  Forall (λ c, is_ascii_digit c = true) (lit (pretty_N_go x s)).
Proof.
  revert s. induction (N.lt_wf_0 x) as [x _ IH]; intros s Hs.
  destruct (decide (x = 0)%N) as [->|Hne]; [by rewrite pretty_N_go_0|].
  rewrite pretty_N_go_step by lia. apply IH; [apply N.div_lt; lia|].
  constructor; [|done]. pose proof (digit_value_pretty (x `mod` 10) ltac:(apply N.mod_lt; lia)) as H.
  unfold digit_value in H. by apply then_some_Some in H as [? _].
Qed.

Lemma go_length k x s :
  (x < 10 ^ N.of_nat k)%N → (length (lit (pretty_N_go x s)) ≤ k + length (lit s))%nat.
Proof.
  revert x s. induction k as [|k IH]; intros x s Hx.
  { assert (x = 0)%N as -> by (cbn in Hx; lia). by rewrite pretty_N_go_0. }
  destruct (decide (x = 0)%N) as [->|Hne]; [rewrite pretty_N_go_0; lia|].
  rewrite pretty_N_go_step by lia. rewrite Nat2N.inj_succ, N.pow_succ_r' in Hx.
  etrans; [by apply IH, N.Div0.div_lt_upper_bound|]. change (length (lit (String ?c s))) with (S (length (lit s))). lia.
Qed.

Lemma lit_cons_nonempty a s : lit (String a s) ≠ [].
Proof. done. Qed.

(** [to_string] of a natural number: some digit, then digits. *)
Lemma show_Z_cases n :
  0 ≤ n → show_Z n = lit "0" ∧ n = 0 ∨ 0 < n ∧ show_Z n = lit (pretty_N_go (Z.to_N n) EmptyString).
Proof.
  intros Hn. unfold show_Z. destruct n as [|p|p]; [by left|right|lia].
  split; [lia|]. done.
Qed.

Lemma show_Z_digits n : 0 ≤ n → Forall (λ c, is_ascii_digit c = true) (show_Z n).
Proof.
  intros [[-> _]|[_ ->]]%show_Z_cases; [by repeat constructor|]. apply go_digits. constructor.
Qed.

Lemma show_Z_length k n : (0 < k)%nat → 0 ≤ n < 10 ^ Z.of_nat k → (length (show_Z n) ≤ k)%nat.
Proof.
  intros Hk [H0 H]. apply show_Z_cases in H0 as [[-> _]|[Hp ->]]; [change (1 ≤ k)%nat; lia|].
  etrans; [apply (go_length k)|change (length (lit EmptyString)) with 0%nat; lia].
  apply N2Z.inj_lt. rewrite N2Z.inj_pow, Z2N.id, nat_N_Z by lia. done.
Qed.

Lemma parse_unsigned_digits hi s c :
  is_ascii_digit c = true → parse_unsigned hi (c :: s) = digits_from hi 0 (c :: s).
Proof.
  intros Hc. unfold parse_unsigned. destruct (Z.eqb_spec c 43) as [->|]; [done|done].
Qed.

(** What is printed is read back. *)
Lemma parse_show hi n : 0 ≤ n ≤ hi → parse_unsigned hi (show_Z n) = Some n.
Proof.
  intros [H0 Hhi]. pose proof (show_Z_digits n H0) as Hd.
  assert (digits_from hi 0 (show_Z n) = Some n) as E.
  { apply show_Z_cases in H0 as [[-> ->]|[Hp ->]].
    - change (lit _) with [48]. cbn [digits_from].
      change (digit_value 48) with (Some 0). unfold checked_mul, checked_add. cbn [mbind option_bind].
      rewrite (proj2 (Z.leb_le (0 * 10) _)) by lia. cbn [mbind option_bind].
      by rewrite (proj2 (Z.leb_le (0 * 10 + 0) _)) by lia.
    - rewrite digits_from_go by lia. change (lit EmptyString) with (@nil Z). cbn. f_equal. lia. }
  destruct (show_Z n) as [|c s] eqn:Es.
  { apply show_Z_cases in H0 as [[H _]|[Hp H]]; [by rewrite H in Es|].
    cbn in E. simplify_eq. }
  inversion Hd; subst. by rewrite parse_unsigned_digits.
Qed.

Lemma show_Z_inj m n : 0 ≤ m → 0 ≤ n → show_Z m = show_Z n → m = n.
Proof.
  intros Hm Hn E. pose proof (parse_show (Z.max m n) m ltac:(lia)) as H.
  rewrite E, parse_show in H by lia. congruence.
Qed.

Lemma ascii_str_len s : Forall (λ c, 0 ≤ c < 128) s → str_len s = Z.of_nat (length s).
Proof.
  induction 1 as [|c s Hc _ IH]; [done|]. cbn [str_len foldr]. fold (str_len s).
  unfold len_utf8. destruct (Z.ltb_spec c 128); [|lia]. rewrite IH. cbn [length]. lia.
Qed.

Lemma show_Z_ascii n : 0 ≤ n → Forall (λ c, 0 ≤ c < 128) (show_Z n).
Proof.
  intros H. eapply Forall_impl; [by apply show_Z_digits|].
  cbn. unfold is_ascii_digit. intros c Hc. bools. lia.
Qed.

Lemma show_u64_length n : 0 ≤ n ≤ u64_max → str_len (show_Z n) ≤ 20.
Proof.
  intros H. rewrite ascii_str_len by (apply show_Z_ascii; lia).
  pose proof (show_Z_length 20 n ltac:(lia) ltac:(unfold u64_max in H; lia)). lia.
Qed.

Lemma show_Z_nonempty n : 0 ≤ n → show_Z n ≠ [].
Proof. intros Hn E. pose proof (parse_show n n ltac:(lia)) as H. by rewrite E in H. Qed.

Lemma digits_from_range hi acc s n :
  0 ≤ acc ≤ hi → digits_from hi acc s = Some n → 0 ≤ n ≤ hi.
Proof.
  revert acc. induction s as [|c s IH]; intros acc Ha H; cbn in H; [by simplify_eq|].
  unfold digit_value, then_some in H. destruct (is_ascii_digit c) eqn:Hc; [|done].
  unfold is_ascii_digit in Hc. bools. cbn in H. unfold checked_mul, checked_add in H.
  destruct (Z.leb_spec (acc * 10) hi); [|done]. cbn in H.
  destruct (Z.leb_spec (acc * 10 + (c - 48)) hi); [|done]. cbn in H.
  eapply IH; [|done]. lia.
Qed.

Lemma parse_unsigned_range hi s n : 0 ≤ hi → parse_unsigned hi s = Some n → 0 ≤ n ≤ hi.
Proof.
  intros Hhi. unfold parse_unsigned. destruct s as [|c s]; [done|].
  destruct (c =? 43); [destruct s; [done|]|]; apply digits_from_range; lia.
Qed.
