(* ===== verification/Bytes.v ===== *)
(** Bytes: UTF-8 and little-endian integers as the standard library decodes
    them, with the encoders they invert. *)

From S2P Require Import Prelude Text.

(** * UTF-8 *)

Definition utf8_char (c : char) : list Z :=
  if c <? 128 then [c]
  else if c <? 2048 then [192 + c / 64; 128 + c mod 64]
  else if c <? 65536 then [224 + c / 4096; 128 + c / 64 mod 64; 128 + c mod 64]
  else [240 + c / 262144; 128 + c / 4096 mod 64; 128 + c / 64 mod 64; 128 + c mod 64].

(** [str::as_bytes]. *)
Definition utf8 (s : str) : list Z := s ≫= utf8_char.

(** [str::from_utf8]: overlong forms, surrogates and values above U+10FFFF
    are rejected. *)
Fixpoint from_utf8 (l : list Z) : option str :=
  match l with
  | [] => Some []
  | a :: l1 =>
      if a <? 128 then cons a <$> from_utf8 l1
      else if (194 <=? a) && (a <=? 223) then
        match l1 with
        | b :: l2 =>
            if is_cont 128 191 b then cons ((a - 192) * 64 + (b - 128)) <$> from_utf8 l2 else None
        | _ => None
        end
      else if (224 <=? a) && (a <=? 239) then
        match l1 with
        | b :: c :: l3 =>
            if is_cont (if a =? 224 then 160 else 128) (if a =? 237 then 159 else 191) b && is_cont 128 191 c
            then cons ((a - 224) * 4096 + (b - 128) * 64 + (c - 128)) <$> from_utf8 l3 else None
        | _ => None
        end
      else if (240 <=? a) && (a <=? 244) then
        match l1 with
        | b :: c :: d :: l4 =>
            if is_cont (if a =? 240 then 144 else 128) (if a =? 244 then 143 else 191) b
               && is_cont 128 191 c && is_cont 128 191 d
            then cons ((a - 240) * 262144 + (b - 128) * 4096 + (c - 128) * 64 + (d - 128)) <$> from_utf8 l4
            else None
        | _ => None
        end
      else None
  end.

(** Decide the comparisons of the goal. *)
Ltac tests :=
  repeat (match goal with
  | |- context [?a <? ?b] =>
      first [rewrite (proj2 (Z.ltb_lt a b)) by lia | rewrite (proj2 (Z.ltb_ge a b)) by lia]
  | |- context [?a <=? ?b] =>
      first [rewrite (proj2 (Z.leb_le a b)) by lia | rewrite (proj2 (Z.leb_gt a b)) by lia]
  | |- context [?a =? ?b] => destruct (Z.eqb_spec a b)
  end; cbn [andb]).

Lemma from_utf8_char c l :
  is_scalar c = true → from_utf8 (utf8_char c ++ l) = cons c <$> from_utf8 l.
Proof.
  intros Hc. unfold is_scalar in Hc. bools. unfold utf8_char.
  pose proof (Z.div_mod c 64 ltac:(lia)) as E1. pose proof (Z.mod_pos_bound c 64 ltac:(lia)) as B1.
  assert (c / 4096 = c / 64 / 64) as -> by by rewrite Z.div_div.
  assert (c / 262144 = c / 64 / 64 / 64) as -> by by rewrite !Z.div_div.
  set (h := c / 64) in *. set (r := c mod 64) in *. clearbody r.
  pose proof (Z.div_mod h 64 ltac:(lia)) as E2. pose proof (Z.mod_pos_bound h 64 ltac:(lia)) as B2.
  set (h2 := h / 64) in *. set (r2 := h mod 64) in *. clearbody r2.
  pose proof (Z.div_mod h2 64 ltac:(lia)) as E3. pose proof (Z.mod_pos_bound h2 64 ltac:(lia)) as B3.
  set (h3 := h2 / 64) in *. set (r3 := h2 mod 64) in *. clearbody r3. clearbody h3 h2 h.
  destruct (Z.ltb_spec c 128); [|destruct (Z.ltb_spec c 2048); [|destruct (Z.ltb_spec c 65536)]];
    cbn [app from_utf8]; unfold is_cont; tests; try lia; do 2 f_equal; lia.
Qed.

Lemma from_utf8_utf8 s : Forall (λ c, is_scalar c = true) s → from_utf8 (utf8 s) = Some s.
Proof.
  induction 1 as [|c s Hc _ IH]; [done|]. unfold utf8 in *. cbn. rewrite from_utf8_char by done.
  by rewrite IH.
Qed.

Lemma utf8_char_length c : is_scalar c = true → Z.of_nat (length (utf8_char c)) = len_utf8 c.
Proof. intros _. unfold utf8_char, len_utf8. by repeat case_match. Qed.

(** [str::len] is the number of bytes. *)
Lemma utf8_length s : Forall (λ c, is_scalar c = true) s → Z.of_nat (length (utf8 s)) = str_len s.
Proof.
  induction 1 as [|c s Hc _ IH]; [done|]. unfold utf8, str_len in *. cbn.
  rewrite length_app, Nat2Z.inj_add, IH, utf8_char_length by done. done.
Qed.

(** A byte below 128 encodes the character of its number alone. *)
Lemma utf8_no_ascii b s : b < 128 → Forall (λ c, is_scalar c = true) s → b ∉ s → b ∉ utf8 s.
Proof.
  intros Hb. induction 1 as [|c s Hc _ IH]; [intros _; apply not_elem_of_nil|].
  intros [Hne Hs]%not_elem_of_cons. unfold utf8 in *. cbn. apply not_elem_of_app. split; [|by apply IH].
  unfold is_scalar in Hc. bools.
  pose proof (Z.mod_pos_bound c 64 ltac:(lia)). pose proof (Z.mod_pos_bound (c / 64) 64 ltac:(lia)).
  pose proof (Z.mod_pos_bound (c / 4096) 64 ltac:(lia)).
  pose proof (Z.div_pos c 64 ltac:(lia) ltac:(lia)). pose proof (Z.div_pos c 4096 ltac:(lia) ltac:(lia)).
  pose proof (Z.div_pos c 262144 ltac:(lia) ltac:(lia)).
  unfold utf8_char.
  destruct (Z.ltb_spec c 128); [|destruct (Z.ltb_spec c 2048); [|destruct (Z.ltb_spec c 65536)]];
    rewrite !not_elem_of_cons; split_and!; try apply not_elem_of_nil; lia.
Qed.

Lemma utf8_no_nul s : Forall (λ c, is_scalar c = true) s → 0 ∉ s → 0 ∉ utf8 s.
Proof. by apply utf8_no_ascii. Qed.

Lemma utf8_byte s b : Forall (λ c, is_scalar c = true) s → b ∈ utf8 s → 0 ≤ b < 256.
Proof.
  intros Hs (c & Hb & Hc)%list_elem_of_bind. rewrite Forall_forall in Hs. specialize (Hs c Hc).
  unfold is_scalar in Hs. bools.
  pose proof (Z.mod_pos_bound c 64 ltac:(lia)). pose proof (Z.mod_pos_bound (c / 64) 64 ltac:(lia)).
  pose proof (Z.mod_pos_bound (c / 4096) 64 ltac:(lia)).
  pose proof (Z.div_pos c 64 ltac:(lia) ltac:(lia)). pose proof (Z.div_pos c 4096 ltac:(lia) ltac:(lia)).
  pose proof (Z.div_pos c 262144 ltac:(lia) ltac:(lia)).
  pose proof (Z.div_lt_upper_bound c 262144 5 ltac:(lia) ltac:(lia)).
  unfold utf8_char in Hb. revert Hb.
  destruct (Z.ltb_spec c 128); [|destruct (Z.ltb_spec c 2048); [|destruct (Z.ltb_spec c 65536)]];
    rewrite !elem_of_cons, elem_of_nil; intros Hb; destruct_or?; subst; try done; try lia;
    first [pose proof (Z.div_lt_upper_bound c 64 32 ltac:(lia) ltac:(lia)); lia
          |pose proof (Z.div_lt_upper_bound c 4096 16 ltac:(lia) ltac:(lia)); lia].
Qed.

(** * Little-endian integers *)

Fixpoint le_bytes (n : nat) (z : Z) : list Z :=
  match n with O => [] | S n => z mod 256 :: le_bytes n (z / 256) end.
Fixpoint from_le_bytes (l : list Z) : Z :=
  match l with [] => 0 | b :: l => b + 256 * from_le_bytes l end.

Lemma le_bytes_length n z : length (le_bytes n z) = n.
Proof. revert z. induction n as [|n IH]; intros z; cbn; [done|by rewrite IH]. Qed.

Lemma from_le_le_bytes n z : 0 ≤ z < 256 ^ Z.of_nat n → from_le_bytes (le_bytes n z) = z.
Proof.
  revert z. induction n as [|n IH]; intros z Hz; cbn; [cbn in Hz; lia|].
  rewrite Nat2Z.inj_succ, Z.pow_succ_r in Hz by lia.
  rewrite IH; [pose proof (Z.div_mod z 256 ltac:(lia)); lia|].
  split; [apply Z.div_pos; lia|apply Z.div_lt_upper_bound; lia].
Qed.
