(* ===== verification/Timing.v ===== *)
(** Time: [std::time::Duration] and [Instant].  A duration is its number of
    nanoseconds, at most [duration_max]; an instant is a point of the
    monotonic clock in nanoseconds, of which the program only takes
    differences and comparisons. *)

From S2P Require Import Prelude.

Abbreviation duration := Z (only parsing).
Abbreviation instant := Z (only parsing).

Definition nanos_per_sec : Z := 1000000000.
Definition nanos_per_milli : Z := 1000000.

(** [Duration::MAX]: [u64::MAX] seconds and 999,999,999 nanoseconds. *)
Definition duration_max : duration := u64_max * nanos_per_sec + 999999999.

Definition from_secs (s : Z) : duration := s * nanos_per_sec.
Definition from_millis (ms : Z) : duration := ms * nanos_per_milli.
Definition as_millis (d : duration) : Z := d / nanos_per_milli.

(** [Duration::saturating_add]. *)
Definition dur_saturating_add (a b : duration) : duration := saturating_add duration_max a b.

(** [Instant::checked_duration_since] and [saturating_duration_since]; the
    former's [unwrap_or_default] is the latter. *)
Definition checked_duration_since (now earlier : instant) : option duration :=
  checked_sub now earlier.
Definition saturating_duration_since (now earlier : instant) : duration :=
  saturating_sub now earlier.

(** [u64::try_from(d.as_millis()).unwrap_or(u64::MAX)]. *)
Definition millis_u64 (d : duration) : Z := default u64_max (try_from 0 u64_max (as_millis d)).

Definition valid_duration (d : duration) : Prop := 0 ≤ d ≤ duration_max.

Lemma checked_duration_default now earlier :
  default 0 (checked_duration_since now earlier) = saturating_duration_since now earlier.
Proof.
  unfold checked_duration_since, saturating_duration_since, checked_sub, saturating_sub.
  destruct (Z.leb_spec earlier now); cbn; lia.
Qed.

Lemma saturating_since_nonneg now earlier : 0 ≤ saturating_duration_since now earlier.
Proof. unfold saturating_duration_since, saturating_sub. lia. Qed.

Lemma saturating_since_mono now now' earlier :
  now ≤ now' → saturating_duration_since now earlier ≤ saturating_duration_since now' earlier.
Proof. unfold saturating_duration_since, saturating_sub. lia. Qed.

Lemma dur_saturating_add_valid a b : 0 ≤ a → 0 ≤ b → valid_duration (dur_saturating_add a b).
Proof.
  unfold valid_duration, dur_saturating_add, saturating_add, duration_max.
  unfold u64_max, nanos_per_sec. lia.
Qed.

Lemma millis_u64_mono d d' : 0 ≤ d ≤ d' → millis_u64 d ≤ millis_u64 d'.
Proof.
  intros Hd. unfold millis_u64, try_from, as_millis.
  assert (0 ≤ d / nanos_per_milli ≤ d' / nanos_per_milli)
    by (split; [apply Z.div_pos|apply Z.div_le_mono]; unfold nanos_per_milli; lia).
  destruct (Z.leb_spec 0 (d / nanos_per_milli)), (Z.leb_spec (d / nanos_per_milli) u64_max),
    (Z.leb_spec 0 (d' / nanos_per_milli)), (Z.leb_spec (d' / nanos_per_milli) u64_max);
    cbn; unfold u64_max in *; lia.
Qed.

Lemma millis_u64_bound d : 0 ≤ millis_u64 d ≤ u64_max.
Proof.
  unfold millis_u64, try_from. case_match; cbn; [|unfold u64_max; lia].
  destruct (Z.leb_spec 0 (as_millis d)), (Z.leb_spec (as_millis d) u64_max); naive_solver lia.
Qed.

#[export] Hint Resolve saturating_since_nonneg dur_saturating_add_valid millis_u64_bound : oc.

#[global] Arguments checked_duration_since : simpl never.
#[global] Arguments saturating_duration_since : simpl never.
#[global] Arguments dur_saturating_add : simpl never.
#[global] Arguments millis_u64 : simpl never.
