(* ===== verification/Float.v ===== *)
(** Floating point: [f32] and [f64] are the IEEE 754 binary formats of the
    Standard Library's [SpecFloat], rounding to nearest even as the hardware
    the program runs on does. *)

From Stdlib Require Export SpecFloat.
From S2P Require Import Prelude.

Abbreviation f32 := spec_float (only parsing).
Abbreviation f64 := spec_float (only parsing).

(** * Operations *)

Definition f32_of_Z (z : Z) : f32 := binary_normalize 24 128 z 0 false.
Definition f64_of_Z (z : Z) : f64 := binary_normalize 53 1024 z 0 false.

Definition f32_add : f32 → f32 → f32 := SFadd 24 128.
Definition f32_sub : f32 → f32 → f32 := SFsub 24 128.
Definition f32_mul : f32 → f32 → f32 := SFmul 24 128.
Definition f32_div : f32 → f32 → f32 := SFdiv 24 128.
Definition f64_add : f64 → f64 → f64 := SFadd 53 1024.
Definition f64_sub : f64 → f64 → f64 := SFsub 53 1024.
Definition f64_mul : f64 → f64 → f64 := SFmul 53 1024.
Definition f64_div : f64 → f64 → f64 := SFdiv 53 1024.

(** A decimal literal [n/d] of the source: [n] and [d] are exact, so the
    quotient is the literal's correctly rounded value. *)
Definition f32_ratio (n d : Z) : f32 := f32_div (f32_of_Z n) (f32_of_Z d).
Definition f64_ratio (n d : Z) : f64 := f64_div (f64_of_Z n) (f64_of_Z d).

Definition is_nan (x : spec_float) : bool := match x with S754_nan => true | _ => false end.
Definition is_finite (x : spec_float) : bool :=
  match x with S754_zero _ | S754_finite _ _ _ => true | _ => false end.
Definition f_zero : spec_float := S754_zero false.

(** [<], [<=], [>], [>=] and [==] of the source, all false at a NaN. *)
Definition f_lt (x y : spec_float) : bool := SFltb x y.
Definition f_le (x y : spec_float) : bool := SFleb x y.
Definition f_gt (x y : spec_float) : bool := f_lt y x.
Definition f_ge (x y : spec_float) : bool := f_le y x.
Definition f_eq (x y : spec_float) : bool := SFeqb x y.

(** [f32::max] and [min]: the other operand when one is a NaN. *)
Definition f_max (x y : spec_float) : spec_float :=
  if is_nan x then y else if is_nan y then x else if f_lt x y then y else x.
Definition f_min (x y : spec_float) : spec_float :=
  if is_nan x then y else if is_nan y then x else if f_lt y x then y else x.

(** [clamp], which panics unless [lo <= hi]. *)
Definition f_clamp (x lo hi : spec_float) : option spec_float :=
  if f_le lo hi then Some (if f_lt x lo then lo else if f_gt x hi then hi else x) else None.

(** * Order

    The comparison of two floats compares their signs, then exponents, then
    significands, so the floats that are no NaN embed in the integers'
    lexicographic order and are totally preordered. *)

#[export] Instance spec_float_eq_dec : EqDecision spec_float.
Proof. solve_decision. Defined.

Definition f_sign (x : spec_float) : Z :=
  match x with
  | S754_infinity true => -2
  | S754_finite true _ _ => -1
  | S754_finite false _ _ => 1
  | S754_infinity false => 2
  | _ => 0
  end.
Definition f_exp (x : spec_float) : Z :=
  match x with S754_finite true _ e => - e | S754_finite false _ e => e | _ => 0 end.
Definition f_mant (x : spec_float) : Z :=
  match x with S754_finite true m _ => - Zpos m | S754_finite false m _ => Zpos m | _ => 0 end.

Definition f_lex_lt (x y : spec_float) : Prop :=
  f_sign x < f_sign y ∨
  (f_sign x = f_sign y ∧
     (f_exp x < f_exp y ∨ (f_exp x = f_exp y ∧ f_mant x < f_mant y))).

Lemma compare_lex x y :
  is_nan x = false → is_nan y = false →
  match SFcompare x y with
  | Some Lt => f_lex_lt x y
  | Some Gt => f_lex_lt y x
  | Some Eq => f_sign x = f_sign y ∧ f_exp x = f_exp y ∧ f_mant x = f_mant y
  | None => False
  end.
Proof.
  unfold f_lex_lt. destruct x as [[]|[]| |[] mx ex], y as [[]|[]| |[] my ey]; intros ??; try done;
    cbn; try lia.
  all: destruct (Z.compare_spec ex ey) as [->|?|?]; cbn; try lia.
  all: fold (Pos.compare mx my); destruct (Pos.compare_spec mx my); cbn; subst; lia.
Qed.

Lemma f_lt_lex x y :
  f_lt x y = true ↔ is_nan x = false ∧ is_nan y = false ∧ f_lex_lt x y.
Proof.
  unfold f_lt, SFltb. split.
  - intros H. destruct (is_nan x) eqn:Hx; [by destruct x|].
    destruct (is_nan y) eqn:Hy; [by destruct x as [[]|[]| |[] ??], y|].
    pose proof (compare_lex x y Hx Hy). destruct (SFcompare x y) as [[]|]; done.
  - intros (Hx & Hy & H). pose proof (compare_lex x y Hx Hy) as HC.
    unfold f_lex_lt in *. destruct (SFcompare x y) as [[]|]; try done; lia.
Qed.

Lemma f_le_lex x y :
  f_le x y = true ↔ is_nan x = false ∧ is_nan y = false ∧ ¬ f_lex_lt y x.
Proof.
  unfold f_le, SFleb. split.
  - intros H. destruct (is_nan x) eqn:Hx; [by destruct x|].
    destruct (is_nan y) eqn:Hy; [by destruct x as [[]|[]| |[] ??], y|].
    pose proof (compare_lex x y Hx Hy) as HC. unfold f_lex_lt in *.
    destruct (SFcompare x y) as [[]|]; try done; split_and!; try done; lia.
  - intros (Hx & Hy & H). pose proof (compare_lex x y Hx Hy) as HC.
    unfold f_lex_lt in *. destruct (SFcompare x y) as [[]|]; try done; lia.
Qed.

Ltac f_order :=
  repeat match goal with
    | H : f_lt _ _ = true |- _ => apply f_lt_lex in H as (? & ? & ?)
    | H : f_le _ _ = true |- _ => apply f_le_lex in H as (? & ? & ?)
    | H : f_lt _ _ = false |- _ => apply not_true_iff_false in H; rewrite f_lt_lex in H
    | H : f_le _ _ = false |- _ => apply not_true_iff_false in H; rewrite f_le_lex in H
    end;
  try match goal with
    | |- f_lt _ _ = true => apply f_lt_lex
    | |- f_le _ _ = true => apply f_le_lex
    | |- f_lt _ _ = false => apply not_true_iff_false; rewrite f_lt_lex
    | |- f_le _ _ = false => apply not_true_iff_false; rewrite f_le_lex
    end;
  repeat match goal with
    | H : ¬ (?A ∧ ?B ∧ ?C), HA : ?A, HB : ?B |- _ =>
        assert (¬ C) by (intros ?; apply H; done); clear H
    end;
  try (intros (? & ? & ?)); unfold f_lex_lt in *;
  try match goal with |- _ ∧ _ ∧ _ => split_and! end; try done; try congruence; try lia.

Lemma f_le_refl x : is_nan x = false → f_le x x = true.
Proof. intros. f_order. Qed.

Lemma f_le_trans x y z : f_le x y = true → f_le y z = true → f_le x z = true.
Proof. intros. f_order. Qed.

Lemma f_lt_le x y : f_lt x y = true → f_le x y = true.
Proof. intros. f_order. Qed.

Lemma f_not_lt x y : is_nan x = false → is_nan y = false → f_lt x y = false → f_le y x = true.
Proof. intros. f_order. Qed.

(** A clamp of a number lands between its bounds; a NaN stays a NaN. *)
Lemma f_clamp_bounds x lo hi y :
  f_clamp x lo hi = Some y → is_nan x = false → f_le lo y = true ∧ f_le y hi = true.
Proof.
  unfold f_clamp, f_gt. destruct (f_le lo hi) eqn:Hb; [|done].
  destruct (f_lt x lo) eqn:H1; [|destruct (f_lt hi x) eqn:H2]; intros [= <-] Hx; split; f_order.
Qed.

Lemma f_clamp_id x lo hi :
  f_le lo x = true → f_le x hi = true → f_clamp x lo hi = Some x.
Proof.
  intros H1 H2. unfold f_clamp, f_gt. rewrite (f_le_trans lo x hi H1 H2).
  destruct (f_lt x lo) eqn:E1; [exfalso; f_order|].
  by destruct (f_lt hi x) eqn:E2; [exfalso; f_order|].
Qed.

Lemma f_le_finite lo x hi :
  is_finite lo = true → is_finite hi = true → f_le lo x = true → f_le x hi = true →
  is_finite x = true.
Proof. by destruct lo as [[]|[]| |[]??], x as [[]|[]| |[]??], hi as [[]|[]| |[]??]. Qed.

#[export] Hint Resolve f_le_refl f_lt_le : oc.
