(* ===== verification/Protocol.v ===== *)
(** The protocol crate ([crates/overcrow-protocol/src/state.rs]): the data
    Core publishes, and [CoreState], the overlay state machine behind it. *)

From S2P Require Import Prelude Text Float.

(** * Data *)

Record Rect := mkRect { rect_x : Z; rect_y : Z; rect_width : Z; rect_height : Z }.

#[export] Instance Rect_eq_dec : EqDecision Rect.
Proof. solve_decision. Defined.

Record GameWindow := mkGameWindow {
  gw_pid : option Z;
  gw_steam_app_id : option Z;
  gw_app_id : option str;
  gw_title : str;
  gw_rect : Rect;
  gw_scale : f64;
  gw_backend : str
}.

(** The derived [PartialEq]: field by field, the scale as floats compare. *)
Definition game_window_eqb (a b : GameWindow) : bool :=
  bool_decide (gw_pid a = gw_pid b) && bool_decide (gw_steam_app_id a = gw_steam_app_id b)
  && bool_decide (gw_app_id a = gw_app_id b) && bool_decide (gw_title a = gw_title b)
  && bool_decide (gw_rect a = gw_rect b) && f_eq (gw_scale a) (gw_scale b)
  && bool_decide (gw_backend a = gw_backend b).

Definition active_game_eqb (a b : option GameWindow) : bool :=
  match a, b with
  | Some a, Some b => game_window_eqb a b
  | None, None => true
  | _, _ => false
  end.

Inductive OverlayMode := Passive | Interactive.

#[export] Instance OverlayMode_eq_dec : EqDecision OverlayMode.
Proof. solve_decision. Defined.

Record GameTelemetry := mkGameTelemetry {
  gt_cpu_percent_hundredths : option Z;
  gt_resident_bytes : option Z;
  gt_cpu_temperature_millicelsius : option Z;
  gt_gpu_temperature_millicelsius : option Z
}.

#[export] Instance GameTelemetry_eq_dec : EqDecision GameTelemetry.
Proof. solve_decision. Defined.

Definition game_telemetry_default : GameTelemetry := mkGameTelemetry None None None None.

Record ManualStopwatchSnapshot := mkManualStopwatchSnapshot {
  mss_elapsed_ms : Z;
  mss_running : bool
}.

#[export] Instance ManualStopwatchSnapshot_eq_dec : EqDecision ManualStopwatchSnapshot.
Proof. solve_decision. Defined.

Definition manual_stopwatch_snapshot_default := mkManualStopwatchSnapshot 0 false.

Record CoreSnapshot := mkCoreSnapshot {
  cs_active_game : option GameWindow;
  cs_overlay_mode : OverlayMode;
  cs_session_elapsed_ms : option Z;
  cs_telemetry : option GameTelemetry;
  cs_manual_stopwatch : ManualStopwatchSnapshot
}.

#[export] Instance CoreSnapshot_eta : Eta CoreSnapshot := λ s,
  mkCoreSnapshot (cs_active_game s) (cs_overlay_mode s) (cs_session_elapsed_ms s)
    (cs_telemetry s) (cs_manual_stopwatch s).

Definition core_snapshot_default : CoreSnapshot :=
  mkCoreSnapshot None Passive None None manual_stopwatch_snapshot_default.

Record VersionedCoreSnapshot := mkVersionedCoreSnapshot {
  vcs_revision : Z;
  vcs_snapshot : CoreSnapshot
}.

(** * CoreState

    The struct has the snapshot as its one field, so the state is the
    snapshot and each method a function on it. *)

Definition observe_game (s : CoreSnapshot) (game : GameWindow) : CoreSnapshot :=
  s <| cs_active_game := Some game |>.

Definition clear_game (s : CoreSnapshot) : CoreSnapshot :=
  s <| cs_active_game := None |> <| cs_overlay_mode := Passive |>
    <| cs_session_elapsed_ms := None |>.

Definition toggle_overlay (s : CoreSnapshot) : CoreSnapshot :=
  if isNone (cs_active_game s) then s <| cs_overlay_mode := Passive |>
  else s <| cs_overlay_mode :=
           match cs_overlay_mode s with Passive => Interactive | Interactive => Passive end |>.

Definition set_overlay_interactive (s : CoreSnapshot) (interactive : bool) : CoreSnapshot :=
  s <| cs_overlay_mode :=
      if interactive && isSome (cs_active_game s) then Interactive else Passive |>.

(** A call of a [CoreState] method. *)
Inductive state_call :=
| CallObserve (game : GameWindow)
| CallClear
| CallToggle
| CallSetInteractive (interactive : bool).

Definition state_step (s : CoreSnapshot) (c : state_call) : CoreSnapshot :=
  match c with
  | CallObserve game => observe_game s game
  | CallClear => clear_game s
  | CallToggle => toggle_overlay s
  | CallSetInteractive i => set_overlay_interactive s i
  end.

(** * Input is captured only over a game *)

Definition interactive_needs_game (s : CoreSnapshot) : Prop :=
  cs_overlay_mode s = Interactive → is_Some (cs_active_game s).

Lemma state_step_interactive s c :
  interactive_needs_game s → interactive_needs_game (state_step s c).
Proof.
  unfold interactive_needs_game. destruct c as [game| | |i]; cbn.
  - eauto.
  - done.
  - unfold toggle_overlay. destruct (cs_active_game s) eqn:E; cbn; [rewrite E; eauto|done].
  - destruct i, (cs_active_game s) eqn:E; cbn; rewrite ?E; cbn; eauto; done.
Qed.

#[export] Hint Resolve state_step_interactive : oc.
