(* ===== verification/Settings.v ===== *)
(** Lifecycle settings ([crates/overcrow-config/src/model.rs]) and the game
    allowlist derived from them ([crates/overcrow-config/src/allowlist.rs]):
    which process identities the user has authorized. *)

From S2P Require Import Prelude Text.

(** * Lifecycle settings *)

Definition SETTINGS_SCHEMA_VERSION : Z := 1.

Record ShortcutSettings := mkShortcutSettings {
  ss_enabled : bool;
  ss_accelerator : str
}.

#[export] Instance ShortcutSettings_eq_dec : EqDecision ShortcutSettings.
Proof. solve_decision. Defined.

Record ManualGame := mkManualGame {
  mg_id : str;
  mg_name : str;
  mg_executable : path
}.

Record LifecycleSettings := mkLifecycleSettings {
  ls_schema_version : Z;
  ls_enabled : bool;
  ls_selected_steam_app_ids : gset Z;
  ls_manual_games : list ManualGame;
  ls_shortcut : ShortcutSettings
}.

Definition lifecycle_settings_default : LifecycleSettings :=
  mkLifecycleSettings SETTINGS_SCHEMA_VERSION false ∅ []
    (mkShortcutSettings true (lit "Meta+Alt+O")).

Inductive SettingsError :=
| UnsupportedSchemaVersion
| ZeroSteamAppId
| DuplicateManualId
| NonAbsoluteExecutable
| MalformedAccelerator.

#[export] Instance SettingsError_eq_dec : EqDecision SettingsError.
Proof. solve_decision. Defined.

Definition modifier_rank (part : str) : option Z :=
  if str_eqb part (lit "Meta") then Some 0
  else if str_eqb part (lit "Ctrl") then Some 1
  else if str_eqb part (lit "Alt") then Some 2
  else if str_eqb part (lit "Shift") then Some 3
  else None.

(** The loop of [accelerator_is_valid] over the parts still to read. *)
Fixpoint accelerator_parts (parts : list str) (modifiers : list str) (modifier_count : Z)
    (previous_rank : option Z) : bool :=
  match parts with
  | [] => false
  | [part] =>
      (0 <? modifier_count)
      && match part with
         | [] => false
         | character :: rest => is_ascii_alphanumeric character && bool_decide (rest = [])
         end
  | part :: parts =>
      match modifier_rank part with
      | None => false
      | Some rank =>
          if is_some_and (λ previous, rank <=? previous) previous_rank
             || bool_decide (part ∈ modifiers)
          then false
          else accelerator_parts parts (part :: modifiers) (modifier_count + 1) (Some rank)
      end
  end.

Definition accelerator_is_valid (accelerator : str) : bool :=
  accelerator_parts (split 43 accelerator) [] 0 None.

(** The loop over the manual games, which have pairwise distinct ids. *)
Fixpoint validate_manual_games (manual_ids : list str) (games : list ManualGame) :
    option SettingsError :=
  match games with
  | [] => None
  | game :: games =>
      if bool_decide (mg_id game ∈ manual_ids) then Some DuplicateManualId
      else if negb (path_is_absolute (mg_executable game)) then Some NonAbsoluteExecutable
      else validate_manual_games (mg_id game :: manual_ids) games
  end.

Definition validate_settings (s : LifecycleSettings) : result SettingsError LifecycleSettings :=
  if negb (ls_schema_version s =? SETTINGS_SCHEMA_VERSION) then Err UnsupportedSchemaVersion
  else if bool_decide (0 ∈ ls_selected_steam_app_ids s) then Err ZeroSteamAppId
  else match validate_manual_games [] (ls_manual_games s) with
       | Some e => Err e
       | None =>
           if negb (accelerator_is_valid (ss_accelerator (ls_shortcut s)))
           then Err MalformedAccelerator
           else Ok s
       end.

(** [deserialize_unique_steam_app_ids] on the decoded array; the error is the
    first repeated id. *)
Fixpoint unique_steam_app_ids (unique : gset Z) (ids : list Z) : result Z (gset Z) :=
  match ids with
  | [] => Ok unique
  | id :: ids =>
      if bool_decide (id ∈ unique) then Err id else unique_steam_app_ids ({[id]} ∪ unique) ids
  end.

Definition deserialize_unique_steam_app_ids (ids : list Z) : result Z (gset Z) :=
  unique_steam_app_ids ∅ ids.

(** * The allowlist *)

Record ProcessIdentity := mkProcessIdentity {
  pi_steam_app_id : option Z;
  pi_executable_chain : list path;
  pi_game_candidate : bool
}.

#[export] Instance ProcessIdentity_eta : Eta ProcessIdentity := λ i,
  mkProcessIdentity (pi_steam_app_id i) (pi_executable_chain i) (pi_game_candidate i).

Definition process_identity_default : ProcessIdentity := mkProcessIdentity None [] false.

(** The derived [PartialEq]; paths compare by components. *)
Definition paths_eqb (a b : list path) : bool :=
  bool_decide (path_components <$> a = path_components <$> b).
Definition process_identity_eqb (a b : ProcessIdentity) : bool :=
  bool_decide (pi_steam_app_id a = pi_steam_app_id b)
  && paths_eqb (pi_executable_chain a) (pi_executable_chain b)
  && bool_decide (pi_game_candidate a = pi_game_candidate b).

Record GameAllowlist := mkGameAllowlist {
  al_steam_app_ids : gset Z;
  al_manual_executables : list path
}.

Definition allowlist_default : GameAllowlist := mkGameAllowlist ∅ [].

Definition from_settings (settings : LifecycleSettings) : GameAllowlist :=
  if negb (ls_enabled settings) || negb (is_ok (validate_settings settings))
  then allowlist_default
  else mkGameAllowlist (ls_selected_steam_app_ids settings)
         (mg_executable <$> ls_manual_games settings).

Definition allows_identity (al : GameAllowlist) (identity : ProcessIdentity) : bool :=
  is_some_and (λ id, bool_decide (id ∈ al_steam_app_ids al))
    (opt_filter (λ id, negb (id =? 0)) (pi_steam_app_id identity))
  || existsb (λ p, path_mem p (al_manual_executables al)) (pi_executable_chain identity).

(** Pids are classified once each, in ascending order. *)
Definition any_selected_process (al : GameAllowlist) (pids : list Z)
    (classify : Z → ProcessIdentity) : bool :=
  existsb (λ pid, allows_identity al (classify pid))
    (merge_sort (≤) (elements (list_to_set pids : gset Z))).

(** * Accelerators

    The accepted accelerators are exactly: a nonempty selection of [Meta],
    [Ctrl], [Alt] and [Shift] in this order, then one ASCII letter or digit. *)

Definition canonical_modifiers : list str := [lit "Meta"; lit "Ctrl"; lit "Alt"; lit "Shift"].

Definition accelerator_spec (accelerator : str) : Prop :=
  ∃ mods c, mods ≠ [] ∧ mods `sublist_of` canonical_modifiers ∧
    is_ascii_alphanumeric c = true ∧ accelerator = join 43 (mods ++ [[c]]).

(** Modifiers of strictly increasing rank, all above [previous]. *)
Fixpoint rank_chain (previous : option Z) (mods : list str) : Prop :=
  match mods with
  | [] => True
  | m :: mods =>
      ∃ rank, modifier_rank m = Some rank ∧
        is_some_and (λ previous, rank <=? previous) previous = false ∧
        rank_chain (Some rank) mods
  end.

Lemma modifier_rank_lookup m r :
  modifier_rank m = Some r ↔ 0 ≤ r ∧ canonical_modifiers !! Z.to_nat r = Some m.
Proof.
  unfold modifier_rank, canonical_modifiers. split.
  - repeat case_match; bools; intros; simplify_eq; done.
  - intros [Hr H]. assert (r < 4) by (apply lookup_lt_Some in H; cbn in H; lia).
    assert (r = 0 ∨ r = 1 ∨ r = 2 ∨ r = 3) as [->|[->|[->| ->]]] by lia; cbn in H;
      by injection H as <-.
Qed.

Definition ranks_below (previous : option Z) (mods : list str) : Prop :=
  Forall (λ m, ∃ r p, modifier_rank m = Some r ∧ previous = Some p ∧ r ≤ p) mods.

Lemma accelerator_parts_spec ms part mods count prev :
  0 ≤ count → ranks_below prev mods →
  accelerator_parts (ms ++ [part]) mods count prev = true ↔
  0 < count + Z.of_nat (length ms) ∧ (∃ c, part = [c] ∧ is_ascii_alphanumeric c = true) ∧ rank_chain prev ms.
Proof.
  revert mods count prev. induction ms as [|m ms IH]; intros mods count prev Hc Hb.
  - cbn. destruct part as [|c [|]]; bools; cbn; [naive_solver|rewrite Z.add_0_r; naive_solver|].
    split; [intros (?&?&?); done|naive_solver].
  - assert (∀ p, accelerator_parts ((m :: ms) ++ [part]) mods count p =
      match modifier_rank m with
      | None => false
      | Some rank =>
          if is_some_and (λ previous, rank <=? previous) p || bool_decide (m ∈ mods)
          then false
          else accelerator_parts (ms ++ [part]) (m :: mods) (count + 1) (Some rank)
      end) as -> by (intros p; cbn; by destruct ms).
    cbn [rank_chain length]. destruct (modifier_rank m) as [r|] eqn:Hm; [|naive_solver].
    destruct (is_some_and _ prev) eqn:Hp; cbn [orb]; [naive_solver|].
    assert (bool_decide (m ∈ mods) = false) as ->.
    { apply bool_decide_eq_false. intros Hin.
      destruct (proj1 (Forall_forall _ _) Hb m Hin) as (r' & p & ? & -> & ?). simplify_eq.
      cbn in Hp. lia. }
    rewrite IH; [|lia|].
    + rewrite Nat2Z.inj_succ. split; [intros (?&?&?)|intros (?&?&?&?&?&?)]; simplify_eq;
        split_and!; eauto; lia.
    + constructor; [eauto with lia|]. eapply Forall_impl; [exact Hb|].
      cbn. intros x (r' & p & ? & -> & ?). cbn in Hp. exists r', r. split_and!; [done..|lia].
Qed.

Lemma rank_chain_sublist prev k ms :
  match prev with Some p => 0 ≤ p ∧ k = S (Z.to_nat p) | None => k = 0%nat end →
  rank_chain prev ms ↔ ms `sublist_of` drop k canonical_modifiers.
Proof.
  revert prev k. induction ms as [|m ms IH]; intros prev k Hk; [split; [intros; apply sublist_nil_l|done]|].
  cbn [rank_chain]. setoid_rewrite modifier_rank_lookup. split.
  - intros (r & [Hr Hl] & Hp & Hch). apply (IH _ (S (Z.to_nat r))) in Hch; [|done].
    assert (k ≤ Z.to_nat r)%nat by (destruct prev; cbn in Hp; lia).
    replace (Z.to_nat r) with (k + (Z.to_nat r - k))%nat in Hl, Hch by lia.
    rewrite <- lookup_drop in Hl. rewrite <- Nat.add_succ_r, <- drop_drop in Hch.
    rewrite <- (take_drop_middle _ _ _ Hl). apply sublist_inserts_l. by apply sublist_skip.
  - intros H. apply sublist_cons_l in H as (l1 & l2 & E & Hs).
    set (i := (k + length l1)%nat).
    assert (canonical_modifiers !! i = Some m) as Hi.
    { unfold i. rewrite <- lookup_drop, E. by apply list_lookup_middle. }
    exists (Z.of_nat i). rewrite Nat2Z.id. split_and!; [lia|done| |].
    + destruct prev; [apply Z.leb_gt; unfold i; lia|done].
    + apply (IH (Some (Z.of_nat i)) (S i)); [lia|]. unfold i.
      replace (S (k + length l1)) with (k + S (length l1))%nat by lia.
      rewrite <- drop_drop, E, cons_middle, app_assoc, drop_app_ge
        by (rewrite length_app; cbn; lia).
      rewrite length_app; cbn. by replace (S (length l1) - (length l1 + 1))%nat with 0%nat by lia.
Qed.

Lemma sublist_modifier_no_plus mods :
  mods `sublist_of` canonical_modifiers → Forall (λ p, 43 ∉ p) mods.
Proof.
  intros H. assert (Forall (λ p, 43 ∉ p) canonical_modifiers) as Hc.
  { refine (bool_decide_unpack _ _). by vm_compute. }
  rewrite Forall_forall in Hc |- *. intros x Hx. apply Hc.
  eapply elem_of_submseteq; [exact Hx|]. by apply sublist_submseteq.
Qed.

Lemma alphanumeric_not_plus c : is_ascii_alphanumeric c = true → 43 ∉ [c].
Proof. intros H [<-|?%not_elem_of_nil]%elem_of_cons; done. Qed.

Lemma accelerator_is_valid_iff accelerator :
  accelerator_is_valid accelerator = true ↔ accelerator_spec accelerator.
Proof.
  unfold accelerator_is_valid, accelerator_spec.
  assert (∀ ms part, accelerator_parts (ms ++ [part]) [] 0 None = true ↔
    ms ≠ [] ∧ (∃ c, part = [c] ∧ is_ascii_alphanumeric c = true) ∧
    ms `sublist_of` canonical_modifiers) as Hspec.
  { intros ms part. rewrite accelerator_parts_spec by (by constructor || lia).
    rewrite (rank_chain_sublist None 0) by done. rewrite drop_0.
    destruct ms; cbn [length]; [split; [lia|naive_solver]|]. split; intros (?&?&?); split_and!; try done; lia. }
  split.
  - intros H. destruct (exists_last (split_nonempty 43 accelerator)) as (ms & part & E).
    rewrite E in H. apply Hspec in H as (Hne & (c & -> & Hc) & Hs).
    exists ms, c. split_and!; try done. rewrite <- E. symmetry. apply join_split.
  - intros (mods & c & Hne & Hs & Hc & ->). rewrite split_join.
    + apply Hspec. eauto.
    + by destruct mods.
    + apply Forall_app; split; [by apply sublist_modifier_no_plus|].
      constructor; [by apply alphanumeric_not_plus|done].
Qed.

(** * Validation *)

Lemma validate_manual_games_None ids games :
  validate_manual_games ids games = None ↔
  NoDup (mg_id <$> games) ∧ (∀ game, game ∈ games → mg_id game ∉ ids) ∧
  Forall (λ game, path_is_absolute (mg_executable game) = true) games.
Proof.
  revert ids. induction games as [|game games IH]; intros ids; cbn.
  { split; [|done]. intros _. split_and!; [constructor|by intros ? ?%not_elem_of_nil|done]. }
  rewrite NoDup_cons, Forall_cons, list_elem_of_fmap.
  case_bool_decide as Hid; [split; [done|]; intros (_ & H & _); by destruct (H game); [constructor|]|].
  destruct (path_is_absolute (mg_executable game)) eqn:Ha; cbn;
    [|split; [done|by intros (_ & _ & ? & _)]].
  rewrite IH. split.
  - intros (Hn & Hids & Hf). split_and!; try done.
    + intros (g & E & Hg). apply (Hids g Hg). rewrite <- E. constructor.
    + intros g [->|Hg]%elem_of_cons; [done|]. by apply Hids, not_elem_of_cons in Hg as [_ ?].
  - intros ((Hg & Hn) & Hids & _ & Hf). split_and!; try done.
    intros g Hin. apply not_elem_of_cons. split; [|by apply Hids; constructor].
    intros E. apply Hg. eauto.
Qed.

(** Validation of lifecycle settings returns them unchanged, and succeeds
    exactly for schema version 1, no zero Steam application id, pairwise
    distinct manual game ids, absolute executables and an accelerator of the
    canonical form. *)
Theorem validate_settings_ok_iff s s' :
  validate_settings s = Ok s' ↔
  s' = s ∧ ls_schema_version s = SETTINGS_SCHEMA_VERSION ∧ 0 ∉ ls_selected_steam_app_ids s ∧
  NoDup (mg_id <$> ls_manual_games s) ∧
  Forall (λ game, path_is_absolute (mg_executable game) = true) (ls_manual_games s) ∧
  accelerator_spec (ss_accelerator (ls_shortcut s)).
Proof.
  unfold validate_settings. rewrite <- accelerator_is_valid_iff.
  destruct (Z.eqb_spec (ls_schema_version s) SETTINGS_SCHEMA_VERSION); cbn [negb]; [|naive_solver].
  case_bool_decide; [naive_solver|].
  destruct (validate_manual_games [] (ls_manual_games s)) as [er|] eqn:E.
  - split; [done|]. intros (_ & _ & _ & Hn & Hf & _).
    assert (validate_manual_games [] (ls_manual_games s) = None) by
      (apply validate_manual_games_None; split_and!; try done; intros; apply not_elem_of_nil).
    congruence.
  - apply validate_manual_games_None in E as (Hn & _ & Hf).
    destruct (accelerator_is_valid _); cbn; naive_solver.
Qed.

(** * Authorization *)

#[export] Instance path_equiv_equivalence : Equivalence path_equiv.
Proof. unfold path_equiv. split; [intros ?|intros ??|intros ???]; congruence. Qed.

Lemma path_mem_true p s : path_mem p s = true ↔ ∃ q, q ∈ s ∧ path_equiv p q.
Proof.
  unfold path_mem. rewrite existsb_exists. setoid_rewrite <- list_elem_of_In.
  unfold path_eqb, path_equiv. by setoid_rewrite bool_decide_eq_true.
Qed.

#[export] Instance path_mem_proper : Proper (path_equiv ==> eq ==> eq) path_mem.
Proof.
  intros p q Hpq s _ <-. apply eq_true_iff_eq. rewrite !path_mem_true.
  by setoid_rewrite Hpq.
Qed.

(** What the user authorized: the enabled, valid settings' nonzero Steam
    application ids and executables. *)
Definition authorized (s : LifecycleSettings) (identity : ProcessIdentity) : Prop :=
  ls_enabled s = true ∧ is_ok (validate_settings s) = true ∧
  ((∃ id, pi_steam_app_id identity = Some id ∧ id ∈ ls_selected_steam_app_ids s) ∨
   (∃ p game, p ∈ pi_executable_chain identity ∧ game ∈ ls_manual_games s ∧
      path_equiv p (mg_executable game))).

Lemma is_ok_validate s : is_ok (validate_settings s) = true ↔ validate_settings s = Ok s.
Proof.
  destruct (validate_settings s) as [s'|] eqn:E; [|done].
  apply validate_settings_ok_iff in E as [-> _]. done.
Qed.

Lemma allowlist_default_none identity : allows_identity allowlist_default identity = false.
Proof.
  apply not_true_iff_false. unfold allows_identity.
  rewrite orb_true_iff, is_some_and_true, existsb_exists.
  intros [(id & _ & H)|(p & _ & H)]; [|done]. by apply bool_decide_eq_true, not_elem_of_empty in H.
Qed.

Lemma allows_identity_authorized s identity :
  allows_identity (from_settings s) identity = true ↔ authorized s identity.
Proof.
  unfold from_settings, authorized.
  destruct (ls_enabled s) eqn:He; cbn [negb orb];
    [|rewrite allowlist_default_none; naive_solver].
  destruct (is_ok (validate_settings s)) eqn:Hv; cbn [negb];
    [|rewrite allowlist_default_none; naive_solver].
  unfold allows_identity. cbn [al_steam_app_ids al_manual_executables].
  apply is_ok_validate, validate_settings_ok_iff in Hv as (_ & _ & Hz & _).
  rewrite orb_true_iff, is_some_and_true, existsb_exists.
  setoid_rewrite opt_filter_Some. setoid_rewrite <- list_elem_of_In. setoid_rewrite path_mem_true.
  setoid_rewrite list_elem_of_fmap. split.
  - intros [(id & [? _] & ?%bool_decide_eq_true)|(p & ? & q & (game & -> & ?) & ?)]; naive_solver.
  - intros (_ & _ & [(id & ? & Hid)|(p & game & ? & ? & ?)]); [left|right; eauto 10].
    exists id. rewrite bool_decide_eq_true. split_and!; try done.
    destruct (Z.eqb_spec id 0) as [->|]; done.
Qed.

(** C3 A process is allowed exactly when the settings are enabled and valid
    and either its Steam application id is selected or an executable of its
    ancestry is, up to the equality of paths, a selected executable; the
    candidate flag plays no part. *)
Theorem allows_identity_iff_authorized s identity :
  allows_identity (from_settings s) identity = true ↔ authorized s identity.
Proof. apply allows_identity_authorized. Qed.

Lemma any_selected_process_true al pids classify :
  any_selected_process al pids classify = true ↔
  ∃ pid, pid ∈ pids ∧ allows_identity al (classify pid) = true.
Proof.
  unfold any_selected_process. rewrite existsb_exists. setoid_rewrite <- list_elem_of_In.
  split; intros (pid & Hin & ?); exists pid; (split; [|done]).
  - rewrite merge_sort_Permutation in Hin. by apply elem_of_elements, elem_of_list_to_set in Hin.
  - rewrite merge_sort_Permutation. by apply elem_of_elements, elem_of_list_to_set.
Qed.

#[export] Hint Rewrite any_selected_process_true : oc.

Lemma unique_steam_app_ids_spec unique ids :
  match unique_steam_app_ids unique ids with
  | Ok s => NoDup ids ∧ (∀ id, id ∈ ids → id ∉ unique) ∧ s = list_to_set ids ∪ unique
  | Err id => ∃ l r, ids = l ++ id :: r ∧ (id ∈ unique ∨ id ∈ l) ∧
                NoDup l ∧ ∀ x, x ∈ l → x ∉ unique
  end.
Proof.
  revert unique. induction ids as [|id ids IH]; intros unique; cbn.
  { split_and!; [constructor|by intros ? ?%not_elem_of_nil|set_solver]. }
  case_bool_decide as Hin.
  { exists [], ids. split_and!; [done|by left|constructor|by intros ? ?%not_elem_of_nil]. }
  specialize (IH ({[id]} ∪ unique)). destruct (unique_steam_app_ids _ ids) as [s|e].
  - destruct IH as (Hn & Hd & ->). split_and!; [constructor; [|done]| |set_solver].
    + intros H. apply (Hd id H). set_solver.
    + intros x [->|Hx]%elem_of_cons; [done|]. specialize (Hd x Hx). set_solver.
  - destruct IH as (l & r & -> & He & Hn & Hd). exists (id :: l), r. split_and!.
    + done.
    + destruct He; [|right; by constructor].
      destruct (decide (e = id)) as [->|]; [right; constructor|left; set_solver].
    + constructor; [|done]. intros H. apply (Hd id H). set_solver.
    + intros x [->|Hx]%elem_of_cons; [done|]. specialize (Hd x Hx). set_solver.
Qed.

(** Decoding the selected Steam ids rejects a repeated id, naming the first
    one that repeats an earlier entry, and otherwise yields the set of all
    ids of the array. *)
Theorem deserialize_steam_app_ids_unique ids :
  match deserialize_unique_steam_app_ids ids with
  | Ok s => NoDup ids ∧ s = list_to_set ids
  | Err id => ∃ l r, ids = l ++ id :: r ∧ id ∈ l ∧ NoDup l
  end.
Proof.
  unfold deserialize_unique_steam_app_ids. pose proof (unique_steam_app_ids_spec ∅ ids) as H.
  destruct (unique_steam_app_ids ∅ ids) as [s|e].
  - destruct H as (? & _ & ->). split; [done|set_solver].
  - destruct H as (l & r & -> & [?%not_elem_of_empty|?] & ? & _); [done|eauto].
Qed.
