(* ===== verification/Widgets.v ===== *)
(** The widget profile ([crates/overcrow-config/src/widgets.rs]): position,
    scale, size and visibility of each widget, and its validation. *)

From S2P Require Import Prelude Text Float.

(** * Constants *)

Definition WIDGET_SCHEMA_VERSION : Z := 3.
Definition DISCORD_PARTICIPANT_LIMIT_MIN : Z := 2.
Definition DISCORD_PARTICIPANT_LIMIT_MAX : Z := 16.
Definition LEGACY_DISCORD_AVATAR_SIZE_MIN : Z := 24.
Definition LEGACY_DISCORD_AVATAR_SIZE_MAX : Z := 64.
Definition WIDGET_SCALE_MIN : f32 := f32_ratio 3 4.
Definition WIDGET_SCALE_MAX : f32 := f32_ratio 7 4.
Definition WIDGET_PANEL_MIN : f32 := f32_of_Z 280.
Definition WIDGET_PANEL_MIN_HEIGHT : f32 := f32_of_Z 160.
Definition WIDGET_PANEL_MAX : f32 := f32_of_Z 900.

(** * Widgets *)

Inductive WidgetId :=
| Session | Clock | Performance | ManualStopwatch | Media | Notes
| WarframeStatus | WarframeFissures | WarframeMarket | WarframeSortie | WarframeInvasions
| TwitchChat | DiscordVoice.

#[export] Instance WidgetId_eq_dec : EqDecision WidgetId.
Proof. solve_decision. Defined.

Definition WidgetId_ALL : list WidgetId :=
  [Session; Clock; Performance; ManualStopwatch; Media; Notes; WarframeStatus; WarframeFissures;
   WarframeMarket; WarframeSortie; WarframeInvasions; TwitchChat; DiscordVoice].

Record WidgetPosition := mkWidgetPosition { wp_x : f32; wp_y : f32 }.

#[export] Instance WidgetPosition_eq_dec : EqDecision WidgetPosition.
Proof. solve_decision. Defined.

Definition default_position (id : WidgetId) : WidgetPosition :=
  let p xn xd yn yd := mkWidgetPosition (f32_ratio xn xd) (f32_ratio yn yd) in
  match id with
  | Session => p 0 1 0 1
  | Clock => p 1 1 0 1
  | Performance => p 0 1 1 1
  | ManualStopwatch => p 1 1 1 1
  | Media => p 5 10 0 1
  | Notes => p 5 10 1 1
  | WarframeStatus => p 5 10 12 100
  | WarframeFissures => p 1 1 45 100
  | WarframeMarket => p 0 1 45 100
  | WarframeSortie => p 0 1 18 100
  | WarframeInvasions => p 1 1 72 100
  | TwitchChat => p 1 1 28 100
  | DiscordVoice => p 0 1 28 100
  end.

Definition default_panel_size (id : WidgetId) : f32 * f32 :=
  let s w h := (f32_of_Z w, f32_of_Z h) in
  match id with
  | WarframeStatus => s 380 240
  | WarframeFissures => s 440 340
  | WarframeMarket => s 400 420
  | WarframeSortie => s 400 300
  | WarframeInvasions => s 440 360
  | TwitchChat => s 420 360
  | DiscordVoice => s 280 160
  | Notes => s 360 280
  | Media => s 320 160
  | _ => s 0 0
  end.

Record WidgetSettings := mkWidgetSettings {
  ws_enabled : bool;
  ws_show_in_passive : bool;
  ws_position : WidgetPosition;
  ws_scale : f32;
  ws_width : f32;
  ws_height : f32;
  ws_transparent_background : bool
}.

#[export] Instance WidgetSettings_eq_dec : EqDecision WidgetSettings.
Proof. solve_decision. Defined.

#[export] Instance WidgetSettings_eta : Eta WidgetSettings := λ s,
  mkWidgetSettings (ws_enabled s) (ws_show_in_passive s) (ws_position s) (ws_scale s)
    (ws_width s) (ws_height s) (ws_transparent_background s).

Definition widget_settings_with_passive (id : WidgetId) (enabled show_in_passive : bool) :
    WidgetSettings :=
  let '(width, height) := default_panel_size id in
  mkWidgetSettings enabled show_in_passive (default_position id) (f32_of_Z 1) width height false.

Definition widget_settings_new (id : WidgetId) (enabled : bool) : WidgetSettings :=
  widget_settings_with_passive id enabled false.

Definition effective_panel_size (s : WidgetSettings) (id : WidgetId) : f32 * f32 :=
  let '(default_w, default_h) := default_panel_size id in
  (if f_gt (ws_width s) f_zero then ws_width s else default_w,
   if f_gt (ws_height s) f_zero then ws_height s else default_h).

Inductive PerformanceLayout := Vertical | Horizontal.
Inductive DiscordVoiceAlignment := AlignLeft | AlignRight.

Record NotesDisplaySettings := mkNotesDisplaySettings {
  nd_show_note : bool;
  nd_show_checklist : bool
}.

Record DiscordVoiceDisplaySettings := mkDiscordVoiceDisplaySettings {
  dv_participant_limit : Z;
  dv_alignment : DiscordVoiceAlignment
}.

(** The wire form, with its legacy field and its defaults already filled in. *)
Record DiscordVoiceDisplayWire := mkDiscordVoiceDisplayWire {
  dw_participant_limit : Z;
  dw_alignment : DiscordVoiceAlignment;
  dw_avatar_size : option Z
}.

Definition discord_voice_display_from_wire (wire : DiscordVoiceDisplayWire) :
    result unit DiscordVoiceDisplaySettings :=
  if is_some_and
       (λ size, negb ((LEGACY_DISCORD_AVATAR_SIZE_MIN <=? size)
                      && (size <=? LEGACY_DISCORD_AVATAR_SIZE_MAX)))
       (dw_avatar_size wire)
  then Err tt
  else Ok (mkDiscordVoiceDisplaySettings (dw_participant_limit wire) (dw_alignment wire)).

(** * The profile *)

Record WidgetProfile := mkWidgetProfile {
  wpr_schema_version : Z;
  wpr_session : WidgetSettings;
  wpr_clock : WidgetSettings;
  wpr_clock_show_date : bool;
  wpr_performance : WidgetSettings;
  wpr_performance_layout : PerformanceLayout;
  wpr_manual_stopwatch : WidgetSettings;
  wpr_media : WidgetSettings;
  wpr_notes : WidgetSettings;
  wpr_notes_display : NotesDisplaySettings;
  wpr_warframe_status : WidgetSettings;
  wpr_warframe_fissures : WidgetSettings;
  wpr_warframe_market : WidgetSettings;
  wpr_warframe_sortie : WidgetSettings;
  wpr_warframe_invasions : WidgetSettings;
  wpr_twitch_chat : WidgetSettings;
  wpr_discord_voice : WidgetSettings;
  wpr_discord_voice_display : DiscordVoiceDisplaySettings;
  wpr_warframe_nightwave : WidgetSettings
}.

#[export] Instance WidgetProfile_eta : Eta WidgetProfile := λ p,
  mkWidgetProfile (wpr_schema_version p) (wpr_session p) (wpr_clock p) (wpr_clock_show_date p)
    (wpr_performance p) (wpr_performance_layout p) (wpr_manual_stopwatch p) (wpr_media p)
    (wpr_notes p) (wpr_notes_display p) (wpr_warframe_status p) (wpr_warframe_fissures p)
    (wpr_warframe_market p) (wpr_warframe_sortie p) (wpr_warframe_invasions p)
    (wpr_twitch_chat p) (wpr_discord_voice p) (wpr_discord_voice_display p)
    (wpr_warframe_nightwave p).

#[export] Instance PerformanceLayout_eq_dec : EqDecision PerformanceLayout.
Proof. solve_decision. Defined.
#[export] Instance DiscordVoiceAlignment_eq_dec : EqDecision DiscordVoiceAlignment.
Proof. solve_decision. Defined.
#[export] Instance NotesDisplaySettings_eq_dec : EqDecision NotesDisplaySettings.
Proof. solve_decision. Defined.
#[export] Instance DiscordVoiceDisplaySettings_eq_dec : EqDecision DiscordVoiceDisplaySettings.
Proof. solve_decision. Defined.

(** The derived [PartialEq]s: field by field, floats as floats compare. *)
Definition widget_settings_eqb (a b : WidgetSettings) : bool :=
  Bool.eqb (ws_enabled a) (ws_enabled b) && Bool.eqb (ws_show_in_passive a) (ws_show_in_passive b)
  && f_eq (wp_x (ws_position a)) (wp_x (ws_position b))
  && f_eq (wp_y (ws_position a)) (wp_y (ws_position b))
  && f_eq (ws_scale a) (ws_scale b) && f_eq (ws_width a) (ws_width b)
  && f_eq (ws_height a) (ws_height b)
  && Bool.eqb (ws_transparent_background a) (ws_transparent_background b).

Definition widget_profile_eqb (a b : WidgetProfile) : bool :=
  (wpr_schema_version a =? wpr_schema_version b)
  && forallb (λ f, widget_settings_eqb (f a) (f b))
       [wpr_session; wpr_clock; wpr_performance; wpr_manual_stopwatch; wpr_media; wpr_notes;
        wpr_warframe_status; wpr_warframe_fissures; wpr_warframe_market; wpr_warframe_sortie;
        wpr_warframe_invasions; wpr_twitch_chat; wpr_discord_voice; wpr_warframe_nightwave]
  && Bool.eqb (wpr_clock_show_date a) (wpr_clock_show_date b)
  && bool_decide (wpr_performance_layout a = wpr_performance_layout b)
  && bool_decide (wpr_notes_display a = wpr_notes_display b)
  && bool_decide (wpr_discord_voice_display a = wpr_discord_voice_display b).

Definition widget_profile_default : WidgetProfile := {|
  wpr_schema_version := WIDGET_SCHEMA_VERSION;
  wpr_session := widget_settings_new Session true;
  wpr_clock := widget_settings_new Clock false;
  wpr_clock_show_date := true;
  wpr_performance := widget_settings_new Performance false;
  wpr_performance_layout := Horizontal;
  wpr_manual_stopwatch := widget_settings_new ManualStopwatch false;
  wpr_media := widget_settings_new Media false;
  wpr_notes := widget_settings_new Notes false;
  wpr_notes_display := mkNotesDisplaySettings true true;
  wpr_warframe_status := widget_settings_with_passive WarframeStatus false true;
  wpr_warframe_fissures := widget_settings_with_passive WarframeFissures false true;
  wpr_warframe_market := widget_settings_with_passive WarframeMarket false false;
  wpr_warframe_sortie := widget_settings_with_passive WarframeSortie false true;
  wpr_warframe_invasions := widget_settings_with_passive WarframeInvasions false true;
  wpr_twitch_chat := widget_settings_with_passive TwitchChat false false;
  wpr_discord_voice := widget_settings_with_passive DiscordVoice false true;
  wpr_discord_voice_display := mkDiscordVoiceDisplaySettings 8 AlignLeft;
  wpr_warframe_nightwave := widget_settings_with_passive WarframeStatus false true
|}.

Definition widget_settings (p : WidgetProfile) (id : WidgetId) : WidgetSettings :=
  match id with
  | Session => wpr_session p
  | Clock => wpr_clock p
  | Performance => wpr_performance p
  | ManualStopwatch => wpr_manual_stopwatch p
  | Media => wpr_media p
  | Notes => wpr_notes p
  | WarframeStatus => wpr_warframe_status p
  | WarframeFissures => wpr_warframe_fissures p
  | WarframeMarket => wpr_warframe_market p
  | WarframeSortie => wpr_warframe_sortie p
  | WarframeInvasions => wpr_warframe_invasions p
  | TwitchChat => wpr_twitch_chat p
  | DiscordVoice => wpr_discord_voice p
  end.

(** The profile after [*settings_mut(id) = s]. *)
Definition widget_settings_mut (p : WidgetProfile) (id : WidgetId) (s : WidgetSettings) :
    WidgetProfile :=
  match id with
  | Session => p <| wpr_session := s |>
  | Clock => p <| wpr_clock := s |>
  | Performance => p <| wpr_performance := s |>
  | ManualStopwatch => p <| wpr_manual_stopwatch := s |>
  | Media => p <| wpr_media := s |>
  | Notes => p <| wpr_notes := s |>
  | WarframeStatus => p <| wpr_warframe_status := s |>
  | WarframeFissures => p <| wpr_warframe_fissures := s |>
  | WarframeMarket => p <| wpr_warframe_market := s |>
  | WarframeSortie => p <| wpr_warframe_sortie := s |>
  | WarframeInvasions => p <| wpr_warframe_invasions := s |>
  | TwitchChat => p <| wpr_twitch_chat := s |>
  | DiscordVoice => p <| wpr_discord_voice := s |>
  end.

(** * Validation *)

Inductive WidgetProfileError :=
| WidgetUnsupportedSchemaVersion
| InvalidPosition (id : WidgetId)
| InvalidScale (id : WidgetId)
| InvalidSize (id : WidgetId)
| EmptyNotesDisplay
| InvalidDiscordParticipantLimit.

Definition valid_ratio (value : f32) : bool :=
  is_finite value && (f_le f_zero value && f_le value (f32_of_Z 1)).
Definition valid_scale (value : f32) : bool :=
  is_finite value && (f_le WIDGET_SCALE_MIN value && f_le value WIDGET_SCALE_MAX).
Definition valid_panel_dim (value : f32) : bool :=
  is_finite value
  && (f_eq value f_zero
      || (f_le WIDGET_PANEL_MIN_HEIGHT value && f_le value WIDGET_PANEL_MAX)).

Definition position_is_valid (p : WidgetPosition) : bool :=
  valid_ratio (wp_x p) && valid_ratio (wp_y p).

(** The loop over [WidgetId::ALL]. *)
Fixpoint validate_widgets (p : WidgetProfile) (ids : list WidgetId) : option WidgetProfileError :=
  match ids with
  | [] => None
  | id :: ids =>
      let settings := widget_settings p id in
      if negb (position_is_valid (ws_position settings)) then Some (InvalidPosition id)
      else if negb (valid_scale (ws_scale settings)) then Some (InvalidScale id)
      else if negb (valid_panel_dim (ws_width settings)) || negb (valid_panel_dim (ws_height settings))
      then Some (InvalidSize id)
      else validate_widgets p ids
  end.

Definition validate_widget_profile (p : WidgetProfile) : result WidgetProfileError WidgetProfile :=
  if negb (wpr_schema_version p =? WIDGET_SCHEMA_VERSION) then Err WidgetUnsupportedSchemaVersion
  else match validate_widgets p WidgetId_ALL with
       | Some e => Err e
       | None =>
           if negb (nd_show_note (wpr_notes_display p))
              && negb (nd_show_checklist (wpr_notes_display p))
           then Err EmptyNotesDisplay
           else if negb ((DISCORD_PARTICIPANT_LIMIT_MIN
                            <=? dv_participant_limit (wpr_discord_voice_display p))
                         && (dv_participant_limit (wpr_discord_voice_display p)
                               <=? DISCORD_PARTICIPANT_LIMIT_MAX))
           then Err InvalidDiscordParticipantLimit
           else Ok p
       end.

(** * Lens laws *)

Lemma widget_settings_mut_eq p id s : widget_settings (widget_settings_mut p id s) id = s.
Proof. by destruct id. Qed.

Lemma widget_settings_mut_ne p id id' s :
  id ≠ id' → widget_settings (widget_settings_mut p id s) id' = widget_settings p id'.
Proof. by destruct id, id'. Qed.

Lemma widget_settings_mut_id p id : widget_settings_mut p id (widget_settings p id) = p.
Proof. by destruct id, p. Qed.

(** * What a valid profile promises *)

Definition widget_valid (s : WidgetSettings) : Prop :=
  position_is_valid (ws_position s) = true ∧ valid_scale (ws_scale s) = true ∧
  valid_panel_dim (ws_width s) = true ∧ valid_panel_dim (ws_height s) = true.

Definition profile_valid (p : WidgetProfile) : Prop :=
  wpr_schema_version p = WIDGET_SCHEMA_VERSION ∧
  (∀ id, widget_valid (widget_settings p id)) ∧
  (nd_show_note (wpr_notes_display p) || nd_show_checklist (wpr_notes_display p)) = true ∧
  DISCORD_PARTICIPANT_LIMIT_MIN ≤ dv_participant_limit (wpr_discord_voice_display p)
    ≤ DISCORD_PARTICIPANT_LIMIT_MAX.

Lemma WidgetId_ALL_complete id : id ∈ WidgetId_ALL.
Proof. by destruct id; apply (bool_decide_unpack _). Qed.

Lemma validate_widgets_None p ids :
  validate_widgets p ids = None ↔ ∀ id, id ∈ ids → widget_valid (widget_settings p id).
Proof.
  induction ids as [|id ids IH]; cbn; [split; [by intros _ ? ?%not_elem_of_nil|done]|].
  unfold widget_valid in *. setoid_rewrite elem_of_cons.
  destruct (position_is_valid _) eqn:E1; cbn; [|naive_solver congruence].
  destruct (valid_scale _) eqn:E2; cbn; [|naive_solver congruence].
  destruct (valid_panel_dim (ws_width _)) eqn:E3; cbn; [|naive_solver congruence].
  destruct (valid_panel_dim (ws_height _)) eqn:E4; cbn; naive_solver congruence.
Qed.

Lemma validate_widget_profile_ok p q :
  validate_widget_profile p = Ok q ↔ q = p ∧ profile_valid p.
Proof.
  unfold validate_widget_profile, profile_valid.
  destruct (Z.eqb_spec (wpr_schema_version p) WIDGET_SCHEMA_VERSION); cbn [negb]; [|naive_solver].
  assert ((∀ id, widget_valid (widget_settings p id)) ↔ validate_widgets p WidgetId_ALL = None) as ->.
  { rewrite validate_widgets_None. split; [auto|]. intros H id. apply H, WidgetId_ALL_complete. }
  destruct (validate_widgets p WidgetId_ALL); [naive_solver|].
  rewrite <- negb_orb.
  destruct (nd_show_note _ || nd_show_checklist _); cbn [negb]; [|naive_solver].
  destruct (Z.leb_spec DISCORD_PARTICIPANT_LIMIT_MIN (dv_participant_limit (wpr_discord_voice_display p))),
    (Z.leb_spec (dv_participant_limit (wpr_discord_voice_display p)) DISCORD_PARTICIPANT_LIMIT_MAX);
    cbn; naive_solver lia.
Qed.

(** [id] is the first widget of [WidgetId::ALL] whose settings are invalid. *)
Definition first_invalid (p : WidgetProfile) (id : WidgetId) : Prop :=
  ∃ before after, WidgetId_ALL = before ++ id :: after ∧
    ∀ id', id' ∈ before → widget_valid (widget_settings p id').

Lemma validate_widgets_Some p before ids e :
  (∀ id', id' ∈ before → widget_valid (widget_settings p id')) →
  WidgetId_ALL = before ++ ids → validate_widgets p ids = Some e →
  ∃ id, first_invalid p id ∧
    let s := widget_settings p id in
    (e = InvalidPosition id ∧ position_is_valid (ws_position s) = false ∨
     e = InvalidScale id ∧ position_is_valid (ws_position s) = true ∧ valid_scale (ws_scale s) = false ∨
     e = InvalidSize id ∧ position_is_valid (ws_position s) = true ∧ valid_scale (ws_scale s) = true ∧
       valid_panel_dim (ws_width s) && valid_panel_dim (ws_height s) = false).
Proof.
  revert before. induction ids as [|id ids IH]; intros before Hb Hall H; cbn in H; [done|].
  assert (first_invalid p id) as Hfirst by (exists before, ids; eauto).
  destruct (position_is_valid _) eqn:E1; cbn in H; [|exists id; injection H as <-; eauto].
  destruct (valid_scale _) eqn:E2; cbn in H; [|exists id; injection H as <-; eauto 10].
  rewrite <- negb_andb in H.
  destruct (_ && _) eqn:E3; cbn in H; [|exists id; injection H as <-; cbn; eauto 10].
  apply andb_true_iff in E3 as [E3 E4].
  apply (IH (before ++ [id])); [|by rewrite <- app_assoc|done].
  intros id' [?| ->%list_elem_of_singleton]%elem_of_app; [auto|done].
Qed.

(** Validation of a widget profile, on every branch: it returns the profile
    unchanged exactly when the profile is valid, and otherwise the error
    names the first invalid widget in the order of [WidgetId::ALL] and what
    is wrong with it, position before scale before size, or one of the three
    profile-wide defects. *)
Theorem validate_widget_profile_branches p :
  match validate_widget_profile p with
  | Ok q => q = p ∧ profile_valid p
  | Err WidgetUnsupportedSchemaVersion => wpr_schema_version p ≠ WIDGET_SCHEMA_VERSION
  | Err (InvalidPosition id) =>
      first_invalid p id ∧ position_is_valid (ws_position (widget_settings p id)) = false
  | Err (InvalidScale id) =>
      first_invalid p id ∧ position_is_valid (ws_position (widget_settings p id)) = true ∧
      valid_scale (ws_scale (widget_settings p id)) = false
  | Err (InvalidSize id) =>
      first_invalid p id ∧ position_is_valid (ws_position (widget_settings p id)) = true ∧
      valid_scale (ws_scale (widget_settings p id)) = true ∧
      valid_panel_dim (ws_width (widget_settings p id))
        && valid_panel_dim (ws_height (widget_settings p id)) = false
  | Err EmptyNotesDisplay =>
      (∀ id, widget_valid (widget_settings p id)) ∧
      wpr_notes_display p = mkNotesDisplaySettings false false
  | Err InvalidDiscordParticipantLimit =>
      (∀ id, widget_valid (widget_settings p id)) ∧
      let limit := dv_participant_limit (wpr_discord_voice_display p) in
      limit < DISCORD_PARTICIPANT_LIMIT_MIN ∨ DISCORD_PARTICIPANT_LIMIT_MAX < limit
  end.
Proof.
  destruct (validate_widget_profile p) as [q|e] eqn:E; [by apply validate_widget_profile_ok|].
  unfold validate_widget_profile in E.
  destruct (Z.eqb_spec (wpr_schema_version p) WIDGET_SCHEMA_VERSION) as [Hv|Hv]; cbn [negb] in E;
    [|by injection E as <-].
  destruct (validate_widgets p WidgetId_ALL) as [e'|] eqn:Ew.
  - injection E as ->.
    destruct (validate_widgets_Some p [] WidgetId_ALL e) as (id & Hf & H); [by intros ? ?%not_elem_of_nil|done..|].
    cbn in H. destruct H as [[-> ?]|[(-> & ? & ?)|(-> & ? & ? & ?)]]; done.
  - assert (∀ id, widget_valid (widget_settings p id)) as Hw
      by (intros id; eapply validate_widgets_None; [exact Ew|apply WidgetId_ALL_complete]).
    destruct (wpr_notes_display p) as [[] []]; cbn in E;
      try (injection E as <-; done);
      destruct (Z.leb_spec DISCORD_PARTICIPANT_LIMIT_MIN (dv_participant_limit (wpr_discord_voice_display p))),
        (Z.leb_spec (dv_participant_limit (wpr_discord_voice_display p)) DISCORD_PARTICIPANT_LIMIT_MAX);
      cbn in E; simplify_eq; split; try done; cbn; lia.
Qed.

(** Every profile reachable from the default one by replacing widgets'
    settings with valid ones validates: the default profile is valid, and an
    edit of one widget preserves validity and touches no other widget. *)
Theorem widget_edits_stay_valid (edits : list (WidgetId * WidgetSettings)) :
  Forall (λ e, widget_valid e.2) edits →
  let p := foldl (λ p e, widget_settings_mut p e.1 e.2) widget_profile_default edits in
  validate_widget_profile p = Ok p.
Proof.
  intros Hedits. cbn zeta.
  assert (∀ p, profile_valid p →
    profile_valid (foldl (λ p e, widget_settings_mut p e.1 e.2) p edits)) as Hpres.
  { induction Hedits as [|[id s] edits Hs _ IH]; intros p Hp; cbn; [done|]. apply IH.
    destruct Hp as (Hv & Hw & Hn & Hd). unfold profile_valid. split_and!.
    - by destruct id.
    - intros id'. destruct (decide (id = id')) as [<-|];
        [by rewrite widget_settings_mut_eq|by rewrite widget_settings_mut_ne].
    - by destruct id; cbn; apply Hn.
    - by destruct id; cbn; apply Hd.
    - by destruct id; cbn; apply Hd. }
  apply validate_widget_profile_ok. split; [done|]. apply Hpres.
  apply (validate_widget_profile_ok _ widget_profile_default). by vm_compute.
Qed.

Definition widget_sample : WidgetSettings :=
  mkWidgetSettings true true (mkWidgetPosition (f32_ratio 1 2) (f32_ratio 1 3)) (f32_ratio 3 2)
    (f32_of_Z 300) f_zero false.

Lemma widget_edits_stay_valid_witness :
  Forall (λ e : WidgetId * WidgetSettings, widget_valid e.2) [(Media, widget_sample); (Clock, widget_sample)] ∧
  let p := foldl (λ p e, widget_settings_mut p e.1 e.2) widget_profile_default
             [(Media, widget_sample); (Clock, widget_sample)] in
  validate_widget_profile p = Ok p.
Proof.
  assert (Forall (λ e : WidgetId * WidgetSettings, widget_valid e.2)
    [(Media, widget_sample); (Clock, widget_sample)]) as H by (repeat constructor).
  split; [exact H|]. apply (widget_edits_stay_valid _ H).
Defined.

Lemma default_panel_size_valid id :
  valid_panel_dim (default_panel_size id).1 = true ∧
  valid_panel_dim (default_panel_size id).2 = true ∧
  (default_panel_size id ≠ (f_zero, f_zero) →
   f_le WIDGET_PANEL_MIN_HEIGHT (default_panel_size id).1 = true ∧
   f_le WIDGET_PANEL_MIN_HEIGHT (default_panel_size id).2 = true).
Proof.
  split_and!; [by destruct id..|]. intros Hne. split; destruct id; by vm_compute.
Qed.

(** The panel a widget of a valid profile is drawn with has finite sides,
    each 0 (sized by its content) or from 160 to 900 logical pixels; a widget
    with a default panel never has a side of 0. *)
Theorem effective_panel_size_bounds p id :
  profile_valid p →
  let '(w, h) := effective_panel_size (widget_settings p id) id in
  valid_panel_dim w = true ∧ valid_panel_dim h = true ∧
  (default_panel_size id ≠ (f_zero, f_zero) →
   f_le WIDGET_PANEL_MIN_HEIGHT w = true ∧ f_le WIDGET_PANEL_MIN_HEIGHT h = true).
Proof.
  intros (_ & Hw & _). specialize (Hw id). destruct Hw as (_ & _ & Hwd & Hht).
  set (s := widget_settings p id) in *. unfold effective_panel_size.
  assert (∀ v d, valid_panel_dim v = true → valid_panel_dim d = true →
    valid_panel_dim (if f_gt v f_zero then v else d) = true ∧
    (f_le WIDGET_PANEL_MIN_HEIGHT d = true →
     f_le WIDGET_PANEL_MIN_HEIGHT (if f_gt v f_zero then v else d) = true)) as Hdim.
  { intros v d Hv Hd. destruct (f_gt v f_zero) eqn:Hgt; [|done]. split; [done|intros _].
    unfold valid_panel_dim in Hv. apply andb_true_iff in Hv as [_ [Hz|Hr]%orb_true_iff].
    - exfalso. unfold f_gt, f_lt, f_eq, SFltb, SFeqb in *. destruct v as [[]|[]| |[] ??]; done.
    - by apply andb_true_iff in Hr as [? _]. }
  destruct (default_panel_size_valid id) as (Hd1 & Hd2 & Hd3).
  destruct (default_panel_size id) as [dw dh]. cbn [fst snd] in *.
  destruct (Hdim (ws_width s) dw Hwd Hd1) as [? ?].
  destruct (Hdim (ws_height s) dh Hht Hd2) as [? ?]. naive_solver.
Qed.

Lemma effective_panel_size_bounds_witness :
  profile_valid widget_profile_default ∧
  let '(w, h) := effective_panel_size (widget_settings widget_profile_default Notes) Notes in
  valid_panel_dim w = true ∧ valid_panel_dim h = true ∧
  (default_panel_size Notes ≠ (f_zero, f_zero) →
   f_le WIDGET_PANEL_MIN_HEIGHT w = true ∧ f_le WIDGET_PANEL_MIN_HEIGHT h = true).
Proof.
  assert (profile_valid widget_profile_default) as H.
  { apply (validate_widget_profile_ok _ widget_profile_default). by vm_compute. }
  split; [exact H|]. exact (effective_panel_size_bounds widget_profile_default Notes H).
Defined.
