(* ===== verification/TwitchPrefs.v ===== *)
(** Twitch preferences ([crates/overcrow-config/src/twitch_prefs.rs]): the
    active channel, the favorites and the message lifetime, and the
    normalization every stored preference has gone through. *)

From S2P Require Import Prelude Text.

Definition TWITCH_PREFS_SCHEMA_VERSION : Z := 1.
Definition TWITCH_CHANNEL_MAX_CHARS : Z := 25.
Definition TWITCH_FAVORITES_MAX : nat := 20.
#[global] Arguments TWITCH_FAVORITES_MAX : simpl never.
Definition TWITCH_PASSIVE_LIFETIME_MIN_SECS : Z := 5.
Definition TWITCH_PASSIVE_LIFETIME_MAX_SECS : Z := 120.
Definition TWITCH_PASSIVE_LIFETIME_DEFAULT_SECS : Z := 30.

Record TwitchPrefs := mkTwitchPrefs {
  tp_schema_version : Z;
  tp_active_channel : option str;
  tp_favorites : list str;
  tp_passive_lifetime_secs : Z
}.

Definition twitch_prefs_default : TwitchPrefs :=
  mkTwitchPrefs TWITCH_PREFS_SCHEMA_VERSION None [] TWITCH_PASSIVE_LIFETIME_DEFAULT_SECS.

Inductive TwitchPrefsError :=
| TwitchUnsupportedSchemaVersion
| InvalidChannel
| TooManyFavorites
| InvalidPassiveLifetime.

Definition channel_char (c : char) : bool := is_ascii_alphanumeric c || (c =? 95).

Definition normalize_twitch_channel (value : str) : result TwitchPrefsError str :=
  let trimmed := trim value in
  let login := default trimmed (strip_prefix (lit "#") trimmed) in
  if bool_decide (login = []) || (TWITCH_CHANNEL_MAX_CHARS <? str_len login)
     || negb (forallb channel_char login)
  then Err InvalidChannel
  else Ok (to_ascii_lowercase login).

(** The loop over the stored favorites. *)
Fixpoint normalize_favorites (favorites input : list str) : result TwitchPrefsError (list str) :=
  match input with
  | [] => Ok favorites
  | favorite :: input =>
      favorite ← normalize_twitch_channel favorite;
      if bool_decide (favorite ∈ favorites) then normalize_favorites favorites input
      else if Nat.eqb (length favorites) TWITCH_FAVORITES_MAX then Err TooManyFavorites
      else normalize_favorites (favorites ++ [favorite]) input
  end.

Definition validate_twitch_prefs (p : TwitchPrefs) : result TwitchPrefsError TwitchPrefs :=
  if negb (tp_schema_version p =? TWITCH_PREFS_SCHEMA_VERSION)
  then Err TwitchUnsupportedSchemaVersion
  else if negb ((TWITCH_PASSIVE_LIFETIME_MIN_SECS <=? tp_passive_lifetime_secs p)
                && (tp_passive_lifetime_secs p <=? TWITCH_PASSIVE_LIFETIME_MAX_SECS))
  then Err InvalidPassiveLifetime
  else
    active_channel ← match tp_active_channel p with
                     | None => Ok None
                     | Some c => Some <$> normalize_twitch_channel c
                     end;
    favorites ← normalize_favorites [] (tp_favorites p);
    Ok (mkTwitchPrefs (tp_schema_version p) active_channel favorites (tp_passive_lifetime_secs p)).

(** * Normal forms *)

(** A Twitch login: 1 to 25 lowercase letters, digits and underscores. *)
Definition login_char (c : char) : Prop := is_ascii_lower c || is_ascii_digit c || (c =? 95) = true.
Definition login_ok (s : str) : Prop :=
  s ≠ [] ∧ Z.of_nat (length s) ≤ TWITCH_CHANNEL_MAX_CHARS ∧ Forall login_char s.

Definition twitch_prefs_ok (p : TwitchPrefs) : Prop :=
  tp_schema_version p = TWITCH_PREFS_SCHEMA_VERSION ∧
  TWITCH_PASSIVE_LIFETIME_MIN_SECS ≤ tp_passive_lifetime_secs p ≤ TWITCH_PASSIVE_LIFETIME_MAX_SECS ∧
  (∀ c, tp_active_channel p = Some c → login_ok c) ∧
  Forall login_ok (tp_favorites p) ∧ NoDup (tp_favorites p) ∧
  (length (tp_favorites p) ≤ TWITCH_FAVORITES_MAX)%nat.

Lemma channel_char_lower c : channel_char c = true → login_char (ascii_lower c).
Proof.
  unfold channel_char, login_char, ascii_lower, is_ascii_alphanumeric, is_ascii_alphabetic,
    is_ascii_upper, is_ascii_lower, is_ascii_digit. intros H.
  destruct ((65 <=? c) && (c <=? 90)) eqn:E; lia.
Qed.

Lemma login_char_bounds c :
  login_char c → channel_char c = true ∧ ascii_lower c = c ∧ is_whitespace c = false ∧
    c ≠ 35 ∧ len_utf8 c = 1.
Proof.
  unfold channel_char, login_char, ascii_lower, is_ascii_alphanumeric, is_ascii_alphabetic,
    is_ascii_upper, is_ascii_lower, is_ascii_digit, is_whitespace, len_utf8.
  intros H. split_and!; try lia; case_match; try lia.
Qed.

Lemma channel_str_len s : forallb channel_char s = true → str_len s = Z.of_nat (length s).
Proof.
  induction s as [|c s IH]; cbn [forallb str_len foldr length]; [done|].
  intros [Hc Hs]%andb_true_iff. specialize (IH Hs). unfold str_len in IH. rewrite IH.
  assert (len_utf8 c = 1); [|lia].
  unfold channel_char, is_ascii_alphanumeric, is_ascii_alphabetic, is_ascii_upper, is_ascii_lower,
    is_ascii_digit, len_utf8 in *. case_match; lia.
Qed.

Lemma normalize_channel_login value login :
  normalize_twitch_channel value = Ok login → login_ok login.
Proof.
  unfold normalize_twitch_channel. set (s := default _ _).
  destruct (bool_decide _ || _ || _) eqn:E; [done|]. intros [= <-].
  apply orb_false_iff in E as [[E1 E2]%orb_false_iff E3%negb_false_iff].
  apply bool_decide_eq_false in E1. rewrite (channel_str_len s E3) in E2. unfold login_ok.
  unfold to_ascii_lowercase. rewrite length_fmap. split_and!; [by destruct s|lia|].
  apply Forall_fmap, Forall_forall. intros c Hc.
  rewrite forallb_forall in E3. by apply channel_char_lower, E3, list_elem_of_In.
Qed.

Lemma login_normalize login : login_ok login → normalize_twitch_channel login = Ok login.
Proof.
  intros (Hne & Hlen & Hall). unfold normalize_twitch_channel.
  assert (∀ c, c ∈ login → _) as Hc by (intros c Hin; exact (login_char_bounds c (proj1 (Forall_forall _ _) Hall c Hin))).
  assert (trim login = login) as ->.
  { apply trim_id; intros c s' E; apply (Hc c); [rewrite E; constructor|].
    apply elem_of_reverse. rewrite E. constructor. }
  assert (strip_prefix (lit "#") login = None) as ->.
  { change (lit "#") with [35]. rewrite strip_prefix_char. destruct login as [|c s]; [done|].
    destruct (Hc c) as (_ & _ & _ & Hn & _); [constructor|]. by destruct (Z.eqb_spec 35 c); [lia|]. }
  cbn [default]. assert (forallb channel_char login = true) as Hch.
  { apply forallb_forall. intros c ?%list_elem_of_In. by apply Hc. }
  rewrite (channel_str_len _ Hch), Hch, bool_decide_eq_false_2 by done. cbn.
  destruct (Z.ltb_spec TWITCH_CHANNEL_MAX_CHARS (Z.of_nat (length login))); [lia|]. cbn. f_equal.
  unfold to_ascii_lowercase. rewrite <- (list_fmap_id login) at 2. apply list_fmap_ext.
  intros i c Hi. apply Hc. by eapply list_elem_of_lookup_2.
Qed.

Lemma normalize_favorites_ok out input favorites :
  Forall login_ok out → NoDup out → (length out ≤ TWITCH_FAVORITES_MAX)%nat →
  normalize_favorites out input = Ok favorites →
  Forall login_ok favorites ∧ NoDup favorites ∧ (length favorites ≤ TWITCH_FAVORITES_MAX)%nat.
Proof.
  revert out. induction input as [|f input IH]; intros out Ho Hn Hl; cbn; [by intros [= <-]|].
  destruct (normalize_twitch_channel f) as [g|] eqn:E; cbn; [|done].
  case_bool_decide; [by apply IH|]. destruct (Nat.eqb_spec (length out) TWITCH_FAVORITES_MAX); [done|].
  apply IH.
  - apply Forall_app; split; [done|]. constructor; [by eapply normalize_channel_login|done].
  - apply NoDup_app. split_and!; [done| |apply NoDup_singleton].
    by intros x ? ->%list_elem_of_singleton.
  - rewrite length_app. cbn. lia.
Qed.

Lemma normalize_favorites_id out input :
  Forall login_ok input → NoDup (out ++ input) →
  (length (out ++ input) ≤ TWITCH_FAVORITES_MAX)%nat →
  normalize_favorites out input = Ok (out ++ input).
Proof.
  revert out. induction input as [|f input IH]; intros out Hf Hn Hl; cbn; [by rewrite app_nil_r|].
  inversion Hf; subst. rewrite login_normalize by done. cbn.
  assert (f ∉ out) by (intros ?; apply NoDup_app in Hn as (_ & Hn & _); apply (Hn f); [done|constructor]).
  rewrite bool_decide_eq_false_2 by done. rewrite length_app in Hl. cbn in Hl.
  destruct (Nat.eqb_spec (length out) TWITCH_FAVORITES_MAX); [lia|].
  rewrite IH; [by rewrite <- app_assoc|done|by rewrite <- app_assoc|rewrite !length_app; cbn; lia].
Qed.

(** Validated Twitch preferences are in normal form - schema 1, a lifetime
    of 5 to 120 seconds, at most 20 distinct favorites, and every channel 1
    to 25 lowercase letters, digits and underscores - and exactly the
    preferences in normal form validate to themselves, so loading what was
    saved changes nothing. *)
Theorem validate_twitch_prefs_normal p :
  (∀ q, validate_twitch_prefs p = Ok q → twitch_prefs_ok q ∧ validate_twitch_prefs q = Ok q) ∧
  (twitch_prefs_ok p ↔ validate_twitch_prefs p = Ok p).
Proof.
  assert (∀ q, twitch_prefs_ok q → validate_twitch_prefs q = Ok q) as Hid.
  { intros q (Hv & Hl & Ha & Hf & Hn & Hlen). unfold validate_twitch_prefs.
    rewrite Hv, Z.eqb_refl. cbn [negb].
    destruct (Z.leb_spec TWITCH_PASSIVE_LIFETIME_MIN_SECS (tp_passive_lifetime_secs q)); [|lia].
    destruct (Z.leb_spec (tp_passive_lifetime_secs q) TWITCH_PASSIVE_LIFETIME_MAX_SECS); [|lia].
    cbn [negb andb]. rewrite normalize_favorites_id by done.
    destruct q as [v [c|] f l]; cbn in *; [rewrite login_normalize by auto|]; cbn; by rewrite Hv. }
  assert (∀ q, validate_twitch_prefs p = Ok q → twitch_prefs_ok q) as Hok.
  { intros q. unfold validate_twitch_prefs.
    destruct (Z.eqb_spec (tp_schema_version p) TWITCH_PREFS_SCHEMA_VERSION); cbn [negb]; [|done].
    destruct (Z.leb_spec TWITCH_PASSIVE_LIFETIME_MIN_SECS (tp_passive_lifetime_secs p)); [|done].
    destruct (Z.leb_spec (tp_passive_lifetime_secs p) TWITCH_PASSIVE_LIFETIME_MAX_SECS); [|done].
    cbn [negb andb]. intros (a & Ha & (f & Hf & [= <-])%result_bind_Ok)%result_bind_Ok.
    apply normalize_favorites_ok in Hf as (? & ? & ?); [|done|constructor|cbn; unfold TWITCH_FAVORITES_MAX; lia].
    split_and!; cbn; try done. intros c ->. destruct (tp_active_channel p) as [d|]; [|done].
    destruct (normalize_twitch_channel d) eqn:E; [|done]. cbn in Ha. simplify_eq.
    by eapply normalize_channel_login. }
  split; [intros q Hq; eauto|]. split; [apply Hid|apply Hok].
Qed.
