(* ===== verification/WarframePrefs.v ===== *)
(** Warframe preferences ([crates/overcrow-config/src/warframe_prefs.rs]):
    fissure, status and invasion filters, the reward watchlist and the local
    completion marks, with their validation and in-place edits. *)

From S2P Require Import Prelude Text.

Definition WARFRAME_PREFS_SCHEMA_VERSION : Z := 1.
Definition WARFRAME_MARKET_QUERY_MAX_CHARS : nat := 64.
Definition WARFRAME_INVASION_WATCHLIST_MAX : nat := 24.
Definition WARFRAME_INVASION_WATCHLIST_ENTRY_MAX_CHARS : nat := 96.
Definition WARFRAME_ACTIVITY_DONE_MAX : nat := 128.
Definition WARFRAME_ACTIVITY_DONE_ENTRY_MAX_CHARS : nat := 96.

#[global] Arguments WARFRAME_MARKET_QUERY_MAX_CHARS : simpl never.
#[global] Arguments WARFRAME_INVASION_WATCHLIST_MAX : simpl never.
#[global] Arguments WARFRAME_INVASION_WATCHLIST_ENTRY_MAX_CHARS : simpl never.
#[global] Arguments WARFRAME_ACTIVITY_DONE_MAX : simpl never.
#[global] Arguments WARFRAME_ACTIVITY_DONE_ENTRY_MAX_CHARS : simpl never.

Inductive FissureEra := Lith | Meso | Neo | Axi | Requiem | Omni.

#[export] Instance FissureEra_eq_dec : EqDecision FissureEra.
Proof. solve_decision. Defined.

Definition from_void_modifier (modifier : str) : option FissureEra :=
  if str_eqb modifier (lit "VoidT1") then Some Lith
  else if str_eqb modifier (lit "VoidT2") then Some Meso
  else if str_eqb modifier (lit "VoidT3") then Some Neo
  else if str_eqb modifier (lit "VoidT4") then Some Axi
  else if str_eqb modifier (lit "VoidT5") then Some Requiem
  else if str_eqb modifier (lit "VoidT6") then Some Omni
  else None.

Inductive StatusRow := Cetus | Vallis | Cambion | Zariman | DailyReset | Baro.

#[export] Instance StatusRow_eq_dec : EqDecision StatusRow.
Proof. solve_decision. Defined.

Definition from_cycle_id (id : str) : option StatusRow :=
  if str_eqb id (lit "cetus") then Some Cetus
  else if str_eqb id (lit "vallis") then Some Vallis
  else if str_eqb id (lit "cambion") then Some Cambion
  else if str_eqb id (lit "zariman") then Some Zariman
  else None.

Inductive FissureSource := SourceNormal | SourceSteelPath | SourceRailjack.

Inductive WarframePrefsError :=
| WarframeUnsupportedSchemaVersion
| QueryTooLong
| InvalidQuery
| NoSourceSelected
| WatchlistTooLong
| WatchlistEntryTooLong
| InvalidWatchlistEntry
| ActivityDoneTooLong
| ActivityDoneEntryTooLong
| InvalidActivityDoneEntry.

Definition bad_char (c : char) : bool := is_control c || (c =? 0).

(** The loop of [normalize_string_list]. *)
Fixpoint normalize_entries (max_chars max_len : nat)
    (too_long_entry invalid_entry too_long_list : WarframePrefsError)
    (out entries : list str) : result WarframePrefsError (list str) :=
  match entries with
  | [] => Ok out
  | entry :: entries =>
      let trimmed := trim entry in
      if bool_decide (trimmed = [])
      then normalize_entries max_chars max_len too_long_entry invalid_entry too_long_list out entries
      else if Nat.ltb max_chars (length trimmed) then Err too_long_entry
      else if existsb bad_char trimmed then Err invalid_entry
      else
        let out := if bool_decide (trimmed ∈ out) then out else out ++ [trimmed] in
        if Nat.ltb max_len (length out) then Err too_long_list
        else normalize_entries max_chars max_len too_long_entry invalid_entry too_long_list out entries
  end.

Definition normalize_string_list (entries : list str) (max_chars max_len : nat)
    (too_long_entry invalid_entry too_long_list : WarframePrefsError) :=
  normalize_entries max_chars max_len too_long_entry invalid_entry too_long_list [] entries.

Definition path_tail (p : str) : str := trim (List.last (split 47 (trim p)) []).

Record WarframePrefs := mkWarframePrefs {
  wf_schema_version : Z;
  wf_fissure_eras : list FissureEra;
  wf_show_normal : bool;
  wf_show_steel_path : bool;
  wf_show_railjack : bool;
  wf_status_horizontal : bool;
  wf_show_status_cetus : bool;
  wf_show_status_vallis : bool;
  wf_show_status_cambion : bool;
  wf_show_status_zariman : bool;
  wf_show_status_reset : bool;
  wf_show_status_baro : bool;
  wf_show_status_seconds : bool;
  wf_show_fissure_seconds : bool;
  wf_show_fissure_node : bool;
  wf_last_market_query : str;
  wf_invasion_hide_completed : bool;
  wf_invasion_push_done_down : bool;
  wf_invasion_compact : bool;
  wf_invasion_resource_filter : list str;
  wf_invasion_reward_watchlist : list str;
  wf_nightwave_daily_only : bool;
  wf_nightwave_show_expired : bool;
  wf_show_activity_seconds : bool;
  wf_activity_done : list str
}.

#[export] Instance WarframePrefs_eta : Eta WarframePrefs := λ p,
  mkWarframePrefs (wf_schema_version p) (wf_fissure_eras p) (wf_show_normal p)
    (wf_show_steel_path p) (wf_show_railjack p) (wf_status_horizontal p)
    (wf_show_status_cetus p) (wf_show_status_vallis p) (wf_show_status_cambion p)
    (wf_show_status_zariman p) (wf_show_status_reset p) (wf_show_status_baro p)
    (wf_show_status_seconds p) (wf_show_fissure_seconds p) (wf_show_fissure_node p)
    (wf_last_market_query p) (wf_invasion_hide_completed p) (wf_invasion_push_done_down p)
    (wf_invasion_compact p) (wf_invasion_resource_filter p) (wf_invasion_reward_watchlist p)
    (wf_nightwave_daily_only p) (wf_nightwave_show_expired p) (wf_show_activity_seconds p)
    (wf_activity_done p).

Definition warframe_prefs_default : WarframePrefs := {|
  wf_schema_version := WARFRAME_PREFS_SCHEMA_VERSION;
  wf_fissure_eras := [];
  wf_show_normal := true;
  wf_show_steel_path := true;
  wf_show_railjack := true;
  wf_status_horizontal := false;
  wf_show_status_cetus := true;
  wf_show_status_vallis := true;
  wf_show_status_cambion := true;
  wf_show_status_zariman := true;
  wf_show_status_reset := true;
  wf_show_status_baro := true;
  wf_show_status_seconds := true;
  wf_show_fissure_seconds := true;
  wf_show_fissure_node := true;
  wf_last_market_query := [];
  wf_invasion_hide_completed := true;
  wf_invasion_push_done_down := true;
  wf_invasion_compact := false;
  wf_invasion_resource_filter := [];
  wf_invasion_reward_watchlist := [];
  wf_nightwave_daily_only := false;
  wf_nightwave_show_expired := false;
  wf_show_activity_seconds := true;
  wf_activity_done := []
|}.

Definition validate_warframe_prefs (p : WarframePrefs) : result WarframePrefsError WarframePrefs :=
  if negb (wf_schema_version p =? WARFRAME_PREFS_SCHEMA_VERSION)
  then Err WarframeUnsupportedSchemaVersion
  else if Nat.ltb WARFRAME_MARKET_QUERY_MAX_CHARS (length (wf_last_market_query p))
  then Err QueryTooLong
  else if existsb bad_char (wf_last_market_query p) then Err InvalidQuery
  else
    let eras := dedup_onto [] (wf_fissure_eras p) in
    if negb (wf_show_normal p) && negb (wf_show_steel_path p) && negb (wf_show_railjack p)
    then Err NoSourceSelected
    else
      watchlist ← normalize_string_list (wf_invasion_reward_watchlist p)
        WARFRAME_INVASION_WATCHLIST_ENTRY_MAX_CHARS WARFRAME_INVASION_WATCHLIST_MAX
        WatchlistEntryTooLong InvalidWatchlistEntry WatchlistTooLong;
      resource_filter ← normalize_string_list (wf_invasion_resource_filter p)
        WARFRAME_INVASION_WATCHLIST_ENTRY_MAX_CHARS WARFRAME_INVASION_WATCHLIST_MAX
        WatchlistEntryTooLong InvalidWatchlistEntry WatchlistTooLong;
      activity_done ← normalize_string_list (wf_activity_done p)
        WARFRAME_ACTIVITY_DONE_ENTRY_MAX_CHARS WARFRAME_ACTIVITY_DONE_MAX
        ActivityDoneEntryTooLong InvalidActivityDoneEntry ActivityDoneTooLong;
      Ok (p <| wf_fissure_eras := eras |>
            <| wf_invasion_resource_filter := resource_filter |>
            <| wf_invasion_reward_watchlist := watchlist |>
            <| wf_nightwave_daily_only := false |>
            <| wf_nightwave_show_expired := false |>
            <| wf_activity_done := activity_done |>).

(** * Invasion filters *)

Definition invasion_resource_checked (p : WarframePrefs) (item_key : str) : bool :=
  let key := path_tail item_key in
  bool_decide (wf_invasion_resource_filter p = [])
  || existsb (λ entry, str_eqb (path_tail entry) key) (wf_invasion_resource_filter p).

Definition toggle_invasion_resource_filter (p : WarframePrefs) (item_key : str)
    (available : list str) : WarframePrefs :=
  let key := path_tail item_key in
  if bool_decide (key = []) then p
  else
    let available_tails := filter (λ entry, entry ≠ []) (path_tail <$> available) in
    if bool_decide (wf_invasion_resource_filter p = []) then
      p <| wf_invasion_resource_filter :=
        take WARFRAME_INVASION_WATCHLIST_MAX (filter (λ entry, entry ≠ key) available_tails) |>
    else
      let collapse p :=
        if negb (bool_decide (available_tails = []))
           && forallb (λ available_key,
                existsb (λ entry, str_eqb (path_tail entry) available_key)
                  (wf_invasion_resource_filter p)) available_tails
        then p <| wf_invasion_resource_filter := [] |>
        else p in
      match position (λ entry, str_eqb (path_tail entry) key) (wf_invasion_resource_filter p) with
      | Some index =>
          let p := p <| wf_invasion_resource_filter ::= delete index |> in
          if bool_decide (wf_invasion_resource_filter p = []) then p else collapse p
      | None =>
          if Nat.ltb (length (wf_invasion_resource_filter p)) WARFRAME_INVASION_WATCHLIST_MAX
             && Nat.leb (length key) WARFRAME_INVASION_WATCHLIST_ENTRY_MAX_CHARS
          then collapse (p <| wf_invasion_resource_filter ::= λ l, l ++ [key] |>)
          else collapse p
      end.

Definition invasion_matches_resource_filter (p : WarframePrefs) (invasion_keys : list str) : bool :=
  if bool_decide (wf_invasion_resource_filter p = []) then true
  else existsb (invasion_resource_checked p) invasion_keys.

Definition invasion_watchlisted (p : WarframePrefs) (item_key : str) : bool :=
  let key := path_tail item_key in
  existsb (λ entry, str_eqb (path_tail entry) key) (wf_invasion_reward_watchlist p).

Definition toggle_invasion_watchlist (p : WarframePrefs) (item_key : str) : WarframePrefs :=
  let key := path_tail item_key in
  if bool_decide (key = []) then p
  else match position (λ entry, str_eqb (path_tail entry) key) (wf_invasion_reward_watchlist p) with
       | Some index => p <| wf_invasion_reward_watchlist ::= delete index |>
       | None =>
           if Nat.ltb (length (wf_invasion_reward_watchlist p)) WARFRAME_INVASION_WATCHLIST_MAX
              && Nat.leb (length key) WARFRAME_INVASION_WATCHLIST_ENTRY_MAX_CHARS
           then p <| wf_invasion_reward_watchlist ::= λ l, l ++ [key] |>
           else p
       end.

(** * Completion marks *)

Definition activity_is_done (p : WarframePrefs) (key : str) : bool :=
  let key := trim key in
  negb (bool_decide (key = [])) && existsb (λ entry, str_eqb entry key) (wf_activity_done p).

Definition prune_activity_done (p : WarframePrefs) (current_keys : list str) : WarframePrefs :=
  p <| wf_activity_done ::= filter (λ entry, entry ∈ current_keys) |>.

Definition toggle_activity_done (p : WarframePrefs) (key : str) : WarframePrefs :=
  let key := trim key in
  if bool_decide (key = []) || Nat.ltb WARFRAME_ACTIVITY_DONE_ENTRY_MAX_CHARS (length key) then p
  else match position (λ entry, str_eqb entry key) (wf_activity_done p) with
       | Some index => p <| wf_activity_done ::= delete index |>
       | None =>
           let p := if Nat.leb WARFRAME_ACTIVITY_DONE_MAX (length (wf_activity_done p))
                    then p <| wf_activity_done ::= delete 0%nat |> else p in
           p <| wf_activity_done ::= λ l, l ++ [key] |>
       end.

Definition set_activity_done (p : WarframePrefs) (key : str) (done : bool) : WarframePrefs :=
  if Bool.eqb done (activity_is_done p key) then p else toggle_activity_done p key.

(** * Fissures and status rows *)

Definition era_enabled (p : WarframePrefs) (era : FissureEra) : bool :=
  bool_decide (wf_fissure_eras p = []) || bool_decide (era ∈ wf_fissure_eras p).

Definition source_enabled (p : WarframePrefs) (source : FissureSource) : bool :=
  match source with
  | SourceNormal => wf_show_normal p
  | SourceSteelPath => wf_show_steel_path p
  | SourceRailjack => wf_show_railjack p
  end.

Definition status_row_visible (p : WarframePrefs) (row : StatusRow) : bool :=
  match row with
  | Cetus => wf_show_status_cetus p
  | Vallis => wf_show_status_vallis p
  | Cambion => wf_show_status_cambion p
  | Zariman => wf_show_status_zariman p
  | DailyReset => wf_show_status_reset p
  | Baro => wf_show_status_baro p
  end.

Definition set_status_row_visible (p : WarframePrefs) (row : StatusRow) (visible : bool) :
    WarframePrefs :=
  match row with
  | Cetus => p <| wf_show_status_cetus := visible |>
  | Vallis => p <| wf_show_status_vallis := visible |>
  | Cambion => p <| wf_show_status_cambion := visible |>
  | Zariman => p <| wf_show_status_zariman := visible |>
  | DailyReset => p <| wf_show_status_reset := visible |>
  | Baro => p <| wf_show_status_baro := visible |>
  end.

(** * Stored lists *)

Definition entry_ok (max_chars : nat) (e : str) : Prop :=
  e ≠ [] ∧ trim e = e ∧ (length e ≤ max_chars)%nat ∧ existsb bad_char e = false.

(** Lists that can be stored, and the lists storing one produces. *)
Definition list_storable (max_chars max_len : nat) (l : list str) : Prop :=
  Forall (entry_ok max_chars) l ∧ (length l ≤ max_len)%nat.
Definition list_normal (max_chars max_len : nat) (l : list str) : Prop :=
  list_storable max_chars max_len l ∧ NoDup l.

Section Entries.
Context (max_chars max_len : nat) (e1 e2 e3 : WarframePrefsError).

Lemma normalize_entries_normal out entries l :
  list_normal max_chars max_len out →
  normalize_entries max_chars max_len e1 e2 e3 out entries = Ok l →
  list_normal max_chars max_len l.
Proof.
  revert out. induction entries as [|e entries IH]; intros out Hout; cbn; [by intros [= <-]|].
  case_bool_decide as Hne; [by apply IH|].
  destruct (Nat.ltb_spec max_chars (length (trim e))); [done|].
  destruct (existsb bad_char (trim e)) eqn:Hb; [done|].
  case_bool_decide as Hin.
  { destruct (Nat.ltb_spec max_len (length out)); [done|]. by apply IH. }
  destruct (Nat.ltb_spec max_len (length (out ++ [trim e]))); [done|].
  apply IH. destruct Hout as [[Hf _] Hn]. split; [split; [|done]|].
  - apply Forall_app; split; [done|]. constructor; [|done]. split_and!; [done|apply trim_trim|done..].
  - apply NoDup_app. split_and!; [done| |apply NoDup_singleton]. by intros x ? ->%list_elem_of_singleton.
Qed.

Lemma normalize_entries_storable out entries :
  Forall (entry_ok max_chars) entries → (length out + length entries ≤ max_len)%nat →
  normalize_entries max_chars max_len e1 e2 e3 out entries = Ok (dedup_onto out entries).
Proof.
  revert out. induction entries as [|e entries IH]; intros out Hf Hl; cbn in *; [done|].
  inversion Hf as [|?? (Hne & Ht & Hc & Hb) Hf']; subst. rewrite Ht, bool_decide_eq_false_2 by done.
  destruct (Nat.ltb_spec max_chars (length e)); [lia|]. rewrite Hb.
  case_bool_decide.
  - destruct (Nat.ltb_spec max_len (length out)); [lia|]. apply IH; [done|lia].
  - destruct (Nat.ltb_spec max_len (length (out ++ [e]))) as [H'|H'];
      rewrite length_app in H'; cbn in H'; [lia|].
    apply IH; [done|]. rewrite length_app; cbn; lia.
Qed.
End Entries.

(** * Validation *)

Definition warframe_prefs_storable (p : WarframePrefs) : Prop :=
  wf_schema_version p = WARFRAME_PREFS_SCHEMA_VERSION ∧
  (length (wf_last_market_query p) ≤ WARFRAME_MARKET_QUERY_MAX_CHARS)%nat ∧
  existsb bad_char (wf_last_market_query p) = false ∧
  wf_show_normal p || wf_show_steel_path p || wf_show_railjack p = true ∧
  list_storable WARFRAME_INVASION_WATCHLIST_ENTRY_MAX_CHARS WARFRAME_INVASION_WATCHLIST_MAX
    (wf_invasion_reward_watchlist p) ∧
  list_storable WARFRAME_INVASION_WATCHLIST_ENTRY_MAX_CHARS WARFRAME_INVASION_WATCHLIST_MAX
    (wf_invasion_resource_filter p) ∧
  list_storable WARFRAME_ACTIVITY_DONE_ENTRY_MAX_CHARS WARFRAME_ACTIVITY_DONE_MAX
    (wf_activity_done p).

Definition warframe_prefs_normal (p : WarframePrefs) : Prop :=
  warframe_prefs_storable p ∧ NoDup (wf_fissure_eras p) ∧
  NoDup (wf_invasion_reward_watchlist p) ∧ NoDup (wf_invasion_resource_filter p) ∧
  NoDup (wf_activity_done p) ∧ wf_nightwave_daily_only p = false ∧
  wf_nightwave_show_expired p = false.

Lemma validate_storable p :
  warframe_prefs_storable p →
  validate_warframe_prefs p =
    Ok (p <| wf_fissure_eras := dedup_onto [] (wf_fissure_eras p) |>
          <| wf_invasion_resource_filter := dedup_onto [] (wf_invasion_resource_filter p) |>
          <| wf_invasion_reward_watchlist := dedup_onto [] (wf_invasion_reward_watchlist p) |>
          <| wf_nightwave_daily_only := false |> <| wf_nightwave_show_expired := false |>
          <| wf_activity_done := dedup_onto [] (wf_activity_done p) |>).
Proof.
  intros (Hv & Hq & Hc & Hs & [Hw Hwl] & [Hf Hfl] & [Ha Hal]).
  unfold validate_warframe_prefs, normalize_string_list. rewrite Hv, Z.eqb_refl, Hc. cbn [negb].
  destruct (Nat.ltb_spec WARFRAME_MARKET_QUERY_MAX_CHARS (length (wf_last_market_query p))); [lia|].
  rewrite <- !negb_orb, Hs. cbn [negb].
  by rewrite !normalize_entries_storable.
Qed.

Lemma list_normal_nil max_chars max_len : list_normal max_chars max_len [].
Proof. split; [split; [done|cbn; lia]|constructor]. Qed.

(** Validating Warframe preferences yields preferences in normal form (the
    bounds on counts and lengths hold, entries are trimmed, control-free and
    distinct, a fissure source is enabled, the legacy flags are cleared), and
    normal preferences validate to themselves: validation is idempotent. *)
Theorem validate_warframe_prefs_normal p :
  (∀ q, validate_warframe_prefs p = Ok q →
        warframe_prefs_normal q ∧ validate_warframe_prefs q = Ok q) ∧
  (warframe_prefs_normal p ↔ validate_warframe_prefs p = Ok p).
Proof.
  assert (∀ q, warframe_prefs_normal q → validate_warframe_prefs q = Ok q) as Hid.
  { intros q (Hs & He & Hw & Hf & Ha & Hn1 & Hn2). rewrite validate_storable by done.
    rewrite !dedup_onto_id by done. destruct q; cbn in *. by subst. }
  assert (∀ q, validate_warframe_prefs p = Ok q → warframe_prefs_normal q) as Hok.
  { intros q. unfold validate_warframe_prefs, normalize_string_list.
    destruct (Z.eqb_spec (wf_schema_version p) WARFRAME_PREFS_SCHEMA_VERSION); cbn [negb]; [|done].
    destruct (Nat.ltb_spec WARFRAME_MARKET_QUERY_MAX_CHARS (length (wf_last_market_query p))); [done|].
    destruct (existsb bad_char _) eqn:Hc; [done|]. rewrite <- !negb_orb.
    destruct (wf_show_normal p || wf_show_steel_path p || wf_show_railjack p) eqn:Hs; cbn [negb]; [|done].
    intros (w & Hw & (f & Hf & (a & Ha & [= <-])%result_bind_Ok)%result_bind_Ok)%result_bind_Ok.
    apply normalize_entries_normal in Hw as [? ?], Hf as [? ?], Ha as [? ?];
      try apply list_normal_nil.
    unfold warframe_prefs_normal, warframe_prefs_storable; cbn. split_and!; try done.
    apply dedup_onto_NoDup. constructor. }
  split; [intros q Hq; eauto|]. split; [apply Hid|apply Hok].
Qed.

(** * Edits keep the preferences storable *)

Inductive warframe_edit :=
| ToggleResourceFilter (item_key : str) (available : list str)
| ToggleWatchlist (item_key : str)
| ToggleActivity (key : str)
| SetActivity (key : str) (done : bool)
| PruneActivity (current_keys : list str)
| SetStatusRow (row : StatusRow) (visible : bool).

Definition warframe_step (p : WarframePrefs) (e : warframe_edit) : WarframePrefs :=
  match e with
  | ToggleResourceFilter key available => toggle_invasion_resource_filter p key available
  | ToggleWatchlist key => toggle_invasion_watchlist p key
  | ToggleActivity key => toggle_activity_done p key
  | SetActivity key done => set_activity_done p key done
  | PruneActivity keys => prune_activity_done p keys
  | SetStatusRow row visible => set_status_row_visible p row visible
  end.

(** The keys an edit brings in fit the store: no control characters, and what
    [toggle_invasion_resource_filter] copies when it leaves "show all", the
    tails of the available keys, within the entry length. *)
Definition clean (s : str) : Prop := existsb bad_char s = false.
Definition edit_fits (e : warframe_edit) : Prop :=
  match e with
  | ToggleResourceFilter key available =>
      clean key ∧ Forall (λ a, clean a ∧
        (length (path_tail a) ≤ WARFRAME_INVASION_WATCHLIST_ENTRY_MAX_CHARS)%nat) available
  | ToggleWatchlist key => clean key
  | ToggleActivity key | SetActivity key _ => clean key
  | _ => True
  end.

Lemma clean_sub s t : (∀ x, x ∈ t → x ∈ s) → clean s → clean t.
Proof.
  unfold clean. intros H Hs. apply not_true_iff_false. intros (x & Hx & Hb)%existsb_exists.
  apply not_true_iff_false in Hs. apply Hs, existsb_exists. exists x.
  split; [|done]. apply list_elem_of_In, H, list_elem_of_In, Hx.
Qed.

Lemma split_sub sep s p x : p ∈ split sep s → x ∈ p → x ∈ s.
Proof.
  intros Hp Hx. rewrite <- (join_split sep s). revert Hp.
  generalize (split sep s) as ps. induction ps as [|q [|r ps] IH]; intros Hp.
  - by apply elem_of_nil in Hp.
  - by apply list_elem_of_singleton in Hp as ->.
  - change (join sep (q :: r :: ps)) with (q ++ sep :: join sep (r :: ps)).
    apply elem_of_cons in Hp as [->|Hp]; [set_solver|]. specialize (IH Hp). set_solver.
Qed.

Lemma last_elem {A} (l : list A) d : l ≠ [] → List.last l d ∈ l.
Proof.
  induction l as [|x [|y l] IH]; intros H; [done|constructor|].
  change (List.last (x :: y :: l) d) with (List.last (y :: l) d). constructor. by apply IH.
Qed.

Lemma path_tail_clean s : clean s → clean (path_tail s).
Proof.
  apply clean_sub. intros x Hx%trim_sub. apply trim_sub.
  eapply split_sub; [|exact Hx]. apply last_elem, split_nonempty.
Qed.

Lemma path_tail_trim s : trim (path_tail s) = path_tail s.
Proof. apply trim_trim. Qed.

Lemma path_tail_entry max s :
  clean s → path_tail s ≠ [] → (length (path_tail s) ≤ max)%nat → entry_ok max (path_tail s).
Proof. intros. split_and!; [done|apply path_tail_trim|done|by apply path_tail_clean]. Qed.

Lemma storable_delete mc ml i l : list_storable mc ml l → list_storable mc ml (delete i l).
Proof.
  intros [Hf Hl]. split; [by apply Forall_delete|].
  pose proof (sublist_length _ _ (sublist_delete l i)). lia.
Qed.

Lemma storable_snoc mc ml e l :
  list_storable mc ml l → entry_ok mc e → (length l < ml)%nat → list_storable mc ml (l ++ [e]).
Proof.
  intros [Hf Hl] He ?. split; [apply Forall_app; split; [done|by constructor]|].
  rewrite length_app; cbn; lia.
Qed.

Lemma storable_nil mc ml : list_storable mc ml [].
Proof. split; [done|cbn; lia]. Qed.

#[export] Hint Resolve storable_delete storable_snoc storable_nil path_tail_entry : oc.

Lemma toggle_watchlist_storable p key :
  warframe_prefs_storable p → clean key → warframe_prefs_storable (toggle_invasion_watchlist p key).
Proof.
  intros Hp Hk. pose proof Hp as (? & ? & ? & ? & Hw & ? & ?). unfold toggle_invasion_watchlist.
  case_bool_decide; [done|]. destruct (position _ _) as [i|].
  { unfold warframe_prefs_storable; cbn. split_and!; try done. by apply storable_delete. }
  destruct (Nat.ltb_spec (length (wf_invasion_reward_watchlist p)) WARFRAME_INVASION_WATCHLIST_MAX),
    (Nat.leb_spec (length (path_tail key)) WARFRAME_INVASION_WATCHLIST_ENTRY_MAX_CHARS);
    cbn [andb]; unfold warframe_prefs_storable; cbn; split_and!; try done.
  apply storable_snoc; [done| |lia]. by apply path_tail_entry.
Qed.

Lemma toggle_activity_storable p key :
  warframe_prefs_storable p → clean key → warframe_prefs_storable (toggle_activity_done p key).
Proof.
  intros Hp Hk. pose proof Hp as (? & ? & ? & ? & ? & ? & Ha). unfold toggle_activity_done.
  case_bool_decide as Hne; cbn [orb]; [done|].
  destruct (Nat.ltb_spec WARFRAME_ACTIVITY_DONE_ENTRY_MAX_CHARS (length (trim key))); [done|].
  destruct (position _ _) as [i|].
  { unfold warframe_prefs_storable; cbn. split_and!; try done. by apply storable_delete. }
  assert (entry_ok WARFRAME_ACTIVITY_DONE_ENTRY_MAX_CHARS (trim key)).
  { split_and!; [done|apply trim_trim|lia|]. eapply clean_sub; [apply trim_sub|done]. }
  destruct (Nat.leb_spec WARFRAME_ACTIVITY_DONE_MAX (length (wf_activity_done p)));
    unfold warframe_prefs_storable; cbn; split_and!; try done; apply storable_snoc; try done.
  - by apply (storable_delete _ _ 0).
  - destruct Ha as [_ ?].
    destruct (wf_activity_done p); cbn in *; unfold WARFRAME_ACTIVITY_DONE_MAX in *; lia.
Qed.

Lemma toggle_filter_storable p key available :
  warframe_prefs_storable p → edit_fits (ToggleResourceFilter key available) →
  warframe_prefs_storable (toggle_invasion_resource_filter p key available).
Proof.
  intros Hp [Hk Hav]. assert (∀ q l, warframe_prefs_storable q →
    list_storable WARFRAME_INVASION_WATCHLIST_ENTRY_MAX_CHARS WARFRAME_INVASION_WATCHLIST_MAX l →
    warframe_prefs_storable (q <| wf_invasion_resource_filter := l |>)) as Hset
    by (intros q l (?&?&?&?&?&?&?) ?; unfold warframe_prefs_storable; cbn; by split_and!).
  assert (list_storable WARFRAME_INVASION_WATCHLIST_ENTRY_MAX_CHARS WARFRAME_INVASION_WATCHLIST_MAX
    (wf_invasion_resource_filter p)) as Hf by apply Hp.
  unfold toggle_invasion_resource_filter. case_bool_decide; [done|]. case_bool_decide.
  { apply Hset; [done|]. split; [|rewrite length_take; lia].
    apply Forall_take, Forall_forall. intros x [_ [Hx Hin]%list_elem_of_filter]%list_elem_of_filter.
    apply list_elem_of_fmap in Hin as (a & -> & Ha).
    destruct (proj1 (Forall_forall _ _) Hav a Ha). by apply path_tail_entry. }
  match goal with |- context [match _ with Some index => _ | None => _ end] =>
    destruct (position _ _) as [i|] end.
  - assert (list_storable WARFRAME_INVASION_WATCHLIST_ENTRY_MAX_CHARS WARFRAME_INVASION_WATCHLIST_MAX
      (delete i (wf_invasion_resource_filter p))) by by apply storable_delete.
    repeat case_match; try (apply (Hset p); auto using storable_nil; fail).
    all: by apply (Hset p); auto using storable_nil.
  - destruct (Nat.ltb_spec (length (wf_invasion_resource_filter p)) WARFRAME_INVASION_WATCHLIST_MAX),
      (Nat.leb_spec (length (path_tail key)) WARFRAME_INVASION_WATCHLIST_ENTRY_MAX_CHARS); cbn [andb].
    all: case_match; try done; try (apply (Hset p); auto using storable_nil; fail).
    apply (Hset p); [done|]. apply storable_snoc; [done| |lia]. by apply path_tail_entry.
Qed.

Lemma warframe_step_storable p e :
  warframe_prefs_storable p → edit_fits e → warframe_prefs_storable (warframe_step p e).
Proof.
  intros Hp He. destruct e as [key av|key|key|key d|keys|row v]; cbn [warframe_step].
  - by apply toggle_filter_storable.
  - by apply toggle_watchlist_storable.
  - by apply toggle_activity_storable.
  - unfold set_activity_done. destruct (Bool.eqb _ _); [done|]. by apply toggle_activity_storable.
  - destruct Hp as (?&?&?&?&?&?&[Hf Hl]). unfold warframe_prefs_storable; cbn. split_and!; try done.
    split.
    { rewrite Forall_forall in Hf |- *. intros x [_ Hx]%list_elem_of_filter. by apply Hf. } pose proof (sublist_length _ _ (sublist_filter (λ e, e ∈ keys) (wf_activity_done p))). lia.
  - destruct Hp as (?&?&?&?&?&?&?). destruct row; unfold warframe_prefs_storable; cbn; by split_and!.
Qed.

(** The preferences a user reaches from the defaults by any sequence of
    in-place edits whose keys fit the store can always be saved: validation
    succeeds on them. *)
Theorem warframe_edits_can_be_saved (edits : list warframe_edit) :
  Forall edit_fits edits →
  is_ok (validate_warframe_prefs (foldl warframe_step warframe_prefs_default edits)) = true.
Proof.
  intros Hedits. assert (warframe_prefs_storable warframe_prefs_default) as Hp.
  { unfold warframe_prefs_storable; cbn. split_and!; auto using storable_nil; lia. }
  revert Hp. generalize warframe_prefs_default as p.
  induction Hedits as [|e edits He _ IH]; intros p Hp; cbn; [by rewrite validate_storable|].
  by apply IH, warframe_step_storable.
Qed.

Lemma warframe_edits_can_be_saved_witness :
  let edits := [ToggleWatchlist (lit "/Lotus/Forma"); SetActivity (lit " sortie:1 ") true;
    ToggleResourceFilter (lit "/Lotus/Forma") [lit "/Lotus/Forma"; lit "/Lotus/Orokin/Fieldron"];
    ToggleActivity (lit "sortie:1")] in
  Forall edit_fits edits ∧
  is_ok (validate_warframe_prefs (foldl warframe_step warframe_prefs_default edits)) = true.
Proof.
  intros edits. assert (Forall edit_fits edits) as H.
  { repeat constructor; vm_compute; try done; lia. }
  split; [exact H|]. exact (warframe_edits_can_be_saved edits H).
Defined.

(** * Completion marks behave as a set *)

Lemma activity_is_done_iff p key :
  activity_is_done p key = true ↔ trim key ≠ [] ∧ trim key ∈ wf_activity_done p.
Proof.
  unfold activity_is_done. rewrite andb_true_iff, negb_true_iff, bool_decide_eq_false, existsb_exists.
  setoid_rewrite <- list_elem_of_In. setoid_rewrite str_eqb_eq. naive_solver.
Qed.

(** Marking or unmarking an activity takes effect, and leaves every other
    mark alone, with one exception: marking a new activity when 128 are
    marked drops the oldest mark. *)
Theorem set_activity_done_marks p key done :
  NoDup (wf_activity_done p) → trim key ≠ [] →
  (length (trim key) ≤ WARFRAME_ACTIVITY_DONE_ENTRY_MAX_CHARS)%nat →
  let q := set_activity_done p key done in
  activity_is_done q key = done ∧ NoDup (wf_activity_done q) ∧
  ∀ other, trim other ≠ trim key →
    (done = true → activity_is_done p key = false →
     (WARFRAME_ACTIVITY_DONE_MAX ≤ length (wf_activity_done p))%nat →
     head (wf_activity_done p) ≠ Some (trim other)) →
    activity_is_done q other = activity_is_done p other.
Proof.
  intros Hn Hne Hl. cbn zeta. unfold set_activity_done.
  destruct (Bool.eqb done (activity_is_done p key)) eqn:E.
  { apply Bool.eqb_prop in E. by rewrite E. }
  apply Bool.eqb_false_iff in E. unfold toggle_activity_done.
  rewrite bool_decide_eq_false_2 by done. cbn [orb].
  destruct (Nat.ltb_spec WARFRAME_ACTIVITY_DONE_ENTRY_MAX_CHARS (length (trim key))); [lia|].
  destruct (position _ _) as [i|] eqn:Ep.
  - apply position_Some in Ep as (x & Hi & ->%str_eqb_eq & _).
    assert (activity_is_done p key = true) as Hd
      by (apply activity_is_done_iff; split; [done|by eapply list_elem_of_lookup_2]).
    assert (done = false) as -> by (destruct done; congruence).
    split_and!; [|by apply NoDup_delete|].
    + apply not_true_iff_false. rewrite activity_is_done_iff. intros [_ Hk].
      by apply (not_elem_of_delete i (wf_activity_done p) (trim key)).
    + intros other Ho _. apply eq_true_iff_eq. rewrite !activity_is_done_iff. cbn.
      destruct (delete_lookup_split _ _ _ Hi) as [E1 ->]. rewrite E1 at 3. set_solver.
  - rewrite position_None in Ep. assert (trim key ∉ wf_activity_done p) as Hin.
    { intros H1. apply Ep in H1. by apply str_eqb_neq in H1. }
    assert (activity_is_done p key = false) as Hd
      by (apply not_true_iff_false; rewrite activity_is_done_iff; naive_solver).
    assert (done = true) as -> by (destruct done; congruence).
    assert (∀ l, l `sublist_of` wf_activity_done p → NoDup (l ++ [trim key])) as Hnd.
    { intros l Hs. apply NoDup_app. split_and!; [by eapply sublist_NoDup| |apply NoDup_singleton].
      intros x Hx ->%list_elem_of_singleton. apply Hin.
      eapply elem_of_submseteq; [exact Hx|]. by apply sublist_submseteq. }
    destruct (Nat.leb_spec WARFRAME_ACTIVITY_DONE_MAX (length (wf_activity_done p))) as [Hm|Hm].
    + split_and!.
      * apply activity_is_done_iff. cbn. set_solver.
      * cbn. apply Hnd, sublist_delete.
      * intros other Ho Hh. specialize (Hh eq_refl Hd Hm). apply eq_true_iff_eq.
        rewrite !activity_is_done_iff. cbn. destruct (wf_activity_done p) as [|a l]; [set_solver|].
        cbn in *. set_solver.
    + split_and!.
      * apply activity_is_done_iff. cbn. set_solver.
      * cbn. by apply Hnd.
      * intros other Ho _. apply eq_true_iff_eq. rewrite !activity_is_done_iff. cbn. set_solver.
Qed.

Lemma set_activity_done_marks_witness :
  let p := warframe_prefs_default <| wf_activity_done := [lit "archon:2"] |> in
  let q := set_activity_done p (lit "sortie:1 ") true in
  (NoDup (wf_activity_done p) ∧ trim (lit "sortie:1 ") ≠ [] ∧
   (length (trim (lit "sortie:1 ")) ≤ WARFRAME_ACTIVITY_DONE_ENTRY_MAX_CHARS)%nat) ∧
  activity_is_done q (lit "sortie:1 ") = true.
Proof.
  intros p q.
  assert (NoDup (wf_activity_done p)) as H1 by apply NoDup_singleton.
  assert (trim (lit "sortie:1 ") ≠ []) as H2 by done.
  assert ((length (trim (lit "sortie:1 ")) ≤ WARFRAME_ACTIVITY_DONE_ENTRY_MAX_CHARS)%nat) as H3
    by (apply Nat.leb_le; vm_compute; reflexivity).
  split; [done|]. exact (proj1 (set_activity_done_marks p (lit "sortie:1 ") true H1 H2 H3)).
Defined.
