(* ===== verification/Stopwatch.v ===== *)
(** The manual stopwatch ([crates/overcrow-core/src/manual_stopwatch.rs]). *)

From S2P Require Import Prelude Timing Protocol.

Record ManualStopwatch := mkManualStopwatch {
  sw_accumulated : duration;
  sw_started_at : option instant
}.

Definition stopwatch_default : ManualStopwatch := mkManualStopwatch 0 None.

Definition stopwatch_toggle (w : ManualStopwatch) (now : instant) : ManualStopwatch :=
  match sw_started_at w with
  | Some started_at =>
      mkManualStopwatch
        (dur_saturating_add (sw_accumulated w) (default 0 (checked_duration_since now started_at)))
        None
  | None => mkManualStopwatch (sw_accumulated w) (Some now)
  end.

Definition stopwatch_reset (w : ManualStopwatch) : ManualStopwatch := mkManualStopwatch 0 None.

Definition stopwatch_elapsed (w : ManualStopwatch) (now : instant) : duration :=
  match sw_started_at w with
  | None => sw_accumulated w
  | Some started_at =>
      dur_saturating_add (sw_accumulated w) (default 0 (checked_duration_since now started_at))
  end.

Definition stopwatch_snapshot_at (w : ManualStopwatch) (now : instant) : ManualStopwatchSnapshot :=
  mkManualStopwatchSnapshot (millis_u64 (stopwatch_elapsed w now)) (isSome (sw_started_at w)).

(** * The stopwatch measures the time it ran *)

(** The time between the first and second press, the third and fourth, and so
    on, up to [now] when the last press started the stopwatch. *)
Fixpoint running_time (presses : list instant) (now : instant) : duration :=
  match presses with
  | [] => 0
  | [start] => now - start
  | start :: stop :: presses => (stop - start) + running_time presses now
  end.

(** Presses in the order of the clock, and none after [now]. *)
Fixpoint presses_until (presses : list instant) (now : instant) : Prop :=
  match presses with
  | [] => True
  | p :: presses => p ≤ now ∧ presses_until presses now ∧
      match presses with [] => True | q :: _ => p ≤ q end
  end.

Lemma running_time_nonneg presses now :
  presses_until presses now → 0 ≤ running_time presses now.
Proof.
  induction presses as [presses IH] using (induction_ltof1 _ (@length _)); unfold ltof in IH.
  destruct presses as [|p [|q presses]]; cbn; [lia|lia|].
  intros (? & (? & ? & _) & ?). specialize (IH presses). cbn in IH.
  enough (0 ≤ running_time presses now) by lia. apply IH; [lia|done].
Qed.

Lemma stopwatch_toggle_stop a started_at now :
  stopwatch_toggle (mkManualStopwatch a (Some started_at)) now =
    mkManualStopwatch (dur_saturating_add a (saturating_duration_since now started_at)) None.
Proof. unfold stopwatch_toggle; cbn [sw_started_at sw_accumulated]. by rewrite checked_duration_default. Qed.

Lemma stopwatch_elapsed_running a started_at now :
  stopwatch_elapsed (mkManualStopwatch a (Some started_at)) now =
    dur_saturating_add a (saturating_duration_since now started_at).
Proof. unfold stopwatch_elapsed; cbn [sw_started_at sw_accumulated]. by rewrite checked_duration_default. Qed.

Lemma running_adds a start stop :
  start ≤ stop → a + (stop - start) ≤ duration_max →
  dur_saturating_add a (saturating_duration_since stop start) = a + (stop - start).
Proof. unfold dur_saturating_add, saturating_add, saturating_duration_since, saturating_sub. lia. Qed.

Lemma stopwatch_toggles presses now a :
  presses_until presses now → 0 ≤ a → a + running_time presses now ≤ duration_max →
  let w := foldl stopwatch_toggle (mkManualStopwatch a None) presses in
  stopwatch_elapsed w now = a + running_time presses now ∧
  isSome (sw_started_at w) = Nat.odd (length presses).
Proof.
  revert a. induction presses as [presses IH] using (induction_ltof1 _ (@length _)); unfold ltof in IH.
  intros a Hp Ha Hb. destruct presses as [|p [|q presses]].
  - cbn. split; [lia|done].
  - change (foldl stopwatch_toggle (mkManualStopwatch a None) [p]) with (mkManualStopwatch a (Some p)).
    cbn in Hp, Hb. cbn [running_time]. rewrite stopwatch_elapsed_running, running_adds by lia. done.
  - change (foldl stopwatch_toggle (mkManualStopwatch a None) (p :: q :: presses))
      with (foldl stopwatch_toggle
              (stopwatch_toggle (mkManualStopwatch a (Some p)) q) presses).
    cbn in Hp. destruct Hp as (? & (? & Hp & _) & ?). pose proof (running_time_nonneg _ _ Hp).
    cbn [running_time] in Hb |- *. rewrite stopwatch_toggle_stop, running_adds by lia.
    destruct (IH presses ltac:(cbn; lia) (a + (q - p)) Hp ltac:(lia) ltac:(lia)) as [-> ->].
    split; [lia|done].
Qed.

(** After any number of presses in clock order, the stopwatch reports
    exactly the time it ran - the odd presses start it, the even ones stop
    it - in whole milliseconds, runs exactly after an odd number of presses,
    and never exceeds [u64::MAX]. *)
Theorem stopwatch_measures_running_time presses now :
  presses_until presses now → running_time presses now ≤ duration_max →
  stopwatch_snapshot_at (foldl stopwatch_toggle stopwatch_default presses) now =
    mkManualStopwatchSnapshot (Z.min u64_max (running_time presses now / nanos_per_milli))
      (Nat.odd (length presses)).
Proof.
  intros Hp Hb. unfold stopwatch_snapshot_at.
  unfold stopwatch_default.
  destruct (stopwatch_toggles presses now 0 Hp ltac:(done) ltac:(lia)) as [-> ->].
  rewrite Z.add_0_l. f_equal. pose proof (running_time_nonneg presses now Hp) as Hn.
  unfold millis_u64, try_from, as_millis.
  assert (0 ≤ running_time presses now / nanos_per_milli)
    by (apply Z.div_pos; [done|unfold nanos_per_milli; lia]).
  destruct (Z.leb_spec 0 (running_time presses now / nanos_per_milli)); [|lia].
  destruct (Z.leb_spec (running_time presses now / nanos_per_milli) u64_max); cbn; lia.
Qed.

Lemma stopwatch_measures_running_time_witness :
  let presses := [1000000000; 3500000000; 5000000000] in
  (presses_until presses 6000000000 ∧ running_time presses 6000000000 ≤ duration_max) ∧
  stopwatch_snapshot_at (foldl stopwatch_toggle stopwatch_default presses) 6000000000 =
    mkManualStopwatchSnapshot 3500 true.
Proof.
  intros presses.
  assert (presses_until presses 6000000000) as H1 by (cbn; lia).
  assert (running_time presses 6000000000 ≤ duration_max) as H2
    by (apply Z.leb_le; vm_compute; reflexivity).
  split; [done|]. exact (stopwatch_measures_running_time presses 6000000000 H1 H2).
Defined.
