(* ===== verification/Process.v ===== *)
(** Processes: the ancestry walk that identifies a process
    ([crates/overcrow-core/src/classifier.rs]) and the resource sampling of
    the active game ([crates/overcrow-core/src/telemetry.rs]). *)

From S2P Require Import Prelude Text Timing Protocol Settings.

Definition MAX_ANCESTORS : nat := 64.

#[global] Arguments MAX_ANCESTORS : simpl never.

(** * Data *)

Record ProcessTiming := mkProcessTiming {
  pt_elapsed_at_observation : duration;
  pt_observed_at : instant
}.

#[export] Instance ProcessTiming_eq_dec : EqDecision ProcessTiming.
Proof. solve_decision. Defined.

Definition elapsed_at (t : ProcessTiming) (now : instant) : duration :=
  dur_saturating_add (pt_elapsed_at_observation t)
    (saturating_duration_since now (pt_observed_at t)).

Record ProcessResources := mkProcessResources {
  pr_total_cpu_ticks : Z;
  pr_resident_bytes : Z
}.

Record ProcessInfo := mkProcessInfo {
  pin_pid : Z;
  pin_parent_pid : Z;
  pin_start_ticks : Z;
  pin_timing : option ProcessTiming;
  pin_resources : ProcessResources;
  pin_name : str;
  pin_environment : gmap str str;
  pin_command_line : list str;
  pin_executable : option path
}.

Abbreviation processes := (gmap Z ProcessInfo).

(** * Classification *)

Definition related_text (value : str) : bool :=
  let value := to_ascii_lowercase value in
  contains (lit "wine") value || contains (lit "proton") value || ends_with (lit ".exe") value.

Definition looks_game_related (process : ProcessInfo) : bool :=
  related_text (pin_name process)
  || existsb related_text (pin_command_line process)
  || is_some_and (λ p, related_text (from_utf8_lossy p)) (pin_executable process).

Definition STEAM_ID_KEYS : list str := [lit "SteamAppId"; lit "SteamGameId"].

Definition steam_app_id (process : ProcessInfo) : option Z :=
  find_map (λ key,
    value ← pin_environment process !! key;
    opt_filter (λ id, negb (id =? 0)) (parse_unsigned u32_max value)) STEAM_ID_KEYS.

(** The loop of [classify_process_identity], [fuel] of its 64 rounds left. *)
Fixpoint classify_ancestors (fuel : nat) (procs : processes) (next_pid : Z) (seen_pids : gset Z)
    (seen_executables : list path) (ident : ProcessIdentity) : ProcessIdentity :=
  match fuel with
  | O => ident
  | S fuel =>
      if bool_decide (next_pid ∈ seen_pids) then ident
      else match procs !! next_pid with
           | None => ident
           | Some process =>
               let ident :=
                 if isNone (pi_steam_app_id ident)
                 then ident <| pi_steam_app_id := steam_app_id process |> else ident in
               let '(seen_executables, ident) :=
                 match pin_executable process with
                 | Some executable =>
                     if path_mem executable seen_executables then (seen_executables, ident)
                     else (executable :: seen_executables,
                           ident <| pi_executable_chain ::= λ l, l ++ [executable] |>)
                 | None => (seen_executables, ident)
                 end in
               let ident :=
                 ident <| pi_game_candidate ::= λ b, b || looks_game_related process |> in
               classify_ancestors fuel procs (pin_parent_pid process) ({[next_pid]} ∪ seen_pids)
                 seen_executables ident
           end
  end.

Definition classify_process_identity (pid : Z) (procs : processes) : ProcessIdentity :=
  let ident := classify_ancestors MAX_ANCESTORS procs pid ∅ [] process_identity_default in
  ident <| pi_game_candidate ::= λ b, b || isSome (pi_steam_app_id ident) |>.

Record ProcessClassification := mkProcessClassification {
  pc_steam_app_id : option Z;
  pc_is_game_candidate : bool
}.

Definition classify_active_pid (pid : Z) (procs : processes) : ProcessClassification :=
  let ident := classify_process_identity pid procs in
  mkProcessClassification (pi_steam_app_id ident) (pi_game_candidate ident).

(** * Telemetry *)

Inductive ProcessGroupIdentity := GroupSteam (app_id : Z) | GroupNative.

Record ProcessGroupKey := mkProcessGroupKey {
  pgk_active_pid : Z;
  pgk_active_start_ticks : Z;
  pgk_identity : ProcessGroupIdentity
}.

#[export] Instance ProcessGroupIdentity_eq_dec : EqDecision ProcessGroupIdentity.
Proof. solve_decision. Defined.
#[export] Instance ProcessGroupKey_eq_dec : EqDecision ProcessGroupKey.
Proof. solve_decision. Defined.

Record ProcessSample := mkProcessSample {
  ps_key : ProcessGroupKey;
  ps_resources : ProcessResources;
  ps_observed_at : instant
}.

Definition process_sample_new (active_pid active_start_ticks : Z) (app_id : option Z)
    (resources : ProcessResources) (observed_at : instant) : ProcessSample :=
  mkProcessSample
    (mkProcessGroupKey active_pid active_start_ticks
       (match app_id with Some id => GroupSteam id | None => GroupNative end))
    resources observed_at.

(** The sampler's one field, the previous sample. *)
Abbreviation telemetry_sampler := (option ProcessSample).

Definition cpu_percent_hundredths (previous current : ProcessSample) (ticks_per_second : Z) :
    option Z :=
  elapsed_nanos ← checked_duration_since (ps_observed_at current) (ps_observed_at previous);
  elapsed_ticks ← checked_mul u128_max elapsed_nanos ticks_per_second;
  if elapsed_ticks =? 0 then None
  else
    tick_delta ← checked_sub (pr_total_cpu_ticks (ps_resources current))
                   (pr_total_cpu_ticks (ps_resources previous));
    let hundredths :=
      saturating_mul u128_max (saturating_mul u128_max tick_delta 10000) 1000000000
        / elapsed_ticks in
    Some (default u32_max (try_from 0 u32_max hundredths)).

Definition sampler_observe (previous : telemetry_sampler) (sample : ProcessSample)
    (ticks_per_second : Z) : telemetry_sampler * GameTelemetry :=
  let cpu :=
    previous ← previous;
    if bool_decide (ps_key previous = ps_key sample)
    then cpu_percent_hundredths previous sample ticks_per_second else None in
  (Some sample, mkGameTelemetry cpu (Some (pr_resident_bytes (ps_resources sample))) None None).

Definition sampler_reset (previous : telemetry_sampler) : telemetry_sampler := None.

Definition add_resources (total : ProcessResources) (process : ProcessInfo) : ProcessResources :=
  mkProcessResources
    (saturating_add u64_max (pr_total_cpu_ticks total)
       (pr_total_cpu_ticks (pin_resources process)))
    (saturating_add u64_max (pr_resident_bytes total)
       (pr_resident_bytes (pin_resources process))).

Definition aggregate_resources (l : list ProcessInfo) : ProcessResources :=
  foldl add_resources (mkProcessResources 0 0) l.

(** The loop of [is_descendant_or_self]. *)
Fixpoint descends (fuel : nat) (next_pid active_pid : Z) (seen : gset Z) (procs : processes) : bool :=
  match fuel with
  | O => false
  | S fuel =>
      if bool_decide (next_pid ∈ seen) then false
      else if next_pid =? active_pid then true
      else match procs !! next_pid with
           | None => false
           | Some process =>
               descends fuel (pin_parent_pid process) active_pid ({[next_pid]} ∪ seen) procs
           end
  end.

Definition is_descendant_or_self (pid active_pid : Z) (procs : processes) : bool :=
  descends MAX_ANCESTORS pid active_pid ∅ procs.

(** [processes.values()], in some order. *)
Definition process_values (procs : processes) : list ProcessInfo := (map_to_list procs).*2.

Definition has_steam_app_id (app_id pid : Z) (procs : processes) : bool :=
  bool_decide (pi_steam_app_id (classify_process_identity pid procs) = Some app_id).

Definition collect_process_sample (active_pid : Z) (app_id : option Z) (procs : processes)
    (observed_at : instant) : option ProcessSample :=
  active ← procs !! active_pid;
  resources ←
    match app_id with
    | Some id =>
        then_some (has_steam_app_id id active_pid procs)
          (aggregate_resources
             (filter (λ process, has_steam_app_id id (pin_pid process) procs = true)
                (process_values procs)))
    | None =>
        Some (aggregate_resources
          (filter (λ process, is_descendant_or_self (pin_pid process) active_pid procs = true)
             (process_values procs)))
    end;
  Some (process_sample_new active_pid (pin_start_ticks active) app_id resources observed_at).

(** * The walk and its reference

    The reference has no state: the pids one meets by following parents, cut
    where a pid comes back, and the identity read off the processes found. *)

Definition parent (procs : processes) (pid : Z) : option Z := pin_parent_pid <$> procs !! pid.

(** The [k]-th ancestor of [pid], [pid] itself for 0. *)
Fixpoint ancestor (procs : processes) (k : nat) (pid : Z) : option Z :=
  match k with
  | O => Some pid
  | S k => ancestor procs k pid ≫= parent procs
  end.

Fixpoint lineage (procs : processes) (n : nat) (pid : Z) : list (Z * ProcessInfo) :=
  match n with
  | O => []
  | S n =>
      match procs !! pid with
      | None => []
      | Some process => (pid, process) :: lineage procs n (pin_parent_pid process)
      end
  end.

Fixpoint before_repeat (seen : gset Z) (l : list (Z * ProcessInfo)) : list ProcessInfo :=
  match l with
  | [] => []
  | (pid, process) :: l =>
      if bool_decide (pid ∈ seen) then [] else process :: before_repeat ({[pid]} ∪ seen) l
  end.

(** The executables of a list of processes, each path once, nearest first. *)
Fixpoint distinct_executables (seen : list path) (l : list ProcessInfo) : list path :=
  match l with
  | [] => []
  | process :: l =>
      match pin_executable process with
      | Some executable =>
          if path_mem executable seen then distinct_executables seen l
          else executable :: distinct_executables (executable :: seen) l
      | None => distinct_executables seen l
      end
  end.

Definition identity_of (l : list ProcessInfo) : ProcessIdentity :=
  mkProcessIdentity (find_map steam_app_id l) (distinct_executables [] l)
    (existsb looks_game_related l || isSome (find_map steam_app_id l)).

Lemma classify_ancestors_spec fuel procs pid seen execs id :
  let l := before_repeat seen (lineage procs fuel pid) in
  classify_ancestors fuel procs pid seen execs id =
    mkProcessIdentity
      (match pi_steam_app_id id with Some a => Some a | None => find_map steam_app_id l end)
      (pi_executable_chain id ++ distinct_executables execs l)
      (pi_game_candidate id || existsb looks_game_related l).
Proof.
  revert pid seen execs id. induction fuel as [|fuel IH]; intros pid seen execs [a c g];
    cbn [classify_ancestors lineage before_repeat].
  { cbn. rewrite app_nil_r, orb_false_r. by destruct a. }
  case_bool_decide as Hs.
  { destruct (procs !! pid); cbn [before_repeat]; rewrite ?bool_decide_eq_true_2 by done;
      cbn; rewrite app_nil_r, orb_false_r; by destruct a. }
  destruct (procs !! pid) as [p|]; cbn [before_repeat].
  2: { cbn. rewrite app_nil_r, orb_false_r. by destruct a. }
  rewrite bool_decide_eq_false_2 by done.
  destruct (pin_executable p) as [e|] eqn:Ee; [destruct (path_mem e execs) eqn:Em|];
    cbn -[before_repeat classify_ancestors]; rewrite IH; cbn -[before_repeat];
    rewrite Ee, ?Em, <- ?app_assoc, orb_assoc;
    (destruct a; cbn -[before_repeat]; [done|]); destruct (steam_app_id p); done.
Qed.

(** C4 The bounded walk up the process tree computes the identity of the at
    most 64 processes that following parents from [pid] meets before a pid
    comes back: the Steam app id of the nearest one that has one, the
    distinct executables nearest first, and a game candidate if any of them
    looks related to a game or a Steam id was found. *)
Theorem classify_process_identity_reference pid procs :
  classify_process_identity pid procs =
    identity_of (before_repeat ∅ (lineage procs MAX_ANCESTORS pid)).
Proof. unfold classify_process_identity. by rewrite classify_ancestors_spec. Qed.

(** ** Descendants *)

Lemma ancestor_shift procs k pid :
  ancestor procs (S k) pid = parent procs pid ≫= ancestor procs k.
Proof.
  induction k as [|k IH]; [cbn; by destruct (parent procs pid)|].
  change (ancestor procs (S (S k)) pid) with (ancestor procs (S k) pid ≫= parent procs).
  rewrite IH. by destruct (parent procs pid).
Qed.

(** Once a pid comes back, no further ancestor is new. *)
Lemma ancestor_cycle procs pid i j k :
  (j < i)%nat → ancestor procs i pid = ancestor procs j pid → (i ≤ k)%nat →
  ∃ j', (j' < i)%nat ∧ ancestor procs k pid = ancestor procs j' pid.
Proof.
  intros Hj He Hk. induction k as [|k IH].
  { assert (i = 0)%nat by lia. lia. }
  destruct (decide (i = S k)) as [->|]; [eauto|].
  destruct IH as (j' & Hlt & E); [lia|]. cbn. rewrite E.
  change (ancestor procs j' pid ≫= parent procs) with (ancestor procs (S j') pid).
  destruct (decide (S j' = i)) as [->|]; [exists j; auto|exists (S j'); split; [lia|done]].
Qed.

Lemma descends_spec fuel procs pid active i next seen :
  ancestor procs i pid = Some next →
  (∀ q, q ∈ seen ↔ ∃ j, (j < i)%nat ∧ ancestor procs j pid = Some q) →
  active ∉ seen →
  descends fuel next active seen procs = true ↔
    ∃ k, (i ≤ k < i + fuel)%nat ∧ ancestor procs k pid = Some active.
Proof.
  revert i next seen. induction fuel as [|fuel IH]; intros i next seen Hn Hseen Ha;
    cbn [descends]; [split; [done|intros (k & ? & _); lia]|].
  assert (∀ k, (k < i)%nat → ancestor procs k pid ≠ Some active) as Hno
    by (intros k ? ?; apply Ha, Hseen; eauto).
  case_bool_decide as Hs.
  { split; [done|]. intros (k & Hk & E). apply Hseen in Hs as (j & Hj & Ej).
    destruct (ancestor_cycle procs pid i j k) as (j' & ? & E'); [lia|congruence|lia|].
    destruct (Hno j'); [done|congruence]. }
  destruct (Z.eqb_spec next active) as [->|Hne].
  { split; [|done]. intros _. exists i. split; [lia|done]. }
  destruct (procs !! next) as [p|] eqn:Ep.
  - assert (ancestor procs (S i) pid = Some (pin_parent_pid p)) as Hn'
      by (cbn; rewrite Hn; cbn; unfold parent; by rewrite Ep).
    rewrite (IH (S i)); [|done| |set_solver].
    + split; intros (k & Hk & E); [exists k; split; [lia|done]|].
      destruct (decide (k = i)) as [->|]; [congruence|]. exists k. split; [lia|done].
    + intros q. rewrite elem_of_union, elem_of_singleton, Hseen. split.
      * intros [->|(j & ? & ?)]; [exists i|exists j]; split; auto; lia.
      * intros (j & Hj & E). destruct (decide (j = i)) as [->|]; [left; congruence|].
        right. exists j. split; [lia|done].
  - split; [done|]. intros (k & Hk & E). exfalso.
    assert (∀ m, ancestor procs (S i + m) pid = None) as Hnone.
    { intros m. induction m as [|m IHm]; [rewrite Nat.add_0_r; cbn; rewrite Hn; cbn;
        unfold parent; by rewrite Ep|]. rewrite Nat.add_succ_r. cbn in IHm |- *. by rewrite IHm. }
    destruct (decide (k = i)) as [->|]; [congruence|].
    specialize (Hnone (k - S i)%nat). replace (S i + (k - S i))%nat with k in Hnone by lia.
    congruence.
Qed.

Lemma is_descendant_or_self_iff pid active procs :
  is_descendant_or_self pid active procs = true ↔
    ∃ k, (k < MAX_ANCESTORS)%nat ∧ ancestor procs k pid = Some active.
Proof.
  unfold is_descendant_or_self. rewrite (descends_spec _ _ pid active 0); [|done|set_solver by lia|set_solver].
  split; intros (k & ? & ?); exists k; split; auto; lia.
Qed.

(** ** Resources *)

Fixpoint sum_over (f : ProcessInfo → Z) (l : list ProcessInfo) : Z :=
  match l with [] => 0 | p :: l => f p + sum_over f l end.

Definition process_cpu (p : ProcessInfo) : Z := pr_total_cpu_ticks (pin_resources p).
Definition process_memory (p : ProcessInfo) : Z := pr_resident_bytes (pin_resources p).

(** The counters of every process are unsigned. *)
Definition valid_resources (p : ProcessInfo) : Prop := 0 ≤ process_cpu p ∧ 0 ≤ process_memory p.

Lemma sum_over_nonneg l :
  Forall valid_resources l → 0 ≤ sum_over process_cpu l ∧ 0 ≤ sum_over process_memory l.
Proof. induction 1 as [|p l []]; cbn; lia. Qed.

Lemma aggregate_resources_from l c m :
  Forall valid_resources l → 0 ≤ c ≤ u64_max → 0 ≤ m ≤ u64_max →
  foldl add_resources (mkProcessResources c m) l =
    mkProcessResources (Z.min u64_max (c + sum_over process_cpu l))
                       (Z.min u64_max (m + sum_over process_memory l)).
Proof.
  intros Hl. revert c m. induction Hl as [|p l [Hc Hm] Hl IH]; intros c m ??; cbn.
  { f_equal; lia. }
  destruct (sum_over_nonneg l Hl).
  unfold add_resources at 2; cbn [pr_total_cpu_ticks pr_resident_bytes].
  fold (process_cpu p) (process_memory p). unfold saturating_add. rewrite IH by lia.
  f_equal; lia.
Qed.

Lemma aggregate_resources_sum l :
  Forall valid_resources l →
  aggregate_resources l = mkProcessResources (Z.min u64_max (sum_over process_cpu l))
                                             (Z.min u64_max (sum_over process_memory l)).
Proof. intros. unfold aggregate_resources. by rewrite aggregate_resources_from by (unfold u64_max; done || lia). Qed.

(** The processes measured with the game: for a Steam game those with the
    game's app id, for any other its descendants up to 63 generations down. *)
Definition in_group (active_pid : Z) (app_id : option Z) (procs : processes) (p : ProcessInfo) : Prop :=
  match app_id with
  | Some id => pi_steam_app_id (classify_process_identity (pin_pid p) procs) = Some id
  | None => ∃ k, (k < MAX_ANCESTORS)%nat ∧ ancestor procs k (pin_pid p) = Some active_pid
  end.

Lemma has_steam_app_id_iff id pid procs :
  has_steam_app_id id pid procs = true ↔
    pi_steam_app_id (classify_process_identity pid procs) = Some id.
Proof. apply bool_decide_eq_true. Qed.

#[export] Instance in_group_dec active_pid app_id procs p :
  Decision (in_group active_pid app_id procs p).
Proof.
  destruct app_id as [id|]; cbn; [apply _|].
  refine (cast_if (decide (is_descendant_or_self (pin_pid p) active_pid procs = true)));
    by rewrite <- is_descendant_or_self_iff.
Defined.

Lemma filter_iff {A} (P Q : A → Prop) `{!∀ x, Decision (P x), !∀ x, Decision (Q x)} (l : list A) :
  (∀ x, P x ↔ Q x) → filter P l = filter Q l.
Proof. intros E. by apply list_filter_iff. Qed.

Lemma filter_valid P `{!∀ x, Decision (P x)} procs :
  map_Forall (λ _, valid_resources) procs → Forall valid_resources (filter P (process_values procs)).
Proof.
  intros Hv. apply Forall_forall. intros p [_ Hp]%list_elem_of_filter.
  unfold process_values in Hp. apply list_elem_of_fmap in Hp as ([k q] & -> & Hk).
  apply elem_of_map_to_list in Hk. exact (Hv k q Hk).
Qed.

(** A sample of the active game exists exactly when its process is known
    and, for a Steam game, still classified as that game; it carries the
    process's start time and the totals, saturating at [u64::MAX], of exactly
    the processes of the game's group: those with its Steam app id, or those
    that reach the active process within 63 parent links. *)
Theorem collect_process_sample_iff active_pid app_id procs observed_at s :
  map_Forall (λ _, valid_resources) procs →
  collect_process_sample active_pid app_id procs observed_at = Some s ↔
    ∃ active,
      procs !! active_pid = Some active ∧
      (∀ id, app_id = Some id →
         pi_steam_app_id (classify_process_identity active_pid procs) = Some id) ∧
      let group := filter (in_group active_pid app_id procs) (process_values procs) in
      s = process_sample_new active_pid (pin_start_ticks active) app_id
            (mkProcessResources (Z.min u64_max (sum_over process_cpu group))
                                (Z.min u64_max (sum_over process_memory group))) observed_at.
Proof.
  intros Hv. unfold collect_process_sample.
  destruct (procs !! active_pid) as [active|]; cbn; [|split; [done|by intros (? & ? & _)]].
  rewrite <- aggregate_resources_sum by (by apply filter_valid).
  destruct app_id as [id|]; cbn [in_group].
  - rewrite (filter_iff _ (in_group active_pid (Some id) procs))
      by (intros p; apply has_steam_app_id_iff).
    destruct (has_steam_app_id id active_pid procs) eqn:E; cbn; split.
    + intros [= <-]. exists active. split_and!; [done|intros ? [= <-]|done].
      by apply has_steam_app_id_iff.
    + intros (? & [= <-] & _ & ->). done.
    + done.
    + intros (? & _ & H & _). specialize (H id eq_refl).
      apply has_steam_app_id_iff in H. congruence.
  - rewrite (filter_iff _ (in_group active_pid None procs))
      by (intros p; apply is_descendant_or_self_iff).
    split; [intros [= <-]; exists active; done|]. intros (? & [= <-] & _ & ->). done.
Qed.

(** Three processes: a native game, its child, and a stranger. *)
Definition sample_process (pid parent cpu mem : Z) : ProcessInfo :=
  mkProcessInfo pid parent (100 * pid) None (mkProcessResources cpu mem) (lit "p") ∅ [] None.

Definition sample_processes : processes :=
  {[ 10 := sample_process 10 1 5 1000; 20 := sample_process 20 10 7 u64_max;
     30 := sample_process 30 1 11 4000 ]}.

Lemma collect_process_sample_iff_witness :
  map_Forall (λ _, valid_resources) sample_processes ∧
  ∃ active, sample_processes !! 10 = Some active ∧
    ps_resources (process_sample_new 10 1000 None (mkProcessResources 12 u64_max) 0) =
      mkProcessResources 12 u64_max.
Proof.
  assert (map_Forall (λ _, valid_resources) sample_processes) as Hv.
  { apply map_Forall_lookup_2. intros i p H. unfold sample_processes in H.
    repeat (rewrite lookup_insert_Some in H; destruct H as [[_ <-]|[_ H]];
      [split; vm_compute; discriminate|]).
    apply lookup_singleton_Some in H as [_ <-]. split; vm_compute; discriminate. }
  split; [done|].
  assert (collect_process_sample 10 None sample_processes 0 =
    Some (process_sample_new 10 1000 None (mkProcessResources 12 u64_max) 0)) as E by (vm_compute; reflexivity).
  destruct (proj1 (collect_process_sample_iff 10 None sample_processes 0 _ Hv) E)
    as (active & Ha & _ & _).
  exists active. split; [done|reflexivity].
Defined.

(** ** CPU usage *)

Lemma tick_delta_no_overflow d :
  0 ≤ d ≤ u64_max → saturating_mul u128_max (saturating_mul u128_max d 10000) 1000000000 = d * 10000 * 1000000000.
Proof. unfold saturating_mul, u128_max, u64_max. lia. Qed.

(** A CPU figure is published exactly when the previous sample is of the
    same process and group, the clock and the tick counter have not gone
    back, and the elapsed tick count is positive and fits 128 bits; it is the
    share of the elapsed ticks that were CPU ticks, in hundredths of a
    percent rounded down, capped at [u32::MAX], and no intermediate
    multiplication saturates.  The sample always becomes the previous one. *)
Theorem sampler_observe_cpu previous sample tps cpu :
  0 ≤ tps →
  (∀ s, previous = Some s ∨ s = sample → 0 ≤ pr_total_cpu_ticks (ps_resources s) ≤ u64_max) →
  gt_cpu_percent_hundredths (snd (sampler_observe previous sample tps)) = Some cpu ↔
    ∃ old, previous = Some old ∧ ps_key old = ps_key sample ∧
      let elapsed := (ps_observed_at sample - ps_observed_at old) * tps in
      let ticks := pr_total_cpu_ticks (ps_resources sample)
                   - pr_total_cpu_ticks (ps_resources old) in
      0 < elapsed ≤ u128_max ∧ 0 ≤ ticks ∧
      cpu = Z.min u32_max (ticks * 10000 * 1000000000 / elapsed).
Proof.
  intros Ht Hv. destruct previous as [old|]; cbn; [|naive_solver].
  pose proof (Hv old (or_introl eq_refl)) as Ho. pose proof (Hv sample (or_intror eq_refl)) as Hs.
  case_bool_decide as Hk; [|naive_solver].
  transitivity (cpu_percent_hundredths old sample tps = Some cpu); [done|].
  unfold cpu_percent_hundredths, checked_duration_since, checked_sub, checked_mul.
  set (e := ps_observed_at sample - ps_observed_at old).
  destruct (Z.leb_spec (ps_observed_at old) (ps_observed_at sample)) as [Hle|Hlt]; cbn.
  2: { split; [done|]. intros (? & [= <-] & _ & Hc & _). fold e in Hc. nia. }
  fold e. destruct (Z.leb_spec (e * tps) u128_max); cbn.
  2: { split; [done|]. intros (? & [= <-] & _ & Hc & _). fold e in Hc. lia. }
  destruct (Z.eqb_spec (e * tps) 0) as [He|He]; cbn.
  { split; [done|]. intros (? & [= <-] & _ & Hc & _). fold e in Hc. lia. }
  assert (0 < e * tps) by nia.
  destruct (Z.leb_spec (pr_total_cpu_ticks (ps_resources old))
              (pr_total_cpu_ticks (ps_resources sample))); cbn.
  2: { split; [done|]. intros (? & [= <-] & _ & ? & ? & _). lia. }
  rewrite tick_delta_no_overflow by lia.
  set (h := _ / (e * tps)).
  assert (0 ≤ h) by (apply Z.div_pos; lia).
  assert (default u32_max (try_from 0 u32_max h) = Z.min u32_max h) as ->.
  { unfold try_from. destruct (Z.leb_spec 0 h); [|lia].
    destruct (Z.leb_spec h u32_max); cbn; lia. }
  split; [intros [= <-]; exists old; fold e; split_and!; try done; lia|].
  intros (? & [= <-] & _ & _ & _ & ->). done.
Qed.

Definition sample_at (ticks at_ns : Z) : ProcessSample :=
  process_sample_new 10 1000 None (mkProcessResources ticks 4096) at_ns.

Lemma sampler_observe_cpu_witness :
  (0 ≤ 100 ∧ (∀ s, Some (sample_at 50 0) = Some s ∨ s = sample_at 125 2000000000 →
                0 ≤ pr_total_cpu_ticks (ps_resources s) ≤ u64_max)) ∧
  gt_cpu_percent_hundredths
    (snd (sampler_observe (Some (sample_at 50 0)) (sample_at 125 2000000000) 100)) = Some 3750.
Proof.
  assert (∀ s, Some (sample_at 50 0) = Some s ∨ s = sample_at 125 2000000000 →
            0 ≤ pr_total_cpu_ticks (ps_resources s) ≤ u64_max) as Hv.
  { intros s [[= <-]| ->]; split; vm_compute; discriminate. }
  split; [split; [lia|exact Hv]|].
  refine (proj2 (sampler_observe_cpu (Some (sample_at 50 0)) (sample_at 125 2000000000) 100 3750
                   ltac:(lia) Hv) _).
  exists (sample_at 50 0). vm_compute. done.
Defined.
