(* ===== verification/Portal.v ===== *)
(** The shortcut portal's pure half ([crates/overcrow-core/src/shortcut.rs]):
    which shortcuts the state asks for, how an accelerator becomes a portal
    trigger, and how the answers of the desktop portal are checked. *)

From S2P Require Import Prelude Text Truncate Timing Protocol Settings Widgets.

(** * Messages *)

Definition MAX_MESSAGE_BYTES : Z := 240.

#[global] Arguments MAX_MESSAGE_BYTES : simpl never.

Definition bounded_message (message : str) (max_bytes : Z) : str :=
  if str_len message <=? max_bytes then message
  else slice_to_boundary (Z.to_nat max_bytes) message max_bytes.

(** [ShortcutError] has its message as its one field. *)
Record ShortcutError := mkShortcutError { se_message : str }.

#[export] Instance ShortcutError_eq_dec : EqDecision ShortcutError.
Proof. solve_decision. Defined.

Definition shortcut_error (message : str) : ShortcutError :=
  mkShortcutError (bounded_message message MAX_MESSAGE_BYTES).

Definition invalid_accelerator : ShortcutError :=
  shortcut_error (lit "unsupported shortcut accelerator").

Inductive ShortcutAvailability :=
| AvailDisabled
| AvailBinding
| AvailAvailable
| AvailUnavailable (message : str).

#[export] Instance ShortcutAvailability_eq_dec : EqDecision ShortcutAvailability.
Proof. solve_decision. Defined.

Definition unavailable (error : str) : ShortcutAvailability :=
  AvailUnavailable (bounded_message error MAX_MESSAGE_BYTES).

Definition availability_diagnostic (a : ShortcutAvailability) : str :=
  match a with
  | AvailDisabled => lit "disabled"
  | AvailBinding => lit "binding"
  | AvailAvailable => lit "available"
  | AvailUnavailable message =>
      lit "unavailable: " ++ bounded_message message MAX_MESSAGE_BYTES
  end.

(** * The shortcuts asked for *)

Inductive ShortcutAction := ActToggleOverlay | ActToggleManualStopwatch | ActResetManualStopwatch.

#[export] Instance ShortcutAction_eq_dec : EqDecision ShortcutAction.
Proof. solve_decision. Defined.

Record ShortcutDefinition := mkShortcutDefinition {
  sd_id : str;
  sd_description : str;
  sd_accelerator : str;
  sd_action : ShortcutAction
}.

#[export] Instance ShortcutDefinition_eq_dec : EqDecision ShortcutDefinition.
Proof. solve_decision. Defined.

Definition SHORTCUT_ID := lit "toggle-overlay".
Definition SHORTCUT_DESCRIPTION := lit "Open or close the OverCrow overlay".
Definition TOGGLE_MANUAL_STOPWATCH_ID := lit "toggle-manual-stopwatch".
Definition TOGGLE_MANUAL_STOPWATCH_DESCRIPTION := lit "Start or pause the OverCrow manual stopwatch".
Definition RESET_MANUAL_STOPWATCH_ID := lit "reset-manual-stopwatch".
Definition RESET_MANUAL_STOPWATCH_DESCRIPTION := lit "Reset the OverCrow manual stopwatch".
Definition TOGGLE_MANUAL_STOPWATCH_ACCELERATOR := lit "Meta+Alt+P".
Definition RESET_MANUAL_STOPWATCH_ACCELERATOR := lit "Meta+Alt+R".

Definition should_bind (snapshot : CoreSnapshot) (settings : ShortcutSettings) : bool :=
  ss_enabled settings && isSome (cs_active_game snapshot).

Definition trigger_modifier (part : str) : option (Z * str) :=
  if str_eqb part (lit "Meta") then Some (0, lit "LOGO")
  else if str_eqb part (lit "Ctrl") then Some (1, lit "CTRL")
  else if str_eqb part (lit "Alt") then Some (2, lit "ALT")
  else if str_eqb part (lit "Shift") then Some (3, lit "SHIFT")
  else None.

(** The loop of [portal_trigger] over the parts still to read. *)
Fixpoint trigger_loop (parts : list str) (trigger_parts : list str) (previous_rank : option Z) :
    result ShortcutError str :=
  match parts with
  | [] => Err invalid_accelerator
  | [part] =>
      match part with
      | [key] =>
          if is_ascii_alphanumeric key then
            match trigger_parts with
            | [] => Err invalid_accelerator
            | _ => Ok (join 43 (trigger_parts ++ [[ascii_lower key]]))
            end
          else Err invalid_accelerator
      | _ => Err invalid_accelerator
      end
  | part :: parts =>
      match trigger_modifier part with
      | None => Err invalid_accelerator
      | Some (rank, normalized) =>
          if is_some_and (λ previous, rank <=? previous) previous_rank
          then Err invalid_accelerator
          else trigger_loop parts (trigger_parts ++ [normalized]) (Some rank)
      end
  end.

Definition portal_trigger (accelerator : str) : result ShortcutError str :=
  trigger_loop (split 43 accelerator) [] None.

(** The loop that checks the triggers of one session are distinct. *)
Fixpoint unique_triggers (canonical_accelerators : list str) (definitions : list ShortcutDefinition) :
    result ShortcutError unit :=
  match definitions with
  | [] => Ok tt
  | definition :: definitions =>
      trigger ← portal_trigger (sd_accelerator definition);
      if bool_decide (trigger ∈ canonical_accelerators)
      then Err (shortcut_error (lit "shortcut accelerators must be unique within the portal session"))
      else unique_triggers (trigger :: canonical_accelerators) definitions
  end.

Definition requested_definitions (settings : ShortcutSettings) (profile : WidgetProfile) :
    list ShortcutDefinition :=
  (if ss_enabled settings
   then [mkShortcutDefinition SHORTCUT_ID SHORTCUT_DESCRIPTION (ss_accelerator settings) ActToggleOverlay]
   else []) ++
  (if ws_enabled (wpr_manual_stopwatch profile)
   then [mkShortcutDefinition TOGGLE_MANUAL_STOPWATCH_ID TOGGLE_MANUAL_STOPWATCH_DESCRIPTION
           TOGGLE_MANUAL_STOPWATCH_ACCELERATOR ActToggleManualStopwatch;
         mkShortcutDefinition RESET_MANUAL_STOPWATCH_ID RESET_MANUAL_STOPWATCH_DESCRIPTION
           RESET_MANUAL_STOPWATCH_ACCELERATOR ActResetManualStopwatch]
   else []).

Definition desired_shortcuts (snapshot : CoreSnapshot) (settings : ShortcutSettings)
    (profile : WidgetProfile) : result ShortcutError (list ShortcutDefinition) :=
  if isNone (cs_active_game snapshot) then Ok []
  else
    let definitions := requested_definitions settings profile in
    _ ← unique_triggers [] definitions;
    Ok definitions.

Inductive DesiredBinding :=
| DesiredDisabled
| DesiredBind (definitions : list ShortcutDefinition)
| DesiredInvalid (message : str).

Definition desired_binding (snapshot : CoreSnapshot) (settings : ShortcutSettings)
    (profile : WidgetProfile) : DesiredBinding :=
  match desired_shortcuts snapshot settings profile with
  | Ok [] => DesiredDisabled
  | Ok definitions => DesiredBind definitions
  | Err error => DesiredInvalid (se_message error)
  end.

(** * Answers of the portal

    Parsing a D-Bus name, an object path or a variant is code of the bus
    library; it reports an error message. *)

Inductive ResponseSource := SourcePredicted | SourceAny.

#[export] Instance ResponseSource_eq_dec : EqDecision ResponseSource.
Proof. solve_decision. Defined.

Inductive RequestPathStrategy := StrategyPredicted | StrategyLegacy (path : str).

Inductive ShortcutEvent :=
| EvActivated (session_handle shortcut_id : str)
| EvMalformed
| EvClosed
| EvOwnerLost.

Definition MAX_BUFFERED_REQUEST_RESPONSES : nat := 64.

#[global] Arguments MAX_BUFFERED_REQUEST_RESPONSES : simpl never.

Definition token_is_valid (token : str) : bool :=
  negb (bool_decide (token = [])) && forallb (λ b, is_ascii_alphanumeric b || (b =? 95)) token.

Definition ensure_success_response (response : Z) : result ShortcutError unit :=
  if response =? 0 then Ok tt
  else Err (shortcut_error (lit "portal request failed with response code " ++ show_Z response)).

Definition parse_bind_response {V} (response : Z) (shortcuts : option (list (str * V)))
    (requested_ids : list str) : result ShortcutError unit :=
  _ ← ensure_success_response response;
  shortcuts ← ok_or (shortcut_error (lit "portal response omitted bound shortcuts")) shortcuts;
  let requested := list_to_set requested_ids : gset str in
  let bound := list_to_set (fst <$> shortcuts) : gset str in
  if bool_decide (size requested = length requested_ids)
     && bool_decide (size bound = length shortcuts) && bool_decide (bound = requested)
  then Ok tt
  else Err (shortcut_error (lit "portal did not bind the requested shortcut")).

Section portal.
Context {V : Type}.
Context (parse_unique_name : str → result str str).
Context (parse_object_path : str → result str str).
Context (value_as_str : V → result str str).
Context (value_as_shortcuts : V → result str (list (str * gmap str V))).

Record PortalResponse := mkPortalResponse {
  prs_path : str;
  prs_code : Z;
  prs_results : gmap str V
}.

Inductive RequestEvent :=
| ReqResponse (source : ResponseSource) (response : PortalResponse)
| ReqOwnerChanged (old_owner new_owner : str).

Definition map_err {T} (context : str) (r : result str T) : result ShortcutError T :=
  match r with Ok x => Ok x | Err e => Err (shortcut_error (context ++ e)) end.

(** [prefix/sender/token], the sender the unique name without its leading
    colons and its dots replaced by underscores. *)
Fixpoint trim_colons (s : str) : str :=
  match s with c :: s' => if c =? 58 then trim_colons s' else s | [] => [] end.
Definition dots_to_underscores (s : str) : str := (λ c, if c =? 46 then 95 else c) <$> s.

Definition portal_object_path (prefix unique_name token : str) : result ShortcutError str :=
  unique_name ← map_err (lit "invalid D-Bus unique name: ") (parse_unique_name unique_name);
  if negb (token_is_valid token) then Err (shortcut_error (lit "invalid portal handle token"))
  else
    let sender := dots_to_underscores (trim_colons unique_name) in
    map_err (lit "invalid portal object path: ")
      (parse_object_path (prefix ++ 47 :: sender ++ 47 :: token)).

Definition request_path (unique_name token : str) : result ShortcutError str :=
  portal_object_path (lit "/org/freedesktop/portal/desktop/request") unique_name token.
Definition session_path (unique_name token : str) : result ShortcutError str :=
  portal_object_path (lit "/org/freedesktop/portal/desktop/session") unique_name token.

Definition request_path_strategy (predicted returned : str) :
    result ShortcutError RequestPathStrategy :=
  returned ← map_err (lit "invalid returned request path: ") (parse_object_path returned);
  Ok (if bool_decide (returned = predicted) then StrategyPredicted else StrategyLegacy returned).

Definition parse_create_response (response : Z) (results : gmap str V) (expected_session : str) :
    result ShortcutError str :=
  _ ← ensure_success_response response;
  value ← ok_or (shortcut_error (lit "portal response omitted session_handle"))
            (results !! lit "session_handle");
  handle ← map_err (lit "invalid session_handle type: ") (value_as_str value);
  if negb (str_eqb handle expected_session)
  then Err (shortcut_error (lit "portal returned a session path other than the requested session"))
  else map_err (lit "invalid portal session path: ") (parse_object_path handle).

Definition parse_bind_results (response : Z) (results : gmap str V) (requested_ids : list str) :
    result ShortcutError unit :=
  _ ← ensure_success_response response;
  value ← ok_or (shortcut_error (lit "portal response omitted bound shortcuts"))
            (results !! lit "shortcuts");
  shortcuts ← map_err (lit "malformed bound shortcuts result: ") (value_as_shortcuts value);
  parse_bind_response response (Some shortcuts) requested_ids.

Definition parse_optional_unique_name (value : str) : result ShortcutError (option str) :=
  match value with
  | [] => Ok None
  | _ => Some <$> map_err (lit "invalid portal D-Bus owner name: ") (parse_unique_name value)
  end.

Definition portal_owner_change_event (old_owner new_owner : str) :
    result ShortcutError (option ShortcutEvent) :=
  old_owner ← parse_optional_unique_name old_owner;
  new_owner ← parse_optional_unique_name new_owner;
  match old_owner, new_owner with
  | None, Some _ => Ok None
  | Some _, None => Ok (Some EvOwnerLost)
  | Some old, Some new =>
      if bool_decide (old ≠ new) then Ok (Some EvOwnerLost)
      else Err (shortcut_error (lit "malformed portal owner transition"))
  | _, _ => Err (shortcut_error (lit "malformed portal owner transition"))
  end.

Definition response_matches (source : ResponseSource) (response : PortalResponse)
    (predicted returned : str) : bool :=
  match request_path_strategy predicted returned with
  | Ok StrategyPredicted =>
      bool_decide (source = SourcePredicted) && str_eqb (prs_path response) predicted
  | Ok (StrategyLegacy path) =>
      bool_decide (source = SourceAny) && str_eqb (prs_path response) path
  | Err _ => false
  end.

(** What the [select!] of [await_monitored_response] receives: the method
    call's reply, or an event of the bus. *)
Inductive await_input :=
| CallReturned (reply : result ShortcutError str)
| SourceEvent (event : result ShortcutError RequestEvent).

Definition answer (r : ResponseSource * PortalResponse) : Z * gmap str V :=
  (prs_code (snd r), prs_results (snd r)).

Definition owner_lost_error : ShortcutError :=
  shortcut_error (lit "desktop portal owner disappeared or was replaced").
Definition too_many_responses_error : ShortcutError :=
  shortcut_error (lit "too many portal responses arrived before the method reply").

(** One iteration's [select!] and [match event]: the loop goes on with the
    new [returned] and [buffered], or ends. *)
Definition await_step (predicted : str) (returned : option str)
    (buffered : list (ResponseSource * PortalResponse)) (input : await_input) :
    result (result ShortcutError (Z * gmap str V))
           (option str * list (ResponseSource * PortalResponse)) :=
  match input with
  | CallReturned reply =>
      match returned, reply with
      | Some _, _ => Ok (returned, buffered)
      | None, Ok path => Ok (Some path, buffered)
      | None, Err error => Err (Err error)
      end
  | SourceEvent (Err error) => Err (Err error)
  | SourceEvent (Ok (ReqOwnerChanged old_owner new_owner)) =>
      match portal_owner_change_event old_owner new_owner with
      | Err error => Err (Err error)
      | Ok (Some _) => Err (Err owner_lost_error)
      | Ok None => Ok (returned, buffered)
      end
  | SourceEvent (Ok (ReqResponse source response)) =>
      match returned with
      | Some path =>
          if response_matches source response predicted path
          then Err (Ok (answer (source, response))) else Ok (returned, buffered)
      | None =>
          if (length buffered <? MAX_BUFFERED_REQUEST_RESPONSES)%nat
          then Ok (None, buffered ++ [(source, response)])
          else Err (Err too_many_responses_error)
      end
  end.

Definition matching (predicted path : str) (r : ResponseSource * PortalResponse) : bool :=
  response_matches (fst r) (snd r) predicted path.

(** The loop, [None] while it still waits at the end of the inputs. *)
Fixpoint await_monitored_response (predicted : str) (returned : option str)
    (buffered : list (ResponseSource * PortalResponse)) (inputs : list await_input) :
    option (result ShortcutError (Z * gmap str V)) :=
  match path ← returned; find_first (matching predicted path) buffered with
  | Some r => Some (Ok (answer r))
  | None =>
      match inputs with
      | [] => None
      | input :: inputs =>
          match await_step predicted returned buffered input with
          | Err outcome => Some outcome
          | Ok (returned, buffered) => await_monitored_response predicted returned buffered inputs
          end
      end
  end.

(** ** The answer awaited *)

(** The responses a list of bus events carries, and events that neither end
    the wait with an error nor lose the portal's owner. *)
Fixpoint responses (events : list RequestEvent) : list (ResponseSource * PortalResponse) :=
  match events with
  | [] => []
  | ReqResponse s r :: events => (s, r) :: responses events
  | ReqOwnerChanged _ _ :: events => responses events
  end.
Definition owner_kept (e : RequestEvent) : Prop :=
  match e with
  | ReqOwnerChanged old new => portal_owner_change_event old new = Ok None
  | ReqResponse _ _ => True
  end.

Definition as_inputs (events : list RequestEvent) : list await_input :=
  (λ e, SourceEvent (Ok e)) <$> events.

Lemma await_returned predicted path buffered events :
  Forall owner_kept events →
  await_monitored_response predicted (Some path) buffered (as_inputs events) =
    (λ r, Ok (answer r)) <$> find_first (matching predicted path) (buffered ++ responses events).
Proof.
  intros He. revert buffered. induction He as [|e events Hk He IH]; intros buffered; cbn.
  { rewrite app_nil_r. by destruct (find_first _ buffered). }
  rewrite find_first_app. destruct (find_first _ buffered) as [r|] eqn:Eb; [done|].
  destruct e as [s r|old new]; cbn.
  - change (response_matches s r predicted path) with (matching predicted path (s, r)).
    destruct (matching predicted path (s, r)); [done|].
    by rewrite IH, find_first_app, Eb.
  - cbn in Hk. by rewrite Hk, IH, find_first_app, Eb.
Qed.

Lemma await_buffering predicted path buffered before after :
  Forall owner_kept before → Forall owner_kept after →
  (length buffered ≤ MAX_BUFFERED_REQUEST_RESPONSES)%nat →
  await_monitored_response predicted None buffered
      (as_inputs before ++ CallReturned (Ok path) :: as_inputs after) =
    if (MAX_BUFFERED_REQUEST_RESPONSES <? length (buffered ++ responses before))%nat
    then Some (Err too_many_responses_error)
    else (λ r, Ok (answer r)) <$>
           find_first (matching predicted path) (buffered ++ responses before ++ responses after).
Proof.
  intros Hb Ha. revert buffered. induction Hb as [|e before Hk Hb IH]; intros buffered Hl.
  - cbn [as_inputs fmap list_fmap app await_monitored_response mbind option_bind await_step].
    rewrite await_returned by done. cbn. rewrite app_nil_r.
    destruct (Nat.ltb_spec MAX_BUFFERED_REQUEST_RESPONSES (length buffered)); [lia|done].
  - destruct e as [s r|old new]; cbn.
    + destruct (Nat.ltb_spec (length buffered) MAX_BUFFERED_REQUEST_RESPONSES).
      * fold (as_inputs before). rewrite IH by (rewrite length_app; cbn; lia).
        by rewrite <- !app_assoc.
      * destruct (Nat.ltb_spec MAX_BUFFERED_REQUEST_RESPONSES
          (length (buffered ++ (s, r) :: responses before))); [done|].
        rewrite length_app in *; cbn in *; lia.
    + cbn in Hk. rewrite Hk. by apply IH.
Qed.

(** When the portal keeps its owner and the method call returns a request
    path, the wait ends with the first response, in the order of arrival
    and whether it came before or after the call returned, that comes from
    the stream and path the returned path selects; it fails if more than
    64 responses arrived before the call returned, and otherwise goes on
    until such a response arrives. *)
Theorem await_monitored_response_first_match predicted path before after :
  Forall owner_kept before → Forall owner_kept after →
  await_monitored_response predicted None []
      (as_inputs before ++ CallReturned (Ok path) :: as_inputs after) =
    if (MAX_BUFFERED_REQUEST_RESPONSES <? length (responses before))%nat
    then Some (Err too_many_responses_error)
    else (λ r, Ok (answer r)) <$>
           find_first (matching predicted path) (responses before ++ responses after).
Proof. intros Hb Ha. by rewrite (await_buffering predicted path [] before after Hb Ha) by (cbn; lia). Qed.
End portal.

(** ** Two responses on the bus before the reply *)

Definition sample_path : str := lit "/request/1".
Definition sample_response (source : ResponseSource) (code : Z) : RequestEvent (V := unit) :=
  ReqResponse source (mkPortalResponse sample_path code ∅).

Lemma await_monitored_response_first_match_witness :
  let ok := λ s : str, Ok s : result str str in
  let before := [sample_response SourceAny 1; sample_response SourcePredicted 0] in
  (Forall (owner_kept ok) before ∧ Forall (owner_kept ok) ([] : list (RequestEvent (V := unit)))) ∧
  await_monitored_response ok ok sample_path None []
    (as_inputs before ++ CallReturned (Ok sample_path) :: as_inputs []) = Some (Ok (0, ∅)).
Proof.
  intros ok before.
  assert (Forall (owner_kept ok) before) as Hb by (repeat constructor).
  split; [split; [done|constructor]|].
  rewrite (await_monitored_response_first_match ok ok sample_path sample_path before [] Hb
             (List.Forall_nil _)).
  vm_compute. reflexivity.
Defined.

(** * Triggers *)

Definition trigger_name (m : str) : str := default [] (snd <$> trigger_modifier m).

Lemma trigger_modifier_rank m :
  trigger_modifier m = (λ r, (r, trigger_name m)) <$> modifier_rank m.
Proof. unfold trigger_name, trigger_modifier, modifier_rank. by repeat case_match. Qed.

Lemma trigger_loop_spec ms part tp prev t :
  trigger_loop (ms ++ [part]) tp prev = Ok t ↔
  ∃ c, part = [c] ∧ is_ascii_alphanumeric c = true ∧ rank_chain prev ms ∧ tp ++ ms ≠ [] ∧
    t = join 43 (tp ++ (trigger_name <$> ms) ++ [[ascii_lower c]]).
Proof.
  revert tp prev. induction ms as [|m ms IH]; intros tp prev.
  - cbn. destruct part as [|c [|]]; [|destruct (is_ascii_alphanumeric c) eqn:Ec|];
      try (split; [done|by intros (? & [=] & _)]).
    2: { split; [done|intros (? & [= <-] & ? & _); congruence]. }
    rewrite app_nil_r. destruct tp as [|n tp]; [split; [done|by intros (? & _ & _ & _ & ? & _)]|]. split.
    + intros [= <-]. exists c. by split_and!.
    + intros (? & [= <-] & _ & _ & _ & ->). done.
  - assert (trigger_loop ((m :: ms) ++ [part]) tp prev =
      match trigger_modifier m with
      | None => Err invalid_accelerator
      | Some (rank, normalized) =>
          if is_some_and (λ previous, rank <=? previous) prev
          then Err invalid_accelerator
          else trigger_loop (ms ++ [part]) (tp ++ [normalized]) (Some rank)
      end) as -> by (cbn; by destruct ms).
    rewrite trigger_modifier_rank. cbn [rank_chain fmap list_fmap].
    destruct (modifier_rank m) as [r|]; cbn [fmap option_fmap option_map];
      [|split; [done|intros (? & _ & _ & (? & ? & _) & _); done]].
    destruct (is_some_and _ prev) eqn:Hp.
    { split; [done|]. intros (? & _ & _ & (? & [= <-] & ? & _) & _). congruence. }
    rewrite IH. split; intros (c & -> & Hc & Hr & Hne & ->); exists c.
    + split_and!; [done..|eauto|by destruct tp|by rewrite <- app_assoc].
    + destruct Hr as (? & [= <-] & _ & Hr).
      split_and!; [done..|by destruct tp|by rewrite <- !app_assoc].
Qed.

(** The portal trigger of an accelerator exists exactly when settings
    validation accepts the accelerator, and is its modifiers under the
    portal's names, in the same order, and its key in lower case. *)
Theorem portal_trigger_iff accelerator t :
  portal_trigger accelerator = Ok t ↔
  ∃ mods c, mods ≠ [] ∧ mods `sublist_of` canonical_modifiers ∧ is_ascii_alphanumeric c = true ∧
    accelerator = join 43 (mods ++ [[c]]) ∧
    t = join 43 ((trigger_name <$> mods) ++ [[ascii_lower c]]).
Proof.
  unfold portal_trigger. split.
  - intros H. destruct (exists_last (split_nonempty 43 accelerator)) as (ms & part & E).
    rewrite E in H. apply trigger_loop_spec in H as (c & -> & Hc & Hr & Hne & ->).
    apply (rank_chain_sublist None 0) in Hr; [|done]. rewrite drop_0 in Hr.
    exists ms, c. split_and!; try done. rewrite <- E. symmetry. apply join_split.
  - intros (mods & c & Hne & Hs & Hc & -> & ->). rewrite split_join.
    + apply trigger_loop_spec. exists c. split_and!; try done.
      by apply (rank_chain_sublist None 0).
    + by destruct mods.
    + apply Forall_app; split; [by apply sublist_modifier_no_plus|].
      constructor; [by apply alphanumeric_not_plus|done].
Qed.

Lemma portal_trigger_valid accelerator :
  is_ok (portal_trigger accelerator) = accelerator_is_valid accelerator.
Proof.
  apply eq_true_iff_eq. rewrite accelerator_is_valid_iff.
  assert (is_ok (portal_trigger accelerator) = true ↔ ∃ t, portal_trigger accelerator = Ok t) as ->
    by (destruct (portal_trigger accelerator); naive_solver).
  setoid_rewrite portal_trigger_iff. unfold accelerator_spec. split.
  - intros (t & mods & c & ? & ? & ? & ? & _). eauto 10.
  - intros (mods & c & ? & ? & ? & ?). eauto 10.
Qed.

(** * Bounded messages *)

(** Truncating a message keeps the longest prefix of whole characters that
    fits the byte bound: the result fits, and either is the whole message or
    the next character would not fit. *)
Theorem bounded_message_longest message max_bytes :
  0 ≤ max_bytes →
  let p := bounded_message message max_bytes in
  str_len p ≤ max_bytes ∧
  (p = message ∨ ∃ c rest, message = p ++ c :: rest ∧ max_bytes < str_len p + len_utf8 c).
Proof.
  intros Hmax. unfold bounded_message.
  destruct (Z.leb_spec (str_len message) max_bytes) as [Hle|Hgt]; [by split; [|left]|].
  pose proof (slice_to_boundary_spec (Z.to_nat max_bytes) message max_bytes) as H.
  cbv zeta in H |- *. set (p := slice_to_boundary _ _ _) in *.
  destruct H as ((k & Hk) & Hl & Hm); [lia|]. split; [done|]. right.
  destruct k as [|c k]; [rewrite app_nil_r in Hk; rewrite Hk in Hgt; lia|].
  exists c, k. split; [done|].
  assert (¬ str_len (p ++ [c]) ≤ max_bytes) as Hn.
  { intros Hc. assert (p ++ [c] `prefix_of` message) as Hpre
      by (exists k; rewrite <- app_assoc; done).
    specialize (Hm _ Hpre Hc). rewrite str_len_app, str_len_cons in Hm. cbn in Hm.
    pose proof (len_utf8_bounds c). lia. }
  rewrite str_len_app, str_len_cons in Hn. cbn in Hn. lia.
Qed.

(** "aé" cut to two bytes. *)
Lemma bounded_message_longest_witness :
  0 ≤ 2 ∧ bounded_message [97; 233] 2 = [97] ∧
  (str_len (bounded_message [97; 233] 2) ≤ 2).
Proof.
  assert (0 ≤ 2) as H by lia. split_and!; [done|vm_compute; reflexivity|].
  exact (proj1 (bounded_message_longest [97; 233] 2 H)).
Defined.

(** * Which shortcuts are bound *)

(** A spelling of the accelerator one of the stopwatch shortcuts uses. *)
Definition stopwatch_accelerator (a : str) : Prop :=
  a ∈ [lit "Meta+Alt+P"; lit "Meta+Alt+p"; lit "Meta+Alt+R"; lit "Meta+Alt+r"].

#[export] Instance stopwatch_accelerator_dec a : Decision (stopwatch_accelerator a).
Proof. unfold stopwatch_accelerator. apply _. Defined.

Lemma trigger_name_canonical m n :
  m ∈ canonical_modifiers → trigger_name m = n →
  (n = lit "LOGO" → m = lit "Meta") ∧ (n = lit "ALT" → m = lit "Alt").
Proof.
  intros Hm <-. unfold canonical_modifiers in Hm.
  repeat (apply elem_of_cons in Hm as [->|Hm]; [by vm_compute|]). by apply not_elem_of_nil in Hm.
Qed.

Lemma trigger_name_no_plus mods :
  mods `sublist_of` canonical_modifiers → Forall (λ p, 43 ∉ p) (trigger_name <$> mods).
Proof.
  intros H. apply Forall_fmap. apply Forall_forall. intros m Hm.
  assert (m ∈ canonical_modifiers) as Hc
    by (eapply elem_of_submseteq; [exact Hm|by apply sublist_submseteq]).
  clear H Hm. unfold canonical_modifiers in Hc. apply (bool_decide_eq_true_1 (43 ∉ trigger_name m)).
  repeat (apply elem_of_cons in Hc as [->|Hc]; [vm_compute; reflexivity|]).
  by apply not_elem_of_nil in Hc.
Qed.

Lemma portal_trigger_stopwatch a t key :
  portal_trigger a = Ok t → t = lit "LOGO+ALT+" ++ [key] → is_ascii_lower key = true →
  a = lit "Meta+Alt+" ++ [key] ∨ a = lit "Meta+Alt+" ++ [key - 32].
Proof.
  intros Ht -> Hkey. apply portal_trigger_iff in Ht as (mods & c & Hne & Hs & Hc & -> & Ht).
  assert (split 43 (lit "LOGO+ALT+" ++ [key]) = [lit "LOGO"; lit "ALT"; [key]]) as Esp.
  { unfold is_ascii_lower in Hkey. bools. unfold lit at 1. cbn.
    destruct (Z.eqb_spec key 43); [lia|done]. }
  rewrite Ht, split_join in Esp.
  - destruct mods as [|m1 [|m2 [|m3 mods]]]; try discriminate Esp.
    2: { destruct mods; discriminate Esp. }
    assert (∀ m, m ∈ [m1; m2] → m ∈ canonical_modifiers) as Hin
      by (intros m Hm; eapply elem_of_submseteq; [exact Hm|by apply sublist_submseteq]).
    cbn in Esp. injection Esp as E1 E2 E3.
    pose proof (proj1 (trigger_name_canonical m1 _ (Hin m1 ltac:(constructor)) E1) eq_refl) as ->.
    pose proof (proj2 (trigger_name_canonical m2 _ (Hin m2 ltac:(repeat constructor)) E2) eq_refl) as ->.
    unfold ascii_lower in E3. destruct (is_ascii_upper c); subst key.
    + right. replace (c + 32 - 32) with c by lia. done.
    + by left.
  - by destruct mods.
  - apply Forall_app; split; [by apply trigger_name_no_plus|].
    constructor; [|done]. intros [E|?%not_elem_of_nil]%elem_of_cons; [|done].
    unfold ascii_lower, is_ascii_alphanumeric, is_ascii_alphabetic, is_ascii_upper, is_ascii_lower,
      is_ascii_digit in *. bools.
    destruct (Z.leb_spec 65 c), (Z.leb_spec c 90); cbn in E; bools; lia.
Qed.

Definition not_unique_error : ShortcutError :=
  shortcut_error (lit "shortcut accelerators must be unique within the portal session").

Lemma portal_trigger_collides a t :
  portal_trigger a = Ok t →
  t ∈ [lit "LOGO+ALT+p"; lit "LOGO+ALT+r"] ↔ stopwatch_accelerator a.
Proof.
  intros Ht. split.
  - intros H. unfold stopwatch_accelerator.
    apply elem_of_cons in H as [Et|H].
    { destruct (portal_trigger_stopwatch a t 112 Ht Et eq_refl) as [->| ->];
        (right; left) || left. }
    apply list_elem_of_singleton in H as Et.
    destruct (portal_trigger_stopwatch a t 114 Ht Et eq_refl) as [->| ->];
      (right; right; right; left) || (right; right; left).
  - unfold stopwatch_accelerator. intros H.
    apply (bool_decide_eq_true_1 (t ∈ [lit "LOGO+ALT+p"; lit "LOGO+ALT+r"])).
    repeat (apply elem_of_cons in H as [->|H];
      [vm_compute in Ht; injection Ht as <-; vm_compute; reflexivity|]).
    by apply not_elem_of_nil in H.
Qed.

Lemma unique_triggers_cons seen definition definitions :
  unique_triggers seen (definition :: definitions) =
    match portal_trigger (sd_accelerator definition) with
    | Err e => Err e
    | Ok trigger =>
        if bool_decide (trigger ∈ seen) then Err not_unique_error
        else unique_triggers (trigger :: seen) definitions
    end.
Proof. cbn. by destruct (portal_trigger _). Qed.

(** Nothing is bound without an active game.  Otherwise the definitions
    asked for are the overlay toggle, when shortcuts are enabled, followed by
    the two stopwatch shortcuts, when that widget is enabled; they are
    refused exactly when the overlay's accelerator is malformed, or spells a
    stopwatch accelerator while both are enabled. *)
Theorem desired_shortcuts_branches snapshot settings profile :
  desired_shortcuts snapshot settings profile =
    if isNone (cs_active_game snapshot) then Ok []
    else if ss_enabled settings && negb (accelerator_is_valid (ss_accelerator settings))
    then Err invalid_accelerator
    else if ss_enabled settings && ws_enabled (wpr_manual_stopwatch profile)
            && bool_decide (stopwatch_accelerator (ss_accelerator settings))
    then Err not_unique_error
    else Ok (requested_definitions settings profile).
Proof.
  unfold desired_shortcuts, requested_definitions.
  destruct (isNone (cs_active_game snapshot)); [done|].
  destruct (ss_enabled settings); cbn [andb app].
  2: { destruct (ws_enabled (wpr_manual_stopwatch profile)); [|done].
       by vm_compute. }
  rewrite <- portal_trigger_valid, unique_triggers_cons. cbn [sd_accelerator].
  destruct (portal_trigger (ss_accelerator settings)) as [t|e] eqn:Et; cbn [is_ok negb mbind result_bind].
  2: { f_equal. unfold portal_trigger in Et. revert Et. generalize (@nil str).
       generalize (@None Z). induction (split 43 (ss_accelerator settings)) as [|p ps IH]; intros pr tp;
         cbn; [congruence|]. destruct ps as [|q ps].
       - destruct p as [|? [|]]; [congruence| |congruence]. repeat case_match; congruence.
       - destruct (trigger_modifier p) as [[r n]|]; [|congruence].
         destruct (is_some_and _ pr); [congruence|]. apply IH. }
  rewrite bool_decide_eq_false_2 by apply not_elem_of_nil.
  destruct (ws_enabled (wpr_manual_stopwatch profile)); cbn [andb]; [|done].
  pose proof (portal_trigger_collides _ _ Et) as Hc.
  assert (portal_trigger TOGGLE_MANUAL_STOPWATCH_ACCELERATOR = Ok (lit "LOGO+ALT+p")) as Ep
    by (by vm_compute).
  assert (portal_trigger RESET_MANUAL_STOPWATCH_ACCELERATOR = Ok (lit "LOGO+ALT+r")) as Er
    by (by vm_compute).
  rewrite unique_triggers_cons. cbn [sd_accelerator]. rewrite Ep.
  rewrite unique_triggers_cons. cbn [sd_accelerator]. rewrite Er.
  rewrite <- (bool_decide_ext _ _ Hc).
  assert (lit "LOGO+ALT+r" ≠ lit "LOGO+ALT+p") as Hrp by (by vm_compute).
  destruct (decide (t ∈ [lit "LOGO+ALT+p"; lit "LOGO+ALT+r"])) as [Hin|Hin];
    [rewrite (bool_decide_eq_true_2 (t ∈ _) Hin)|rewrite (bool_decide_eq_false_2 (t ∈ _) Hin)].
  - apply elem_of_cons in Hin as [->|Hin].
    + by rewrite bool_decide_eq_true_2 by constructor.
    + apply list_elem_of_singleton in Hin as ->.
      rewrite bool_decide_eq_false_2 by (intros ?%list_elem_of_singleton; congruence).
      by rewrite bool_decide_eq_true_2 by (right; constructor).
  - apply not_elem_of_cons in Hin as [Hp Hr]. apply not_elem_of_cons in Hr as [Hr _].
    rewrite bool_decide_eq_false_2 by (intros ?%list_elem_of_singleton; congruence).
    rewrite bool_decide_eq_false_2; [done|].
    intros [?|?%list_elem_of_singleton]%elem_of_cons; congruence.
Qed.

(** Bound shortcuts are accepted exactly when the portal reports success
    and lists each requested id once and nothing else, in any order. *)
Theorem parse_bind_response_iff {V} response (shortcuts : option (list (str * V))) requested_ids :
  parse_bind_response response shortcuts requested_ids = Ok tt ↔
  response = 0 ∧ NoDup requested_ids ∧
  ∃ bound, shortcuts = Some bound ∧ bound.*1 ≡ₚ requested_ids.
Proof.
  assert (∀ l : list str, size (list_to_set l : gset str) = length l ↔ NoDup l) as Hsize.
  { intros l. split; [|apply size_list_to_set].
    induction l as [|x l IH]; [constructor|]. cbn. intros H.
    destruct (decide (x ∈ l)) as [Hx|Hx].
    - rewrite (subseteq_union_1_L {[x]}) in H by set_solver.
      assert (size (list_to_set l : gset str) ≤ length l)%nat; [|lia].
      clear. induction l as [|x l IH]; cbn; [done|].
      rewrite size_union_alt, size_singleton.
      pose proof (subseteq_size (list_to_set l ∖ {[x]} : gset str) (list_to_set l) ltac:(set_solver)). lia.
    - rewrite size_union, size_singleton in H by set_solver. constructor; [done|]. apply IH. lia. }
  unfold parse_bind_response, ensure_success_response.
  destruct (Z.eqb_spec response 0); cbn [mbind result_bind]; [|naive_solver].
  destruct shortcuts as [bound|]; cbn [ok_or mbind result_bind]; [|naive_solver].
  replace (length bound) with (length bound.*1) by apply length_fmap.
  rewrite (bool_decide_ext _ _ (Hsize requested_ids)), (bool_decide_ext _ _ (Hsize bound.*1)).
  case_bool_decide as Hr; [|by split; [|intros (_ & ? & _)]].
  case_bool_decide as Hb; cbn.
  2: { split; [done|]. intros (_ & _ & ? & [= <-] & Hp). by rewrite Hp in Hb. }
  case_bool_decide as He; split.
  2: { intros (_ & _ & ? & [= <-] & Hp). done. }
  - intros _. split_and!; try done. exists bound. split; [done|].
    apply NoDup_Permutation; [done..|]. intros x. rewrite <- !(elem_of_list_to_set (C := gset str)).
    by rewrite He.
  - done.
  - intros (_ & _ & ? & [= <-] & Hp). destruct He. apply set_eq. intros x.
    rewrite !elem_of_list_to_set. by rewrite Hp.
Qed.
