(* ===== verification/X11Shortcut.v ===== *)
(** Native shortcuts on X11 ([crates/overcrow-core/src/x11_shortcut.rs]): the
    cookie in the X authority file, the plan of key grabs for a keyboard map,
    their installation, and the events of a session. *)

From S2P Require Import Prelude Ordered Text Timing Protocol Settings Widgets Portal.

Definition SESSION_HANDLE : str := lit "x11-native".
Definition MIT_MAGIC_COOKIE : list Z := lit "MIT-MAGIC-COOKIE-1".
Definition MAX_NATIVE_SHORTCUTS : nat := 3.
Definition MAX_XAUTHORITY_BYTES : Z := 256 * 1024.
Definition MODIFIER_BITS : list Z := [1; 2; 4; 8; 16; 32; 64; 128].
Definition CORE_MODIFIER_MASK : Z := 255.
Definition XK_CAPS_LOCK : Z := 65509.
Definition XK_SHIFT_L : Z := 65505.
Definition XK_SHIFT_R : Z := 65506.
Definition XK_CONTROL_L : Z := 65507.
Definition XK_CONTROL_R : Z := 65508.
Definition XK_META_L : Z := 65511.
Definition XK_META_R : Z := 65512.
Definition XK_ALT_L : Z := 65513.
Definition XK_ALT_R : Z := 65514.
Definition XK_SUPER_L : Z := 65515.
Definition XK_SUPER_R : Z := 65516.
Definition XK_NUM_LOCK : Z := 65407.
Definition XK_SCROLL_LOCK : Z := 65300.

Abbreviation sc_result := (result ShortcutError).
Definition x11_error {A} (message : string) : sc_result A := Err (shortcut_error (lit message)).

(** * The authority file *)

Definition malformed_authority : string := "native X11 authentication file is malformed".

Definition read_xauthority_u16 (bytes : list Z) : sc_result (Z * list Z) :=
  match bytes with
  | hi :: lo :: bytes => Ok (hi * 256 + lo, bytes)
  | _ => x11_error malformed_authority
  end.

Definition read_xauthority_field (bytes : list Z) : sc_result (list Z * list Z) :=
  '(length_, bytes) ← read_xauthority_u16 bytes;
  if (Z.to_nat length_ <=? length bytes)%nat
  then Ok (take (Z.to_nat length_) bytes, drop (Z.to_nat length_) bytes)
  else x11_error malformed_authority.

Record XauthEntry := mkXauthEntry {
  xe_family : Z; xe_address : list Z; xe_display : list Z; xe_name : list Z; xe_data : list Z
}.

Definition read_xauthority_entry (bytes : list Z) : sc_result (XauthEntry * list Z) :=
  '(entry_family, bytes) ← read_xauthority_u16 bytes;
  '(entry_address, bytes) ← read_xauthority_field bytes;
  '(entry_display, bytes) ← read_xauthority_field bytes;
  '(name, bytes) ← read_xauthority_field bytes;
  '(data, bytes) ← read_xauthority_field bytes;
  Ok (mkXauthEntry entry_family entry_address entry_display name data, bytes).

Section xauthority.
(** [Family::WILD] of the X library. *)
Context (FAMILY_WILD : Z).

Definition xauth_entry_matches (family : Z) (address : list Z) (display : str) (e : XauthEntry) : bool :=
  let wild := (family =? FAMILY_WILD) || (xe_family e =? FAMILY_WILD) in
  (wild || (family =? xe_family e)) &&
  (wild || bool_decide (xe_address e = address)) &&
  (bool_decide (xe_display e = []) || bool_decide (xe_display e = display)) &&
  bool_decide (xe_name e = MIT_MAGIC_COOKIE).

(** The loop over the entries; each takes at least ten bytes of the file. *)
Fixpoint parse_xauthority_loop (fuel : nat) (bytes : list Z) (family : Z) (address : list Z) (display : str) :
    sc_result (list Z * list Z) :=
  match bytes, fuel with
  | [], _ | _, O => Ok ([], [])
  | _, S fuel =>
      '(e, bytes) ← read_xauthority_entry bytes;
      if xauth_entry_matches family address display e then Ok (xe_name e, xe_data e)
      else parse_xauthority_loop fuel bytes family address display
  end.

Definition parse_xauthority (bytes : list Z) (family : Z) (address : list Z) (display : Z) :
    sc_result (list Z * list Z) :=
  parse_xauthority_loop (length bytes) bytes family address (show_Z display).

(** What [read_x11_auth] sees of the file: whether it opens, its metadata,
    and what a read of at most one byte over the limit returns. *)
Record AuthorityFile := mkAuthorityFile {
  af_metadata : option (bool * Z);
  af_contents : option (list Z)
}.

Definition read_x11_auth (authority : option AuthorityFile) (family : Z) (address : list Z) (display : Z) :
    sc_result (list Z * list Z) :=
  match authority with
  | None => Ok ([], [])
  | Some file =>
      '(is_file, st_size) ← ok_or (shortcut_error (lit "native X11 authentication metadata unavailable"))
                              (af_metadata file);
      let size := default u64_max (try_from 0 u64_max st_size) in
      if negb is_file || (MAX_XAUTHORITY_BYTES <? size)
      then x11_error "native X11 authentication file is invalid"
      else
        bytes ← ok_or (shortcut_error (lit "native X11 authentication file is unreadable"))
                  (take (Z.to_nat (MAX_XAUTHORITY_BYTES + 1)) <$> af_contents file);
        if MAX_XAUTHORITY_BYTES <? Z.of_nat (length bytes)
        then x11_error "native X11 authentication file is invalid"
        else parse_xauthority bytes family address display
  end.
End xauthority.

(** * The keyboard map *)

Record KeyboardMap := mkKeyboardMap {
  km_min_keycode : Z;
  km_keycode_count : Z;
  km_keysyms_per_keycode : Z;
  km_keysyms : list Z
}.

Definition keyboard_map_new (min_keycode keycode_count keysyms_per_keycode : Z) (keysyms : list Z) :
    sc_result KeyboardMap :=
  let expected := keycode_count * keysyms_per_keycode in
  if (keysyms_per_keycode =? 0) || negb (Z.of_nat (length keysyms) =? expected)
  then x11_error "native X11 keyboard mapping is invalid"
  else Ok (mkKeyboardMap min_keycode keycode_count keysyms_per_keycode keysyms).

Definition keysyms_of (km : KeyboardMap) (keycode : Z) : list Z :=
  match opt_filter (λ index, index <? km_keycode_count km) (checked_sub keycode (km_min_keycode km)) with
  | None => []
  | Some index =>
      let start := index * km_keysyms_per_keycode km in
      take (Z.to_nat (km_keysyms_per_keycode km)) (drop (Z.to_nat start) (km_keysyms km))
  end.


Definition keycode_for_ascii (km : KeyboardMap) (key : Z) : option Z :=
  let lower := ascii_lower key in
  let upper := ascii_upper key in
  find_first (λ keycode, existsb (λ keysym, (keysym =? lower) || (keysym =? upper)) (keysyms_of km keycode))
    ((λ offset, km_min_keycode km + offset) <$> seqZ 0 (km_keycode_count km)).

(** * Modifiers *)

Record ModifierMapping := mkModifierMapping {
  mm_logo : option Z;
  mm_alt : option Z;
  mm_lock_masks : list Z;
  mm_ignored_lock_mask : Z
}.

(** The six sets [from_keycodes] fills. *)
Record MaskSets := mkMaskSets {
  super_masks : list Z; meta_masks : list Z; alt_masks : list Z;
  shift_masks : list Z; control_masks : list Z; lock_masks : list Z
}.
#[export] Instance MaskSets_eta : Eta MaskSets :=
  λ m, mkMaskSets (super_masks m) (meta_masks m) (alt_masks m) (shift_masks m) (control_masks m) (lock_masks m).

Definition note_keysym (mask : Z) (sets : MaskSets) (keysym : Z) : MaskSets :=
  if (keysym =? XK_SUPER_L) || (keysym =? XK_SUPER_R) then sets <| super_masks ::= bt_insert mask |>
  else if (keysym =? XK_META_L) || (keysym =? XK_META_R) then sets <| meta_masks ::= bt_insert mask |>
  else if (keysym =? XK_ALT_L) || (keysym =? XK_ALT_R) then sets <| alt_masks ::= bt_insert mask |>
  else if (keysym =? XK_CAPS_LOCK) || (keysym =? XK_NUM_LOCK) || (keysym =? XK_SCROLL_LOCK)
  then sets <| lock_masks ::= bt_insert mask |>
  else if (keysym =? XK_SHIFT_L) || (keysym =? XK_SHIFT_R) then sets <| shift_masks ::= bt_insert mask |>
  else if (keysym =? XK_CONTROL_L) || (keysym =? XK_CONTROL_R) then sets <| control_masks ::= bt_insert mask |>
  else sets.

(** [chunks_exact(per_modifier).enumerate()] with the bit of each chunk. *)
Fixpoint modifier_groups (per_modifier : nat) (keycodes : list Z) (bits : list Z) : list (Z * list Z) :=
  match bits with
  | [] => []
  | mask :: bits => (mask, take per_modifier keycodes) :: modifier_groups per_modifier (drop per_modifier keycodes) bits
  end.

Definition note_group (km : KeyboardMap) (sets : MaskSets) (group : Z * list Z) : MaskSets :=
  let '(mask, keycodes) := group in
  foldl (note_keysym mask) sets
    (keycodes ≫= λ keycode, if negb (keycode =? 0) then keysyms_of km keycode else []).

Definition collect_masks (km : KeyboardMap) (keycodes : list Z) (per_modifier : nat) : MaskSets :=
  foldl (note_group km) (mkMaskSets [] [] [] [] [] []) (modifier_groups per_modifier keycodes MODIFIER_BITS).

Definition unique_mask (masks : list Z) : sc_result (option Z) :=
  if (1 <? length masks)%nat then x11_error "native X11 modifier mapping is ambiguous" else Ok (head masks).

Definition unique_required_mask (masks : list Z) : sc_result Z :=
  mask ← unique_mask masks;
  ok_or (shortcut_error (lit "native X11 modifier mapping is invalid")) mask.

Definition lock_mask_shared (sets : MaskSets) (mask : Z) : bool :=
  bool_decide (mask ∈ shift_masks sets) || bool_decide (mask ∈ control_masks sets) ||
  bool_decide (mask ∈ alt_masks sets) || bool_decide (mask ∈ super_masks sets) ||
  bool_decide (mask ∈ meta_masks sets).

Definition lock_variants (lock_masks : list Z) : list Z :=
  foldl (λ variants mask, bt_extend variants ((λ value, Z.lor value mask) <$> variants)) [0] lock_masks.

Section x11.
(** [ModMask::SHIFT] and [ModMask::CONTROL] of the X library. *)
Context (MOD_SHIFT MOD_CONTROL : Z).

Definition from_keycodes (km : KeyboardMap) (keycodes : list Z) : sc_result ModifierMapping :=
  let per_modifier := (length keycodes / 8)%nat in
  if negb (length keycodes mod 8 =? 0)%nat then x11_error "native X11 modifier mapping is invalid"
  else if (per_modifier =? 0)%nat then x11_error "native X11 modifier mapping is invalid"
  else
    let sets := collect_masks km keycodes per_modifier in
    shift ← unique_required_mask (shift_masks sets);
    if negb (shift =? MOD_SHIFT) then x11_error "native X11 modifier mapping is invalid"
    else
      control ← unique_required_mask (control_masks sets);
      if negb (control =? MOD_CONTROL) then x11_error "native X11 modifier mapping is invalid"
      else if existsb (lock_mask_shared sets) (lock_masks sets)
      then x11_error "native X11 modifier mapping is ambiguous"
      else
        logo ← unique_mask (match super_masks sets with [] => meta_masks sets | s => s end);
        alt ← unique_mask (alt_masks sets);
        Ok (mkModifierMapping logo alt (lock_masks sets) (foldl Z.lor 0 (lock_masks sets))).

(** * Accelerators *)

Record ParsedAccelerator := mkParsedAccelerator {
  pa_logo : bool; pa_control : bool; pa_alt : bool; pa_shift : bool; pa_key : Z
}.
#[export] Instance ParsedAccelerator_eta : Eta ParsedAccelerator :=
  λ p, mkParsedAccelerator (pa_logo p) (pa_control p) (pa_alt p) (pa_shift p) (pa_key p).

Fixpoint parse_parts (parsed : ParsedAccelerator) (parts : list str) : sc_result ParsedAccelerator :=
  match parts with
  | [] => Err invalid_accelerator
  | [part] =>
      match part with
      | [key] => if str_len part =? 1 then Ok (parsed <| pa_key := key |>) else Err invalid_accelerator
      | _ => Err invalid_accelerator
      end
  | part :: parts =>
      if str_eqb part (lit "LOGO") then parse_parts (parsed <| pa_logo := true |>) parts
      else if str_eqb part (lit "CTRL") then parse_parts (parsed <| pa_control := true |>) parts
      else if str_eqb part (lit "ALT") then parse_parts (parsed <| pa_alt := true |>) parts
      else if str_eqb part (lit "SHIFT") then parse_parts (parsed <| pa_shift := true |>) parts
      else Err invalid_accelerator
  end.

Definition parse_accelerator (accelerator : str) : sc_result ParsedAccelerator :=
  trigger ← portal_trigger accelerator;
  parse_parts (mkParsedAccelerator false false false false 0) (split 43 trigger).

(** * The plan *)

Record NativeBinding := mkNativeBinding { nb_id : str; nb_keycode : Z; nb_modifiers : Z }.
Record BindingPlan := mkBindingPlan {
  bp_bindings : list NativeBinding;
  bp_registrations : list (Z * Z);
  bp_ignored_lock_mask : Z
}.

Definition required_modifiers (m : ModifierMapping) (p : ParsedAccelerator) : sc_result Z :=
  logo ← (if pa_logo p then
            logo ← ok_or (shortcut_error (lit "native X11 Meta modifier is unavailable")) (mm_logo m);
            if pa_alt p && bool_decide (mm_alt m = Some logo)
            then x11_error "native X11 modifier mapping is ambiguous"
            else Ok logo
          else Ok 0);
  let required := if pa_control p then Z.lor logo MOD_CONTROL else logo in
  required ← (if pa_alt p then
                alt ← ok_or (shortcut_error (lit "native X11 Alt modifier is unavailable")) (mm_alt m);
                Ok (Z.lor required alt)
              else Ok required);
  let required := if pa_shift p then Z.lor required MOD_SHIFT else required in
  if negb (Z.land required (mm_ignored_lock_mask m) =? 0)
  then x11_error "native X11 modifier mapping is ambiguous"
  else Ok required.

(** The loop over the definitions; [native_chords] is the set of chords. *)
Fixpoint plan_loop (km : KeyboardMap) (m : ModifierMapping) (native_chords : gset (Z * Z))
    (bindings : list NativeBinding) (definitions : list ShortcutDefinition) : sc_result (list NativeBinding) :=
  match definitions with
  | [] => Ok bindings
  | d :: definitions =>
      parsed ← parse_accelerator (sd_accelerator d);
      keycode ← ok_or (shortcut_error (lit "native X11 shortcut key is unavailable"))
                  (keycode_for_ascii km (pa_key parsed));
      required ← required_modifiers m parsed;
      if bool_decide ((keycode, required) ∈ native_chords)
      then x11_error "native X11 shortcut accelerators resolve to the same key"
      else plan_loop km m ({[(keycode, required)]} ∪ native_chords)
             (bindings ++ [mkNativeBinding (sd_id d) keycode required]) definitions
  end.

Definition plan_bindings (definitions : list ShortcutDefinition) (km : KeyboardMap) (modifier_keycodes : list Z) :
    sc_result BindingPlan :=
  m ← from_keycodes km modifier_keycodes;
  bindings ← plan_loop km m ∅ [] definitions;
  let variants := lock_variants (mm_lock_masks m) in
  let registrations :=
    bt_collect (bindings ≫= λ b, (λ locks, (nb_keycode b, Z.lor (nb_modifiers b) locks)) <$> variants) in
  Ok (mkBindingPlan bindings registrations (mm_ignored_lock_mask m)).
End x11.

(** * Activation *)

(** [state & CORE_MODIFIER_MASK & !ignored_lock_mask]. *)
Definition activated_shortcut (bindings : list NativeBinding) (keycode state ignored_lock_mask : Z) : option str :=
  let modifiers := Z.ldiff (Z.land state CORE_MODIFIER_MASK) ignored_lock_mask in
  nb_id <$> find_first (λ b, (nb_keycode b =? keycode) && (nb_modifiers b =? modifiers)) bindings.

Record NativeKeyState := mkNativeKeyState {
  ks_pressed : gset Z;
  ks_pending_release : option (Z * Z)
}.
Definition key_state_default : NativeKeyState := mkNativeKeyState ∅ None.

Definition release_pending (s : NativeKeyState) : NativeKeyState :=
  match ks_pending_release s with
  | Some (keycode, _) => mkNativeKeyState (ks_pressed s ∖ {[keycode]}) None
  | None => s
  end.

Definition key_press (s : NativeKeyState) (keycode time : Z) : bool * NativeKeyState :=
  if bool_decide (ks_pending_release s = Some (keycode, time))
  then (false, mkNativeKeyState (ks_pressed s) None)
  else
    let s := release_pending s in
    (bool_decide (keycode ∉ ks_pressed s),
     mkNativeKeyState ({[keycode]} ∪ ks_pressed s) (ks_pending_release s)).

Definition key_release (s : NativeKeyState) (keycode time : Z) : NativeKeyState :=
  let s := release_pending s in
  if bool_decide (keycode ∈ ks_pressed s)
  then mkNativeKeyState (ks_pressed s) (Some (keycode, time)) else s.

(** The events of the connection, as far as the session tells them apart. *)
Inductive XEvent :=
| XKeyPress (detail time state : Z)
| XKeyRelease (detail time : Z)
| XMappingNotify
| XError
| XOther.

Record X11Session := mkX11Session {
  xs_bindings : list NativeBinding;
  xs_ignored_lock_mask : Z;
  xs_key_state : NativeKeyState
}.
#[export] Instance X11Session_eta : Eta X11Session :=
  λ s, mkX11Session (xs_bindings s) (xs_ignored_lock_mask s) (xs_key_state s).

(** One event of [next_event]'s loop: what it returns, if it returns. *)
Definition session_event (s : X11Session) (event : XEvent) : option (sc_result ShortcutEvent) * X11Session :=
  match event with
  | XKeyPress detail time state =>
      let '(first, key_state) := key_press (xs_key_state s) detail time in
      let s := s <| xs_key_state := key_state |> in
      match (if first then activated_shortcut (xs_bindings s) detail state (xs_ignored_lock_mask s) else None) with
      | Some shortcut_id => (Some (Ok (EvActivated SESSION_HANDLE shortcut_id)), s)
      | None => (None, s)
      end
  | XKeyRelease detail time => (None, s <| xs_key_state ::= λ k, key_release k detail time |>)
  | XMappingNotify =>
      (Some (x11_error "native X11 keyboard mapping changed"), s <| xs_key_state ::= release_pending |>)
  | XError => (Some (x11_error "native X11 shortcut connection failed"), s <| xs_key_state ::= release_pending |>)
  | XOther => (None, s <| xs_key_state ::= release_pending |>)
  end.

(** The results of calling [next_event] again and again, up to the first
    error, which ends the session. *)
Fixpoint session_run (s : X11Session) (events : list XEvent) : list (sc_result ShortcutEvent) :=
  match events with
  | [] => []
  | event :: events =>
      let '(out, s) := session_event s event in
      match out with
      | Some (Ok e) => Ok e :: session_run s events
      | Some (Err e) => [Err e]
      | None => session_run s events
      end
  end.

(** * Grabs *)

(** The trait [GrabTarget], on a state [T] of the server's side. *)
Class GrabTarget (T : Type) := {
  grab : T → Z → Z * Z → sc_result unit * T;
  ungrab : T → Z → Z * Z → T;
  flush : T → sc_result unit * T
}.

(** [impl GrabTarget for RustConnection]: the requests of the X library and
    the check of the grab's reply. *)
Section connection.
Context {T : Type} (grab_key : T → Z → Z → Z → option (option unit) * T)
  (ungrab_key : T → Z → Z → Z → T) (connection_flush : T → bool * T).

Definition connection_grab (t : T) (root : Z) (registration : Z * Z) : sc_result unit * T :=
  let '(sent, t) := grab_key t root (snd registration) (fst registration) in
  (match sent with
   | None => x11_error "native X11 shortcut could not be registered"
   | Some None => x11_error "native X11 shortcut is already in use"
   | Some (Some _) => Ok tt
   end, t).

Definition connection_target : GrabTarget T := {|
  grab := connection_grab;
  ungrab t root registration := ungrab_key t (fst registration) root (snd registration);
  flush t := let '(sent, t) := connection_flush t in
             (if sent then Ok tt else x11_error "native X11 shortcut connection failed", t)
|}.
End connection.

Section grabs.
Context {T : Type} `{GrabTarget T}.

Definition ungrab_all (t : T) (root : Z) (installed : list (Z * Z)) : T :=
  foldl (λ t r, ungrab t root r) t (reverse installed).

Fixpoint install_loop (t : T) (root : Z) (installed registrations : list (Z * Z)) : sc_result unit * T :=
  match registrations with
  | [] =>
      let '(sent, t) := flush t in
      match sent with
      | Ok _ => (Ok tt, t)
      | Err error => (Err error, snd (flush (ungrab_all t root installed)))
      end
  | registration :: registrations =>
      let '(granted, t) := grab t root registration in
      match granted with
      | Ok _ => install_loop t root (installed ++ [registration]) registrations
      | Err error => (Err error, snd (flush (ungrab_all t root installed)))
      end
  end.

Definition install_grabs (t : T) (root : Z) (registrations : list (Z * Z)) : sc_result unit * T :=
  install_loop t root [] registrations.

(** * Setting up a session *)

(** What the server says when the connection is set up. *)
Record X11Setup := mkX11Setup {
  su_roots : list Z;
  su_min_keycode : Z;
  su_max_keycode : Z;
  su_keyboard : option (Z * list Z);
  su_modifiers : option (list Z)
}.

Definition connect_and_grab (MOD_SHIFT MOD_CONTROL : Z) (connected : option (X11Setup * T)) (screen : nat)
    (definitions : list ShortcutDefinition) : sc_result (X11Session * T) * option T :=
  if bool_decide (definitions = []) || (MAX_NATIVE_SHORTCUTS <? length definitions)%nat
  then (x11_error "native X11 shortcut request is invalid", None)
  else match connected with
  | None => (x11_error "native X11 shortcut connection unavailable", None)
  | Some (setup, t) =>
      let planned :=
        root ← ok_or (shortcut_error (lit "native X11 screen unavailable")) (su_roots setup !! screen);
        keycode_count ← ok_or (shortcut_error (lit "native X11 keyboard mapping is invalid"))
          (count ← checked_sub (su_max_keycode setup) (su_min_keycode setup); checked_add u8_max count 1);
        '(per_keycode, keysyms) ← ok_or (shortcut_error (lit "native X11 keyboard mapping unavailable"))
                                    (su_keyboard setup);
        modifiers ← ok_or (shortcut_error (lit "native X11 modifier mapping unavailable")) (su_modifiers setup);
        keymap ← keyboard_map_new (su_min_keycode setup) keycode_count per_keycode keysyms;
        plan ← plan_bindings MOD_SHIFT MOD_CONTROL definitions keymap modifiers;
        Ok (root, plan) in
      match planned with
      | Err e => (Err e, Some t)
      | Ok (root, plan) =>
          let '(installed, t) := install_grabs t root (bp_registrations plan) in
          match installed with
          | Err e => (Err e, Some t)
          | Ok _ => (Ok (mkX11Session (bp_bindings plan) (bp_ignored_lock_mask plan) key_state_default, t), Some t)
          end
      end
  end.
End grabs.

(** * Masks *)

Lemma ldiff_0_iff a b : Z.ldiff a b = 0 ↔ ∀ n, 0 ≤ n → Z.testbit a n = true → Z.testbit b n = true.
Proof.
  split.
  - intros H n Hn Ha. apply (f_equal (λ z, Z.testbit z n)) in H.
    rewrite Z.ldiff_spec, Ha, Z.bits_0 in H by done. by destruct (Z.testbit b n).
  - intros H. apply Z.bits_inj'. intros n Hn. rewrite Z.ldiff_spec, Z.bits_0 by done.
    destruct (Z.testbit a n) eqn:E; [|done]. by rewrite (H n).
Qed.

(** A mask of the eight core modifiers. *)
Definition core_mask (x : Z) : Prop := 0 ≤ x ∧ Z.ldiff x CORE_MODIFIER_MASK = 0.

Lemma core_mask_lor x y : core_mask x → core_mask y → core_mask (Z.lor x y).
Proof.
  intros [Hx Hx'] [Hy Hy']. split; [by apply Z.lor_nonneg|].
  rewrite ldiff_0_iff in *. intros n Hn. rewrite Z.lor_spec. intros [H|H]%orb_true_iff; auto.
Qed.

Definition single_bit (m : Z) : Prop := ∃ i, 0 ≤ i ∧ m = 2 ^ i.

Lemma modifier_bits_single m : m ∈ MODIFIER_BITS → single_bit m ∧ core_mask m.
Proof.
  unfold MODIFIER_BITS. rewrite !elem_of_cons, elem_of_nil.
  intros H. destruct_or?; subst; try done; (split; [|split; [lia|done]]).
  - by exists 0. - by exists 1. - by exists 2. - by exists 3.
  - by exists 4. - by exists 5. - by exists 6. - by exists 7.
Qed.

Lemma lor_bit_split v i :
  0 ≤ i → Z.testbit v i = true → v = Z.lor (Z.ldiff v (2 ^ i)) (2 ^ i).
Proof.
  intros Hi Hv. apply Z.bits_inj'. intros n Hn. rewrite Z.lor_spec, Z.ldiff_spec, Z.pow2_bits_eqb by done.
  destruct (Z.eqb_spec i n) as [<-|]; [by rewrite Hv|]. by rewrite orb_false_r, andb_true_r.
Qed.

Lemma lock_variants_loop masks S A v :
  Forall single_bit masks → (∀ w, w ∈ S ↔ 0 ≤ w ∧ Z.ldiff w A = 0) →
  v ∈ foldl (λ variants mask, bt_extend variants ((λ value, Z.lor value mask) <$> variants)) S masks ↔
  0 ≤ v ∧ Z.ldiff v (foldl Z.lor A masks) = 0.
Proof.
  intros Hm. revert S A v. induction Hm as [|m masks (i & Hi & ->) Hm IH]; intros S A v HS; cbn; [apply HS|].
  apply IH. clear v. intros v. rewrite elem_of_bt_extend, HS, list_elem_of_fmap. split.
  - intros [[Hv HA]|(w & -> & [Hw HA]%HS)].
    + split; [done|]. rewrite ldiff_0_iff in *. intros n Hn Hb. by rewrite Z.lor_spec, (HA n).
    + split; [apply Z.lor_nonneg; split; [done|by apply Z.pow_nonneg]|].
      rewrite ldiff_0_iff in *. intros n Hn. rewrite !Z.lor_spec.
      intros [Hb|Hb]%orb_true_iff; [by rewrite (HA n)|by rewrite Hb, orb_true_r].
  - intros [Hv HA]. rewrite ldiff_0_iff in HA. destruct (Z.testbit v i) eqn:Ei.
    + right. exists (Z.ldiff v (2 ^ i)). split; [by apply lor_bit_split|]. apply HS.
      split; [by apply Z.ldiff_nonneg; auto|]. rewrite ldiff_0_iff. intros n Hn.
      rewrite Z.ldiff_spec, Z.pow2_bits_eqb by done. intros [Hb Hne]%andb_true_iff.
      specialize (HA n Hn Hb). rewrite Z.lor_spec, Z.pow2_bits_eqb in HA by done.
      apply negb_true_iff in Hne. by rewrite Hne, orb_false_r in HA.
    + left. split; [done|]. rewrite ldiff_0_iff. intros n Hn Hb. specialize (HA n Hn Hb).
      rewrite Z.lor_spec, Z.pow2_bits_eqb in HA by done.
      destruct (Z.eqb_spec i n) as [E|]; [congruence|]. by rewrite orb_false_r in HA.
Qed.

(** Every combination of the lock masks, and nothing else. *)
Lemma elem_of_lock_variants masks v :
  Forall single_bit masks → v ∈ lock_variants masks ↔ 0 ≤ v ∧ Z.ldiff v (foldl Z.lor 0 masks) = 0.
Proof.
  intros Hm. apply lock_variants_loop; [done|]. intros w. rewrite Z.ldiff_0_r, list_elem_of_singleton. lia.
Qed.

(** A chord is pressed with some of the locks on. *)
Lemma chord_with_locks mods state ignored :
  core_mask mods → core_mask ignored → Z.land mods ignored = 0 →
  Z.ldiff (Z.land state CORE_MODIFIER_MASK) ignored = mods ↔
  ∃ locks, 0 ≤ locks ∧ Z.ldiff locks ignored = 0 ∧ Z.land state CORE_MODIFIER_MASK = Z.lor mods locks.
Proof.
  intros [Hm Hmc] [Hi Hic] Hd. split.
  - intros <-. set (s := Z.land state CORE_MODIFIER_MASK). exists (Z.land s ignored).
    assert (0 ≤ s) as Hs by (apply Z.land_nonneg; right; done).
    split; [by apply Z.land_nonneg; left|]. split.
    + rewrite ldiff_0_iff. intros n Hn. rewrite Z.land_spec. by intros [_ ?]%andb_true_iff.
    + apply Z.bits_inj'. intros n Hn. rewrite Z.lor_spec, Z.ldiff_spec, Z.land_spec by done.
      by destruct (Z.testbit s n), (Z.testbit ignored n).
  - intros (locks & Hl & Hli & ->). apply Z.bits_inj'. intros n Hn.
    rewrite Z.ldiff_spec, Z.lor_spec by done.
    apply (f_equal (λ z, Z.testbit z n)) in Hd. rewrite Z.land_spec, Z.bits_0 in Hd.
    rewrite ldiff_0_iff in Hli. specialize (Hli n Hn).
    destruct (Z.testbit mods n), (Z.testbit locks n), (Z.testbit ignored n); cbn in *; auto; try done.
    by specialize (Hli eq_refl).
Qed.

(** * What the modifier mapping guarantees *)

Definition sets_in_bits (sets : MaskSets) : Prop :=
  ∀ l, l ∈ [super_masks sets; meta_masks sets; alt_masks sets; shift_masks sets; control_masks sets; lock_masks sets] →
  l ⊆ MODIFIER_BITS.

Lemma note_keysym_in_bits mask sets keysym :
  mask ∈ MODIFIER_BITS → sets_in_bits sets → sets_in_bits (note_keysym mask sets keysym).
Proof.
  intros Hm Hs. assert (∀ l, l ⊆ MODIFIER_BITS → bt_insert mask l ⊆ MODIFIER_BITS) as Hi.
  { intros l Hl x [->|Hx]%elem_of_bt_insert; [done|by apply Hl]. }
  unfold sets_in_bits in *. setoid_rewrite elem_of_cons in Hs.
  unfold note_keysym. repeat case_match; try (intros l Hl; apply Hs; by apply elem_of_cons in Hl);
    intros l Hl; cbn in Hl; rewrite !elem_of_cons, elem_of_nil in Hl; destruct_or!; subst; try done;
    try apply Hi; apply Hs; rewrite ?elem_of_cons; tauto.
Qed.

Lemma foldl_invariant {A B} (P : A → Prop) (f : A → B → A) l a :
  P a → (∀ a b, b ∈ l → P a → P (f a b)) → P (foldl f a l).
Proof.
  revert a. induction l as [|b l IH]; intros a Ha Hf; cbn; [done|].
  apply IH; [apply Hf; [constructor|done]|]. intros a' b' Hb. apply Hf. by constructor.
Qed.

Lemma modifier_groups_bits per keycodes bits g : g ∈ modifier_groups per keycodes bits → g.1 ∈ bits.
Proof.
  revert keycodes. induction bits as [|m bits IH]; intros keycodes; cbn; [by intros ?%elem_of_nil|].
  intros [->|Hg]%elem_of_cons; [constructor|]. constructor. by eapply IH.
Qed.

Lemma collect_masks_in_bits km keycodes per : sets_in_bits (collect_masks km keycodes per).
Proof.
  unfold collect_masks. apply foldl_invariant.
  - intros l Hl. cbn in Hl. rewrite !elem_of_cons, elem_of_nil in Hl. destruct_or!; subst; done || set_solver.
  - intros sets [mask group] Hg%modifier_groups_bits Hs. cbn in Hg. unfold note_group.
    apply foldl_invariant; [done|]. intros. by apply note_keysym_in_bits.
Qed.

Lemma unique_mask_in masks bits m : unique_mask masks = Ok (Some m) → masks ⊆ bits → m ∈ bits.
Proof.
  unfold unique_mask. case_match; [done|]. intros [= Hm] Hs. apply Hs.
  destruct masks; [done|]. injection Hm as ->. constructor.
Qed.

Lemma unique_required_mask_in masks bits m : unique_required_mask masks = Ok m → masks ⊆ bits → m ∈ bits.
Proof.
  unfold unique_required_mask. intros (o & Ho & H)%result_bind_Ok. destruct o as [x|]; [|done].
  injection H as ->. by apply unique_mask_in.
Qed.

Section plan.
Context (MOD_SHIFT MOD_CONTROL : Z).

(** Every mask a successful mapping hands out is one of the eight modifier
    bits, and the locks are set apart from the modifiers of accelerators. *)
Record mapping_ok (m : ModifierMapping) : Prop := {
  mo_shift : MOD_SHIFT ∈ MODIFIER_BITS;
  mo_control : MOD_CONTROL ∈ MODIFIER_BITS;
  mo_logo x : mm_logo m = Some x → x ∈ MODIFIER_BITS;
  mo_alt x : mm_alt m = Some x → x ∈ MODIFIER_BITS;
  mo_locks : mm_lock_masks m ⊆ MODIFIER_BITS;
  mo_ignored : mm_ignored_lock_mask m = foldl Z.lor 0 (mm_lock_masks m)
}.

Lemma from_keycodes_ok km keycodes m : from_keycodes MOD_SHIFT MOD_CONTROL km keycodes = Ok m → mapping_ok m.
Proof.
  unfold from_keycodes. case_match; [done|]. case_match; [done|].
  set (sets := collect_masks km keycodes _).
  assert (sets_in_bits sets) as Hs by apply collect_masks_in_bits. unfold sets_in_bits in Hs.
  setoid_rewrite elem_of_cons in Hs.
  intros (shift & Hshift & H1)%result_bind_Ok. case_match; [done|]. bools. subst shift.
  apply result_bind_Ok in H1 as (control & Hcontrol & H1). case_match; [done|]. bools. subst control.
  case_match; [done|]. apply result_bind_Ok in H1 as (logo & Hlogo & H1).
  apply result_bind_Ok in H1 as (alt & Halt & [= <-]). constructor; cbn; try done.
  - eapply unique_required_mask_in; [exact Hshift|]. apply Hs. rewrite ?elem_of_cons; tauto.
  - eapply unique_required_mask_in; [exact Hcontrol|]. apply Hs. rewrite ?elem_of_cons; tauto.
  - intros x ->. eapply unique_mask_in; [exact Hlogo|]. destruct (super_masks sets) eqn:E.
    + apply Hs. rewrite ?elem_of_cons; tauto.
    + rewrite <- E. apply Hs. rewrite ?elem_of_cons; tauto.
  - intros x ->. eapply unique_mask_in; [exact Halt|]. apply Hs. rewrite ?elem_of_cons; tauto.
  - apply Hs. rewrite ?elem_of_cons; tauto.
Qed.

Lemma foldl_lor_core masks : masks ⊆ MODIFIER_BITS → core_mask (foldl Z.lor 0 masks).
Proof.
  intros Hm. apply foldl_invariant; [done|]. intros a b Hb%Hm Ha.
  apply core_mask_lor; [done|by apply modifier_bits_single].
Qed.

Lemma mapping_ignored_core m : mapping_ok m → core_mask (mm_ignored_lock_mask m).
Proof. intros Hm. rewrite (mo_ignored m Hm). apply foldl_lor_core, Hm. Qed.

Lemma mapping_locks_single m : mapping_ok m → Forall single_bit (mm_lock_masks m).
Proof.
  intros Hm. apply Forall_forall. intros x Hx%(mo_locks m Hm). by apply modifier_bits_single.
Qed.

Lemma required_modifiers_ok m p r :
  mapping_ok m → required_modifiers MOD_SHIFT MOD_CONTROL m p = Ok r →
  core_mask r ∧ Z.land r (mm_ignored_lock_mask m) = 0.
Proof.
  intros Hm. unfold required_modifiers. intros (logo & Hlogo & H)%result_bind_Ok.
  apply result_bind_Ok in H as (r' & Halt & H). case_match eqn:E; [done|]. injection H as <-.
  bools. split; [|done].
  pose proof (λ x H, proj2 (modifier_bits_single x H)) as Hb.
  assert (core_mask logo) as Hl.
  { destruct (pa_logo p); [|by injection Hlogo as <-].
    apply result_bind_Ok in Hlogo as (x & Hx & Hl). destruct (_ && _) in Hl; [done|]. injection Hl as <-.
    destruct (mm_logo m) eqn:El; [|done]. injection Hx as ->. by apply Hb, (mo_logo m Hm). }
  assert (core_mask (if pa_control p then Z.lor logo MOD_CONTROL else logo)) as Hc.
  { destruct (pa_control p); [|done]. apply core_mask_lor; [done|]. by apply Hb, (mo_control m). }
  assert (core_mask r') as Ha.
  { destruct (pa_alt p); [|by injection Halt as <-]. apply result_bind_Ok in Halt as (x & Hx & [= <-]).
    destruct (mm_alt m) eqn:Ea; [|done]. injection Hx as ->. apply core_mask_lor; [done|].
    by apply Hb, (mo_alt m Hm). }
  destruct (pa_shift p); [|done]. apply core_mask_lor; [done|]. by apply Hb, (mo_shift m).
Qed.

(** The key and modifiers of a definition. *)
Definition chord_of (km : KeyboardMap) (m : ModifierMapping) (d : ShortcutDefinition) : sc_result (Z * Z) :=
  parsed ← parse_accelerator (sd_accelerator d);
  keycode ← ok_or (shortcut_error (lit "native X11 shortcut key is unavailable")) (keycode_for_ascii km (pa_key parsed));
  required ← required_modifiers MOD_SHIFT MOD_CONTROL m parsed;
  Ok (keycode, required).

Definition binding_chord (b : NativeBinding) : Z * Z := (nb_keycode b, nb_modifiers b).

(** What the plan's bindings are: one per definition, in order, each with the
    definition's id and chord, no chord twice. *)
Record bindings_ok (km : KeyboardMap) (m : ModifierMapping) (definitions : list ShortcutDefinition)
    (bindings : list NativeBinding) : Prop := {
  bo_each : Forall2 (λ d b, nb_id b = sd_id d ∧ chord_of km m d = Ok (binding_chord b)) definitions bindings;
  bo_distinct : NoDup (binding_chord <$> bindings)
}.

Lemma plan_loop_ok km m chords done_ bindings definitions out :
  (∀ c, c ∈ chords ↔ c ∈ binding_chord <$> bindings) → bindings_ok km m done_ bindings →
  plan_loop MOD_SHIFT MOD_CONTROL km m chords bindings definitions = Ok out →
  bindings_ok km m (done_ ++ definitions) out.
Proof.
  revert chords done_ bindings. induction definitions as [|d ds IH]; intros chords done_ bindings Hc Hb H.
  { injection H as <-. by rewrite app_nil_r. }
  cbn in H. apply result_bind_Ok in H as (p & Hp & H). apply result_bind_Ok in H as (k & Hk & H).
  apply result_bind_Ok in H as (r & Hr & H). case_bool_decide as Hn; [done|].
  rewrite cons_middle, app_assoc. eapply IH; [| |exact H].
  - intros c. rewrite fmap_app, elem_of_app, elem_of_union, elem_of_singleton, Hc. cbn.
    rewrite elem_of_cons, elem_of_nil. unfold binding_chord at 2. cbn. naive_solver.
  - destruct Hb as [He Hd]. split.
    + apply Forall2_app; [done|]. constructor; [|constructor]. split; [done|].
      unfold chord_of. rewrite Hp. cbn. rewrite Hk. cbn. by rewrite Hr.
    + rewrite fmap_app. apply NoDup_app. split_and!; [done| |apply NoDup_singleton].
      intros c Hc' ->%list_elem_of_singleton. apply Hn. by apply Hc.
Qed.

Lemma chord_of_ok km m d k r :
  mapping_ok m → chord_of km m d = Ok (k, r) → core_mask r ∧ Z.land r (mm_ignored_lock_mask m) = 0.
Proof.
  intros Hm. unfold chord_of. intros (p & _ & H)%result_bind_Ok. apply result_bind_Ok in H as (x & _ & H).
  apply result_bind_Ok in H as (y & Hy & [= _ <-]). by eapply required_modifiers_ok.
Qed.

Lemma bindings_chord_ok km m ds bs b :
  mapping_ok m → bindings_ok km m ds bs → b ∈ bs →
  core_mask (nb_modifiers b) ∧ Z.land (nb_modifiers b) (mm_ignored_lock_mask m) = 0.
Proof.
  intros Hm [He _] Hb. apply list_elem_of_lookup in Hb as [i Hi].
  destruct (Forall2_lookup_r _ _ _ _ _ He Hi) as (d & _ & _ & Hd). by eapply chord_of_ok.
Qed.

Lemma plan_bindings_inv definitions km keycodes plan :
  plan_bindings MOD_SHIFT MOD_CONTROL definitions km keycodes = Ok plan →
  ∃ m, from_keycodes MOD_SHIFT MOD_CONTROL km keycodes = Ok m ∧ mapping_ok m ∧
    bindings_ok km m definitions (bp_bindings plan) ∧ bp_ignored_lock_mask plan = mm_ignored_lock_mask m ∧
    ∀ k s, (k, s) ∈ bp_registrations plan ↔
      ∃ b locks, b ∈ bp_bindings plan ∧ 0 ≤ locks ∧ Z.ldiff locks (mm_ignored_lock_mask m) = 0 ∧
        k = nb_keycode b ∧ s = Z.lor (nb_modifiers b) locks.
Proof.
  unfold plan_bindings. intros (m & Em & H)%result_bind_Ok. apply result_bind_Ok in H as (bs & Hb & [= <-]).
  pose proof (from_keycodes_ok _ _ _ Em) as Hm. exists m. cbn. split_and!; try done.
  - refine (plan_loop_ok km m ∅ [] [] definitions bs _ _ Hb); [set_solver|]. repeat constructor.
  - intros k s. rewrite elem_of_bt_collect, list_elem_of_bind.
    setoid_rewrite list_elem_of_fmap. setoid_rewrite (elem_of_lock_variants _ _ (mapping_locks_single m Hm)).
    rewrite <- (mo_ignored m Hm). naive_solver.
Qed.
End plan.

(** C16 The grabs are exactly the shortcuts: for a plan that is accepted, a key
    press in any modifier state activates a definition's id exactly when the
    key and the modifiers other than the lock keys are that definition's
    chord - which no other definition has - and the key and modifier states
    grabbed from the server are exactly those that activate something. *)
Theorem x11_grabs_are_the_shortcuts MOD_SHIFT MOD_CONTROL definitions km keycodes plan keycode state
    (Hplan : plan_bindings MOD_SHIFT MOD_CONTROL definitions km keycodes = Ok plan) :
  (∃ m, from_keycodes MOD_SHIFT MOD_CONTROL km keycodes = Ok m ∧
     ∀ id, activated_shortcut (bp_bindings plan) keycode state (bp_ignored_lock_mask plan) = Some id ↔
       ∃ d, d ∈ definitions ∧ sd_id d = id ∧
         chord_of MOD_SHIFT MOD_CONTROL km m d =
           Ok (keycode, Z.ldiff (Z.land state CORE_MODIFIER_MASK) (mm_ignored_lock_mask m))) ∧
  ((keycode, Z.land state CORE_MODIFIER_MASK) ∈ bp_registrations plan ↔
   is_Some (activated_shortcut (bp_bindings plan) keycode state (bp_ignored_lock_mask plan))).
Proof.
  destruct (plan_bindings_inv _ _ _ _ _ _ Hplan) as (m & Em & Hm & Hb & -> & Hr).
  unfold activated_shortcut. set (mods := Z.ldiff _ _). split.
  - exists m. split; [done|]. fold mods. intros id. rewrite fmap_Some. destruct Hb as [He Hd]. split.
    + intros (b & [Hin Hk]%find_first_Some & ->). bools. apply list_elem_of_lookup in Hin as [i Hi].
      destruct (Forall2_lookup_r _ _ _ _ _ He Hi) as (d & Hdi & Hid & Hc). exists d.
      split; [by apply list_elem_of_lookup_2 in Hdi|]. split; [done|]. rewrite Hc. unfold binding_chord. congruence.
    + intros (d & Hin & <- & Hc). apply list_elem_of_lookup in Hin as [i Hi].
      destruct (Forall2_lookup_l _ _ _ _ _ He Hi) as (b & Hbi & Hid & Hc'). rewrite Hc in Hc'. injection Hc' as Hk Hs.
      destruct (find_first _ (bp_bindings plan)) as [b'|] eqn:E.
      * apply find_first_Some in E as [Hin Hk']. bools. exists b'. split; [done|]. rewrite <- Hid. f_equal.
        apply list_elem_of_lookup in Hin as [j Hj].
        assert (i = j) as ->; [|congruence]. eapply (NoDup_lookup _ _ _ (keycode, mods) Hd).
        -- rewrite list_lookup_fmap, Hbi. cbn. unfold binding_chord. by rewrite <- Hk, <- Hs.
        -- rewrite list_lookup_fmap, Hj. cbn. unfold binding_chord. congruence.
      * rewrite find_first_None in E. specialize (E b (list_elem_of_lookup_2 _ _ _ Hbi)). bools. naive_solver.
  - rewrite fmap_is_Some, Hr. split.
    + intros (b & locks & Hin & Hl & Hld & -> & Es).
      destruct (bindings_chord_ok _ _ _ _ _ _ _ Hm Hb Hin) as [Hc Hz].
      destruct (find_first _ (bp_bindings plan)) as [b'|] eqn:E; [by eexists|].
      rewrite find_first_None in E. specialize (E b Hin). apply andb_false_iff in E as [E|E]; [by rewrite Z.eqb_refl in E|].
      apply Z.eqb_neq in E. destruct E. symmetry.
      apply (chord_with_locks _ _ _ Hc (mapping_ignored_core _ _ _ Hm) Hz). by exists locks.
    + intros (b & [Hin Hk]%find_first_Some). bools.
      destruct (bindings_chord_ok _ _ _ _ _ _ _ Hm Hb Hin) as [Hc Hz].
      destruct (proj1 (chord_with_locks _ state _ Hc (mapping_ignored_core _ _ _ Hm) Hz) (eq_sym H0)) as (l & ? & ? & ?).
      by exists b, l.
Qed.

(** * All grabs or none *)

(** What the server promises of passive grabs: a granted grab is held until
    it is released, a refused one changes nothing. *)
Class GrabLaws (T : Type) `{GrabTarget T} (held : T → gset (Z * Z)) := {
  grab_granted t root r t' : grab t root r = (Ok tt, t') → held t' = held t ∪ {[r]};
  grab_refused t root r e t' : grab t root r = (Err e, t') → held t' = held t;
  ungrab_releases t root r : held (ungrab t root r) = held t ∖ {[r]};
  flush_keeps t : held (snd (flush t)) = held t
}.

Section grab_laws.
Context {T : Type} `{GrabTarget T} (held : T → gset (Z * Z)) `{!GrabLaws T held}.

Lemma held_ungrab_all t root installed :
  held (ungrab_all t root installed) = held t ∖ list_to_set installed.
Proof.
  unfold ungrab_all. assert (list_to_set installed =@{gset (Z * Z)} list_to_set (reverse installed)) as ->
    by (apply list_to_set_perm_L; symmetry; apply reverse_Permutation).
  revert t. induction (reverse installed) as [|r l IH]; intros t; cbn; [set_solver|].
  rewrite IH, ungrab_releases. set_solver.
Qed.

Lemma install_loop_held t root installed registrations before :
  list_to_set (installed ++ registrations) ## before → NoDup (installed ++ registrations) →
  held t = before ∪ list_to_set installed →
  match install_loop t root installed registrations with
  | (Ok _, t') => held t' = before ∪ list_to_set (installed ++ registrations)
  | (Err _, t') => held t' = before
  end.
Proof.
  revert t installed. induction registrations as [|r rs IH]; intros t installed Hd Hn Ht.
  - cbn. rewrite app_nil_r in *. pose proof (flush_keeps t) as Hf. destruct (flush t) as [[[]|e] t']; cbn in Hf.
    + by rewrite Hf.
    + rewrite flush_keeps, held_ungrab_all, Hf, Ht. set_solver.
  - cbn. destruct (grab t root r) as [[[]|e] t'] eqn:E.
    + apply grab_granted in E. specialize (IH t' (installed ++ [r])). rewrite <- app_assoc in IH.
      apply IH; [done|done|]. rewrite E, Ht, list_to_set_app_L. cbn. set_solver.
    + apply grab_refused in E. rewrite flush_keeps, held_ungrab_all, E, Ht.
      rewrite list_to_set_app_L in Hd. set_solver.
Qed.

(** Grabs are installed all or none: whatever grab or flush the server
    refuses, a failed installation holds exactly the grabs held before, and a
    successful one those and all the registrations. *)
Theorem install_grabs_atomic t root registrations
    (Hnew : list_to_set registrations ## held t) (Hdistinct : NoDup registrations) :
  match install_grabs t root registrations with
  | (Ok _, t') => held t' = held t ∪ list_to_set registrations
  | (Err _, t') => held t' = held t
  end.
Proof. apply (install_loop_held t root [] registrations (held t)); [done|done|]. set_solver. Qed.
End grab_laws.

(** * Auto-repeat *)

(** The presses a session acts on, as the protocol describes them: a release
    followed at once by a press of the same key at the same time is a repeat
    of a key held down; any other release lets the key go, and a press of a
    key that is down already is none.  A changed mapping or an error ends it. *)
Fixpoint first_presses (down : gset Z) (events : list XEvent) : list (result ShortcutError (Z * Z)) :=
  match events with
  | [] => []
  | XKeyPress k _ state :: events =>
      if bool_decide (k ∈ down) then first_presses down events
      else Ok (k, state) :: first_presses ({[k]} ∪ down) events
  | XKeyRelease k t :: events' =>
      if bool_decide (k ∈ down) then
        match events' with
        | XKeyPress k' t' _ :: events =>
            if bool_decide (k = k' ∧ t = t') then first_presses down events
            else first_presses (down ∖ {[k]}) events'
        | _ => first_presses (down ∖ {[k]}) events'
        end
      else first_presses down events'
  | XMappingNotify :: _ => [x11_error "native X11 keyboard mapping changed"]
  | XError :: _ => [x11_error "native X11 shortcut connection failed"]
  | XOther :: events => first_presses down events
  end.

(** What a session reports of a press. *)
Definition report_press (bindings : list NativeBinding) (ignored : Z) (press : result ShortcutError (Z * Z)) :
    option (sc_result ShortcutEvent) :=
  match press with
  | Ok (keycode, state) =>
      (λ id, Ok (EvActivated SESSION_HANDLE id)) <$> activated_shortcut bindings keycode state ignored
  | Err e => Some (Err e)
  end.

(** The presses still to come, given the keys held and the release that may
    turn out to be a repeat. *)
Definition presses_from (s : NativeKeyState) (events : list XEvent) : list (result ShortcutError (Z * Z)) :=
  match ks_pending_release s with
  | Some (k, t) => first_presses (ks_pressed s) (XKeyRelease k t :: events)
  | None => first_presses (ks_pressed s) events
  end.

Definition pending_held (s : NativeKeyState) : Prop :=
  ∀ k t, ks_pending_release s = Some (k, t) → k ∈ ks_pressed s.

(** The press that makes the pending release a repeat. *)
Definition is_repeat (s : NativeKeyState) (e : XEvent) : bool :=
  match e with XKeyPress k t _ => bool_decide (ks_pending_release s = Some (k, t)) | _ => false end.

(** Letting the pending release happen first makes no difference to any
    other event. *)
Lemma presses_release_pending s e events :
  pending_held s → is_repeat s e = false →
  presses_from s (e :: events) = presses_from (release_pending s) (e :: events).
Proof.
  unfold presses_from, release_pending, pending_held. destruct (ks_pending_release s) as [[k t]|] eqn:Ep; [|by rewrite Ep].
  intros Hp He. cbn [ks_pressed ks_pending_release]. cbn [first_presses].
  rewrite bool_decide_eq_true_2 by by eapply Hp.
  destruct e as [k' t' st| | | |]; try done. rewrite bool_decide_eq_false_2; [done|].
  intros [-> ->]. cbn in He. rewrite Ep in He. by rewrite bool_decide_eq_true_2 in He.
Qed.

Lemma release_pending_none s : ks_pending_release (release_pending s) = None.
Proof. unfold release_pending. by destruct (ks_pending_release s) as [[]|] eqn:E. Qed.

Lemma release_pending_idem s : release_pending (release_pending s) = release_pending s.
Proof. unfold release_pending at 1. by rewrite release_pending_none. Qed.

Lemma session_event_release_pending s e :
  is_repeat (xs_key_state s) e = false →
  session_event s e = session_event (s <| xs_key_state ::= release_pending |>) e.
Proof.
  destruct s as [bindings ignored ks]. destruct e as [k t st|k t| | |]; cbn; intros He.
  - unfold key_press. rewrite He, release_pending_idem, release_pending_none.
    by rewrite (bool_decide_eq_false_2 (None = _)).
  - unfold key_release. by rewrite release_pending_idem.
  - by rewrite release_pending_idem.
  - by rewrite release_pending_idem.
  - by rewrite release_pending_idem.
Qed.

#[local] Arguments activated_shortcut : simpl never.

Lemma session_run_presses s events :
  pending_held (xs_key_state s) →
  session_run s events =
    omap (report_press (xs_bindings s) (xs_ignored_lock_mask s)) (presses_from (xs_key_state s) events).
Proof.
  destruct s as [bindings ignored ks]. cbn. revert ks. induction events as [|e events IH]; intros ks Hp.
  { unfold presses_from. destruct (ks_pending_release ks) as [[k t]|]; [|done]. cbn. by case_bool_decide. }
  destruct (is_repeat ks e) eqn:Er.
  { destruct e as [k t st| | | |]; try done. cbn in Er. bools. unfold presses_from. rewrite Er. cbn [first_presses].
    rewrite bool_decide_eq_true_2 by by eapply Hp. rewrite bool_decide_eq_true_2 by done.
    cbn. unfold key_press. rewrite bool_decide_eq_true_2 by done. cbn. by rewrite IH by by intros ? ?. }
  cbn [session_run]. rewrite session_event_release_pending by done. rewrite presses_release_pending by done.
  cbn [xs_key_state]. cbn. clear Er Hp.
  destruct (release_pending ks) as [down p] eqn:Ek. pose proof (release_pending_none ks) as Hn.
  rewrite Ek in Hn. cbn in Hn. subst p. clear Ek ks. unfold presses_from. cbn [ks_pending_release ks_pressed].
  destruct e as [k t st|k t| | |]; cbn [session_event]; try done.
  - unfold key_press. cbn [xs_key_state ks_pending_release]. rewrite bool_decide_eq_false_2 by done.
    cbn. rewrite bool_decide_not. case_bool_decide as Hk; cbn.
    + rewrite IH by done. cbn. by replace ({[k]} ∪ down) with down by set_solver.
    + destruct (activated_shortcut _ _ _ _); cbn; by rewrite IH.
  - cbn. unfold key_release. cbn. case_bool_decide as Hk.
    + rewrite IH; [unfold presses_from; cbn; by rewrite bool_decide_eq_true_2|]. intros k' t'. cbn. by intros [= <- <-].
    + by rewrite IH.
  - cbn. by rewrite IH.
Qed.

(** Holding a shortcut's keys down activates it once: from its start a
    session reports exactly the first press of each key that is down, through
    the plan's bindings, in order, and never the repeats the server sends
    while it is held; a changed mapping or an error is reported and ends it. *)
Theorem session_reports_first_presses bindings ignored events :
  session_run (mkX11Session bindings ignored key_state_default) events =
    omap (report_press bindings ignored) (first_presses ∅ events).
Proof. by apply session_run_presses. Qed.

(** * The authority file, read back *)

Definition encode_u16 (n : Z) : list Z := [n / 256; n mod 256].
Definition encode_field (f : list Z) : list Z := encode_u16 (Z.of_nat (length f)) ++ f.
Definition encode_entry (e : XauthEntry) : list Z :=
  encode_u16 (xe_family e) ++ encode_field (xe_address e) ++ encode_field (xe_display e) ++
  encode_field (xe_name e) ++ encode_field (xe_data e).

Lemma read_u16_encoded n rest : read_xauthority_u16 (encode_u16 n ++ rest) = Ok (n, rest).
Proof. cbn. rewrite Z.mul_comm, <- Z_div_mod_eq_full. done. Qed.

Lemma read_field_encoded f rest : read_xauthority_field (encode_field f ++ rest) = Ok (f, rest).
Proof.
  unfold read_xauthority_field, encode_field. rewrite <- app_assoc, read_u16_encoded. cbn.
  rewrite Nat2Z.id, length_app, (proj2 (Nat.leb_le _ _)) by lia.
  by rewrite take_app_length, drop_app_length.
Qed.

Lemma read_entry_encoded e rest : read_xauthority_entry (encode_entry e ++ rest) = Ok (e, rest).
Proof.
  unfold read_xauthority_entry, encode_entry. rewrite <- !app_assoc, read_u16_encoded. cbn [mbind result_bind].
  do 4 (rewrite read_field_encoded; cbn [mbind result_bind]). by destruct e.
Qed.

Lemma read_xauthority_u16_shorter bytes n rest :
  read_xauthority_u16 bytes = Ok (n, rest) → (length rest < length bytes)%nat.
Proof. destruct bytes as [|a [|b bytes]]; cbn; try done. intros [= _ <-]. lia. Qed.

Lemma read_xauthority_field_shorter bytes f rest :
  read_xauthority_field bytes = Ok (f, rest) → (length rest < length bytes)%nat.
Proof.
  unfold read_xauthority_field. intros ([n b] & Hn%read_xauthority_u16_shorter & H)%result_bind_Ok.
  case_match; [|done]. injection H as _ <-. rewrite length_drop. lia.
Qed.

Lemma read_xauthority_entry_shorter bytes e rest :
  read_xauthority_entry bytes = Ok (e, rest) → (length rest < length bytes)%nat.
Proof.
  unfold read_xauthority_entry. intros ([n b] & Hn%read_xauthority_u16_shorter & H)%result_bind_Ok.
  do 4 (apply result_bind_Ok in H as ([? ?] & ?%read_xauthority_field_shorter & H)).
  injection H as _ <-. lia.
Qed.

(** The length of the file is fuel enough for any file. *)
Lemma parse_xauthority_fuel W fuel bytes family address display :
  (length bytes ≤ fuel)%nat →
  parse_xauthority_loop W fuel bytes family address display =
  parse_xauthority_loop W (length bytes) bytes family address display.
Proof.
  remember (length bytes) as n eqn:E. revert fuel bytes E. induction n as [n IH] using lt_wf_ind.
  intros fuel bytes E Hf. destruct bytes as [|b bytes]; [by destruct fuel, n|].
  destruct fuel as [|fuel]; [cbn in E; lia|]. destruct n as [|n]; [done|]. cbn [parse_xauthority_loop].
  destruct (read_xauthority_entry (b :: bytes)) as [[e rest]|] eqn:Er; cbn; [|done].
  apply read_xauthority_entry_shorter in Er. rewrite <- E in Er. case_match; [done|].
  rewrite (IH (length rest) ltac:(lia) fuel rest) by lia. symmetry. apply (IH (length rest)); lia.
Qed.

(** The X cookie is found: from a file of any entries, the first one for
    this display whose family and address match, or are wild, gives its name
    and cookie, and a file without one gives none. *)
Theorem parse_xauthority_encoded W entries family address display :
  parse_xauthority W (entries ≫= encode_entry) family address display =
    Ok (match find_first (xauth_entry_matches W family address (show_Z display)) entries with
        | Some e => (xe_name e, xe_data e)
        | None => ([], [])
        end).
Proof.
  unfold parse_xauthority. induction entries as [|e entries IH]; [done|].
  change ((e :: entries) ≫= encode_entry) with (encode_entry e ++ (entries ≫= encode_entry)).
  remember (encode_entry e ++ (entries ≫= encode_entry)) as bytes eqn:E.
  destruct bytes as [|b bytes]; [done|]. cbn [length parse_xauthority_loop].
  rewrite E, read_entry_encoded. cbn [mbind result_bind find_first].
  destruct (xauth_entry_matches W family address (show_Z display) e); [done|]. rewrite <- IH.
  apply parse_xauthority_fuel. apply (f_equal length) in E. cbn in E. rewrite length_app in E. cbn in E. lia.
Qed.

(** * Witnesses *)

Definition example_symbols : list (Z * Z) :=
  [(24, 111); (37, XK_CONTROL_L); (50, XK_SHIFT_L); (64, XK_ALT_L); (66, XK_CAPS_LOCK); (77, XK_NUM_LOCK);
   (78, XK_SCROLL_LOCK); (133, XK_SUPER_L)].
Definition example_keymap : KeyboardMap :=
  mkKeyboardMap 8 126 1
    ((λ k, default 0 (snd <$> find_first (λ p, fst p =? k) example_symbols)) <$> seqZ 8 126).
Definition example_modifiers : list Z := [50; 66; 37; 64; 77; 78; 133; 0].
Definition example_definition : ShortcutDefinition :=
  mkShortcutDefinition (lit "test") (lit "Test") (lit "Meta+Ctrl+Alt+Shift+O") ActToggleOverlay.
Definition example_bindings : list NativeBinding := [mkNativeBinding (lit "test") 24 77].

Lemma x11_grabs_are_the_shortcuts_witness :
  (24, Z.land (77 + 2 + 256) CORE_MODIFIER_MASK) ∈
    bt_collect (example_bindings ≫= λ b, (λ locks, (nb_keycode b, Z.lor (nb_modifiers b) locks)) <$>
                                         lock_variants [2; 16; 32]) ↔
  is_Some (activated_shortcut example_bindings 24 (77 + 2 + 256) 50).
Proof.
  refine (proj2 (x11_grabs_are_the_shortcuts 1 4 [example_definition] example_keymap example_modifiers
    (mkBindingPlan example_bindings
       (bt_collect (example_bindings ≫= λ b, (λ locks, (nb_keycode b, Z.lor (nb_modifiers b) locks)) <$>
                                             lock_variants [2; 16; 32])) 50) 24 (77 + 2 + 256) _)).
  vm_compute. reflexivity.
Defined.

(** A server where another client holds some chords. *)
Record ExampleServer := mkExampleServer { es_taken : list (Z * Z); es_held : gset (Z * Z) }.
#[export] Instance example_server_target : GrabTarget ExampleServer := {
  grab t root r :=
    if bool_decide (r ∈ es_taken t) then (x11_error "native X11 shortcut is already in use", t)
    else (Ok tt, mkExampleServer (es_taken t) (es_held t ∪ {[r]}));
  ungrab t root r := mkExampleServer (es_taken t) (es_held t ∖ {[r]});
  flush t := (Ok tt, t)
}.
#[export] Instance example_server_laws : GrabLaws ExampleServer es_held.
Proof.
  split; [intros * H|intros * H|done|done]; cbn in H; case_bool_decide; try done.
  - by injection H as <-.
  - by injection H as _ <-.
Qed.

Lemma install_grabs_atomic_witness :
  es_held (snd (install_grabs (mkExampleServer [(24, 3)] ∅) 1 [(24, 1); (24, 2); (24, 3)])) = ∅.
Proof.
  pose proof (install_grabs_atomic es_held (mkExampleServer [(24, 3)] ∅) 1 [(24, 1); (24, 2); (24, 3)]
    (disjoint_empty_r _) ltac:(apply (bool_decide_eq_true_1 _); reflexivity)) as H.
  exact H.
Defined.
