(* ===== verification/Watch.v ===== *)
(** [tokio::sync::watch] channels: the published value and the number of
    times it was sent.  A receiver has seen some number of sends;
    [changed] completes when there are more, and marks them seen. *)

From S2P Require Import Prelude.

Record watch (T : Type) := mkWatch { w_value : T; w_version : nat }.
Arguments mkWatch {T} w_value w_version.
Arguments w_value {T} w.
Arguments w_version {T} w.

Definition watch_channel {T} (v : T) : watch T := mkWatch v 0.

(** [send_replace]. *)
Definition send_replace {T} (w : watch T) (v : T) : watch T := mkWatch v (S (w_version w)).

(** [send_if_modified]: [modify] gives the new value, or [None] where the
    closure returns [false] and leaves the value alone. *)
Definition send_if_modified {T} (w : watch T) (modify : T → option T) : watch T :=
  match modify (w_value w) with Some v => send_replace w v | None => w end.

Definition has_changed {T} (seen : nat) (w : watch T) : bool := (seen <? w_version w)%nat.

Lemma send_if_modified_version {T} (w : watch T) modify :
  (w_version w ≤ w_version (send_if_modified w modify))%nat.
Proof. unfold send_if_modified. case_match; cbn; lia. Qed.
