(* ===== verification/Runtime.v ===== *)
(** Core's runtime ([crates/overcrow-core/src/runtime.rs] and
    [window.rs]): the game on screen, the process behind it, and the
    snapshots published to the overlay.

    Each asynchronous method takes the mutation lock for its whole body, so a
    call is one step of the state.  [Instant::now()] is an argument. *)

From S2P Require Import Prelude Text Timing Float Protocol Settings Widgets Stopwatch Process Portal Watch.

Definition BRIDGE_LEASE_TIMEOUT : duration := from_secs 5.
Definition OVERLAY_APP_ID : str := lit "io.github.overcrow.Overlay".

(** * Data *)

Inductive RuntimeSettingsError := SettingsDisabled | SettingsInvalid (e : SettingsError).

Record WindowObservation := mkWindowObservation {
  wo_pid : option Z;
  wo_app_id : option str;
  wo_title : str;
  wo_rect : Rect;
  wo_scale : f64;
  wo_backend : str
}.

Definition into_game (o : WindowObservation) (c : ProcessClassification) : GameWindow :=
  mkGameWindow (wo_pid o) (pc_steam_app_id c) (wo_app_id o) (wo_title o) (wo_rect o) (wo_scale o)
    (wo_backend o).

Record TemperatureSnapshot := mkTemperatureSnapshot {
  ts_cpu_millicelsius : option Z;
  ts_gpu_millicelsius : option Z
}.

Definition temperature_snapshot_default := mkTemperatureSnapshot None None.

Record ProcessInstance := mkProcessInstance { pins_pid : Z; pins_start_ticks : Z }.

#[export] Instance ProcessInstance_eq_dec : EqDecision ProcessInstance.
Proof. solve_decision. Defined.

Record AllowedProcess := mkAllowedProcess {
  ap_identity : ProcessIdentity;
  ap_instance : ProcessInstance;
  ap_timing : option ProcessTiming
}.

Record RuntimeMetadata := mkRuntimeMetadata {
  md_bridge_last_report : option instant;
  md_active_identity : option ProcessIdentity;
  md_active_process : option ProcessInstance;
  md_active_timing : option ProcessTiming;
  md_timing_floor : option ProcessTiming;
  md_telemetry : option GameTelemetry;
  md_telemetry_sampler : telemetry_sampler;
  md_manual_stopwatch : ManualStopwatch
}.

#[export] Instance RuntimeMetadata_eta : Eta RuntimeMetadata := λ m,
  mkRuntimeMetadata (md_bridge_last_report m) (md_active_identity m) (md_active_process m)
    (md_active_timing m) (md_timing_floor m) (md_telemetry m) (md_telemetry_sampler m)
    (md_manual_stopwatch m).

Record CoreRuntime := mkCoreRuntime {
  rt_state : CoreSnapshot;
  rt_processes : processes;
  rt_settings : LifecycleSettings;
  rt_widget_profile : WidgetProfile;
  rt_snapshots : watch VersionedCoreSnapshot;
  rt_selected_running : watch bool;
  rt_shortcut_settings : watch ShortcutSettings;
  rt_widget_profiles : watch WidgetProfile;
  rt_shortcut_availability : watch ShortcutAvailability;
  rt_metadata : RuntimeMetadata
}.

#[export] Instance CoreRuntime_eta : Eta CoreRuntime := λ r,
  mkCoreRuntime (rt_state r) (rt_processes r) (rt_settings r) (rt_widget_profile r)
    (rt_snapshots r) (rt_selected_running r) (rt_shortcut_settings r) (rt_widget_profiles r)
    (rt_shortcut_availability r) (rt_metadata r).

(** * Helpers *)

Definition validate_enabled_settings (settings : LifecycleSettings) :
    result RuntimeSettingsError LifecycleSettings :=
  match validate_settings settings with
  | Err e => Err (SettingsInvalid e)
  | Ok settings => if negb (ls_enabled settings) then Err SettingsDisabled else Ok settings
  end.

Definition observation_has_valid_geometry (o : WindowObservation) : bool :=
  is_finite (wo_scale o) && f_gt (wo_scale o) f_zero
  && (0 <? rect_width (wo_rect o)) && (0 <? rect_height (wo_rect o)).

Definition classification_from_identity (i : ProcessIdentity) : ProcessClassification :=
  mkProcessClassification (pi_steam_app_id i) (pi_game_candidate i).

Definition snapshot_has_selected_process (al : GameAllowlist) (procs : processes) : bool :=
  any_selected_process al ((map_to_list procs).*1) (λ pid, classify_process_identity pid procs).

Definition matching_process_identity (game : GameWindow) (procs : processes) (al : GameAllowlist) :
    option ProcessIdentity :=
  pid ← gw_pid game;
  let i := classify_process_identity pid procs in
  then_some (allows_identity al i && bool_decide (gw_steam_app_id game = pi_steam_app_id i)) i.

Definition active_game_process (game : GameWindow) (procs : processes) :
    option (ProcessInstance * option ProcessTiming) :=
  pid ← gw_pid game;
  process ← procs !! pid;
  Some (mkProcessInstance pid (pin_start_ticks process), pin_timing process).

Definition reset_stopwatch_for_changed_process (m : RuntimeMetadata) (current : ProcessInstance) :
    RuntimeMetadata :=
  if bool_decide (md_active_process m ≠ Some current)
  then m <| md_manual_stopwatch ::= stopwatch_reset |> else m.

Definition reset_telemetry_for_changed_group (m : RuntimeMetadata) (allowed : AllowedProcess) :
    RuntimeMetadata :=
  let current_steam_app_id := md_active_identity m ≫= pi_steam_app_id in
  if bool_decide (md_active_process m ≠ Some (ap_instance allowed))
     || bool_decide (current_steam_app_id ≠ pi_steam_app_id (ap_identity allowed))
  then m <| md_telemetry := None |> <| md_telemetry_sampler ::= sampler_reset |> else m.

Definition reconcile_process_timing (previous_instance : option ProcessInstance)
    (previous_floor : option ProcessTiming) (current_instance : ProcessInstance)
    (current_timing : option ProcessTiming) (observed_at : instant) :
    option ProcessTiming * option ProcessTiming :=
  if bool_decide (previous_instance ≠ Some current_instance) then (current_timing, current_timing)
  else match current_timing with
       | None => (None, previous_floor)
       | Some current =>
           let current :=
             match previous_floor with
             | Some previous =>
                 let floor := elapsed_at previous observed_at in
                 if elapsed_at current observed_at <? floor
                 then mkProcessTiming floor observed_at else current
             | None => current
             end in
           (Some current, Some current)
       end.

(** Assign both timings of the metadata. *)
Definition set_timing (m : RuntimeMetadata) (t : option ProcessTiming * option ProcessTiming) :
    RuntimeMetadata :=
  m <| md_active_timing := fst t |> <| md_timing_floor := snd t |>.

Definition refresh_active_process (m : RuntimeMetadata) (game : option GameWindow)
    (procs : processes) (observed_at : instant) : RuntimeMetadata :=
  match game ≫= λ game, active_game_process game procs with
  | None =>
      m <| md_active_process := None |> <| md_active_timing := None |>
        <| md_timing_floor := None |> <| md_manual_stopwatch ::= stopwatch_reset |>
  | Some (current, timing) =>
      let m := reset_stopwatch_for_changed_process m current in
      let m := set_timing m (reconcile_process_timing (md_active_process m) (md_timing_floor m)
                               current timing observed_at) in
      m <| md_active_process := Some current |>
  end.

(** [tps] is [procfs::ticks_per_second()]. *)
Definition refresh_telemetry (m : RuntimeMetadata) (game : option GameWindow) (procs : processes)
    (temperatures : TemperatureSnapshot) (tps : Z) (observed_at : instant) : RuntimeMetadata :=
  match game with
  | None => m <| md_telemetry := None |> <| md_telemetry_sampler ::= sampler_reset |>
  | Some game =>
      let '(sampler, telemetry) :=
        match pid ← gw_pid game; collect_process_sample pid (gw_steam_app_id game) procs observed_at with
        | Some sample => sampler_observe (md_telemetry_sampler m) sample tps
        | None => (sampler_reset (md_telemetry_sampler m), game_telemetry_default)
        end in
      m <| md_telemetry_sampler := sampler |>
        <| md_telemetry := Some (mkGameTelemetry (gt_cpu_percent_hundredths telemetry)
             (gt_resident_bytes telemetry) (ts_cpu_millicelsius temperatures)
             (ts_gpu_millicelsius temperatures)) |>
  end.

Definition snapshot_with_runtime (s : CoreSnapshot) (timing : option ProcessTiming)
    (telemetry : option GameTelemetry) (stopwatch : ManualStopwatchSnapshot) (now : instant) :
    CoreSnapshot :=
  s <| cs_session_elapsed_ms :=
         (_ ← cs_active_game s; (λ t, millis_u64 (elapsed_at t now)) <$> timing) |>
    <| cs_telemetry := (_ ← cs_active_game s; telemetry) |>
    <| cs_manual_stopwatch := stopwatch |>.

Definition active_game_is_current (game : GameWindow) (accepted_identity : option ProcessIdentity)
    (accepted_process : option ProcessInstance) (procs : processes) (al : GameAllowlist) : bool :=
  is_some_and (λ i, is_some_and (process_identity_eqb i) accepted_identity)
    (matching_process_identity game procs al)
  && is_some_and (λ p, bool_decide (Some p = accepted_process))
       (fst <$> active_game_process game procs).

Definition snapshot_state_changed (current next : CoreSnapshot) : bool :=
  negb (active_game_eqb (cs_active_game current) (cs_active_game next))
  || bool_decide (cs_overlay_mode current ≠ cs_overlay_mode next)
  || bool_decide (cs_telemetry current ≠ cs_telemetry next)
  || negb (Bool.eqb (mss_running (cs_manual_stopwatch current)) (mss_running (cs_manual_stopwatch next)))
  || (negb (mss_running (cs_manual_stopwatch next))
      && negb (mss_elapsed_ms (cs_manual_stopwatch current) =? mss_elapsed_ms (cs_manual_stopwatch next))).

(** * Publishing *)

Definition publish_snapshot (r : CoreRuntime) (snapshot : CoreSnapshot) : CoreRuntime :=
  r <| rt_snapshots ::= λ w, send_if_modified w (λ published,
         if negb (snapshot_state_changed (vcs_snapshot published) snapshot) then None
         else Some (mkVersionedCoreSnapshot (saturating_add u64_max (vcs_revision published) 1)
                      snapshot)) |>.

Definition publish_selected_running (r : CoreRuntime) (selected_running : bool) : CoreRuntime :=
  if negb (Bool.eqb (w_value (rt_selected_running r)) selected_running)
  then r <| rt_selected_running ::= λ w, send_replace w selected_running |> else r.

Definition publish_shortcut_settings (r : CoreRuntime) (settings : ShortcutSettings) : CoreRuntime :=
  r <| rt_shortcut_settings ::= λ w, send_if_modified w (λ published,
         if bool_decide (published = settings) then None else Some settings) |>.

Definition publish_widget_profile (r : CoreRuntime) (profile : WidgetProfile) : CoreRuntime :=
  r <| rt_widget_profiles ::= λ w, send_if_modified w (λ published,
         if widget_profile_eqb published profile then None else Some profile) |>.

Definition publish_shortcut_availability (r : CoreRuntime) (a : ShortcutAvailability) : CoreRuntime :=
  r <| rt_shortcut_availability ::= λ w, send_if_modified w (λ published,
         if bool_decide (published = a) then None else Some a) |>.

Definition shortcut_availability_diagnostic (r : CoreRuntime) : str :=
  availability_diagnostic (w_value (rt_shortcut_availability r)).

(** * Operations *)

Definition snapshot_at (r : CoreRuntime) (now : instant) : CoreSnapshot :=
  snapshot_with_runtime (rt_state r) (md_active_timing (rt_metadata r)) (md_telemetry (rt_metadata r))
    (stopwatch_snapshot_at (md_manual_stopwatch (rt_metadata r)) now) now.

(** The end of most operations: publish the snapshot, and return it. *)
Definition publish_at (r : CoreRuntime) (now : instant) : CoreRuntime * CoreSnapshot :=
  let snapshot := snapshot_at r now in (publish_snapshot r snapshot, snapshot).

(** The metadata without a game: the eight assignments of every clearing
    branch. *)
Definition cleared_metadata (m : RuntimeMetadata) : RuntimeMetadata :=
  m <| md_bridge_last_report := None |> <| md_active_identity := None |>
    <| md_active_process := None |> <| md_active_timing := None |> <| md_timing_floor := None |>
    <| md_telemetry := None |> <| md_telemetry_sampler ::= sampler_reset |>
    <| md_manual_stopwatch ::= stopwatch_reset |>.

Definition clear_state (r : CoreRuntime) : CoreRuntime :=
  r <| rt_state ::= clear_game |> <| rt_metadata ::= cleared_metadata |>.

Definition clear_game_locked (r : CoreRuntime) : CoreRuntime * CoreSnapshot :=
  let r := clear_state r in
  (publish_snapshot r (rt_state r), rt_state r).

Definition with_settings_and_widget_profile (state : CoreSnapshot) (procs : processes)
    (settings : LifecycleSettings) (profile : WidgetProfile) (now : instant) : CoreRuntime :=
  let settings := ok_or_default lifecycle_settings_default (validate_enabled_settings settings) in
  let profile := ok_or_default widget_profile_default (validate_widget_profile profile) in
  let al := from_settings settings in
  let selected_running := snapshot_has_selected_process al procs in
  let active_identity :=
    game ← cs_active_game state; matching_process_identity game procs al in
  let active_process_timing :=
    _ ← active_identity; game ← cs_active_game state; active_game_process game procs in
  let active_process := fst <$> active_process_timing in
  let active_timing := active_process_timing ≫= snd in
  let state := if isNone active_identity then clear_game state else state in
  let initial_snapshot :=
    snapshot_with_runtime state active_timing None manual_stopwatch_snapshot_default now in
  mkCoreRuntime state procs settings profile
    (watch_channel (mkVersionedCoreSnapshot 0 initial_snapshot))
    (watch_channel selected_running) (watch_channel (ls_shortcut settings))
    (watch_channel profile) (watch_channel AvailDisabled)
    (mkRuntimeMetadata None active_identity active_process active_timing active_timing None None
       stopwatch_default).

Definition core_runtime_new (state : CoreSnapshot) (procs : processes) (now : instant) : CoreRuntime :=
  with_settings_and_widget_profile state procs lifecycle_settings_default widget_profile_default now.

Definition stopwatch_allowed (r : CoreRuntime) : bool :=
  ws_enabled (wpr_manual_stopwatch (rt_widget_profile r)) && isSome (cs_active_game (rt_state r)).

Definition toggle_manual_stopwatch_at (r : CoreRuntime) (now : instant) : CoreRuntime * CoreSnapshot :=
  let r :=
    if stopwatch_allowed r
    then r <| rt_metadata ::= λ m, m <| md_manual_stopwatch ::= λ w, stopwatch_toggle w now |> |>
    else r in
  publish_at r now.

Definition reset_manual_stopwatch_at (r : CoreRuntime) (now : instant) : CoreRuntime * CoreSnapshot :=
  let r :=
    if stopwatch_allowed r
    then r <| rt_metadata ::= λ m, m <| md_manual_stopwatch ::= stopwatch_reset |> |>
    else r in
  publish_at r now.

Definition runtime_toggle_overlay (r : CoreRuntime) (now : instant) : CoreRuntime * CoreSnapshot :=
  publish_at (r <| rt_state ::= toggle_overlay |>) now.

Definition runtime_set_overlay_interactive (r : CoreRuntime) (interactive : bool) (now : instant) :
    CoreRuntime * CoreSnapshot :=
  publish_at (r <| rt_state ::= λ s, set_overlay_interactive s interactive |>) now.

Definition allowed_process (r : CoreRuntime) (observation : WindowObservation) : option AllowedProcess :=
  pid ← wo_pid observation;
  let al := from_settings (rt_settings r) in
  process ← rt_processes r !! pid;
  let i := classify_process_identity pid (rt_processes r) in
  then_some (allows_identity al i)
    (mkAllowedProcess i (mkProcessInstance pid (pin_start_ticks process)) (pin_timing process)).

(** The body shared by the two observation methods once the geometry is
    valid; [last_report] is what [bridge_last_report] becomes for a game. *)
Definition observe_allowed (r : CoreRuntime) (observation : WindowObservation)
    (last_report : option instant) (observed_at : instant) : CoreRuntime * CoreSnapshot :=
  let r :=
    match allowed_process r observation with
    | Some allowed =>
        let m := rt_metadata r in
        let m := reset_telemetry_for_changed_group m allowed in
        let m := reset_stopwatch_for_changed_process m (ap_instance allowed) in
        let m := set_timing m (reconcile_process_timing (md_active_process m) (md_timing_floor m)
                                 (ap_instance allowed) (ap_timing allowed) observed_at) in
        let m := m <| md_bridge_last_report := last_report |>
                   <| md_active_identity := Some (ap_identity allowed) |>
                   <| md_active_process := Some (ap_instance allowed) |> in
        r <| rt_state ::= λ s, observe_game s
               (into_game observation (classification_from_identity (ap_identity allowed))) |>
          <| rt_metadata := m |>
    | None => clear_state r
    end in
  publish_at r observed_at.

Definition apply_bridge_observation_at (r : CoreRuntime) (observation : WindowObservation)
    (reported_at : instant) : CoreRuntime * CoreSnapshot :=
  if negb (observation_has_valid_geometry observation) then clear_game_locked r
  else observe_allowed r observation (Some reported_at) reported_at.

Definition apply_x11_observation (r : CoreRuntime) (observation : option WindowObservation)
    (now : instant) : CoreRuntime * CoreSnapshot :=
  match observation with
  | None => clear_game_locked r
  | Some observation =>
      if bool_decide (wo_app_id observation = Some OVERLAY_APP_ID) then (r, snapshot_at r now)
      else if negb (observation_has_valid_geometry observation) then clear_game_locked r
      else observe_allowed r observation None now
  end.

Definition expire_bridge_lease_at (r : CoreRuntime) (now : instant) : CoreRuntime * bool :=
  match md_bridge_last_report (rt_metadata r) with
  | None => (r, false)
  | Some reported_at =>
      if default 0 (checked_duration_since now reported_at) <? BRIDGE_LEASE_TIMEOUT then (r, false)
      else (fst (clear_game_locked r), true)
  end.

(** The game on screen is still the accepted process. *)
Definition active_game_valid (r : CoreRuntime) (al : GameAllowlist) : bool :=
  is_none_or (λ game, active_game_is_current game (md_active_identity (rt_metadata r))
                        (md_active_process (rt_metadata r)) (rt_processes r) al)
    (cs_active_game (rt_state r)).

Definition install_refresh_snapshot_at (r : CoreRuntime) (new_processes : processes)
    (temperatures : TemperatureSnapshot) (tps : Z) (observed_at : instant) : CoreRuntime :=
  let r := r <| rt_processes := new_processes |> in
  let al := from_settings (rt_settings r) in
  let r := publish_selected_running r (snapshot_has_selected_process al (rt_processes r)) in
  let r :=
    if negb (active_game_valid r al) then clear_state r
    else
      r <| rt_metadata ::= λ m,
             refresh_telemetry
               (refresh_active_process m (cs_active_game (rt_state r)) (rt_processes r) observed_at)
               (cs_active_game (rt_state r)) (rt_processes r) temperatures tps observed_at |> in
  fst (publish_at r observed_at).

Definition install_process_snapshot_at (r : CoreRuntime) (new_processes : processes) (tps : Z)
    (observed_at : instant) : CoreRuntime :=
  install_refresh_snapshot_at r new_processes temperature_snapshot_default tps observed_at.

(** [observed_at] and [now] are two successive readings of the clock. *)
Definition reload_settings (r : CoreRuntime) (settings : LifecycleSettings)
    (observed_at now : instant) : CoreRuntime * result RuntimeSettingsError CoreSnapshot :=
  match validate_enabled_settings settings with
  | Err e => (r, Err e)
  | Ok settings =>
      let al := from_settings settings in
      let r := r <| rt_settings := settings |> in
      let r := publish_shortcut_settings r (ls_shortcut settings) in
      let r := publish_selected_running r (snapshot_has_selected_process al (rt_processes r)) in
      let r :=
        if negb (active_game_valid r al) then clear_state r
        else r <| rt_metadata ::= λ m,
                    refresh_active_process m (cs_active_game (rt_state r)) (rt_processes r) observed_at |> in
      let '(r, snapshot) := publish_at r now in (r, Ok snapshot)
  end.

Definition reload_widget_profile (r : CoreRuntime) (profile : WidgetProfile) (now : instant) :
    CoreRuntime * result WidgetProfileError CoreSnapshot :=
  match validate_widget_profile profile with
  | Err e => (r, Err e)
  | Ok profile =>
      let r := r <| rt_widget_profile := profile |> in
      let r := publish_widget_profile r profile in
      let '(r, snapshot) := publish_at r now in (r, Ok snapshot)
  end.

(** A call of a method that can change the runtime. *)
Inductive runtime_call :=
| RToggleStopwatch (now : instant)
| RResetStopwatch (now : instant)
| RToggleOverlay (now : instant)
| RSetInteractive (interactive : bool) (now : instant)
| RBridge (observation : WindowObservation) (reported_at : instant)
| RX11 (observation : option WindowObservation) (now : instant)
| RClear
| RExpireLease (now : instant)
| RRefresh (procs : processes) (temperatures : TemperatureSnapshot) (tps : Z) (observed_at : instant)
| RReloadSettings (settings : LifecycleSettings) (observed_at now : instant)
| RReloadProfile (profile : WidgetProfile) (now : instant)
| RAvailability (availability : ShortcutAvailability).

Definition runtime_step (r : CoreRuntime) (c : runtime_call) : CoreRuntime :=
  match c with
  | RToggleStopwatch now => fst (toggle_manual_stopwatch_at r now)
  | RResetStopwatch now => fst (reset_manual_stopwatch_at r now)
  | RToggleOverlay now => fst (runtime_toggle_overlay r now)
  | RSetInteractive i now => fst (runtime_set_overlay_interactive r i now)
  | RBridge o t => fst (apply_bridge_observation_at r o t)
  | RX11 o now => fst (apply_x11_observation r o now)
  | RClear => fst (clear_game_locked r)
  | RExpireLease now => fst (expire_bridge_lease_at r now)
  | RRefresh p t tps now => install_refresh_snapshot_at r p t tps now
  | RReloadSettings s t now => fst (reload_settings r s t now)
  | RReloadProfile p now => fst (reload_widget_profile r p now)
  | RAvailability a => publish_shortcut_availability r a
  end.

(** The state Core starts from: [CoreState::default()], or any snapshot with
    the same fields but a game with a proper scale. *)
Definition fresh_state (s : CoreSnapshot) : Prop :=
  interactive_needs_game s ∧ cs_telemetry s = None ∧
  cs_manual_stopwatch s = manual_stopwatch_snapshot_default ∧
  (∀ g, cs_active_game s = Some g → is_finite (gw_scale g) = true).

(** The runtimes Core can be in: built at startup, then any calls. *)
Inductive runtime_reachable : CoreRuntime → Prop :=
| reach_new state procs settings profile now :
    fresh_state state →
    runtime_reachable (with_settings_and_widget_profile state procs settings profile now)
| reach_step r c : runtime_reachable r → runtime_reachable (runtime_step r c).

(** * The game on screen is authorized and running *)

Definition no_game_metadata : RuntimeMetadata :=
  mkRuntimeMetadata None None None None None None None stopwatch_default.

Definition game_current (r : CoreRuntime) (game : GameWindow) : Prop :=
  ∃ pid process i,
    gw_pid game = Some pid ∧ rt_processes r !! pid = Some process ∧
    let current := classify_process_identity pid (rt_processes r) in
    authorized (rt_settings r) current ∧ gw_steam_app_id game = pi_steam_app_id current ∧
    md_active_identity (rt_metadata r) = Some i ∧ process_identity_eqb current i = true ∧
    md_active_process (rt_metadata r) = Some (mkProcessInstance pid (pin_start_ticks process)).

Definition timing_is_floor (m : RuntimeMetadata) : Prop :=
  ∀ t, md_active_timing m = Some t → md_timing_floor m = Some t.

Definition game_inv (r : CoreRuntime) : Prop :=
  (∀ game, cs_active_game (rt_state r) = Some game → game_current r game) ∧
  (cs_active_game (rt_state r) = None →
     rt_metadata r = no_game_metadata ∧ cs_overlay_mode (rt_state r) = Passive).

Lemma process_identity_eqb_refl i : process_identity_eqb i i = true.
Proof. unfold process_identity_eqb, paths_eqb. by rewrite !bool_decide_eq_true_2. Qed.

Lemma identity_of_nil : identity_of [] = process_identity_default.
Proof. done. Qed.

Lemma allows_present al pid procs :
  allows_identity al (classify_process_identity pid procs) = true → is_Some (procs !! pid).
Proof.
  destruct (procs !! pid) as [p|] eqn:E; [by eauto|].
  assert (classify_process_identity pid procs = process_identity_default) as ->.
  { unfold classify_process_identity, MAX_ANCESTORS. cbn [classify_ancestors].
    rewrite bool_decide_eq_false_2 by set_solver. by rewrite E. }
  done.
Qed.

Lemma matching_process_identity_Some game procs al i :
  matching_process_identity game procs al = Some i →
  ∃ pid process, gw_pid game = Some pid ∧ procs !! pid = Some process ∧
    i = classify_process_identity pid procs ∧ allows_identity al i = true ∧
    gw_steam_app_id game = pi_steam_app_id i ∧
    active_game_process game procs =
      Some (mkProcessInstance pid (pin_start_ticks process), pin_timing process).
Proof.
  unfold matching_process_identity, active_game_process. destruct (gw_pid game) as [pid|]; [|done].
  cbn [mbind option_bind]. intros [[Ha Hs%bool_decide_eq_true]%andb_true_iff <-]%then_some_Some.
  destruct (allows_present _ _ _ Ha) as [process Hp]. exists pid, process. rewrite Hp. eauto 10.
Qed.

Lemma active_game_is_current_true game ai ap procs al :
  active_game_is_current game ai ap procs al = true →
  ∃ pid process i, gw_pid game = Some pid ∧ procs !! pid = Some process ∧
    let current := classify_process_identity pid procs in
    allows_identity al current = true ∧ gw_steam_app_id game = pi_steam_app_id current ∧
    ai = Some i ∧ process_identity_eqb current i = true ∧
    ap = Some (mkProcessInstance pid (pin_start_ticks process)) ∧
    active_game_process game procs =
      Some (mkProcessInstance pid (pin_start_ticks process), pin_timing process).
Proof.
  unfold active_game_is_current.
  intros [(c & Hm & (i & -> & Hi)%is_some_and_true)%is_some_and_true H]%andb_true_iff.
  apply matching_process_identity_Some in Hm as (pid & process & ? & ? & -> & ? & ? & Hp).
  rewrite Hp in H. cbn in H. apply bool_decide_eq_true in H as <-. eauto 15.
Qed.

(** Publishing leaves everything but its channel alone. *)
Definition core_eq (r r' : CoreRuntime) : Prop :=
  rt_state r' = rt_state r ∧ rt_processes r' = rt_processes r ∧ rt_settings r' = rt_settings r ∧
  rt_widget_profile r' = rt_widget_profile r ∧ rt_metadata r' = rt_metadata r.

#[export] Instance core_eq_equivalence : Equivalence core_eq.
Proof.
  unfold core_eq. split; [done|intros x y (?&?&?&?&?)|intros x y z (?&?&?&?&?) (?&?&?&?&?)];
    split_and!; congruence.
Qed.

Lemma publish_snapshot_core r s : core_eq r (publish_snapshot r s).
Proof. done. Qed.
Lemma publish_selected_running_core r b : core_eq r (publish_selected_running r b).
Proof. unfold publish_selected_running. by case_match. Qed.
Lemma publish_shortcut_settings_core r s : core_eq r (publish_shortcut_settings r s).
Proof. done. Qed.
Lemma publish_widget_profile_core r p : core_eq r (publish_widget_profile r p).
Proof. done. Qed.
Lemma publish_availability_core r a : core_eq r (publish_shortcut_availability r a).
Proof. done. Qed.

#[export] Instance game_inv_proper : Proper (core_eq ==> iff) game_inv.
Proof.
  intros r r' (E1 & E2 & E3 & _ & E5). unfold game_inv, game_current. by rewrite E1, E2, E3, E5.
Qed.

Lemma publish_at_core r now : core_eq r (fst (publish_at r now)).
Proof. apply publish_snapshot_core. Qed.

Lemma stopwatch_reset_default w : stopwatch_reset w = stopwatch_default.
Proof. done. Qed.

(** A cleared state: no game, and metadata as at startup. *)
Lemma cleared_metadata_eq m : cleared_metadata m = no_game_metadata.
Proof. done. Qed.

Lemma clear_state_inv r : game_inv (clear_state r).
Proof. by split. Qed.

Lemma clear_game_locked_inv r : game_inv (fst (clear_game_locked r)).
Proof. unfold clear_game_locked. cbn [fst]. rewrite <- publish_snapshot_core. apply clear_state_inv. Qed.

Lemma allowed_process_Some r o ap :
  allowed_process r o = Some ap →
  ∃ pid process, wo_pid o = Some pid ∧ rt_processes r !! pid = Some process ∧
    let current := classify_process_identity pid (rt_processes r) in
    authorized (rt_settings r) current ∧
    ap = mkAllowedProcess current (mkProcessInstance pid (pin_start_ticks process))
           (pin_timing process).
Proof.
  unfold allowed_process. destruct (wo_pid o) as [pid|]; [|done]. cbn [mbind option_bind].
  destruct (rt_processes r !! pid) as [process|] eqn:E; [|done]. cbn [mbind option_bind].
  intros [Ha <-]%then_some_Some. apply allows_identity_authorized in Ha. eauto 10.
Qed.

Lemma observe_allowed_inv r o last t : game_inv (fst (observe_allowed r o last t)).
Proof.
  unfold observe_allowed. rewrite <- publish_at_core.
  destruct (allowed_process r o) as [ap|] eqn:E; [|apply clear_state_inv].
  apply allowed_process_Some in E as (pid & process & Hpid & Hp & Ha & ->).
  split; [|done]. intros game [= <-]. exists pid, process, (classify_process_identity pid (rt_processes r)).
  cbn. eauto 10 using process_identity_eqb_refl.
Qed.

Lemma refresh_active_process_none m procs t :
  m = no_game_metadata → refresh_active_process m None procs t = no_game_metadata.
Proof. by intros ->. Qed.

Lemma refresh_active_process_some m game procs t cur timing :
  active_game_process game procs = Some (cur, timing) →
  md_active_process m = Some cur →
  let m' := refresh_active_process m (Some game) procs t in
  md_active_identity m' = md_active_identity m ∧ md_active_process m' = Some cur ∧
  md_manual_stopwatch m' = md_manual_stopwatch m.
Proof.
  intros E Hm. unfold refresh_active_process. cbn [mbind option_bind]. rewrite E.
  unfold reset_stopwatch_for_changed_process. by rewrite bool_decide_eq_false_2 by (rewrite Hm; tauto).
Qed.

Lemma refresh_telemetry_fields m game procs ts tps t :
  let m' := refresh_telemetry m game procs ts tps t in
  md_active_identity m' = md_active_identity m ∧ md_active_process m' = md_active_process m ∧
  md_manual_stopwatch m' = md_manual_stopwatch m ∧ md_active_timing m' = md_active_timing m ∧
  md_timing_floor m' = md_timing_floor m ∧ md_bridge_last_report m' = md_bridge_last_report m.
Proof. unfold refresh_telemetry. destruct game as [g|]; [|done]. by case_match. Qed.

Lemma active_game_valid_current r al game :
  active_game_valid r al = true → cs_active_game (rt_state r) = Some game →
  active_game_is_current game (md_active_identity (rt_metadata r))
    (md_active_process (rt_metadata r)) (rt_processes r) al = true.
Proof. unfold active_game_valid. intros H E. by rewrite E in H. Qed.

(** What a step that keeps a still current game may do to the metadata. *)
Definition keeps_process (m m' : RuntimeMetadata) : Prop :=
  md_active_identity m' = md_active_identity m ∧ md_active_process m' = md_active_process m.

(** Changing processes or settings: either the game no longer is current and
    is cleared, or the metadata is refreshed by [f]. *)
Lemma revalidate_inv r al f :
  al = from_settings (rt_settings r) →
  (cs_active_game (rt_state r) = None →
     rt_metadata r = no_game_metadata ∧ cs_overlay_mode (rt_state r) = Passive) →
  (cs_active_game (rt_state r) = None → f no_game_metadata = no_game_metadata) →
  (∀ game cur timing, cs_active_game (rt_state r) = Some game →
     active_game_process game (rt_processes r) = Some (cur, timing) →
     md_active_process (rt_metadata r) = Some cur → keeps_process (rt_metadata r) (f (rt_metadata r))) →
  game_inv (if negb (active_game_valid r al) then clear_state r else r <| rt_metadata ::= f |>).
Proof.
  intros -> Hn Hf0 Hf. destruct (active_game_valid r _) eqn:Hv; [|apply clear_state_inv].
  cbn [negb]. split; cbn.
  - intros game Hg. pose proof (active_game_valid_current _ _ _ Hv Hg) as Hc.
    apply active_game_is_current_true in Hc as
      (pid & process & i & ? & ? & Ha & ? & Hi & ? & Hp & Hap).
    apply allows_identity_authorized in Ha.
    destruct (Hf game _ _ Hg Hap Hp) as [E1 E2]. exists pid, process, i. cbn. rewrite E1, E2. eauto 10.
  - intros Hg. destruct (Hn Hg) as [-> ?]. split; [by apply Hf0|done].
Qed.

Lemma game_inv_modify r f g :
  game_inv r →
  (∀ s, cs_active_game (g s) = cs_active_game s) →
  (∀ s, cs_active_game s = None → cs_overlay_mode s = Passive → cs_overlay_mode (g s) = Passive) →
  (∀ m, keeps_process m (f m)) →
  (cs_active_game (rt_state r) = None → f (rt_metadata r) = rt_metadata r) →
  game_inv (r <| rt_state ::= g |> <| rt_metadata ::= f |>).
Proof.
  intros [H1 H2] Hg Hg2 Hf Hf0. split; cbn; rewrite Hg.
  - intros game E. destruct (H1 game E) as (pid & p & i & ?&?&?&?&?&?&?).
    destruct (Hf (rt_metadata r)) as [E1 E2]. exists pid, p, i. cbn. rewrite E1, E2. eauto 10.
  - intros E. destruct (H2 E) as [E1 E2]. rewrite Hf0 by done. split; [done|by apply Hg2].
Qed.

Lemma toggle_overlay_game s : cs_active_game (toggle_overlay s) = cs_active_game s.
Proof. unfold toggle_overlay. by case_match. Qed.

Lemma toggle_overlay_passive s : cs_active_game s = None → cs_overlay_mode (toggle_overlay s) = Passive.
Proof. unfold toggle_overlay. by intros ->. Qed.

Lemma game_inv_settings r r' :
  game_inv r → rt_state r' = rt_state r → rt_metadata r' = rt_metadata r →
  cs_active_game (rt_state r') = None →
  rt_metadata r' = no_game_metadata ∧ cs_overlay_mode (rt_state r') = Passive.
Proof. intros [_ H] -> ->. done. Qed.

Lemma runtime_step_game_inv r c : game_inv r → game_inv (runtime_step r c).
Proof.
  intros Hr. destruct c as [now|now|now|i now|o t|o now| |now|procs ts tps t|s t now|p now|a]; cbn [runtime_step].
  - unfold toggle_manual_stopwatch_at. rewrite <- publish_at_core.
    unfold stopwatch_allowed. destruct (_ && _) eqn:E; [|done].
    apply (game_inv_modify r _ id); [done..|]. intros Hn. by rewrite Hn, andb_false_r in E.
  - unfold reset_manual_stopwatch_at. rewrite <- publish_at_core.
    unfold stopwatch_allowed. destruct (_ && _) eqn:E; [|done].
    apply (game_inv_modify r _ id); [done..|]. intros Hn. by rewrite Hn, andb_false_r in E.
  - unfold runtime_toggle_overlay. rewrite <- publish_at_core.
    apply (game_inv_modify r id toggle_overlay); try done.
    + apply toggle_overlay_game.
    + intros; by apply toggle_overlay_passive.
  - unfold runtime_set_overlay_interactive. rewrite <- publish_at_core.
    apply (game_inv_modify r id (λ s, set_overlay_interactive s i)); try done.
    unfold set_overlay_interactive. intros s Hs _. cbn. by rewrite Hs, andb_false_r.
  - unfold apply_bridge_observation_at. case_match; [apply clear_game_locked_inv|apply observe_allowed_inv].
  - unfold apply_x11_observation. destruct o as [o|]; [|apply clear_game_locked_inv].
    case_bool_decide; [done|]. case_match; [apply clear_game_locked_inv|apply observe_allowed_inv].
  - apply clear_game_locked_inv.
  - unfold expire_bridge_lease_at. case_match; [|done]. case_match; [done|apply clear_game_locked_inv].
  - unfold install_refresh_snapshot_at. rewrite <- publish_at_core.
    set (r1 := publish_selected_running _ _).
    assert (core_eq (r <| rt_processes := procs |>) r1) as (E1 & E2 & E3 & _ & E5)
      by apply publish_selected_running_core.
    apply (revalidate_inv r1 (from_settings (rt_settings r))
      (λ m, refresh_telemetry (refresh_active_process m (cs_active_game (rt_state r1))
              (rt_processes r1) t) (cs_active_game (rt_state r1)) (rt_processes r1) ts tps t)).
    + by rewrite E3.
    + by apply (game_inv_settings r).
    + intros ->. done.
    + intros game cur timing -> Hap Hm. unfold keeps_process.
      destruct (refresh_telemetry_fields (refresh_active_process (rt_metadata r1) (Some game)
        (rt_processes r1) t) (Some game) (rt_processes r1) ts tps t) as (-> & -> & _).
      destruct (refresh_active_process_some _ _ _ t _ _ Hap Hm) as (-> & -> & _). done.
  - unfold reload_settings. destruct (validate_enabled_settings s) as [s'|]; [|done].
    cbn [fst]. unfold publish_at at 1. cbn [fst].
    rewrite <- publish_snapshot_core. set (r1 := publish_selected_running _ _).
    assert (core_eq (r <| rt_settings := s' |>) r1) as (E1 & E2 & E3 & _ & E5).
    { etransitivity; [apply publish_shortcut_settings_core|apply publish_selected_running_core]. }
    apply (revalidate_inv r1 (from_settings s')
      (λ m, refresh_active_process m (cs_active_game (rt_state r1)) (rt_processes r1) t)).
    + by rewrite E3.
    + by apply (game_inv_settings r).
    + intros ->. done.
    + intros game cur timing -> Hap Hm.
      destruct (refresh_active_process_some _ _ _ t _ _ Hap Hm) as (? & ? & _). split; congruence.
  - unfold reload_widget_profile. destruct (validate_widget_profile p) as [p'|]; [|done].
    cbn [fst]. unfold publish_at at 1. cbn [fst]. rewrite <- publish_snapshot_core.
    rewrite <- publish_widget_profile_core. exact Hr.
  - by rewrite <- publish_availability_core.
Qed.

Lemma with_settings_game_inv state procs settings profile now :
  fresh_state state →
  game_inv (with_settings_and_widget_profile state procs settings profile now).
Proof.
  intros (Hi & _). unfold with_settings_and_widget_profile.
  set (s := ok_or_default _ (validate_enabled_settings settings)).
  destruct (cs_active_game state) as [game|] eqn:Hg; cbn [mbind option_bind].
  2: { split; cbn; [done|done]. }
  destruct (matching_process_identity game procs (from_settings s)) as [i|] eqn:Hm;
    cbn [mbind option_bind isNone isSome negb]; [|by split].
  apply matching_process_identity_Some in Hm as (pid & process & ? & ? & -> & Ha & ? & Hap).
  rewrite Hap. apply allows_identity_authorized in Ha. split; cbn; [|congruence].
  intros g E. rewrite Hg in E. injection E as <-. exists pid, process, (classify_process_identity pid procs).
  cbn. eauto 10 using process_identity_eqb_refl.
Qed.

Lemma reachable_game_inv r : runtime_reachable r → game_inv r.
Proof.
  induction 1; [by apply with_settings_game_inv|by apply runtime_step_game_inv].
Qed.

(** C1 At every point of Core's life the game on screen, if any, belongs to a
    process that the latest process snapshot contains, whose identity the
    current settings authorize and is the accepted one, with the accepted
    start time; and without a game all the metadata of one is gone and the
    overlay does not take input. *)
Theorem active_game_authorized r :
  runtime_reachable r →
  match cs_active_game (rt_state r) with
  | Some game => game_current r game
  | None => rt_metadata r = no_game_metadata ∧ cs_overlay_mode (rt_state r) = Passive
  end.
Proof.
  intros [H1 H2]%reachable_game_inv. destruct (cs_active_game (rt_state r)) eqn:E; auto.
Qed.

(** * The published snapshot follows the state *)

(** [CoreState] itself never carries telemetry or a stopwatch, and a game's
    scale is a number. *)
Definition raw_state_ok (r : CoreRuntime) : Prop :=
  cs_telemetry (rt_state r) = None ∧
  cs_manual_stopwatch (rt_state r) = manual_stopwatch_snapshot_default ∧
  (∀ g, cs_active_game (rt_state r) = Some g → is_finite (gw_scale g) = true).

#[export] Instance raw_state_ok_proper : Proper (core_eq ==> iff) raw_state_ok.
Proof. intros r r' (E & _). unfold raw_state_ok. by rewrite E. Qed.

Lemma f_eq_refl x : is_finite x = true → f_eq x x = true.
Proof.
  destruct x as [s|s| |s m e]; try done; unfold f_eq, SFeqb; cbn.
  intros _. destruct s; rewrite Z.compare_refl, Pos.compare_refl; done.
Qed.

Lemma active_game_eqb_refl o :
  (∀ g, o = Some g → is_finite (gw_scale g) = true) → active_game_eqb o o = true.
Proof.
  intros H. destruct o as [g|]; [|done]. cbn. unfold game_window_eqb.
  rewrite !bool_decide_eq_true_2, f_eq_refl by auto. done.
Qed.

Lemma stopwatch_paused_elapsed w t t' :
  sw_started_at w = None → stopwatch_snapshot_at w t = stopwatch_snapshot_at w t'.
Proof. unfold stopwatch_snapshot_at, stopwatch_elapsed. by intros ->. Qed.

Lemma state_changed_at p r t t' :
  snapshot_state_changed p (snapshot_at r t) = snapshot_state_changed p (snapshot_at r t').
Proof.
  unfold snapshot_state_changed, snapshot_at. cbn.
  destruct (sw_started_at (md_manual_stopwatch (rt_metadata r))) as [t0|] eqn:E.
  - done.
  - pose proof (f_equal mss_elapsed_ms (stopwatch_paused_elapsed _ t t' E)) as Et.
    cbn in Et. by rewrite Et.
Qed.

Lemma state_changed_refl r t :
  raw_state_ok r → snapshot_state_changed (snapshot_at r t) (snapshot_at r t) = false.
Proof.
  intros (_ & _ & H). unfold snapshot_state_changed.
  change (cs_active_game (snapshot_at r t)) with (cs_active_game (rt_state r)).
  rewrite active_game_eqb_refl by done. rewrite !bool_decide_eq_false_2 by tauto.
  rewrite Bool.eqb_reflx, Z.eqb_refl. cbn [negb orb]. by rewrite andb_false_r.
Qed.

Definition published (r : CoreRuntime) : CoreSnapshot := vcs_snapshot (w_value (rt_snapshots r)).
Definition revision (r : CoreRuntime) : Z := vcs_revision (w_value (rt_snapshots r)).

Definition published_current (r : CoreRuntime) : Prop :=
  ∀ now, snapshot_state_changed (published r) (snapshot_at r now) = false.

Lemma publish_published_current r t :
  raw_state_ok r → published_current (publish_snapshot r (snapshot_at r t)).
Proof.
  intros Hr now. change (snapshot_at (publish_snapshot r (snapshot_at r t)) now) with (snapshot_at r now).
  unfold published, publish_snapshot, send_if_modified. cbn.
  destruct (snapshot_state_changed _ (snapshot_at r t)) eqn:E; cbn.
  - rewrite (state_changed_at _ r now t). by apply state_changed_refl.
  - by rewrite (state_changed_at _ r now t).
Qed.

Lemma clear_state_raw r : raw_state_ok r → raw_state_ok (clear_state r).
Proof. by intros (H1 & H2 & _). Qed.

Lemma clear_state_snapshot r t : raw_state_ok r → snapshot_at (clear_state r) t = rt_state (clear_state r).
Proof.
  intros (H1 & H2 & _). unfold snapshot_at, clear_state, clear_game, snapshot_with_runtime. cbn.
  destruct (rt_state r) as [g m e tel sw]; cbn in *. by subst.
Qed.

Lemma observed_scale o : observation_has_valid_geometry o = true → is_finite (wo_scale o) = true.
Proof. unfold observation_has_valid_geometry. intros H. bools. done. Qed.

(** Every step publishes the snapshot of the state it leaves, or leaves what
    snapshots are made of alone. *)
Definition publishes (r r' : CoreRuntime) : Prop :=
  raw_state_ok r' ∧
  ((∃ r1 t, raw_state_ok r1 ∧ rt_snapshots r1 = rt_snapshots r ∧
            r' = publish_snapshot r1 (snapshot_at r1 t)) ∨
   (rt_snapshots r' = rt_snapshots r ∧ ∀ now, snapshot_at r' now = snapshot_at r now)).

Lemma publishes_at r r1 t :
  raw_state_ok r1 → rt_snapshots r1 = rt_snapshots r → publishes r (fst (publish_at r1 t)).
Proof. intros H E. split; [by rewrite <- publish_at_core|]. left. by exists r1, t. Qed.

Lemma publishes_clear r : raw_state_ok r → publishes r (fst (clear_game_locked r)).
Proof.
  intros H. unfold clear_game_locked. cbn [fst]. rewrite <- (clear_state_snapshot r 0) by done.
  apply publishes_at; [by apply clear_state_raw|done].
Qed.

Lemma publishes_same r : raw_state_ok r → publishes r r.
Proof. intros H. split; [done|]. by right. Qed.

Lemma publishes_observe r o last t :
  raw_state_ok r → observation_has_valid_geometry o = true → publishes r (fst (observe_allowed r o last t)).
Proof.
  intros H Ho. unfold observe_allowed. apply publishes_at; [|by case_match].
  case_match; [|by apply clear_state_raw].
  destruct H as (H1 & H2 & _). split_and!; [done..|]. intros g [= <-]. by apply observed_scale.
Qed.

Lemma set_raw_metadata r m : raw_state_ok r → raw_state_ok (r <| rt_metadata ::= m |>).
Proof. done. Qed.

Lemma publish_selected_running_snapshots r b :
  rt_snapshots (publish_selected_running r b) = rt_snapshots r.
Proof. unfold publish_selected_running. by case_match. Qed.

Lemma revalidate_raw r (valid : bool) f :
  raw_state_ok r → raw_state_ok (if valid then clear_state r else r <| rt_metadata ::= f |>).
Proof. intros H. destruct valid; [by apply clear_state_raw|done]. Qed.

Lemma runtime_step_publishes r c : raw_state_ok r → publishes r (runtime_step r c).
Proof.
  intros Hr. destruct c as [now|now|now|i now|o t|o now| |now|procs ts tps t|s t now|p now|a]; cbn [runtime_step].
  - apply publishes_at; by case_match.
  - apply publishes_at; by case_match.
  - apply publishes_at; [|done]. unfold raw_state_ok in *. cbn. rewrite toggle_overlay_game.
    unfold toggle_overlay. by case_match.
  - by apply publishes_at.
  - unfold apply_bridge_observation_at. destruct (observation_has_valid_geometry o) eqn:E; cbn [negb];
      [by apply publishes_observe|by apply publishes_clear].
  - unfold apply_x11_observation. destruct o as [o|]; [|by apply publishes_clear].
    case_bool_decide; [by apply publishes_same|].
    destruct (observation_has_valid_geometry o) eqn:E; cbn [negb];
      [by apply publishes_observe|by apply publishes_clear].
  - by apply publishes_clear.
  - unfold expire_bridge_lease_at. case_match; [|by apply publishes_same].
    case_match; [by apply publishes_same|by apply publishes_clear].
  - unfold install_refresh_snapshot_at. set (r1 := publish_selected_running _ _).
    apply publishes_at.
    + apply revalidate_raw. unfold r1. by rewrite <- publish_selected_running_core.
    + case_match; unfold clear_state; cbn; unfold r1; by rewrite publish_selected_running_snapshots.
  - unfold reload_settings. destruct (validate_enabled_settings s) as [s'|]; [|by apply publishes_same].
    set (r1 := publish_selected_running _ _). apply (publishes_at r _ now).
    + apply revalidate_raw. unfold r1. rewrite <- publish_selected_running_core.
      by rewrite <- publish_shortcut_settings_core.
    + case_match; unfold clear_state; cbn; unfold r1; by rewrite publish_selected_running_snapshots.
  - unfold reload_widget_profile. destruct (validate_widget_profile p) as [p'|]; [|by apply publishes_same].
    apply (publishes_at r _ now); [|done]. by rewrite <- publish_widget_profile_core.
  - split; [by rewrite <- publish_availability_core|]. by right.
Qed.

Lemma with_settings_raw state procs settings profile now :
  fresh_state state →
  let r := with_settings_and_widget_profile state procs settings profile now in
  raw_state_ok r ∧ published_current r.
Proof.
  intros (_ & Ht & Hs & Hsc). cbv zeta. unfold with_settings_and_widget_profile.
  set (al := from_settings _). set (s' := if isNone _ then _ else _).
  assert (raw_state_ok (mkCoreRuntime s' procs lifecycle_settings_default profile
    (watch_channel (mkVersionedCoreSnapshot 0 s')) (watch_channel true)
    (watch_channel (ls_shortcut settings)) (watch_channel profile) (watch_channel AvailDisabled)
    no_game_metadata)) as Hraw by (unfold raw_state_ok, s'; cbn; by case_match).
  split; [exact Hraw|]. intros t. set (r := mkCoreRuntime _ _ _ _ _ _ _ _ _ _).
  change (published r) with (snapshot_at r now). rewrite (state_changed_at _ r t now).
  by apply state_changed_refl.
Qed.

Lemma reachable_published r : runtime_reachable r → raw_state_ok r ∧ published_current r.
Proof.
  induction 1 as [|r c Hr [IH1 IH2]]; [by apply with_settings_raw|].
  destruct (runtime_step_publishes r c IH1) as [Hraw [(r1 & t & H1 & E & ->)|[E Es]]].
  - split; [done|]. by apply publish_published_current.
  - split; [done|]. intros now. unfold published. rewrite E, Es. apply IH2.
Qed.

(** The published snapshot is never stale: at any time it agrees with the
    snapshot Core would compute then, but for the running clocks - the
    session time, and the stopwatch's time while it runs. *)
Theorem published_snapshot_current r now :
  runtime_reachable r → snapshot_state_changed (published r) (snapshot_at r now) = false.
Proof. intros [_ H]%reachable_published. apply H. Qed.

(** The revision counts the published changes: it is the number of times
    a snapshot was sent, stopping at [u64::MAX], and a call sends at most one,
    exactly when the new state differs from the published one. *)
Theorem revision_counts_changes r c :
  runtime_reachable r →
  revision r = Z.min u64_max (Z.of_nat (w_version (rt_snapshots r))) ∧
  if snapshot_state_changed (published r) (snapshot_at (runtime_step r c) 0)
  then w_version (rt_snapshots (runtime_step r c)) = S (w_version (rt_snapshots r))
  else rt_snapshots (runtime_step r c) = rt_snapshots r.
Proof.
  intros Hr. split.
  - induction Hr as [|r c' Hr IH]; [done|].
    destruct (reachable_published r Hr) as [Hraw _].
    destruct (runtime_step_publishes r c' Hraw) as [_ [(r1 & t & _ & E & ->)|[E _]]];
      unfold revision in *; [|by rewrite E].
    unfold publish_snapshot, send_if_modified. cbn. rewrite E.
    case_match; cbn; [|done]. case_match; simplify_eq. cbn.
    rewrite IH. unfold saturating_add. lia.
  - destruct (reachable_published r Hr) as [Hraw Hcur].
    destruct (runtime_step_publishes r c Hraw) as [_ [(r1 & t & _ & E & ->)|[E Es]]].
    + change (snapshot_at (publish_snapshot r1 (snapshot_at r1 t)) 0) with (snapshot_at r1 0).
      rewrite (state_changed_at _ r1 0 t). unfold publish_snapshot, send_if_modified. cbn.
      unfold published. rewrite E. by destruct (snapshot_state_changed _ _).
    + rewrite Es, Hcur. done.
Qed.

(** * One process at a time *)

#[local] Arguments reset_stopwatch_for_changed_process : simpl never.
#[local] Arguments reset_telemetry_for_changed_group : simpl never.
#[local] Arguments reconcile_process_timing : simpl never.

(** The processes and the time a call reconciles the game's process with. *)
Definition reconciles (r : CoreRuntime) (c : runtime_call) : option (processes * instant) :=
  match c with
  | RBridge _ t => Some (rt_processes r, t)
  | RX11 (Some _) now => Some (rt_processes r, now)
  | RRefresh procs _ _ t => Some (procs, t)
  | RReloadSettings _ t _ => Some (rt_processes r, t)
  | _ => None
  end.

(** What a call does to the process, its timing and the stopwatch. *)
Inductive metadata_change (r : CoreRuntime) (c : runtime_call) (m' : RuntimeMetadata) : Prop :=
| change_none :
    md_active_process m' = None → md_active_timing m' = None → md_timing_floor m' = None →
    md_manual_stopwatch m' = stopwatch_default → metadata_change r c m'
| change_stopwatch :
    md_active_process m' = md_active_process (rt_metadata r) →
    md_active_timing m' = md_active_timing (rt_metadata r) →
    md_timing_floor m' = md_timing_floor (rt_metadata r) → metadata_change r c m'
| change_process procs cur process t :
    reconciles r c = Some (procs, t) → procs !! pins_pid cur = Some process →
    md_active_process m' = Some cur →
    (md_active_process (rt_metadata r) ≠ Some cur → md_manual_stopwatch m' = stopwatch_default) →
    (md_active_timing m', md_timing_floor m') =
      reconcile_process_timing (md_active_process (rt_metadata r)) (md_timing_floor (rt_metadata r))
        cur (pin_timing process) t →
    metadata_change r c m'.

Lemma change_same r c m' : m' = rt_metadata r → metadata_change r c m'.
Proof. intros ->. by apply change_stopwatch. Qed.

Lemma reset_stopwatch_fields m cur :
  let m' := reset_stopwatch_for_changed_process m cur in
  md_active_process m' = md_active_process m ∧ md_timing_floor m' = md_timing_floor m ∧
  (md_active_process m ≠ Some cur → md_manual_stopwatch m' = stopwatch_default).
Proof. unfold reset_stopwatch_for_changed_process. by case_bool_decide. Qed.

Lemma refresh_active_process_change r c m game procs t :
  m = rt_metadata r → reconciles r c = Some (procs, t) →
  metadata_change r c (refresh_active_process m game procs t).
Proof.
  intros -> Hc. unfold refresh_active_process.
  destruct (game ≫= λ game, active_game_process game procs) as [[cur timing]|] eqn:E;
    [|by apply change_none].
  apply bind_Some in E as (g & _ & E). unfold active_game_process in E.
  apply bind_Some in E as (pid & _ & E). apply bind_Some in E as (p & Hp & [= <- <-]).
  destruct (reset_stopwatch_fields (rt_metadata r) (mkProcessInstance pid (pin_start_ticks p)))
    as (E1 & E2 & E3).
  apply (change_process _ _ _ procs (mkProcessInstance pid (pin_start_ticks p)) p t); try done.
  cbn. rewrite E1, E2. by destruct (reconcile_process_timing _ _ _ _ _).
Qed.

Lemma observe_allowed_change r c o last t :
  reconciles r c = Some (rt_processes r, t) →
  metadata_change r c (rt_metadata (fst (observe_allowed r o last t))).
Proof.
  intros Hc. unfold observe_allowed. cbn [fst publish_at].
  destruct (allowed_process r o) as [ap|] eqn:E; [|by apply change_none].
  apply allowed_process_Some in E as (pid & p & _ & Hp & _ & ->).
  set (ap := mkAllowedProcess _ _ _). set (m := reset_telemetry_for_changed_group (rt_metadata r) ap).
  assert (md_active_process m = md_active_process (rt_metadata r) ∧
          md_timing_floor m = md_timing_floor (rt_metadata r)) as [F1 F2]
    by (unfold m, reset_telemetry_for_changed_group; by case_match).
  destruct (reset_stopwatch_fields m (ap_instance ap)) as (E1 & E2 & E3).
  apply (change_process _ _ _ (rt_processes r) (ap_instance ap) p t); try done; cbn in *.
  - rewrite F1 in E3. exact E3.
  - rewrite E1, E2, F1, F2. by destruct (reconcile_process_timing _ _ _ _ _).
Qed.

Lemma runtime_step_change r c : metadata_change r c (rt_metadata (runtime_step r c)).
Proof.
  destruct c as [now|now|now|i now|o t|o now| |now|procs ts tps t|s t now|p now|a]; cbn [runtime_step].
  - apply change_stopwatch; unfold toggle_manual_stopwatch_at; by case_match.
  - apply change_stopwatch; unfold reset_manual_stopwatch_at; by case_match.
  - by apply change_same.
  - by apply change_same.
  - unfold apply_bridge_observation_at. case_match; [by apply change_none|by apply observe_allowed_change].
  - unfold apply_x11_observation. destruct o as [o|]; [|by apply change_none].
    case_bool_decide; [by apply change_same|].
    case_match; [by apply change_none|by apply observe_allowed_change].
  - by apply change_none.
  - unfold expire_bridge_lease_at. case_match; [|by apply change_same].
    case_match; [by apply change_same|by apply change_none].
  - unfold install_refresh_snapshot_at. set (r1 := publish_selected_running _ _).
    assert (core_eq (r <| rt_processes := procs |>) r1) as (_ & E2 & _ & _ & E5)
      by apply publish_selected_running_core.
    case_match; [by apply change_none|]. cbn [fst publish_at]. rewrite E2.
    pose proof (refresh_active_process_change r (RRefresh procs ts tps t) (rt_metadata r1)
      (cs_active_game (rt_state r1)) procs t E5 eq_refl) as Hc.
    set (m := refresh_active_process _ _ _ _) in *.
    destruct (refresh_telemetry_fields m (cs_active_game (rt_state r1)) procs ts tps t)
      as (_ & F2 & F3 & F4 & F5 & _).
    destruct Hc; [apply change_none|apply change_stopwatch|eapply change_process]; cbn; fold m;
      rewrite ?F2, ?F3, ?F4, ?F5; eauto.
  - unfold reload_settings. destruct (validate_enabled_settings s) as [s'|]; [|by apply change_same].
    set (r1 := publish_selected_running _ _).
    assert (core_eq (r <| rt_settings := s' |>) r1) as (_ & E2 & _ & _ & E5).
    { etransitivity; [apply publish_shortcut_settings_core|apply publish_selected_running_core]. }
    destruct (negb (active_game_valid r1 _)); [by apply change_none|]. cbn. rewrite E2.
    by apply refresh_active_process_change.
  - unfold reload_widget_profile. by destruct (validate_widget_profile p); apply change_same.
  - by apply change_same.
Qed.

(** A manual stopwatch never measures across processes: whenever a call
    changes which process instance is active - another one, or none - the
    stopwatch is back at zero and stopped. *)
Theorem stopwatch_resets_with_process r c :
  md_active_process (rt_metadata (runtime_step r c)) ≠ md_active_process (rt_metadata r) →
  md_manual_stopwatch (rt_metadata (runtime_step r c)) = stopwatch_default.
Proof.
  intros Hne. destruct (runtime_step_change r c) as [|E|procs cur process t _ _ E H _]; [done|congruence|].
  apply H. congruence.
Qed.

(** ** Session time *)

Lemma elapsed_at_floor f t now :
  t ≤ now → elapsed_at f now ≤ elapsed_at (mkProcessTiming (elapsed_at f t) t) now.
Proof.
  unfold elapsed_at, dur_saturating_add, saturating_add, saturating_duration_since, saturating_sub.
  cbn. lia.
Qed.

Lemma elapsed_at_later f cur t now :
  elapsed_at f t ≤ elapsed_at cur t → pt_observed_at cur ≤ t → t ≤ now →
  elapsed_at f now ≤ elapsed_at cur now.
Proof.
  unfold elapsed_at, dur_saturating_add, saturating_add, saturating_duration_since, saturating_sub. lia.
Qed.

Lemma elapsed_at_mono f s t : s ≤ t → elapsed_at f s ≤ elapsed_at f t.
Proof.
  unfold elapsed_at, dur_saturating_add, saturating_add, saturating_duration_since, saturating_sub. lia.
Qed.

Lemma reconcile_keeps_floor cur f timing t active floor :
  (active, floor) = reconcile_process_timing (Some cur) (Some f) cur timing t →
  (∀ tm, timing = Some tm → pt_observed_at tm ≤ t) →
  ∃ f', floor = Some f' ∧ ∀ now, t ≤ now → elapsed_at f now ≤ elapsed_at f' now.
Proof.
  unfold reconcile_process_timing. rewrite bool_decide_eq_false_2 by tauto.
  destruct timing as [tm|]; [|intros [= -> ->] _; by exists f].
  intros [= -> ->] Ht. eexists. split; [done|]. intros now Hnow.
  destruct (Z.ltb_spec (elapsed_at tm t) (elapsed_at f t)).
  - by apply elapsed_at_floor.
  - apply (elapsed_at_later f tm t now); auto.
Qed.

Lemma reconcile_timing_is_floor prev f cur timing t active floor :
  (active, floor) = reconcile_process_timing prev f cur timing t →
  ∀ a, active = Some a → floor = Some a.
Proof. unfold reconcile_process_timing. repeat case_match; naive_solver. Qed.

Lemma reachable_timing_is_floor r : runtime_reachable r → timing_is_floor (rt_metadata r).
Proof.
  unfold timing_is_floor. induction 1 as [state procs settings profile now _|r c _ IH]; [done|].
  destruct (runtime_step_change r c) as [_ -> _ _|_ -> ->|procs cur process t _ _ _ _ E]; [done|done|].
  eapply reconcile_timing_is_floor, E.
Qed.

(** The call reconciles at a time between [s] and [s'], with timings of
    processes read no later. *)
Definition call_between (r : CoreRuntime) (c : runtime_call) (s s' : instant) : Prop :=
  match reconciles r c with
  | Some (procs, t) =>
      s ≤ t ≤ s' ∧ ∀ pid process tm,
        procs !! pid = Some process → pin_timing process = Some tm → pt_observed_at tm ≤ t
  | None => s ≤ s'
  end.

Lemma session_elapsed r now ms :
  cs_session_elapsed_ms (snapshot_at r now) = Some ms ↔
  ∃ game t, cs_active_game (rt_state r) = Some game ∧ md_active_timing (rt_metadata r) = Some t ∧
    ms = millis_u64 (elapsed_at t now).
Proof.
  unfold snapshot_at, snapshot_with_runtime. cbn. destruct (cs_active_game (rt_state r)); cbn; [|naive_solver].
  destruct (md_active_timing (rt_metadata r)); naive_solver.
Qed.

Lemma elapsed_at_nonneg t now : 0 ≤ pt_elapsed_at_observation t → 0 ≤ elapsed_at t now.
Proof.
  unfold elapsed_at, dur_saturating_add, saturating_add, saturating_duration_since, saturating_sub,
    duration_max, u64_max, nanos_per_sec. lia.
Qed.

(** C2 The session time of a process never goes back: as long as a call
    leaves the same process instance active, the time shown after it is not
    below the time shown before it, whatever the process tables claim. *)
Theorem session_time_monotone r c s s' process before after :
  runtime_reachable r → call_between r c s s' →
  md_active_process (rt_metadata r) = Some process →
  md_active_process (rt_metadata (runtime_step r c)) = Some process →
  (∀ t, md_active_timing (rt_metadata r) = Some t → 0 ≤ pt_elapsed_at_observation t) →
  cs_session_elapsed_ms (snapshot_at r s) = Some before →
  cs_session_elapsed_ms (snapshot_at (runtime_step r c) s') = Some after →
  before ≤ after.
Proof.
  intros Hr Hc Hp Hp' Hnn (_ & f & _ & Hf & ->)%session_elapsed (_ & f' & _ & Hf' & ->)%session_elapsed.
  pose proof (reachable_timing_is_floor r Hr _ Hf) as Hfloor.
  apply millis_u64_mono. split; [by apply elapsed_at_nonneg, Hnn|].
  unfold call_between in Hc.
  destruct (runtime_step_change r c) as [? ? ? ?|_ E _|procs cur pr t Hrc Hpr E _ Erec].
  - congruence.
  - assert (f' = f) as -> by congruence. apply elapsed_at_mono.
    destruct (reconciles r c) as [[]|]; lia.
  - rewrite Hrc in Hc. destruct Hc as [? Hobs].
    assert (cur = process) as -> by congruence.
    rewrite Hp, Hfloor, Hf' in Erec.
    destruct (reconcile_keeps_floor _ _ _ _ _ _ Erec) as (g & Hg & Hle).
    { intros tm. by apply (Hobs (pins_pid process) pr). }
    pose proof (reconcile_timing_is_floor _ _ _ _ _ _ _ Erec f' eq_refl) as Hg'.
    assert (g = f') as -> by congruence.
    etransitivity; [apply (elapsed_at_mono f s s'); lia|]. apply Hle. lia.
Qed.

(** * The bridge lease *)

(** The watchdog clears the game exactly when the last bridge report is at
    least five seconds old: the game and its metadata are gone, the overlay
    is passive and that is what is published.  Otherwise nothing changes. *)
Theorem lease_expires_after_timeout r now :
  runtime_reachable r →
  let '(r', expired) := expire_bridge_lease_at r now in
  if expired then
    (∃ t, md_bridge_last_report (rt_metadata r) = Some t ∧ from_secs 5 ≤ Z.max 0 (now - t)) ∧
    rt_metadata r' = no_game_metadata ∧ cs_active_game (published r') = None ∧
    cs_overlay_mode (published r') = Passive
  else
    r' = r ∧ ∀ t, md_bridge_last_report (rt_metadata r) = Some t → now - t < from_secs 5.
Proof.
  intros Hr. pose proof (reach_step r (RExpireLease now) Hr) as Hr'. cbn [runtime_step] in Hr'.
  apply reachable_published in Hr' as [_ Hcur]. specialize (Hcur now).
  unfold expire_bridge_lease_at in *.
  destruct (md_bridge_last_report (rt_metadata r)) as [t|] eqn:E; [|by split].
  rewrite checked_duration_default in *.
  unfold saturating_duration_since, saturating_sub, BRIDGE_LEASE_TIMEOUT in *.
  destruct (Z.ltb_spec (Z.max 0 (now - t)) (from_secs 5)).
  - split; [done|]. intros ? [= <-]. lia.
  - cbn [fst] in *. split_and!; [by exists t|done|..].
    all: unfold snapshot_state_changed in Hcur; cbn in Hcur; bools.
    + unfold active_game_eqb in *. by destruct (cs_active_game (published _)).
    + unfold published, publish_snapshot in *. cbn in *.
      destruct (cs_overlay_mode _); naive_solver.
Qed.

(** * A run of the runtime

    One authorized Steam game: reported by the bridge at 10 s, seen again in
    the process table at 12 s, its stopwatch started at 13 s, then replaced
    by a process the settings do not authorize. *)

Definition sample_settings : LifecycleSettings :=
  mkLifecycleSettings 1 true {[730]} [] (mkShortcutSettings true (lit "Meta+Alt+O")).
Definition sample_profile : WidgetProfile :=
  widget_profile_default <| wpr_manual_stopwatch ::= λ w, w <| ws_enabled := true |> |>.
Definition sample_game_process (elapsed_s at_s : Z) : ProcessInfo :=
  mkProcessInfo 20 1 77 (Some (mkProcessTiming (from_secs elapsed_s) (from_secs at_s)))
    (mkProcessResources 5 4096) (lit "cs2") {[lit "SteamAppId" := lit "730"]} [] None.
Definition sample_table (elapsed_s at_s : Z) : processes := {[20 := sample_game_process elapsed_s at_s]}.
Definition sample_observation (pid : Z) : WindowObservation :=
  mkWindowObservation (Some pid) None (lit "Game") (mkRect 0 0 800 600) (f64_of_Z 1) (lit "x").
Definition runtime0 : CoreRuntime :=
  with_settings_and_widget_profile core_snapshot_default (sample_table 60 9) sample_settings
    sample_profile 0.
Definition sample_calls : list runtime_call :=
  [RBridge (sample_observation 20) (from_secs 10);
   RRefresh (sample_table 61 12) temperature_snapshot_default 100 (from_secs 12);
   RToggleStopwatch (from_secs 13)].
Definition runtime3 : CoreRuntime := foldl runtime_step runtime0 sample_calls.

Lemma runtime0_reachable : runtime_reachable runtime0.
Proof. apply reach_new. by split_and!. Qed.

Lemma foldl_reachable cs r : runtime_reachable r → runtime_reachable (foldl runtime_step r cs).
Proof. revert r. induction cs as [|c cs IH]; intros r Hr; [done|]. apply IH. by apply reach_step. Qed.

Lemma runtime3_reachable : runtime_reachable runtime3.
Proof. apply foldl_reachable, runtime0_reachable. Qed.

Lemma active_game_authorized_witness :
  runtime_reachable runtime3 ∧
  ∃ game, cs_active_game (rt_state runtime3) = Some game ∧ game_current runtime3 game.
Proof.
  split; [exact runtime3_reachable|].
  pose proof (active_game_authorized runtime3 runtime3_reachable) as H.
  destruct (cs_active_game (rt_state runtime3)) as [game|] eqn:E.
  { exists game. split; [reflexivity|exact H]. }
  exfalso. revert E. vm_compute. discriminate.
Defined.

Lemma published_snapshot_current_witness :
  runtime_reachable runtime3 ∧
  snapshot_state_changed (published runtime3) (snapshot_at runtime3 (from_secs 99)) = false.
Proof.
  split; [exact runtime3_reachable|].
  exact (published_snapshot_current runtime3 (from_secs 99) runtime3_reachable).
Defined.

Lemma revision_counts_changes_witness :
  runtime_reachable runtime3 ∧ revision runtime3 = 3 ∧
  revision runtime3 = Z.min u64_max (Z.of_nat (w_version (rt_snapshots runtime3))).
Proof.
  split; [exact runtime3_reachable|]. split; [vm_compute; reflexivity|].
  pose proof (revision_counts_changes runtime3 (RToggleOverlay 0) runtime3_reachable) as [H _].
  exact H.
Defined.

(** A report of a process the table does not hold clears the game. *)
Lemma stopwatch_resets_with_process_witness :
  let c := RBridge (sample_observation 30) (from_secs 14) in
  md_manual_stopwatch (rt_metadata runtime3) ≠ stopwatch_default ∧
  md_active_process (rt_metadata (runtime_step runtime3 c)) ≠ md_active_process (rt_metadata runtime3) ∧
  md_manual_stopwatch (rt_metadata (runtime_step runtime3 c)) = stopwatch_default.
Proof.
  intros c.
  assert (md_active_process (rt_metadata (runtime_step runtime3 c))
          ≠ md_active_process (rt_metadata runtime3)) as H by (vm_compute; discriminate).
  split; [vm_compute; discriminate|]. split; [exact H|].
  exact (stopwatch_resets_with_process runtime3 c H).
Defined.

(** The table then claims two seconds less than already shown. *)
Lemma session_time_monotone_witness :
  let c := RRefresh (sample_table 61 14) temperature_snapshot_default 100 (from_secs 14) in
  let p := mkProcessInstance 20 77 in
  runtime_reachable runtime3 ∧
  cs_session_elapsed_ms (snapshot_at runtime3 (from_secs 14)) = Some 65000 ∧
  cs_session_elapsed_ms (snapshot_at (runtime_step runtime3 c) (from_secs 15)) = Some 66000 ∧
  65000 ≤ 66000.
Proof.
  intros c p.
  assert (cs_session_elapsed_ms (snapshot_at runtime3 (from_secs 14)) = Some 65000) as E1
    by (vm_compute; reflexivity).
  assert (cs_session_elapsed_ms (snapshot_at (runtime_step runtime3 c) (from_secs 15)) = Some 66000) as E2
    by (vm_compute; reflexivity).
  split; [exact runtime3_reachable|]. split; [exact E1|]. split; [exact E2|].
  refine (session_time_monotone runtime3 c (from_secs 14) (from_secs 15) p 65000 66000
            runtime3_reachable _ _ _ _ E1 E2).
  - split; [vm_compute; split; discriminate|]. intros pid process tm Hp Ht.
    unfold sample_table in Hp. apply lookup_singleton_Some in Hp as [_ <-]. injection Ht as <-. vm_compute. discriminate.
  - vm_compute. reflexivity.
  - vm_compute. reflexivity.
  - intros t Ht. vm_compute in Ht. injection Ht as <-. vm_compute. discriminate.
Defined.

Lemma lease_expires_after_timeout_witness :
  runtime_reachable runtime3 ∧ snd (expire_bridge_lease_at runtime3 (from_secs 15)) = true ∧
  cs_overlay_mode (published (fst (expire_bridge_lease_at runtime3 (from_secs 15)))) = Passive.
Proof.
  split; [exact runtime3_reachable|].
  pose proof (lease_expires_after_timeout runtime3 (from_secs 15) runtime3_reachable) as H.
  destruct (expire_bridge_lease_at runtime3 (from_secs 15)) as [r' expired] eqn:E.
  assert (expired = true) as -> by
    (assert (snd (expire_bridge_lease_at runtime3 (from_secs 15)) = true) as E' by (vm_compute; reflexivity);
     rewrite E in E'; exact E').
  split; [reflexivity|]. exact (proj2 (proj2 (proj2 H))).
Defined.
