(* ===== verification/Broker.v ===== *)
(** The shortcut broker ([PortalShortcutBroker] of
    [crates/overcrow-core/src/shortcut.rs]): it keeps one portal session bound
    to the shortcuts the runtime asks for and turns activations into runtime
    calls.

    The portal is the environment: a [bind] future resolves when the event
    [Bound] arrives, and closing a session has the outcome the environment
    gives it, [None] when the close times out. *)

From S2P Require Import Prelude Text Timing Protocol Settings Widgets Portal Watch Runtime.

(** A live session, known by its handle. *)
Abbreviation session := str (only parsing).

Inductive OwnedBinding :=
| OwnedIdle
| OwnedBindingNow (definitions : list ShortcutDefinition)
| OwnedLive (definitions : list ShortcutDefinition) (handle : session).

Inductive ControlEvent := CtlSnapshot | CtlSettings | CtlProfile | CtlShutdown.

Inductive BrokerEvent :=
| BControl (event : ControlEvent)
| BBound (outcome : result ShortcutError session)
| BActivation (outcome : result ShortcutError ShortcutEvent).

Abbreviation close_outcome := (option (result ShortcutError unit)).

(** What the broker asks of the portal. *)
Inductive portal_request :=
| AskBind (definitions : list ShortcutDefinition)
| AskClose (handle : session).

(** The broker, with [attempted_definitions] and [desired] of its loop and the
    requests it made. *)
Record Broker := mkBroker {
  br_runtime : CoreRuntime;
  br_owned : OwnedBinding;
  br_attempted : option (list ShortcutDefinition);
  br_desired : DesiredBinding;
  br_requests : list portal_request
}.

#[export] Instance Broker_eta : Eta Broker := λ b,
  mkBroker (br_runtime b) (br_owned b) (br_attempted b) (br_desired b) (br_requests b).

Definition runtime_desired (r : CoreRuntime) : DesiredBinding :=
  desired_binding (vcs_snapshot (w_value (rt_snapshots r))) (w_value (rt_shortcut_settings r))
    (w_value (rt_widget_profiles r)).

Definition publish_availability (b : Broker) (a : ShortcutAvailability) : Broker :=
  b <| br_runtime ::= λ r, publish_shortcut_availability r a |>.

Definition close_timed_out : ShortcutError :=
  shortcut_error (lit "global shortcut session close timed out").

(** The session's [close], under [OWNED_CLOSE_TIMEOUT]. *)
Definition close_result (o : close_outcome) : result ShortcutError unit :=
  match o with Some r => r | None => Err close_timed_out end.

Definition release_owned (b : Broker) (o : close_outcome) : Broker * result ShortcutError unit :=
  match br_owned b with
  | OwnedIdle | OwnedBindingNow _ => (b <| br_owned := OwnedIdle |>, Ok tt)
  | OwnedLive _ handle =>
      (b <| br_owned := OwnedIdle |> <| br_requests ::= λ l, l ++ [AskClose handle] |>,
       close_result o)
  end.

Definition release_after_stream_loss (b : Broker) (error : str) (o : close_outcome) : Broker :=
  let '(b, closed) := release_owned b o in
  let message :=
    match closed with
    | Ok _ => error
    | Err close => error ++ lit "; session close failed: " ++ se_message close
    end in
  publish_availability b (unavailable message).

Definition broker_close (b : Broker) (o : close_outcome) : Broker * result ShortcutError unit :=
  let '(b, closed) := release_owned b o in
  match closed with
  | Ok _ => (publish_availability b AvailDisabled, closed)
  | Err error => (publish_availability b (unavailable (se_message error)), closed)
  end.

(** The public [bind], which waits for the portal's answer. *)
Definition broker_bind (b : Broker) (definitions : list ShortcutDefinition) (o : close_outcome)
    (bound : result ShortcutError session) : Broker * result ShortcutError unit :=
  let '(b, released) := release_owned b o in
  match released with
  | Err error => (publish_availability b (unavailable (se_message error)), Err error)
  | Ok _ =>
      let b := publish_availability b AvailBinding in
      let b := b <| br_requests ::= λ l, l ++ [AskBind definitions] |> in
      match bound with
      | Ok handle =>
          (publish_availability (b <| br_owned := OwnedLive definitions handle |>) AvailAvailable, Ok tt)
      | Err error => (publish_availability b (unavailable (se_message error)), Err error)
      end
  end.

Definition owned_matches (owned : OwnedBinding) (desired : DesiredBinding) : bool :=
  match owned, desired with
  | OwnedBindingNow definitions, DesiredBind desired
  | OwnedLive definitions _, DesiredBind desired => bool_decide (definitions = desired)
  | OwnedIdle, _ => true
  | _, _ => false
  end.

(** The [match desired] of [reconcile]. *)
Definition pursue (b : Broker) : Broker :=
  match br_desired b with
  | DesiredDisabled => publish_availability (b <| br_attempted := None |>) AvailDisabled
  | DesiredInvalid message => publish_availability (b <| br_attempted := None |>) (unavailable message)
  | DesiredBind definitions =>
      match br_owned b with
      | OwnedIdle =>
          if bool_decide (br_attempted b ≠ Some definitions) then
            let b := publish_availability (b <| br_attempted := Some definitions |>) AvailBinding in
            b <| br_owned := OwnedBindingNow definitions |>
              <| br_requests ::= λ l, l ++ [AskBind definitions] |>
          else b
      | _ => b
      end
  end.

Definition reconcile (b : Broker) (o : close_outcome) : Broker :=
  if owned_matches (br_owned b) (br_desired b) then pursue b
  else
    match release_owned b o with
    | (b, Ok _) => pursue b
    | (b, Err error) =>
        let b := b <| br_attempted :=
                        match br_desired b with
                        | DesiredBind definitions => Some definitions
                        | DesiredDisabled | DesiredInvalid _ => None
                        end |> in
        publish_availability b
          (unavailable (lit "failed to release global shortcut: " ++ se_message error))
    end.

Definition activated_action (owned : OwnedBinding) (session_handle shortcut_id : str) :
    option ShortcutAction :=
  match owned with
  | OwnedLive definitions handle =>
      if str_eqb handle session_handle
      then sd_action <$> find_first (λ d, str_eqb (sd_id d) shortcut_id) definitions
      else None
  | _ => None
  end.

Definition perform (r : CoreRuntime) (action : ShortcutAction) (now : instant) : CoreRuntime :=
  match action with
  | ActToggleOverlay => fst (runtime_toggle_overlay r now)
  | ActToggleManualStopwatch => fst (toggle_manual_stopwatch_at r now)
  | ActResetManualStopwatch => fst (reset_manual_stopwatch_at r now)
  end.

Definition stream_closed_message : str := lit "global shortcut session closed".
Definition owner_lost_message : str := lit "desktop portal owner disappeared or was replaced".

(** The [match event] of [run], but for [Shutdown], which ends it. *)
Definition handle_event (b : Broker) (e : BrokerEvent) (o : close_outcome) (now : instant) : Broker :=
  match e with
  | BControl _ => b <| br_desired := runtime_desired (br_runtime b) |>
  | BBound outcome =>
      match br_owned b with
      | OwnedBindingNow definitions =>
          match outcome with
          | Ok handle =>
              publish_availability (b <| br_owned := OwnedLive definitions handle |>) AvailAvailable
          | Err error =>
              publish_availability (b <| br_owned := OwnedIdle |>) (unavailable (se_message error))
          end
      | _ => b <| br_owned := OwnedIdle |>
      end
  | BActivation (Ok (EvActivated session_handle shortcut_id)) =>
      match activated_action (br_owned b) session_handle shortcut_id with
      | Some action => b <| br_runtime ::= λ r, perform r action now |>
      | None => b
      end
  | BActivation (Ok EvMalformed) => b
  | BActivation (Ok EvClosed) => release_after_stream_loss b stream_closed_message o
  | BActivation (Ok EvOwnerLost) => release_after_stream_loss b owner_lost_message o
  | BActivation (Err error) => release_after_stream_loss b (se_message error) o
  end.

(** The events the [select!] of the owned binding can deliver. *)
Definition event_possible (owned : OwnedBinding) (e : BrokerEvent) : bool :=
  match owned, e with
  | _, BControl _ => true
  | OwnedBindingNow _, BBound _ => true
  | OwnedLive _ _, BActivation _ => true
  | _, _ => false
  end.

(** [run], before its loop. *)
Definition broker_start (r : CoreRuntime) : Broker :=
  mkBroker r OwnedIdle None (runtime_desired r) [].

(** A state in which the broker waits, the wait ended by [e]: the runtime may
    have moved meanwhile, by calls other than the broker's own. *)
Definition foreign_call (c : runtime_call) : Prop :=
  match c with RAvailability _ => False | _ => True end.

(** The states at the top of the loop, [reconcile] done: where the broker
    waits for an event. *)
Inductive waiting : Broker → Prop :=
| wait_start r o : runtime_reachable r → waiting (reconcile (broker_start r) o)
| wait_runtime b c : waiting b → foreign_call c →
    waiting (b <| br_runtime ::= λ r, runtime_step r c |>)
| wait_event b e o o' now : waiting b → event_possible (br_owned b) e = true →
    e ≠ BControl CtlShutdown → waiting (reconcile (handle_event b e o now) o').

(** * What the broker waits with *)

Definition availability (r : CoreRuntime) : ShortcutAvailability := w_value (rt_shortcut_availability r).

Definition is_unavailable (a : ShortcutAvailability) : Prop := ∃ m, a = AvailUnavailable m.

(** The broker's promise while it waits: what it owns is what is desired, it
    has tried what is desired, and what it publishes says so. *)
Definition settled (b : Broker) : Prop :=
  match br_owned b with
  | OwnedLive definitions _ =>
      br_desired b = DesiredBind definitions ∧ br_attempted b = Some definitions ∧
      availability (br_runtime b) = AvailAvailable
  | OwnedBindingNow definitions =>
      br_desired b = DesiredBind definitions ∧ br_attempted b = Some definitions ∧
      availability (br_runtime b) = AvailBinding
  | OwnedIdle =>
      match br_desired b with
      | DesiredBind definitions =>
          br_attempted b = Some definitions ∧ is_unavailable (availability (br_runtime b))
      | DesiredInvalid _ =>
          br_attempted b = None ∧ is_unavailable (availability (br_runtime b))
      | DesiredDisabled =>
          br_attempted b = None ∧
          (availability (br_runtime b) = AvailDisabled ∨ is_unavailable (availability (br_runtime b)))
      end
  end.

(** What an event may leave for [reconcile]: the same, but for a [desired]
    that moved on. *)
Definition unsettled (b : Broker) : Prop :=
  match br_owned b with
  | OwnedLive definitions _ =>
      br_attempted b = Some definitions ∧ availability (br_runtime b) = AvailAvailable
  | OwnedBindingNow definitions =>
      br_attempted b = Some definitions ∧ availability (br_runtime b) = AvailBinding
  | OwnedIdle => ∀ definitions, br_attempted b = Some definitions → is_unavailable (availability (br_runtime b))
  end.

Lemma publish_availability_eq r a : availability (publish_shortcut_availability r a) = a.
Proof.
  unfold availability, publish_shortcut_availability, send_if_modified. cbn. by case_bool_decide.
Qed.

Lemma unavailable_is m : is_unavailable (unavailable m).
Proof. by eexists. Qed.

#[local] Hint Resolve unavailable_is : core.

Lemma settled_unsettled b : settled b → unsettled b.
Proof.
  unfold settled, unsettled. destruct (br_owned b); [|naive_solver..].
  destruct (br_desired b); naive_solver.
Qed.

Lemma publish_fields b a :
  br_owned (publish_availability b a) = br_owned b ∧
  br_desired (publish_availability b a) = br_desired b ∧
  br_attempted (publish_availability b a) = br_attempted b ∧
  br_requests (publish_availability b a) = br_requests b ∧
  availability (br_runtime (publish_availability b a)) = a.
Proof. split_and!; try done. apply publish_availability_eq. Qed.

Lemma pursue_settled b :
  unsettled b → owned_matches (br_owned b) (br_desired b) = true → settled (pursue b).
Proof.
  unfold unsettled, owned_matches, pursue, settled.
  destruct (br_owned b) as [|ds|ds h] eqn:Eo, (br_desired b) as [|ds'|m] eqn:Ed; try done;
    intros Hu Hm; cbn; rewrite ?Eo, ?Ed, ?publish_availability_eq; auto.
  - case_bool_decide as Ha; cbn; rewrite ?Eo, ?Ed, ?publish_availability_eq; [done|].
    eauto.
  - apply bool_decide_eq_true in Hm as ->. destruct Hu. auto.
  - apply bool_decide_eq_true in Hm as ->. destruct Hu. auto.
Qed.

Lemma release_unsettled b o ds :
  br_owned b = OwnedBindingNow ds ∨ (∃ h, br_owned b = OwnedLive ds h) →
  let b' := fst (release_owned b o) in
  br_owned b' = OwnedIdle ∧ br_desired b' = br_desired b ∧ br_attempted b' = br_attempted b ∧
  br_runtime b' = br_runtime b.
Proof. unfold release_owned. intros [E|[h E]]; rewrite E; cbn; rewrite ?E; done. Qed.

Lemma pursue_other b ds :
  br_owned b = OwnedIdle → br_attempted b = Some ds → br_desired b ≠ DesiredBind ds → settled (pursue b).
Proof.
  intros Eo Ea Hd. unfold pursue, settled.
  destruct (br_desired b) as [|ds'|m] eqn:Ed; cbn; rewrite ?Eo, ?Ed, ?publish_availability_eq; auto.
  rewrite Ea, bool_decide_eq_true_2 by naive_solver. cbn. by rewrite publish_availability_eq.
Qed.

Lemma reconcile_settled b o : unsettled b → settled (reconcile b o).
Proof.
  intros Hu. unfold reconcile. destruct (owned_matches (br_owned b) (br_desired b)) eqn:Em;
    [by apply pursue_settled|].
  assert (∃ ds, (br_owned b = OwnedBindingNow ds ∨ (∃ h, br_owned b = OwnedLive ds h)) ∧
                br_attempted b = Some ds ∧ br_desired b ≠ DesiredBind ds) as (ds & Ho & Ha & Hd).
  { unfold unsettled, owned_matches in *. destruct (br_owned b) as [|ds|ds h]; [done|..];
      exists ds; (split; [by eauto|]); destruct Hu; (split; [done|]);
      destruct (br_desired b); try done; apply bool_decide_eq_false in Em; congruence. }
  destruct (release_unsettled b o ds Ho) as (E1 & E2 & E3 & E4).
  destruct (release_owned b o) as [b' [u|e]]; cbn [fst] in *.
  - apply (pursue_other b' ds); congruence.
  - unfold settled. cbn. rewrite E1. rewrite publish_availability_eq.
    destruct (br_desired b'); auto.
Qed.

Lemma runtime_step_availability r c :
  foreign_call c → rt_shortcut_availability (runtime_step r c) = rt_shortcut_availability r.
Proof.
  assert (∀ r b, rt_shortcut_availability (publish_selected_running r b) = rt_shortcut_availability r)
    as Hsel by (intros; unfold publish_selected_running; by case_match).
  assert (∀ r o l t, rt_shortcut_availability (fst (observe_allowed r o l t)) = rt_shortcut_availability r)
    as Hobs by (intros; unfold observe_allowed; by case_match).
  intros Hc. destruct c as [now|now|now|i now|o t|o now| |now|procs ts tps t|s t now|p now|a]; cbn [runtime_step].
  - unfold toggle_manual_stopwatch_at. by case_match.
  - unfold reset_manual_stopwatch_at. by case_match.
  - done.
  - done.
  - unfold apply_bridge_observation_at. case_match; [done|apply Hobs].
  - unfold apply_x11_observation. destruct o; [|done]. case_bool_decide; [done|].
    case_match; [done|apply Hobs].
  - done.
  - unfold expire_bridge_lease_at. case_match; [|done]. by case_match.
  - unfold install_refresh_snapshot_at. cbn. case_match; cbn; by rewrite Hsel.
  - unfold reload_settings. case_match; [|done]. cbn.
    destruct (negb _); cbn; by rewrite Hsel.
  - unfold reload_widget_profile. by case_match.
  - done.
Qed.

Lemma perform_availability r a now :
  rt_shortcut_availability (perform r a now) = rt_shortcut_availability r.
Proof.
  destruct a; [exact (runtime_step_availability r (RToggleOverlay now) I)
              |exact (runtime_step_availability r (RToggleStopwatch now) I)
              |exact (runtime_step_availability r (RResetStopwatch now) I)].
Qed.

Lemma stream_loss_unsettled b m o : unsettled (release_after_stream_loss b m o).
Proof.
  unfold release_after_stream_loss, release_owned.
  destruct (br_owned b) as [|ds|ds h]; cbn; [..|destruct (close_result o)];
    unfold unsettled; cbn; intros; rewrite publish_availability_eq; auto.
Qed.

Lemma handle_unsettled b e o now :
  settled b → event_possible (br_owned b) e = true → unsettled (handle_event b e o now).
Proof.
  intros Hs He. destruct e as [c|outcome|[[h id| | |]|err]]; cbn.
  - apply settled_unsettled in Hs. exact Hs.
  - unfold settled in Hs. destruct (br_owned b) as [|ds|ds h] eqn:Eo; try done.
    destruct outcome as [h|err]; unfold unsettled; cbn; rewrite publish_availability_eq.
    + by destruct Hs as (_ & ? & _).
    + auto.
  - destruct (activated_action (br_owned b) h id) as [a|]; [|by apply settled_unsettled].
    apply settled_unsettled in Hs. unfold unsettled, availability in *. cbn.
    by rewrite perform_availability.
  - by apply settled_unsettled.
  - apply stream_loss_unsettled.
  - apply stream_loss_unsettled.
  - apply stream_loss_unsettled.
Qed.


(** * No session is left behind *)

Definition closes (l : list portal_request) : list session :=
  omap (λ q, match q with AskClose h => Some h | AskBind _ => None end) l.

Lemma closes_app l k : closes (l ++ k) = closes l ++ closes k.
Proof. unfold closes. apply omap_app. Qed.

Lemma pursue_closes b :
  closes (br_requests (pursue b)) = closes (br_requests b) ∧
  (∀ ds h, br_owned (pursue b) = OwnedLive ds h ↔ br_owned b = OwnedLive ds h).
Proof.
  unfold pursue. destruct (br_desired b); [done| |done].
  destruct (br_owned b) as [|ds|ds h] eqn:Eo; try by rewrite Eo.
  case_bool_decide; cbn; [|by rewrite Eo]. rewrite closes_app. cbn. by rewrite app_nil_r.
Qed.

(** The live session of a binding, as a list. *)
Definition live (owned : OwnedBinding) : list session :=
  match owned with OwnedLive _ h => [h] | _ => [] end.

Lemma pursue_live b : live (br_owned (pursue b)) = live (br_owned b).
Proof.
  unfold pursue. destruct (br_desired b); [done| |done].
  destruct (br_owned b) eqn:Eo; try by rewrite Eo. by case_bool_decide; cbn; rewrite ?Eo.
Qed.

(** The ledger of sessions: those closed so far, and the live one. *)
Definition ledger (b : Broker) : list session := closes (br_requests b) ++ live (br_owned b).

Lemma pursue_ledger b : ledger (pursue b) = ledger b.
Proof. unfold ledger. rewrite pursue_live. by destruct (pursue_closes b) as [-> _]. Qed.

Lemma release_ledger b o : ledger (fst (release_owned b o)) = ledger b.
Proof.
  unfold ledger, release_owned. destruct (br_owned b) eqn:E; cbn; rewrite ?E; try done.
  rewrite closes_app. cbn. by rewrite app_nil_r.
Qed.

Lemma publish_ledger b a : ledger (publish_availability b a) = ledger b.
Proof. done. Qed.

Lemma reconcile_ledger b o : ledger (reconcile b o) = ledger b.
Proof.
  unfold reconcile. case_match; [apply pursue_ledger|].
  pose proof (release_ledger b o) as H'. destruct (release_owned b o) as [b' [u|e]]; cbn [fst] in H'.
  - by rewrite pursue_ledger.
  - exact H'.
Qed.

Lemma stream_loss_ledger b m o : ledger (release_after_stream_loss b m o) = ledger b.
Proof.
  unfold release_after_stream_loss. pose proof (release_ledger b o) as H.
  by destruct (release_owned b o) as [b' r].
Qed.

(** C6 No portal session is lost or closed twice: an iteration of the loop
    adds to the sessions, closed ones first and the live one last, exactly
    the session the portal just bound, and once the broker has shut down
    every session it ever had has been asked to close. *)
Theorem sessions_closed_once b e o o' now :
  event_possible (br_owned b) e = true →
  ledger (reconcile (handle_event b e o now) o') =
    ledger b ++ match e with BBound (Ok handle) => [handle] | _ => [] end ∧
  (let b' := fst (broker_close b o) in
   br_owned b' = OwnedIdle ∧ closes (br_requests b') = ledger b).
Proof.
  intros He. split.
  - rewrite reconcile_ledger.
    destruct e as [c|[h|err]|[[h id| | |]|err]]; cbn; rewrite ?app_nil_r; try done;
      try apply stream_loss_ledger.
    + destruct (br_owned b) eqn:Eo; try done. unfold ledger. cbn. rewrite Eo. cbn. by rewrite app_nil_r.
    + destruct (br_owned b) eqn:Eo; try done. unfold ledger. cbn. rewrite Eo. done.
    + by case_match.
  - unfold broker_close. pose proof (release_ledger b o) as H.
    assert (br_owned (fst (release_owned b o)) = OwnedIdle) as Hi
      by (unfold release_owned; by destruct (br_owned b)).
    destruct (release_owned b o) as [b' [u|err]]; cbn in *; unfold ledger in H at 1;
      rewrite Hi in H; cbn in H; rewrite app_nil_r in H; done.
Qed.

(** A broker over the sample runtime, binding its three shortcuts. *)
Definition sample_broker : Broker := reconcile (broker_start runtime3) None.

Lemma sample_broker_waiting : waiting sample_broker.
Proof. apply wait_start, runtime3_reachable. Qed.


Lemma sessions_closed_once_witness :
  let e := BBound (Ok (lit "/s")) in
  event_possible (br_owned sample_broker) e = true ∧
  ledger (reconcile (handle_event sample_broker e None 0) None) = [lit "/s"].
Proof.
  intros e. assert (event_possible (br_owned sample_broker) e = true) as He by (vm_compute; reflexivity).
  split; [exact He|].
  pose proof (sessions_closed_once sample_broker e None None 0 He) as [H _].
  rewrite H. vm_compute. reflexivity.
Defined.
