(* ===== verification/Session.v ===== *)
(** The session coordinator ([crates/overcrow-core/src/session.rs]): which
    desktop session Core runs in, and the systemd units it keeps running
    while a selected game is. *)

From S2P Require Import Prelude Text Timing Protocol Process Runtime Watch.

(** * The desktop session *)

Definition MAX_DESKTOP_METADATA_BYTES : Z := 128.
Definition MAX_DESKTOP_TOKENS : nat := 8.

#[global] Arguments MAX_DESKTOP_METADATA_BYTES : simpl never.
#[global] Arguments MAX_DESKTOP_TOKENS : simpl never.

Inductive DesktopSession := X11 | SesHyprland | PlasmaWayland | GnomeWayland | SesUnsupported.
Inductive DesktopKind := KindHyprland | KindPlasma | KindGnome.
Inductive DesktopMetadata := MetaAbsent | MetaKnown (kind : DesktopKind) | MetaInvalid.

#[export] Instance DesktopSession_eq_dec : EqDecision DesktopSession.
Proof. solve_decision. Defined.
#[export] Instance DesktopKind_eq_dec : EqDecision DesktopKind.
Proof. solve_decision. Defined.

Definition bounded_token (value : option str) (max_bytes : Z) : option str :=
  value ← trim <$> value;
  then_some (negb (bool_decide (value = [])) && (str_len value <=? max_bytes)) value.

Definition plasma_names : list str :=
  [lit "kde"; lit "plasma"; lit "plasmawayland"; lit "plasma-wayland"; lit "plasma6";
   lit "kde-plasma"; lit "kde-plasma-wayland"].
Definition gnome_names : list str :=
  [lit "gnome"; lit "gnome-wayland"; lit "ubuntu"; lit "ubuntu-gnome"; lit "ubuntu-wayland"].

Definition desktop_kind (token : str) : option DesktopKind :=
  if eq_ignore_ascii_case token (lit "hyprland") then Some KindHyprland
  else if existsb (eq_ignore_ascii_case token) plasma_names then Some KindPlasma
  else then_some (existsb (eq_ignore_ascii_case token) gnome_names) KindGnome.

(** The loop over the tokens. *)
Fixpoint detect_kind (detected : option DesktopKind) (tokens : list str) : DesktopMetadata :=
  match tokens with
  | [] => match detected with Some kind => MetaKnown kind | None => MetaInvalid end
  | token :: tokens =>
      match desktop_kind (trim token) with
      | None => MetaInvalid
      | Some kind =>
          if is_some_and (λ current, bool_decide (current ≠ kind)) detected then MetaInvalid
          else detect_kind (Some kind) tokens
      end
  end.

Definition parse_desktop_metadata (value : option str) (split_tokens : bool) : DesktopMetadata :=
  match value with
  | None => MetaAbsent
  | Some raw =>
      let value := trim raw in
      if bool_decide (value = []) then MetaAbsent
      else if MAX_DESKTOP_METADATA_BYTES <? str_len value then MetaInvalid
      else if negb split_tokens then
        match desktop_kind value with Some kind => MetaKnown kind | None => MetaInvalid end
      else
        let tokens := take (MAX_DESKTOP_TOKENS + 1) (split 58 value) in
        if (MAX_DESKTOP_TOKENS <? length tokens)%nat then MetaInvalid
        else detect_kind None tokens
  end.

Definition agreed_kind (current session : DesktopMetadata) : option DesktopKind :=
  match current, session with
  | MetaKnown current, MetaKnown session =>
      if bool_decide (current = session) then Some current else None
  | MetaKnown kind, (MetaAbsent | MetaInvalid) => Some kind
  | MetaAbsent, MetaKnown kind => Some kind
  | (MetaAbsent | MetaInvalid), (MetaAbsent | MetaInvalid) => None
  | MetaInvalid, MetaKnown _ => None
  end.

Definition detect (session_type current_desktop desktop_session : option str) : DesktopSession :=
  match bounded_token session_type 32 with
  | None => SesUnsupported
  | Some session_type =>
      if eq_ignore_ascii_case session_type (lit "x11") then X11
      else if negb (eq_ignore_ascii_case session_type (lit "wayland")) then SesUnsupported
      else match agreed_kind (parse_desktop_metadata current_desktop true)
                   (parse_desktop_metadata desktop_session false) with
           | Some KindHyprland => SesHyprland
           | Some KindPlasma => PlasmaWayland
           | Some KindGnome => GnomeWayland
           | None => SesUnsupported
           end
  end.

(** * Command plans *)

Inductive unit_verb := Start | Stop.
Inductive unit_name := OverlayUnit | HyprlandUnit.

#[export] Instance unit_verb_eq_dec : EqDecision unit_verb.
Proof. solve_decision. Defined.
#[export] Instance unit_name_eq_dec : EqDecision unit_name.
Proof. solve_decision. Defined.

Record SessionCommand := mkSessionCommand { sc_verb : unit_verb; sc_unit : unit_name }.

Definition verb_text (v : unit_verb) : str := match v with Start => lit "start" | Stop => lit "stop" end.
Definition unit_text (u : unit_name) : str :=
  match u with
  | OverlayUnit => lit "overcrow-overlay.service"
  | HyprlandUnit => lit "overcrow-hyprland.service"
  end.
Definition command_text (c : SessionCommand) : str :=
  lit "systemctl --user " ++ verb_text (sc_verb c) ++ lit " " ++ unit_text (sc_unit c).

Definition OVERLAY_START_PLAN := [mkSessionCommand Start OverlayUnit].
Definition HYPRLAND_START_PLAN := [mkSessionCommand Start OverlayUnit; mkSessionCommand Start HyprlandUnit].
Definition OVERLAY_STOP_PLAN := [mkSessionCommand Stop OverlayUnit].
Definition FULL_STOP_PLAN := [mkSessionCommand Stop HyprlandUnit; mkSessionCommand Stop OverlayUnit].

Definition start_command_plan (d : DesktopSession) : list SessionCommand :=
  match d with
  | SesHyprland => HYPRLAND_START_PLAN
  | X11 | PlasmaWayland | GnomeWayland => OVERLAY_START_PLAN
  | SesUnsupported => []
  end.

Definition stop_command_plan (d : DesktopSession) : list SessionCommand :=
  match d with
  | SesHyprland | SesUnsupported => FULL_STOP_PLAN
  | X11 | PlasmaWayland | GnomeWayland => OVERLAY_STOP_PLAN
  end.

Definition transition_commands (d : DesktopSession) (applied_running desired_running : bool) :
    list SessionCommand :=
  if Bool.eqb applied_running desired_running then []
  else if desired_running then start_command_plan d else stop_command_plan d.

Definition maximum_plan_length (lengths : list nat) : nat :=
  foldl (λ maximum n, if (maximum <? n)%nat then n else maximum) 0%nat lengths.

Definition STOP_PLAN_LENGTHS : list nat :=
  [length OVERLAY_STOP_PLAN; length FULL_STOP_PLAN; length OVERLAY_STOP_PLAN;
   length OVERLAY_STOP_PLAN; length FULL_STOP_PLAN].
Definition MAX_STOP_COMMANDS : nat := maximum_plan_length STOP_PLAN_LENGTHS.

Definition SYSTEMCTL_COMMAND_TIMEOUT_SECONDS : Z := 3.
Definition CHILD_REAP_TIMEOUT_SECONDS : Z := 1.
Definition FORCED_CLEANUP_MARGIN_SECONDS : Z := 2.
Definition FORCED_CLEANUP_TIMEOUT : duration :=
  from_secs ((SYSTEMCTL_COMMAND_TIMEOUT_SECONDS + CHILD_REAP_TIMEOUT_SECONDS)
               * Z.of_nat MAX_STOP_COMMANDS + FORCED_CLEANUP_MARGIN_SECONDS).

(** * The coordinator *)

Inductive AppliedState := Stopped | Running | NeedsCleanup.

#[export] Instance AppliedState_eq_dec : EqDecision AppliedState.
Proof. solve_decision. Defined.

(** The atomic byte and what is read from it. *)
Definition applied_code (s : AppliedState) : Z :=
  match s with Stopped => 0 | Running => 1 | NeedsCleanup => 2 end.
Definition applied_of_code (v : Z) : AppliedState :=
  if v =? 1 then Running else if v =? 2 then NeedsCleanup else Stopped.

(** An error is its chain of contexts, outermost first; [{:#}] joins it. *)
Abbreviation error := (list str).
Definition error_text (e : error) : str :=
  match e with
  | [] => []
  | m :: e => foldl (λ s c, s ++ lit ": " ++ c) m e
  end.

(** The coordinator, with the commands it ran and their outcomes. *)
Record Coordinator := mkCoordinator {
  co_runtime : CoreRuntime;
  co_desktop : DesktopSession;
  co_applied : Z;
  co_log : list (SessionCommand * result error unit)
}.

#[export] Instance Coordinator_eta : Eta Coordinator := λ c,
  mkCoordinator (co_runtime c) (co_desktop c) (co_applied c) (co_log c).

Definition coordinator_new (r : CoreRuntime) (d : DesktopSession) : Coordinator :=
  mkCoordinator r d (applied_code NeedsCleanup) [].

Definition applied_state (c : Coordinator) : AppliedState := applied_of_code (co_applied c).
Definition set_applied (c : Coordinator) (s : AppliedState) : Coordinator :=
  c <| co_applied := applied_code s |>.

Section coordinator.
(** The command runner: the outcome of a command after those run so far. *)
Context (runner : list (SessionCommand * result error unit) → SessionCommand → result error unit).

Definition run_command (c : Coordinator) (command : SessionCommand) : Coordinator * result error unit :=
  let outcome := runner (co_log c) command in
  (c <| co_log ::= λ l, l ++ [(command, outcome)] |>, outcome).

(** The loop of [stop_all_locked], which runs every command. *)
Fixpoint run_all (c : Coordinator) (plan : list SessionCommand) (failures : list str) :
    Coordinator * list str :=
  match plan with
  | [] => (c, failures)
  | command :: plan =>
      let '(c, outcome) := run_command c command in
      run_all c plan
        (match outcome with
         | Ok _ => failures
         | Err e => failures ++ [command_text command ++ lit ": " ++ error_text e]
         end)
  end.

(** [[_]::join("; ")]. *)
Fixpoint join_text (sep : str) (l : list str) : str :=
  match l with [] => [] | [s] => s | s :: l => s ++ sep ++ join_text sep l end.

Definition stop_all_locked (c : Coordinator) : Coordinator * result error unit :=
  let c := c <| co_runtime ::= λ r, fst (clear_game_locked r) |> in
  let '(c, failures) := run_all c (stop_command_plan (co_desktop c)) [] in
  match failures with
  | [] => (set_applied c Stopped, Ok tt)
  | _ =>
      (set_applied c NeedsCleanup,
       Err [lit "session cleanup failed: " ++ join_text (lit "; ") failures])
  end.

(** The loop of [start], which stops at the first failure. *)
Fixpoint run_until_failure (c : Coordinator) (plan : list SessionCommand) :
    Coordinator * result error unit :=
  match plan with
  | [] => (c, Ok tt)
  | command :: plan =>
      let '(c, outcome) := run_command c command in
      match outcome with
      | Ok _ => run_until_failure c plan
      | Err e => (c, Err e)
      end
  end.

Definition start (c : Coordinator) : Coordinator * result error unit :=
  match run_until_failure c (start_command_plan (co_desktop c)) with
  | (c, Ok _) => (set_applied c Running, Ok tt)
  | (c, Err start_error) =>
      let c := set_applied c NeedsCleanup in
      match stop_all_locked c with
      | (c, Err cleanup_error) =>
          (c, Err [lit "failed to start session: " ++ error_text start_error
                   ++ lit "; cleanup also failed: " ++ error_text cleanup_error])
      | (c, Ok _) => (c, Err (lit "failed to start session; cleanup completed" :: start_error))
      end
  end.

Definition force_stop_all (c : Coordinator) : Coordinator * result error unit := stop_all_locked c.

Definition reconcile_supported (c : Coordinator) (desired_running : bool) :
    Coordinator * result error unit :=
  match applied_state c, desired_running with
  | Stopped, true => start c
  | Running, false => stop_all_locked c
  | Stopped, false | Running, true => (c, Ok tt)
  | NeedsCleanup, _ => (c, Ok tt) (* unreachable: cleanup was handled before *)
  end.

Definition reconcile_session (c : Coordinator) (desired_running : bool) : Coordinator * result error unit :=
  if bool_decide (co_desktop c = SesUnsupported) then
    let '(c, cleaned) :=
      if bool_decide (applied_state c = NeedsCleanup) then stop_all_locked c
      else (c <| co_runtime ::= λ r, fst (clear_game_locked r) |>, Ok tt) in
    match cleaned with
    | Ok _ => (set_applied c Stopped, Ok tt)
    | Err e => (c, Err e)
    end
  else
    let '(c, cleaned) :=
      if bool_decide (applied_state c = NeedsCleanup) then stop_all_locked c else (c, Ok tt) in
    match cleaned with
    | Ok _ => reconcile_supported c desired_running
    | Err e => (c, Err e)
    end.

(** ** The loop of [run_session_coordinator]

    After each reconciliation the loop looks at the shutdown flag, then at
    the desired state, then waits - for the retry delay too if the
    transition failed. *)

Inductive desired_read := DesiredSame | DesiredNow (running : bool) | DesiredClosed.
Inductive loop_wait :=
| WaitShutdown (closed_or_set : bool)
| WaitDesired (next : option bool)
| WaitRetry.

Record loop_input := mkLoopInput {
  li_shutdown : bool;
  li_desired : desired_read;
  li_wait : loop_wait
}.

(** The state the loop ends in, with the result it returns, or where it still
    runs at the end of the inputs, with the state it desires. *)
Fixpoint run_session (c : Coordinator) (desired : bool) (inputs : list loop_input) :
    Coordinator * (bool + result error unit) :=
  let finish := λ c, let '(c, outcome) := reconcile_session c false in (c, inr outcome) in
  match inputs with
  | [] => (c, inl desired)
  | input :: inputs =>
      let '(c, outcome) := reconcile_session c desired in
      if li_shutdown input then finish c
      else match li_desired input with
           | DesiredNow next => run_session c next inputs
           | DesiredClosed => finish c
           | DesiredSame =>
               match li_wait input with
               | WaitShutdown true => finish c
               | WaitShutdown false => run_session c desired inputs
               | WaitDesired None => finish c
               | WaitDesired (Some next) => run_session c next inputs
               | WaitRetry => run_session c desired inputs
               end
           end
  end.

(** * What the applied state promises *)

(** What is known of a unit from the commands run so far: running or not,
    unknown at first and after a failed command. *)
Definition observe_command (u : unit_name) (known : option bool)
    (entry : SessionCommand * result error unit) : option bool :=
  let '(command, outcome) := entry in
  if bool_decide (sc_unit command = u)
  then match outcome with Ok _ => Some (bool_decide (sc_verb command = Start)) | Err _ => None end
  else known.
Definition unit_state (log : list (SessionCommand * result error unit)) (u : unit_name) : option bool :=
  foldl (observe_command u) None log.

(** The units a session of this desktop runs or has to stop. *)
Definition session_units (d : DesktopSession) : list unit_name := sc_unit <$> stop_command_plan d.

Definition all_units (c : Coordinator) (running : bool) : Prop :=
  ∀ u, u ∈ session_units (co_desktop c) → unit_state (co_log c) u = Some running.

Definition applied_truthful (c : Coordinator) : Prop :=
  match applied_state c with
  | Stopped => all_units c false
  | Running => all_units c true ∧ co_desktop c ≠ SesUnsupported
  | NeedsCleanup => True
  end.

Lemma applied_round_trip s : applied_of_code (applied_code s) = s.
Proof. by destruct s. Qed.

Lemma applied_set c s : applied_state (set_applied c s) = s.
Proof. apply applied_round_trip. Qed.

Lemma unit_state_snoc log u entry : unit_state (log ++ [entry]) u = observe_command u (unit_state log u) entry.
Proof. unfold unit_state. by rewrite foldl_app. Qed.

Lemma unit_state_ok log k x u :
  unit_state (log ++ [(k, Ok x)]) u =
    if bool_decide (sc_unit k = u) then Some (bool_decide (sc_verb k = Start)) else unit_state log u.
Proof. apply unit_state_snoc. Qed.

Lemma run_all_log c plan failures :
  let '(c', failures') := run_all c plan failures in
  co_desktop c' = co_desktop c ∧ co_runtime c' = co_runtime c ∧
  (failures' = [] → failures = [] ∧
     ∀ u, (u ∈ (sc_unit <$> plan) → Forall (λ k, sc_verb k = Stop) plan →
             unit_state (co_log c') u = Some false) ∧
          (u ∉ (sc_unit <$> plan) → unit_state (co_log c') u = unit_state (co_log c) u)).
Proof.
  revert c failures. induction plan as [|k plan IH]; intros c failures; cbn [run_all run_command].
  { split_and!; [done..|]. intros ->. split; [done|]. intros u. split; [by intros ?%not_elem_of_nil|done]. }
  set (outcome := runner (co_log c) k). set (c1 := c <| co_log ::= _ |>).
  specialize (IH c1 (match outcome with Ok _ => failures
     | Err e => failures ++ [command_text k ++ lit ": " ++ error_text e] end)).
  destruct (run_all c1 plan _) as [c' failures']. destruct IH as (Hd & Hr & IH). split_and!; [done..|].
  intros Hf. destruct (IH Hf) as [Hf0 Hu].
  assert (failures = [] ∧ ∃ x, outcome = Ok x) as [-> [x Ho]].
  { destruct outcome as [x|e]; [by eauto|]. by destruct failures. }
  split; [done|]. intros u. specialize (Hu u) as [Hin Hout].
  assert (unit_state (co_log c1) u =
    if bool_decide (sc_unit k = u) then Some (bool_decide (sc_verb k = Start))
    else unit_state (co_log c) u) as Hc1.
  { change (co_log c1) with (co_log c ++ [(k, outcome)]). rewrite Ho. apply unit_state_ok. }
  cbn. split.
  - intros [->|Hu]%elem_of_cons Hs; apply Forall_cons in Hs as [Hk Hs]; [|by apply Hin].
    destruct (decide (sc_unit k ∈ (sc_unit <$> plan))); [by apply Hin|].
    rewrite Hout by done. rewrite Hc1, bool_decide_eq_true_2 by done. by rewrite Hk.
  - intros [Hne Hu]%not_elem_of_cons. rewrite Hout by done.
    rewrite Hc1, bool_decide_eq_false_2 by congruence. done.
Qed.

Lemma stop_plan_stops d : Forall (λ k, sc_verb k = Stop) (stop_command_plan d).
Proof. destruct d; repeat constructor. Qed.

Lemma start_plan_units d :
  d ≠ SesUnsupported → ∀ u, u ∈ (sc_unit <$> start_command_plan d) ↔ u ∈ session_units d.
Proof. intros Hd u. destruct d; try done; cbn; set_solver. Qed.

Lemma stop_all_spec c :
  let '(c', outcome) := stop_all_locked c in
  co_desktop c' = co_desktop c ∧ cs_active_game (rt_state (co_runtime c')) = None ∧
  match outcome with
  | Ok _ => applied_state c' = Stopped ∧ all_units c' false
  | Err _ => applied_state c' = NeedsCleanup
  end.
Proof.
  unfold stop_all_locked. set (c0 := c <| co_runtime ::= _ |>).
  pose proof (run_all_log c0 (stop_command_plan (co_desktop c0)) []) as H.
  destruct (run_all c0 _ []) as [c' failures]. destruct H as (Hd & Hr & H).
  destruct failures as [|f fs]; (split; [done|]); (split; [cbn; rewrite Hr; done|]);
    rewrite applied_set; [|done].
  split; [done|]. intros u Hu. cbn in Hu |- *. rewrite Hd in Hu.
  destruct (H eq_refl) as [_ Hall]. destruct (Hall u) as [Hin _].
  apply Hin; [exact Hu|apply stop_plan_stops].
Qed.

Lemma run_until_failure_log c plan :
  Forall (λ k, sc_verb k = Start) plan →
  let '(c', outcome) := run_until_failure c plan in
  co_desktop c' = co_desktop c ∧ co_runtime c' = co_runtime c ∧
  (is_ok outcome = true → ∀ u,
     (u ∈ (sc_unit <$> plan) → unit_state (co_log c') u = Some true) ∧
     (u ∉ (sc_unit <$> plan) → unit_state (co_log c') u = unit_state (co_log c) u)).
Proof.
  revert c. induction plan as [|k plan IH]; intros c Hp; cbn [run_until_failure run_command].
  { split_and!; [done..|]. intros _ u. split; [by intros ?%not_elem_of_nil|done]. }
  apply Forall_cons in Hp as [Hk Hp].
  set (outcome := runner (co_log c) k). set (c1 := c <| co_log ::= _ |>).
  destruct outcome as [x|e] eqn:Ho; [|by split_and!].
  specialize (IH c1 Hp). destruct (run_until_failure c1 plan) as [c' o].
  destruct IH as (Hd & Hr & IH). split_and!; [done..|]. intros Hok u.
  destruct (IH Hok u) as [Hin Hout].
  assert (unit_state (co_log c1) u =
    if bool_decide (sc_unit k = u) then Some (bool_decide (sc_verb k = Start))
    else unit_state (co_log c) u) as Hc1.
  { change (co_log c1) with (co_log c ++ [(k, Ok x)]). apply unit_state_ok. }
  cbn. split.
  - intros [->|Hu]%elem_of_cons; [|by apply Hin].
    destruct (decide (sc_unit k ∈ (sc_unit <$> plan))); [by apply Hin|].
    rewrite Hout by done. rewrite Hc1, bool_decide_eq_true_2 by done. by rewrite Hk.
  - intros [Hne Hu]%not_elem_of_cons. rewrite Hout by done.
    rewrite Hc1, bool_decide_eq_false_2 by congruence. done.
Qed.

Lemma start_plan_starts d : Forall (λ k, sc_verb k = Start) (start_command_plan d).
Proof. destruct d; repeat constructor. Qed.

Lemma start_spec c :
  co_desktop c ≠ SesUnsupported →
  let '(c', outcome) := start c in
  co_desktop c' = co_desktop c ∧
  match outcome with
  | Ok _ => applied_state c' = Running ∧ all_units c' true
  | Err _ => cs_active_game (rt_state (co_runtime c')) = None ∧
             (applied_state c' = Stopped ∧ all_units c' false ∨ applied_state c' = NeedsCleanup)
  end.
Proof.
  intros Hd. unfold start.
  pose proof (run_until_failure_log c (start_command_plan (co_desktop c)) (start_plan_starts _)) as H.
  destruct (run_until_failure c _) as [c1 [x|e]]; destruct H as (Hd1 & Hr & H).
  - split; [done|]. rewrite applied_set. split; [done|]. intros u Hu. cbn in Hu |- *.
    rewrite Hd1 in Hu. apply H; [done|]. by apply start_plan_units.
  - pose proof (stop_all_spec (set_applied c1 NeedsCleanup)) as Hs.
    destruct (stop_all_locked _) as [c2 [y|e']]; destruct Hs as (Hd2 & Hg & Hs);
      (split; [by rewrite Hd2|]); (split; [done|]); [by left|by right].
Qed.

Definition wanted_state (d : DesktopSession) (desired_running : bool) : AppliedState :=
  if bool_decide (d = SesUnsupported) then Stopped else if desired_running then Running else Stopped.

Lemma reconcile_truthful c desired :
  applied_truthful c →
  let '(c', outcome) := reconcile_session c desired in
  co_desktop c' = co_desktop c ∧ applied_truthful c' ∧
  match outcome with
  | Ok _ => applied_state c' = wanted_state (co_desktop c) desired
  | Err _ => applied_state c' ≠ Running ∧ cs_active_game (rt_state (co_runtime c')) = None
  end.
Proof.
  intros Ht. unfold reconcile_session, wanted_state.
  pose proof (stop_all_spec c) as Hs.
  case_bool_decide as Hd.
  - case_bool_decide as Ha.
    + destruct (stop_all_locked c) as [c1 [x|e]]; destruct Hs as (Hd1 & Hg & Hs).
      * split; [done|]. unfold applied_truthful. rewrite applied_set. split; [|done]. by destruct Hs.
      * split; [done|]. unfold applied_truthful. rewrite Hs. done.
    + split; [done|]. unfold applied_truthful in *. rewrite applied_set. split; [|done].
      destruct (applied_state c); [exact Ht|by destruct Ht|done].
  - assert (∀ c1, co_desktop c1 = co_desktop c → applied_truthful c1 → applied_state c1 ≠ NeedsCleanup →
      let '(c', outcome) := reconcile_supported c1 desired in
      co_desktop c' = co_desktop c ∧ applied_truthful c' ∧
      match outcome with
      | Ok _ => applied_state c' = if desired then Running else Stopped
      | Err _ => applied_state c' ≠ Running ∧ cs_active_game (rt_state (co_runtime c')) = None
      end) as Hsup.
    { intros c1 Hd1 Ht1 Hn. unfold reconcile_supported.
      destruct (applied_state c1) eqn:Ea, desired; try done.
      - assert (co_desktop c1 ≠ SesUnsupported) as Hne by congruence.
        pose proof (start_spec c1 Hne) as H. destruct (start c1) as [c2 [x|e]]; destruct H as [Hd2 H].
        + split; [congruence|]. destruct H as [E ?]. unfold applied_truthful. rewrite E.
          split; [|done]. split; [done|congruence].
        + split; [congruence|]. unfold applied_truthful.
          destruct H as [Hg [[E ?]|E]]; rewrite E; done.
      - pose proof (stop_all_spec c1) as H. destruct (stop_all_locked c1) as [c2 [x|e]];
          destruct H as (Hd2 & Hg & H); (split; [congruence|]); unfold applied_truthful.
        + destruct H as [E ?]. rewrite E. done.
        + rewrite H. done. }
    case_bool_decide as Ha.
    + destruct (stop_all_locked c) as [c1 [x|e]]; destruct Hs as (Hd1 & Hg & Hs).
      * destruct Hs as [E Hu]. apply Hsup; [done| |congruence]. unfold applied_truthful. by rewrite E.
      * split; [done|]. unfold applied_truthful. rewrite Hs. done.
    + by apply Hsup.
Qed.

(** The coordinators Core can have. *)
Inductive session_reachable : Coordinator → Prop :=
| session_new r d : session_reachable (coordinator_new r d)
| session_reconcile c desired : session_reachable c → session_reachable (fst (reconcile_session c desired))
| session_force_stop c : session_reachable c → session_reachable (fst (force_stop_all c))
| session_runtime c r : session_reachable c → session_reachable (c <| co_runtime := r |>).

Lemma session_reachable_truthful c : session_reachable c → applied_truthful c.
Proof.
  induction 1 as [r d|c desired _ IH|c _ IH|c r _ IH]; [done|..|done].
  - pose proof (reconcile_truthful c desired IH) as H.
    destruct (reconcile_session c desired) as [c' o]. by destruct H as (_ & ? & _).
  - unfold force_stop_all. pose proof (stop_all_spec c) as H.
    destruct (stop_all_locked c) as [c' [x|e]]; destruct H as (_ & _ & H); unfold applied_truthful; cbn.
    + destruct H as [E ?]. by rewrite E.
    + by rewrite H.
Qed.

(** Reconciling brings the session to the desired state or says it did
    not.  On success the applied state is the desired one - stopped on an
    unsupported desktop - and the last command of each of the session's units
    succeeded and put it there; on failure the state is never "running", no
    game is left on screen, and a stopped state still means stopped units. *)
Theorem reconcile_reaches_desired c desired :
  session_reachable c →
  let '(c', outcome) := reconcile_session c desired in
  match outcome with
  | Ok _ =>
      applied_state c' = wanted_state (co_desktop c) desired ∧
      all_units c' (bool_decide (applied_state c' = Running))
  | Err _ =>
      applied_state c' ≠ Running ∧ cs_active_game (rt_state (co_runtime c')) = None ∧
      (applied_state c' = Stopped → all_units c' false)
  end.
Proof.
  intros Hr%session_reachable_truthful. pose proof (reconcile_truthful c desired Hr) as H.
  destruct (reconcile_session c desired) as [c' [x|e]]; destruct H as (Hd & Ht & H).
  - split; [done|]. unfold applied_truthful in Ht. unfold wanted_state in H.
    destruct (applied_state c') eqn:E; cbn.
    + by rewrite bool_decide_eq_false_2.
    + rewrite bool_decide_eq_true_2 by done. by destruct Ht.
    + exfalso. revert H. case_bool_decide; [done|]. by destruct desired.
  - destruct H as [Hn Hg]. split_and!; [done..|]. intros E. unfold applied_truthful in Ht. by rewrite E in Ht.
Qed.

(** C7 The coordinator's loop only returns after reconciling to a stopped
    session: whatever it was asked to run and however it was told to end,
    success means every unit of the session was stopped by its last command,
    and failure still leaves nothing reported as running. *)
Theorem run_session_ends_stopped c desired inputs c' outcome :
  session_reachable c →
  run_session c desired inputs = (c', inr outcome) →
  match outcome with
  | Ok _ => applied_state c' = Stopped ∧ all_units c' false
  | Err _ => applied_state c' ≠ Running ∧ cs_active_game (rt_state (co_runtime c')) = None
  end.
Proof.
  revert c desired. induction inputs as [|input inputs IH]; intros c desired Hc; [done|].
  cbn [run_session]. pose proof (session_reconcile c desired Hc) as Hc1.
  destruct (reconcile_session c desired) as [c1 o1]; cbn [fst] in Hc1.
  assert (∀ o, (let '(c2, o2) := reconcile_session c1 false in (c2, inr o2)) = (c', inr o : bool + result error unit) →
    match o with
    | Ok _ => applied_state c' = Stopped ∧ all_units c' false
    | Err _ => applied_state c' ≠ Running ∧ cs_active_game (rt_state (co_runtime c')) = None
    end) as Hfin.
  { intros o. pose proof (reconcile_truthful c1 false (session_reachable_truthful _ Hc1)) as H.
    destruct (reconcile_session c1 false) as [c2 o2]. intros [= -> ->]. destruct H as (_ & Ht & H).
    destruct o; [|exact H]. unfold wanted_state in H. assert (applied_state c' = Stopped) as E
      by (revert H; by case_bool_decide). split; [done|]. unfold applied_truthful in Ht. by rewrite E in Ht. }
  intros H. destruct (li_shutdown input); [by apply Hfin|].
  destruct (li_desired input) as [|next|]; [|by apply (IH c1 next)|by apply Hfin].
  destruct (li_wait input) as [[]|[next|]|];
    [by apply Hfin|by apply (IH c1 desired)|by apply (IH c1 next)|by apply Hfin|by apply (IH c1 desired)].
Qed.
End coordinator.

(** A Hyprland session whose second unit fails to start, then the retry. *)
Definition sample_runner (log : list (SessionCommand * result error unit)) (command : SessionCommand) :
    result error unit :=
  if bool_decide (length log = 3%nat) then Err [lit "failed"] else Ok tt.
Definition sample_coordinator : Coordinator := coordinator_new runtime3 SesHyprland.

Lemma reconcile_reaches_desired_witness :
  session_reachable sample_runner sample_coordinator ∧
  snd (reconcile_session sample_runner sample_coordinator true) =
    Err [lit "failed to start session; cleanup completed"; lit "failed"] ∧
  applied_state (fst (reconcile_session sample_runner sample_coordinator true)) ≠ Running.
Proof.
  assert (session_reachable sample_runner sample_coordinator) as Hr by apply session_new.
  split; [exact Hr|]. split; [vm_compute; reflexivity|].
  pose proof (reconcile_reaches_desired sample_runner sample_coordinator true Hr) as H.
  destruct (reconcile_session sample_runner sample_coordinator true) as [c [x|e]] eqn:E.
  - exfalso. assert (is_ok (snd (reconcile_session sample_runner sample_coordinator true)) = false) as E'
      by (vm_compute; reflexivity). rewrite E in E'. discriminate E'.
  - exact (proj1 H).
Defined.

Definition sample_inputs : list loop_input :=
  [mkLoopInput false DesiredSame WaitRetry; mkLoopInput true DesiredSame WaitRetry].

Lemma run_session_ends_stopped_witness :
  ∃ c', session_reachable sample_runner sample_coordinator ∧
    run_session sample_runner sample_coordinator true sample_inputs = (c', inr (Ok tt)) ∧
    applied_state c' = Stopped ∧ all_units c' false.
Proof.
  assert (session_reachable sample_runner sample_coordinator) as Hr by apply session_new.
  set (p := run_session sample_runner sample_coordinator true sample_inputs).
  assert (snd p = inr (Ok tt)) as E by (vm_compute; reflexivity).
  exists (fst p). split; [exact Hr|].
  assert (p = (fst p, inr (Ok tt))) as Ep by (rewrite <- E; apply surjective_pairing).
  split; [exact Ep|].
  exact (run_session_ends_stopped sample_runner sample_coordinator true sample_inputs (fst p) (Ok tt) Hr Ep).
Defined.

(** * Desktop metadata *)

Lemma detect_kind_known detected tokens kind :
  detect_kind detected tokens = MetaKnown kind ↔
  (∀ token, token ∈ tokens → desktop_kind (trim token) = Some kind) ∧
  match detected with Some k => k = kind | None => tokens ≠ [] end.
Proof.
  revert detected. induction tokens as [|token tokens IH]; intros detected; cbn.
  { destruct detected as [k|]; [|naive_solver]. split; [intros [= ->]|intros [_ ->]; done].
    split; [by intros ? ?%not_elem_of_nil|done]. }
  destruct (desktop_kind (trim token)) as [k|] eqn:Ek.
  2: { split; [done|]. intros [H _]. rewrite (H token) in Ek by constructor. done. }
  assert (∀ k', (∀ t, t ∈ token :: tokens → desktop_kind (trim t) = Some k') ↔
    k = k' ∧ ∀ t, t ∈ tokens → desktop_kind (trim t) = Some k') as Hall.
  { intros k'. split.
    - intros H. split; [|intros t Ht; apply H; by constructor].
      specialize (H token ltac:(constructor)). congruence.
    - intros [-> H] t [->|Ht]%elem_of_cons; auto. }
  rewrite Hall. destruct detected as [k0|]; cbn.
  - case_bool_decide as Hk; cbn; [split; [done|naive_solver]|]. rewrite IH. naive_solver.
  - rewrite IH. naive_solver.
Qed.

(** A list of desktop names is recognised exactly when it is not blank, is
    at most 128 bytes and 8 names long, and every name - spaces trimmed, case
    ignored - is one of the same desktop; conflicting or unknown names make
    it invalid rather than half recognised. *)
Theorem desktop_metadata_unanimous raw kind :
  parse_desktop_metadata (Some raw) true = MetaKnown kind ↔
  trim raw ≠ [] ∧ str_len (trim raw) ≤ MAX_DESKTOP_METADATA_BYTES ∧
  (length (split 58 (trim raw)) ≤ MAX_DESKTOP_TOKENS)%nat ∧
  ∀ token, token ∈ split 58 (trim raw) → desktop_kind (trim token) = Some kind.
Proof.
  unfold parse_desktop_metadata. case_bool_decide as Hne; [naive_solver|].
  destruct (Z.ltb_spec MAX_DESKTOP_METADATA_BYTES (str_len (trim raw))); cbn [negb];
    [split; [done|intros (_ & ? & _); lia]|].
  rewrite length_take.
  destruct (Nat.ltb_spec MAX_DESKTOP_TOKENS
    ((MAX_DESKTOP_TOKENS + 1) `min` length (split 58 (trim raw)))) as [Hl|Hl].
  { split; [done|]. intros (_ & _ & ? & _). lia. }
  rewrite take_ge by lia. rewrite detect_kind_known.
  pose proof (split_nonempty 58 (trim raw)). split; intros; destruct_and?; split_and!; auto; lia.
Qed.
