(* ===== verification/Hyprland.v ===== *)
(** The Hyprland adapter ([crates/overcrow-hyprland/src]): decoding windows
    ([model.rs]), which window is reported to Core ([reconcile.rs]), keeping
    the overlay on the game ([geometry.rs]), and input focus ([bridge.rs]).

    JSON decoding and the sockets are I/O: the lists of windows, monitors and
    bindings are inputs and the commands are the texts to dispatch. *)

From S2P Require Import Prelude Text Timing Float Protocol Runtime.

(** * Windows *)

Record HyprWorkspace := mkHyprWorkspace { hws_id : Z; hws_name : str }.

Record HyprWindow := mkHyprWindow {
  hw_address : str;
  hw_mapped : bool;
  hw_hidden : bool;
  hw_at : Z * Z;
  hw_size : Z * Z;
  hw_monitor : Z;
  hw_class : str;
  hw_title : str;
  hw_pid : Z;
  hw_workspace : option HyprWorkspace;
  hw_tags : list str
}.

Record HyprMonitor := mkHyprMonitor {
  hm_id : Z;
  hm_scale : f64;
  hm_focused : bool;
  hm_active_workspace : option Z
}.

Definition positive_i32 (value : Z) : option Z :=
  opt_filter (λ value, (0 <? value) && isSome (try_from i32_min i32_max value))
    (try_from 0 u32_max value).

Definition window_rect (w : HyprWindow) : option Rect :=
  x ← try_from i32_min i32_max (fst (hw_at w));
  y ← try_from i32_min i32_max (snd (hw_at w));
  width ← positive_i32 (fst (hw_size w));
  height ← positive_i32 (snd (hw_size w));
  Some (mkRect x y width height).

(** [WindowAddress] wraps its text. *)
Definition parse_address (value : str) : option str :=
  digits ← strip_prefix (lit "0x") value;
  if bool_decide (digits = []) || (16 <? str_len digits) || negb (forallb is_ascii_hexdigit digits)
  then None else Some value.

Record WindowReport := mkWindowReport {
  wr_address : str;
  wr_pid : Z;
  wr_title : str;
  wr_app_id : str;
  wr_rect : Rect;
  wr_scale : f64;
  wr_workspace_id : Z
}.

Definition from_window (w : HyprWindow) (monitors : list HyprMonitor) : option WindowReport :=
  if negb (hw_mapped w) || hw_hidden w || bool_decide (hw_class w = []) then None
  else
    address ← parse_address (hw_address w);
    pid ← opt_filter (λ pid, 0 <? pid) (try_from i32_min i32_max (hw_pid w));
    rect ← window_rect w;
    scale ← hm_scale <$> find_first (λ m, hm_id m =? hw_monitor w) monitors;
    if negb (is_finite scale) || f_le scale f_zero then None
    else
      workspace_id ← opt_filter (λ id, 0 <? id) (hws_id <$> hw_workspace w);
      Some (mkWindowReport address pid (hw_title w) (hw_class w) rect scale workspace_id).

Definition is_overlay (r : WindowReport) : bool := str_eqb (wr_app_id r) OVERLAY_APP_ID.

(** * Reconciliation *)

(** [Reconciler] has its last reportable address as its one field. *)
Abbreviation reconciler := (option str).

Definition is_on_focused_workspace (report : WindowReport) (monitors : list HyprMonitor) : bool :=
  match List.filter hm_focused monitors with
  | [monitor] => is_some_and (λ id, id =? wr_workspace_id report) (hm_active_workspace monitor)
  | _ => false
  end.

Definition remembered_report (last : reconciler) (clients : list HyprWindow)
    (monitors : list HyprMonitor) : option WindowReport :=
  remembered ← last;
  opt_filter (λ candidate, is_on_focused_workspace candidate monitors)
    (opt_filter (λ candidate, negb (is_overlay candidate))
       (find_first (λ w, str_eqb (hw_address w) remembered) clients
          ≫= λ w, from_window w monitors)).

Definition reconcile_windows (last : reconciler) (active : option HyprWindow)
    (clients : list HyprWindow) (monitors : list HyprMonitor) (preserve_game : bool) :
    reconciler * option WindowReport :=
  let active_report :=
    active ← active;
    client ← find_first (λ client, str_eqb (hw_address client) (hw_address active)) clients;
    from_window client monitors in
  let '(last, report) :=
    if preserve_game then (last, remembered_report last clients monitors)
    else match active, active_report with
         | _, Some report =>
             if negb (is_overlay report) then (Some (wr_address report), Some report)
             else (last, remembered_report last clients monitors)
         | None, None => (last, remembered_report last clients monitors)
         | Some _, None => (last, None)
         end in
  match report with
  | None => (None, None)
  | Some report => (last, Some report)
  end.

(** * Geometry *)

Record LiveClient := mkLiveClient { lc_address : str; lc_rect : Rect; lc_workspace_id : Z }.

#[export] Instance LiveClient_eq_dec : EqDecision LiveClient.
Proof. solve_decision. Defined.

Record TrackedIdentity := mkTrackedIdentity { ti_pid : Z; ti_app_id : str; ti_address : str }.

#[export] Instance TrackedIdentity_eq_dec : EqDecision TrackedIdentity.
Proof. solve_decision. Defined.

Record GeometrySynchronizer := mkGeometrySynchronizer {
  gs_identity : option TrackedIdentity;
  gs_converged : option Rect;
  gs_last_dispatch : option (list str)
}.

#[export] Instance GeometrySynchronizer_eta : Eta GeometrySynchronizer := λ g,
  mkGeometrySynchronizer (gs_identity g) (gs_converged g) (gs_last_dispatch g).

Definition geometry_reset : GeometrySynchronizer * list str :=
  (mkGeometrySynchronizer None None None, []).

Definition live_client (w : HyprWindow) : option LiveClient :=
  if negb (hw_mapped w) || hw_hidden w then None
  else
    workspace_id ← hws_id <$> hw_workspace w;
    if workspace_id <=? 0 then None
    else
      address ← parse_address (hw_address w);
      rect ← window_rect w;
      Some (mkLiveClient address rect workspace_id).

Definition active_overlay (active : option HyprWindow) (overlays : list LiveClient) : option LiveClient :=
  active ← active;
  if negb (str_eqb (hw_class active) OVERLAY_APP_ID) then None
  else
    address ← parse_address (hw_address active);
    find_first (λ overlay, str_eqb (lc_address overlay) address) overlays.

Definition exact_geometry_commands (address : str) (rect : Rect) : list str :=
  [lit "dispatch resizewindowpixel exact " ++ show_Z (rect_width rect) ++ lit " "
     ++ show_Z (rect_height rect) ++ lit ",address:" ++ address;
   lit "dispatch movewindowpixel exact " ++ show_Z (rect_x rect) ++ lit " "
     ++ show_Z (rect_y rect) ++ lit ",address:" ++ address].

Definition overlay_follow_commands (overlay game : LiveClient) : list str :=
  [lit "dispatch movetoworkspacesilent " ++ show_Z (lc_workspace_id game) ++ lit ",address:"
     ++ lc_address overlay]
  ++ exact_geometry_commands (lc_address overlay) (lc_rect game)
  ++ [lit "dispatch alterzorder top,address:" ++ lc_address overlay].

Definition dispatch_once (g : GeometrySynchronizer) (commands : list str) :
    GeometrySynchronizer * list str :=
  if bool_decide (commands = []) || bool_decide (gs_last_dispatch g = Some commands) then (g, [])
  else (g <| gs_last_dispatch := Some commands |>, commands).

(** The windows that could be the game Core reports. *)
Definition game_candidate (pid : Z) (app_id : str) (w : HyprWindow) : bool :=
  hw_mapped w && negb (hw_hidden w) && (hw_pid w =? pid) && str_eqb (hw_class w) app_id
  && negb (str_eqb (hw_class w) OVERLAY_APP_ID).

Definition overlay_window (w : HyprWindow) : bool :=
  hw_mapped w && negb (hw_hidden w) && str_eqb (hw_class w) OVERLAY_APP_ID.

Definition same_place (a b : LiveClient) : bool :=
  bool_decide (lc_rect a = lc_rect b) && (lc_workspace_id a =? lc_workspace_id b).

(** The end of [commands], for the overlays of a tracked game. *)
Definition place_overlays (g : GeometrySynchronizer) (mode : OverlayMode) (active : option HyprWindow)
    (live_game : LiveClient) (overlays : list LiveClient) : GeometrySynchronizer * list str :=
  match overlays with
  | [] => (g <| gs_converged := None |> <| gs_last_dispatch := None |>, [])
  | _ =>
      if forallb (λ overlay, same_place overlay live_game) overlays
      then (g <| gs_converged := Some (lc_rect live_game) |> <| gs_last_dispatch := None |>, [])
      else
        let follow :=
          dispatch_once g
            (concat (map (λ overlay, overlay_follow_commands overlay live_game)
               (List.filter (λ overlay, negb (same_place overlay live_game)) overlays))) in
        if bool_decide (mode = Interactive)
           && bool_decide (gs_converged g = Some (lc_rect live_game)) then
          match active_overlay active overlays with
          | Some moved =>
              if (lc_workspace_id moved =? lc_workspace_id live_game)
                 && negb (bool_decide (lc_rect moved = lc_rect live_game))
                 && forallb (λ overlay, str_eqb (lc_address overlay) (lc_address moved)
                                        || same_place overlay live_game) overlays
              then dispatch_once g (exact_geometry_commands (lc_address live_game) (lc_rect moved))
              else follow
          | None => follow
          end
        else follow
  end.

Definition geometry_commands (g : GeometrySynchronizer) (snapshot : CoreSnapshot)
    (active : option HyprWindow) (clients : list HyprWindow) : GeometrySynchronizer * list str :=
  match cs_active_game snapshot with
  | None => geometry_reset
  | Some game =>
      match gw_pid game, gw_app_id game with
      | Some pid, Some app_id =>
          match List.filter (game_candidate pid app_id) clients with
          | [game_window] =>
              match live_client game_window with
              | None => geometry_reset
              | Some live_game =>
                  let identity := mkTrackedIdentity pid app_id (lc_address live_game) in
                  let g :=
                    if bool_decide (gs_identity g ≠ Some identity)
                    then mkGeometrySynchronizer (Some identity) None None else g in
                  place_overlays g (cs_overlay_mode snapshot) active live_game
                    (omap live_client (List.filter overlay_window clients))
              end
          | _ => geometry_reset
          end
      | _, _ => geometry_reset
      end
  end.

(** * Focus *)

Definition INTERACTIVE_TAG : str := lit "overcrow-interactive".
Definition GAME_INPUT_BLOCKED_TAG : str := lit "overcrow-game-input-blocked".

#[global] Arguments INTERACTIVE_TAG : simpl never.
#[global] Arguments GAME_INPUT_BLOCKED_TAG : simpl never.

Record FocusSyncState := mkFocusSyncState {
  fs_observed_mode : option OverlayMode;
  fs_interactive_focus_pending : bool;
  fs_passive_focus_pending : bool
}.

#[export] Instance FocusSyncState_eta : Eta FocusSyncState := λ s,
  mkFocusSyncState (fs_observed_mode s) (fs_interactive_focus_pending s) (fs_passive_focus_pending s).

Definition observe_mode (s : FocusSyncState) (mode : OverlayMode) : FocusSyncState :=
  if bool_decide (fs_observed_mode s = Some mode) then s
  else match mode with
       | Interactive => mkFocusSyncState (Some mode) true false
       | Passive =>
           mkFocusSyncState (Some mode) false (bool_decide (fs_observed_mode s = Some Interactive))
       end.

Record FocusPlan := mkFocusPlan { fp_commands : list str; fp_clear_core : bool }.
Record InteractionTargets := mkInteractionTargets { it_game : str; it_overlay : str }.

Definition untag_command (tag address : str) : str :=
  lit "dispatch tagwindow -" ++ tag ++ lit " address:" ++ address.
Definition tag_command (tag address : str) : str :=
  lit "dispatch tagwindow +" ++ tag ++ lit " address:" ++ address.
Definition focus_command (address : str) : str := lit "dispatch focuswindow address:" ++ address.

Definition has_tag (tag : str) (w : HyprWindow) : bool := existsb (str_eqb tag) (hw_tags w).

Definition reconcile_window_tag (clients : list HyprWindow) (tag : str) (intended : option str) :
    list str * bool :=
  let removals :=
    omap (λ w,
      address ← parse_address (hw_address w);
      if has_tag tag w && is_none_or (λ target, negb (str_eqb target address)) intended
      then Some (untag_command tag address) else None) clients in
  let target_has_tag :=
    is_some_and (λ address,
      is_some_and (has_tag tag) (find_first (λ w, str_eqb (hw_address w) address) clients)) intended in
  let addition :=
    match intended with
    | Some address => if negb target_has_tag then [tag_command tag address] else []
    | None => []
    end in
  (removals ++ addition, target_has_tag).

Definition unique_overlay_address (clients : list HyprWindow) : option str :=
  match List.filter overlay_window clients with
  | [overlay] => parse_address (hw_address overlay)
  | _ => None
  end.

Definition validated_game_address (clients : list HyprWindow) (snapshot : CoreSnapshot) : option str :=
  game ← cs_active_game snapshot;
  pid ← gw_pid game;
  app_id ← gw_app_id game;
  match List.filter (game_candidate pid app_id) clients with
  | [w] => parse_address (hw_address w)
  | _ => None
  end.

Definition interaction_targets (clients : list HyprWindow) (snapshot : CoreSnapshot) :
    option InteractionTargets :=
  game ← validated_game_address clients snapshot;
  overlay ← unique_overlay_address clients;
  Some (mkInteractionTargets game overlay).

(** The focus command of an interactive overlay whose tags are settled. *)
Definition interactive_focus (active : option HyprWindow) (targets : InteractionTargets)
    (s : FocusSyncState) : FocusSyncState * list str :=
  let overlay_focused := is_some_and (λ w, str_eqb (hw_address w) (it_overlay targets)) active in
  let game_focused := is_some_and (λ w, str_eqb (hw_address w) (it_game targets)) active in
  let can_take_focus := isNone active || game_focused in
  if negb overlay_focused && can_take_focus && (fs_interactive_focus_pending s || game_focused)
  then (s <| fs_interactive_focus_pending := false |>, [focus_command (it_overlay targets)])
  else (s, []).

Definition managed_tag (tag : str) : bool :=
  str_eqb tag INTERACTIVE_TAG || str_eqb tag GAME_INPUT_BLOCKED_TAG.

Definition passive_focus (clients : list HyprWindow) (snapshot : CoreSnapshot) (s : FocusSyncState) :
    FocusSyncState * list str :=
  let managed_tags_present := existsb (λ w, existsb managed_tag (hw_tags w)) clients in
  if bool_decide (cs_overlay_mode snapshot = Passive) && fs_passive_focus_pending s
     && negb managed_tags_present
  then (s <| fs_passive_focus_pending := false |>,
        match validated_game_address clients snapshot with
        | Some address => [focus_command address]
        | None => []
        end)
  else (s, []).

Definition focus_plan (clients : list HyprWindow) (active : option HyprWindow)
    (snapshot : CoreSnapshot) (s : FocusSyncState) : FocusSyncState * FocusPlan :=
  let targets :=
    if bool_decide (cs_overlay_mode snapshot = Interactive)
    then interaction_targets clients snapshot else None in
  let effective_mode := if isSome targets then Interactive else Passive in
  let s := observe_mode s effective_mode in
  let '(game_commands, game_tagged) :=
    reconcile_window_tag clients GAME_INPUT_BLOCKED_TAG (it_game <$> targets) in
  let '(overlay_commands, overlay_tagged) :=
    reconcile_window_tag clients INTERACTIVE_TAG (it_overlay <$> targets) in
  let commands := game_commands ++ overlay_commands in
  let '(s, focus) :=
    match targets with
    | Some targets =>
        if game_tagged && overlay_tagged && bool_decide (commands = [])
        then interactive_focus active targets s else (s, [])
    | None => passive_focus clients snapshot s
    end in
  (s, mkFocusPlan (commands ++ focus)
        (bool_decide (cs_overlay_mode snapshot = Interactive) && isNone targets)).

Definition cleanup_commands (clients : list HyprWindow) : list str :=
  concat (map (λ w,
    match parse_address (hw_address w) with
    | None => []
    | Some address =>
        omap (λ tag, if has_tag tag w then Some (untag_command tag address) else None)
          [GAME_INPUT_BLOCKED_TAG; INTERACTIVE_TAG]
    end) clients).

(** * Diagnostics and events *)

Record DiagnosticRateLimiter := mkDiagnosticRateLimiter {
  rl_interval : duration;
  rl_next : option instant;
  rl_suppressed : Z
}.

(** [instant_max] is the last representable instant of [checked_add]. *)
Definition admit_at (instant_max : instant) (l : DiagnosticRateLimiter) (now : instant) :
    DiagnosticRateLimiter * option Z :=
  if is_none_or (λ deadline, deadline <=? now) (rl_next l)
  then (mkDiagnosticRateLimiter (rl_interval l) (checked_add instant_max now (rl_interval l)) 0,
        Some (rl_suppressed l))
  else (mkDiagnosticRateLimiter (rl_interval l) (rl_next l)
          (saturating_add u64_max (rl_suppressed l) 1), None).

(** [line.split_once(">>")], its first part. *)
Fixpoint before_arrows (line : str) : option str :=
  match line with
  | 62 :: 62 :: _ => Some []
  | c :: line => cons c <$> before_arrows line
  | [] => None
  end.

Definition RECONCILIATION_EVENTS : list str :=
  [lit "workspace"; lit "workspacev2"; lit "focusedmon"; lit "focusedmonv2"; lit "activewindow";
   lit "activewindowv2"; lit "fullscreen"; lit "monitorremoved"; lit "monitorremovedv2";
   lit "monitoradded"; lit "monitoraddedv2"; lit "openwindow"; lit "closewindow"; lit "kill";
   lit "movewindow"; lit "movewindowv2"; lit "changefloatingmode"; lit "windowtitle";
   lit "windowtitlev2"; lit "configreloaded"; lit "pin"; lit "minimized"].

Definition is_reconciliation_event (line : str) : bool :=
  is_some_and (λ name, existsb (str_eqb name) RECONCILIATION_EVENTS) (before_arrows line).

(** * The bridge's calls *)

Abbreviation error := (list str).

(** What the bridge asks of Core. *)
Inductive core_call := CoreReport (report : WindowReport) | CoreClear.

Section bridge.
(** The replies of Core, and of Hyprland to a dispatched command. *)
Context (core : core_call → result error CoreSnapshot).
Context (dispatch : str → result error unit).

(** [queries] are the four concurrent reads, [Err] if one failed. *)
Definition reconcile_once (last : reconciler)
    (queries : result error (option HyprWindow * list HyprWindow * list HyprMonitor * CoreSnapshot)) :
    reconciler * list core_call * result error CoreSnapshot :=
  let '(last, calls, outcome) :=
    match queries with
    | Err e => (last, [], Err e)
    | Ok (active, clients, monitors, current) =>
        let preserve_game := bool_decide (cs_overlay_mode current = Interactive) in
        let '(last, report) := reconcile_windows last active clients monitors preserve_game in
        let call := match report with Some report => CoreReport report | None => CoreClear end in
        (last, [call], core call)
    end in
  match outcome with
  | Ok _ => (last, calls, outcome)
  | Err _ => (last, calls ++ [CoreClear], outcome)
  end.

(** Dispatch commands up to the first failure. *)
Fixpoint dispatch_all (commands : list str) : list str * result error unit :=
  match commands with
  | [] => ([], Ok tt)
  | command :: commands =>
      match dispatch command with
      | Ok _ => let '(sent, outcome) := dispatch_all commands in (command :: sent, outcome)
      | Err e => ([command], Err e)
      end
  end.

(** [snapshot] is Core's reply; without one the plan falls back to passive. *)
Definition sync_focus_once (s : FocusSyncState)
    (queries : result error (list HyprWindow * option HyprWindow))
    (snapshot : result error CoreSnapshot) :
    FocusSyncState * list str * list core_call * result error CoreSnapshot :=
  match queries with
  | Err e => (s, [], [], Err e)
  | Ok (clients, active) =>
      let desired := ok_or_default core_snapshot_default snapshot in
      let '(s, plan) := focus_plan clients active desired s in
      let '(sent, outcome) := dispatch_all (fp_commands plan) in
      match outcome with
      | Err e => (s, sent, [], Err e)
      | Ok _ =>
          if fp_clear_core plan then (s, sent, [CoreClear], core CoreClear)
          else (s, sent, [], snapshot)
      end
  end.

Definition sync_geometry_once (g : GeometrySynchronizer) (snapshot : CoreSnapshot)
    (queries : result error (option HyprWindow * list HyprWindow)) :
    GeometrySynchronizer * list str * result error unit :=
  if isNone (cs_active_game snapshot) then (g, [], Ok tt)
  else match queries with
       | Err e => (g, [], Err e)
       | Ok (active, clients) =>
           let '(g, commands) := geometry_commands g snapshot active clients in
           let '(sent, outcome) := dispatch_all commands in (g, sent, outcome)
       end.

(** * Reports *)

(** A report is of a listed window that Hyprland shows, and not the overlay. *)
Definition reportable (clients : list HyprWindow) (monitors : list HyprMonitor) (r : WindowReport) : Prop :=
  ∃ w, w ∈ clients ∧ from_window w monitors = Some r ∧ is_overlay r = false.

Lemma remembered_report_Some last clients monitors r :
  remembered_report last clients monitors = Some r →
  reportable clients monitors r ∧ is_on_focused_workspace r monitors = true ∧ last = Some (wr_address r).
Proof.
  unfold remembered_report. intros H. apply bind_Some in H as (a & -> & H).
  apply opt_filter_Some in H as [H Hw]. apply opt_filter_Some in H as [H Ho].
  apply bind_Some in H as (w & [Hin He]%find_first_Some & Hr). apply str_eqb_eq in He.
  split; [exists w; split_and!; [done..|by apply negb_true_iff]|]. split; [done|].
  unfold from_window in Hr. case_match; [done|]. apply bind_Some in Hr as (a' & Ha & Hr).
  repeat (apply bind_Some in Hr as (? & ? & Hr)). case_match; [done|].
  apply bind_Some in Hr as (? & _ & [= <-]). cbn. f_equal. rewrite <- He.
  unfold parse_address in Ha. apply bind_Some in Ha as (? & _ & Ha). case_match; congruence.
Qed.

(** Whatever Hyprland lists, a report is of a listed, visible window that
    is not the overlay.  While the overlay takes input it can only be the
    window reported last; a window that keeps being reported without focus is
    on the one focused workspace; and what is remembered is exactly the
    address just reported. *)
Theorem reconcile_windows_reports last active clients monitors preserve :
  let '(last', report) := reconcile_windows last active clients monitors preserve in
  last' = wr_address <$> report ∧
  ∀ r, report = Some r →
    reportable clients monitors r ∧
    (preserve = true → last = Some (wr_address r)) ∧
    ((∃ a w, active = Some a ∧ w ∈ clients ∧ hw_address w = hw_address a ∧
        from_window w monitors = Some r) ∨
     (is_on_focused_workspace r monitors = true ∧ last = Some (wr_address r))).
Proof.
  assert (∀ r, remembered_report last clients monitors = Some r →
    last = Some (wr_address r) ∧ reportable clients monitors r ∧
    (preserve = true → last = Some (wr_address r)) ∧
    ((∃ a w, active = Some a ∧ w ∈ clients ∧ hw_address w = hw_address a ∧
        from_window w monitors = Some r) ∨
     (is_on_focused_workspace r monitors = true ∧ last = Some (wr_address r)))) as Hrem.
  { intros r (? & ? & ?)%remembered_report_Some. auto 10. }
  assert (let '(last', report) :=
      match remembered_report last clients monitors with
      | None => (None, None) | Some report => (last, Some report) end in
    last' = wr_address <$> report ∧
    ∀ r, report = Some r → reportable clients monitors r ∧
      (preserve = true → last = Some (wr_address r)) ∧
      ((∃ a w, active = Some a ∧ w ∈ clients ∧ hw_address w = hw_address a ∧
        from_window w monitors = Some r) ∨
      (is_on_focused_workspace r monitors = true ∧ last = Some (wr_address r)))) as Hr.
  { destruct (remembered_report last clients monitors) as [r|]; [|done].
    destruct (Hrem r eq_refl) as [E ?]. split; [done|]. by intros ? [= <-]. }
  unfold reconcile_windows. destruct preserve; [exact Hr|].
  destruct active as [a|]; cbn [mbind option_bind]; [|exact Hr].
  destruct (find_first _ clients) as [w|] eqn:Ew; cbn [mbind option_bind]; [|done].
  destruct (from_window w monitors) as [r|] eqn:Er; [|done].
  destruct (is_overlay r) eqn:Eo; cbn [negb]; [exact Hr|].
  apply find_first_Some in Ew as [Hin He]. apply str_eqb_eq in He.
  split; [done|]. intros ? [= <-]. split; [by exists w|]. split; [done|]. left. by exists a, w.
Qed.

(** ** Geometry *)

Lemma dispatch_once_again g commands :
  let '(g', sent) := dispatch_once g commands in
  dispatch_once g' commands = (g', []) ∧ gs_identity g' = gs_identity g ∧
  gs_converged g' = gs_converged g ∧ (∀ c, c ∈ sent → c ∈ commands).
Proof.
  unfold dispatch_once. destruct (_ || _) eqn:E.
  - rewrite E. split_and!; try done. by intros ? ?%not_elem_of_nil.
  - cbn. split_and!; try done. by rewrite (bool_decide_eq_true_2 (Some commands = _)), orb_true_r.
Qed.

(** What a geometry command may be about: an overlay, or, in interactive mode
    only, the game following a moved overlay. *)
Definition geometry_target (mode : OverlayMode) (game : LiveClient) (overlays : list LiveClient)
    (c : str) : Prop :=
  (∃ overlay, overlay ∈ overlays ∧ same_place overlay game = false ∧
     c ∈ overlay_follow_commands overlay game) ∨
  (mode = Interactive ∧ ∃ moved, moved ∈ overlays ∧
     c ∈ exact_geometry_commands (lc_address game) (lc_rect moved)).

Lemma active_overlay_in active overlays o : active_overlay active overlays = Some o → o ∈ overlays.
Proof.
  unfold active_overlay. intros H. apply bind_Some in H as (a & _ & H). case_match; [done|].
  apply bind_Some in H as (x & _ & [? _]%find_first_Some). done.
Qed.

Lemma follow_targets mode game overlays c :
  c ∈ concat (map (λ overlay, overlay_follow_commands overlay game)
        (List.filter (λ overlay, negb (same_place overlay game)) overlays)) →
  geometry_target mode game overlays c.
Proof.
  intros Hc. left. apply list_elem_of_In, in_concat in Hc as (l & Hl & Hc).
  apply in_map_iff in Hl as (o & <- & [Ho Hp]%filter_In).
  exists o. apply list_elem_of_In in Ho, Hc. split_and!; [done| |done]. by apply negb_true_iff.
Qed.

Lemma place_overlays_spec g mode active game overlays :
  let '(g', commands) := place_overlays g mode active game overlays in
  place_overlays g' mode active game overlays = (g', []) ∧ gs_identity g' = gs_identity g ∧
  ∀ c, c ∈ commands → geometry_target mode game overlays c.
Proof.
  unfold place_overlays. destruct overlays as [|o os]; [split_and!; try done; by intros ? ?%not_elem_of_nil|].
  destruct (forallb _ (o :: os)); [split_and!; try done; by intros ? ?%not_elem_of_nil|].
  set (overlays := o :: os). set (follow := concat _).
  pose proof (dispatch_once_again g follow) as Hf.
  assert (∀ c, c ∈ follow → geometry_target mode game overlays c) as Hft by apply follow_targets.
  destruct (bool_decide (mode = Interactive)) eqn:Em; cbn [andb].
  2: { destruct (dispatch_once g follow) as [g' sent]. naive_solver. }
  apply bool_decide_eq_true in Em.
  destruct (bool_decide (gs_converged g = Some (lc_rect game))) eqn:Ec.
  2: { destruct (dispatch_once g follow) as [g' sent]. destruct Hf as (? & ? & Ec' & ?).
       rewrite Ec', Ec. naive_solver. }
  destruct (active_overlay active overlays) as [moved|] eqn:Ea.
  2: { destruct (dispatch_once g follow) as [g' sent]. destruct Hf as (? & ? & Ec' & ?).
       rewrite Ec', Ec. naive_solver. }
  destruct (_ && _).
  2: { destruct (dispatch_once g follow) as [g' sent]. destruct Hf as (? & ? & Ec' & ?).
       rewrite Ec', Ec. naive_solver. }
  pose proof (dispatch_once_again g (exact_geometry_commands (lc_address game) (lc_rect moved))) as He.
  destruct (dispatch_once g (exact_geometry_commands _ _)) as [g' sent]. destruct He as (? & ? & Ec' & Hin).
  rewrite Ec', Ec. split_and!; [done..|]. intros c Hc. right. split; [done|].
  exists moved. split; [by eapply active_overlay_in|auto].
Qed.
(** Asked twice about the same windows, the synchroniser has nothing more
    to say the second time; and what it dispatches is only ever about the one
    window that is the game Core confirmed: it moves overlays that are not on
    the game onto it or, in interactive mode, the game under a moved overlay. *)
Theorem geometry_commands_settle g snapshot active clients :
  let '(g', commands) := geometry_commands g snapshot active clients in
  geometry_commands g' snapshot active clients = (g', []) ∧
  ∀ c, c ∈ commands →
    ∃ game pid app_id w live,
      cs_active_game snapshot = Some game ∧ gw_pid game = Some pid ∧ gw_app_id game = Some app_id ∧
      List.filter (game_candidate pid app_id) clients = [w] ∧ live_client w = Some live ∧
      gs_identity g' = Some (mkTrackedIdentity pid app_id (lc_address live)) ∧
      geometry_target (cs_overlay_mode snapshot) live
        (omap live_client (List.filter overlay_window clients)) c.
Proof.
  unfold geometry_commands. destruct (cs_active_game snapshot) as [game|];
    [|split; [done|by intros ? ?%not_elem_of_nil]].
  destruct (gw_pid game) as [pid|] eqn:Ep, (gw_app_id game) as [app_id|] eqn:Ea;
    try (split; [done|by intros ? ?%not_elem_of_nil]).
  destruct (List.filter (game_candidate pid app_id) clients) as [|w [|w' ws]] eqn:Ew;
    try (split; [done|by intros ? ?%not_elem_of_nil]).
  destruct (live_client w) as [live|] eqn:El; [|split; [done|by intros ? ?%not_elem_of_nil]].
  set (identity := mkTrackedIdentity pid app_id (lc_address live)).
  set (g0 := if bool_decide _ then _ else _).
  assert (gs_identity g0 = Some identity) as Hid.
  { unfold g0. by case_bool_decide. }
  pose proof (place_overlays_spec g0 (cs_overlay_mode snapshot) active live
    (omap live_client (List.filter overlay_window clients))) as H.
  destruct (place_overlays g0 _ _ _ _) as [g' commands]. destruct H as (H1 & H2 & H3).
  split.
  - rewrite bool_decide_eq_false_2 by (rewrite H2, Hid; tauto). exact H1.
  - intros c Hc. exists game, pid, app_id, w, live.
    split_and!; [done..|by rewrite H2|by apply H3].
Qed.

(** ** Focus *)

Lemma tag_not_focus tag a b : tag_command tag a ≠ focus_command b ∧ untag_command tag a ≠ focus_command b.
Proof. unfold tag_command, untag_command, focus_command, lit. split; cbn; discriminate. Qed.

Lemma focus_command_inj a b : focus_command a = focus_command b → a = b.
Proof. unfold focus_command. apply app_inv_head. Qed.

(** Only [intended] carries the tag. *)
Definition tag_settled (clients : list HyprWindow) (tag address : str) : Prop :=
  (∃ w, w ∈ clients ∧ hw_address w = address ∧ has_tag tag w = true) ∧
  ∀ w a, w ∈ clients → parse_address (hw_address w) = Some a → has_tag tag w = true → a = address.

Lemma reconcile_window_tag_settled clients tag intended commands :
  reconcile_window_tag clients tag (Some intended) = (commands, true) → commands = [] →
  tag_settled clients tag intended.
Proof.
  unfold reconcile_window_tag. cbn. intros [= Hc Ht] ->. apply app_eq_nil in Hc as [Hc _].
  apply is_some_and_true in Ht as (w & Hw & Hhas). apply find_first_Some in Hw as [Hin He].
  apply str_eqb_eq in He. split; [by exists w|].
  intros v a Hv Ha Hv'. destruct (decide (a = intended)) as [|Hne]; [done|].
  assert (untag_command tag a ∈ ([] : list str)) as H; [|by apply not_elem_of_nil in H].
  rewrite <- Hc. apply list_elem_of_omap. exists v. split; [done|]. rewrite Ha. cbn.
  rewrite Hv'. cbn. by rewrite (proj2 (str_eqb_neq intended a)).
Qed.

Lemma reconcile_window_tag_no_focus clients tag intended b :
  focus_command b ∉ fst (reconcile_window_tag clients tag intended).
Proof.
  unfold reconcile_window_tag. cbn. intros [H|H]%elem_of_app.
  - apply list_elem_of_omap in H as (w & _ & H). apply bind_Some in H as (a & _ & H).
    case_match; [|done]. injection H as H. by apply (proj2 (tag_not_focus tag a b)).
  - destruct intended as [a|]; [|by apply not_elem_of_nil in H].
    case_match; [|by apply not_elem_of_nil in H].
    apply list_elem_of_singleton in H. symmetry in H. by apply (proj1 (tag_not_focus tag a b)).
Qed.

(** The bridge only ever takes input focus in two situations.  It focuses
    the overlay when Core's overlay is interactive, the game it confirmed and
    the one overlay are both found, exactly they carry their tags - so the
    game's input is already blocked - and nothing but the game has focus; it
    focuses the confirmed game after interactive mode ended and every tag is
    gone. *)
Theorem focus_plan_focus clients active snapshot s address :
  focus_command address ∈ fp_commands (snd (focus_plan clients active snapshot s)) →
  (cs_overlay_mode snapshot = Interactive ∧
   ∃ game, validated_game_address clients snapshot = Some game ∧
     unique_overlay_address clients = Some address ∧
     tag_settled clients GAME_INPUT_BLOCKED_TAG game ∧ tag_settled clients INTERACTIVE_TAG address ∧
     (∀ w, active = Some w → hw_address w = game ∧ hw_address w ≠ address)) ∨
  (cs_overlay_mode snapshot = Passive ∧ validated_game_address clients snapshot = Some address ∧
   ∀ w tag, w ∈ clients → tag ∈ hw_tags w → managed_tag tag = false).
Proof.
  unfold focus_plan. set (targets := if bool_decide _ then _ else _).
  set (s1 := observe_mode _ _).
  pose proof (reconcile_window_tag_no_focus clients GAME_INPUT_BLOCKED_TAG (it_game <$> targets) address) as Hn1.
  pose proof (reconcile_window_tag_no_focus clients INTERACTIVE_TAG (it_overlay <$> targets) address) as Hn2.
  destruct (reconcile_window_tag clients GAME_INPUT_BLOCKED_TAG _) as [c1 t1] eqn:E1.
  destruct (reconcile_window_tag clients INTERACTIVE_TAG _) as [c2 t2] eqn:E2. cbn [fst] in Hn1, Hn2.
  destruct targets as [tg|] eqn:Et; subst targets.
  - revert Et. case_bool_decide as Hm; [|done]. intros Et.
    unfold interaction_targets in Et. apply bind_Some in Et as (game & Hg & Et).
    apply bind_Some in Et as (overlay & Ho & [= <-]). cbn in E1, E2.
    destruct (t1 && t2 && bool_decide (c1 ++ c2 = [])) eqn:Ec.
    2: { cbn. rewrite app_nil_r. intros [?|?]%elem_of_app; done. }
    apply andb_true_iff in Ec as [[-> ->]%andb_true_iff Hnil%bool_decide_eq_true].
    apply app_eq_nil in Hnil as [-> ->]. unfold interactive_focus. cbn [it_overlay it_game].
    destruct (_ && _) eqn:Eb; cbn; [|by intros ?%not_elem_of_nil].
    intros H%list_elem_of_singleton. apply focus_command_inj in H as ->. left. split; [done|].
    exists game. split_and!; [done|done|by eapply reconcile_window_tag_settled|
      by eapply reconcile_window_tag_settled|].
    intros w ->. cbn in Eb. apply andb_true_iff in Eb as [[Hov Hga]%andb_true_iff _].
    split; [by apply str_eqb_eq|]. by apply str_eqb_neq, negb_true_iff.
  - unfold passive_focus. destruct (_ && _ && _) eqn:Eb; cbn.
    2: { rewrite app_nil_r. intros [?|?]%elem_of_app; done. }
    intros [[?|?]%elem_of_app|H]%elem_of_app; [done..|].
    apply andb_true_iff in Eb as [[Hm%bool_decide_eq_true _]%andb_true_iff Hmt%negb_true_iff].
    destruct (validated_game_address clients snapshot) as [a|] eqn:Ev; [|by apply not_elem_of_nil in H].
    apply list_elem_of_singleton in H. apply focus_command_inj in H as ->.
    right. split_and!; [done..|]. intros w tag Hw Htag. apply not_true_iff_false. intros Hman.
    apply not_true_iff_false in Hmt. apply Hmt. apply existsb_exists. exists w.
    split; [by apply list_elem_of_In|]. apply existsb_exists. exists tag.
    split; [by apply list_elem_of_In|done].
Qed.

(** Reconciliation fails safe: if reading the desktop or telling Core
    fails, the last thing asked of Core is to clear the game; otherwise Core
    is told exactly the one report, or to clear when there is none. *)
Theorem reconcile_once_fails_safe last queries :
  let '(last', calls, outcome) := reconcile_once last queries in
  match outcome with
  | Err _ => ∃ before, calls = before ++ [CoreClear]
  | Ok snapshot =>
      ∃ active clients monitors current,
        queries = Ok (active, clients, monitors, current) ∧
        let report := snd (reconcile_windows last active clients monitors
                             (bool_decide (cs_overlay_mode current = Interactive))) in
        calls = [match report with Some r => CoreReport r | None => CoreClear end]
  end.
Proof.
  unfold reconcile_once. destruct queries as [[[[active clients] monitors] current]|e].
  2: { by exists []. }
  destruct (reconcile_windows _ _ _ _ _) as [last' report] eqn:E.
  destruct (core _) as [snapshot|e] eqn:Ec; [|by eexists].
  exists active, clients, monitors, current. split; [done|]. by rewrite E.
Qed.
End bridge.

(** A game with its input blocked, the tagged overlay above it, and Core's
    interactive snapshot: the overlay gets the focus. *)
Definition sample_window (address class : str) (tag : str) : HyprWindow :=
  mkHyprWindow address true false (0, 0) (800, 600) 0 class class 20 (Some (mkHyprWorkspace 1 (lit "1"))) [tag].
Definition sample_clients : list HyprWindow :=
  [sample_window (lit "0x10") (lit "game") GAME_INPUT_BLOCKED_TAG;
   sample_window (lit "0x20") OVERLAY_APP_ID INTERACTIVE_TAG].
Definition sample_interactive : CoreSnapshot :=
  core_snapshot_default
    <| cs_active_game := Some (mkGameWindow (Some 20) None (Some (lit "game")) (lit "g")
         (mkRect 0 0 800 600) (f64_of_Z 1) (lit "hyprland")) |>
    <| cs_overlay_mode := Interactive |>.

Lemma focus_plan_focus_witness :
  let s := mkFocusSyncState None false false in
  focus_command (lit "0x20") ∈ fp_commands (snd (focus_plan sample_clients None sample_interactive s)) ∧
  ∃ game, validated_game_address sample_clients sample_interactive = Some game ∧
    tag_settled sample_clients GAME_INPUT_BLOCKED_TAG game.
Proof.
  intros s.
  assert (focus_command (lit "0x20")
    ∈ fp_commands (snd (focus_plan sample_clients None sample_interactive s))) as H.
  { apply (bool_decide_eq_true_1 (focus_command (lit "0x20")
      ∈ fp_commands (snd (focus_plan sample_clients None sample_interactive s)))).
    vm_compute. reflexivity. }
  split; [exact H|].
  destruct (focus_plan_focus sample_clients None sample_interactive s (lit "0x20") H)
    as [(_ & game & Hg & _ & Ht & _)|(Hm & _)].
  - exists game. split; [exact Hg|exact Ht].
  - discriminate Hm.
Defined.
