(* ===== verification/HyprShortcut.v ===== *)
(** The Hyprland shortcut adapter ([crates/overcrow-hyprland/src/shortcut.rs],
    and the callers of it in [bridge.rs]): keyboard bindings that forward a
    key to the desktop portal, installed and removed without ever touching a
    binding that is not OverCrow's own. *)

From S2P Require Import Prelude Text Timing Protocol Settings Hyprland.

(** * Data *)

Definition PORTAL_SHORTCUT_NAME := lit "com.playervox.OverCrow:toggle-overlay".
Definition LEGACY_PORTAL_SHORTCUT_NAME := lit ":toggle-overlay".
Definition BIND_DESCRIPTION := lit "OverCrow overlay".
Definition TOGGLE_PORTAL_ACTION := lit "com.playervox.OverCrow:toggle-manual-stopwatch".
Definition LEGACY_TOGGLE_PORTAL_ACTION := lit ":toggle-manual-stopwatch".
Definition TOGGLE_BIND_DESCRIPTION := lit "OverCrow manual stopwatch start or pause".
Definition RESET_PORTAL_ACTION := lit "com.playervox.OverCrow:reset-manual-stopwatch".
Definition LEGACY_RESET_PORTAL_ACTION := lit ":reset-manual-stopwatch".
Definition RESET_BIND_DESCRIPTION := lit "OverCrow manual stopwatch reset".

Definition META_MASK : Z := 64.
Definition CTRL_MASK : Z := 4.
Definition ALT_MASK : Z := 8.
Definition SHIFT_MASK : Z := 1.

Inductive ShortcutBackend := Lua | Compatibility.

Record ShortcutSpec := mkShortcutSpec {
  sp_keys : str;
  sp_key : str;
  sp_modmask : Z;
  sp_portal_action : str;
  sp_description : str
}.

#[export] Instance ShortcutSpec_eq_dec : EqDecision ShortcutSpec.
Proof. solve_decision. Defined.

Record HyprBinding := mkHyprBinding {
  hb_modmask : Z;
  hb_key : str;
  hb_description : str;
  hb_dispatcher : str;
  hb_arg : str
}.

#[export] Instance HyprBinding_eq_dec : EqDecision HyprBinding.
Proof. solve_decision. Defined.

Record GlobalShortcut := mkGlobalShortcut { gsc_name : str; gsc_description : str }.


(** * Specifications *)

Definition spec_modifier (part : str) : option (Z * str * Z) :=
  if str_eqb part (lit "Meta") then Some (0, lit "SUPER", META_MASK)
  else if str_eqb part (lit "Ctrl") then Some (1, lit "CTRL", CTRL_MASK)
  else if str_eqb part (lit "Alt") then Some (2, lit "ALT", ALT_MASK)
  else if str_eqb part (lit "Shift") then Some (3, lit "SHIFT", SHIFT_MASK)
  else None.

(** The loop over the modifiers: the mask and the rendered names. *)
Fixpoint parse_modifiers (modifiers : list str) (mask : Z) (rendered : list str)
    (previous_rank : option Z) : option (Z * list str) :=
  match modifiers with
  | [] => Some (mask, rendered)
  | modifier :: modifiers =>
      '(rank, name, bit) ← spec_modifier modifier;
      if is_some_and (λ previous, rank <=? previous) previous_rank then None
      else parse_modifiers modifiers (Z.lor mask bit) (rendered ++ [name]) (Some rank)
  end.

Definition plus_separator : str := lit " + ".

(** [[_]::join(" + ")]. *)
Fixpoint join_with (sep : str) (l : list str) : str :=
  match l with [] => [] | [s] => s | s :: l => s ++ sep ++ join_with sep l end.

Definition split_last {A} (l : list A) : option (A * list A) :=
  match reverse l with [] => None | x :: r => Some (x, reverse r) end.

(** [None] is the one error, "unsupported shortcut accelerator". *)
Definition parse_spec (accelerator portal_action description : str) : option ShortcutSpec :=
  let parts := split 43 accelerator in
  if (length parts <? 2)%nat then None
  else
    '(key, modifiers) ← split_last parts;
    match key with
    | [key_character] =>
        if negb (is_ascii_alphanumeric key_character) then None
        else
          '(mask, rendered) ← parse_modifiers modifiers 0 [] None;
          let key := [ascii_upper key_character] in
          Some (mkShortcutSpec (join_with plus_separator (rendered ++ [key])) key mask
                  portal_action description)
    | _ => None
    end.

Definition spec_from_settings (settings : ShortcutSettings) : option (option ShortcutSpec) :=
  if negb (ss_enabled settings) then Some None
  else Some <$> parse_spec (ss_accelerator settings) PORTAL_SHORTCUT_NAME BIND_DESCRIPTION.

Definition manual_stopwatch_specs : option (list ShortcutSpec) :=
  toggle ← parse_spec (lit "Meta+Alt+P") TOGGLE_PORTAL_ACTION TOGGLE_BIND_DESCRIPTION;
  reset ← parse_spec (lit "Meta+Alt+R") RESET_PORTAL_ACTION RESET_BIND_DESCRIPTION;
  Some [toggle; reset].

Definition known_identities : list (str * str * str) :=
  [(PORTAL_SHORTCUT_NAME, LEGACY_PORTAL_SHORTCUT_NAME, BIND_DESCRIPTION);
   (TOGGLE_PORTAL_ACTION, LEGACY_TOGGLE_PORTAL_ACTION, TOGGLE_BIND_DESCRIPTION);
   (RESET_PORTAL_ACTION, LEGACY_RESET_PORTAL_ACTION, RESET_BIND_DESCRIPTION)].

Definition known_binding_identity (b : HyprBinding) : option (str * str) :=
  find_map (λ '(action, legacy_action, description),
    then_some ((str_eqb (hb_arg b) action || str_eqb (hb_arg b) legacy_action)
               && str_eqb (hb_description b) description) (action, description)) known_identities.

Definition legacy_portal_action (action : str) : option str :=
  if str_eqb action PORTAL_SHORTCUT_NAME then Some LEGACY_PORTAL_SHORTCUT_NAME
  else if str_eqb action TOGGLE_PORTAL_ACTION then Some LEGACY_TOGGLE_PORTAL_ACTION
  else if str_eqb action RESET_PORTAL_ACTION then Some LEGACY_RESET_PORTAL_ACTION
  else None.

Definition mask_names : list (Z * str) :=
  [(META_MASK, lit "SUPER"); (CTRL_MASK, lit "CTRL"); (ALT_MASK, lit "ALT"); (SHIFT_MASK, lit "SHIFT")].

(** The names of the modifiers a mask holds. *)
Definition rendered_mask (mask : Z) : list str :=
  omap (λ '(bit, name), then_some (negb (Z.land mask bit =? 0)) name) mask_names.

Definition supported_mask : Z := Z.lor (Z.lor (Z.lor META_MASK CTRL_MASK) ALT_MASK) SHIFT_MASK.

Definition from_owned_binding (b : HyprBinding) : option ShortcutSpec :=
  if negb (str_eqb (hb_dispatcher b) (lit "global")) then None
  else
    '(portal_action, description) ← known_binding_identity b;
    match hb_key b with
    | [key_character] =>
        if negb (is_ascii_alphanumeric key_character) then None
        else if (hb_modmask b =? 0)
             || negb (Z.land (hb_modmask b) (Z.land u32_max (Z.lnot supported_mask)) =? 0)
        then None
        else
          let key := [ascii_upper key_character] in
          Some (mkShortcutSpec (join_with plus_separator (rendered_mask (hb_modmask b) ++ [key]))
                  key (hb_modmask b) portal_action description)
    | _ => None
    end.

Definition compatibility_modifiers (s : ShortcutSpec) : str :=
  join_with (lit " ") (rendered_mask (sp_modmask s)).

Definition bind_request_for_action (s : ShortcutSpec) (backend : ShortcutBackend) (action : str) : str :=
  match backend with
  | Lua =>
      lit "eval hl.bind(" ++ [34] ++ sp_keys s ++ [34] ++ lit ", hl.dsp.global(" ++ [34] ++ action
        ++ [34] ++ lit "), { description = " ++ [34] ++ sp_description s ++ [34] ++ lit " })"
  | Compatibility =>
      lit "keyword bindd " ++ compatibility_modifiers s ++ lit ", " ++ sp_key s ++ lit ", "
        ++ sp_description s ++ lit ", global, " ++ action
  end.

Definition bind_request (s : ShortcutSpec) (backend : ShortcutBackend) : str :=
  bind_request_for_action s backend (sp_portal_action s).

Definition unbind_request (s : ShortcutSpec) (backend : ShortcutBackend) : str :=
  match backend with
  | Lua => lit "eval hl.unbind(" ++ [34] ++ sp_keys s ++ [34] ++ lit ")"
  | Compatibility => lit "keyword unbind " ++ compatibility_modifiers s ++ lit ", " ++ sp_key s
  end.

Definition matches_accelerator (s : ShortcutSpec) (b : HyprBinding) : bool :=
  (hb_modmask b =? sp_modmask s) && str_eqb (hb_key b) (sp_key s).

Definition owns_action (s : ShortcutSpec) (b : HyprBinding) (action : str) : bool :=
  matches_accelerator s b && str_eqb (hb_description b) (sp_description s)
  && str_eqb (hb_dispatcher b) (lit "global") && str_eqb (hb_arg b) action.

Definition owns (s : ShortcutSpec) (b : HyprBinding) : bool :=
  owns_action s b (sp_portal_action s)
  || is_some_and (owns_action s b) (legacy_portal_action (sp_portal_action s)).

Definition advertised_portal_action (s : ShortcutSpec) (globals : list GlobalShortcut) : option str :=
  if existsb (λ g, str_eqb (gsc_name g) (sp_portal_action s)) globals then Some (sp_portal_action s)
  else opt_filter (λ action, existsb (λ g, str_eqb (gsc_name g) action) globals)
         (legacy_portal_action (sp_portal_action s)).

(** * The reconciler *)

Inductive ReconcileState := RsUnknown | RsAbsent | RsOwned | RsConflict.

#[export] Instance ReconcileState_eq_dec : EqDecision ReconcileState.
Proof. solve_decision. Defined.

Inductive ShortcutDecision :=
| DecIdle
| DecWaitForPortal
| DecBind (request : str)
| DecUnbind (request : str)
| DecConflict
| DecAmbiguousOwnership.

Record ShortcutReconciler := mkShortcutReconciler {
  sr_spec : ShortcutSpec;
  sr_backend : ShortcutBackend;
  sr_state : ReconcileState;
  sr_last_desired : option bool;
  sr_warning_reported : bool
}.

#[export] Instance ShortcutReconciler_eta : Eta ShortcutReconciler := λ r,
  mkShortcutReconciler (sr_spec r) (sr_backend r) (sr_state r) (sr_last_desired r)
    (sr_warning_reported r).

Definition shortcut_reconciler_new (spec : ShortcutSpec) (backend : ShortcutBackend) : ShortcutReconciler :=
  mkShortcutReconciler spec backend RsUnknown None false.

Definition invalidate (r : ShortcutReconciler) : ShortcutReconciler := r <| sr_state := RsUnknown |>.

Definition settle (r : ShortcutReconciler) (s : ReconcileState) : ShortcutReconciler :=
  r <| sr_state := s |> <| sr_warning_reported := false |>.
Definition mark_bound (r : ShortcutReconciler) : ShortcutReconciler := settle r RsOwned.
Definition mark_unbound (r : ShortcutReconciler) : ShortcutReconciler := settle r RsAbsent.

Definition take_warning (r : ShortcutReconciler) : ShortcutReconciler * bool :=
  if negb (bool_decide (sr_state r = RsConflict)) || sr_warning_reported r then (r, false)
  else (r <| sr_warning_reported := true |>, true).

Definition observe_desired (r : ShortcutReconciler) (desired : bool) : ShortcutReconciler :=
  if bool_decide (sr_last_desired r ≠ Some desired)
  then r <| sr_last_desired := Some desired |> <| sr_state := RsUnknown |>
         <| sr_warning_reported := false |>
  else r.

Definition needs_probe (r : ShortcutReconciler) (desired : bool) : ShortcutReconciler * bool :=
  let r := observe_desired r desired in
  (r, negb match desired, sr_state r with
           | true, (RsOwned | RsConflict) => true
           | false, (RsAbsent | RsConflict) => true
           | _, _ => false
           end).

Definition count {A} (p : A → bool) (l : list A) : nat := length (List.filter p l).

(** [plan], where the shortcut is not wanted, or its action not offered. *)
Definition plan_release (r : ShortcutReconciler) (desired : bool) (owned_count foreign_count : nat) :
    ShortcutReconciler * ShortcutDecision :=
  match owned_count, foreign_count with
  | O, _ => (settle r RsAbsent, if desired then DecWaitForPortal else DecIdle)
  | S O, O => (settle r RsOwned, DecUnbind (unbind_request (sr_spec r) (sr_backend r)))
  | _, _ => (r <| sr_state := RsConflict |>, DecAmbiguousOwnership)
  end.

Definition plan (r : ShortcutReconciler) (desired : bool) (globals : list GlobalShortcut)
    (bindings : list HyprBinding) : ShortcutReconciler * ShortcutDecision :=
  let advertised_action := advertised_portal_action (sr_spec r) globals in
  let effective_desired := desired && isSome advertised_action in
  let r := observe_desired r effective_desired in
  if effective_desired && bool_decide (sr_state r = RsConflict) then (r, DecConflict)
  else
    let matching := List.filter (matches_accelerator (sr_spec r)) bindings in
    let owned_count := count (owns (sr_spec r)) matching in
    let foreign_count := (length matching - owned_count)%nat in
    if negb effective_desired then plan_release r desired owned_count foreign_count
    else match advertised_action with
         | None => (r <| sr_state := RsAbsent |>, DecWaitForPortal)
         | Some advertised_action =>
             let desired_owned_count :=
               count (λ b, owns_action (sr_spec r) b advertised_action) matching in
             if ((desired_owned_count =? 1) && (owned_count =? 1) && (foreign_count =? 0))%nat
             then (settle r RsOwned, DecIdle)
             else if ((desired_owned_count =? 0) && (owned_count =? 1) && (foreign_count =? 0))%nat
             then (settle r RsOwned, DecUnbind (unbind_request (sr_spec r) (sr_backend r)))
             else match matching with
                  | _ :: _ => (r <| sr_state := RsConflict |>, DecConflict)
                  | [] =>
                      (r <| sr_warning_reported := false |>,
                       DecBind (bind_request_for_action (sr_spec r) (sr_backend r) advertised_action))
                  end
         end.


(** * The bridge's use of the reconcilers *)

(** What a step of the bridge does: requests sent, warnings printed. *)
Inductive warning := WarnConflict (keys : str) | WarnAmbiguous (keys : str).

Section bridge.
(** Hyprland's reply to a dispatched request. *)
Context (dispatch : str → result str unit).

(** One reconciler of [sync_shortcuts_once] that needs a probe. *)
Definition sync_shortcut (r : ShortcutReconciler) (desired : bool) (globals : list GlobalShortcut)
    (bindings : list HyprBinding) : ShortcutReconciler * list str * list warning * result str unit :=
  let '(r, decision) := plan r desired globals bindings in
  match decision with
  | DecBind request =>
      match dispatch request with
      | Ok _ => (mark_bound r, [request], [], Ok tt)
      | Err e => (r, [request], [], Err e)
      end
  | DecUnbind request =>
      match dispatch request with
      | Ok _ => (mark_unbound r, [request], [], Ok tt)
      | Err e => (r, [request], [], Err e)
      end
  | DecConflict =>
      let '(r, warn) := take_warning r in
      (r, [], if warn then [WarnConflict (sp_keys (sr_spec r))] else [], Ok tt)
  | DecAmbiguousOwnership =>
      let '(r, warn) := take_warning r in
      (r, [], if warn then [WarnAmbiguous (sp_keys (sr_spec r))] else [], Ok tt)
  | DecIdle | DecWaitForPortal => (r, [], [], Ok tt)
  end.

(** The loop over the reconcilers and their probes; a failed request ends it. *)
Fixpoint sync_shortcuts_loop (probed : list (ShortcutReconciler * bool)) (desired : bool)
    (globals : list GlobalShortcut) (bindings : list HyprBinding) :
    list ShortcutReconciler * list str * list warning * result str unit :=
  match probed with
  | [] => ([], [], [], Ok tt)
  | (r, probe) :: probed =>
      let '(r, sent, warned, outcome) :=
        if probe then sync_shortcut r desired globals bindings else (r, [], [], Ok tt) in
      match outcome with
      | Err e => (r :: map fst probed, sent, warned, Err e)
      | Ok _ =>
          let '(rs, sent', warned', outcome) := sync_shortcuts_loop probed desired globals bindings in
          (r :: rs, sent ++ sent', warned ++ warned', outcome)
      end
  end.

(** [queries] are the two concurrent reads, made only when some reconciler
    needs them. *)
Definition sync_shortcuts_once (snapshot : CoreSnapshot)
    (queries : result str (list GlobalShortcut * list HyprBinding))
    (reconcilers : list ShortcutReconciler) :
    list ShortcutReconciler * list str * list warning * result str unit :=
  let desired := isSome (cs_active_game snapshot) in
  let probed := map (λ r, needs_probe r desired) reconcilers in
  if forallb (λ p, negb (snd p)) probed then (map fst probed, [], [], Ok tt)
  else match queries with
       | Err e => (map fst probed, [], [], Err e)
       | Ok (globals, bindings) => sync_shortcuts_loop probed desired globals bindings
       end.

(** The loop of [cleanup_shortcut_state_with]; [processed] is the set of
    accelerators already looked at. *)
Fixpoint cleanup_shortcuts_loop (todo : list HyprBinding) (backend : ShortcutBackend)
    (bindings : list HyprBinding) (processed : list (Z * str)) : list str * result str unit :=
  match todo with
  | [] => ([], Ok tt)
  | binding :: todo =>
      match from_owned_binding binding with
      | None => cleanup_shortcuts_loop todo backend bindings processed
      | Some spec =>
          let identity := (sp_modmask spec, sp_key spec) in
          if bool_decide (identity ∈ processed)
          then cleanup_shortcuts_loop todo backend bindings processed
          else
            let processed := identity :: processed in
            match List.filter (matches_accelerator spec) bindings with
            | [candidate] =>
                if owns spec candidate
                then match dispatch (unbind_request spec backend) with
                     | Err e => ([unbind_request spec backend], Err e)
                     | Ok _ =>
                         let '(sent, outcome) :=
                           cleanup_shortcuts_loop todo backend bindings processed in
                         (unbind_request spec backend :: sent, outcome)
                     end
                else cleanup_shortcuts_loop todo backend bindings processed
            | _ => cleanup_shortcuts_loop todo backend bindings processed
            end
      end
  end.

Definition cleanup_shortcut_state_with (backend : result str ShortcutBackend)
    (bindings : result str (list HyprBinding)) : list str * result str unit :=
  match backend with
  | Err e => ([], Err e)
  | Ok backend =>
      match bindings with
      | Err e => ([], Err e)
      | Ok bindings => cleanup_shortcuts_loop bindings backend bindings []
      end
  end.
End bridge.

(** * Specifications and bindings *)

Definition spec_name (m : str) : str := default [] (snd ∘ fst <$> spec_modifier m).
Definition spec_bit (m : str) : Z := default 0 (snd <$> spec_modifier m).

Lemma spec_modifier_rank m :
  spec_modifier m = (λ r, (r, spec_name m, spec_bit m)) <$> modifier_rank m.
Proof. unfold spec_name, spec_bit, spec_modifier, modifier_rank. by repeat case_match. Qed.

Definition spec_mask (mods : list str) (mask : Z) : Z :=
  fold_left (λ mask m, Z.lor mask (spec_bit m)) mods mask.

Lemma parse_modifiers_spec mods mask rendered prev r :
  parse_modifiers mods mask rendered prev = Some r ↔
  rank_chain prev mods ∧ r = (spec_mask mods mask, rendered ++ (spec_name <$> mods)).
Proof.
  revert mask rendered prev. induction mods as [|m mods IH]; intros mask rendered prev.
  - cbn. rewrite app_nil_r. naive_solver.
  - cbn [parse_modifiers rank_chain]. rewrite spec_modifier_rank.
    destruct (modifier_rank m) as [rank|]; cbn [fmap option_fmap option_map mbind option_bind];
      [|naive_solver].
    destruct (is_some_and _ prev) eqn:Hp.
    { split; [done|]. intros [(? & [= <-] & ? & _) _]. congruence. }
    rewrite IH. cbn [fmap list_fmap]. rewrite <- app_assoc. cbn [app].
    split; intros [Hr ->]; split; [by exists rank|done|by destruct Hr as (? & [= <-] & _ & ?)|done].
Qed.

Lemma split_last_snoc {A} (l : list A) x : split_last (l ++ [x]) = Some (x, l).
Proof. unfold split_last. rewrite reverse_app, reverse_singleton. cbn [app]. by rewrite reverse_involutive. Qed.

(** The specification of a selection of modifiers and a key. *)
Definition spec_of (mods : list str) (c : char) (action description : str) : ShortcutSpec :=
  mkShortcutSpec (join_with plus_separator ((spec_name <$> mods) ++ [[ascii_upper c]]))
    [ascii_upper c] (spec_mask mods 0) action description.

Lemma parse_spec_parts mods key action description s :
  43 ∉ key → Forall (λ p, 43 ∉ p) mods →
  parse_spec (join 43 (mods ++ [key])) action description = Some s ↔
  mods ≠ [] ∧ mods `sublist_of` canonical_modifiers ∧
  ∃ c, key = [c] ∧ is_ascii_alphanumeric c = true ∧ s = spec_of mods c action description.
Proof.
  intros Hk Hm. unfold parse_spec.
  rewrite split_join; [|by destruct mods|apply Forall_app_2; [done|by constructor]].
  rewrite split_last_snoc, length_app. cbn [length mbind option_bind].
  destruct mods as [|m mods]; [cbn; naive_solver|].
  replace (length (m :: mods) + 1 <? 2)%nat with false by (symmetry; apply Nat.ltb_ge; cbn; lia).
  set (ms := m :: mods) in *.
  destruct key as [|c [|]]; try (split; [done|by intros (_ & _ & ? & [=] & _)]).
  destruct (is_ascii_alphanumeric c) eqn:Hc; cbn [negb];
    [|split; [done|intros (_ & _ & ? & [= <-] & ? & _); congruence]].
  rewrite <- (drop_0 canonical_modifiers), <- (rank_chain_sublist None 0) by done.
  destruct (parse_modifiers ms 0 [] None) as [[mask rendered]|] eqn:E; cbn [mbind option_bind].
  - apply parse_modifiers_spec in E as [Hr [= -> ->]]. cbn [app].
    split; [intros [= <-]|intros (_ & _ & c' & [= <-] & _ & ->)]; [|done].
    split_and!; [done..|]. by exists c.
  - split; [done|]. intros (_ & Hr & _). exfalso.
    pose proof (proj2 (parse_modifiers_spec ms 0 [] None _) (conj Hr eq_refl)). congruence.
Qed.

(** A settings accelerator has a Hyprland specification exactly when settings
    validation accepts it: its modifiers in their order and its key. *)
Lemma parse_spec_iff accelerator action description s :
  parse_spec accelerator action description = Some s ↔
  ∃ mods c, mods ≠ [] ∧ mods `sublist_of` canonical_modifiers ∧ is_ascii_alphanumeric c = true ∧
    accelerator = join 43 (mods ++ [[c]]) ∧ s = spec_of mods c action description.
Proof.
  split.
  - intros H. destruct (exists_last (split_nonempty 43 accelerator)) as (ms & part & E).
    pose proof (split_no_sep 43 accelerator) as Hn. rewrite E in Hn.
    apply Forall_app in Hn as [Hm Hk%Forall_inv].
    rewrite <- (join_split 43 accelerator), E in H.
    apply parse_spec_parts in H as (? & ? & c & -> & ? & ->); [|done..].
    exists ms, c. split_and!; try done. rewrite <- E. symmetry. apply join_split.
  - intros (mods & c & ? & ? & ? & -> & ->).
    apply parse_spec_parts; [by apply alphanumeric_not_plus|by apply sublist_modifier_no_plus|].
    naive_solver.
Qed.

Fixpoint sublists {A} (l : list A) : list (list A) :=
  match l with [] => [[]] | x :: l => sublists l ++ map (cons x) (sublists l) end.

Lemma sublists_complete {A} (k l : list A) : k `sublist_of` l → k ∈ sublists l.
Proof.
  induction 1 as [|x k l _ IH|x k l _ IH]; cbn; [constructor| |].
  - apply elem_of_app. right. by apply list_elem_of_fmap_2.
  - apply elem_of_app. by left.
Qed.

Lemma sublist_modifiers_mask mods :
  mods `sublist_of` canonical_modifiers → mods ≠ [] →
  rendered_mask (spec_mask mods 0) = spec_name <$> mods ∧ spec_mask mods 0 ≠ 0 ∧
  Z.land (spec_mask mods 0) (Z.land u32_max (Z.lnot supported_mask)) = 0.
Proof.
  intros Hs Hne. apply sublists_complete in Hs.
  assert (Forall (λ mods, mods ≠ [] →
    rendered_mask (spec_mask mods 0) = spec_name <$> mods ∧ spec_mask mods 0 ≠ 0 ∧
    Z.land (spec_mask mods 0) (Z.land u32_max (Z.lnot supported_mask)) = 0)
    (sublists canonical_modifiers)) as Hf.
  { refine (bool_decide_unpack _ _). by vm_compute. }
  rewrite Forall_forall in Hf. by apply Hf.
Qed.

Lemma upper_alphanumeric c :
  is_ascii_alphanumeric c = true →
  is_ascii_alphanumeric (ascii_upper c) = true ∧ ascii_upper (ascii_upper c) = ascii_upper c.
Proof.
  unfold ascii_upper, is_ascii_alphanumeric, is_ascii_alphabetic, is_ascii_upper, is_ascii_lower,
    is_ascii_digit. intros H. repeat case_match; split; bools; lia.
Qed.

(** The binding Hyprland holds after a bind request for an action. *)
Definition installed (s : ShortcutSpec) (action : str) : HyprBinding :=
  mkHyprBinding (sp_modmask s) (sp_key s) (sp_description s) (lit "global") action.

Lemma str_eqb_refl (a : str) : str_eqb a a = true.
Proof. by apply str_eqb_eq. Qed.

Lemma known_identity_find action legacy description arg mask key :
  (action, legacy, description) ∈ known_identities → arg = action ∨ arg = legacy →
  known_binding_identity (mkHyprBinding mask key description (lit "global") arg) =
    Some (action, description) ∧
  legacy_portal_action action = Some legacy.
Proof.
  unfold known_identities. rewrite !elem_of_cons. intros Hin Harg.
  destruct Hin as [E|[E|[E|[]%not_elem_of_nil]]]; simplify_eq; destruct Harg as [-> | ->];
    split; vm_compute; reflexivity.
Qed.

Lemma owns_installed s action :
  action = sp_portal_action s ∨ legacy_portal_action (sp_portal_action s) = Some action →
  matches_accelerator s (installed s action) = true ∧ owns s (installed s action) = true.
Proof.
  intros Ha. unfold owns, owns_action, matches_accelerator. cbn.
  rewrite Z.eqb_refl, !str_eqb_refl. cbn. split; [done|].
  destruct Ha as [-> | ->]; cbn; by rewrite str_eqb_refl, ?orb_true_r.
Qed.

(** What the adapter installs it can recognise and remove: the binding that
    a parsed accelerator asks Hyprland for, under the action's current or
    legacy portal name, is read back as the same specification and is owned
    by it. *)
Theorem shortcut_spec_roundtrip accelerator action legacy description arg s
    (Hparse : parse_spec accelerator action description = Some s)
    (Hknown : (action, legacy, description) ∈ known_identities)
    (Harg : arg = action ∨ arg = legacy) :
  from_owned_binding (installed s arg) = Some s ∧ owns s (installed s arg) = true.
Proof.
  apply parse_spec_iff in Hparse as (mods & c & Hne & Hs & Hc & _ & ->).
  destruct (known_identity_find action legacy description arg (spec_mask mods 0) [ascii_upper c] Hknown Harg)
    as [Hid Hleg].
  split; [|apply owns_installed; cbn; destruct Harg; subst; auto].
  unfold from_owned_binding, installed, spec_of. cbn [sp_modmask sp_key sp_description hb_dispatcher].
  rewrite Hid. cbn [hb_key hb_modmask mbind option_bind].
  destruct (sublist_modifiers_mask mods Hs Hne) as (-> & H0 & ->).
  destruct (upper_alphanumeric c Hc) as [-> ->]. cbn [negb].
  rewrite (proj2 (Z.eqb_neq _ _) H0). by rewrite str_eqb_refl.
Qed.

(** * Requests to Hyprland *)

(** What justifies a request, given the bindings that were read: it releases
    an accelerator whose only binding is the reconciler's own, or takes one
    that no binding uses, for an action the portal offers. *)
Definition request_safe (desired : bool) (globals : list GlobalShortcut)
    (bindings : list HyprBinding) (r : ShortcutReconciler) (request : str) : Prop :=
  (∃ b, List.filter (matches_accelerator (sr_spec r)) bindings = [b] ∧ owns (sr_spec r) b = true ∧
    request = unbind_request (sr_spec r) (sr_backend r)) ∨
  (List.filter (matches_accelerator (sr_spec r)) bindings = [] ∧ desired = true ∧
    ∃ action, advertised_portal_action (sr_spec r) globals = Some action ∧
      request = bind_request_for_action (sr_spec r) (sr_backend r) action).

Lemma count_le {A} (p : A → bool) l : (count p l ≤ length l)%nat.
Proof. unfold count. induction l as [|x l IH]; cbn; [lia|]. destruct (p x); cbn; lia. Qed.

Lemma count_one {A} (p : A → bool) l :
  count p l = 1%nat → (length l - 1)%nat = 0%nat → ∃ x, l = [x] ∧ p x = true.
Proof.
  intros H Hl. destruct l as [|x [|y l]]; cbn in Hl; [done| |lia].
  exists x. split; [done|]. unfold count in H. cbn in H. by destruct (p x).
Qed.

Lemma observe_desired_spec r desired : sr_spec (observe_desired r desired) = sr_spec r ∧
  sr_backend (observe_desired r desired) = sr_backend r.
Proof. unfold observe_desired. by case_bool_decide. Qed.

Lemma plan_keeps_spec r desired globals bindings :
  sr_spec (plan r desired globals bindings).1 = sr_spec r ∧
  sr_backend (plan r desired globals bindings).1 = sr_backend r.
Proof.
  unfold plan, plan_release. set (e := desired && _).
  destruct (observe_desired_spec r e) as [<- <-].
  repeat (case_match || case_bool_decide); done.
Qed.

(** The request a decision asks for. *)
Definition decision_request (d : ShortcutDecision) : option str :=
  match d with DecBind q | DecUnbind q => Some q | _ => None end.

Lemma plan_request_safe r desired globals bindings q :
  decision_request (plan r desired globals bindings).2 = Some q →
  request_safe desired globals bindings r q.
Proof.
  unfold plan, plan_release, request_safe.
  set (adv := advertised_portal_action (sr_spec r) globals).
  destruct (observe_desired_spec r (desired && isSome adv)) as [-> ->].
  set (m := List.filter (matches_accelerator (sr_spec r)) bindings).
  destruct (desired && isSome adv) eqn:He; cbn [andb negb].
  - case_bool_decide; [done|]. apply andb_true_iff in He as [-> He].
    destruct adv as [a|] eqn:Ha; [|done].
    destruct (_ && _ && _)%nat eqn:E1; [done|].
    destruct (_ && _ && _)%nat eqn:E2 in |- *.
    + intros [= <-]. left. bools. rewrite Nat.eqb_eq in *. destruct (count_one (owns (sr_spec r)) m) as (b & -> & Hb); [lia..|]. eauto.
    + destruct m; [|done]. intros [= <-]. eauto 10.
  - destruct (count _ m) as [|[|n]] eqn:En; [by destruct desired| |done].
    destruct (length m - 1)%nat eqn:Hl; [|done]. intros [= <-]. left.
    destruct (count_one (owns (sr_spec r)) m) as (b & -> & Hb); [lia..|]. eauto.
Qed.

Lemma sync_shortcut_sent dispatch r desired globals bindings :
  let '(r', sent, _, _) := sync_shortcut dispatch r desired globals bindings in
  sent = option_list (decision_request (plan r desired globals bindings).2).
Proof.
  unfold sync_shortcut. destruct (plan _ _ _ _) as [r' d]. cbn.
  destruct d; cbn; try destruct (dispatch _); try destruct (take_warning r'); done.
Qed.

Lemma needs_probe_spec r desired :
  sr_spec (needs_probe r desired).1 = sr_spec r ∧ sr_backend (needs_probe r desired).1 = sr_backend r.
Proof. apply observe_desired_spec. Qed.

Lemma sync_shortcuts_loop_safe dispatch probed desired globals bindings :
  let '(_, sent, _, _) := sync_shortcuts_loop dispatch probed desired globals bindings in
  Forall (λ q, ∃ r, r ∈ probed.*1 ∧ request_safe desired globals bindings r q) sent.
Proof.
  induction probed as [|[r probe] probed IH]; cbn; [constructor|].
  assert (let '(r', sent, _, _) := if probe then sync_shortcut dispatch r desired globals bindings
            else (r, [], [], Ok tt) in
          Forall (λ q, ∃ r0, r0 ∈ r :: probed.*1 ∧ request_safe desired globals bindings r0 q) sent) as H.
  { destruct probe; [|constructor].
    pose proof (sync_shortcut_sent dispatch r desired globals bindings) as Hs.
    destruct (sync_shortcut _ _ _ _ _) as [[[r' sent] warned] outcome]. subst sent.
    destruct (decision_request _) as [q|] eqn:Hq; cbn; [|constructor].
    constructor; [|constructor]. exists r. split; [constructor|by apply plan_request_safe]. }
  destruct (if probe then _ else _) as [[[r' sent] warned] outcome].
  destruct outcome; [|done].
  destruct (sync_shortcuts_loop _ _ _ _ _) as [[[rs sent'] warned'] outcome].
  apply Forall_app. split; [done|]. eapply Forall_impl; [exact IH|].
  intros q (r0 & ? & ?). exists r0. split; [by constructor|done].
Qed.

(** A shortcut step of the bridge never disturbs a binding that is not
    OverCrow's: each request it sends either unbinds an accelerator whose only
    binding in the list just read is the reconciler's own, or binds one that
    no binding in the list uses, while a game is active and for an action the
    portal then offers. *)
Theorem shortcut_requests_safe dispatch snapshot queries reconcilers :
  let '(_, sent, _, _) := sync_shortcuts_once dispatch snapshot queries reconcilers in
  Forall (λ q, ∃ r globals bindings, r ∈ reconcilers ∧ queries = Ok (globals, bindings) ∧
    request_safe (isSome (cs_active_game snapshot)) globals bindings r q) sent.
Proof.
  unfold sync_shortcuts_once. set (desired := isSome _). destruct (forallb _ _); [constructor|].
  destruct queries as [[globals bindings]|e]; [|constructor].
  pose proof (sync_shortcuts_loop_safe dispatch (map (λ r, needs_probe r desired) reconcilers)
    desired globals bindings) as Hl.
  destruct (sync_shortcuts_loop _ _ _ _ _) as [[[rs sent] warned] outcome].
  eapply Forall_impl; [exact Hl|]. cbn. intros q (r & Hr & Hq).
  apply list_elem_of_fmap in Hr as ([r0 p] & -> & Hr). apply list_elem_of_In, in_map_iff in Hr as (r1 & E & Hr).
  exists r1, globals, bindings. split_and!; [by apply list_elem_of_In|done|].
  destruct (needs_probe_spec r1 desired) as [Hs Hb]. unfold request_safe in *.
  rewrite E in Hs, Hb. cbn [fst] in *. by rewrite <- Hs, <- Hb.
Qed.

(** * The closed loop with Hyprland *)

Lemma observe_unknown r desired :
  sr_state r = RsUnknown → sr_state (observe_desired r desired) = RsUnknown.
Proof. unfold observe_desired. by case_bool_decide. Qed.

Lemma sync_shortcut_accepted r desired globals bindings :
  ∃ r' w, sync_shortcut (λ _, Ok tt) r desired globals bindings =
      (r', option_list (decision_request (plan r desired globals bindings).2), w, Ok tt) ∧
    sr_spec r' = sr_spec r ∧ sr_backend r' = sr_backend r.
Proof.
  unfold sync_shortcut. destruct (plan_keeps_spec r desired globals bindings) as [<- <-].
  destruct (plan r desired globals bindings) as [r' []]; cbn; eauto;
    destruct (take_warning r') as [r2 w] eqn:E; exists r2; eexists; split; try done;
    unfold take_warning in E; destruct (_ || _); by simplify_eq.
Qed.

Section loop.
(** Hyprland's bindings after a request. *)
Context (hyprland : str → list HyprBinding → list HyprBinding).

(** One keepalive: every request is accepted and takes effect. *)
Definition keepalive_round (snapshot : CoreSnapshot) (globals : list GlobalShortcut)
    (w : ShortcutReconciler * list HyprBinding) : ShortcutReconciler * list HyprBinding :=
  let '(rs, sent, _, _) :=
    sync_shortcuts_once (λ _, Ok tt) snapshot (Ok (globals, w.2)) [invalidate w.1] in
  (default w.1 (head rs), fold_left (λ bindings q, hyprland q bindings) sent w.2).

Lemma keepalive_round_plan snapshot globals r bindings :
  ∃ r', sr_spec r' = sr_spec r ∧ sr_backend r' = sr_backend r ∧ sr_state r' = RsUnknown ∧
    (keepalive_round snapshot globals (r, bindings)).2 =
      match decision_request (plan r' (isSome (cs_active_game snapshot)) globals bindings).2 with
      | Some q => hyprland q bindings
      | None => bindings
      end ∧
    sr_spec (keepalive_round snapshot globals (r, bindings)).1 = sr_spec r ∧
    sr_backend (keepalive_round snapshot globals (r, bindings)).1 = sr_backend r.
Proof.
  unfold keepalive_round, sync_shortcuts_once. cbn [fst snd]. set (desired := isSome _).
  set (r' := observe_desired (invalidate r) desired). exists r'.
  assert (sr_state r' = RsUnknown) as Hu by by apply observe_unknown.
  destruct (observe_desired_spec (invalidate r) desired) as [Hs Hb]. fold r' in Hs, Hb. cbn in Hs, Hb.
  assert (needs_probe (invalidate r) desired = (r', true)) as E.
  { unfold needs_probe. fold r'. rewrite Hu. by destruct desired. }
  cbn [map forallb]. rewrite E. cbn [snd negb andb sync_shortcuts_loop].
  destruct (sync_shortcut_accepted r' desired globals bindings) as (r2 & w & -> & Hs2 & Hb2).
  rewrite !app_nil_r. cbn [head default fst snd]. unfold id. split_and!; try done; try congruence.
  by destruct (decision_request _).
Qed.

(** What is bound to the reconciler's accelerator after a round that found
    [own] there. *)
Definition round_target (s : ShortcutSpec) (desired : bool) (globals : list GlobalShortcut)
    (own : list HyprBinding) : list HyprBinding :=
  match advertised_portal_action s globals with
  | Some action =>
      if desired then match own with
                      | [] => [installed s action]
                      | b :: _ => if owns_action s b action then own else []
                      end
      else []
  | None => []
  end.

Context (s : ShortcutSpec) (backend : ShortcutBackend).
Context (Hbind : ∀ action bindings,
  hyprland (bind_request_for_action s backend action) bindings = bindings ++ [installed s action]).
Context (Hunbind : ∀ bindings,
  hyprland (unbind_request s backend) bindings =
    List.filter (λ b, negb (matches_accelerator s b)) bindings).

(** At most one binding uses the accelerator, and it is ours. *)
Definition accelerator_ours (bindings : list HyprBinding) : Prop :=
  List.filter (matches_accelerator s) bindings = [] ∨
  ∃ b, List.filter (matches_accelerator s) bindings = [b] ∧ owns s b = true.

Lemma filter_orthogonal {A} (p : A → bool) l :
  List.filter p (List.filter (λ x, negb (p x)) l) = [] ∧
  List.filter (λ x, negb (p x)) (List.filter (λ x, negb (p x)) l) = List.filter (λ x, negb (p x)) l.
Proof.
  induction l as [|x l [IH1 IH2]]; [done|]. cbn. destruct (p x) eqn:E; cbn; rewrite ?E; cbn; [done|].
  by rewrite IH1, IH2.
Qed.

Lemma owns_action_installed b action :
  owns_action s b action = true → b = installed s action.
Proof.
  unfold owns_action, matches_accelerator. intros H. bools. destruct b; cbn in *. by subst.
Qed.

Lemma owns_action_owned b action globals :
  owns_action s b action = true → advertised_portal_action s globals = Some action → owns s b = true.
Proof.
  unfold owns, advertised_portal_action. intros H Ha. destruct (existsb _ _).
  - simplify_eq. by rewrite H.
  - destruct (legacy_portal_action _) as [l|]; [|done]. cbn in *. destruct (existsb _ _); [|done].
    simplify_eq. by rewrite H, orb_true_r.
Qed.

Lemma plan_round r bindings desired globals :
  sr_spec r = s → sr_backend r = backend → sr_state r = RsUnknown → accelerator_ours bindings →
  let bindings' := match decision_request (plan r desired globals bindings).2 with
                   | Some q => hyprland q bindings
                   | None => bindings
                   end in
  List.filter (matches_accelerator s) bindings' =
    round_target s desired globals (List.filter (matches_accelerator s) bindings) ∧
  List.filter (λ b, negb (matches_accelerator s b)) bindings' =
    List.filter (λ b, negb (matches_accelerator s b)) bindings.
Proof.
  intros Hs Hb Hu Hours. unfold plan, plan_release, round_target.
  rewrite (observe_unknown _ _ Hu).
  destruct (observe_desired_spec r (desired && isSome (advertised_portal_action (sr_spec r) globals)))
    as [-> ->]. rewrite Hs, Hb.
  assert (∀ action, matches_accelerator s (installed s action) = true) as Hm by
    (intros; unfold matches_accelerator; cbn; by rewrite Z.eqb_refl, str_eqb_refl).
  destruct (filter_orthogonal (matches_accelerator s) bindings) as [Ho1 Ho2].
  rewrite andb_false_r.
  destruct (advertised_portal_action s globals) as [action|] eqn:Ha, desired; cbn [isSome andb negb];
    destruct Hours as [Em|(b & Em & Hown)]; rewrite Em; unfold count; cbn [List.filter length];
    rewrite ?Hown; cbn; try (by rewrite Hunbind, Ho1, Ho2).
  - rewrite Hbind, !List.filter_app, Em. cbn. rewrite Hm. cbn. by rewrite app_nil_r.
  - destruct (owns_action s b action); cbn; [by rewrite Em|by rewrite Hunbind, Ho1, Ho2].
  - by rewrite Em.
  - by rewrite Em.
  - by rewrite Em.
Qed.

Lemma round_target_idem desired globals own :
  round_target s desired globals (round_target s desired globals own) =
    match advertised_portal_action s globals with
    | Some action => if desired then [installed s action] else []
    | None => []
    end ∨ ∃ b b' l, own = b :: b' :: l.
Proof.
  unfold round_target. destruct (advertised_portal_action s globals) as [action|]; [|by left].
  destruct desired; [|by left].
  assert (owns_action s (installed s action) action = true) as Hi.
  { unfold owns_action, matches_accelerator. cbn. by rewrite Z.eqb_refl, !str_eqb_refl. }
  destruct own as [|b [|b' l]]; [rewrite Hi; by left| |eauto].
  destruct (owns_action s b action) eqn:E; [|by left].
  rewrite E. apply owns_action_installed in E as ->. by left.
Qed.

Lemma round_target_ours desired globals own :
  own = [] ∨ (∃ b, own = [b] ∧ owns s b = true) →
  round_target s desired globals own = [] ∨
    ∃ b, round_target s desired globals own = [b] ∧ owns s b = true.
Proof.
  intros H. unfold round_target. destruct (advertised_portal_action s globals) as [action|] eqn:Ha; [|by left].
  destruct desired; [|by left].
  destruct H as [->|(b & -> & Hb)].
  - right. eexists. split; [done|]. eapply owns_action_owned; [|done].
    unfold owns_action, matches_accelerator. cbn. by rewrite Z.eqb_refl, !str_eqb_refl.
  - destruct (owns_action s b action); eauto.
Qed.

End loop.

(** A Hyprland that understands the requests for one specification. *)
Definition sample_hyprland (s : ShortcutSpec) (q : str) (bindings : list HyprBinding) : list HyprBinding :=
  let prefix := bind_request_for_action s Compatibility [] in
  if starts_with prefix q
  then bindings ++ [installed s (drop (length prefix) q)]
  else List.filter (λ b, negb (matches_accelerator s b)) bindings.

Lemma sample_hyprland_bind s action bindings :
  sample_hyprland s (bind_request_for_action s Compatibility action) bindings =
    bindings ++ [installed s action].
Proof.
  assert (bind_request_for_action s Compatibility action =
    bind_request_for_action s Compatibility [] ++ action) as ->.
  { unfold bind_request_for_action. by rewrite <- !app_assoc, app_nil_l. }
  unfold sample_hyprland. by rewrite starts_with_app, drop_app_length.
Qed.

Definition sample_spec : ShortcutSpec := spec_of [lit "Meta"; lit "Alt"] 79 PORTAL_SHORTCUT_NAME BIND_DESCRIPTION.
Definition sample_foreign : HyprBinding := mkHyprBinding 64 (lit "Q") [] (lit "killactive") [].
Definition sample_old : HyprBinding := installed sample_spec LEGACY_PORTAL_SHORTCUT_NAME.
Definition sample_globals : list GlobalShortcut := [mkGlobalShortcut PORTAL_SHORTCUT_NAME []].


Lemma shortcut_spec_roundtrip_witness :
  from_owned_binding (installed sample_spec LEGACY_PORTAL_SHORTCUT_NAME) = Some sample_spec ∧
  owns sample_spec (installed sample_spec LEGACY_PORTAL_SHORTCUT_NAME) = true.
Proof.
  apply (shortcut_spec_roundtrip (lit "Meta+Alt+o") PORTAL_SHORTCUT_NAME LEGACY_PORTAL_SHORTCUT_NAME
    BIND_DESCRIPTION); [reflexivity| |by right].
  apply (bool_decide_eq_true_1 (_ ∈ known_identities)). reflexivity.
Defined.

(** * Clean-up *)

(** A binding that OverCrow alone has on its accelerator. *)
Definition solely_owned (bindings : list HyprBinding) (b : HyprBinding) (spec : ShortcutSpec) : Prop :=
  b ∈ bindings ∧ from_owned_binding b = Some spec ∧
  List.filter (matches_accelerator spec) bindings = [b] ∧
  ∀ c spec', c ∈ bindings → from_owned_binding c = Some spec' →
    (sp_modmask spec', sp_key spec') = (sp_modmask spec, sp_key spec) → c = b.

Lemma known_identity_owned b action description :
  known_binding_identity b = Some (action, description) →
  hb_description b = description ∧
  (hb_arg b = action ∨ legacy_portal_action action = Some (hb_arg b)).
Proof.
  unfold known_binding_identity, known_identities. cbn [find_map].
  repeat match goal with
  | |- context [then_some ?c _] => destruct c eqn:?; cbn [then_some]
  end; [..|done]; intros [= <- <-]; bools; (split; [done|]);
    match goal with H : hb_arg b = _ ∨ _ |- _ => destruct H as [->| ->]; [by left|right] end;
    vm_compute; reflexivity.
Qed.

Lemma from_owned_owns b spec :
  from_owned_binding b = Some spec → matches_accelerator spec b = true → owns spec b = true.
Proof.
  unfold from_owned_binding. intros H Hm.
  destruct (str_eqb (hb_dispatcher b) _) eqn:Hd; [|done]. cbn [negb] in H.
  destruct (known_binding_identity b) as [[action description]|] eqn:Hf; [|done].
  cbn [mbind option_bind] in H.
  destruct (hb_key b) as [|k [|]]; try done. destruct (is_ascii_alphanumeric k); [|done].
  cbn [negb] in H. destruct (_ || _); [done|]. injection H as <-.
  unfold owns, owns_action. rewrite Hm, Hd. cbn [sp_description sp_portal_action].
  apply known_identity_owned in Hf as [-> [-> | ->]]; cbn; by rewrite !str_eqb_refl, ?orb_true_r.
Qed.

Lemma cleanup_loop_sound dispatch todo backend bindings processed :
  Forall (λ q, ∃ spec b, List.filter (matches_accelerator spec) bindings = [b] ∧ owns spec b = true ∧
    q = unbind_request spec backend)
    (cleanup_shortcuts_loop dispatch todo backend bindings processed).1.
Proof.
  revert processed. induction todo as [|b todo IH]; intros processed; cbn; [constructor|].
  destruct (from_owned_binding b) as [spec|]; [|done]. case_bool_decide; [done|].
  destruct (List.filter _ bindings) as [|c [|]] eqn:E; try done.
  destruct (owns spec c) eqn:Ho; [|done].
  assert (∃ spec0 b0, List.filter (matches_accelerator spec0) bindings = [b0] ∧ owns spec0 b0 = true ∧
    unbind_request spec backend = unbind_request spec0 backend) as Hq by eauto.
  destruct (dispatch _); [|by repeat constructor].
  specialize (IH ((sp_modmask spec, sp_key spec) :: processed)).
  destruct (cleanup_shortcuts_loop _ _ _ _ _) as [sent outcome]. by constructor.
Qed.

Lemma cleanup_loop_complete todo backend bindings processed b spec :
  (∀ c, c ∈ todo → c ∈ bindings) → b ∈ todo → solely_owned bindings b spec →
  (sp_modmask spec, sp_key spec) ∉ processed →
  unbind_request spec backend ∈ (cleanup_shortcuts_loop (λ _, Ok tt) todo backend bindings processed).1.
Proof.
  intros Hsub Hb (Hin & Hfrom & Hm & Huniq). revert processed.
  induction todo as [|c todo IH]; intros processed Hp; [by apply not_elem_of_nil in Hb|]. cbn.
  assert (b ∈ todo → ∀ processed, (sp_modmask spec, sp_key spec) ∉ processed →
    unbind_request spec backend ∈
      (cleanup_shortcuts_loop (λ _, Ok tt) todo backend bindings processed).1) as IH'.
  { intros Hbt. apply IH; [|done]. intros d Hd. apply Hsub. by constructor. }
  clear IH. destruct (decide (c = b)) as [->|Hne].
  - rewrite Hfrom. rewrite bool_decide_eq_false_2 by done. rewrite Hm.
    assert (matches_accelerator spec b = true) as Hma.
    { assert (b ∈ [b]) as H by constructor. rewrite <- Hm in H. by apply list_elem_of_In, filter_In in H as [_ ?]. }
    rewrite (from_owned_owns b spec) by done.
    destruct (cleanup_shortcuts_loop _ _ _ _ _) as [sent outcome]. constructor.
  - apply elem_of_cons in Hb as [->|Hb]; [done|]. specialize (IH' Hb).
    destruct (from_owned_binding c) as [spec'|] eqn:Hc; [|by apply IH'].
    case_bool_decide; [by apply IH'|].
    assert ((sp_modmask spec, sp_key spec) ∉ (sp_modmask spec', sp_key spec') :: processed) as Hp'.
    { apply not_elem_of_cons. split; [|done]. intros E. apply Hne.
      eapply Huniq; [|exact Hc|done]. apply Hsub. constructor. }
    destruct (List.filter (matches_accelerator spec') _) as [|d [|]]; try (by apply IH').
    destruct (owns spec' d); [|by apply IH']. specialize (IH' _ Hp').
    destruct (cleanup_shortcuts_loop _ _ _ _ _) as [sent outcome]. by constructor.
Qed.

(** Clean-up releases OverCrow's accelerators and no other: every request
    it sends unbinds an accelerator whose only binding OverCrow owns, and when
    Hyprland accepts the requests every binding that OverCrow has alone on its
    accelerator is among those released. *)
Theorem cleanup_releases_own dispatch backend bindings :
  Forall (λ q, ∃ spec b, List.filter (matches_accelerator spec) bindings = [b] ∧ owns spec b = true ∧
    q = unbind_request spec backend)
    (cleanup_shortcut_state_with dispatch (Ok backend) (Ok bindings)).1 ∧
  Forall (λ b, ∀ spec, solely_owned bindings b spec →
    unbind_request spec backend ∈ (cleanup_shortcut_state_with (λ _, Ok tt) (Ok backend) (Ok bindings)).1)
    bindings.
Proof.
  split; [apply cleanup_loop_sound|]. apply Forall_forall. intros b Hb spec Hs.
  apply (cleanup_loop_complete _ _ _ _ b); [done..|apply not_elem_of_nil].
Qed.

(** * Repeated warnings *)

(** While a game is active but the portal does not offer the action, a
    reconciler whose accelerator it shares with a foreign binding prints the
    ambiguous-ownership warning in every step, not once: the probe observes
    that the shortcut is desired, the plan that it is not, and each change of
    mind clears the mark of the printed warning. *)
Lemma ambiguous_warning_repeats dispatch snapshot globals bindings r :
  isSome (cs_active_game snapshot) = true →
  advertised_portal_action (sr_spec r) globals = None →
  (0 < count (owns (sr_spec r)) (List.filter (matches_accelerator (sr_spec r)) bindings))%nat →
  (1 < length (List.filter (matches_accelerator (sr_spec r)) bindings))%nat →
  sr_last_desired r ≠ Some true →
  ∃ r', sync_shortcuts_once dispatch snapshot (Ok (globals, bindings)) [r] =
      ([r'], [], [WarnAmbiguous (sp_keys (sr_spec r))], Ok tt) ∧
    sr_spec r' = sr_spec r ∧ sr_last_desired r' = Some false.
Proof.
  intros Hd Ha Hc Hl Hlast. unfold sync_shortcuts_once. rewrite Hd. cbn [map].
  set (r1 := r <| sr_last_desired := Some true |> <| sr_state := RsUnknown |>
               <| sr_warning_reported := false |>).
  assert (needs_probe r true = (r1, true)) as ->.
  { unfold needs_probe, observe_desired. by rewrite bool_decide_eq_true_2. }
  set (m := List.filter _ bindings) in Hc, Hl.
  assert (plan r1 true globals bindings =
    (r1 <| sr_last_desired := Some false |> <| sr_state := RsConflict |>, DecAmbiguousOwnership)) as E.
  { unfold plan. change (sr_spec r1) with (sr_spec r). rewrite Ha. cbn [isSome andb negb].
    change (observe_desired r1 false) with (r1 <| sr_last_desired := Some false |>).
    cbn [sr_spec]. change (sr_spec (r1 <| sr_last_desired := Some false |>)) with (sr_spec r).
    fold m. unfold plan_release. destruct (count (owns (sr_spec r)) m) as [|[|n]] eqn:En; [lia| |done].
    destruct (length m - 1)%nat eqn:Em; [lia|done]. }
  cbn [forallb snd negb andb sync_shortcuts_loop map]. unfold sync_shortcut. rewrite E.
  eexists. split; [reflexivity|done].
Qed.
