(* ===== verification/Notes.v ===== *)
(** The notes document of the overlay
    ([crates/overcrow-overlay/src/notes/model.rs]): pages with a checklist
    each, edited in place by operations that either apply completely or leave
    the document as it was, and the migration of the first schema. *)

From S2P Require Import Prelude Text Truncate Decimal.

Definition NOTES_SCHEMA_VERSION : Z := 2.
Definition NOTES_PAGE_MAX_COUNT : nat := 8.
Definition NOTES_TITLE_MAX_BYTES : Z := 96.
Definition NOTES_NOTE_MAX_BYTES : Z := 8192.
Definition NOTES_ITEM_MAX_COUNT : nat := 64.
Definition NOTES_ITEM_MAX_BYTES : Z := 256.
Definition NOTES_IDENTIFIER_MAX_BYTES : Z := 64.

#[global] Arguments NOTES_PAGE_MAX_COUNT : simpl never.
#[global] Arguments NOTES_ITEM_MAX_COUNT : simpl never.

(** * Data *)

Record NotesProviderRef := mkNotesProviderRef { npr_kind : str; npr_remote_id : option str }.
Definition notes_provider_default : NotesProviderRef := mkNotesProviderRef (lit "local") None.

Record ChecklistItem := mkChecklistItem { ci_id : str; ci_text : str; ci_checked : bool }.
#[export] Instance ChecklistItem_eta : Eta ChecklistItem := λ i,
  mkChecklistItem (ci_id i) (ci_text i) (ci_checked i).

Record NotePage := mkNotePage { np_id : str; np_title : str; np_body : str; np_items : list ChecklistItem }.
#[export] Instance NotePage_eta : Eta NotePage := λ n,
  mkNotePage (np_id n) (np_title n) (np_body n) (np_items n).

Record NotesDocument := mkNotesDocument {
  nd_schema_version : Z;
  nd_id : str;
  nd_provider : NotesProviderRef;
  nd_revision : Z;
  nd_next_note_id : Z;
  nd_next_item_id : Z;
  nd_active_note_id : str;
  nd_notes : list NotePage
}.
#[export] Instance NotesDocument_eta : Eta NotesDocument := λ d,
  mkNotesDocument (nd_schema_version d) (nd_id d) (nd_provider d) (nd_revision d)
    (nd_next_note_id d) (nd_next_item_id d) (nd_active_note_id d) (nd_notes d).

Definition notes_document_default : NotesDocument :=
  mkNotesDocument NOTES_SCHEMA_VERSION (lit "global") notes_provider_default 0 2 1 (lit "note-1")
    [mkNotePage (lit "note-1") (lit "General") [] []].

(** [NotesError]; the errors of the standard library are their text. *)
Inductive NotesError :=
| NotesValidation (message : str)
| NotesRepository (message : str)
| NotesIo (source : str)
| NotesJson (source : str)
| NotesCommitted (source : str).

Definition was_committed (e : NotesError) : bool :=
  match e with NotesCommitted _ => true | _ => false end.

Abbreviation notes_result := (result NotesError).
Definition refuse {A} (message : string) : notes_result A := Err (NotesValidation (lit message)).
Definition ensure (ok : bool) (message : string) : notes_result unit :=
  if ok then Ok tt else refuse message.

(** * Validation *)

Definition validate_identifier (identifier description : str) : notes_result unit :=
  match identifier with
  | [] => Err (NotesValidation (description ++ lit " must not be empty"))
  | _ =>
      if NOTES_IDENTIFIER_MAX_BYTES <? str_len identifier
      then Err (NotesValidation (description ++ lit " exceeds 64 UTF-8 bytes"))
      else Ok tt
  end.

Definition numbered_identifier (identifier prefix description : str) : notes_result Z :=
  let invalid := NotesValidation (description ++ lit " has an invalid form") in
  suffix ← ok_or invalid (strip_prefix prefix identifier);
  ok_or invalid
    (opt_filter (λ number, (0 <? number) && str_eqb (show_Z number) suffix)
       (parse_unsigned u64_max suffix)).

Definition validate_title (title : str) : notes_result unit :=
  _ ← ensure (negb (bool_decide (trim title = []))) "note title must not be empty";
  ensure (str_len title <=? NOTES_TITLE_MAX_BYTES) "note title exceeds 96 UTF-8 bytes".

Definition validate_local_identity (id : str) (provider : NotesProviderRef) : notes_result unit :=
  _ ← validate_identifier id (lit "document ID");
  _ ← ensure (str_eqb id (lit "global")) "notes document ID must be global";
  _ ← validate_identifier (npr_kind provider) (lit "provider kind");
  _ ← match npr_remote_id provider with
      | Some remote_id => validate_identifier remote_id (lit "provider remote ID")
      | None => Ok tt
      end;
  ensure (str_eqb (npr_kind provider) (lit "local") && isNone (npr_remote_id provider))
    "local notes require kind local and no remote ID".

(** The loop over the checklist items of a page; [seen] are the ids met. *)
Fixpoint validate_items (items : list ChecklistItem) (next_item_id : Z) (precede : string)
    (seen : list str) : notes_result (list str) :=
  match items with
  | [] => Ok seen
  | item :: items =>
      _ ← validate_identifier (ci_id item) (lit "checklist item ID");
      number ← numbered_identifier (ci_id item) (lit "local-") (lit "checklist item ID");
      _ ← ensure (number <? next_item_id) precede;
      _ ← ensure (bool_decide (ci_id item ∉ seen)) "duplicate checklist item ID";
      _ ← ensure (str_len (ci_text item) <=? NOTES_ITEM_MAX_BYTES)
            "checklist item exceeds 256 UTF-8 bytes";
      validate_items items next_item_id precede (ci_id item :: seen)
  end.

(** The loop over the pages; the ids of pages and of items met so far. *)
Fixpoint validate_pages (notes : list NotePage) (next_note_id next_item_id : Z)
    (note_ids item_ids : list str) : notes_result (list str) :=
  match notes with
  | [] => Ok note_ids
  | note :: notes =>
      _ ← validate_identifier (np_id note) (lit "note ID");
      number ← numbered_identifier (np_id note) (lit "note-") (lit "note ID");
      _ ← ensure (number <? next_note_id) "note ID must precede the next note ID";
      _ ← ensure (bool_decide (np_id note ∉ note_ids)) "duplicate note ID";
      _ ← validate_title (np_title note);
      _ ← ensure (str_len (np_body note) <=? NOTES_NOTE_MAX_BYTES) "note exceeds 8192 UTF-8 bytes";
      _ ← ensure (length (np_items note) <=? NOTES_ITEM_MAX_COUNT)%nat "checklist exceeds 64 items";
      item_ids ← validate_items (np_items note) next_item_id
                   "checklist item ID must precede the next item ID" item_ids;
      validate_pages notes next_note_id next_item_id (np_id note :: note_ids) item_ids
  end.

Definition validate_document (d : NotesDocument) : notes_result unit :=
  _ ← ensure (nd_schema_version d =? NOTES_SCHEMA_VERSION) "unsupported notes schema version";
  _ ← validate_local_identity (nd_id d) (nd_provider d);
  _ ← ensure (negb (length (nd_notes d) =? 0)%nat) "notes document must contain at least one note";
  _ ← ensure (length (nd_notes d) <=? NOTES_PAGE_MAX_COUNT)%nat "notes document exceeds 8 notes";
  _ ← ensure (negb ((nd_next_note_id d =? 0) || (nd_next_item_id d =? 0)))
        "next note and item IDs must be positive";
  note_ids ← validate_pages (nd_notes d) (nd_next_note_id d) (nd_next_item_id d) [] [];
  ensure (bool_decide (nd_active_note_id d ∈ note_ids)) "active note ID is unknown".

(** * Operations *)

Definition note (d : NotesDocument) (note_id : str) : option NotePage :=
  find_first (λ n, str_eqb (np_id n) note_id) (nd_notes d).
Definition active_note (d : NotesDocument) : option NotePage := note d (nd_active_note_id d).

Definition increment_revision (d : NotesDocument) : notes_result NotesDocument :=
  revision ← ok_or (NotesValidation (lit "notes revision overflow"))
               (checked_add u64_max (nd_revision d) 1);
  Ok (d <| nd_revision := revision |>).

(** What every edit ends with: the candidate replaces the document when its
    revision can advance and it validates, and is dropped otherwise. *)
Definition commit {A} (d : NotesDocument) (candidate : notes_result (NotesDocument * A)) :
    NotesDocument * notes_result A :=
  match ('(candidate, answer) ← candidate;
         candidate ← increment_revision candidate;
         _ ← validate_document candidate;
         Ok (candidate, answer)) with
  | Ok (candidate, answer) => (candidate, Ok answer)
  | Err e => (d, Err e)
  end.

(** An edit of the first element that satisfies [p]. *)
Fixpoint edit_first {A} (p : A → bool) (unknown : string) (f : A → notes_result A) (l : list A) :
    notes_result (list A) :=
  match l with
  | [] => refuse unknown
  | x :: l =>
      if p x then y ← f x; Ok (y :: l)
      else l ← edit_first p unknown f l; Ok (x :: l)
  end.

Definition note_mut (d : NotesDocument) (note_id : str) (f : NotePage → notes_result NotePage) :
    notes_result NotesDocument :=
  notes ← edit_first (λ n, str_eqb (np_id n) note_id) "unknown note ID" f (nd_notes d);
  Ok (d <| nd_notes := notes |>).

Definition item_mut (d : NotesDocument) (note_id item_id : str) (f : ChecklistItem → ChecklistItem) :
    notes_result NotesDocument :=
  note_mut d note_id (λ n,
    items ← edit_first (λ i, str_eqb (ci_id i) item_id) "unknown checklist item ID"
              (λ i, Ok (f i)) (np_items n);
    Ok (n <| np_items := items |>)).

Definition mutate (d : NotesDocument) (mutation : NotesDocument → notes_result NotesDocument) :
    NotesDocument * notes_result unit :=
  commit d (_ ← validate_document d; candidate ← mutation d; Ok (candidate, tt)).

Definition add_note (d : NotesDocument) (title : str) : NotesDocument * notes_result str :=
  commit d
    (_ ← validate_document d;
     let id := lit "note-" ++ show_Z (nd_next_note_id d) in
     next ← ok_or (NotesValidation (lit "local note ID counter overflow"))
              (checked_add u64_max (nd_next_note_id d) 1);
     Ok (d <| nd_next_note_id := next |>
           <| nd_notes ::= λ notes, notes ++ [mkNotePage id title [] []] |>
           <| nd_active_note_id := id |>, id)).

Definition guarded {A} (d : NotesDocument) (check : notes_result unit)
    (k : NotesDocument * notes_result A) : NotesDocument * notes_result A :=
  match check with Ok _ => k | Err e => (d, Err e) end.

Definition set_active_note (d : NotesDocument) (note_id : str) : NotesDocument * notes_result unit :=
  guarded d (validate_identifier note_id (lit "note ID"))
    (guarded d (validate_document d)
       (if str_eqb (nd_active_note_id d) note_id then (d, Ok tt)
        else mutate d (λ c,
               match note c note_id with
               | None => refuse "unknown note ID"
               | Some _ => Ok (c <| nd_active_note_id := note_id |>)
               end))).

Definition update_note (d : NotesDocument) (note_id title body : str) : NotesDocument * notes_result unit :=
  guarded d (validate_identifier note_id (lit "note ID"))
    (mutate d (λ c, note_mut c note_id (λ n, Ok (n <| np_title := title |> <| np_body := body |>)))).

(** The page that becomes active when the active page at [index] goes: its
    successor, or the new last page. *)
Definition replacement_id (notes : list NotePage) (index : nat) (old : str) : str :=
  default old (np_id <$> notes !! (Nat.min index (pred (length notes)))).

Definition remove_note (d : NotesDocument) (note_id : str) : NotesDocument * notes_result unit :=
  guarded d (validate_identifier note_id (lit "note ID"))
    (mutate d (λ c,
       index ← ok_or (NotesValidation (lit "unknown note ID"))
                 (position (λ n, str_eqb (np_id n) note_id) (nd_notes c));
       _ ← ensure (negb (length (nd_notes c) =? 1)%nat) "cannot remove the last note";
       let c := c <| nd_notes ::= delete index |> in
       if str_eqb (nd_active_note_id c) note_id
       then Ok (c <| nd_active_note_id := replacement_id (nd_notes c) index (nd_active_note_id c) |>)
       else Ok c)).

Definition add_item_to (d : NotesDocument) (note_id text : str) : NotesDocument * notes_result str :=
  guarded d (validate_identifier note_id (lit "note ID"))
    (commit d
       (_ ← validate_document d;
        let id := lit "local-" ++ show_Z (nd_next_item_id d) in
        next ← ok_or (NotesValidation (lit "local item ID counter overflow"))
                 (checked_add u64_max (nd_next_item_id d) 1);
        c ← note_mut (d <| nd_next_item_id := next |>) note_id
              (λ n, Ok (n <| np_items ::= λ items, items ++ [mkChecklistItem id text false] |>));
        Ok (c, id))).

Definition check_ids (note_id item_id : str) : notes_result unit :=
  _ ← validate_identifier note_id (lit "note ID");
  validate_identifier item_id (lit "checklist item ID").

Definition set_item_text_in (d : NotesDocument) (note_id item_id text : str) :
    NotesDocument * notes_result unit :=
  guarded d (check_ids note_id item_id)
    (mutate d (λ c, item_mut c note_id item_id (λ i, i <| ci_text := text |>))).

Definition set_checked_in (d : NotesDocument) (note_id item_id : str) (checked : bool) :
    NotesDocument * notes_result unit :=
  guarded d (check_ids note_id item_id)
    (mutate d (λ c, item_mut c note_id item_id (λ i, i <| ci_checked := checked |>))).

Definition remove_item_from (d : NotesDocument) (note_id item_id : str) :
    NotesDocument * notes_result unit :=
  guarded d (check_ids note_id item_id)
    (mutate d (λ c, note_mut c note_id (λ n,
       index ← ok_or (NotesValidation (lit "unknown checklist item ID"))
                 (position (λ i, str_eqb (ci_id i) item_id) (np_items n));
       Ok (n <| np_items ::= delete index |>)))).

(** * The first schema *)

Record LegacyNotesDocument := mkLegacyNotesDocument {
  ld_schema_version : Z;
  ld_id : str;
  ld_provider : NotesProviderRef;
  ld_revision : Z;
  ld_next_local_id : Z;
  ld_note : str;
  ld_items : list ChecklistItem
}.

Definition migrate (l : LegacyNotesDocument) : notes_result NotesDocument :=
  _ ← ensure (ld_schema_version l =? 1) "unsupported notes schema version";
  _ ← validate_local_identity (ld_id l) (ld_provider l);
  _ ← ensure (negb (ld_next_local_id l =? 0)) "next local ID must be positive";
  _ ← ensure (str_len (ld_note l) <=? NOTES_NOTE_MAX_BYTES) "note exceeds 8192 UTF-8 bytes";
  _ ← ensure (length (ld_items l) <=? NOTES_ITEM_MAX_COUNT)%nat "checklist exceeds 64 items";
  _ ← validate_items (ld_items l) (ld_next_local_id l)
        "checklist item ID must precede the next local ID" [];
  let document :=
    mkNotesDocument NOTES_SCHEMA_VERSION (ld_id l) (ld_provider l) (ld_revision l) 2
      (ld_next_local_id l) (lit "note-1")
      [mkNotePage (lit "note-1") (lit "General") (ld_note l) (ld_items l)] in
  _ ← validate_document document;
  Ok document.

(** * What validation accepts *)

Lemma ensure_Ok ok message u : ensure ok message = Ok u ↔ ok = true.
Proof. unfold ensure, refuse. destruct ok, u; naive_solver. Qed.

(** Discharge the checks that hold. *)
Ltac passes :=
  repeat (cbn [mbind result_bind];
    rewrite (proj2 (ensure_Ok _ _ tt)) by
      (solve [by apply Z.leb_le | by apply Z.ltb_lt | by apply Nat.leb_le | by apply bool_decide_eq_true]));
  cbn [mbind result_bind].

Lemma validate_identifier_Ok identifier description u :
  validate_identifier identifier description = Ok u ↔
  identifier ≠ [] ∧ str_len identifier ≤ NOTES_IDENTIFIER_MAX_BYTES.
Proof.
  unfold validate_identifier. destruct identifier as [|c s]; [naive_solver|].
  destruct (Z.ltb_spec NOTES_IDENTIFIER_MAX_BYTES (str_len (c :: s))), u; naive_solver lia.
Qed.

Lemma numbered_identifier_Ok identifier prefix description n :
  numbered_identifier identifier prefix description = Ok n ↔
  identifier = prefix ++ show_Z n ∧ 0 < n ≤ u64_max.
Proof.
  unfold numbered_identifier. rewrite result_bind_Ok. setoid_rewrite ok_or_Ok.
  setoid_rewrite strip_prefix_Some. setoid_rewrite opt_filter_Some.
  setoid_rewrite andb_true_iff. setoid_rewrite str_eqb_eq. setoid_rewrite Z.ltb_lt. split.
  - intros (suffix & -> & Hp & Hn & <-). apply parse_unsigned_range in Hp; [|done].
    split; [done|lia].
  - intros [-> Hn]. exists (show_Z n). split_and!; [done|apply parse_show; lia|lia|done].
Qed.

Definition item_wf (next_item_id : Z) (i : ChecklistItem) : Prop :=
  (∃ n, ci_id i = lit "local-" ++ show_Z n ∧ 0 < n ≤ u64_max ∧ n < next_item_id) ∧
  str_len (ci_text i) ≤ NOTES_ITEM_MAX_BYTES.

Definition page_wf (next_note_id next_item_id : Z) (p : NotePage) : Prop :=
  (∃ n, np_id p = lit "note-" ++ show_Z n ∧ 0 < n ≤ u64_max ∧ n < next_note_id) ∧
  trim (np_title p) ≠ [] ∧ str_len (np_title p) ≤ NOTES_TITLE_MAX_BYTES ∧
  str_len (np_body p) ≤ NOTES_NOTE_MAX_BYTES ∧
  (length (np_items p) ≤ NOTES_ITEM_MAX_COUNT)%nat ∧
  Forall (item_wf next_item_id) (np_items p).

(** The ids of every checklist item of the pages, in order. *)
Definition item_ids (notes : list NotePage) : list str := notes ≫= λ p, ci_id <$> np_items p.

Definition pages_wf (next_note_id next_item_id : Z) (notes : list NotePage) : Prop :=
  Forall (page_wf next_note_id next_item_id) notes ∧
  NoDup (np_id <$> notes) ∧ NoDup (item_ids notes).

Definition notes_wf (d : NotesDocument) : Prop :=
  nd_schema_version d = NOTES_SCHEMA_VERSION ∧ nd_id d = lit "global" ∧
  nd_provider d = notes_provider_default ∧
  (1 ≤ length (nd_notes d) ≤ NOTES_PAGE_MAX_COUNT)%nat ∧
  nd_next_note_id d ≠ 0 ∧ nd_next_item_id d ≠ 0 ∧
  pages_wf (nd_next_note_id d) (nd_next_item_id d) (nd_notes d) ∧
  nd_active_note_id d ∈ np_id <$> nd_notes d.

Lemma numbered_id_short prefix n :
  prefix ≠ [] → str_len prefix ≤ 40 → 0 < n ≤ u64_max →
  prefix ++ show_Z n ≠ [] ∧ str_len (prefix ++ show_Z n) ≤ NOTES_IDENTIFIER_MAX_BYTES.
Proof.
  intros Hp Hl Hn. split; [by destruct prefix|]. rewrite str_len_app.
  pose proof (show_u64_length n ltac:(lia)). unfold NOTES_IDENTIFIER_MAX_BYTES. lia.
Qed.

Lemma NoDup_snoc_seen (id : str) (ids seen : list str) :
  NoDup (ids ++ id :: seen) ↔ NoDup ((id :: ids) ++ seen).
Proof. by rewrite <- Permutation_middle. Qed.

Lemma validate_items_Ok items next message seen r :
  NoDup seen →
  validate_items items next message seen = Ok r ↔
  Forall (item_wf next) items ∧ NoDup ((ci_id <$> items) ++ seen) ∧
  r = reverse (ci_id <$> items) ++ seen.
Proof.
  revert seen. induction items as [|i items IH]; intros seen Hseen.
  { cbn. split; [intros [= <-]; by split_and!|by intros (_ & _ & ->)]. }
  cbn [validate_items fmap list_fmap]. rewrite Forall_cons, reverse_cons, <- app_assoc.
  rewrite <- NoDup_snoc_seen. split.
  - intros H. repeat (apply result_bind_Ok in H as (? & Hx & H); revert Hx).
    rewrite !ensure_Ok, numbered_identifier_Ok. intros Htext%Z.leb_le Hdup Hnext%Z.ltb_lt [Hid Hn] _.
    apply bool_decide_eq_true in Hdup.
    apply IH in H as (Hf & Hd & ->); [|by constructor]. split_and!; [|done..].
    split; [eauto|done].
  - intros ([[(n & Hid & Hn & Hnext) Htext] Hf] & Hd & ->).
    assert (validate_identifier (ci_id i) (lit "checklist item ID") = Ok tt) as ->.
    { rewrite Hid. apply validate_identifier_Ok, numbered_id_short; [done| |lia]. by vm_compute. }
    cbn [mbind result_bind].
    rewrite (proj2 (numbered_identifier_Ok (ci_id i) _ _ n)) by done. cbn [mbind result_bind].
    assert (ci_id i ∉ seen) as Hni.
    { apply NoDup_app in Hd as (_ & _ & Hd%NoDup_cons). tauto. }
    passes. apply IH; [by constructor|]. done.
Qed.

Lemma validate_title_Ok title u :
  validate_title title = Ok u ↔ trim title ≠ [] ∧ str_len title ≤ NOTES_TITLE_MAX_BYTES.
Proof.
  unfold validate_title. rewrite result_bind_Ok. setoid_rewrite ensure_Ok.
  setoid_rewrite Z.leb_le. setoid_rewrite negb_true_iff. setoid_rewrite bool_decide_eq_false.
  split; [by intros (_ & ? & ?)|intros []; by exists tt].
Qed.

Lemma item_ids_cons p notes : item_ids (p :: notes) = (ci_id <$> np_items p) ++ item_ids notes.
Proof. done. Qed.

Lemma validate_pages_Ok notes nn ni note_ids seen r :
  NoDup note_ids → NoDup seen →
  validate_pages notes nn ni note_ids seen = Ok r ↔
  Forall (page_wf nn ni) notes ∧ NoDup ((np_id <$> notes) ++ note_ids) ∧
  NoDup (item_ids notes ++ seen) ∧ r = reverse (np_id <$> notes) ++ note_ids.
Proof.
  revert note_ids seen. induction notes as [|p notes IH]; intros note_ids seen Hn Hs.
  { cbn. split; [intros [= <-]; by split_and!|by intros (_ & _ & _ & ->)]. }
  cbn [validate_pages fmap list_fmap]. rewrite Forall_cons, reverse_cons, <- app_assoc, item_ids_cons.
  rewrite <- NoDup_snoc_seen.
  assert (((ci_id <$> np_items p) ++ item_ids notes) ++ seen ≡ₚ
    item_ids notes ++ reverse (ci_id <$> np_items p) ++ seen) as Hperm.
  { rewrite reverse_Permutation, !app_assoc. f_equiv. apply Permutation_app_comm. }
  rewrite Hperm.
  split.
  - intros H. repeat (apply result_bind_Ok in H as (? & Hx & H); revert Hx).
    rewrite !ensure_Ok, numbered_identifier_Ok, validate_title_Ok, validate_items_Ok by done.
    intros (Hitems & Hd & ->) Hlen%Nat.leb_le Hbody%Z.leb_le [Ht Htl] Hdup%bool_decide_eq_true
      Hnext%Z.ltb_lt [Hid Hnum] _.
    apply IH in H as (Hf & Hd1 & Hd2 & ->); [|by constructor|by rewrite reverse_Permutation].
    split_and!; [|done..]. unfold page_wf. split_and!; eauto.
  - intros ([((n & Hid & Hnum & Hnext) & Ht & Htl & Hbody & Hlen & Hitems) Hf] & Hd1 & Hd2 & ->).
    assert (validate_identifier (np_id p) (lit "note ID") = Ok tt) as ->.
    { rewrite Hid. apply validate_identifier_Ok, numbered_id_short; [done| |lia]. by vm_compute. }
    cbn [mbind result_bind].
    rewrite (proj2 (numbered_identifier_Ok (np_id p) _ _ n)) by done. cbn [mbind result_bind].
    assert (np_id p ∉ note_ids) as Hni.
    { apply NoDup_app in Hd1 as (_ & _ & Hd%NoDup_cons). tauto. }
    passes.
    rewrite (proj2 (validate_title_Ok _ tt)) by done. cbn [mbind result_bind].
    passes.
    rewrite (proj2 (validate_items_Ok (np_items p) ni _ seen (reverse (ci_id <$> np_items p) ++ seen) Hs)).
    2: { split_and!; [done| |done]. rewrite reverse_Permutation in Hd2. by apply NoDup_app in Hd2 as (_ & _ & ?). }
    cbn [mbind result_bind]. apply IH; [by constructor| |done].
    by apply NoDup_app in Hd2 as (_ & _ & ?).
Qed.

Lemma validate_local_identity_Ok id provider u :
  validate_local_identity id provider = Ok u ↔ id = lit "global" ∧ provider = notes_provider_default.
Proof.
  unfold validate_local_identity. split.
  - intros H. apply result_bind_Ok in H as (_ & _ & H). apply result_bind_Ok in H as (u1 & Hid & H).
    apply result_bind_Ok in H as (_ & _ & H). apply result_bind_Ok in H as (_ & _ & H).
    rewrite ensure_Ok in Hid, H. bools. split; [done|]. destruct provider as [k [r|]]; [done|]. cbn in *. by subst.
  - intros [-> ->]. destruct u. by vm_compute.
Qed.

(** Validation accepts exactly the well-formed documents: the second
    schema, local identity, one to eight pages and at most 64 items each,
    every text within its bound, page and item ids of the canonical form
    below their counters and unique in the whole document, and an active page
    that exists. *)
Theorem validate_document_iff d : is_ok (validate_document d) = true ↔ notes_wf d.
Proof.
  assert (is_ok (validate_document d) = true ↔ validate_document d = Ok tt) as ->
    by (destruct (validate_document d) as [[]|]; naive_solver).
  unfold validate_document, notes_wf. split.
  - intros H. repeat (apply result_bind_Ok in H as (? & Hx & H); revert Hx).
    rewrite validate_pages_Ok by constructor. rewrite validate_local_identity_Ok, !ensure_Ok.
    rewrite !app_nil_r. intros (Hf & Hd1 & Hd2 & ->) Hids Hmax%Nat.leb_le Hne [Hid Hp] Hv%Z.eqb_eq.
    rewrite ensure_Ok in H. bools. apply Nat.eqb_neq in Hne.
    split_and!; try done; [lia|]. by rewrite elem_of_reverse in H.
  - intros (Hv & Hid & Hp & [Hmin Hmax] & Hnn & Hni & (Hf & Hd1 & Hd2) & Ha).
    rewrite (proj2 (ensure_Ok (_ =? NOTES_SCHEMA_VERSION) _ tt)) by by apply Z.eqb_eq.
    rewrite (proj2 (validate_local_identity_Ok _ _ tt)) by done.
    rewrite (proj2 (ensure_Ok (negb (length _ =? 0)%nat) _ tt)) by (apply negb_true_iff, Nat.eqb_neq; lia).
    rewrite (proj2 (ensure_Ok (_ <=? _)%nat _ tt)) by by apply Nat.leb_le.
    rewrite (proj2 (ensure_Ok (negb (_ || _)) _ tt)) by (bools; done).
    cbn [mbind result_bind].
    rewrite (proj2 (validate_pages_Ok (nd_notes d) _ _ [] [] (reverse (np_id <$> nd_notes d) ++ [])
      ltac:(constructor) ltac:(constructor))) by by rewrite !app_nil_r.
    cbn [mbind result_bind]. apply ensure_Ok, bool_decide_eq_true. by rewrite app_nil_r, elem_of_reverse.
Qed.

(** * Edits *)

Inductive notes_op :=
| OpAddNote (title : str)
| OpSetActive (note_id : str)
| OpUpdate (note_id title body : str)
| OpRemoveNote (note_id : str)
| OpAddItem (note_id text : str)
| OpSetText (note_id item_id text : str)
| OpSetChecked (note_id item_id : str) (checked : bool)
| OpRemoveItem (note_id item_id : str).

Definition no_id (r : NotesDocument * notes_result unit) : NotesDocument * notes_result (option str) :=
  (r.1, (λ _, None) <$> r.2).
Definition new_id (r : NotesDocument * notes_result str) : NotesDocument * notes_result (option str) :=
  (r.1, Some <$> r.2).

(** One edit, and the id it made. *)
Definition notes_step (d : NotesDocument) (op : notes_op) : NotesDocument * notes_result (option str) :=
  match op with
  | OpAddNote title => new_id (add_note d title)
  | OpSetActive id => no_id (set_active_note d id)
  | OpUpdate id title body => no_id (update_note d id title body)
  | OpRemoveNote id => no_id (remove_note d id)
  | OpAddItem id text => new_id (add_item_to d id text)
  | OpSetText id item text => no_id (set_item_text_in d id item text)
  | OpSetChecked id item checked => no_id (set_checked_in d id item checked)
  | OpRemoveItem id item => no_id (remove_item_from d id item)
  end.

(** The candidate an edit builds, before its revision advances. *)
Definition notes_candidate (d : NotesDocument) (op : notes_op) : notes_result (NotesDocument * option str) :=
  match op with
  | OpAddNote title =>
      let id := lit "note-" ++ show_Z (nd_next_note_id d) in
      next ← ok_or (NotesValidation (lit "local note ID counter overflow"))
               (checked_add u64_max (nd_next_note_id d) 1);
      Ok (d <| nd_next_note_id := next |>
            <| nd_notes ::= λ notes, notes ++ [mkNotePage id title [] []] |>
            <| nd_active_note_id := id |>, Some id)
  | OpSetActive id =>
      match note d id with
      | None => refuse "unknown note ID"
      | Some _ => Ok (d <| nd_active_note_id := id |>, None)
      end
  | OpUpdate id title body =>
      c ← note_mut d id (λ n, Ok (n <| np_title := title |> <| np_body := body |>)); Ok (c, None)
  | OpRemoveNote id =>
      index ← ok_or (NotesValidation (lit "unknown note ID"))
                (position (λ n, str_eqb (np_id n) id) (nd_notes d));
      _ ← ensure (negb (length (nd_notes d) =? 1)%nat) "cannot remove the last note";
      let c := d <| nd_notes ::= delete index |> in
      Ok (if str_eqb (nd_active_note_id c) id
          then c <| nd_active_note_id := replacement_id (nd_notes c) index (nd_active_note_id c) |>
          else c, None)
  | OpAddItem id text =>
      let item := lit "local-" ++ show_Z (nd_next_item_id d) in
      next ← ok_or (NotesValidation (lit "local item ID counter overflow"))
               (checked_add u64_max (nd_next_item_id d) 1);
      c ← note_mut (d <| nd_next_item_id := next |>) id
            (λ n, Ok (n <| np_items ::= λ items, items ++ [mkChecklistItem item text false] |>));
      Ok (c, Some item)
  | OpSetText id item text => c ← item_mut d id item (λ i, i <| ci_text := text |>); Ok (c, None)
  | OpSetChecked id item checked => c ← item_mut d id item (λ i, i <| ci_checked := checked |>); Ok (c, None)
  | OpRemoveItem id item =>
      c ← note_mut d id (λ n,
            index ← ok_or (NotesValidation (lit "unknown checklist item ID"))
                      (position (λ i, str_eqb (ci_id i) item) (np_items n));
            Ok (n <| np_items ::= delete index |>));
      Ok (c, None)
  end.

Lemma commit_spec {A} d (candidate : notes_result (NotesDocument * A)) :
  match commit d candidate with
  | (d', Ok a) => ∃ c, candidate = Ok (c, a) ∧ nd_revision c + 1 ≤ u64_max ∧
      d' = c <| nd_revision := nd_revision c + 1 |> ∧ notes_wf d'
  | (d', Err _) => d' = d
  end.
Proof.
  unfold commit. destruct candidate as [[c a]|e]; cbn [mbind result_bind]; [|done].
  unfold increment_revision, checked_add.
  destruct (Z.leb_spec (nd_revision c + 1) u64_max); cbn [ok_or mbind result_bind]; [|done].
  set (c' := set_field _ _ c).
  destruct (validate_document c') as [u|e] eqn:Hv; cbn [mbind result_bind]; [|done].
  exists c. split_and!; try done. apply validate_document_iff. by rewrite Hv.
Qed.

Lemma validate_document_Ok d u : validate_document d = Ok u → notes_wf d.
Proof. intros H. apply validate_document_iff. by rewrite H. Qed.

Lemma guarded_spec {A} d check (k : NotesDocument * notes_result A) :
  guarded d check k = k ∨ ∃ e, guarded d check k = (d, Err e).
Proof. unfold guarded. destruct check; eauto. Qed.

Lemma commit_validated {A} d (candidate : notes_result (NotesDocument * A)) :
  match commit d (_ ← validate_document d; candidate) with
  | (d', Ok a) => ∃ c, notes_wf d ∧ candidate = Ok (c, a) ∧ nd_revision c + 1 ≤ u64_max ∧
      d' = c <| nd_revision := nd_revision c + 1 |> ∧ notes_wf d'
  | (d', Err _) => d' = d
  end.
Proof.
  pose proof (commit_spec d (_ ← validate_document d; candidate)) as H.
  destruct (commit d _) as [d' [a|e]]; [|done]. destruct H as (c & H & Hr & Hd & Hw).
  destruct (validate_document d) eqn:Hv; [|done]. apply validate_document_Ok in Hv. eauto 10.
Qed.

Definition edit_outcome (d : NotesDocument) (op : notes_op) (o : NotesDocument * notes_result (option str)) : Prop :=
  match o with
  | (d', Ok a) => notes_wf d ∧ notes_wf d' ∧
      ((d' = d ∧ a = None ∧ op = OpSetActive (nd_active_note_id d)) ∨
       ∃ c, notes_candidate d op = Ok (c, a) ∧ nd_revision c + 1 ≤ u64_max ∧
         d' = c <| nd_revision := nd_revision c + 1 |>)
  | (d', Err _) => d' = d
  end.

Lemma mutate_outcome d op mutation :
  notes_candidate d op = (c ← mutation d; Ok (c, None)) →
  edit_outcome d op (no_id (mutate d mutation)).
Proof.
  intros Hc. unfold mutate, no_id.
  pose proof (commit_validated d (candidate ← mutation d; Ok (candidate, tt))) as H.
  destruct (commit d _) as [d' [a|e]]; cbn; [|done].
  destruct H as (c & Hw & Hm & Hr & Hd & Hw'). split_and!; try done. right. exists c.
  split_and!; try done. rewrite Hc. destruct (mutation d); [|done]. cbn in *. by simplify_eq.
Qed.

Lemma commit_outcome d op (candidate : notes_result (NotesDocument * str)) :
  notes_candidate d op = ('(c, id) ← candidate; Ok (c, Some id)) →
  edit_outcome d op (new_id (commit d (_ ← validate_document d; candidate))).
Proof.
  intros Hc. unfold new_id. pose proof (commit_validated d candidate) as H.
  destruct (commit d _) as [d' [a|e]]; cbn; [|done].
  destruct H as (c & Hw & Hm & Hr & Hd & Hw'). split_and!; try done. right. exists c.
  split_and!; try done. rewrite Hc, Hm. done.
Qed.

Lemma guarded_outcome d op check (k : NotesDocument * notes_result unit) :
  edit_outcome d op (no_id k) → edit_outcome d op (no_id (guarded d check k)).
Proof. intros H. destruct (guarded_spec d check k) as [->|[e ->]]; [done|]. done. Qed.

Lemma guarded_new_outcome d op check (k : NotesDocument * notes_result str) :
  edit_outcome d op (new_id k) → edit_outcome d op (new_id (guarded d check k)).
Proof. intros H. destruct (guarded_spec d check k) as [->|[e ->]]; [done|]. done. Qed.

Lemma notes_step_outcome d op : edit_outcome d op (notes_step d op).
Proof.
  destruct op; cbn [notes_step].
  - unfold add_note. apply commit_outcome. cbn [notes_candidate].
    by destruct (ok_or _ _).
  - unfold set_active_note. apply guarded_outcome. unfold guarded.
    destruct (validate_document d) as [u|e] eqn:Hv; [|done]. apply validate_document_Ok in Hv.
    destruct (str_eqb (nd_active_note_id d) note_id) eqn:E; bools.
    + subst. cbn. split_and!; try done. by left.
    + apply mutate_outcome. cbn [notes_candidate]. by destruct (note d note_id).
  - apply guarded_outcome, mutate_outcome. done.
  - apply guarded_outcome, mutate_outcome. cbn [notes_candidate].
    destruct (ok_or _ _) as [index|]; cbn [mbind result_bind]; [|done].
    destruct (ensure _ _); cbn [mbind result_bind]; [|done]. by destruct (str_eqb _ _).
  - unfold add_item_to. apply guarded_new_outcome.
    apply commit_outcome. cbn [notes_candidate]. destruct (ok_or _ _); [|done].
    cbn [mbind result_bind]. by destruct (note_mut _ _ _).
  - apply guarded_outcome, mutate_outcome. done.
  - apply guarded_outcome, mutate_outcome. done.
  - apply guarded_outcome, mutate_outcome. done.
Qed.

Lemma note_mut_revision d id f c : note_mut d id f = Ok c →
  nd_revision c = nd_revision d ∧ nd_next_note_id c = nd_next_note_id d ∧
  nd_next_item_id c = nd_next_item_id d ∧ nd_active_note_id c = nd_active_note_id d.
Proof. unfold note_mut. destruct (edit_first _ _ _ _); [|done]. by intros [= <-]. Qed.

Lemma next_Ok (e : NotesError) n r :
  ok_or e (checked_add u64_max n 1) = Ok r → r = n + 1 ∧ n + 1 ≤ u64_max.
Proof. unfold checked_add. destruct (Z.leb_spec (n + 1) u64_max); [|done]. by intros [= <-]. Qed.

(** What an edit does to the counters and the id it makes. *)
Lemma candidate_counters d op c a :
  notes_candidate d op = Ok (c, a) →
  nd_revision c = nd_revision d ∧
  match a with
  | None => nd_next_note_id c = nd_next_note_id d ∧ nd_next_item_id c = nd_next_item_id d
  | Some id =>
      (id = lit "note-" ++ show_Z (nd_next_note_id d) ∧
       nd_next_note_id c = nd_next_note_id d + 1 ∧ nd_next_item_id c = nd_next_item_id d) ∨
      (id = lit "local-" ++ show_Z (nd_next_item_id d) ∧
       nd_next_note_id c = nd_next_note_id d ∧ nd_next_item_id c = nd_next_item_id d + 1)
  end.
Proof.
  intros H. destruct op; cbn [notes_candidate] in H; unfold item_mut in H.
  - apply result_bind_Ok in H as (next & [-> _]%next_Ok & [= <- <-]). split; [done|]. by left.
  - destruct (note d note_id); [|done]. by simplify_eq.
  - apply result_bind_Ok in H as (c' & E & [= <- <-]). by apply note_mut_revision in E as (-> & -> & -> & _).
  - apply result_bind_Ok in H as (i & _ & H). apply result_bind_Ok in H as (_ & _ & [= <- <-]).
    by destruct (str_eqb _ _).
  - apply result_bind_Ok in H as (next & [-> _]%next_Ok & H).
    apply result_bind_Ok in H as (c' & E & [= <- <-]).
    apply note_mut_revision in E as (-> & -> & -> & _). split; [done|]. by right.
  - apply result_bind_Ok in H as (c' & E & [= <- <-]). by apply note_mut_revision in E as (-> & -> & -> & _).
  - apply result_bind_Ok in H as (c' & E & [= <- <-]). by apply note_mut_revision in E as (-> & -> & -> & _).
  - apply result_bind_Ok in H as (c' & E & [= <- <-]). by apply note_mut_revision in E as (-> & -> & -> & _).
Qed.

(** Every edit is all or nothing: a refused edit leaves the document
    exactly as it was, and an accepted one goes from a well-formed document
    to a well-formed document whose revision is one higher - or to the same
    document, when it activates the page that is already active. *)
Theorem notes_edits_atomic d op :
  match notes_step d op with
  | (d', Ok _) => notes_wf d ∧ notes_wf d' ∧
      (nd_revision d' = nd_revision d + 1 ∧ nd_revision d' ≤ u64_max ∨
       d' = d ∧ op = OpSetActive (nd_active_note_id d))
  | (d', Err _) => d' = d
  end.
Proof.
  pose proof (notes_step_outcome d op) as H. destruct (notes_step d op) as [d' [a|e]]; [|done].
  destruct H as (Hw & Hw' & [(-> & _ & Hop)|(c & Hc & Hr & ->)]); split_and!; try done; [by right|].
  left. apply candidate_counters in Hc as [E _]. cbn. lia.
Qed.

(** * Fresh ids *)

Fixpoint notes_run (d : NotesDocument) (ops : list notes_op) : NotesDocument * list str :=
  match ops with
  | [] => (d, [])
  | op :: ops =>
      let '(d, r) := notes_step d op in
      let '(d, ids) := notes_run d ops in
      (d, match r with Ok (Some id) => id :: ids | _ => ids end)
  end.

(** An id that the counters will still make. *)
Definition future_id (next_note next_item : Z) (id : str) : Prop :=
  ∃ n, (id = lit "note-" ++ show_Z n ∧ next_note ≤ n) ∨ (id = lit "local-" ++ show_Z n ∧ next_item ≤ n).

Lemma note_not_local m n : lit "note-" ++ show_Z m ≠ lit "local-" ++ show_Z n.
Proof. done. Qed.

Lemma notes_run_ids d ops :
  0 ≤ nd_next_note_id d → 0 ≤ nd_next_item_id d →
  NoDup (notes_run d ops).2 ∧
  Forall (future_id (nd_next_note_id d) (nd_next_item_id d)) (notes_run d ops).2.
Proof.
  revert d. induction ops as [|op ops IH]; intros d Hn Hi; [by split; constructor|].
  cbn [notes_run]. pose proof (notes_step_outcome d op) as Hs.
  destruct (notes_step d op) as [d1 r]. destruct r as [a|e]; unfold edit_outcome in Hs.
  2: { subst. specialize (IH d Hn Hi). by destruct (notes_run d ops). }
  destruct Hs as (_ & _ & [(-> & -> & _)|(c & [_ Hc]%candidate_counters & _ & ->)]).
  { specialize (IH d Hn Hi). by destruct (notes_run d ops). }
  set (d1 := c <| nd_revision := nd_revision c + 1 |>).
  assert (nd_next_note_id d1 = nd_next_note_id c ∧ nd_next_item_id d1 = nd_next_item_id c) as [E1 E2] by done.
  destruct a as [id|].
  2: { destruct Hc as [E3 E4]. specialize (IH d1 ltac:(lia) ltac:(lia)). rewrite E1, E2, E3, E4 in IH.
       by destruct (notes_run d1 ops). }
  specialize (IH d1 ltac:(lia) ltac:(lia)). destruct (notes_run d1 ops) as [d2 ids]. cbn [snd] in *.
  destruct IH as [Hd Hf]. rewrite E1, E2 in Hf. split.
  - constructor; [|done]. intros Hin. rewrite Forall_forall in Hf.
    destruct (Hf id Hin) as (n & [[E Hle]|[E Hle]]);
      destruct Hc as [(-> & H1 & H2)|(-> & H1 & H2)]; try done;
      apply app_inv_head in E; apply show_Z_inj in E; lia.
  - constructor.
    + destruct Hc as [(-> & H1 & H2)|(-> & H1 & H2)]; eexists; [left|right]; (split; [reflexivity|lia]).
    + eapply Forall_impl; [exact Hf|]. intros x (n & Hx). exists n.
      destruct Hc as [(-> & H1 & H2)|(-> & H1 & H2)]; naive_solver lia.
Qed.

(** Ids are never reused: however a well-formed document is edited, pages
    and items removed included, all the page and item ids the edits make are
    different from each other and from every id the document had. *)
Theorem notes_ids_never_reused d ops :
  notes_wf d → 0 ≤ nd_next_item_id d →
  NoDup ((notes_run d ops).2 ++ (np_id <$> nd_notes d) ++ item_ids (nd_notes d)).
Proof.
  intros (_ & _ & _ & [Hlen _] & _ & _ & (Hf & Hd1 & Hd2) & _) Hi.
  assert (0 ≤ nd_next_note_id d) as Hn.
  { destruct (nd_notes d) as [|p notes]; [cbn in Hlen; lia|]. inversion Hf as [|? ? (Hx & _)]; subst.
    destruct Hx as (n & _ & ? & ?). lia. }
  destruct (notes_run_ids d ops Hn Hi) as [Hd Hfu].
  assert (∀ id, id ∈ np_id <$> nd_notes d → ∃ n, id = lit "note-" ++ show_Z n ∧ 0 < n < nd_next_note_id d) as Hp.
  { intros id (p & -> & Hp)%list_elem_of_fmap. rewrite Forall_forall in Hf.
    destruct (Hf p Hp) as ((n & -> & ? & ?) & _). exists n. split; [done|lia]. }
  assert (∀ id, id ∈ item_ids (nd_notes d) → ∃ n, id = lit "local-" ++ show_Z n ∧ 0 < n < nd_next_item_id d) as Hit.
  { intros id (p & (i & -> & Hin)%list_elem_of_fmap & Hp2)%list_elem_of_bind. rewrite Forall_forall in Hf.
    destruct (Hf p Hp2) as (_ & _ & _ & _ & _ & Hfi). rewrite Forall_forall in Hfi.
    destruct (Hfi i Hin) as ((n & -> & ? & ?) & _). exists n. split; [done|lia]. }
  rewrite Forall_forall in Hfu. apply NoDup_app. split_and!; [done| |].
  - intros id (n & Hid)%Hfu [(m & E & Hm)%Hp|(m & E & Hm)%Hit]%elem_of_app; subst id;
      destruct Hid as [[E Hle]|[E Hle]]; try done; apply app_inv_head in E; apply show_Z_inj in E; lia.
  - apply NoDup_app. split_and!; [done| |done].
    intros id (n & -> & _)%Hp (m & E & _)%Hit. by apply note_not_local in E.
Qed.

(** * The first schema *)

Definition legacy_wf (l : LegacyNotesDocument) : Prop :=
  ld_schema_version l = 1 ∧ ld_id l = lit "global" ∧ ld_provider l = notes_provider_default ∧
  ld_next_local_id l ≠ 0 ∧ str_len (ld_note l) ≤ NOTES_NOTE_MAX_BYTES ∧
  (length (ld_items l) ≤ NOTES_ITEM_MAX_COUNT)%nat ∧
  Forall (item_wf (ld_next_local_id l)) (ld_items l) ∧ NoDup (ci_id <$> ld_items l).

(** The document with the note and the items of the first schema on one page. *)
Definition migrated (l : LegacyNotesDocument) : NotesDocument :=
  notes_document_default <| nd_revision := ld_revision l |> <| nd_next_item_id := ld_next_local_id l |>
    <| nd_notes := [mkNotePage (lit "note-1") (lit "General") (ld_note l) (ld_items l)] |>.

Lemma note_1 : lit "note-1" = lit "note-" ++ show_Z 1.
Proof. reflexivity. Qed.

Lemma migrated_wf l : legacy_wf l → notes_wf (migrated l).
Proof.
  intros (_ & _ & _ & Hn & Hb & Hl & Hi & Hd). unfold notes_wf, migrated. cbn.
  split_and!; try done; [unfold NOTES_PAGE_MAX_COUNT; lia| |by constructor].
  unfold pages_wf. cbn. rewrite app_nil_r. split_and!; [|by repeat constructor; apply not_elem_of_nil|done].
  constructor; [|constructor]. unfold page_wf. cbn [np_id np_title np_body np_items].
  split_and!; try done. exists 1. split_and!; done.
Qed.

(** Migration keeps everything: a document of the first schema is accepted
    exactly when it is well formed, and becomes one page with the same note,
    items, item counter and revision, which validates. *)
Theorem migrate_iff l d :
  migrate l = Ok d ↔ legacy_wf l ∧ d = migrated l.
Proof.
  unfold migrate. split.
  - intros H. repeat (apply result_bind_Ok in H as (? & Hx & H); revert Hx).
    rewrite validate_items_Ok by constructor. rewrite validate_local_identity_Ok, !ensure_Ok, app_nil_r.
    intros _ (Hf & Hd & _) Hl%Nat.leb_le Hb%Z.leb_le Hn [Hid Hp] Hv%Z.eqb_eq. bools.
    injection H as <-. split; [by unfold legacy_wf; split_and!|].
    unfold migrated, notes_document_default. cbn. by rewrite Hid, Hp.
  - intros [Hw ->]. pose proof (migrated_wf l Hw) as Hm. apply validate_document_iff in Hm.
    destruct Hw as (Hv & Hid & Hp & Hn & Hb & Hl & Hf & Hd).
    rewrite (proj2 (ensure_Ok (_ =? 1) _ tt)) by by apply Z.eqb_eq.
    rewrite (proj2 (validate_local_identity_Ok _ _ tt)) by done.
    rewrite (proj2 (ensure_Ok (negb (_ =? 0)) _ tt)) by by apply negb_true_iff, Z.eqb_neq.
    passes. rewrite (proj2 (validate_items_Ok (ld_items l) _ _ [] (reverse (ci_id <$> ld_items l) ++ [])
      ltac:(constructor))) by by rewrite app_nil_r.
    cbn [mbind result_bind]. rewrite Hid, Hp.
    change (mkNotesDocument _ _ _ _ _ _ _ _) with (migrated l).
    destruct (validate_document (migrated l)); [done|done].
Qed.

Lemma commit_accepts {A} d (candidate : notes_result (NotesDocument * A)) c a :
  candidate = Ok (c, a) → nd_revision c + 1 ≤ u64_max →
  notes_wf (c <| nd_revision := nd_revision c + 1 |>) →
  commit d candidate = (c <| nd_revision := nd_revision c + 1 |>, Ok a).
Proof.
  intros -> Hr Hw. unfold commit, increment_revision, checked_add. cbn [mbind result_bind].
  rewrite (proj2 (Z.leb_le _ _)) by done. cbn [ok_or mbind result_bind].
  apply validate_document_iff in Hw. by destruct (validate_document _).
Qed.

(** The document with one more, empty and active, page. *)
Definition with_page (d : NotesDocument) (title : str) : NotesDocument :=
  let id := lit "note-" ++ show_Z (nd_next_note_id d) in
  mkNotesDocument (nd_schema_version d) (nd_id d) (nd_provider d) (nd_revision d + 1)
    (nd_next_note_id d + 1) (nd_next_item_id d) id (nd_notes d ++ [mkNotePage id title [] []]).

Lemma with_page_wf d title :
  notes_wf d → trim title ≠ [] → str_len title ≤ NOTES_TITLE_MAX_BYTES →
  (length (nd_notes d) < NOTES_PAGE_MAX_COUNT)%nat → nd_next_note_id d + 1 ≤ u64_max →
  notes_wf (with_page d title).
Proof.
  intros (Hv & Hid & Hp & [Hmin _] & Hnn & Hni & (Hf & Hd1 & Hd2) & Ha) Ht Htl Hl Hn.
  assert (0 < nd_next_note_id d) as Hpos.
  { destruct (nd_notes d) as [|p notes]; [cbn in Hmin; lia|].
    apply Forall_cons in Hf as [((n & _ & ? & ?) & _) _]. lia. }
  unfold notes_wf, with_page. cbn. rewrite length_app, fmap_app. cbn. split_and!; try done; [lia..| |].
  - unfold pages_wf, item_ids. rewrite fmap_app, bind_app. cbn. rewrite app_nil_r. split_and!; [| |done].
    + apply Forall_app. split.
      * eapply Forall_impl; [exact Hf|]. intros p ((n & ? & ? & ?) & ?). split; [|done]. exists n. split_and!; [done|lia..].
      * constructor; [|constructor]. unfold page_wf. cbn. split_and!; try done; [|lia].
        eexists. split_and!; [reflexivity|lia..].
    + apply NoDup_app. split_and!; [done| |apply NoDup_singleton].
      intros id (p & -> & Hin)%list_elem_of_fmap E%list_elem_of_singleton. rewrite Forall_forall in Hf.
      destruct (Hf p Hin) as ((n & E' & ? & ?) & _). rewrite E' in E.
      apply app_inv_head, show_Z_inj in E; lia.
  - apply elem_of_app. right. constructor.
Qed.

(** Adding a page is refused only for a reason: on a well-formed document
    it succeeds exactly when the title is not blank and at most 96 bytes, the
    document has fewer than eight pages, and the page counter and revision
    are not exhausted; the new page is then last, empty, and active. *)
Theorem add_note_accepted_iff d title d' id :
  notes_wf d →
  add_note d title = (d', Ok id) ↔
  trim title ≠ [] ∧ str_len title ≤ NOTES_TITLE_MAX_BYTES ∧
  (length (nd_notes d) < NOTES_PAGE_MAX_COUNT)%nat ∧
  nd_next_note_id d + 1 ≤ u64_max ∧ nd_revision d + 1 ≤ u64_max ∧
  id = lit "note-" ++ show_Z (nd_next_note_id d) ∧ d' = with_page d title.
Proof.
  intros Hw. split.
  - intros H. pose proof (notes_step_outcome d (OpAddNote title)) as Hc.
    cbn [notes_step] in Hc. rewrite H in Hc. unfold new_id, edit_outcome in Hc.
    cbn [fst snd fmap result_fmap] in Hc. destruct Hc as (_ & Hw' & [(_ & _ & [=])|(c & Hc & Hr & ->)]).
    cbn [notes_candidate] in Hc.
    apply result_bind_Ok in Hc as (next & [-> Hn]%next_Ok & [= <- <-]).
    destruct Hw' as (_ & _ & _ & [_ Hl] & _ & _ & (Hf & _) & _). cbn in Hl, Hf, Hr.
    rewrite length_app in Hl. cbn in Hl.
    apply Forall_app in Hf as [_ [(_ & Ht & Htl & _) _]%Forall_cons]. split_and!; try done. lia.
  - intros (Ht & Htl & Hl & Hn & Hr & -> & ->). unfold add_note.
    rewrite (commit_accepts _ _
      (with_page d title <| nd_revision := nd_revision d |>) (lit "note-" ++ show_Z (nd_next_note_id d)));
      [done| |done|by apply with_page_wf].
    assert (validate_document d = Ok tt) as ->.
    { apply validate_document_iff in Hw. by destruct (validate_document d) as [[]|]. }
    cbn [mbind result_bind]. unfold checked_add. by rewrite (proj2 (Z.leb_le _ _)).
Qed.

(** * At concrete inputs *)

Lemma notes_default_wf : notes_wf notes_document_default.
Proof. apply validate_document_iff. by vm_compute. Qed.

Definition sample_edits : list notes_op :=
  [OpAddNote (lit "Build"); OpAddItem (lit "note-2") (lit "ore"); OpRemoveNote (lit "note-2");
   OpAddNote (lit "Build"); OpAddItem (lit "note-1") (lit "wood")].

Lemma notes_ids_never_reused_witness :
  (notes_run notes_document_default sample_edits).2 =
    [lit "note-2"; lit "local-1"; lit "note-3"; lit "local-2"] ∧
  NoDup ((notes_run notes_document_default sample_edits).2 ++
    (np_id <$> nd_notes notes_document_default) ++ item_ids (nd_notes notes_document_default)).
Proof.
  split; [vm_compute; reflexivity|].
  apply (notes_ids_never_reused notes_document_default sample_edits notes_default_wf). discriminate.
Defined.

Lemma add_note_accepted_iff_witness :
  add_note notes_document_default (lit "Build") =
    (with_page notes_document_default (lit "Build"), Ok (lit "note-2")).
Proof.
  apply (add_note_accepted_iff notes_document_default (lit "Build") _ _ notes_default_wf).
  repeat split; try discriminate; try reflexivity. apply Nat.ltb_lt. reflexivity.
Defined.
