(* ===== verification/NotesSpec.v ===== *)
(** An abstract specification of the notes document - pages in a finite map
    under their ids, checklist items in a finite map under theirs, and the
    orders in which both are shown - and the theorem that every edit of
    [Notes] implements the corresponding change of it. *)

From S2P Require Import Prelude Text Truncate Decimal Notes.

(** * Lists with keys as finite maps *)

Section keyed.
Context {A V : Type} (key : A → str) (view : A → V).

Definition keyed (l : list A) : gmap str V := list_to_map ((λ x, (key x, view x)) <$> l).

Lemma keyed_fst l : ((λ x, (key x, view x)) <$> l).*1 = key <$> l.
Proof. by rewrite <- list_fmap_compose. Qed.

Lemma keyed_middle l1 x l2 :
  NoDup (key <$> l1 ++ x :: l2) → keyed (l1 ++ x :: l2) = <[key x := view x]> (keyed (l1 ++ l2)).
Proof.
  intros H. change (<[key x := view x]> (keyed (l1 ++ l2))) with (keyed (x :: l1 ++ l2)). unfold keyed.
  apply list_to_map_proper; [by rewrite keyed_fst|]. by rewrite <- Permutation_middle.
Qed.

Lemma keyed_edit l1 x y l2 (f : V → V) :
  NoDup (key <$> l1 ++ x :: l2) → key y = key x → view y = f (view x) →
  keyed (l1 ++ y :: l2) = alter f (key x) (keyed (l1 ++ x :: l2)).
Proof.
  intros Hd Hk Hv. rewrite !keyed_middle; [|done|by rewrite fmap_app, fmap_cons, Hk, <- fmap_cons, <- fmap_app].
  by rewrite alter_insert_eq, Hk, Hv.
Qed.

Lemma keyed_delete l1 x l2 :
  NoDup (key <$> l1 ++ x :: l2) → keyed (l1 ++ l2) = delete (key x) (keyed (l1 ++ x :: l2)).
Proof.
  intros Hd. rewrite keyed_middle by done. symmetry. apply delete_insert_id.
  apply not_elem_of_list_to_map. rewrite keyed_fst.
  rewrite fmap_app, fmap_cons, <- Permutation_middle in Hd. rewrite fmap_app.
  by apply NoDup_cons in Hd as [? _].
Qed.

Lemma keyed_snoc l x :
  NoDup (key <$> l ++ [x]) → keyed (l ++ [x]) = <[key x := view x]> (keyed l).
Proof. intros Hd. rewrite keyed_middle by done. by rewrite app_nil_r. Qed.

(** The keys without one of them. *)
Definition without (k : str) (keys : list str) : list str := List.filter (λ k', negb (str_eqb k' k)) keys.

Lemma without_id k keys : k ∉ keys → without k keys = keys.
Proof.
  induction keys as [|k' keys IH]; intros H; [done|]. apply not_elem_of_cons in H as [Hne H]. cbn.
  rewrite (proj2 (str_eqb_neq k' k)) by done. cbn. f_equal. by apply IH.
Qed.

Lemma without_middle l1 k l2 : NoDup (l1 ++ k :: l2) → without k (l1 ++ k :: l2) = l1 ++ l2.
Proof.
  intros H. apply NoDup_app in H as (_ & H1 & [H2 _]%NoDup_cons).
  unfold without. rewrite List.filter_app. cbn. rewrite (proj2 (str_eqb_eq k k)) by done. cbn.
  fold (without k l1) (without k l2). rewrite !without_id; [done..|].
  intros Hin. apply (H1 k Hin). constructor.
Qed.
End keyed.

Lemma edit_first_Ok {A} (p : A → bool) unknown f l l' :
  edit_first p unknown f l = Ok l' →
  ∃ l1 x y l2, l = l1 ++ x :: l2 ∧ l' = l1 ++ y :: l2 ∧ p x = true ∧ f x = Ok y.
Proof.
  revert l'. induction l as [|x l IH]; intros l' H; [done|]. cbn in H. destruct (p x) eqn:E.
  - apply result_bind_Ok in H as (y & Hy & [= <-]). by exists [], x, y, l.
  - apply result_bind_Ok in H as (k & Hk & [= <-]). apply IH in Hk as (l1 & z & y & l2 & -> & -> & ? & ?).
    by exists (x :: l1), z, y, l2.
Qed.

(** * The specification *)

Record PageView := mkPageView {
  pv_title : str;
  pv_body : str;
  pv_items : gmap str (str * bool);
  pv_order : list str
}.
#[export] Instance PageView_eta : Eta PageView := λ p,
  mkPageView (pv_title p) (pv_body p) (pv_items p) (pv_order p).

Record NotesView := mkNotesView {
  nv_pages : gmap str PageView;
  nv_order : list str;
  nv_active : str
}.
#[export] Instance NotesView_eta : Eta NotesView := λ v,
  mkNotesView (nv_pages v) (nv_order v) (nv_active v).

Definition view_item (i : ChecklistItem) : str * bool := (ci_text i, ci_checked i).
Definition view_page (p : NotePage) : PageView :=
  mkPageView (np_title p) (np_body p) (keyed ci_id view_item (np_items p)) (ci_id <$> np_items p).
Definition notes_view (d : NotesDocument) : NotesView :=
  mkNotesView (keyed np_id view_page (nd_notes d)) (np_id <$> nd_notes d) (nd_active_note_id d).

(** The page after a removed one, or the new last page. *)
Definition successor (id : str) (order : list str) : option str :=
  index ← position (λ k, str_eqb k id) order;
  without id order !! Nat.min index (pred (length (without id order))).

(** What an edit means, given the id it made. *)
Definition spec_step (v : NotesView) (op : notes_op) (made : option str) : NotesView :=
  match op, made with
  | OpAddNote title, Some id =>
      mkNotesView (<[id := mkPageView title [] ∅ []]> (nv_pages v)) (nv_order v ++ [id]) id
  | OpSetActive id, _ => v <| nv_active := id |>
  | OpUpdate id title body, _ =>
      v <| nv_pages ::= alter (λ p, p <| pv_title := title |> <| pv_body := body |>) id |>
  | OpRemoveNote id, _ =>
      mkNotesView (delete id (nv_pages v)) (without id (nv_order v))
        (if str_eqb (nv_active v) id then default (nv_active v) (successor id (nv_order v)) else nv_active v)
  | OpAddItem id text, Some item =>
      v <| nv_pages ::= alter (λ p, p <| pv_items ::= <[item := (text, false)]> |>
                                      <| pv_order ::= λ order, order ++ [item] |>) id |>
  | OpSetText id item text, _ =>
      v <| nv_pages ::= alter (λ p, p <| pv_items ::= alter (λ i, (text, i.2)) item |>) id |>
  | OpSetChecked id item checked, _ =>
      v <| nv_pages ::= alter (λ p, p <| pv_items ::= alter (λ i, (i.1, checked)) item |>) id |>
  | OpRemoveItem id item, _ =>
      v <| nv_pages ::= alter (λ p, p <| pv_items ::= delete item |>
                                      <| pv_order ::= without item |>) id |>
  | _, None => v
  end.

(** The page and item an edit is about exist. *)
Definition spec_defined (v : NotesView) (op : notes_op) : Prop :=
  match op with
  | OpAddNote _ => True
  | OpSetActive id | OpUpdate id _ _ | OpRemoveNote id | OpAddItem id _ => is_Some (nv_pages v !! id)
  | OpSetText id item _ | OpSetChecked id item _ | OpRemoveItem id item =>
      ∃ p, nv_pages v !! id = Some p ∧ is_Some (pv_items p !! item)
  end.

(** * Refinement *)

Lemma keyed_is_Some {A V} (key : A → str) (view : A → V) l x :
  x ∈ l → is_Some (keyed key view l !! key x).
Proof.
  intros Hx. destruct (keyed key view l !! key x) eqn:E; [eauto|].
  unfold keyed in E. apply not_elem_of_list_to_map in E. rewrite keyed_fst in E.
  destruct E. by apply list_elem_of_fmap_2.
Qed.

Lemma keyed_lookup_middle {A V} (key : A → str) (view : A → V) l1 x l2 :
  NoDup (key <$> l1 ++ x :: l2) → keyed key view (l1 ++ x :: l2) !! key x = Some (view x).
Proof. intros H. rewrite keyed_middle by done. apply lookup_insert_eq. Qed.

(** An edit of one page. *)
Lemma note_mut_view d id f c (g : PageView → PageView) :
  NoDup (np_id <$> nd_notes d) →
  note_mut d id f = Ok c →
  (∀ p q, p ∈ nd_notes d → f p = Ok q → np_id q = np_id p ∧ view_page q = g (view_page p)) →
  notes_view c = notes_view d <| nv_pages ::= alter g id |> ∧
  ∃ p q, f p = Ok q ∧ p ∈ nd_notes d ∧ nv_pages (notes_view d) !! id = Some (view_page p).
Proof.
  intros Hd H Hf. unfold note_mut in H. apply result_bind_Ok in H as (notes & H & [= <-]).
  apply edit_first_Ok in H as (l1 & p & q & l2 & E & -> & Hp & Hq). apply str_eqb_eq in Hp as <-.
  assert (p ∈ nd_notes d) as Hin by (rewrite E; apply elem_of_app; right; constructor).
  destruct (Hf p q Hin Hq) as [Hid Hv]. split.
  - unfold notes_view. cbn. rewrite E in *. f_equal.
    + by apply keyed_edit.
    + by rewrite !fmap_app, !fmap_cons, Hid.
  - exists p, q. split_and!; [done..|]. cbn. rewrite E in *. by apply keyed_lookup_middle.
Qed.

Lemma page_items_NoDup notes p : NoDup (item_ids notes) → p ∈ notes → NoDup (ci_id <$> np_items p).
Proof.
  intros H Hp. apply list_elem_of_split in Hp as (l1 & l2 & ->).
  unfold item_ids in H. rewrite bind_app in H. cbn in H.
  apply NoDup_app in H as (_ & _ & H). by apply NoDup_app in H as (? & _ & _).
Qed.

(** An edit of one item. *)
Lemma item_mut_view d id item f c (g : str * bool → str * bool) :
  NoDup (np_id <$> nd_notes d) → NoDup (item_ids (nd_notes d)) →
  item_mut d id item f = Ok c →
  (∀ i, ci_id (f i) = ci_id i ∧ view_item (f i) = g (view_item i)) →
  notes_view c =
    notes_view d <| nv_pages ::= alter (λ p, p <| pv_items ::= alter g item |>) id |> ∧
  ∃ p, nv_pages (notes_view d) !! id = Some p ∧ is_Some (pv_items p !! item).
Proof.
  intros Hd Hi H Hf. unfold item_mut in H.
  apply (note_mut_view d id _ c (λ p, p <| pv_items ::= alter g item |>)) in H as [Hv (p & q & Hq & Hp & Hl)].
  - split; [done|]. exists (view_page p). split; [done|].
    apply result_bind_Ok in Hq as (items & H & _).
    apply edit_first_Ok in H as (l1 & x & y & l2 & E & _ & Hx & _). apply str_eqb_eq in Hx as <-.
    apply keyed_is_Some. rewrite E. apply elem_of_app. right. constructor.
  - done.
  - intros p q Hp Hq. apply result_bind_Ok in Hq as (items & Hq & [= <-]). split; [done|].
    apply edit_first_Ok in Hq as (l1 & x & y & l2 & E & -> & Hx & [= <-]). apply str_eqb_eq in Hx as <-.
    destruct (Hf x) as [Hid Hvx]. pose proof (page_items_NoDup _ _ Hi Hp) as Hn.
    unfold view_page. cbn. rewrite E in *. f_equal; [by apply keyed_edit|].
    by rewrite !fmap_app, !fmap_cons, Hid.
Qed.

Lemma position_key {A} (key : A → str) id l :
  position (λ k, str_eqb k id) (key <$> l) = position (λ x, str_eqb (key x) id) l.
Proof. induction l as [|x l IH]; cbn; [done|]. destruct (str_eqb (key x) id); [done|]. by rewrite IH. Qed.

(** Removing the element at the position of its key. *)
Lemma keyed_remove {A V} (key : A → str) (view : A → V) l id index :
  NoDup (key <$> l) → position (λ x, str_eqb (key x) id) l = Some index →
  keyed key view (delete index l) = delete id (keyed key view l) ∧
  key <$> delete index l = without id (key <$> l) ∧ is_Some (keyed key view l !! id).
Proof.
  intros Hd H. apply position_Some in H as (x & Hx & Hid & _). apply str_eqb_eq in Hid as <-.
  destruct (delete_lookup_split index l x Hx) as [E E']. rewrite E'.
  pose proof Hd as Hd'. rewrite E in Hd'. split_and!.
  - rewrite E at 3. by apply keyed_delete.
  - rewrite E at 3. rewrite !fmap_app, fmap_cons in *. by rewrite without_middle.
  - apply keyed_is_Some. by apply list_elem_of_lookup_2 with index.
Qed.

#[global] Arguments keyed : simpl never.
#[global] Arguments without : simpl never.

Lemma note_is_Some d id p : note d id = Some p → is_Some (nv_pages (notes_view d) !! id).
Proof. intros [Hp <-%str_eqb_eq]%find_first_Some. by apply keyed_is_Some. Qed.

Lemma view_with_item p item : NoDup (ci_id <$> np_items p ++ [item]) →
  view_page (p <| np_items ::= λ items, items ++ [item] |>) =
  view_page p <| pv_items ::= <[ci_id item := view_item item]> |> <| pv_order ::= λ order, order ++ [ci_id item] |>.
Proof. intros H. unfold view_page. cbn. rewrite keyed_snoc by done. by rewrite fmap_app. Qed.

Lemma item_fresh d p :
  notes_wf d → p ∈ nd_notes d →
  NoDup (ci_id <$> np_items p) ∧ lit "local-" ++ show_Z (nd_next_item_id d) ∉ ci_id <$> np_items p.
Proof.
  intros (_ & _ & _ & _ & _ & _ & (Hf & _ & Hi) & _) Hp. split; [by eapply page_items_NoDup|].
  intros (i & E & Hin)%list_elem_of_fmap. rewrite Forall_forall in Hf.
  destruct (Hf p Hp) as (_ & _ & _ & _ & _ & Hfi). rewrite Forall_forall in Hfi.
  destruct (Hfi i Hin) as [(n & E' & ? & ?) _]. rewrite E' in E.
  apply app_inv_head, show_Z_inj in E; lia.
Qed.

Lemma candidate_view d op c a :
  notes_wf d → notes_candidate d op = Ok (c, a) → pages_wf (nd_next_note_id c) (nd_next_item_id c) (nd_notes c) →
  notes_view c = spec_step (notes_view d) op a ∧ spec_defined (notes_view d) op.
Proof.
  intros Hw H (_ & Hcd & _). pose proof Hw as (_ & _ & _ & _ & _ & _ & (_ & Hd & Hi) & _).
  destruct op; cbn [notes_candidate] in H; cbn [spec_step spec_defined].
  - apply result_bind_Ok in H as (next & _ & [= <- <-]). split; [|done].
    unfold notes_view. cbn in Hcd |- *. rewrite fmap_app. f_equal. by rewrite keyed_snoc.
  - destruct (note d note_id) eqn:E; [|done]. simplify_eq. split; [done|by eapply note_is_Some].
  - apply result_bind_Ok in H as (c' & H & [= <- <-]).
    eapply note_mut_view in H as [Hv (p & q & _ & _ & Hl)]; [by split; [exact Hv|]|done|].
    intros p q _ [= <-]. by split.
  - apply result_bind_Ok in H as (index & Hx%ok_or_Ok & H).
    apply result_bind_Ok in H as (_ & _ & H). injection H as <- <-.
    destruct (keyed_remove np_id view_page (nd_notes d) note_id index Hd Hx) as (H1 & H2 & H3).
    split; [|done]. cbn [nd_active_note_id set_field].
    unfold notes_view; destruct (str_eqb (nd_active_note_id d) note_id) eqn:E; cbn; rewrite H1, H2, E;
      [|done]. f_equal. unfold replacement_id, successor.
    rewrite position_key, Hx. cbn. rewrite <- H2, length_fmap, list_lookup_fmap. done.
  - apply result_bind_Ok in H as (next & _ & H). apply result_bind_Ok in H as (c' & H & [= <- <-]).
    set (item := lit "local-" ++ show_Z (nd_next_item_id d)) in *.
    set (d1 := d <| nd_next_item_id := next |>) in H.
    apply (note_mut_view d1 note_id _ c' (λ p, p <| pv_items ::= <[item := (text, false)]> |>
      <| pv_order ::= λ order, order ++ [item] |>)) in H as [Hv (p & q & _ & _ & Hl)];
      [split; [exact Hv|by eexists]|done|].
    intros p q Hp [= <-]. split; [done|]. apply (view_with_item p (mkChecklistItem item text false)).
    destruct (item_fresh d p Hw Hp) as [Hn Hni].
    rewrite fmap_app. cbn. apply NoDup_app. split_and!; [done| |apply NoDup_singleton].
    by intros x Hx ->%list_elem_of_singleton.
  - apply result_bind_Ok in H as (c' & H & [= <- <-]).
    by apply (item_mut_view d note_id item_id _ c' (λ i, (text, i.2))) in H.
  - apply result_bind_Ok in H as (c' & H & [= <- <-]).
    by apply (item_mut_view d note_id item_id _ c' (λ i, (i.1, checked))) in H.
  - apply result_bind_Ok in H as (c' & H & [= <- <-]).
    apply (note_mut_view d note_id _ c' (λ p, p <| pv_items ::= delete item_id |>
      <| pv_order ::= without item_id |>)) in H as [Hv (p & q & Hq & Hp & Hl)].
    + split; [done|]. exists (view_page p). split; [done|].
      apply result_bind_Ok in Hq as (index & Hx%ok_or_Ok & _).
      by eapply keyed_remove; [eapply page_items_NoDup|].
    + done.
    + intros p q Hp Hq. apply result_bind_Ok in Hq as (index & Hx%ok_or_Ok & [= <-]). split; [done|].
      destruct (keyed_remove ci_id view_item (np_items p) item_id index) as (H1 & H2 & _);
        [by eapply page_items_NoDup|done|].
      unfold view_page. cbn. by rewrite H1, H2.
Qed.

(** C11 Every edit means what its name says: seen as pages and checklist items
    under their ids, with the orders they are shown in, an accepted edit of
    an existing page or item is exactly the corresponding insertion, update
    or removal, nothing else changes, and after the active page is removed
    its successor is active, or the new last page. *)
Theorem notes_edits_refine d op :
  match notes_step d op with
  | (d', Ok made) =>
      notes_view d' = spec_step (notes_view d) op made ∧ spec_defined (notes_view d) op
  | (d', Err _) => notes_view d' = notes_view d
  end.
Proof.
  pose proof (notes_step_outcome d op) as H. destruct (notes_step d op) as [d' [a|e]]; cbn in H; [|by subst].
  destruct H as (Hw & Hw' & [(-> & -> & ->)|(c & Hc & _ & ->)]).
  - cbn. split; [done|]. destruct Hw as (_ & _ & _ & _ & _ & _ & _ & (p & -> & Hp)%list_elem_of_fmap).
    by apply keyed_is_Some.
  - change (notes_view (c <| nd_revision := nd_revision c + 1 |>)) with (notes_view c).
    apply (candidate_view d op c a); [done..|]. by destruct Hw' as (_ & _ & _ & _ & _ & _ & ? & _).
Qed.
