(* ===== verification/NotesService.v ===== *)
(** The notes service ([crates/overcrow-overlay/src/notes/service.rs]): the
    interface thread edits a desired document and wakes a worker thread that
    saves it; both publish updates to one slot.  A step of the model is what
    one thread does between two accesses to shared state, so that runs of the
    model are the interleavings of the two threads. *)

From S2P Require Import Prelude Text Truncate Decimal Notes.

Definition NOTES_ERROR_MAX_CHARS : nat := 180.
#[global] Arguments NOTES_ERROR_MAX_CHARS : simpl never.

(** * Shared state *)

Record NotesUpdate := mkNotesUpdate {
  nu_document : NotesDocument;
  nu_save_pending : bool;
  nu_error : option str;
  nu_durability_warning : bool
}.

Record PublishedNotesUpdate := mkPublishedNotesUpdate {
  pu_generation : Z;
  pu_update : NotesUpdate
}.

Record WorkerState := mkWorkerState {
  ws_ready : bool;
  ws_committed : NotesDocument;
  ws_desired : NotesDocument;
  ws_pending : option NotesDocument;
  ws_generation : Z
}.
#[export] Instance WorkerState_eta : Eta WorkerState := λ w,
  mkWorkerState (ws_ready w) (ws_committed w) (ws_desired w) (ws_pending w) (ws_generation w).

Definition worker_state_default : WorkerState :=
  mkWorkerState false notes_document_default notes_document_default None 0.

Record UpdateSlot := mkUpdateSlot {
  us_newest_generation : Z;
  us_latest : option PublishedNotesUpdate
}.

Definition bound_error (message : str) : str :=
  if (length message <=? NOTES_ERROR_MAX_CHARS)%nat then message
  else take (NOTES_ERROR_MAX_CHARS - 1) message ++ [8230].

(** What [Display] prints for an error. *)
Definition notes_error_text (e : NotesError) : str :=
  match e with
  | NotesValidation message => lit "invalid notes document: " ++ message
  | NotesRepository message => lit "notes repository failed: " ++ message
  | NotesIo source => lit "notes I/O failed: " ++ source
  | NotesJson source => lit "invalid notes JSON: " ++ source
  | NotesCommitted source =>
      lit "notes were replaced but parent directory sync failed: " ++ source
  end.

Definition next_update_for_state (w : WorkerState) (error : option str) (durability_warning : bool) :
    WorkerState * PublishedNotesUpdate :=
  let w := w <| ws_generation ::= λ g, saturating_add u64_max g 1 |> in
  (w, mkPublishedNotesUpdate (ws_generation w)
        (mkNotesUpdate (ws_committed w) (isSome (ws_pending w)) (bound_error <$> error)
           durability_warning)).

(** * What each thread does under the lock *)

(** [NotesService::send], up to the release of the lock. *)
Definition send_locked (w : WorkerState) (command : notes_op) :
    notes_result (WorkerState * PublishedNotesUpdate) :=
  if negb (ws_ready w) then Err (NotesRepository (lit "notes are still loading"))
  else
    let '(candidate, applied) := notes_step (ws_desired w) command in
    _ ← applied;
    _ ← validate_document candidate;
    Ok (next_update_for_state
          (w <| ws_desired := candidate |> <| ws_pending := Some candidate |>) None false).

(** The second critical section of [send], when the worker is gone. *)
Definition rollback_locked (w : WorkerState) : WorkerState * PublishedNotesUpdate :=
  next_update_for_state (w <| ws_desired := ws_committed w |> <| ws_pending := None |>)
    (Some (lit "notes repository failed: notes worker unavailable")) false.

(** [run_worker] after loading. *)
Definition loaded_locked (w : WorkerState) (load_result : notes_result NotesDocument) :
    WorkerState * PublishedNotesUpdate :=
  let w := w <| ws_ready := true |> in
  match load_result with
  | Ok document =>
      next_update_for_state (w <| ws_committed := document |> <| ws_desired := document |>) None false
  | Err e => next_update_for_state w (Some (notes_error_text e)) false
  end.

(** [run_worker] after saving [candidate]. *)
Definition saved_locked (w : WorkerState) (candidate : NotesDocument) (result : notes_result unit) :
    WorkerState * PublishedNotesUpdate :=
  match result with
  | Ok _ =>
      let w := w <| ws_committed := candidate |> in
      next_update_for_state (if isNone (ws_pending w) then w <| ws_desired := candidate |> else w) None false
  | Err e =>
      if was_committed e then
        let w := w <| ws_committed := candidate |> in
        next_update_for_state (if isNone (ws_pending w) then w <| ws_desired := candidate |> else w)
          (Some (notes_error_text e)) true
      else
        next_update_for_state (if isNone (ws_pending w) then w <| ws_desired := ws_committed w |> else w)
          (Some (notes_error_text e)) false
  end.

(** The locked half of [UpdatePublisher::publish]; [None] for a stale update. *)
Definition publish_locked (slot : UpdateSlot) (u : PublishedNotesUpdate) : option UpdateSlot :=
  if pu_generation u <=? us_newest_generation slot then None
  else Some (mkUpdateSlot (pu_generation u) (Some u)).

(** * The two threads *)

(** Where the worker goes when an update is published. *)
Inductive worker_next := NextRecv | NextTake.

Inductive worker_pc :=
| WkLoad
| WkStore (u : PublishedNotesUpdate) (next : worker_next)
| WkNotify (next : worker_next)
| WkRecv
| WkTake
| WkCheck
| WkSave (candidate : NotesDocument)
| WkExit.

(** What follows a publication of the interface thread. *)
Inductive caller_next := NextWake | NextDone.

Inductive caller_pc :=
| CIdle
| CStore (u : PublishedNotesUpdate) (next : caller_next)
| CNotify (next : caller_next)
| CWake
| CRollback
| CTake
| CStopWake
| CJoin.

(** [sy_disk] is the document in the repository, unknown until a load or a
    save tells; [sy_shown] the last update that entered the slot and
    [sy_taken] the one the interface took last. *)
Record System := mkSystem {
  sy_state : WorkerState;
  sy_slot : UpdateSlot;
  sy_ready : bool;
  sy_wake : bool;
  sy_shutdown : bool;
  sy_worker : worker_pc;
  sy_caller : caller_pc;
  sy_disk : option NotesDocument;
  sy_shown : option NotesUpdate;
  sy_taken : option NotesUpdate
}.
#[export] Instance System_eta : Eta System := λ s,
  mkSystem (sy_state s) (sy_slot s) (sy_ready s) (sy_wake s) (sy_shutdown s) (sy_worker s)
    (sy_caller s) (sy_disk s) (sy_shown s) (sy_taken s).

Definition slot_default : UpdateSlot := mkUpdateSlot 0 None.

(** [spawn_with_logger], when the thread starts and when it does not. *)
Definition spawned : System :=
  mkSystem worker_state_default slot_default false false false WkLoad CIdle None None None.
Definition spawn_failed : System :=
  let '(w, u) := next_update_for_state (worker_state_default <| ws_ready := true |>)
                   (Some (lit "notes worker could not be started")) false in
  mkSystem w slot_default false false false WkExit (CStore u NextDone) None None None.

Inductive input :=
| InSend (command : notes_op)
| InTake
| InShutdown
| InCaller
| InLoad (result : notes_result NotesDocument)
| InSave (result : notes_result unit)
| InWorker.

(** The locked half of a publication: the new slot, and whether the other
    half, the notification, follows. *)
Definition store_update (s : System) (u : PublishedNotesUpdate) : System * bool :=
  match publish_locked (sy_slot s) u with
  | Some slot => (s <| sy_slot := slot |> <| sy_shown := Some (pu_update u) |>, true)
  | None => (s, false)
  end.

Definition caller_after (next : caller_next) : caller_pc :=
  match next with NextWake => CWake | NextDone => CIdle end.
Definition worker_after (next : worker_next) : worker_pc :=
  match next with NextRecv => WkRecv | NextTake => WkTake end.

Definition worker_gone (pc : worker_pc) : bool := match pc with WkExit => true | _ => false end.

(** The next step of the interface thread, inside a call. *)
Definition caller_step (s : System) : option System :=
  match sy_caller s with
  | CStore u next =>
      let '(s, stored) := store_update s u in
      Some (s <| sy_caller := if stored then CNotify next else caller_after next |>)
  | CNotify next => Some (s <| sy_ready := true |> <| sy_caller := caller_after next |>)
  | CWake =>
      if worker_gone (sy_worker s) then Some (s <| sy_caller := CRollback |>)
      else Some (s <| sy_wake := true |> <| sy_caller := CIdle |>)
  | CRollback =>
      let '(w, u) := rollback_locked (sy_state s) in
      Some (s <| sy_state := w |> <| sy_caller := CStore u NextDone |>)
  | CTake =>
      Some (s <| sy_slot := mkUpdateSlot (us_newest_generation (sy_slot s)) None |>
              <| sy_taken := match us_latest (sy_slot s) with
                             | Some u => Some (pu_update u)
                             | None => sy_taken s
                             end |>
              <| sy_caller := CIdle |>)
  | CStopWake =>
      Some (s <| sy_wake := sy_wake s || negb (worker_gone (sy_worker s)) |> <| sy_caller := CJoin |>)
  | CIdle | CJoin => None
  end.

(** The next step of the worker, outside the repository. *)
Definition worker_step (s : System) : option System :=
  match sy_worker s with
  | WkStore u next =>
      let '(s, stored) := store_update s u in
      Some (s <| sy_worker := if stored then WkNotify next else worker_after next |>)
  | WkNotify next => Some (s <| sy_ready := true |> <| sy_worker := worker_after next |>)
  | WkRecv =>
      if sy_wake s then Some (s <| sy_wake := false |> <| sy_worker := WkTake |>) else None
  | WkTake =>
      match ws_pending (sy_state s) with
      | Some candidate =>
          Some (s <| sy_state ::= (λ w, w <| ws_pending := None |>) |> <| sy_worker := WkSave candidate |>)
      | None => Some (s <| sy_worker := WkCheck |>)
      end
  | WkCheck => Some (s <| sy_worker := if sy_shutdown s then WkExit else WkRecv |>)
  | WkLoad | WkSave _ | WkExit => None
  end.

(** What a save leaves in the repository: an error other than a committed
    one means the old document is still there. *)
Definition disk_after (result : notes_result unit) (candidate : NotesDocument) (disk : option NotesDocument) :
    option NotesDocument :=
  match result with
  | Ok _ => Some candidate
  | Err e => if was_committed e then Some candidate else disk
  end.

Definition system_step (s : System) (i : input) : option System :=
  match i with
  | InSend command =>
      match sy_caller s, send_locked (sy_state s) command with
      | CIdle, Ok (w, u) => Some (s <| sy_state := w |> <| sy_caller := CStore u NextWake |>)
      | CIdle, Err _ => Some s
      | _, _ => None
      end
  | InTake =>
      match sy_caller s with
      | CIdle => Some (if sy_ready s then s <| sy_ready := false |> <| sy_caller := CTake |> else s)
      | _ => None
      end
  | InShutdown =>
      match sy_caller s with
      | CIdle => Some (s <| sy_shutdown := true |> <| sy_caller := CStopWake |>)
      | _ => None
      end
  | InCaller => caller_step s
  | InLoad result =>
      match sy_worker s with
      | WkLoad =>
          let '(w, u) := loaded_locked (sy_state s) result in
          Some (s <| sy_state := w |> <| sy_disk := ok_opt result |> <| sy_worker := WkStore u NextRecv |>)
      | _ => None
      end
  | InSave result =>
      match sy_worker s with
      | WkSave candidate =>
          let '(w, u) := saved_locked (sy_state s) candidate result in
          Some (s <| sy_state := w |> <| sy_disk ::= disk_after result candidate |>
                  <| sy_worker := WkStore u NextTake |>)
      | _ => None
      end
  | InWorker => worker_step s
  end.

Fixpoint system_run (s : System) (inputs : list input) : option System :=
  match inputs with [] => Some s | i :: inputs => s ← system_step s i; system_run s inputs end.

(** What the service can reach from its start. *)
Inductive reachable : System → Prop :=
| reach_spawned : reachable spawned
| reach_spawn_failed : reachable spawn_failed
| reach_step s i s' : reachable s → system_step s i = Some s' → reachable s'.

(** * The invariant *)

Definition saving (pc : worker_pc) : bool := match pc with WkSave _ => true | _ => false end.

(** The worker is, or will be before it looks at the pending document again,
    at [wake.recv()]. *)
Definition will_recv (pc : worker_pc) : bool :=
  match pc with
  | WkRecv | WkCheck | WkStore _ NextRecv | WkNotify NextRecv => true
  | _ => false
  end.

(** The interface thread is on its way to [wake.try_send(())]. *)
Definition will_wake (pc : caller_pc) : bool :=
  match pc with CStore _ NextWake | CNotify NextWake | CWake => true | _ => false end.

Definition caller_flight (pc : caller_pc) : option PublishedNotesUpdate :=
  match pc with CStore u _ => Some u | _ => None end.
Definition worker_flight (pc : worker_pc) : option PublishedNotesUpdate :=
  match pc with WkStore u _ => Some u | _ => None end.

(** What an edit of the desired document, a save and a load agree on. *)
Definition documents_agree (w : WorkerState) (pc : worker_pc) (disk : option NotesDocument) : Prop :=
  ws_desired w = match ws_pending w with
                 | Some c => c
                 | None => match pc with WkSave c => c | _ => ws_committed w end
                 end ∧
  (disk = None ∨ disk = Some (ws_committed w)).

Definition lifecycle_agrees (w : WorkerState) (pc : worker_pc) : Prop :=
  match pc with
  | WkLoad => ws_ready w = false ∧ ws_pending w = None ∧ ws_generation w = 0
  | _ => ws_ready w = true ∧ 0 < ws_generation w
  end.

(** No wake-up is lost: a pending document, or a shutdown, always meets a
    worker that will look at it. *)
Definition wakes (w : WorkerState) (wake shutdown : bool) (wpc : worker_pc) (cpc : caller_pc) : Prop :=
  (ws_pending w ≠ None → will_recv wpc = true → wake = true ∨ will_wake cpc = true) ∧
  (shutdown = true →
     match wpc with WkLoad | WkRecv | WkStore _ NextRecv | WkNotify NextRecv => true | _ => false end = true →
     wake = true ∨ cpc = CStopWake).

(** The update [u] has the newest generation [g]. *)
Definition holds_update (g : Z) (slot : UpdateSlot) (shown : option NotesUpdate)
    (cpc : caller_pc) (wpc : worker_pc) (u : NotesUpdate) : Prop :=
  (us_newest_generation slot = g ∧ shown = Some u) ∨
  caller_flight cpc = Some (mkPublishedNotesUpdate g u) ∨
  worker_flight wpc = Some (mkPublishedNotesUpdate g u).

Definition update_current (w : WorkerState) (wpc : worker_pc) (u : NotesUpdate) : Prop :=
  nu_document u = ws_committed w ∧ nu_save_pending u = isSome (ws_pending w) || saving wpc.

Definition updates_agree (w : WorkerState) (slot : UpdateSlot) (shown : option NotesUpdate)
    (cpc : caller_pc) (wpc : worker_pc) : Prop :=
  0 ≤ us_newest_generation slot ≤ ws_generation w ∧ ws_generation w ≤ u64_max ∧
  (∀ u, caller_flight cpc = Some u → pu_generation u ≤ ws_generation w) ∧
  (∀ u, worker_flight wpc = Some u → pu_generation u ≤ ws_generation w) ∧
  (0 < us_newest_generation slot → shown ≠ None) ∧
  (0 < ws_generation w → ∃ u, holds_update (ws_generation w) slot shown cpc wpc u) ∧
  (0 < ws_generation w < u64_max → ∀ u, holds_update (ws_generation w) slot shown cpc wpc u →
     update_current w wpc u).

Definition slot_agrees (slot : UpdateSlot) (ready : bool) (shown taken : option NotesUpdate)
    (cpc : caller_pc) (wpc : worker_pc) : Prop :=
  match us_latest slot with
  | Some p => shown = Some (pu_update p) ∧
      (ready = true ∨ (∃ n, cpc = CNotify n) ∨ (∃ n, wpc = WkNotify n) ∨ cpc = CTake)
  | None => taken = shown
  end.

Record invariant (s : System) : Prop := mkInvariant {
  inv_documents : documents_agree (sy_state s) (sy_worker s) (sy_disk s);
  inv_lifecycle : lifecycle_agrees (sy_state s) (sy_worker s);
  inv_wakes : wakes (sy_state s) (sy_wake s) (sy_shutdown s) (sy_worker s) (sy_caller s);
  inv_updates : updates_agree (sy_state s) (sy_slot s) (sy_shown s) (sy_caller s) (sy_worker s);
  inv_slot : slot_agrees (sy_slot s) (sy_ready s) (sy_shown s) (sy_taken s) (sy_caller s) (sy_worker s);
  inv_caller : sy_caller s = CRollback → sy_worker s = WkExit
}.

Lemma invariant_spawned : invariant spawned.
Proof.
  split; cbn; try done.
  - unfold documents_agree. cbn. auto.
  - unfold updates_agree. cbn. split_and!; try done; lia.
Qed.

Lemma invariant_spawn_failed : invariant spawn_failed.
Proof.
  split; cbn; try done.
  - unfold documents_agree. cbn. auto.
  - unfold updates_agree, holds_update, update_current. cbn. split_and!; try done.
    + by intros u [= <-].
    + intros _. eexists. right. left. reflexivity.
    + intros _ u [[? ?]|[[= <-]|?]]; done.
Qed.

(** * Its preservation *)

Lemma next_update_generation w e b w2 u :
  next_update_for_state w e b = (w2, u) →
  w2 = w <| ws_generation := Z.min u64_max (ws_generation w + 1) |> ∧
  pu_generation u = Z.min u64_max (ws_generation w + 1) ∧
  nu_document (pu_update u) = ws_committed w ∧ nu_save_pending (pu_update u) = isSome (ws_pending w).
Proof. unfold next_update_for_state, saturating_add. by intros [= <- <-]. Qed.

(** A new update, carried by a thread that carried none. *)
Lemma updates_new w slot shown cpc wpc w' e b w2 u cpc' wpc' :
  updates_agree w slot shown cpc wpc → ws_generation w' = ws_generation w →
  next_update_for_state w' e b = (w2, u) →
  (∀ v, caller_flight cpc' = Some v → v = u ∨ caller_flight cpc = Some v) →
  (∀ v, worker_flight wpc' = Some v → v = u ∨ worker_flight wpc = Some v) →
  caller_flight cpc' = Some u ∨ worker_flight wpc' = Some u →
  isSome (ws_pending w') = isSome (ws_pending w') || saving wpc' →
  updates_agree w2 slot shown cpc' wpc'.
Proof.
  intros (Hn & Hg & Hc & Hw & Hs & _ & _) Eg Hu Hfc Hfw Hin Hsave.
  apply next_update_generation in Hu as (-> & Hgen & Hd & Hp).
  assert (u = mkPublishedNotesUpdate (Z.min u64_max (ws_generation w' + 1)) (pu_update u)) as Eu.
  { destruct u. cbn in *. by rewrite Hgen. }
  rewrite Eg in *. unfold updates_agree. cbn [ws_generation ws_committed ws_pending set_field].
  split_and!; [lia|lia|lia| | |done| |].
  - intros v [->|Hv]%Hfc; [lia|]. apply Hc in Hv. lia.
  - intros v [->|Hv]%Hfw; [lia|]. apply Hw in Hv. lia.
  - intros _. exists (pu_update u). unfold holds_update. rewrite Eu in Hin. cbn in Hin. tauto.
  - intros Hlt v [[Hnew _]|[Hv|Hv]]; [lia| |].
    + apply Hfc in Hv as [<-|Hv%Hc]; [|cbn in Hv; lia]. cbn in Hd, Hp.
      unfold update_current. cbn. by rewrite Hd, Hp.
    + apply Hfw in Hv as [<-|Hv%Hw]; [|cbn in Hv; lia]. cbn in Hd, Hp.
      unfold update_current. cbn. by rewrite Hd, Hp.
Qed.

(** An update leaves its thread for the slot, or is dropped as stale. *)
Lemma updates_store w slot shown cpc wpc u cpc' wpc' :
  updates_agree w slot shown cpc wpc →
  caller_flight cpc = Some u ∨ worker_flight wpc = Some u →
  (∀ v, caller_flight cpc = Some v → v = u ∨ caller_flight cpc' = Some v) →
  (∀ v, worker_flight wpc = Some v → v = u ∨ worker_flight wpc' = Some v) →
  (∀ v, caller_flight cpc' = Some v → caller_flight cpc = Some v) →
  (∀ v, worker_flight wpc' = Some v → worker_flight wpc = Some v) →
  saving wpc' = saving wpc →
  match publish_locked slot u with
  | Some slot' => updates_agree w slot' (Some (pu_update u)) cpc' wpc'
  | None => updates_agree w slot shown cpc' wpc'
  end.
Proof.
  intros (Hn & Hg & Hc & Hw & Hs & Hex & Hall) Hu Hfc Hfw Hc' Hw' Hsv.
  assert (pu_generation u ≤ ws_generation w) as Hle by (destruct Hu as [?%Hc|?%Hw]; done).
  unfold publish_locked. destruct (Z.leb_spec (pu_generation u) (us_newest_generation slot)) as [Hst|Hst].
  - split_and!; try done; [naive_solver..| |].
    + intros H0. destruct (Hex H0) as (v & [[E Ev]|[Hv|Hv]]).
      * exists v. by left.
      * apply Hfc in Hv as [<-|Hv]; [|exists v; right; by left]. cbn in Hst.
        destruct shown as [x|]; [|by destruct Hs; [lia|]]. exists x. left. split; [lia|done].
      * apply Hfw in Hv as [<-|Hv]; [|exists v; right; by right]. cbn in Hst.
        destruct shown as [x|]; [|by destruct Hs; [lia|]]. exists x. left. split; [lia|done].
    + intros Hlt v Hv. unfold update_current. rewrite Hsv. apply Hall; [done|].
      unfold holds_update in *. naive_solver.
  - unfold updates_agree. cbn. split_and!; try done; [lia|naive_solver..| |].
    + intros H0. destruct (Hex H0) as (v & [[E Ev]|[Hv|Hv]]); [lia| |].
      * apply Hfc in Hv as [<-|Hv]; [|exists v; right; by left]. eexists. by left.
      * apply Hfw in Hv as [<-|Hv]; [|exists v; right; by right]. eexists. by left.
    + intros Hlt v Hv. unfold update_current. rewrite Hsv. apply Hall; [done|].
      destruct Hv as [[Hv [= <-]]|[Hv|Hv]]; [|right; left; by apply Hc'|right; right; by apply Hw'].
      destruct u as [g x]. cbn in *. subst g. destruct Hu; [right; left|right; right]; done.
Qed.

(** A step that creates and publishes nothing. *)
Lemma updates_move w slot shown cpc wpc w' slot' cpc' wpc' :
  updates_agree w slot shown cpc wpc → us_newest_generation slot' = us_newest_generation slot →
  caller_flight cpc' = caller_flight cpc → worker_flight wpc' = worker_flight wpc →
  ws_generation w' = ws_generation w → ws_committed w' = ws_committed w →
  isSome (ws_pending w') || saving wpc' = isSome (ws_pending w) || saving wpc →
  updates_agree w' slot' shown cpc' wpc'.
Proof.
  unfold updates_agree, holds_update, update_current.
  intros (Hn & Hg & Hc & Hw & Hs & Hex & Hall) -> -> -> -> -> ->. done.
Qed.

Lemma Ok_inj {E A} (x y : A) : @Ok E A x = Ok y → x = y.
Proof. by intros [= ->]. Qed.

Lemma invariant_send s command w u :
  invariant s → sy_caller s = CIdle → send_locked (sy_state s) command = Ok (w, u) →
  invariant (s <| sy_state := w |> <| sy_caller := CStore u NextWake |>).
Proof.
  intros [Hd Hl Hw Hu Hs Hc] Hidle H. unfold send_locked in H.
  destruct (ws_ready (sy_state s)) eqn:Hr; [|done]. cbn [negb] in H.
  destruct (notes_step (ws_desired (sy_state s)) command) as [candidate applied].
  apply result_bind_Ok in H as (a & _ & H). apply result_bind_Ok in H as (v & _ & H).
  apply Ok_inj in H. pose proof (next_update_generation _ _ _ _ _ H) as (Ew & Hg & _).
  assert (lifecycle_agrees w (sy_worker s)) as Hl'.
  { subst w. unfold lifecycle_agrees in *. cbn in Hl |- *.
    destruct (sy_worker s); destruct_and?; first [congruence | split; [done|unfold saturating_add, u64_max; lia]]. }
  split; cbn [sy_state sy_worker sy_disk sy_wake sy_shutdown sy_caller sy_slot sy_shown sy_ready sy_taken set_field].
  - subst w. unfold documents_agree in *. cbn. tauto.
  - done.
  - subst w. unfold wakes in *. cbn. destruct Hw as [_ Hw2]. split; [by right|].
    intros H1 H2. destruct (Hw2 H1 H2) as [?|Hx]; [by left|]. congruence.
  - eapply updates_new; [exact Hu| |exact H|..]; cbn; try done.
    + intros ? [= <-]. by left.
    + by right.
    + by left.
  - unfold slot_agrees in *. destruct (us_latest (sy_slot s)); [|done].
    destruct Hs as [? [?|[[? ?]|[?|?]]]]; split; try done; try (rewrite Hidle in *; done); eauto.
  - done.
Qed.

Ltac sys_fields :=
  cbn [sy_state sy_slot sy_ready sy_wake sy_shutdown sy_worker sy_caller sy_disk sy_shown sy_taken set_field] in *.

Lemma invariant_loaded s r w u :
  invariant s → sy_worker s = WkLoad → loaded_locked (sy_state s) r = (w, u) →
  invariant (s <| sy_state := w |> <| sy_disk := ok_opt r |> <| sy_worker := WkStore u NextRecv |>).
Proof.
  intros [Hd Hl Hw Hu Hs Hc] Hpc H. rewrite Hpc in *. destruct Hl as (Hr & Hp & Hg).
  assert (∃ w' e, next_update_for_state w' e false = (w, u) ∧ ws_generation w' = ws_generation (sy_state s) ∧
    ws_pending w' = None ∧ ws_ready w' = true ∧ ws_desired w' = ws_committed w' ∧
    (ok_opt r = None ∨ ok_opt r = Some (ws_committed w'))) as (w' & e & Hn & Eg & Ep & Er & Ed & Ek).
  { unfold loaded_locked in H. destruct r as [d|e]; eexists _, _; split_and!; try exact H; try done; cbn; auto.
    destruct Hd as [-> _]. by rewrite Hp. }
  pose proof (next_update_generation _ _ _ _ _ Hn) as (Ew & _). split; sys_fields.
  - subst w. unfold documents_agree. cbn. by rewrite Ep.
  - subst w. cbn. split; [done|]. rewrite Eg, Hg. unfold u64_max. lia.
  - subst w. unfold wakes in *. cbn. rewrite Ep. split; [done|]. intros H1 _. by apply Hw.
  - eapply updates_new; [exact Hu|done|exact Hn|by right| |by right|by rewrite Ep].
    intros v [= <-]. by left.
  - unfold slot_agrees in *. destruct (us_latest (sy_slot s)); [|done].
    destruct Hs as [? [?|[[? ?]|[[? ?]|?]]]]; split; eauto; done.
  - intros E. by apply Hc in E.
Qed.

Lemma saved_locked_next w candidate r w2 u :
  saved_locked w candidate r = (w2, u) →
  ∃ w' e b, next_update_for_state w' e b = (w2, u) ∧ ws_generation w' = ws_generation w ∧
    ws_pending w' = ws_pending w ∧ ws_ready w' = ws_ready w ∧
    ws_desired w' = (if isNone (ws_pending w) then ws_committed w' else ws_desired w) ∧
    (∀ disk, disk = None ∨ disk = Some (ws_committed w) →
       disk_after r candidate disk = None ∨ disk_after r candidate disk = Some (ws_committed w')).
Proof.
  unfold saved_locked. intros H.
  destruct r as [x|e]; [|destruct (was_committed e) eqn:Hcm]; eexists _, _, _; (split; [exact H|]);
    cbn [disk_after]; rewrite ?Hcm; destruct (ws_pending w) eqn:Ep; cbn; rewrite ?Ep; cbn; rewrite ?Ep; auto 10.
Qed.

Lemma invariant_saved s r candidate w u :
  invariant s → sy_worker s = WkSave candidate → saved_locked (sy_state s) candidate r = (w, u) →
  invariant (s <| sy_state := w |> <| sy_disk ::= disk_after r candidate |>
               <| sy_worker := WkStore u NextTake |>).
Proof.
  intros [Hd Hl Hw Hu Hs Hc] Hpc H. rewrite Hpc in *. destruct Hl as (Hr & Hg).
  apply saved_locked_next in H as (w' & e & b & Hn & Eg & Ep & Er & Ed & Ek).
  pose proof (next_update_generation _ _ _ _ _ Hn) as (Ew & _). split; sys_fields.
  - subst w. destruct Hd as [Hd Hk]. split; [|by apply Ek]. cbn. rewrite Ep, Ed.
    destruct (ws_pending (sy_state s)); cbn; [done|done].
  - subst w. cbn. split; [by rewrite Er|]. rewrite Eg. unfold u64_max. lia.
  - subst w. unfold wakes. split; done.
  - eapply updates_new; [exact Hu|done|exact Hn|by right| |by right|by rewrite orb_false_r].
    intros v [= <-]. by left.
  - unfold slot_agrees in *. destruct (us_latest (sy_slot s)); [|done].
    destruct Hs as [? [?|[[? ?]|[[? ?]|?]]]]; split; eauto; done.
  - intros E. by apply Hc in E.
Qed.

(** The two halves of a publication by the interface thread. *)
Lemma invariant_caller_store s u next :
  invariant s → sy_caller s = CStore u next →
  let '(s', stored) := store_update s u in
  invariant (s' <| sy_caller := if stored then CNotify next else caller_after next |>).
Proof.
  intros [Hd Hl Hw Hu Hs Hc] Hpc. rewrite Hpc in *. unfold store_update.
  pose proof (λ cpc', updates_store _ _ _ _ _ u cpc' (sy_worker s) Hu (or_introl eq_refl)) as Hst.
  destruct (publish_locked (sy_slot s) u) as [slot'|] eqn:E; split; sys_fields; try done.
  - destruct Hw as [Hw1 Hw2]. split; [exact Hw1|]. intros H1 H2. destruct (Hw2 H1 H2); [by left|done].
  - apply (Hst (CNotify next)); cbn; naive_solver.
  - unfold publish_locked in E. destruct (_ <=? _); [done|]. injection E as <-. cbn. split; [done|]. eauto.
  - destruct Hw as [Hw1 Hw2]. split; [by destruct next|]. intros H1 H2. destruct (Hw2 H1 H2); [by left|done].
  - apply (Hst (caller_after next)); destruct next; cbn; naive_solver.
  - unfold slot_agrees in *. destruct (us_latest (sy_slot s)); [|done].
    destruct Hs as [? [?|[[? ?]|[[? ?]|?]]]]; split; eauto; done.
  - by destruct next.
Qed.

Lemma invariant_worker_store s u next :
  invariant s → sy_worker s = WkStore u next →
  let '(s', stored) := store_update s u in
  invariant (s' <| sy_worker := if stored then WkNotify next else worker_after next |>).
Proof.
  intros [Hd Hl Hw Hu Hs Hc] Hpc. rewrite Hpc in *. unfold store_update.
  pose proof (λ wpc', updates_store _ _ _ _ _ u (sy_caller s) wpc' Hu (or_intror eq_refl)) as Hst.
  assert (sy_caller s = CRollback → False) as Hnc by (intros E; by apply Hc in E).
  destruct (publish_locked (sy_slot s) u) as [slot'|] eqn:E; split; sys_fields; try done.
  - apply (Hst (WkNotify next)); cbn; naive_solver.
  - unfold publish_locked in E. destruct (_ <=? _); [done|]. injection E as <-. cbn. split; [done|]. eauto.
  - by destruct next.
  - by destruct next.
  - by destruct next.
  - apply (Hst (worker_after next)); destruct next; cbn; naive_solver.
  - unfold slot_agrees in *. destruct (us_latest (sy_slot s)); [|done].
    destruct Hs as [? [?|[[? ?]|[[? ?]|?]]]]; split; eauto; done.
Qed.

Ltac slot_cases Hs :=
  unfold slot_agrees in *; cbn [us_latest] in *;
  match type of Hs with match us_latest ?slot with _ => _ end => destruct (us_latest slot) end;
  [destruct Hs as [? [?|[[? ?]|[[? ?]|?]]]]; split; eauto 6; done|done].

Ltac wake_cases Hw :=
  destruct Hw as [Hw1 Hw2]; split;
  [intros H1 H2; destruct (Hw1 H1 H2); [by left|done]
  |intros H1 H2; destruct (Hw2 H1 H2); [by left|done]].

(** The parts of the invariant that a step leaves alone. *)
Ltac unchanged Hu Hs Hc :=
  lazymatch goal with
  | |- updates_agree _ _ _ _ _ => try (eapply updates_move; [exact Hu|..]; done)
  | |- slot_agrees _ _ _ _ _ _ => try (slot_cases Hs)
  | |- _ = CRollback → _ => try done; try (intros E; by apply Hc in E)
  | |- _ => try done
  end.

Lemma invariant_caller_step s s' : invariant s → caller_step s = Some s' → invariant s'.
Proof.
  intros Hi H. unfold caller_step in H. destruct (sy_caller s) eqn:Hpc; try done.
  - pose proof (invariant_caller_store s u next Hi Hpc) as Hst.
    destruct (store_update s u) as [s1 stored]. by injection H as <-.
  - injection H as <-. destruct Hi as [Hd Hl Hw Hu Hs Hc]. rewrite Hpc in *. split; sys_fields; try done.
    + destruct Hw as [Hw1 Hw2]. split; [by destruct next|]. intros H1 H2. destruct (Hw2 H1 H2); [by left|done].
    + eapply updates_move; [exact Hu|..]; try done. by destruct next.
    + unfold slot_agrees in *. destruct (us_latest (sy_slot s)); [|done]. destruct Hs. split; [done|by left].
    + by destruct next.
  - destruct Hi as [Hd Hl Hw Hu Hs Hc]. rewrite Hpc in *.
    destruct (sy_worker s) eqn:Ew; cbn in H; injection H as <-; split; sys_fields; rewrite ?Ew in *;
      unchanged Hu Hs Hc; by split; auto.
  - destruct (rollback_locked (sy_state s)) as [w u] eqn:E. injection H as <-.
    destruct Hi as [Hd Hl Hw Hu Hs Hc]. rewrite Hpc in *. specialize (Hc eq_refl). rewrite Hc in *.
    unfold rollback_locked in E. pose proof (next_update_generation _ _ _ _ _ E) as (Ew & _).
    split; sys_fields; rewrite ?Hc in *; try done.
    + subst w. unfold documents_agree in *. cbn. tauto.
    + subst w. cbn in *. destruct Hl. split; [done|]. unfold u64_max. lia.
    + eapply updates_new; [exact Hu| |exact E|..]; cbn; try done; [|by left].
      intros ? [= <-]. by left.
    + slot_cases Hs.
  - injection H as <-. destruct Hi as [Hd Hl Hw Hu Hs Hc]. rewrite Hpc in *.
    split; sys_fields; unchanged Hu Hs Hc; try (wake_cases Hw).
    unfold slot_agrees in *. cbn. by destruct (us_latest (sy_slot s)) as [p|]; [destruct Hs as [-> _]|].
  - injection H as <-. destruct Hi as [Hd Hl Hw Hu Hs Hc]. rewrite Hpc in *.
    split; sys_fields; unchanged Hu Hs Hc. destruct Hw as [Hw1 Hw2]. split.
    + intros H1 H2. destruct (Hw1 H1 H2); [left; by apply orb_true_iff; left|done].
    + intros _ H2. left. destruct (sy_worker s); try done; by rewrite orb_true_r.
Qed.

Lemma invariant_worker_step s s' : invariant s → worker_step s = Some s' → invariant s'.
Proof.
  intros Hi H. unfold worker_step in H. destruct (sy_worker s) eqn:Hpc; try done.
  - pose proof (invariant_worker_store s u next Hi Hpc) as Hst.
    destruct (store_update s u) as [s1 stored]. by injection H as <-.
  - injection H as <-. destruct Hi as [Hd Hl Hw Hu Hs Hc]. rewrite Hpc in *.
    split; sys_fields; try (by destruct next).
    + unfold slot_agrees in *. destruct (us_latest (sy_slot s)); [|done]. destruct Hs. split; [done|by left].
    + intros E. by apply Hc in E.
  - destruct (sy_wake s) eqn:Ewk; [|done]. injection H as <-. destruct Hi as [Hd Hl Hw Hu Hs Hc].
    rewrite Hpc in *. split; sys_fields; unchanged Hu Hs Hc.
  - destruct Hi as [Hd Hl Hw Hu Hs Hc]. rewrite Hpc in *.
    destruct (ws_pending (sy_state s)) as [c|] eqn:Ep; injection H as <-; split; sys_fields;
      unchanged Hu Hs Hc.
    + unfold documents_agree in *. cbn. rewrite Ep in Hd. tauto.
    + eapply updates_move; [exact Hu|..]; try done. cbn. by rewrite Ep.
  - injection H as <-. destruct Hi as [Hd Hl Hw Hu Hs Hc]. rewrite Hpc in *.
    destruct (sy_shutdown s) eqn:Esd; split; sys_fields; unchanged Hu Hs Hc.
    destruct Hw as [Hw1 _]. split; [done|]. done.
Qed.

Lemma invariant_step s i s' : invariant s → system_step s i = Some s' → invariant s'.
Proof.
  intros Hi H. destruct i; cbn [system_step] in H.
  - destruct (sy_caller s) eqn:Hpc; try done.
    destruct (send_locked (sy_state s) command) as [[w u]|] eqn:Hs; injection H as <-; [|done].
    by apply (invariant_send s command).
  - destruct (sy_caller s) eqn:Hpc; try done. injection H as <-. destruct (sy_ready s) eqn:Er; [|done].
    destruct Hi as [Hd Hl Hw Hu Hs Hc]. rewrite Hpc in *. split; sys_fields; unchanged Hu Hs Hc; try (wake_cases Hw).
  - destruct (sy_caller s) eqn:Hpc; try done. injection H as <-.
    destruct Hi as [Hd Hl Hw Hu Hs Hc]. rewrite Hpc in *. split; sys_fields; unchanged Hu Hs Hc.
    destruct Hw as [Hw1 _]. split; [|by right]. intros H1 H2. destruct (Hw1 H1 H2); [by left|done].
  - by eapply invariant_caller_step.
  - destruct (sy_worker s) eqn:Hpc; try done.
    destruct (loaded_locked (sy_state s) result) as [w u] eqn:E. injection H as <-.
    by apply invariant_loaded.
  - destruct (sy_worker s) eqn:Hpc; try done.
    destruct (saved_locked (sy_state s) candidate result) as [w u] eqn:E. injection H as <-.
    by apply invariant_saved.
  - by eapply invariant_worker_step.
Qed.

Lemma reachable_invariant s : reachable s → invariant s.
Proof.
  induction 1; [apply invariant_spawned|apply invariant_spawn_failed|by eapply invariant_step].
Qed.

(** * What the service guarantees *)

(** Nothing is left to do: the interface thread is outside its calls and the
    worker waits for a wake-up that has not been sent. *)
Definition quiescent (s : System) : Prop :=
  sy_caller s = CIdle ∧ sy_worker s = WkRecv ∧ sy_wake s = false.

(** C9 Whatever the interleaving of the two threads and whatever the
    repository answers, a service at rest has no edit left behind: nothing is
    pending, the desired document is the committed one and the one in the
    repository, and the newest update - which shows that document and no
    pending save - was taken by the interface or is there for it to take. *)
Theorem notes_service_settles s :
  reachable s → quiescent s →
  ws_pending (sy_state s) = None ∧ ws_desired (sy_state s) = ws_committed (sy_state s) ∧
  (sy_disk s = None ∨ sy_disk s = Some (ws_desired (sy_state s))) ∧
  us_newest_generation (sy_slot s) = ws_generation (sy_state s) ∧
  (ws_generation (sy_state s) < u64_max →
   ∃ u, nu_document u = ws_committed (sy_state s) ∧ nu_save_pending u = false ∧
     (sy_taken s = Some u ∨ sy_ready s = true ∧ pu_update <$> us_latest (sy_slot s) = Some u)).
Proof.
  intros Hr (Hc & Hw & Hwk). destruct (reachable_invariant s Hr) as [Hd Hl Hwa Hu Hs _].
  rewrite Hc, Hw, Hwk in *. destruct Hl as [_ Hg].
  assert (ws_pending (sy_state s) = None) as Hp.
  { destruct (ws_pending (sy_state s)) eqn:E; [|done]. destruct Hwa as [Hwa _].
    rewrite E in Hwa. by destruct Hwa. }
  unfold documents_agree in Hd. rewrite Hp in Hd. destruct Hd as [Hd Hk].
  destruct Hu as (_ & _ & _ & _ & _ & Hex & Hall).
  destruct (Hex Hg) as (u & [[En Eu]|[?|?]]); [|done|done].
  split_and!; [done|done|by rewrite Hd|done|]. intros Hlt. exists u.
  destruct (Hall ltac:(lia) u ltac:(by left)) as [Hdoc Hsave]. rewrite Hp in Hsave.
  split_and!; [done|done|]. unfold slot_agrees in Hs.
  destruct (us_latest (sy_slot s)) as [p|]; [|left; congruence].
  destruct Hs as [Hs [?|[[? ?]|[[? ?]|?]]]]; try done. right. split; [done|]. cbn. congruence.
Qed.

(** The thread that can move next, if any: the worker is blocked only while
    it waits for a wake-up or the repository's answer. *)
Definition can_move (s : System) : Prop :=
  is_Some (caller_step s) ∨ is_Some (worker_step s) ∨ sy_worker s = WkLoad ∨ saving (sy_worker s) = true.

(** C10 No deadlock and no lost wake-up: while an accepted edit waits to be
    saved, or a shutdown waits for the worker, some thread can move or the
    repository is at work - until the worker has exited. *)
Theorem notes_service_progress s :
  reachable s → sy_worker s ≠ WkExit →
  ws_pending (sy_state s) ≠ None ∨ sy_shutdown s = true →
  can_move s.
Proof.
  intros Hr Hne H. destruct (reachable_invariant s Hr) as [_ _ [Hw1 Hw2] _ _ _].
  unfold can_move, worker_step. destruct (sy_worker s) as [|u n|n| | | |c|] eqn:Ew; try done; auto.
  - right. left. destruct (store_update s u). by eexists.
  - destruct (sy_wake s) eqn:Ek; [right; left; by eexists|]. left. unfold caller_step.
    destruct H as [H|H].
    + destruct (Hw1 H eq_refl) as [?|Hc]; [done|].
      destruct (sy_caller s) as [|u n|n| | | | |]; try done.
      * destruct (store_update s u). by eexists.
      * rewrite Ew. by eexists.
    + destruct (Hw2 H eq_refl) as [?|Hc]; [done|]. rewrite Hc. by eexists.
  - right. left. destruct (ws_pending (sy_state s)); by eexists.
Qed.

(** The documents the interface edits and the worker saves. *)
Definition documents_wf (s : System) : Prop :=
  notes_wf (ws_committed (sy_state s)) ∧ notes_wf (ws_desired (sy_state s)) ∧
  (∀ d, ws_pending (sy_state s) = Some d → notes_wf d) ∧
  (∀ d, sy_worker s = WkSave d → notes_wf d).

Lemma documents_wf_step s i s' :
  invariant s → documents_wf s → (∀ d, i = InLoad (Ok d) → notes_wf d) →
  system_step s i = Some s' → documents_wf s'.
Proof.
  intros Hi (Hc & Hd & Hp & Hs) Hload H. unfold documents_wf. destruct i; cbn [system_step] in H.
  - destruct (sy_caller s); try done. unfold send_locked in H.
    destruct (negb (ws_ready (sy_state s))); [by injection H as <-|].
    pose proof (notes_step_outcome (ws_desired (sy_state s)) command) as Ho.
    destruct (notes_step (ws_desired (sy_state s)) command) as [c [a|e]]; [|by injection H as <-].
    cbn [mbind result_bind] in H.
    destruct (validate_document c); [|by injection H as <-]. cbn in H. injection H as <-. cbn.
    destruct Ho as (_ & Hwf & _). split_and!; [done|done| |done]. by intros d [= <-].
  - destruct (sy_caller s); try done. injection H as <-. by destruct (sy_ready s).
  - destruct (sy_caller s); try done. by injection H as <-.
  - unfold caller_step in H. destruct (sy_caller s); try done.
    + unfold store_update in H. destruct (publish_locked _ _); by injection H as <-.
    + by injection H as <-.
    + destruct (worker_gone _); by injection H as <-.
    + cbn in H. injection H as <-. by cbn.
    + by injection H as <-.
    + by injection H as <-.
  - destruct (sy_worker s) eqn:Ew; try done.
    unfold loaded_locked in H. destruct result as [d|e]; cbn in H; injection H as <-; cbn; split_and!; auto; done.
  - destruct (sy_worker s) eqn:Ew; try done. unfold saved_locked in H. specialize (Hs candidate eq_refl).
    destruct result as [u|e]; [|destruct (was_committed e)]; destruct (ws_pending (sy_state s)) eqn:Ep; cbn in H;
      rewrite ?Ep in H; cbn in H; injection H as <-; cbn; rewrite ?Ep; split_and!; auto; done.
  - unfold worker_step in H. destruct (sy_worker s) eqn:Ew; try done.
    + unfold store_update in H. destruct (publish_locked _ _); injection H as <-; cbn; split_and!; try done;
        by destruct next.
    + injection H as <-. cbn. split_and!; try done. by destruct next.
    + destruct (sy_wake s); [|done]. injection H as <-. by cbn.
    + destruct (ws_pending (sy_state s)) as [c|] eqn:Ep; injection H as <-; cbn; rewrite ?Ep; split_and!; auto; try done.
      intros d [= <-]. by apply Hp.
    + injection H as <-. cbn. split_and!; try done. by destruct (sy_shutdown s).
Qed.

(** The interface and the worker only ever hold well-formed documents,
    and the committed one, which every update shows, is what the repository
    has: true in every state the service reaches from its start when the
    repository loads well-formed documents. *)
Theorem notes_service_documents_valid inputs s
    (Hload : ∀ d, InLoad (Ok d) ∈ inputs → notes_wf d)
    (Hrun : system_run spawned inputs = Some s) :
  documents_wf s ∧ (sy_disk s = None ∨ sy_disk s = Some (ws_committed (sy_state s))).
Proof.
  enough (invariant s ∧ documents_wf s) as [Hi Hd] by (split; [done|apply (inv_documents s Hi)]).
  assert (invariant spawned ∧ documents_wf spawned) as [Hi Hd].
  { split; [apply invariant_spawned|]. pose proof notes_default_wf. unfold documents_wf. cbn. split_and!; done. }
  revert Hi Hd Hrun. generalize spawned. induction inputs as [|i inputs IH]; intros s0 Hi Hd Hrun.
  { by injection Hrun as <-. }
  cbn in Hrun. destruct (system_step s0 i) as [s1|] eqn:E; [|done].
  apply (IH (λ d Hin, Hload d (list_elem_of_further _ _ _ Hin)) s1); [by eapply invariant_step| |done].
  eapply documents_wf_step; [done..| |done]. intros d ->. apply Hload. constructor.
Qed.

(** * A run that loses an edit *)

Definition first_edit : notes_op := OpUpdate (lit "note-1") (lit "General") (lit "first").
Definition last_edit : notes_op := OpUpdate (lit "note-1") (lit "General") (lit "last").

(** The worker finds nothing pending; before it reads the shutdown flag the
    interface edits the notes once more and shuts down. *)
Definition losing_run : list input :=
  [InLoad (Ok notes_document_default); InWorker; InWorker;
   InSend first_edit; InCaller; InCaller; InCaller;
   InWorker; InWorker; InSave (Ok tt); InWorker; InWorker;
   InWorker;
   InSend last_edit; InCaller; InCaller; InCaller;
   InShutdown; InCaller;
   InWorker].

(** The service accepts an edit, shuts down in order, and exits without ever
    trying to save it. *)
Lemma notes_shutdown_loses_edit :
  ∃ s, system_run spawned losing_run = Some s ∧
    sy_worker s = WkExit ∧ sy_caller s = CJoin ∧
    np_body <$> (active_note (ws_desired (sy_state s))) = Some (lit "last") ∧
    (sy_disk s ≫= λ d, np_body <$> active_note d) = Some (lit "first").
Proof. eexists. split_and!; vm_compute; reflexivity. Qed.

(** * At concrete inputs *)

Lemma reachable_run s inputs s' : reachable s → system_run s inputs = Some s' → reachable s'.
Proof.
  revert s. induction inputs as [|i inputs IH]; intros s Hs H; [by injection H as <-|].
  cbn in H. destruct (system_step s i) as [s1|] eqn:E; [|done].
  apply (IH s1); [by eapply reach_step|done].
Qed.

(** An edit typed, saved and shown. *)
Definition settling_run : list input :=
  [InLoad (Ok notes_document_default); InWorker; InWorker; InTake; InCaller;
   InSend first_edit; InCaller; InCaller; InCaller;
   InWorker; InWorker; InSave (Ok tt); InWorker; InWorker; InWorker; InWorker].

Definition run_or_start (inputs : list input) : System := default spawned (system_run spawned inputs).
Definition settled_system : System := run_or_start settling_run.
Definition pending_system : System := run_or_start (take 6 settling_run).

Lemma settled_reachable : reachable settled_system.
Proof. apply (reachable_run spawned settling_run); [apply reach_spawned|vm_compute; reflexivity]. Qed.
Lemma pending_reachable : reachable pending_system.
Proof. apply (reachable_run spawned (take 6 settling_run)); [apply reach_spawned|vm_compute; reflexivity]. Qed.

Lemma notes_service_settles_witness :
  np_body <$> active_note (ws_desired (sy_state settled_system)) = Some (lit "first") ∧
  ws_desired (sy_state settled_system) = ws_committed (sy_state settled_system).
Proof.
  split; [vm_compute; reflexivity|].
  pose proof (notes_service_settles settled_system settled_reachable) as H.
  apply H. repeat split; vm_compute; reflexivity.
Defined.

Lemma notes_service_progress_witness :
  isSome (ws_pending (sy_state pending_system)) = true ∧ can_move pending_system.
Proof.
  split; [vm_compute; reflexivity|].
  apply (notes_service_progress pending_system pending_reachable).
  - vm_compute. discriminate.
  - left. vm_compute. discriminate.
Defined.

Lemma notes_service_documents_valid_witness :
  documents_wf settled_system ∧
  (sy_disk settled_system = None ∨ sy_disk settled_system = Some (ws_committed (sy_state settled_system))).
Proof.
  apply (notes_service_documents_valid settling_run).
  - intros d H. unfold settling_run in H. rewrite !elem_of_cons, elem_of_nil in H.
    destruct_or?; try discriminate; try contradiction. injection H as ->. exact notes_default_wf.
  - vm_compute. reflexivity.
Defined.
