(* ===== verification/SteamBinary.v ===== *)
(** Steam's binary metadata ([crates/overcrow-control/src/steam_binary.rs]):
    the walk over binary VDF objects with its limits, the application types
    in [appinfo.vdf] and the non-Steam games in [shortcuts.vdf]. *)

From S2P Require Import Prelude Text Decimal Bytes.

Definition MAX_STEAM_PROFILES : nat := 32.
Definition MAX_BINARY_VDF_DEPTH : nat := 64.
Definition MAX_BINARY_VDF_ENTRIES : nat := Z.to_nat 100000.
Definition MAX_APPINFO_RECORDS : nat := Z.to_nat 16384.
Definition MAX_SHORTCUT_RECORDS : nat := Z.to_nat 1024.
Definition MAX_STRING_TABLE_ENTRIES : Z := 32768.
Definition APPINFO_MAGIC_V40 : Z := 123094056. (* 0x0756_4428 *)
Definition APPINFO_MAGIC_V41 : Z := 123094057. (* 0x0756_4429 *)
Definition APPINFO_ENTRY_HEADER_BYTES : Z := 68.
Definition APPINFO_BYTES_AFTER_SIZE : Z := 60.
Definition MAX_BINARY_KEY_BYTES : Z := 256.
Definition MAX_BINARY_VALUE_BYTES : Z := 1048576.
Definition MAX_APP_TYPE_BYTES : Z := 64.
Definition MAX_BINARY_WARNINGS : nat := 64.
Definition MAX_CONTROL_GAME_NAME_BYTES : Z := 256.
Definition MAX_CONTROL_MESSAGE_BYTES : Z := 512.

#[global] Arguments MAX_BINARY_VDF_DEPTH : simpl never.
#[global] Arguments MAX_BINARY_VDF_ENTRIES : simpl never.
#[global] Arguments MAX_APPINFO_RECORDS : simpl never.
#[global] Arguments MAX_SHORTCUT_RECORDS : simpl never.

Inductive SteamAppType := AppGame | AppNonGame | AppUnknown.
#[export] Instance SteamAppType_eq_dec : EqDecision SteamAppType.
Proof. solve_decision. Defined.

Record SteamShortcut := mkSteamShortcut { sc_app_id : Z; sc_name : str }.

Inductive KeyMode := Inline | Indexed (strings : list str).

Inductive Scalar := ScString (raw : list Z) | ScInt32 (value : Z) | ScOther.

Abbreviation vdf_result := (result str).
Definition fail {A} (message : string) : vdf_result A := Err (lit message).

(** [{:#04x}] of a byte. *)
Definition hex_digit (d : Z) : char := if d <? 10 then 48 + d else 87 + d.
Definition show_hex_byte (b : Z) : str := lit "0x" ++ [hex_digit (b / 16); hex_digit (b mod 16)].

(** * The cursor

    A [Cursor] is its unread bytes.  Its offset stays within the slice, whose
    length is at most [isize::MAX], so its checked additions never fail. *)

Abbreviation cursor := (list Z).

Definition read_u8 (c : cursor) : vdf_result (Z * cursor) :=
  match c with b :: c => Ok (b, c) | [] => fail "unexpected end of binary VDF" end.

Definition read_exact (c : cursor) (n : nat) : vdf_result (list Z * cursor) :=
  if (n <=? length c)%nat then Ok (take n c, drop n c) else fail "unexpected end of binary VDF".

Definition read_u32 (c : cursor) : vdf_result (Z * cursor) :=
  '(bytes, c) ← read_exact c 4; Ok (from_le_bytes bytes, c).

Definition read_cstring (c : cursor) (limit : Z) : vdf_result (list Z * cursor) :=
  match position (λ byte, byte =? 0) c with
  | None => fail "unterminated binary VDF string"
  | Some length =>
      if limit <? Z.of_nat length
      then Err (lit "binary VDF string exceeds byte limit " ++ show_Z limit)
      else Ok (take length c, drop (length + 1) c)
  end.

Fixpoint skip_wide_from (c : cursor) (skipped : Z) : vdf_result cursor :=
  match c with
  | a :: b :: c =>
      if (a =? 0) && (b =? 0) then Ok c
      else if MAX_BINARY_VALUE_BYTES <? skipped + 2
      then fail "binary VDF wide string exceeds byte limit 1048576"
      else skip_wide_from c (skipped + 2)
  | _ => fail "unterminated binary VDF wide string"
  end.
Definition skip_wide_string (c : cursor) : vdf_result cursor := skip_wide_from c 0.

Definition read_key (c : cursor) (mode : KeyMode) : vdf_result (str * cursor) :=
  match mode with
  | Inline =>
      '(raw, c) ← read_cstring c MAX_BINARY_KEY_BYTES;
      key ← ok_or (lit "binary VDF key is not valid UTF-8") (from_utf8 raw);
      Ok (key, c)
  | Indexed strings =>
      '(index, c) ← read_u32 c;
      key ← ok_or (lit "binary VDF key index is outside the string table") (strings !! Z.to_nat index);
      Ok (key, c)
  end.

(** * The walk *)

Section walk.
Context {S : Type} (visit : S → list str → str → Scalar → vdf_result S).

(** One scalar entry, read by [read]. *)
Definition walk_scalar (mode : KeyMode) (c : cursor) (path : list str) (s : S)
    (read : cursor → vdf_result (Scalar * cursor)) : vdf_result (cursor * list str * S) :=
  '(key, c) ← read_key c mode;
  '(scalar, c) ← read c;
  s ← visit s path key scalar;
  Ok (c, path, s).

(** The value of a scalar of each type. *)
Definition read_scalar (value_type : Z) : option (cursor → vdf_result (Scalar * cursor)) :=
  if value_type =? 1
  then Some (λ c, '(value, c) ← read_cstring c MAX_BINARY_VALUE_BYTES; Ok (ScString value, c))
  else if value_type =? 2 then Some (λ c, '(value, c) ← read_u32 c; Ok (ScInt32 value, c))
  else if (value_type =? 3) || (value_type =? 4) || (value_type =? 6)
  then Some (λ c, '(_, c) ← read_exact c 4; Ok (ScOther, c))
  else if value_type =? 5 then Some (λ c, c ← skip_wide_string c; Ok (ScOther, c))
  else if value_type =? 7 then Some (λ c, '(_, c) ← read_exact c 8; Ok (ScOther, c))
  else None.

(** One entry; [inl] when the outermost object ends the walk. *)
Definition walk_entry (mode : KeyMode) (c : cursor) (path : list str) (s : S) :
    vdf_result (S + cursor * list str * S) :=
  '(value_type, c) ← read_u8 c;
  if value_type =? 0 then
    '(key, c) ← read_key c mode;
    if (length path =? MAX_BINARY_VDF_DEPTH)%nat then fail "binary VDF depth limit of 64 reached"
    else Ok (inr (c, path ++ [key], s))
  else if value_type =? 8 then
    match reverse path with
    | _ :: parents => Ok (inr (c, reverse parents, s))
    | [] =>
        match c with
        | [] => Ok (inl s)
        | _ => fail "binary VDF has an unexpected object end"
        end
    end
  else
    match read_scalar value_type with
    | Some read => inr <$> walk_scalar mode c path s read
    | None => Err (lit "binary VDF contains unknown type " ++ show_hex_byte value_type)
    end.

(** The loop; [entries] counts down from the entry limit. *)
Fixpoint walk_loop (entries : nat) (mode : KeyMode) (c : cursor) (path : list str) (s : S) : vdf_result S :=
  match c with
  | [] =>
      match path with [] => Ok s | _ => fail "binary VDF contains an unterminated object" end
  | _ =>
      match entries with
      | O => fail "binary VDF entry limit of 100000 reached"
      | Datatypes.S entries =>
          next ← walk_entry mode c path s;
          match next with
          | inl s => Ok s
          | inr (c, path, s) => walk_loop entries mode c path s
          end
      end
  end.

Definition walk_binary_vdf (bytes : list Z) (mode : KeyMode) (s : S) : vdf_result S :=
  walk_loop MAX_BINARY_VDF_ENTRIES mode bytes [] s.
End walk.

(** * Application types *)

Definition classify_app_type (value : str) : SteamAppType :=
  let value := to_ascii_lowercase (trim value) in
  if existsb (str_eqb value) [lit "game"; lit "demo"] then AppGame
  else if existsb (str_eqb value)
            [lit "advertising"; lit "application"; lit "config"; lit "dlc"; lit "guide"; lit "hardware";
             lit "music"; lit "series"; lit "tool"; lit "video"] then AppNonGame
  else AppUnknown.

Definition visit_app_type (found : option SteamAppType) (path : list str) (key : str) (scalar : Scalar) :
    vdf_result (option SteamAppType) :=
  match path with
  | [p0; p1] =>
      if eq_ignore_ascii_case p0 (lit "appinfo") && eq_ignore_ascii_case p1 (lit "common")
         && eq_ignore_ascii_case key (lit "type") then
        match scalar with
        | ScString raw =>
            if MAX_APP_TYPE_BYTES <? Z.of_nat (length raw)
            then fail "app-info type exceeds byte limit 64"
            else
              value ← ok_or (lit "app-info type is not valid UTF-8") (from_utf8 raw);
              match found with
              | Some _ => fail "app-info contains duplicate type metadata"
              | None => Ok (Some (classify_app_type value))
              end
        | _ => fail "app-info type has the wrong value type"
        end
      else Ok found
  | _ => Ok found
  end.

Definition extract_app_type (bytes : list Z) (mode : KeyMode) : vdf_result SteamAppType :=
  found ← walk_binary_vdf visit_app_type bytes mode None;
  Ok (default AppUnknown found).

Definition read_u32_at (bytes : list Z) (offset : nat) : vdf_result Z :=
  if (offset + 4 <=? length bytes)%nat then Ok (from_le_bytes (take 4 (drop offset bytes)))
  else fail "unexpected end of binary metadata".

Fixpoint read_strings (count : nat) (c : cursor) : vdf_result (list str) :=
  match count with
  | O => Ok []
  | Datatypes.S count =>
      '(raw, c) ← read_cstring c MAX_BINARY_KEY_BYTES;
      value ← ok_or (lit "app-info string-table key is not valid UTF-8") (from_utf8 raw);
      strings ← read_strings count c;
      Ok (value :: strings)
  end.

Definition parse_string_table (bytes : list Z) : vdf_result (list str) :=
  '(count, c) ← read_u32 bytes;
  if MAX_STRING_TABLE_ENTRIES <? count then fail "app-info string-table limit of 32768 reached"
  else read_strings (Z.to_nat count) c.

(** The loop over the records; [records] counts down from the limit. *)
Fixpoint appinfo_records (records : nat) (bytes : list Z) (apps_end : nat) (mode : KeyMode)
    (offset : nat) (app_types : gmap Z SteamAppType) : vdf_result (gmap Z SteamAppType) :=
  if (offset <? apps_end)%nat then
    app_id ← read_u32_at bytes offset;
    if app_id =? 0 then Ok app_types
    else match records with
         | O => fail "app-info record limit of 16384 reached"
         | Datatypes.S records =>
             size ← read_u32_at bytes (offset + 4);
             if size <? APPINFO_BYTES_AFTER_SIZE
             then fail "app-info record size is smaller than its header"
             else
               let end_ := (offset + (8 + Z.to_nat size))%nat in
               if (apps_end <? end_)%nat
               then fail "app-info record extends outside the application section"
               else
                 let vdf_start := (offset + Z.to_nat APPINFO_ENTRY_HEADER_BYTES)%nat in
                 app_type ← extract_app_type (take (end_ - vdf_start) (drop vdf_start bytes)) mode;
                 match app_types !! app_id with
                 | Some _ => fail "app-info contains a duplicate app ID"
                 | None => appinfo_records records bytes apps_end mode end_ (<[app_id := app_type]> app_types)
                 end
         end
  else Ok app_types.

Definition parse_appinfo (bytes : list Z) : vdf_result (gmap Z SteamAppType) :=
  '(magic, header) ← read_u32 bytes;
  '(_, header) ← read_u32 header;
  if magic =? APPINFO_MAGIC_V40
  then appinfo_records MAX_APPINFO_RECORDS bytes (length bytes) Inline 8 ∅
  else if magic =? APPINFO_MAGIC_V41 then
    '(offset_bytes, _) ← read_exact header 8;
    let offset := from_le_bytes offset_bytes in
    if negb ((16 <=? offset) && (offset <? Z.of_nat (length bytes)))
    then fail "app-info string-table offset is outside the file"
    else
      strings ← parse_string_table (drop (Z.to_nat offset) bytes);
      appinfo_records MAX_APPINFO_RECORDS bytes (Z.to_nat offset) (Indexed strings) 16 ∅
  else fail "unsupported app-info format".

(** * Non-Steam games *)

Record Builder := mkBuilder { bu_app_id : option Z; bu_name : option str; bu_invalid : bool }.
#[export] Instance Builder_eta : Eta Builder := λ b, mkBuilder (bu_app_id b) (bu_name b) (bu_invalid b).
Definition builder_default : Builder := mkBuilder None None false.

Definition mark_invalid (b : Builder) : Builder := b <| bu_invalid := true |>.

Definition build_app_id (b : Builder) (scalar : Scalar) : Builder :=
  match scalar with
  | ScInt32 app_id =>
      let replaced := isSome (bu_app_id b) in
      let b := b <| bu_app_id := Some app_id |> in
      if replaced then mark_invalid b else b
  | _ => mark_invalid b
  end.

Definition build_name (b : Builder) (scalar : Scalar) : Builder :=
  match scalar with
  | ScString raw =>
      if MAX_CONTROL_GAME_NAME_BYTES <? Z.of_nat (length raw) then mark_invalid b
      else match from_utf8 raw with
           | None => mark_invalid b
           | Some name =>
               let replaced := isSome (bu_name b) in
               let b := b <| bu_name := Some (trim name) |> in
               if replaced then mark_invalid b else b
           end
  | _ => mark_invalid b
  end.

Definition visit_shortcut (builders : gmap Z Builder) (path : list str) (key : str) (scalar : Scalar) :
    vdf_result (gmap Z Builder) :=
  match path with
  | [p0; p1] =>
      if negb (eq_ignore_ascii_case p0 (lit "shortcuts")) then Ok builders
      else match parse_unsigned u32_max p1 with
           | None => Ok builders
           | Some index =>
               if isNone (builders !! index) && (size builders =? MAX_SHORTCUT_RECORDS)%nat
               then fail "Steam shortcut limit of 1024 reached"
               else
                 let b := default builder_default (builders !! index) in
                 let b :=
                   if eq_ignore_ascii_case key (lit "appid") then build_app_id b scalar
                   else if eq_ignore_ascii_case key (lit "appname") then build_name b scalar
                   else b in
                 Ok (<[index := b]> builders)
           end
  | _ => Ok builders
  end.

(** [BTreeMap::into_values]. *)
Definition values_in_order {V} (m : gmap Z V) : list V :=
  omap (λ k, m !! k) (merge_sort (≤) (elements (dom m))).

Definition finish_shortcut (b : Builder) : option SteamShortcut :=
  match bu_app_id b, bu_name b with
  | Some app_id, Some name =>
      if bu_invalid b || (app_id =? 0) || bool_decide (name = []) then None
      else Some (mkSteamShortcut app_id name)
  | _, _ => None
  end.

(** The shortcuts, and how many entries were rejected. *)
Definition parse_shortcuts (bytes : list Z) : vdf_result (list SteamShortcut * nat) :=
  builders ← walk_binary_vdf visit_shortcut bytes Inline ∅;
  let builders := values_in_order builders in
  Ok (omap finish_shortcut builders, length (List.filter (λ b, isNone (finish_shortcut b)) builders)).

(** * The report *)

Definition parse_account_id (value : str) : option Z :=
  if negb (bool_decide (value = [])) && forallb is_ascii_digit value
  then parse_unsigned u64_max value else None.

(** * Encoded objects

    What a binary VDF file is the encoding of: scalars and objects under
    keys, in order.  [enc_key] is how a key is written in a key mode. *)

Inductive vdf_value :=
| VString (raw : list Z)
| VInt32 (value : Z)
| VFour (value_type : Z) (bytes : list Z)
| VEight (bytes : list Z).

Inductive forest :=
| FNil
| FScalar (key : str) (value : vdf_value) (rest : forest)
| FObject (key : str) (children rest : forest).

Definition value_type (v : vdf_value) : Z :=
  match v with VString _ => 1 | VInt32 _ => 2 | VFour t _ => t | VEight _ => 7 end.
Definition value_bytes (v : vdf_value) : list Z :=
  match v with VString raw => raw ++ [0] | VInt32 z => le_bytes 4 z | VFour _ b | VEight b => b end.
Definition value_scalar (v : vdf_value) : Scalar :=
  match v with VString raw => ScString raw | VInt32 z => ScInt32 z | _ => ScOther end.
Definition value_wf (v : vdf_value) : Prop :=
  match v with
  | VString raw => 0 ∉ raw ∧ Z.of_nat (length raw) ≤ MAX_BINARY_VALUE_BYTES
  | VInt32 z => 0 ≤ z ≤ u32_max
  | VFour t b => t ∈ [3; 4; 6] ∧ length b = 4%nat
  | VEight b => length b = 8%nat
  end.

Fixpoint entries (f : forest) : nat :=
  match f with
  | FNil => 0
  | FScalar _ _ rest => Datatypes.S (entries rest)
  | FObject _ children rest => Datatypes.S (entries children + Datatypes.S (entries rest))
  end.
Fixpoint depth (f : forest) : nat :=
  match f with
  | FNil => 0
  | FScalar _ _ rest => depth rest
  | FObject _ children rest => Nat.max (Datatypes.S (depth children)) (depth rest)
  end.
(** The scalars in order, each with the keys of the objects around it. *)
Fixpoint leaves (path : list str) (f : forest) : list (list str * str * Scalar) :=
  match f with
  | FNil => []
  | FScalar key value rest => (path, key, value_scalar value) :: leaves path rest
  | FObject key children rest => leaves (path ++ [key]) children ++ leaves path rest
  end.

Section encode.
Context (enc_key : str → list Z) (mode : KeyMode).

Fixpoint encode (f : forest) : list Z :=
  match f with
  | FNil => []
  | FScalar key value rest => value_type value :: enc_key key ++ value_bytes value ++ encode rest
  | FObject key children rest => 0 :: enc_key key ++ encode children ++ 8 :: encode rest
  end.

(** Every key can be read back, every value is within its limits. *)
Fixpoint forest_wf (f : forest) : Prop :=
  match f with
  | FNil => True
  | FScalar key value rest =>
      (∀ c, read_key (enc_key key ++ c) mode = Ok (key, c)) ∧ value_wf value ∧ forest_wf rest
  | FObject key children rest =>
      (∀ c, read_key (enc_key key ++ c) mode = Ok (key, c)) ∧ forest_wf children ∧ forest_wf rest
  end.

Context {S : Type} (visit : S → list str → str → Scalar → vdf_result S).

(** A visit of each scalar in turn. *)
Fixpoint visit_all (l : list (list str * str * Scalar)) (s : S) : vdf_result S :=
  match l with [] => Ok s | (path, key, scalar) :: l => s ← visit s path key scalar; visit_all l s end.

Lemma visit_all_app l k s : visit_all (l ++ k) s = (s ← visit_all l s; visit_all k s).
Proof.
  revert s. induction l as [|[[path key] scalar] l IH]; intros s; [done|]. cbn.
  destruct (visit s path key scalar); [apply IH|done].
Qed.

Lemma read_exact_app a c : read_exact (a ++ c) (length a) = Ok (a, c).
Proof.
  unfold read_exact. rewrite length_app, (proj2 (Nat.leb_le _ _)) by lia.
  by rewrite take_app_length, drop_app_length.
Qed.

Lemma read_cstring_app raw c limit :
  0 ∉ raw → Z.of_nat (length raw) ≤ limit → read_cstring (raw ++ 0 :: c) limit = Ok (raw, c).
Proof.
  intros Hn Hl. unfold read_cstring.
  assert (position (λ byte, byte =? 0) (raw ++ 0 :: c) = Some (length raw)) as ->.
  { clear Hl. induction raw as [|b raw IH]; [done|]. apply not_elem_of_cons in Hn as [Hb Hn]. cbn.
    destruct (Z.eqb_spec b 0); [congruence|]. by rewrite IH. }
  rewrite (proj2 (Z.ltb_ge _ _)) by lia. rewrite take_app_length.
  rewrite cons_middle, app_assoc, drop_app_ge by (rewrite length_app; cbn; lia).
  rewrite length_app. cbn. by rewrite Nat.sub_diag.
Qed.

Lemma read_scalar_value value c :
  value_wf value →
  ∃ read, read_scalar (value_type value) = Some read ∧
    read (value_bytes value ++ c) = Ok (value_scalar value, c).
Proof.
  destruct value as [raw|z|t b|b]; cbn [value_wf value_type value_bytes value_scalar].
  - intros [Hn Hl]. eexists. split; [reflexivity|]. rewrite <- app_assoc. cbn [app].
    by rewrite read_cstring_app.
  - intros Hz. eexists. split; [reflexivity|]. unfold read_u32.
    pose proof (read_exact_app (le_bytes 4 z) c) as E. rewrite le_bytes_length in E. rewrite E.
    cbn [mbind result_bind]. rewrite from_le_le_bytes by (unfold u32_max in Hz; lia). done.
  - intros [Ht Hb]. pose proof (read_exact_app b c) as E. rewrite Hb in E.
    rewrite !elem_of_cons, elem_of_nil in Ht.
    destruct_or?; subst; try done; eexists; (split; [reflexivity|]); cbn beta; by rewrite E.
  - intros Hb. pose proof (read_exact_app b c) as E. rewrite Hb in E.
    eexists. split; [reflexivity|]. cbn beta. by rewrite E.
Qed.

Lemma value_type_cases value : value_wf value → value_type value ≠ 0 ∧ value_type value ≠ 8.
Proof.
  destruct value as [| |t b|]; cbn; try done. intros [Ht _]. rewrite !elem_of_cons, elem_of_nil in Ht.
  destruct_or?; subst; done.
Qed.

Lemma walk_loop_encoded f n path s rest :
  forest_wf f → (length path + depth f ≤ MAX_BINARY_VDF_DEPTH)%nat →
  walk_loop visit (entries f + n) mode (encode f ++ rest) path s =
    (s ← visit_all (leaves path f) s; walk_loop visit n mode rest path s).
Proof.
  revert n path s rest. induction f as [|key value f IH|key ch IHch f IH]; intros n path s rest Hwf Hd; [done| |].
  - cbn [forest_wf] in Hwf. destruct Hwf as (Hk & Hv & Hf). cbn [depth] in Hd.
    destruct (value_type_cases value Hv) as [Ht0 Ht8].
    destruct (read_scalar_value value (encode f ++ rest) Hv) as (read & Hr & Hread).
    cbn [encode entries leaves visit_all app Nat.add walk_loop]. unfold walk_entry. cbn [read_u8 mbind result_bind].
    rewrite (proj2 (Z.eqb_neq _ _) Ht0), (proj2 (Z.eqb_neq _ _) Ht8), Hr.
    unfold walk_scalar. rewrite <- !app_assoc, Hk. cbn [mbind result_bind]. rewrite Hread. cbn [mbind result_bind].
    destruct (visit s path key (value_scalar value)) as [s'|e]; cbn [mbind result_bind fmap result_fmap]; [|done].
    by apply IH.
  - cbn [forest_wf] in Hwf. destruct Hwf as (Hk & Hch & Hf). cbn [depth] in Hd.
    cbn [encode entries leaves app Nat.add walk_loop]. unfold walk_entry at 1. cbn [read_u8 mbind result_bind].
    change (0 =? 0) with true. cbv iota. rewrite <- !app_assoc, Hk. cbn [mbind result_bind].
    rewrite (proj2 (Nat.eqb_neq _ _)) by lia. cbn [mbind result_bind].
    rewrite <- Nat.add_assoc, IHch by (try done; rewrite length_app; cbn; lia).
    rewrite visit_all_app.
    destruct (visit_all (leaves (path ++ [key]) ch) s) as [s'|e]; cbn [mbind result_bind]; [|done].
    cbn [Nat.add app walk_loop]. unfold walk_entry. cbn [read_u8 mbind result_bind].
    change (8 =? 0) with false. change (8 =? 8) with true. cbv iota.
    rewrite reverse_app, reverse_singleton. cbn [app mbind result_bind]. rewrite reverse_involutive.
    apply IH; [done|lia].
Qed.

(** C12 A binary VDF file is read for what it encodes: on the encoding of any
    objects within the limits, with or without the final end marker, the walk
    visits exactly the scalars, in order, each with its key and the keys of
    the objects around it, and nothing else. *)
Theorem walk_binary_vdf_encoded f last s
    (Hwf : forest_wf f) (Hdepth : (depth f ≤ MAX_BINARY_VDF_DEPTH)%nat)
    (Hentries : (entries f < MAX_BINARY_VDF_ENTRIES)%nat) (Hlast : last = [] ∨ last = [8]) :
  walk_binary_vdf visit (encode f ++ last) mode s = visit_all (leaves [] f) s.
Proof.
  unfold walk_binary_vdf.
  replace MAX_BINARY_VDF_ENTRIES with (entries f + (MAX_BINARY_VDF_ENTRIES - entries f))%nat by lia.
  rewrite walk_loop_encoded by done.
  destruct (visit_all (leaves [] f) s) as [s'|e]; cbn [mbind result_bind]; [|done].
  destruct (MAX_BINARY_VDF_ENTRIES - entries f)%nat eqn:E; [lia|]. by destruct Hlast as [-> | ->].
Qed.
End encode.

(** * Non-Steam games: the round trip *)

(** How a key is written inline. *)
Definition inline_key (key : str) : list Z := utf8 key ++ [0].

Definition text_wf (s : str) : Prop := Forall (λ c, is_scalar c = true) s ∧ 0 ∉ s.

Lemma read_inline_key key c :
  text_wf key → str_len key ≤ MAX_BINARY_KEY_BYTES → read_key (inline_key key ++ c) Inline = Ok (key, c).
Proof.
  intros [Hs Hn] Hl. unfold inline_key, read_key. rewrite <- app_assoc. cbn [app].
  rewrite read_cstring_app; [|by apply utf8_no_nul|by rewrite utf8_length].
  cbn [mbind result_bind]. by rewrite from_utf8_utf8.
Qed.

Record shortcut_entry := mkShortcutEntry { se_app_id : Z; se_name : str; se_extra : forest }.

(** What else an entry holds is none of the reader's business: no scalar of
    the entry itself is under [appid] or [appname] again. *)
Fixpoint other_keys (f : forest) : Prop :=
  match f with
  | FNil => True
  | FScalar key _ rest =>
      eq_ignore_ascii_case key (lit "appid") = false ∧ eq_ignore_ascii_case key (lit "appname") = false ∧
      other_keys rest
  | FObject _ _ rest => other_keys rest
  end.

Definition entry_wf (e : shortcut_entry) : Prop :=
  0 < se_app_id e ≤ u32_max ∧ se_name e ≠ [] ∧ trim (se_name e) = se_name e ∧ text_wf (se_name e) ∧
  str_len (se_name e) ≤ MAX_CONTROL_GAME_NAME_BYTES ∧
  forest_wf inline_key Inline (se_extra e) ∧ other_keys (se_extra e).

Definition entry_forest (e : shortcut_entry) : forest :=
  FScalar (lit "appid") (VInt32 (se_app_id e))
    (FScalar (lit "AppName") (VString (utf8 (se_name e))) (se_extra e)).
Fixpoint entries_forest (index : Z) (l : list shortcut_entry) : forest :=
  match l with
  | [] => FNil
  | e :: l => FObject (show_Z index) (entry_forest e) (entries_forest (index + 1) l)
  end.
Definition shortcuts_forest (l : list shortcut_entry) : forest :=
  FObject (lit "shortcuts") (entries_forest 0 l) FNil.

Lemma visit_shortcut_deep f path m :
  (3 ≤ length path)%nat → visit_all visit_shortcut (leaves path f) m = Ok m.
Proof.
  revert path m. induction f as [|key value f IH|key ch IHch f IH]; intros path m Hp; [done| |].
  - cbn [leaves visit_all]. destruct path as [|a [|b [|d path]]]; cbn in Hp; try lia.
    cbn [visit_shortcut mbind result_bind]. by apply IH.
  - cbn [leaves]. rewrite visit_all_app, IHch by (rewrite length_app; lia). by apply IH.
Qed.

Definition entry_path (index : Z) : list str := [lit "shortcuts"; show_Z index].

Lemma visit_shortcut_at index m key scalar :
  0 ≤ index ≤ u32_max → isSome (m !! index) = true ∨ (size m < MAX_SHORTCUT_RECORDS)%nat →
  visit_shortcut m (entry_path index) key scalar =
    Ok (<[index := let b := default builder_default (m !! index) in
                   if eq_ignore_ascii_case key (lit "appid") then build_app_id b scalar
                   else if eq_ignore_ascii_case key (lit "appname") then build_name b scalar else b]> m).
Proof.
  intros Hi Hm. unfold visit_shortcut, entry_path. change (eq_ignore_ascii_case (lit "shortcuts") _) with true.
  cbn [negb]. rewrite parse_show by done.
  assert (isNone (m !! index) && (size m =? MAX_SHORTCUT_RECORDS)%nat = false) as ->; [|done].
  unfold isNone. destruct Hm as [->|Hm]; [done|]. apply andb_false_iff. right. apply Nat.eqb_neq. lia.
Qed.

Lemma visit_shortcut_other f index m b :
  0 ≤ index ≤ u32_max → other_keys f →
  visit_all visit_shortcut (leaves (entry_path index) f) (<[index := b]> m) = Ok (<[index := b]> m).
Proof.
  intros Hi. induction f as [|key value f IH|key ch _ f IH]; intros Ho; [done| |].
  - destruct Ho as (H1 & H2 & Ho). cbn [leaves visit_all].
    rewrite visit_shortcut_at by (try done; left; by rewrite lookup_insert_eq).
    rewrite H1, H2, lookup_insert_eq. cbn [default mbind result_bind]. unfold id. rewrite insert_insert_eq. by apply IH.
  - cbn [leaves]. rewrite visit_all_app, visit_shortcut_deep by done. cbn [mbind result_bind]. by apply IH.
Qed.

Definition entry_builder (e : shortcut_entry) : Builder := mkBuilder (Some (se_app_id e)) (Some (se_name e)) false.

Lemma visit_shortcut_entry e index m :
  entry_wf e → 0 ≤ index ≤ u32_max → m !! index = None → (size m < MAX_SHORTCUT_RECORDS)%nat →
  visit_all visit_shortcut (leaves (entry_path index) (entry_forest e)) m =
    Ok (<[index := entry_builder e]> m).
Proof.
  intros (Ha & Hne & Ht & [Hs Hn] & Hl & Hf & Ho) Hi Hm Hsz. unfold entry_forest. cbn [leaves visit_all].
  rewrite visit_shortcut_at by auto. rewrite Hm.
  change (eq_ignore_ascii_case (lit "appid") (lit "appid")) with true. cbn [default build_app_id value_scalar].
  cbn [mbind result_bind builder_default bu_app_id isSome set_field bu_name bu_invalid].
  rewrite visit_shortcut_at by (try done; left; by rewrite lookup_insert_eq). rewrite lookup_insert_eq.
  change (eq_ignore_ascii_case (lit "AppName") (lit "appid")) with false.
  change (eq_ignore_ascii_case (lit "AppName") (lit "appname")) with true.
  cbn [default mbind result_bind value_scalar]. unfold build_name.
  rewrite utf8_length by done. rewrite (proj2 (Z.ltb_ge _ _)) by done. rewrite from_utf8_utf8 by done.
  cbn [id bu_name isSome set_field bu_app_id bu_invalid]. rewrite Ht, insert_insert_eq.
  by apply visit_shortcut_other.
Qed.

(** The builders after the entries from [index] on. *)
Fixpoint with_entries (index : Z) (l : list shortcut_entry) (m : gmap Z Builder) : gmap Z Builder :=
  match l with
  | [] => m
  | e :: l => with_entries (index + 1) l (<[index := entry_builder e]> m)
  end.

Lemma visit_shortcut_entries l index m :
  Forall entry_wf l → 0 ≤ index → index + Z.of_nat (length l) ≤ u32_max →
  (∀ k, index ≤ k → m !! k = None) → (size m + length l ≤ MAX_SHORTCUT_RECORDS)%nat →
  visit_all visit_shortcut (leaves [lit "shortcuts"] (entries_forest index l)) m =
    Ok (with_entries index l m).
Proof.
  revert index m. induction l as [|e l IH]; intros index m Hwf Hi Hmax Hm Hsz; [done|].
  apply Forall_cons in Hwf as [He Hwf]. cbn [entries_forest leaves app with_entries].
  cbn [length] in Hmax, Hsz. rewrite visit_all_app.
  change [lit "shortcuts"; show_Z index] with (entry_path index).
  rewrite visit_shortcut_entry; [|done|lia|apply Hm; lia|lia]. cbn [mbind result_bind].
  apply IH; [done|lia|lia| |].
  - intros k Hk. rewrite lookup_insert_ne by lia. apply Hm. lia.
  - rewrite map_size_insert_None by (apply Hm; lia). lia.
Qed.

Lemma with_entries_lookup index l m k :
  with_entries index l m !! k =
    if (index <=? k) && (k <? index + Z.of_nat (length l))
    then entry_builder <$> l !! Z.to_nat (k - index) else m !! k.
Proof.
  revert index m. induction l as [|e l IH]; intros index m; cbn [with_entries length].
  { destruct (Z.leb_spec index k), (Z.ltb_spec k (index + Z.of_nat 0)); cbn [andb]; try done; lia. }
  rewrite IH. destruct (decide (k = index)) as [->|Hne].
  - rewrite lookup_insert_eq. replace (index + 1 <=? index) with false by (symmetry; apply Z.leb_gt; lia).
    cbn [andb]. rewrite Z.leb_refl, Z.sub_diag.
    replace (index <? _) with true by (symmetry; apply Z.ltb_lt; lia). done.
  - rewrite lookup_insert_ne by done.
    destruct (Z.leb_spec (index + 1) k), (Z.leb_spec index k); try lia; cbn [andb]; [|done].
    rewrite Nat2Z.inj_succ. replace (index + Z.succ (Z.of_nat (length l))) with (index + 1 + Z.of_nat (length l)) by lia.
    destruct (k <? _); [|done].
    replace (Z.to_nat (k - index)) with (Datatypes.S (Z.to_nat (k - (index + 1)))) by lia. done.
Qed.

Lemma seqZ_sorted n m : StronglySorted (≤) (seqZ m n).
Proof.
  destruct (Z.le_gt_cases 0 n) as [Hn|Hn]; [|rewrite seqZ_nil by lia; constructor].
  revert m. pattern n. apply natlike_ind; [|..|done]; [intros m; rewrite seqZ_nil by lia; constructor|].
  intros k Hk IH m. rewrite seqZ_cons by lia. constructor; [|].
  - replace (Z.pred (Z.succ k)) with k by lia. apply IH.
  - apply Forall_forall. intros x Hx. apply elem_of_seqZ in Hx. lia.
Qed.

(** The values of a map whose keys are [0..n] come in key order. *)
Lemma values_in_order_seqZ {V} (m : gmap Z V) n :
  (∀ k, is_Some (m !! k) ↔ 0 ≤ k < n) → values_in_order m = omap (λ k, m !! k) (seqZ 0 n).
Proof.
  intros Hm. unfold values_in_order. f_equal.
  apply (StronglySorted_unique (≤)); [|apply seqZ_sorted|].
  - apply StronglySorted_merge_sort; apply _.
  - rewrite merge_sort_Permutation. apply NoDup_Permutation; [apply NoDup_elements|apply NoDup_seqZ|].
    intros k. rewrite elem_of_elements, elem_of_dom, Hm, elem_of_seqZ. lia.
Qed.

Lemma omap_ext_in {A B} (f g : A → option B) (l : list A) : (∀ x, x ∈ l → f x = g x) → omap f l = omap g l.
Proof.
  induction l as [|x l IH]; intros H; [done|]. cbn. rewrite (H x) by constructor.
  rewrite IH by (intros y Hy; apply H; by constructor). done.
Qed.

Lemma omap_seqZ_lookup {A B} (f : A → B) (l : list A) i :
  omap (λ k, f <$> l !! Z.to_nat (k - i)) (seqZ i (Z.of_nat (length l))) = f <$> l.
Proof.
  revert i. induction l as [|x l IH]; intros i; [done|]. cbn [length].
  rewrite seqZ_cons by lia. cbn. rewrite Z.sub_diag. cbn. f_equal.
  replace (Z.pred (Z.of_nat (Datatypes.S (length l)))) with (Z.of_nat (length l)) by lia.
  rewrite <- (IH (Z.succ i)). apply omap_ext_in. intros k Hk%elem_of_seqZ.
  replace (Z.to_nat (k - i)) with (Datatypes.S (Z.to_nat (k - Z.succ i))) by lia. done.
Qed.

Lemma with_entries_values l : values_in_order (with_entries 0 l ∅) = entry_builder <$> l.
Proof.
  rewrite (values_in_order_seqZ _ (Z.of_nat (length l))).
  - rewrite <- (omap_seqZ_lookup entry_builder l 0). apply omap_ext_in. intros k Hk%elem_of_seqZ.
    rewrite with_entries_lookup. rewrite (proj2 (Z.leb_le _ _)), (proj2 (Z.ltb_lt _ _)) by lia. done.
  - intros k. rewrite with_entries_lookup, lookup_empty.
    destruct (Z.leb_spec 0 k), (Z.ltb_spec k (0 + Z.of_nat (length l))); cbn [andb];
      try (split; [by intros [? ?]|lia]).
    split; [lia|]. intros _. apply fmap_is_Some, lookup_lt_is_Some. lia.
Qed.

Lemma entry_finish e : entry_wf e → finish_shortcut (entry_builder e) = Some (mkSteamShortcut (se_app_id e) (se_name e)).
Proof.
  intros (Ha & Hne & _). unfold finish_shortcut. cbn. rewrite (proj2 (Z.eqb_neq _ _)) by lia.
  by rewrite bool_decide_eq_false_2.
Qed.

Lemma index_text_wf index : 0 ≤ index → text_wf (show_Z index).
Proof.
  intros Hi. pose proof (show_Z_digits index Hi) as Hd. split.
  - eapply Forall_impl; [exact Hd|]. cbn. unfold is_ascii_digit, is_scalar. intros c Hc. bools. lia.
  - intros H0. rewrite Forall_forall in Hd. by apply Hd in H0.
Qed.

Lemma index_key_short index : 0 ≤ index ≤ u32_max → str_len (show_Z index) ≤ MAX_BINARY_KEY_BYTES.
Proof.
  intros Hi. pose proof (show_u64_length index). unfold MAX_BINARY_KEY_BYTES, u64_max, u32_max in *. lia.
Qed.

Definition plain_key (key : str) : bool :=
  forallb (λ c, is_scalar c && negb (c =? 0)) key && (str_len key <=? MAX_BINARY_KEY_BYTES).

Lemma read_plain_key key c : plain_key key = true → read_key (inline_key key ++ c) Inline = Ok (key, c).
Proof.
  intros [Hk Hl]%andb_true_iff. apply read_inline_key; [|by apply Z.leb_le].
  rewrite forallb_forall in Hk. split.
  - apply Forall_forall. intros x Hx%list_elem_of_In. apply Hk in Hx. by apply andb_true_iff in Hx as [? _].
  - intros Hx%list_elem_of_In. by apply Hk in Hx.
Qed.

Lemma entries_forest_wf index l :
  0 ≤ index → index + Z.of_nat (length l) ≤ u32_max → Forall entry_wf l →
  forest_wf inline_key Inline (entries_forest index l).
Proof.
  intros Hi Hmax Hl. revert index Hi Hmax. induction Hl as [|e l He Hl IH]; intros index Hi Hmax; [done|].
  cbn [length] in Hmax. cbn [entries_forest entry_forest forest_wf value_wf].
  destruct He as (Ha & _ & _ & [Hs Hn] & Hlen & Hf & _).
  assert (∀ k, plain_key k = true → ∀ c, read_key (inline_key k ++ c) Inline = Ok (k, c)) as Hk
    by (intros; by apply read_plain_key).
  repeat split; try done; try (by apply Hk); try lia.
  - intros c. apply read_inline_key; [by apply index_text_wf|apply index_key_short; lia].
  - by apply utf8_no_nul.
  - rewrite utf8_length by done. unfold MAX_CONTROL_GAME_NAME_BYTES, MAX_BINARY_VALUE_BYTES in *. lia.
  - apply IH; lia.
Qed.

Lemma shortcuts_forest_wf l :
  Z.of_nat (length l) ≤ u32_max → Forall entry_wf l → forest_wf inline_key Inline (shortcuts_forest l).
Proof.
  intros Hmax Hl. split; [|split; [|done]].
  - intros c. by apply read_plain_key.
  - by apply entries_forest_wf.
Qed.

Lemma finish_entries l :
  Forall entry_wf l →
  omap finish_shortcut (entry_builder <$> l) = (λ e, mkSteamShortcut (se_app_id e) (se_name e)) <$> l ∧
  List.filter (λ b, isNone (finish_shortcut b)) (entry_builder <$> l) = [].
Proof.
  induction 1 as [|e l He _ [IH1 IH2]]; [done|].
  cbn [fmap list_fmap omap list_omap List.filter]. rewrite entry_finish by done. cbn [isNone isSome negb].
  split; [by f_equal|done].
Qed.

(** The non-Steam games in [shortcuts.vdf] are read back: from a file that
    lists up to 1024 entries within the limits, each with an application id,
    a name, and anything else, the reader returns exactly those games in file
    order and rejects none. *)
Theorem parse_shortcuts_encoded l last
    (Hwf : Forall entry_wf l) (Hlen : (length l ≤ MAX_SHORTCUT_RECORDS)%nat)
    (Hdepth : (depth (shortcuts_forest l) ≤ MAX_BINARY_VDF_DEPTH)%nat)
    (Hentries : (entries (shortcuts_forest l) < MAX_BINARY_VDF_ENTRIES)%nat) (Hlast : last = [] ∨ last = [8]) :
  parse_shortcuts (encode inline_key (shortcuts_forest l) ++ last) =
    Ok ((λ e, mkSteamShortcut (se_app_id e) (se_name e)) <$> l, 0%nat).
Proof.
  assert (Z.of_nat (length l) ≤ u32_max) as Hmax.
  { unfold u32_max. unfold MAX_SHORTCUT_RECORDS in Hlen. lia. }
  unfold parse_shortcuts.
  rewrite (walk_binary_vdf_encoded inline_key Inline visit_shortcut (shortcuts_forest l) last ∅);
    [|by apply shortcuts_forest_wf|done..].
  cbn [shortcuts_forest leaves app]. rewrite app_nil_r.
  rewrite (visit_shortcut_entries l 0 ∅); [|done|done|lia|done|by rewrite map_size_empty].
  cbn [mbind result_bind]. rewrite with_entries_values.
  destruct (finish_entries l Hwf) as [-> ->]. done.
Qed.

(** * Witnesses *)

Definition walk_example : forest :=
  FObject (lit "appinfo")
    (FScalar (lit "appid") (VInt32 70)
      (FObject (lit "common") (FScalar (lit "type") (VString (utf8 (lit "Game"))) FNil) FNil)) FNil.

Lemma walk_binary_vdf_encoded_witness :
  walk_binary_vdf visit_app_type (encode inline_key walk_example ++ [8]) Inline None = Ok (Some AppGame).
Proof.
  rewrite (walk_binary_vdf_encoded inline_key Inline visit_app_type walk_example [8] None).
  - reflexivity.
  - cbn [walk_example forest_wf value_wf].
    repeat split; try (intros c; by apply read_plain_key); try done; try (cbn; lia).
    intros Hin. repeat (apply elem_of_cons in Hin as [Hin|Hin]; [done|]). by apply elem_of_nil in Hin.
  - by apply Nat.leb_le.
  - unfold MAX_BINARY_VDF_ENTRIES. cbn. lia.
  - by right.
Defined.

Definition example_entry : shortcut_entry :=
  mkShortcutEntry 7 (lit "Doom") (FObject (lit "tags") (FScalar (lit "0") (VString (utf8 (lit "fps"))) FNil) FNil).

Lemma parse_shortcuts_encoded_witness :
  parse_shortcuts (encode inline_key (shortcuts_forest [example_entry]) ++ []) =
    Ok ([mkSteamShortcut 7 (lit "Doom")], 0%nat).
Proof.
  refine (parse_shortcuts_encoded [example_entry] [] _ _ _ _ _).
  - repeat constructor; try done; try (intros c; by apply read_plain_key); try (cbn; lia);
      intros Hin; repeat (apply elem_of_cons in Hin as [Hin|Hin]; [done|]); by apply elem_of_nil in Hin.
  - by apply Nat.leb_le.
  - by apply Nat.leb_le.
  - unfold MAX_BINARY_VDF_ENTRIES. cbn. lia.
  - by left.
Defined.
