(* ===== verification/FileSystem.v ===== *)
(** The file system as the program reads it: an interface whose operations
    are those of [std::fs] and [Path] the source calls, and the containment
    checks built on them.  Paths are byte strings (see Text). *)

From S2P Require Import Prelude Ordered Text Truncate.

Record IoError := mkIoError { io_not_found : bool; io_text : str }.

(** A file of a directory the program writes to. *)
Record file := mkFile { fl_regular : bool; fl_mode : Z; fl_content : list Z }.

Definition PRIVATE_MODE : Z := 384. (* 0o600 *)

(** [permissions().mode() & 0o7777]. *)
Definition mode_bits (f : file) : Z := Z.land (fl_mode f) 4095.

(** The files as one reader finds them: [fs_canonicalize] resolves links,
    [fs_is_dir] and [fs_is_file] follow them and [fs_symlink_metadata] does
    not; [fs_open] gives an opened file's metadata - whether it is regular,
    and its length - and the bytes reading it returns, as does
    [fs_open_nofollow], which refuses a link ([O_NOFOLLOW]). *)
Class FileSystem := {
  fs_canonicalize : path → result IoError path;
  fs_is_dir : path → bool;
  fs_is_file : path → bool;
  fs_symlink_metadata : path → result IoError (bool * Z);
  fs_read_dir : path → result IoError (list (result IoError (list Z)));
  fs_open : path → result IoError (result IoError (bool * Z) * result IoError (list Z));
  fs_open_nofollow : path → result IoError (result IoError (bool * Z) * result IoError (list Z))
}.

(** [Path::join]. *)
Definition path_join (base tail : path) : path :=
  if path_is_absolute tail then tail
  else if bool_decide (base = []) || ends_with (lit "/") base then base ++ tail
  else base ++ lit "/" ++ tail.

(** [Path::starts_with]: by whole components. *)
Definition path_starts_with (candidate base : path) : bool :=
  let '(abs_b, comps_b) := path_components base in
  let '(abs_c, comps_c) := path_components candidate in
  bool_decide (abs_b = abs_c) && bool_decide (take (length comps_b) comps_c = comps_b).

(** [Path::file_name]: the last component, unless it is [..] or [.]. *)
Definition path_file_name (p : path) : option (list Z) :=
  opt_filter (λ c, negb (bool_decide (c ∈ [lit ".."; lit "."]))) (last (snd (path_components p))).

(** [Path::display]. *)
Definition path_display (p : path) : str := from_utf8_lossy p.

(** The order of paths, [Ord for Path]: component by component, with the
    root before [.], [..] and names, in this order. *)
Definition component_key (c : list Z) : Z * list Z :=
  if bool_decide (c = lit ".") then (1, []) else if bool_decide (c = lit "..") then (2, []) else (3, c).
Definition path_key (p : path) : list (Z * list Z) :=
  let '(absolute, comps) := path_components p in
  (if absolute then [(0, [])] else []) ++ (component_key <$> comps).

Definition is_strictly_contained (base candidate : path) : bool :=
  negb (path_eqb candidate base) && path_starts_with candidate base.

(** [take(limit)] of a reader, then [read_to_end]. *)
Definition take_bytes (limit : Z) (bytes : list Z) : list Z := take (Z.to_nat limit) bytes.

(** [bounded_control_text] of the control crate. *)
Definition bounded_control_text (value : str) (limit : Z) : str :=
  if str_len value <=? limit then value else slice_to_boundary (Z.to_nat limit) value limit.

Lemma bounded_control_text_length value limit : 0 ≤ limit → str_len (bounded_control_text value limit) ≤ limit.
Proof.
  intros H. unfold bounded_control_text. destruct (Z.leb_spec (str_len value) limit); [done|].
  by apply slice_to_boundary_length.
Qed.

(** A contained path lies below its base: it has the base's components and
    more. *)
Lemma is_strictly_contained_iff base candidate :
  is_strictly_contained base candidate = true ↔
  ∃ c rest, path_components candidate = (fst (path_components base), snd (path_components base) ++ c :: rest).
Proof.
  unfold is_strictly_contained, path_eqb, path_starts_with.
  destruct (path_components base) as [ab cb], (path_components candidate) as [ac cc]. cbn [fst snd].
  rewrite andb_true_iff, negb_true_iff, bool_decide_eq_false, andb_true_iff, !bool_decide_eq_true. split.
  - intros (Hne & <- & Ht). rewrite <- (take_drop (length cb) cc), Ht in Hne |- *.
    destruct (drop (length cb) cc) as [|c rest]; [|eauto]. rewrite app_nil_r in Hne. done.
  - intros (c & rest & [= -> ->]). split_and!; [|done|by rewrite take_app_length].
    intros [= H]. apply (f_equal length) in H. rewrite length_app in H. cbn in H. lia.
Qed.

(** A file system without links, from its files and from its directories
    with the names in each, as the examples use it. *)
Record memory := mkMemory { mem_files : list (path * list Z); mem_dirs : list (path * list (list Z)) }.

Fixpoint assoc {A} (p : path) (l : list (path * A)) : option A :=
  match l with
  | [] => None
  | (q, x) :: l => if bool_decide (p = q) then Some x else assoc p l
  end.

Definition io_missing : IoError := mkIoError true (lit "No such file or directory").

Definition memory_open (m : memory) (p : path) : result IoError (result IoError (bool * Z) * result IoError (list Z)) :=
  match assoc p (mem_files m) with
  | Some bytes => Ok (Ok (true, Z.of_nat (length bytes)), Ok bytes)
  | None => Err io_missing
  end.

Definition memory_fs (m : memory) : FileSystem := {|
  fs_canonicalize p := if isSome (assoc p (mem_files m)) || isSome (assoc p (mem_dirs m)) then Ok p else Err io_missing;
  fs_is_dir p := isSome (assoc p (mem_dirs m));
  fs_is_file p := isSome (assoc p (mem_files m));
  fs_symlink_metadata p :=
    match assoc p (mem_files m), assoc p (mem_dirs m) with
    | Some bytes, _ => Ok (true, Z.of_nat (length bytes))
    | None, Some _ => Ok (false, 0)
    | None, None => Err io_missing
    end;
  fs_read_dir p := match assoc p (mem_dirs m) with Some names => Ok (Ok <$> names) | None => Err io_missing end;
  fs_open p := memory_open m p;
  fs_open_nofollow p := memory_open m p
|}.

#[global] Arguments is_strictly_contained : simpl never.
#[global] Arguments path_join : simpl never.
