(* ===== verification/SteamMetadata.v ===== *)
(** Steam's binary metadata on disk
    ([crates/overcrow-control/src/steam_binary.rs]): which files are read,
    and the report made of them. *)

From S2P Require Import Prelude Ordered Text Truncate Decimal Bytes FileSystem SteamBinary.

Definition MAX_APPINFO_BYTES : Z := 64 * 1024 * 1024.
Definition MAX_SHORTCUTS_BYTES : Z := 4 * 1024 * 1024.
Definition MAX_USERDATA_ENTRIES : nat := 128.

Record BinaryMetadataReport := mkBinaryMetadataReport {
  bm_app_types : gmap Z SteamAppType;
  bm_shortcuts : list SteamShortcut;
  bm_warnings : list str
}.
#[export] Instance BinaryMetadataReport_eta : Eta BinaryMetadataReport :=
  λ r, mkBinaryMetadataReport (bm_app_types r) (bm_shortcuts r) (bm_warnings r).
Definition report_default : BinaryMetadataReport := mkBinaryMetadataReport ∅ [] [].

Definition push_binary_warning (warnings : list str) (warning : str) : list str :=
  if (MAX_BINARY_WARNINGS <=? length warnings)%nat then warnings
  else warnings ++ [bounded_control_text warning MAX_CONTROL_MESSAGE_BYTES].

Definition warn (r : BinaryMetadataReport) (warning : str) : BinaryMetadataReport :=
  r <| bm_warnings ::= λ w, push_binary_warning w warning |>.

Section metadata.
Context `{FileSystem}.

Definition canonical_directory (p : path) : result str path :=
  match fs_canonicalize p with
  | Err e => Err (lit "could not canonicalize directory: " ++ io_text e)
  | Ok canonical => if fs_is_dir canonical then Ok canonical else Err (lit "path is not a directory")
  end.

Definition canonical_directory_within (root p : path) : result str path :=
  canonical ← canonical_directory p;
  if is_strictly_contained root canonical then Ok canonical
  else Err (lit "directory resolves outside the Steam root").

Definition canonical_optional_directory_within (root p : path) : result str (option path) :=
  match fs_symlink_metadata p with
  | Ok _ => Some <$> canonical_directory_within root p
  | Err e => if io_not_found e then Ok None else Err (lit "could not inspect directory: " ++ io_text e)
  end.

Definition exceeds_limit (limit : Z) : str := lit "metadata file exceeds byte limit " ++ show_Z limit.

Definition read_opened_file (limit : Z) (file : result IoError (bool * Z) * result IoError (list Z)) :
    result str (list Z) :=
  match fst file with
  | Err e => Err (lit "could not inspect open file: " ++ io_text e)
  | Ok (is_file, len) =>
      if negb is_file then Err (lit "opened metadata path is not a regular file")
      else if limit <? len then Err (exceeds_limit limit)
      else match take_bytes (limit + 1) <$> snd file with
           | Err e => Err (lit "could not read file: " ++ io_text e)
           | Ok bytes => if limit <? Z.of_nat (length bytes) then Err (exceeds_limit limit) else Ok bytes
           end
  end.

Definition read_optional_file (root p : path) (limit : Z) : result str (option (list Z)) :=
  match fs_symlink_metadata p with
  | Err e => if io_not_found e then Ok None else Err (lit "could not inspect file: " ++ io_text e)
  | Ok (is_file, len) =>
      if negb is_file then Err (lit "metadata path is not a regular file")
      else if limit <? len then Err (exceeds_limit limit)
      else match fs_canonicalize p with
           | Err e => Err (lit "could not canonicalize file: " ++ io_text e)
           | Ok canonical =>
               if negb (is_strictly_contained root canonical)
               then Err (lit "metadata file resolves outside the Steam root")
               else match fs_open_nofollow canonical with
                    | Err e => Err (lit "could not open file: " ++ io_text e)
                    | Ok file => Some <$> read_opened_file limit file
                    end
           end
  end.

(** The loop over the directory entries; [inspected] counts them. *)
Fixpoint userdata_profiles (userdata : path) (r : BinaryMetadataReport) (inspected : nat)
    (profiles : list (Z * path)) (entries : list (result IoError (list Z))) :
    list (Z * path) * BinaryMetadataReport :=
  match entries with
  | [] => (profiles, r)
  | entry :: entries =>
      if (inspected =? MAX_USERDATA_ENTRIES)%nat
      then (profiles, warn r (lit "Steam userdata entry limit of 128 reached"))
      else match entry with
           | Err _ =>
               userdata_profiles userdata (warn r (lit "A Steam userdata entry could not be inspected"))
                 (S inspected) profiles entries
           | Ok file_name =>
               match from_utf8 file_name ≫= parse_account_id with
               | None => userdata_profiles userdata r (S inspected) profiles entries
               | Some account =>
                   userdata_profiles userdata r (S inspected)
                     (profiles ++ [(account, path_join userdata file_name)]) entries
               end
           end
  end.

Definition add_shortcuts (r : BinaryMetadataReport) (parsed : vdf_result (list SteamShortcut * nat)) :
    BinaryMetadataReport :=
  match parsed with
  | Err e => warn r (lit "Steam shortcut metadata is invalid: " ++ e)
  | Ok (shortcuts, rejected) =>
      let r := if (rejected =? 0)%nat then r
               else warn r (lit "Steam shortcut metadata contained an invalid shortcut entry") in
      let remaining := (MAX_SHORTCUT_RECORDS - length (bm_shortcuts r))%nat in
      let r := if (remaining <? length shortcuts)%nat
               then warn r (lit "Steam shortcut limit of 1024 reached") else r in
      r <| bm_shortcuts ::= λ s, s ++ take remaining shortcuts |>
  end.

Definition read_profile (root userdata : path) (r : BinaryMetadataReport) (profile : Z * path) :
    BinaryMetadataReport :=
  match canonical_directory_within userdata (snd profile) with
  | Err e => warn r (lit "A Steam profile could not be inspected: " ++ e)
  | Ok profile =>
      match read_optional_file root (path_join profile (lit "config/shortcuts.vdf")) MAX_SHORTCUTS_BYTES with
      | Ok None => r
      | Err e => warn r (lit "Steam shortcut metadata is unavailable: " ++ e)
      | Ok (Some bytes) => add_shortcuts r (parse_shortcuts bytes)
      end
  end.

Definition read_shortcuts (root : path) (r : BinaryMetadataReport) : BinaryMetadataReport :=
  match canonical_optional_directory_within root (path_join root (lit "userdata")) with
  | Ok None => r
  | Err e => warn r (lit "Steam shortcut metadata is unavailable: " ++ e)
  | Ok (Some userdata) =>
      match fs_read_dir userdata with
      | Err e => warn r (lit "Steam shortcut metadata is unavailable: " ++ io_text e)
      | Ok entries =>
          let '(profiles, r) := userdata_profiles userdata r 0 [] entries in
          let profiles := sort_by_key fst profiles in
          let '(profiles, r) :=
            if (MAX_STEAM_PROFILES <? length profiles)%nat
            then (take MAX_STEAM_PROFILES profiles, warn r (lit "Steam profile limit of 32 reached"))
            else (profiles, r) in
          foldl (read_profile root userdata) r profiles
      end
  end.

Definition read_binary_metadata (root : path) : BinaryMetadataReport :=
  match canonical_directory root with
  | Err e => warn report_default (lit "Steam metadata root is unavailable: " ++ e)
  | Ok root =>
      let r :=
        match read_optional_file root (path_join root (lit "appcache/appinfo.vdf")) MAX_APPINFO_BYTES with
        | Ok (Some bytes) =>
            match parse_appinfo bytes with
            | Ok app_types => report_default <| bm_app_types := app_types |>
            | Err e => warn report_default (lit "Steam application metadata is invalid: " ++ e)
            end
        | Ok None => report_default
        | Err e => warn report_default (lit "Steam application metadata is unavailable: " ++ e)
        end in
      read_shortcuts root r
  end.
End metadata.

(** * The report is bounded

    Whatever is on disk, the report holds at most 64 warnings of at most 512
    bytes and at most 1024 shortcuts, each with an id and a name. *)

Definition shortcut_wf (s : SteamShortcut) : Prop := sc_app_id s ≠ 0 ∧ sc_name s ≠ [].

Record report_wf (r : BinaryMetadataReport) : Prop := {
  rw_warnings : (length (bm_warnings r) ≤ MAX_BINARY_WARNINGS)%nat;
  rw_warning : Forall (λ w, str_len w ≤ MAX_CONTROL_MESSAGE_BYTES) (bm_warnings r);
  rw_shortcuts : (length (bm_shortcuts r) ≤ MAX_SHORTCUT_RECORDS)%nat;
  rw_shortcut : Forall shortcut_wf (bm_shortcuts r)
}.

Lemma report_default_wf types : report_wf (report_default <| bm_app_types := types |>).
Proof. split; cbn; try constructor; lia. Qed.

Lemma push_binary_warning_wf warnings w :
  (length warnings ≤ MAX_BINARY_WARNINGS)%nat →
  Forall (λ w, str_len w ≤ MAX_CONTROL_MESSAGE_BYTES) warnings →
  (length (push_binary_warning warnings w) ≤ MAX_BINARY_WARNINGS)%nat ∧
  Forall (λ w, str_len w ≤ MAX_CONTROL_MESSAGE_BYTES) (push_binary_warning warnings w).
Proof.
  intros Hl Hw. unfold push_binary_warning. destruct (Nat.leb_spec MAX_BINARY_WARNINGS (length warnings)); [done|].
  split; [rewrite length_app; cbn; lia|]. apply Forall_app. split; [done|]. apply Forall_singleton.
  by apply bounded_control_text_length.
Qed.

Lemma warn_wf r w : report_wf r → report_wf (warn r w).
Proof.
  intros [Hl Hw Hs Hf]. destruct (push_binary_warning_wf _ w Hl Hw). by split.
Qed.
#[export] Hint Resolve warn_wf report_default_wf : oc.

Lemma finish_shortcut_wf b s : finish_shortcut b = Some s → shortcut_wf s.
Proof.
  unfold finish_shortcut. destruct (bu_app_id b), (bu_name b); try done.
  case_match eqn:E; [done|]. intros [= <-]. bools. done.
Qed.

Lemma parse_shortcuts_wf bytes shortcuts rejected :
  parse_shortcuts bytes = Ok (shortcuts, rejected) → Forall shortcut_wf shortcuts.
Proof.
  unfold parse_shortcuts. intros (builders & _ & [= <- _])%result_bind_Ok.
  apply Forall_forall. intros s (b & _ & Hs)%list_elem_of_omap. by eapply finish_shortcut_wf.
Qed.

Lemma add_shortcuts_wf r parsed :
  (∀ shortcuts rejected, parsed = Ok (shortcuts, rejected) → Forall shortcut_wf shortcuts) →
  report_wf r → report_wf (add_shortcuts r parsed).
Proof.
  intros Hp Hr. destruct parsed as [[shortcuts rejected]|e]; cbn; [|auto with oc].
  specialize (Hp _ _ eq_refl).
  assert (∀ r', report_wf r' → bm_shortcuts r' = bm_shortcuts r →
    report_wf (r' <| bm_shortcuts ::= λ s, s ++ take (MAX_SHORTCUT_RECORDS - length (bm_shortcuts r)) shortcuts |>)) as H.
  { intros r' [Hl Hw Hs Hf] E. split; cbn; rewrite ?E in *; [done|done| |].
    - rewrite length_app, length_take. lia.
    - apply Forall_app. split; [done|by apply Forall_take]. }
  destruct (rejected =? 0)%nat; cbn [warn]; (case_match; [refine (H (warn _ _) _ _)|refine (H _ _ _)]; auto with oc).
Qed.

Section bounded.
Context `{FileSystem}.

Lemma userdata_profiles_wf userdata r n profiles entries :
  report_wf r → report_wf (snd (userdata_profiles userdata r n profiles entries)).
Proof.
  revert r n profiles. induction entries as [|entry entries IH]; intros r n profiles Hr; cbn; [done|].
  destruct (n =? MAX_USERDATA_ENTRIES)%nat; [cbn; auto with oc|].
  destruct entry as [name|]; [|auto with oc]. destruct (_ ≫= parse_account_id); auto.
Qed.

Lemma read_profile_wf root userdata r profile : report_wf r → report_wf (read_profile root userdata r profile).
Proof.
  intros Hr. unfold read_profile. destruct (canonical_directory_within _ _); [|auto with oc].
  destruct (read_optional_file _ _ _) as [[bytes|]|]; [|done|auto with oc].
  apply add_shortcuts_wf; [|done]. intros ??. apply parse_shortcuts_wf.
Qed.

Lemma read_profiles_wf root userdata profiles r :
  report_wf r → report_wf (foldl (read_profile root userdata) r profiles).
Proof. revert r. induction profiles; intros r Hr; cbn; auto using read_profile_wf. Qed.

Lemma read_shortcuts_wf root r : report_wf r → report_wf (read_shortcuts root r).
Proof.
  intros Hr. unfold read_shortcuts.
  destruct (canonical_optional_directory_within _ _) as [[userdata|]|]; [|done|auto with oc].
  destruct (fs_read_dir userdata) as [entries|]; [|auto with oc].
  pose proof (userdata_profiles_wf userdata r 0 [] entries Hr) as Hp.
  destruct (userdata_profiles userdata r 0 [] entries) as [profiles r']. cbn in Hp.
  destruct (_ <? _)%nat; apply read_profiles_wf; auto with oc.
Qed.

Lemma binary_report_wf root : report_wf (read_binary_metadata root).
Proof.
  unfold read_binary_metadata. pose proof (report_default_wf ∅) as H0.
  destruct (canonical_directory root); [|auto with oc]. apply read_shortcuts_wf.
  destruct (read_optional_file _ _ _) as [[bytes|]|]; [|done|auto with oc].
  destruct (parse_appinfo bytes); auto with oc.
Qed.

(** Whatever Steam's files hold and whichever operations on them fail, the report is bounded: at most
    64 warnings of at most 512 bytes each, and at most 1024 shortcuts, all with an id and a name. *)
Theorem binary_report_bounded root : report_wf (read_binary_metadata root).
Proof. apply binary_report_wf. Qed.

(** * What is read *)

Lemma read_opened_file_Ok limit file bytes :
  read_opened_file limit file = Ok bytes →
  ∃ len, fst file = Ok (true, len) ∧ len ≤ limit ∧ snd file = Ok bytes ∧ Z.of_nat (length bytes) ≤ limit.
Proof.
  unfold read_opened_file. destruct (fst file) as [[[] len]|]; cbn; try done.
  destruct (Z.ltb_spec limit len); [done|]. destruct (snd file) as [content|]; cbn; [|done].
  destruct (Z.ltb_spec limit (Z.of_nat (length (take_bytes (limit + 1) content)))) as [|Hl]; [done|].
  intros [= <-]. exists len. unfold take_bytes in *. rewrite length_take in Hl.
  assert (length content ≤ Z.to_nat (limit + 1))%nat by lia. rewrite take_ge by done. split_and!; [done..|lia].
Qed.

(** A metadata file is read only when it is a regular file, no link, whose resolved path lies strictly
    inside the Steam root, and then read whole, within the limit; every other file is an error, and one that
    does not exist is none. *)
Theorem read_optional_file_confined root p limit bytes :
  read_optional_file root p limit = Ok (Some bytes) →
  ∃ len canonical opened_len,
    fs_symlink_metadata p = Ok (true, len) ∧ len ≤ limit ∧
    fs_canonicalize p = Ok canonical ∧
    (∃ c rest, path_components canonical = (fst (path_components root), snd (path_components root) ++ c :: rest)) ∧
    fs_open_nofollow canonical = Ok (Ok (true, opened_len), Ok bytes) ∧ opened_len ≤ limit ∧
    Z.of_nat (length bytes) ≤ limit.
Proof.
  unfold read_optional_file. destruct (fs_symlink_metadata p) as [[is_file len]|e]; [|by destruct (io_not_found e)].
  destruct is_file; cbn; [|done]. destruct (Z.ltb_spec limit len); [done|].
  destruct (fs_canonicalize p) as [canonical|]; [|done].
  destruct (is_strictly_contained root canonical) eqn:Hc; cbn; [|done].
  destruct (fs_open_nofollow canonical) as [file|] eqn:Ho; [|done].
  destruct (read_opened_file limit file) as [content|] eqn:Hf; [|done]. intros [= ->].
  destruct (read_opened_file_Ok _ _ _ Hf) as (olen & Hm & ? & Hb & ?). destruct file as [m b]; cbn in *.
  exists len, canonical, olen. subst. split_and!; try done. by apply is_strictly_contained_iff.
Qed.
End bounded.

Definition demo_files : memory :=
  mkMemory [(lit "/steam/appcache/appinfo.vdf", [40; 68; 86; 7; 1; 0; 0; 0])] [(lit "/steam", [])].

Lemma read_optional_file_confined_witness :
  let H := memory_fs demo_files in
  read_optional_file (lit "/steam") (lit "/steam/appcache/appinfo.vdf") 64 = Ok (Some [40; 68; 86; 7; 1; 0; 0; 0]) ∧
  ∃ len canonical opened_len,
    fs_symlink_metadata (lit "/steam/appcache/appinfo.vdf") = Ok (true, len) ∧ len ≤ 64 ∧
    fs_canonicalize (lit "/steam/appcache/appinfo.vdf") = Ok canonical ∧
    (∃ c rest, path_components canonical =
      (fst (path_components (lit "/steam")), snd (path_components (lit "/steam")) ++ c :: rest)) ∧
    fs_open_nofollow canonical = Ok (Ok (true, opened_len), Ok [40; 68; 86; 7; 1; 0; 0; 0]) ∧ opened_len ≤ 64 ∧
    Z.of_nat (length [40; 68; 86; 7; 1; 0; 0; 0]) ≤ 64.
Proof.
  cbv zeta.
  assert (@read_optional_file (memory_fs demo_files) (lit "/steam") (lit "/steam/appcache/appinfo.vdf") 64
    = Ok (Some [40; 68; 86; 7; 1; 0; 0; 0])) as E by (vm_compute; reflexivity).
  split; [exact E|]. exact (@read_optional_file_confined (memory_fs demo_files) _ _ _ _ E).
Defined.
