(* ===== verification/KeyValues.v ===== *)
(** Steam's text metadata ([crates/overcrow-control/src/steam.rs]): the
    parser the program uses, as an interface, the accessors built on it, and
    the scan that bounds the nesting of a text before it is parsed. *)

From S2P Require Import Prelude Text.

(** * The parser

    [keyvalues_parser]: a document is a key with a value, a value a string or
    an object, and an object gives for each key the values it occurs with. *)
Class KeyValues := {
  kv_value : Type;
  kv_obj : Type;
  kv_parse : str → result str (str * kv_value);
  kv_get_str : kv_value → option str;
  kv_get_obj : kv_value → option kv_obj;
  kv_get : kv_obj → str → option (list kv_value);
  kv_iter : kv_obj → list (str * list kv_value)
}.

(** [{key:?}] of the keys the program asks for, which need no escape. *)
Definition quoted (key : str) : str := [34] ++ key ++ [34].

Section accessors.
Context `{KeyValues}.

Definition only_value (values : list kv_value) : option kv_value := only values.

Definition object_string (object : kv_obj) (key : str) : result str str :=
  values ← ok_or (lit "required key " ++ quoted key ++ lit " is missing") (kv_get object key);
  ok_or (lit "key " ++ quoted key ++ lit " must occur exactly once and contain a string")
    (only_value values ≫= kv_get_str).

Definition optional_object_string (object : kv_obj) (key : str) : option str :=
  (kv_get object key ≫= only_value) ≫= kv_get_str.
End accessors.

(** * The nesting of a text *)

Definition MAX_KEYVALUES_NESTING_DEPTH : nat := 64.

Inductive KvState := KvNormal | KvString | KvLineComment.

Definition too_deep : str := lit "KeyValues nesting depth limit of 64 exceeded".
Definition unbalanced : str := lit "unbalanced KeyValues braces".

(** After the last byte. *)
Definition preflight_end (depth : nat) : result str unit :=
  if (depth =? 0)%nat then Ok tt else Err unbalanced.

(** The loop of [preflight_keyvalues_nesting] over the bytes from [index]
    on.  A backslash in a string, and the second slash of a comment's start,
    skip a byte. *)
Fixpoint preflight_loop (state : KvState) (depth : nat) (in_unquoted_token : bool) (bytes : list Z) :
    result str unit :=
  match bytes with
  | [] => preflight_end depth
  | byte :: rest =>
      match state with
      | KvNormal =>
          if byte =? 34 then preflight_loop KvString depth false rest
          else if (byte =? 47) && negb in_unquoted_token && bool_decide (head rest = Some 47)
          then match rest with
               | _ :: rest => preflight_loop KvLineComment depth in_unquoted_token rest
               | [] => preflight_end depth
               end
          else if byte =? 123
          then if (MAX_KEYVALUES_NESTING_DEPTH <? S depth)%nat then Err too_deep
               else preflight_loop KvNormal (S depth) false rest
          else if byte =? 125
          then match depth with
               | O => Err unbalanced
               | S depth => preflight_loop KvNormal depth false rest
               end
          else if (byte =? 32) || (byte =? 9) || (byte =? 13) || (byte =? 10)
          then preflight_loop KvNormal depth false rest
          else preflight_loop KvNormal depth true rest
      | KvString =>
          if byte =? 92
          then match rest with
               | _ :: rest => preflight_loop KvString depth in_unquoted_token rest
               | [] => preflight_end depth
               end
          else if byte =? 34 then preflight_loop KvNormal depth in_unquoted_token rest
          else preflight_loop KvString depth in_unquoted_token rest
      | KvLineComment =>
          if (byte =? 10) || (byte =? 13) then preflight_loop KvNormal depth false rest
          else preflight_loop KvLineComment depth in_unquoted_token rest
      end
  end.

Definition preflight_keyvalues_nesting (bytes : list Z) : result str unit :=
  preflight_loop KvNormal 0 false bytes.

#[global] Arguments preflight_loop : simpl never.

(** * Texts and their nesting

    A text as its author means it: strings in quotes, with escapes; comments
    to the end of the line; bare words; objects in braces. *)
Inductive kv_text :=
| KvEnd
| KvSpace (s : Z) (rest : kv_text)
| KvQuoted (content : list Z) (rest : kv_text)
| KvWord (word : list Z) (s : Z) (rest : kv_text)
| KvComment (content : list Z) (s : Z) (rest : kv_text)
| KvObject (body rest : kv_text).

Definition kv_blank (b : Z) : bool := (b =? 32) || (b =? 9) || (b =? 13) || (b =? 10).
Definition kv_newline (b : Z) : bool := (b =? 10) || (b =? 13).
(** Bytes of a bare word after its first. *)
Definition kv_plain (b : Z) : bool :=
  negb (b =? 34) && negb (b =? 123) && negb (b =? 125) && negb (kv_blank b).

Fixpoint escape (content : list Z) : list Z :=
  match content with
  | [] => []
  | b :: content => if (b =? 34) || (b =? 92) then 92 :: b :: escape content else b :: escape content
  end.

Fixpoint print_text (t : kv_text) : list Z :=
  match t with
  | KvEnd => []
  | KvSpace s rest => s :: print_text rest
  | KvQuoted content rest => 34 :: escape content ++ 34 :: print_text rest
  | KvWord word s rest => word ++ s :: print_text rest
  | KvComment content s rest => 47 :: 47 :: content ++ s :: print_text rest
  | KvObject body rest => 123 :: print_text body ++ 125 :: print_text rest
  end.

Fixpoint nesting (t : kv_text) : nat :=
  match t with
  | KvEnd => 0
  | KvSpace _ rest | KvQuoted _ rest | KvWord _ _ rest | KvComment _ _ rest => nesting rest
  | KvObject body rest => Nat.max (S (nesting body)) (nesting rest)
  end.

Definition word_wf (word : list Z) : Prop :=
  match word with
  | [] => False
  | b :: word => kv_plain b = true ∧ b ≠ 47 ∧ Forall (λ b, kv_plain b = true) word
  end.

Fixpoint kv_text_wf (t : kv_text) : Prop :=
  match t with
  | KvEnd => True
  | KvSpace s rest => kv_blank s = true ∧ kv_text_wf rest
  | KvQuoted _ rest => kv_text_wf rest
  | KvWord word s rest => word_wf word ∧ kv_blank s = true ∧ kv_text_wf rest
  | KvComment content s rest => Forall (λ b, kv_newline b = false) content ∧ kv_newline s = true ∧ kv_text_wf rest
  | KvObject body rest => kv_text_wf body ∧ kv_text_wf rest
  end.

Lemma preflight_nil state depth tok :
  preflight_loop state depth tok [] = if (depth =? 0)%nat then Ok tt else Err unbalanced.
Proof. done. Qed.

Lemma preflight_quoted content depth tok rest :
  preflight_loop KvString depth tok (escape content ++ 34 :: rest) = preflight_loop KvNormal depth tok rest.
Proof.
  induction content as [|b content IH]; [done|]. cbn [escape].
  destruct ((b =? 34) || (b =? 92)) eqn:E; cbn [app]; [exact IH|].
  apply orb_false_iff in E as [E1 E2]. unfold preflight_loop. rewrite E1, E2. exact IH.
Qed.

Lemma preflight_comment content s depth tok rest :
  Forall (λ b, kv_newline b = false) content → kv_newline s = true →
  preflight_loop KvLineComment depth tok (content ++ s :: rest) = preflight_loop KvNormal depth false rest.
Proof.
  intros Hc Hs. unfold kv_newline in *. induction Hc as [|b content Hb _ IH]; cbn [app].
  - unfold preflight_loop. by rewrite Hs.
  - unfold preflight_loop. rewrite Hb. exact IH.
Qed.

Lemma preflight_blank s depth tok rest :
  kv_blank s = true → preflight_loop KvNormal depth tok (s :: rest) = preflight_loop KvNormal depth false rest.
Proof.
  unfold kv_blank. intros Hs. assert (s = 32 ∨ s = 9 ∨ s = 13 ∨ s = 10) as Hc by (bools; lia).
  by destruct Hc as [-> | [-> | [-> | ->]]].
Qed.

Lemma preflight_plain b depth tok rest :
  kv_plain b = true → (b = 47 → tok = true) →
  preflight_loop KvNormal depth tok (b :: rest) = preflight_loop KvNormal depth true rest.
Proof.
  unfold kv_plain, kv_blank. intros Hp Hs. rewrite !andb_true_iff, !negb_true_iff in Hp.
  destruct Hp as [[[E1 E2] E3] E4]. unfold preflight_loop. rewrite E1, E2, E3, E4.
  destruct (Z.eqb_spec b 47) as [->|]; [|done]. by rewrite Hs.
Qed.

Lemma preflight_word word s depth tok rest :
  word_wf word → kv_blank s = true →
  preflight_loop KvNormal depth tok (word ++ s :: rest) = preflight_loop KvNormal depth false rest.
Proof.
  destruct word as [|b word]; [done|]. intros (Hb & Hn & Hw) Hs. cbn [app].
  rewrite preflight_plain by (done || by intros ->).
  induction Hw as [|c word Hc _ IH]; cbn [app]; [by apply preflight_blank|]. by rewrite preflight_plain.
Qed.

(** Scanning a text at depth [d] goes on after it, unless an object of it
    is too deep. *)
Lemma preflight_text t d rest :
  kv_text_wf t →
  preflight_loop KvNormal d false (print_text t ++ rest) =
    if (MAX_KEYVALUES_NESTING_DEPTH <? d + nesting t)%nat && negb (nesting t =? 0)%nat then Err too_deep
    else preflight_loop KvNormal d false rest.
Proof.
  revert d rest. induction t as [|s t IH|content t IH|word s t IH|content s t IH|body IHb t IH];
    intros d rest Hw; cbn [print_text nesting kv_text_wf app] in *.
  - by rewrite andb_false_r.
  - destruct Hw as [Hs Hw]. rewrite preflight_blank by done. by apply IH.
  - rewrite <- app_assoc. cbn [app].
    change (preflight_loop KvString d false (escape content ++ 34 :: print_text t ++ rest) = 
      if (MAX_KEYVALUES_NESTING_DEPTH <? d + nesting t)%nat && negb (nesting t =? 0)%nat then Err too_deep
      else preflight_loop KvNormal d false rest).
    rewrite preflight_quoted. by apply IH.
  - destruct Hw as (Hword & Hs & Hw). rewrite <- app_assoc. cbn [app].
    rewrite preflight_word by done. by apply IH.
  - destruct Hw as (Hc & Hs & Hw). rewrite <- app_assoc. cbn [app].
    change (preflight_loop KvLineComment d false (content ++ s :: print_text t ++ rest) = 
      if (MAX_KEYVALUES_NESTING_DEPTH <? d + nesting t)%nat && negb (nesting t =? 0)%nat then Err too_deep
      else preflight_loop KvNormal d false rest).
    rewrite preflight_comment by done. by apply IH.
  - destruct Hw as [Hb Hw]. rewrite <- app_assoc. cbn [app].
    change (preflight_loop KvNormal d false (123 :: print_text body ++ 125 :: print_text t ++ rest))
      with (if (MAX_KEYVALUES_NESTING_DEPTH <? S d)%nat then Err too_deep
            else preflight_loop KvNormal (S d) false (print_text body ++ 125 :: print_text t ++ rest)).
    rewrite IHb by done.
    change (preflight_loop KvNormal (S d) false (125 :: print_text t ++ rest))
      with (preflight_loop KvNormal d false (print_text t ++ rest)). rewrite IH by done.
    destruct (Nat.ltb_spec MAX_KEYVALUES_NESTING_DEPTH (S d)),
      (Nat.ltb_spec MAX_KEYVALUES_NESTING_DEPTH (S d + nesting body)),
      (Nat.ltb_spec MAX_KEYVALUES_NESTING_DEPTH (d + nesting t)),
      (Nat.ltb_spec MAX_KEYVALUES_NESTING_DEPTH (d + Nat.max (S (nesting body)) (nesting t))),
      (Nat.eqb_spec (nesting body) 0), (Nat.eqb_spec (nesting t) 0),
      (Nat.eqb_spec (Nat.max (S (nesting body)) (nesting t)) 0); cbn [andb negb]; try done; exfalso; lia.
Qed.

(** C17 The scan before parsing accepts a text exactly when its objects nest at
    most 64 deep, whatever braces and quotes its strings, comments and bare words hold. *)
Theorem preflight_bounds_nesting t (Hw : kv_text_wf t) :
  preflight_keyvalues_nesting (print_text t) =
    if (MAX_KEYVALUES_NESTING_DEPTH <? nesting t)%nat then Err too_deep else Ok tt.
Proof.
  unfold preflight_keyvalues_nesting. rewrite <- (app_nil_r (print_text t)), preflight_text by done.
  rewrite preflight_nil, Nat.add_0_l. destruct (Nat.eqb_spec (nesting t) 0) as [->|]; cbn; [done|].
  by rewrite andb_true_r.
Qed.

(** Whatever the bytes, the scan refuses them when they end inside an object. *)
Lemma preflight_unbalanced t (Hw : kv_text_wf t) :
  (nesting t < MAX_KEYVALUES_NESTING_DEPTH)%nat →
  preflight_keyvalues_nesting (123 :: print_text t) = Err unbalanced ∧
  preflight_keyvalues_nesting (print_text t ++ [125]) = Err unbalanced.
Proof.
  intros Hn. unfold preflight_keyvalues_nesting. split.
  - change (preflight_loop KvNormal 0 false (123 :: print_text t))
      with (preflight_loop KvNormal 1 false (print_text t)).
    rewrite <- (app_nil_r (print_text t)), preflight_text, preflight_nil by done.
    destruct (Nat.ltb_spec MAX_KEYVALUES_NESTING_DEPTH (1 + nesting t)); [lia|done].
  - rewrite preflight_text by done.
    by destruct (Nat.ltb_spec MAX_KEYVALUES_NESTING_DEPTH (0 + nesting t)); [lia|].
Qed.

(** A word, a string of a closing brace and a quote, and an object with a comment in it. *)
Definition demo_text : kv_text :=
  KvWord [97] 32 (KvQuoted [125; 34] (KvObject (KvWord [98; 47; 47] 32 (KvComment [125] 10 KvEnd)) KvEnd)).

Lemma preflight_bounds_nesting_witness :
  kv_text_wf demo_text ∧ preflight_keyvalues_nesting (print_text demo_text) = Ok tt.
Proof.
  assert (kv_text_wf demo_text) as Hw by (cbn; repeat constructor; done).
  split; [done|]. exact (preflight_bounds_nesting demo_text Hw).
Defined.
