(* ===== verification/SteamLibrary.v ===== *)
(** Discovery of the installed Steam games
    ([crates/overcrow-control/src/steam.rs]): the libraries of the Steam
    roots, their app manifests, and the merge with the binary metadata.  The
    file system, the KeyValues parser and Unicode case folding are
    parameters. *)

From S2P Require Import Prelude Ordered Text Truncate Decimal Bytes FileSystem SteamBinary SteamMetadata KeyValues.

Definition MAX_LIBRARY_VDF_BYTES : Z := 4 * 1024 * 1024.
Definition MAX_MANIFEST_BYTES : Z := 1024 * 1024.
Definition MAX_SECONDARY_LIBRARIES : nat := 64.
Definition MAX_MANIFESTS_INSPECTED : nat := 256.
Definition MAX_WARNINGS : nat := 64.
Definition MAX_PATH_COMPONENT_BYTES : Z := 255.

Inductive SteamGameKind := KindSteamGame | KindSteamShortcut | KindUnverified.

Record SteamGame := mkSteamGame {
  sg_app_id : Z;
  sg_name : str;
  sg_kind : SteamGameKind;
  sg_install_dir : option path;
  sg_icon : option path
}.
#[export] Instance SteamGame_eta : Eta SteamGame :=
  λ g, mkSteamGame (sg_app_id g) (sg_name g) (sg_kind g) (sg_install_dir g) (sg_icon g).

Record DiscoveryReport := mkDiscoveryReport { dr_games : list SteamGame; dr_warnings : list str }.

Record SteamLibrary := mkSteamLibrary { sl_root : path; sl_steamapps : path; sl_icon_root : path }.

Record LocatedError := mkLocatedError { le_path : path; le_message : str }.

(** * Warnings *)

Definition TRUNCATION_NOTICE : str := lit "Steam discovery warning limit reached; further warnings omitted".

Definition push_warning (warnings : list str) (warning : str) : list str :=
  let warning := bounded_control_text warning MAX_CONTROL_MESSAGE_BYTES in
  if (length warnings <? MAX_WARNINGS)%nat then warnings ++ [warning]
  else if is_some_and (λ last, negb (str_eqb last TRUNCATION_NOTICE)) (last warnings)
  then <[(length warnings - 1)%nat := TRUNCATION_NOTICE]> warnings
  else warnings.

Definition path_warning (p : path) (message : str) : str := path_display p ++ lit ": " ++ message.

Definition push_located (warnings : list str) (e : LocatedError) : list str :=
  push_warning warnings (path_warning (le_path e) (le_message e)).

(** * Bounded sets *)

(** The set and whether the limit was exceeded. *)
Definition retain_bounded {A K} `{BOrd K} (key : A → K) (limit : nat) (s : list A * bool) (value : A) :
    list A * bool :=
  let '(values, exceeded) := s in
  if bk_contains key value values then (values, exceeded)
  else if (length values <? limit)%nat then (bk_insert key value values, exceeded)
  else if is_some_and (λ last, blt (key value) (key last)) (last values)
  then (bk_insert key value (removelast values), true)
  else (values, true).

(** * Names *)

Inductive ManifestFilename := FilenameValid (app_id : Z) | FilenameMalformed | FilenameUnrelated.

Definition manifest_filename_app_id (p : path) : ManifestFilename :=
  match path_file_name p with
  | None => FilenameUnrelated
  | Some filename =>
      let lossy := from_utf8_lossy filename in
      if negb (starts_with (lit "appmanifest_") lossy) || negb (ends_with (lit ".acf") lossy)
      then FilenameUnrelated
      else match from_utf8 filename with
           | None => FilenameMalformed
           | Some filename =>
               match (strip_prefix (lit "appmanifest_") filename ≫= strip_suffix (lit ".acf"))
                     ≫= parse_unsigned u32_max with
               | Some app_id => FilenameValid app_id
               | None => FilenameMalformed
               end
           end
  end.

Definition is_safe_component (value : str) : bool :=
  if MAX_PATH_COMPONENT_BYTES <? str_len value then false
  else match path_components (utf8 value) with
       | (false, [c]) => negb (bool_decide (c ∈ [lit "."; lit ".."]))
       | _ => false
       end.

Section discovery.
Context `{FileSystem} `{KeyValues} (case_fold : str → str).

(** * Containment *)

Definition located {A} (p : path) (r : result str A) : result LocatedError A := map_error (mkLocatedError p) r.

Definition canonical_regular_file_within (base requested : path) (base_name : str) : result LocatedError path :=
  match fs_canonicalize requested with
  | Err e => Err (mkLocatedError requested (lit "could not canonicalize file: " ++ io_text e))
  | Ok canonical =>
      if negb (fs_is_file canonical) then Err (mkLocatedError requested (lit "path is not a regular file"))
      else if negb (is_strictly_contained base canonical)
      then Err (mkLocatedError requested (lit "file resolves outside " ++ base_name))
      else Ok canonical
  end.

Definition canonical_directory_within (base requested : path) (base_name : str) : result LocatedError path :=
  canonical ← located requested (canonical_directory requested);
  if negb (is_strictly_contained base canonical)
  then Err (mkLocatedError requested (lit "directory resolves outside " ++ base_name))
  else Ok canonical.

Definition canonical_library (root icon_root : path) : result LocatedError SteamLibrary :=
  root ← located root (canonical_directory root);
  icon_root ← located icon_root (canonical_directory icon_root);
  let requested_steamapps := path_join root (lit "steamapps") in
  steamapps ← located requested_steamapps (canonical_directory requested_steamapps);
  if negb (is_strictly_contained root steamapps)
  then Err (mkLocatedError requested_steamapps (lit "steamapps resolves outside canonical library root"))
  else Ok (mkSteamLibrary root steamapps icon_root).

(** * Reading *)

Definition read_bounded_keyvalues (p : path) (byte_limit : Z) : result str str :=
  match fs_open p with
  | Err e => Err (io_text e)
  | Ok (Err e, _) => Err (io_text e)
  | Ok (Ok (_, len), content) =>
      if byte_limit <? len
      then Err (lit "file size " ++ show_Z len ++ lit " exceeds byte limit " ++ show_Z byte_limit)
      else match take_bytes (byte_limit + 1) <$> content with
           | Err e => Err (io_text e)
           | Ok bytes =>
               if byte_limit <? Z.of_nat (length bytes)
               then Err (lit "file content exceeds byte limit " ++ show_Z byte_limit ++ lit " while reading")
               else _ ← preflight_keyvalues_nesting bytes;
                    ok_or (lit "file is not valid UTF-8") (from_utf8 bytes)
           end
  end.

Definition library_path (index : Z) (values : list kv_value) : result str path :=
  value ← ok_or (lit "library entry " ++ show_Z index ++ lit " must occur exactly once") (only_value values);
  p ← match kv_get_str value with
      | Some p => Ok p
      | None =>
          object ← ok_or (lit "library entry " ++ show_Z index ++ lit " must be a path string or an object")
                     (kv_get_obj value);
          map_error (λ e, lit "library entry " ++ show_Z index ++ lit ": " ++ e) (object_string object (lit "path"))
      end;
  if negb (path_is_absolute (utf8 p)) then Err (lit "library entry " ++ show_Z index ++ lit ": path must be absolute")
  else Ok (utf8 p).

Definition library_paths (text : str) : result str (list (result str path)) :=
  document ← kv_parse text;
  if negb (eq_ignore_ascii_case (fst document) (lit "libraryfolders"))
  then Err (lit "expected the libraryfolders root object")
  else
    object ← ok_or (lit "libraryfolders must be an object") (kv_get_obj (snd document));
    let numbered := omap (λ e, (λ index, (index, snd e)) <$> parse_unsigned u32_max (fst e)) (kv_iter object) in
    Ok ((λ e, library_path (fst e) (snd e)) <$> sort_by_key fst numbered).

(** * App manifests *)

Definition manifest_error {A} (p : path) (message : str) : result LocatedError A := Err (mkLocatedError p message).

Definition canonical_install_directory (library : SteamLibrary) (name : str) : result LocatedError (option path) :=
  let requested_common := path_join (sl_steamapps library) (lit "common") in
  common ← canonical_directory_within (sl_steamapps library) requested_common (lit "canonical steamapps");
  let requested_install := path_join common (utf8 name) in
  match fs_symlink_metadata requested_install with
  | Ok _ => Some <$> canonical_directory_within common requested_install (lit "canonical common directory")
  | Err e => if io_not_found e then Ok None
             else Err (mkLocatedError requested_install (lit "could not inspect install directory: " ++ io_text e))
  end.

Definition canonical_local_icon (library : SteamLibrary) (icon_name : str) : result LocatedError (option path) :=
  let requested_games := path_join (sl_icon_root library) (lit "steam/games") in
  match fs_canonicalize requested_games with
  | Err e =>
      if io_not_found e then Ok None
      else Err (mkLocatedError requested_games (lit "could not canonicalize Steam games directory: " ++ io_text e))
  | Ok games =>
      if negb (fs_is_dir games)
      then Err (mkLocatedError requested_games (lit "Steam games path is not a directory"))
      else if negb (is_strictly_contained (sl_icon_root library) games)
      then Err (mkLocatedError requested_games (lit "Steam games directory resolves outside canonical icon root"))
      else
        let requested_icon := path_join games (utf8 (icon_name ++ lit ".ico")) in
        match fs_canonicalize requested_icon with
        | Err e =>
            if io_not_found e then Ok None
            else Err (mkLocatedError requested_icon (lit "could not canonicalize local Steam icon: " ++ io_text e))
        | Ok canonical_icon =>
            if negb (fs_is_file canonical_icon)
            then Err (mkLocatedError requested_icon (lit "local Steam icon is not a regular file"))
            else if negb (is_strictly_contained games canonical_icon)
            then Err (mkLocatedError requested_icon (lit "icon resolves outside canonical Steam games directory"))
            else Ok (Some canonical_icon)
        end
  end.

(** [parse_manifest] up to the icon: the manifest's object, its app id, name
    and install directory, or [None] for a manifest of no game. *)
Definition manifest_head (read_path manifest_path : path) (filename_app_id : Z) (library : SteamLibrary) :
    result LocatedError (option (kv_obj * Z * str * path)) :=
  text ← located manifest_path (map_error (λ e, lit "could not read Steam app manifest: " ++ e)
           (read_bounded_keyvalues read_path MAX_MANIFEST_BYTES));
  document ← located manifest_path (map_error (λ e, lit "invalid Steam app manifest: " ++ e) (kv_parse text));
  if negb (eq_ignore_ascii_case (fst document) (lit "AppState"))
  then manifest_error manifest_path (lit "invalid Steam app manifest: expected the AppState root object")
  else
    object ← ok_or (mkLocatedError manifest_path (lit "invalid Steam app manifest: AppState must be an object"))
               (kv_get_obj (snd document));
    id_text ← located manifest_path (object_string object (lit "appid"));
    app_id ← ok_or (mkLocatedError manifest_path (lit "manifest appid must be a 32-bit unsigned integer"))
               (parse_unsigned u32_max id_text);
    if negb (app_id =? filename_app_id)
    then manifest_error manifest_path (lit "manifest appid " ++ show_Z app_id
           ++ lit " does not match filename app ID " ++ show_Z filename_app_id)
    else if app_id =? 0 then Ok None
    else
      name ← located manifest_path (object_string object (lit "name"));
      if bool_decide (trim name = []) then manifest_error manifest_path (lit "manifest name must not be empty")
      else if MAX_CONTROL_GAME_NAME_BYTES <? str_len name
      then manifest_error manifest_path (lit "manifest name exceeds byte limit 256")
      else
        install ← located manifest_path (object_string object (lit "installdir"));
        if negb (is_safe_component install)
        then manifest_error manifest_path (lit "manifest installdir must be one safe path component")
        else
          install_dir ← canonical_install_directory library install;
          Ok (match install_dir with Some install_dir => Some (object, app_id, name, install_dir) | None => None end).

(** The icon of a manifest, and the warnings it gives. *)
Definition manifest_icon (library : SteamLibrary) (manifest_path : path) (object : kv_obj) (warnings : list str) :
    option path * list str :=
  match optional_object_string object (lit "icon") with
  | None => (None, warnings)
  | Some value =>
      if negb (is_safe_component value)
      then (None, push_warning warnings (path_warning manifest_path (lit "manifest icon must be one safe path component")))
      else match canonical_local_icon library value with
           | Ok icon => (icon, warnings)
           | Err e => (None, push_located warnings e)
           end
  end.

Definition parse_manifest (read_path manifest_path : path) (filename_app_id : Z) (library : SteamLibrary)
    (warnings : list str) : result LocatedError (option SteamGame) * list str :=
  match manifest_head read_path manifest_path filename_app_id library with
  | Err e => (Err e, warnings)
  | Ok None => (Ok None, warnings)
  | Ok (Some (object, app_id, name, install_dir)) =>
      let '(icon, warnings) := manifest_icon library manifest_path object warnings in
      (Ok (Some (mkSteamGame app_id name KindUnverified (Some install_dir) icon)), warnings)
  end.

(** * Scanning a library *)

Record ScanState := mkScanState {
  sn_games : gmap Z SteamGame;
  sn_warnings : list str;
  sn_inspected : nat;
  sn_limit_reported : bool
}.
#[export] Instance ScanState_eta : Eta ScanState :=
  λ s, mkScanState (sn_games s) (sn_warnings s) (sn_inspected s) (sn_limit_reported s).

Record Entries := mkEntries {
  en_valid : list (Z * path) * bool;
  en_malformed : list path * bool;
  en_warnings : list str
}.
#[export] Instance Entries_eta : Eta Entries :=
  λ e, mkEntries (en_valid e) (en_malformed e) (en_warnings e).

Definition manifest_key (m : Z * path) : Z * list (Z * list Z) := (fst m, path_key (snd m)).

(** One directory entry; [remaining] manifests may still be inspected. *)
Definition scan_entry (steamapps : path) (remaining : nat) (e : Entries) (entry : result IoError (list Z)) : Entries :=
  match entry with
  | Err error =>
      e <| en_warnings ::= λ w, push_warning w
             (path_warning steamapps (lit "could not inspect Steam library entry: " ++ io_text error)) |>
  | Ok name =>
      let p := path_join steamapps name in
      match manifest_filename_app_id p with
      | FilenameValid app_id => e <| en_valid ::= λ s, retain_bounded manifest_key remaining s (app_id, p) |>
      | FilenameMalformed => e <| en_malformed ::= λ s, retain_bounded path_key MAX_WARNINGS s p |>
      | FilenameUnrelated => e
      end
  end.

Definition malformed_warning (warnings : list str) (p : path) : list str :=
  push_warning warnings (path_warning p (lit "malformed app manifest filename; expected appmanifest_<appid>.acf")).

(** One manifest: the first game found for an id stays. *)
Definition scan_manifest (library : SteamLibrary) (gw : gmap Z SteamGame * list str) (m : Z * path) :
    gmap Z SteamGame * list str :=
  let '(games, warnings) := gw in
  match canonical_regular_file_within (sl_steamapps library) (snd m) (lit "canonical steamapps") with
  | Err e => (games, push_located warnings e)
  | Ok canonical_manifest =>
      match parse_manifest canonical_manifest (snd m) (fst m) library warnings with
      | (Ok (Some game), warnings) =>
          (if isSome (games !! sg_app_id game) then games else <[sg_app_id game := game]> games, warnings)
      | (Ok None, warnings) => (games, warnings)
      | (Err e, warnings) => (games, push_located warnings e)
      end
  end.

Definition scan_library (library : SteamLibrary) (s : ScanState) : ScanState :=
  let steamapps := sl_steamapps library in
  match fs_read_dir steamapps with
  | Err error =>
      s <| sn_warnings ::= λ w, push_warning w
             (path_warning steamapps (lit "could not read Steam library: " ++ io_text error)) |>
  | Ok entries =>
      let remaining := (MAX_MANIFESTS_INSPECTED - sn_inspected s)%nat in
      let e := foldl (scan_entry steamapps remaining) (mkEntries ([], false) ([], false) (sn_warnings s)) entries in
      let warnings := foldl malformed_warning (en_warnings e) (fst (en_malformed e)) in
      let warnings :=
        if snd (en_malformed e)
        then push_warning warnings (path_warning steamapps (lit "malformed app manifest filename warning limit reached"))
        else warnings in
      let valid := fst (en_valid e) in
      let warnings :=
        if snd (en_valid e)
        then push_warning warnings (path_warning steamapps (lit "manifest inspection limit of 256 reached"))
        else warnings in
      let '(games, warnings) := foldl (scan_manifest library) (sn_games s, warnings) valid in
      mkScanState games warnings (sn_inspected s + length valid) (sn_limit_reported s || snd (en_valid e))
  end.

(** * The merge with the binary metadata *)

(** Key and value in key order, as a [BTreeMap] is iterated. *)
Definition entries_in_order {V} (m : gmap Z V) : list (Z * V) :=
  omap (λ k, pair k <$> m !! k) (merge_sort (≤) (elements (dom m))).

Record Merge := mkMerge {
  mg_types : gmap Z SteamAppType;
  mg_shortcuts : gmap Z SteamShortcut;
  mg_ambiguous : gset Z
}.
#[export] Instance Merge_eta : Eta Merge := λ m, mkMerge (mg_types m) (mg_shortcuts m) (mg_ambiguous m).

#[local] Instance SteamAppType_eq_dec : EqDecision SteamAppType.
Proof. solve_decision. Defined.

Definition merge_type (m : Merge) (t : Z * SteamAppType) : Merge :=
  let '(app_id, app_type) := t in
  match mg_types m !! app_id with
  | Some existing =>
      if bool_decide (existing = app_type) then m
      else m <| mg_types ::= delete app_id |> <| mg_ambiguous ::= λ a, {[app_id]} ∪ a |>
  | None => if bool_decide (app_id ∈ mg_ambiguous m) then m else m <| mg_types ::= <[app_id := app_type]> |>
  end.

Definition merge_shortcut (m : Merge) (s : SteamShortcut) : Merge :=
  match mg_shortcuts m !! sc_app_id s with
  | Some existing =>
      if bool_decide (sc_name existing = sc_name s) then m
      else m <| mg_shortcuts ::= delete (sc_app_id s) |> <| mg_ambiguous ::= λ a, {[sc_app_id s]} ∪ a |>
  | None => if bool_decide (sc_app_id s ∈ mg_ambiguous m) then m
            else m <| mg_shortcuts ::= <[sc_app_id s := s]> |>
  end.

Definition merge_report (m : Merge) (r : BinaryMetadataReport) : Merge :=
  foldl merge_shortcut (foldl merge_type m (entries_in_order (bm_app_types r))) (bm_shortcuts r).

(** [games.retain]: the verified kind of a game, unless it is no game. *)
Definition retain_game (types : gmap Z SteamAppType) (app_id : Z) (game : SteamGame) : option SteamGame :=
  match types !! app_id with
  | Some AppGame => Some (game <| sg_kind := KindSteamGame |>)
  | Some AppNonGame => None
  | Some AppUnknown | None => Some (game <| sg_kind := KindUnverified |>)
  end.

Definition shortcut_game (s : SteamShortcut) : SteamGame :=
  mkSteamGame (sc_app_id s) (sc_name s) KindSteamShortcut None None.

Definition omitted (app_id : Z) : str := lit "ambiguous Steam app ID " ++ show_Z app_id ++ lit " was omitted".

(** [merge_binary_metadata] on the reports read from the roots. *)
Definition merge_reports (reports : list BinaryMetadataReport) (games : gmap Z SteamGame) (warnings : list str) :
    gmap Z SteamGame * list str :=
  let m := foldl merge_report (mkMerge ∅ ∅ ∅) reports in
  let warnings := foldl push_warning warnings (reports ≫= bm_warnings) in
  let ambiguous := mg_ambiguous m ∪ dom (filter (λ g, is_Some (mg_shortcuts m !! fst g)) games) in
  let warnings := foldl push_warning warnings (omitted <$> merge_sort (≤) (elements ambiguous)) in
  let keep := λ app_id : Z, app_id ∉ ambiguous in
  let games := filter (λ g, keep (fst g)) games in
  let shortcuts := filter (λ s, keep (fst s)) (mg_shortcuts m) in
  let games := map_imap (retain_game (mg_types m)) games in
  (foldl (λ games s, <[sc_app_id s := shortcut_game s]> games) games (values_in_order shortcuts), warnings).

Definition merge_binary_metadata (roots : list path) (games : gmap Z SteamGame) (warnings : list str) :
    gmap Z SteamGame * list str :=
  merge_reports (read_binary_metadata <$> roots) games warnings.

(** * Discovery *)

Record Discovery := mkDiscovery {
  ds_libraries : list SteamLibrary;
  ds_seen : list path;
  ds_secondary : nat;
  ds_warnings : list str
}.
#[export] Instance Discovery_eta : Eta Discovery :=
  λ d, mkDiscovery (ds_libraries d) (ds_seen d) (ds_secondary d) (ds_warnings d).

Definition discovery_warn (d : Discovery) (warning : str) : Discovery :=
  d <| ds_warnings ::= λ w, push_warning w warning |>.
Definition discovery_located (d : Discovery) (e : LocatedError) : Discovery :=
  discovery_warn d (path_warning (le_path e) (le_message e)).

(** A library not seen before, with whether it was added. *)
Definition add_library (d : Discovery) (library : SteamLibrary) : Discovery * bool :=
  if path_mem (sl_root library) (ds_seen d) then (d, false)
  else (d <| ds_seen ::= cons (sl_root library) |> <| ds_libraries ::= λ l, l ++ [library] |>, true).

(** The entries of a library list; the limit ends the loop. *)
Fixpoint add_libraries (root library_file : path) (d : Discovery) (entries : list (result str path)) : Discovery :=
  match entries with
  | [] => d
  | Err error :: entries => add_libraries root library_file (discovery_warn d (path_warning library_file error)) entries
  | Ok p :: entries =>
      match canonical_directory p with
      | Err error =>
          add_libraries root library_file
            (discovery_warn d (path_warning p (lit "invalid Steam library: " ++ error))) entries
      | Ok p =>
          if path_mem p (ds_seen d) then add_libraries root library_file d entries
          else if (ds_secondary d =? MAX_SECONDARY_LIBRARIES)%nat
          then discovery_warn d (path_warning library_file (lit "secondary library limit of 64 reached"))
          else match canonical_library p root with
               | Err e => add_libraries root library_file (discovery_located d e) entries
               | Ok library =>
                   let '(d, added) := add_library d library in
                   add_libraries root library_file (if added then d <| ds_secondary ::= S |> else d) entries
               end
      end
  end.

(** One requested root. *)
Definition discover_root (d : Discovery) (requested_root : path) : Discovery :=
  match canonical_directory requested_root with
  | Err error => discovery_warn d (path_warning requested_root error)
  | Ok root =>
      match canonical_library root root with
      | Err e => discovery_located d e
      | Ok root_library =>
          let d := fst (add_library d root_library) in
          let library_file := path_join (sl_steamapps root_library) (lit "libraryfolders.vdf") in
          match canonical_regular_file_within (sl_steamapps root_library) library_file (lit "canonical steamapps") with
          | Err e => discovery_located d e
          | Ok canonical_library_file =>
              match read_bounded_keyvalues canonical_library_file MAX_LIBRARY_VDF_BYTES with
              | Err error =>
                  discovery_warn d (path_warning library_file (lit "could not read Steam library list: " ++ error))
              | Ok text =>
                  match library_paths text with
                  | Err error =>
                      discovery_warn d (path_warning library_file (lit "invalid Steam library list: " ++ error))
                  | Ok entries => add_libraries root library_file d entries
                  end
              end
          end
      end
  end.

Fixpoint scan_libraries (s : ScanState) (libraries : list SteamLibrary) : ScanState :=
  match libraries with
  | [] => s
  | library :: libraries =>
      if sn_limit_reported s then s else scan_libraries (scan_library library s) libraries
  end.

Definition game_key (g : SteamGame) : str * Z := (case_fold (sg_name g), sg_app_id g).

Definition discover_from_roots (roots : list path) : DiscoveryReport :=
  let d := foldl discover_root (mkDiscovery [] [] 0 []) roots in
  let metadata_roots := bk_extend path_key [] (sl_icon_root <$> ds_libraries d) in
  let s := scan_libraries (mkScanState ∅ (ds_warnings d) 0 false) (ds_libraries d) in
  let '(games, warnings) := merge_binary_metadata metadata_roots (sn_games s) (sn_warnings s) in
  mkDiscoveryReport (sort_by_key game_key (values_in_order games)) warnings.

(** The directories Steam may be installed in, for the user's home. *)
Definition candidate_steam_roots (home : path) : list path :=
  let candidates := [path_join home (lit ".local/share/Steam"); path_join home (lit ".steam/steam");
                     path_join home (lit ".var/app/com.valvesoftware.Steam/.local/share/Steam")] in
  let canonical := List.filter fs_is_dir (omap (λ c, ok_opt (fs_canonicalize c)) candidates) in
  foldl (λ kept c, if path_mem c kept then kept else kept ++ [c]) [] canonical.
End discovery.

(** * Bounded sets keep the smallest elements *)

Section retain.
Context {A K : Type} `{BOrd K} (key : A → K).

Lemma bk_contains_take x n s : bk_contains key x (take n s) = true → bk_contains key x s = true.
Proof. rewrite !bk_contains_true. intros (y & Hy & E). exists y. split; [|done]. by eapply subseteq_take. Qed.

Lemma length_bk_insert x s : bk_contains key x s = false → length (bk_insert key x s) = S (length s).
Proof.
  unfold bk_contains. induction s as [|y s IH]; cbn; [done|]. intros [Ey Hs]%orb_false_iff.
  destruct (blt (key x) (key y)); [done|]. destruct (blt (key y) (key x)); [cbn; by rewrite IH|done].
Qed.

Lemma length_bk_insert_le x s : (length s ≤ length (bk_insert key x s))%nat.
Proof.
  induction s as [|y s IH]; cbn; [lia|].
  destruct (blt (key x) (key y)); [cbn; lia|]. destruct (blt (key y) (key x)); cbn; lia.
Qed.

(** A full set and an element that is not in it. *)
Lemma retain_full x v :
  bk_sorted key v → bk_contains key x v = false →
  take (length v) (bk_insert key x v) =
    if is_some_and (λ last, blt (key x) (key last)) (last v) then bk_insert key x (removelast v) else v.
Proof.
  intros Hs Hc. destruct (list_eq_nil_dec v) as [->|Hne]; [done|].
  destruct (exists_last Hne) as (s & z & ->). rewrite last_snoc, removelast_last, length_app, Nat.add_1_r. cbn.
  destruct (blt (key x) (key z)) eqn:E; [by apply take_bk_insert_before|].
  assert (blt (key z) (key x) = true) as Hzx.
  { destruct (blt (key z) (key x)) eqn:E'; [done|]. apply not_true_iff_false in Hc. destruct Hc.
    apply bk_contains_true. exists z. split; [apply elem_of_app; right; by constructor|by apply blt_total]. }
  rewrite bk_insert_last.
  - rewrite take_app_le by (rewrite length_app; cbn; lia). apply take_ge. rewrite length_app. cbn. lia.
  - apply Forall_app. split; [|by constructor]. apply StronglySorted_app in Hs as (Hz & _ & _).
    apply Forall_forall. intros y Hy. apply (blt_trans _ (key z)); [|done].
    apply Hz; [done|]. by constructor.
Qed.

Lemma retain_bounded_step limit c x :
  bk_sorted key c →
  retain_bounded key limit (take limit c, (limit <? length c)%nat) x =
    (take limit (bk_insert key x c), (limit <? length (bk_insert key x c))%nat).
Proof.
  intros Hs. unfold retain_bounded. destruct (bk_contains key x (take limit c)) eqn:Hc.
  { by rewrite (bk_insert_contained key x c) by eauto using bk_contains_take. }
  rewrite length_take. destruct (Nat.ltb_spec (Nat.min limit (length c)) limit) as [Hl|Hl].
  - rewrite take_ge in Hc |- * by lia. pose proof (length_bk_insert x c Hc).
    rewrite take_ge by lia. f_equal. by destruct (Nat.ltb_spec limit (length c)),
      (Nat.ltb_spec limit (length (bk_insert key x c))); [lia|lia|lia|].
  - assert ((limit <? length (bk_insert key x c))%nat = true) as ->.
    { apply Nat.ltb_lt. destruct (decide (length c = limit)) as [E|].
      - rewrite take_ge in Hc by lia. rewrite length_bk_insert by done. lia.
      - pose proof (length_bk_insert_le x c). lia. }
    assert (bk_sorted key (take limit c)) as Hst.
    { rewrite <- (take_drop limit c) in Hs. by eapply StronglySorted_app_1_l. }
    rewrite take_bk_insert. pose proof (retain_full x (take limit c) Hst Hc) as E.
    rewrite length_take, Nat.min_l in E by lia. rewrite E. by destruct (is_some_and _ _).
Qed.

Lemma retain_bounded_all limit l :
  foldl (retain_bounded key limit) ([], false) l =
    (take limit (bk_extend key [] l), (limit <? length (bk_extend key [] l))%nat).
Proof.
  unfold bk_extend. enough (∀ c, bk_sorted key c →
    foldl (retain_bounded key limit) (take limit c, (limit <? length c)%nat) l =
      (take limit (foldl (λ s x, bk_insert key x s) c l),
       (limit <? length (foldl (λ s x, bk_insert key x s) c l))%nat)) as E.
  { rewrite <- E by constructor. by rewrite take_nil. }
  induction l as [|x l IH]; intros c Hs; cbn [foldl]; [done|].
  rewrite retain_bounded_step by done. apply IH. by apply bk_insert_sorted.
Qed.

(** Offering elements one by one to a bounded set leaves the smallest of them, in order and without
    repetition, as collecting all of them and cutting the result would, and says exactly whether there were
    more; so what is kept does not depend on which of two distinct elements came first. *)
Theorem retain_bounded_smallest limit l :
  let s := bk_extend key [] l in
  foldl (retain_bounded key limit) ([], false) l = (take limit s, (limit <? length s)%nat) ∧ bk_sorted key s.
Proof. split; [apply retain_bounded_all|]. apply bk_extend_sorted. constructor. Qed.
End retain.

(** * What the merge keeps *)

(** The type and the shortcut names the reports give for an id. *)
Definition type_of (reports : list BinaryMetadataReport) (id : Z) (t : SteamAppType) : Prop :=
  ∃ r, r ∈ reports ∧ bm_app_types r !! id = Some t.
Definition shortcut_of (reports : list BinaryMetadataReport) (id : Z) (name : str) : Prop :=
  ∃ r, r ∈ reports ∧ mkSteamShortcut id name ∈ bm_shortcuts r.

Definition conflict {A} (P : A → Prop) : Prop := ∃ x y, P x ∧ P y ∧ x ≠ y.

(** An id the metadata disagree on, or that names both an installed game
    and a shortcut. *)
Definition ambiguous_id (reports : list BinaryMetadataReport) (games : gmap Z SteamGame) (id : Z) : Prop :=
  conflict (type_of reports id) ∨ conflict (shortcut_of reports id) ∨
  (is_Some (games !! id) ∧ ∃ name, shortcut_of reports id name).

Definition verified (t : SteamAppType) (game : SteamGame) : option SteamGame :=
  match t with
  | AppGame => Some (game <| sg_kind := KindSteamGame |>)
  | AppNonGame => None
  | AppUnknown => Some (game <| sg_kind := KindUnverified |>)
  end.

(** What is listed for an id. *)
Inductive merged_entry (reports : list BinaryMetadataReport) (games : gmap Z SteamGame) (id : Z) :
    option SteamGame → Prop :=
| MergedAmbiguous : ambiguous_id reports games id → merged_entry reports games id None
| MergedShortcut name :
    ¬ ambiguous_id reports games id → shortcut_of reports id name →
    merged_entry reports games id (Some (shortcut_game (mkSteamShortcut id name)))
| MergedTyped t :
    ¬ ambiguous_id reports games id → ¬ (∃ name, shortcut_of reports id name) → type_of reports id t →
    merged_entry reports games id (games !! id ≫= verified t)
| MergedUntyped :
    ¬ ambiguous_id reports games id → ¬ (∃ name, shortcut_of reports id name) →
    ¬ (∃ t, type_of reports id t) →
    merged_entry reports games id (games !! id ≫= verified AppUnknown).

(** One entry of a map in which the values offered for an id must agree. *)
Definition offer {V} `{EqDecision V} (m : gmap Z V) (ambiguous : gset Z) (id : Z) (v : V) : gmap Z V * gset Z :=
  match m !! id with
  | Some existing => if bool_decide (existing = v) then (m, ambiguous) else (delete id m, {[id]} ∪ ambiguous)
  | None => if bool_decide (id ∈ ambiguous) then (m, ambiguous) else (<[id := v]> m, ambiguous)
  end.

(** Outside the ambiguous ids, the map holds what was offered. *)
Definition agree {V} (P : Z → V → Prop) (m : gmap Z V) (ambiguous : gset Z) : Prop :=
  ∀ id v, id ∉ ambiguous → m !! id = Some v ↔ P id v.

Lemma agree_more {V} (P : Z → V → Prop) m a b : agree P m a → a ⊆ b → agree P m b.
Proof. intros H Hab id v Hid. apply H. set_solver. Qed.

Lemma offer_ambiguous {V} `{EqDecision V} (P : Z → V → Prop) m a id v i :
  agree P m a → i ∈ snd (offer m a id v) ↔ i ∈ a ∨ (i = id ∧ ∃ u, P id u ∧ u ≠ v).
Proof.
  intros H. unfold offer. destruct (decide (id ∈ a)) as [Ha|Ha].
  { destruct (m !! id); case_bool_decide; set_solver. }
  specialize (H id). destruct (m !! id) as [u|] eqn:E.
  - pose proof (proj1 (H u Ha) eq_refl) as Hu. case_bool_decide as Huv; cbn; [|set_solver].
    subst u. split; [by left|]. intros [?|(-> & u & Hu' & Hne)]; [done|]. apply H in Hu'; [|done]. congruence.
  - rewrite bool_decide_eq_false_2 by done. cbn. split; [by left|].
    intros [?|(-> & u & Hu & _)]; [done|]. by apply H in Hu.
Qed.

Lemma offer_agree {V} `{EqDecision V} (P : Z → V → Prop) m a id v :
  agree P m a →
  agree (λ i u, P i u ∨ (i = id ∧ u = v)) (fst (offer m a id v)) (snd (offer m a id v)).
Proof.
  intros H i u. rewrite (offer_ambiguous P) by done. intros Hi.
  assert (i ∉ a) as Ha by tauto. assert (i = id → ∀ w, P id w → w = v) as Hw.
  { intros -> w Hw. destruct (decide (w = v)); [done|]. destruct Hi. right. eauto. }
  destruct (decide (i = id)) as [->|Hne].
  - specialize (Hw eq_refl). unfold offer. pose proof (H id) as Hid. destruct (m !! id) as [e|] eqn:E.
    + pose proof (Hw e (proj1 (Hid e Ha) eq_refl)) as ->. rewrite bool_decide_eq_true_2 by done. cbn.
      rewrite E. split; [intros [= <-]; by right|]. intros [Hp|[_ ->]]; [by rewrite (Hw u Hp)|done].
    + rewrite bool_decide_eq_false_2 by done. cbn. rewrite lookup_insert_eq.
      split; [intros [= <-]; by right|]. intros [Hp|[_ ->]]; [by rewrite (Hw u Hp)|done].
  - assert (fst (offer m a id v) !! i = m !! i) as ->.
    { unfold offer. destruct (m !! id); case_bool_decide; cbn; rewrite ?lookup_delete_ne, ?lookup_insert_ne; done. }
    rewrite (H i u) by done. naive_solver.
Qed.

(** The state of the merge after the types [T] and the shortcuts [N]. *)
Record merge_inv (T : Z → SteamAppType → Prop) (N : Z → str → Prop) (m : Merge) : Prop := {
  mi_ambiguous id : id ∈ mg_ambiguous m ↔ conflict (T id) ∨ conflict (N id);
  mi_types : agree T (mg_types m) (mg_ambiguous m);
  mi_shortcuts : agree N (sc_name <$> mg_shortcuts m) (mg_ambiguous m);
  mi_keys id s : mg_shortcuts m !! id = Some s → sc_app_id s = id
}.

Lemma merge_inv_ext T T' N N' m :
  (∀ id t, T id t ↔ T' id t) → (∀ id n, N id n ↔ N' id n) → merge_inv T N m → merge_inv T' N' m.
Proof.
  intros HT HN [Ha Ht Hs Hk]. split; [|intros id t Hn|intros id n Hn|done].
  - intros id. rewrite Ha. unfold conflict. setoid_rewrite HT. by setoid_rewrite HN.
  - by rewrite (Ht id t Hn), HT.
  - by rewrite (Hs id n Hn), HN.
Qed.

Lemma conflict_add {V} (P : Z → V → Prop) id v i :
  conflict (λ u, P i u ∨ (i = id ∧ u = v)) ↔ conflict (P i) ∨ (i = id ∧ ∃ u, P id u ∧ u ≠ v).
Proof.
  split.
  - intros (y & z & [Hy|[Ei ->]] & [Hz|[Ei' ->]] & Hne); subst;
      [left; by exists y, z|right; split; [done|by exists y]|right; split; [done|by exists z]|done].
  - intros [(y & z & Hy & Hz & Hne)|(-> & y & Hy & Hne)]; [exists y, z|exists y, v]; auto 10.
Qed.

Lemma merge_type_inv T N m id t :
  merge_inv T N m → merge_inv (λ i u, T i u ∨ (i = id ∧ u = t)) N (merge_type m (id, t)).
Proof.
  intros [Ha Ht Hs Hk].
  assert (merge_type m (id, t) = mkMerge (fst (offer (mg_types m) (mg_ambiguous m) id t)) (mg_shortcuts m)
    (snd (offer (mg_types m) (mg_ambiguous m) id t))) as ->.
  { unfold merge_type, offer. destruct m as [types shortcuts amb]; cbn.
    destruct (types !! id); repeat case_bool_decide; done. }
  split; cbn.
  - intros i. rewrite (offer_ambiguous T), Ha, conflict_add by done. tauto.
  - by apply offer_agree.
  - eapply agree_more; [exact Hs|]. intros i. rewrite (offer_ambiguous T); auto.
  - exact Hk.
Qed.

Lemma merge_shortcut_inv T N m s :
  merge_inv T N m → merge_inv T (λ i n, N i n ∨ (i = sc_app_id s ∧ n = sc_name s)) (merge_shortcut m s).
Proof.
  intros [Ha Ht Hs Hk]. set (o := offer (sc_name <$> mg_shortcuts m) (mg_ambiguous m) (sc_app_id s) (sc_name s)).
  assert (mg_types (merge_shortcut m s) = mg_types m ∧
    sc_name <$> mg_shortcuts (merge_shortcut m s) = fst o ∧ mg_ambiguous (merge_shortcut m s) = snd o) as (E1 & E2 & E3).
  { unfold o, merge_shortcut, offer. rewrite lookup_fmap. destruct m as [types shortcuts amb]; cbn.
    destruct (shortcuts !! sc_app_id s); cbn; repeat case_bool_decide; cbn; rewrite ?fmap_delete, ?fmap_insert; done. }
  split; rewrite ?E1, ?E2, ?E3.
  - intros i. unfold o. rewrite (offer_ambiguous N), Ha, conflict_add by done. tauto.
  - eapply agree_more; [exact Ht|]. intros i. unfold o. rewrite (offer_ambiguous N); auto.
  - by apply offer_agree.
  - intros id e. unfold merge_shortcut. destruct (mg_shortcuts m !! sc_app_id s); case_bool_decide; cbn; try apply Hk.
    + intros [_ He]%lookup_delete_Some. by apply Hk.
    + intros [[<- <-]|[_ He]]%lookup_insert_Some; [done|by apply Hk].
Qed.

Lemma merge_types_inv T N m l :
  merge_inv T N m → merge_inv (λ i u, T i u ∨ (i, u) ∈ l) N (foldl merge_type m l).
Proof.
  revert T m. induction l as [|[id t] l IH]; intros T m Hm; cbn [foldl].
  - eapply merge_inv_ext; [..|exact Hm]; [|done]. intros i u. rewrite elem_of_nil. tauto.
  - eapply merge_inv_ext; [..|apply IH, merge_type_inv, Hm]; [|done]. intros i u. cbn.
    rewrite elem_of_cons. naive_solver.
Qed.

Lemma merge_shortcuts_inv T N m l :
  merge_inv T N m → merge_inv T (λ i n, N i n ∨ mkSteamShortcut i n ∈ l) (foldl merge_shortcut m l).
Proof.
  revert N m. induction l as [|[id name] l IH]; intros N m Hm; cbn [foldl].
  - eapply merge_inv_ext; [..|exact Hm]; [done|]. intros i u. rewrite elem_of_nil. tauto.
  - eapply merge_inv_ext; [..|apply IH, merge_shortcut_inv, Hm]; [done|]. intros i u. cbn.
    rewrite elem_of_cons. naive_solver.
Qed.

Lemma elem_of_entries_in_order {V} (m : gmap Z V) k v : (k, v) ∈ entries_in_order m ↔ m !! k = Some v.
Proof.
  unfold entries_in_order. rewrite list_elem_of_omap. split.
  - intros (j & _ & (w & Hw & [= <- <-])%fmap_Some). done.
  - intros H. exists k. rewrite merge_sort_Permutation, elem_of_elements, elem_of_dom, H. eauto.
Qed.

Lemma merge_reports_inv reports :
  merge_inv (type_of reports) (shortcut_of reports) (foldl merge_report (mkMerge ∅ ∅ ∅) reports).
Proof.
  enough (∀ T N m, merge_inv T N m → merge_inv (λ i t, T i t ∨ type_of reports i t)
    (λ i n, N i n ∨ shortcut_of reports i n) (foldl merge_report m reports)) as H.
  { eapply merge_inv_ext; [..|apply (H (λ _ _, False) (λ _ _, False))]; [tauto..|].
    split; cbn; try done. intros id. unfold conflict. set_solver. }
  induction reports as [|r reports IH]; intros T N m Hm; cbn [foldl].
  - eapply merge_inv_ext; [..|exact Hm]; intros i x; unfold type_of, shortcut_of; setoid_rewrite elem_of_nil; naive_solver.
  - eapply merge_inv_ext; [..|apply IH, merge_shortcuts_inv, merge_types_inv, Hm]; intros i x; cbn.
    + unfold type_of. rewrite elem_of_entries_in_order. setoid_rewrite elem_of_cons. naive_solver.
    + unfold shortcut_of. setoid_rewrite elem_of_cons. naive_solver.
Qed.

(** Adding shortcuts to the games: each stands under its own id. *)
Lemma insert_shortcuts_lookup l (games : gmap Z SteamGame) id :
  (∀ s s', s ∈ l → s' ∈ l → sc_app_id s = sc_app_id s' → s = s') →
  (∀ s, s ∈ l → sc_app_id s = id →
     foldl (λ games s, <[sc_app_id s := shortcut_game s]> games) games l !! id = Some (shortcut_game s)) ∧
  ((∀ s, s ∈ l → sc_app_id s ≠ id) →
     foldl (λ games s, <[sc_app_id s := shortcut_game s]> games) games l !! id = games !! id).
Proof.
  revert games. induction l as [|x l IH] using rev_ind; intros games Hl.
  { split; [by intros s ?%elem_of_nil|done]. }
  rewrite foldl_app. cbn. setoid_rewrite elem_of_app. setoid_rewrite list_elem_of_singleton. split.
  - intros s Hs Hid. destruct (decide (sc_app_id x = id)) as [E|Hne].
    + rewrite E, lookup_insert_eq. do 2 f_equal. apply Hl; [..|congruence];
        apply elem_of_app; [right; by constructor|]. destruct Hs as [|Hs]; [by left|subst; right; by constructor].
    + rewrite lookup_insert_ne by done. destruct Hs as [Hs| ->]; [|done].
      apply IH; [|done..]. intros ????. apply Hl; apply elem_of_app; by left.
  - intros Hn. rewrite lookup_insert_ne by (apply Hn; by right). apply IH; [|by auto].
    intros ????. apply Hl; apply elem_of_app; by left.
Qed.

Lemma elem_of_values_in_order {V} (m : gmap Z V) v : v ∈ values_in_order m ↔ ∃ k, m !! k = Some v.
Proof.
  unfold values_in_order. rewrite list_elem_of_omap. split; [intros (k & _ & H); eauto|].
  intros [k H]. exists k. rewrite merge_sort_Permutation, elem_of_elements, elem_of_dom, H. eauto.
Qed.

Lemma merge_reports_entry reports games warnings id :
  merged_entry reports games id (fst (merge_reports reports games warnings) !! id).
Proof.
  pose proof (merge_reports_inv reports) as [Ha Ht Hs Hk]. unfold merge_reports.
  set (m := foldl merge_report (mkMerge ∅ ∅ ∅) reports) in *. cbn [fst].
  set (amb := mg_ambiguous m ∪ dom (filter (λ g, is_Some (mg_shortcuts m !! fst g)) games)).
  assert (∀ name, id ∉ mg_ambiguous m →
    mg_shortcuts m !! id = Some (mkSteamShortcut id name) ↔ shortcut_of reports id name) as Hname.
  { intros name Hid. rewrite <- (Hs id name Hid), lookup_fmap, fmap_Some. split; [eauto|].
    intros ([i n] & E & ->). rewrite E. by rewrite <- (Hk _ _ E). }
  assert (id ∈ amb ↔ ambiguous_id reports games id) as Hamb.
  { unfold amb, ambiguous_id. rewrite elem_of_union, Ha, elem_of_dom.
    destruct (decide (id ∈ mg_ambiguous m)) as [Hid|Hid]; [apply Ha in Hid; tauto|].
    enough (is_Some (filter (λ g, is_Some (mg_shortcuts m !! fst g)) games !! id) ↔
      is_Some (games !! id) ∧ ∃ name, shortcut_of reports id name) as -> by tauto.
    setoid_rewrite <- (λ n, Hname n Hid). unfold is_Some. setoid_rewrite map_lookup_filter_Some. cbn. split.
    - intros (g & Hg & [i n] & E). split; [eauto|]. exists n. by rewrite E, <- (Hk _ _ E).
    - intros ([g Hg] & n & E). eauto. }
  set (kept := filter (λ s, fst s ∉ amb) (mg_shortcuts m)).
  destruct (insert_shortcuts_lookup (values_in_order kept)
    (map_imap (retain_game (mg_types m)) (filter (λ g, fst g ∉ amb) games)) id) as [Hin Hout].
  { intros s s' (k & [Hk1 _]%map_lookup_filter_Some)%elem_of_values_in_order
      (k' & [Hk2 _]%map_lookup_filter_Some)%elem_of_values_in_order E.
    rewrite (Hk _ _ Hk1), (Hk _ _ Hk2) in E. subst k'. congruence. }
  assert (∀ s, s ∈ values_in_order kept ↔ mg_shortcuts m !! sc_app_id s = Some s ∧ sc_app_id s ∉ amb) as Hkept.
  { intros s. rewrite elem_of_values_in_order. unfold kept. setoid_rewrite map_lookup_filter_Some. cbn. split.
    - intros (k & E & Hn). by rewrite (Hk _ _ E).
    - intros [E Hn]. eauto. }
  destruct (decide (id ∈ amb)) as [Hid|Hid].
  { rewrite Hout by (intros s [_ Hn]%Hkept <-; done). rewrite map_lookup_imap.
    rewrite (proj2 (map_lookup_filter_None _ _ _)) by (right; intros ?? Hn; by apply Hn). constructor. by apply Hamb. }
  assert (id ∉ mg_ambiguous m) as Hma by (unfold amb in Hid; set_solver).
  destruct (mg_shortcuts m !! id) as [s|] eqn:Es.
  { pose proof (Hk _ _ Es) as Eid. rewrite (Hin s) by (by try apply Hkept; rewrite ?Eid). destruct s as [i n].
    cbn in Eid. subst i. constructor; [by rewrite <- Hamb|]. by apply Hname. }
  assert (¬ ∃ name, shortcut_of reports id name) as Hno.
  { intros [name Hn]. apply Hname in Hn; [|done]. congruence. }
  rewrite Hout by (intros s [E _]%Hkept <-; congruence).
  rewrite map_lookup_imap, map_lookup_filter. cbn [fst].
  replace (games !! id ≫= λ x, guard (id ∉ amb) ;; Some x) with (games !! id) by
    (destruct (games !! id); cbn; [by case_guard|done]).
  unfold retain_game. specialize (Ht id). destruct (mg_types m !! id) as [t|] eqn:Et.
  - assert (type_of reports id t) as Hty by (by apply Ht).
    replace (games !! id ≫= _) with (games !! id ≫= verified t) by (destruct (games !! id), t; done).
    constructor; [by rewrite <- Hamb|done..].
  - constructor; [by rewrite <- Hamb|done|]. intros [t Hty]. apply Ht in Hty; [congruence|done].
Qed.

(** C18 For every app id the merge lists what the metadata say, in whatever order the reports come: nothing for
    an id the reports disagree on or that is both a game and a shortcut, else its shortcut, else the installed game
    with its verified kind, unless Steam says it is no game. *)
Theorem merge_reports_reference reports games warnings id :
  merged_entry reports games id (fst (merge_reports reports games warnings) !! id).
Proof. apply merge_reports_entry. Qed.

(** * What discovery reports *)

Definition warnings_wf (w : list str) : Prop :=
  (length w ≤ MAX_WARNINGS)%nat ∧ Forall (λ s, str_len s ≤ MAX_CONTROL_MESSAGE_BYTES) w.

Lemma push_warning_wf w s : warnings_wf w → warnings_wf (push_warning w s).
Proof.
  intros [Hl Hw]. unfold push_warning. destruct (Nat.ltb_spec (length w) MAX_WARNINGS).
  - split; [rewrite length_app; cbn; lia|]. apply Forall_app. split; [done|]. apply Forall_singleton.
    by apply bounded_control_text_length.
  - destruct (is_some_and _ _); [|done]. split; [by rewrite length_insert|].
    apply Forall_insert; [done|]. by vm_compute.
Qed.
#[export] Hint Resolve push_warning_wf : oc.

Lemma push_warnings_wf {A} (f : A → str) l w :
  warnings_wf w → warnings_wf (foldl (λ w x, push_warning w (f x)) w l).
Proof. revert w. induction l as [|x l IH]; intros w Hw; cbn; [done|]. by apply IH, push_warning_wf. Qed.

Section reported.
Context `{FileSystem} `{KeyValues} (case_fold : str → str).

(** A library as discovery accepts it. *)
Definition library_wf (library : SteamLibrary) : Prop :=
  is_strictly_contained (sl_root library) (sl_steamapps library) = true ∧ fs_is_dir (sl_steamapps library) = true.

(** [dir] is a directory below the library's [steamapps/common]. *)
Definition installed_in (library : SteamLibrary) (dir : path) : Prop :=
  ∃ common, fs_canonicalize (path_join (sl_steamapps library) (lit "common")) = Ok common ∧
    is_strictly_contained (sl_steamapps library) common = true ∧
    is_strictly_contained common dir = true ∧ fs_is_dir dir = true.

(** [icon] is a file below [steam/games] of the library's Steam root. *)
Definition icon_of (library : SteamLibrary) (icon : path) : Prop :=
  ∃ games, fs_canonicalize (path_join (sl_icon_root library) (lit "steam/games")) = Ok games ∧
    is_strictly_contained (sl_icon_root library) games = true ∧
    is_strictly_contained games icon = true ∧ fs_is_file icon = true.

(** A game of an app manifest. *)
Definition installed_wf (libraries : list SteamLibrary) (g : SteamGame) : Prop :=
  sg_app_id g ≠ 0 ∧ sg_name g ≠ [] ∧ sg_kind g ≠ KindSteamShortcut ∧
  str_len (sg_name g) ≤ MAX_CONTROL_GAME_NAME_BYTES ∧
  ∃ library dir, library ∈ libraries ∧ sg_install_dir g = Some dir ∧ installed_in library dir ∧
    ∀ icon, sg_icon g = Some icon → icon_of library icon.

Definition game_wf (libraries : list SteamLibrary) (g : SteamGame) : Prop :=
  installed_wf libraries g ∨
  (∃ s, shortcut_wf s ∧ g = shortcut_game s).

Definition games_wf (libraries : list SteamLibrary) (games : gmap Z SteamGame) : Prop :=
  ∀ id g, games !! id = Some g → sg_app_id g = id ∧ installed_wf libraries g.

Lemma located_Ok {A} p (r : result str A) x : located p r = Ok x ↔ r = Ok x.
Proof. apply map_error_Ok. Qed.

Lemma canonical_directory_Ok p q : canonical_directory p = Ok q ↔ fs_canonicalize p = Ok q ∧ fs_is_dir q = true.
Proof.
  unfold canonical_directory. destruct (fs_canonicalize p) as [r|]; [|by split; [|intros [? _]]].
  destruct (fs_is_dir r) eqn:E; split; [by intros [= <-]|by intros [[= ->] _]|done|].
  intros [[= ->] ?]. congruence.
Qed.

Lemma canonical_directory_within_Ok base p base_name q :
  canonical_directory_within base p base_name = Ok q →
  fs_canonicalize p = Ok q ∧ fs_is_dir q = true ∧ is_strictly_contained base q = true.
Proof.
  unfold canonical_directory_within. intros (r & [Hc Hd]%located_Ok%canonical_directory_Ok & E)%result_bind_Ok.
  destruct (is_strictly_contained base r) eqn:Hr; [|done]. by injection E as <-.
Qed.

Lemma canonical_install_directory_Ok library name dir :
  canonical_install_directory library name = Ok (Some dir) → installed_in library dir.
Proof.
  unfold canonical_install_directory.
  intros (common & (Hc & Hd & Hs)%canonical_directory_within_Ok & E)%result_bind_Ok.
  destruct (fs_symlink_metadata _) as [|e]; [|by destruct (io_not_found e)].
  destruct (canonical_directory_within common _ _) as [q|] eqn:Hq; [|done]. injection E as <-.
  apply canonical_directory_within_Ok in Hq as (? & ? & ?). by exists common.
Qed.

Lemma canonical_local_icon_Ok library name icon :
  canonical_local_icon library name = Ok (Some icon) → icon_of library icon.
Proof.
  unfold canonical_local_icon. destruct (fs_canonicalize _) as [games|e] eqn:Hg; [|by destruct (io_not_found e)].
  destruct (fs_is_dir games), (is_strictly_contained (sl_icon_root library) games) eqn:Hc; cbn; try done.
  destruct (fs_canonicalize (path_join games _)) as [q|e]; [|by destruct (io_not_found e)].
  destruct (fs_is_file q) eqn:Hf, (is_strictly_contained games q) eqn:Hq; cbn; try done.
  intros [= <-]. by exists games.
Qed.

Lemma manifest_head_Ok read_path manifest_path id library object app_id name dir :
  manifest_head read_path manifest_path id library = Ok (Some (object, app_id, name, dir)) →
  app_id ≠ 0 ∧ name ≠ [] ∧ str_len name ≤ MAX_CONTROL_GAME_NAME_BYTES ∧ installed_in library dir.
Proof.
  unfold manifest_head. intros (text & _ & (document & _ & E)%result_bind_Ok)%result_bind_Ok.
  destruct (eq_ignore_ascii_case _ _); cbn in E; [|done].
  apply result_bind_Ok in E as (obj & _ & (id_text & _ & (i & _ & E)%result_bind_Ok)%result_bind_Ok).
  destruct (i =? id); cbn in E; [|done]. destruct (Z.eqb_spec i 0) as [|Hi]; [done|].
  apply result_bind_Ok in E as (n & _ & E). case_bool_decide as Hn; [done|].
  destruct (Z.ltb_spec MAX_CONTROL_GAME_NAME_BYTES (str_len n)); [done|].
  apply result_bind_Ok in E as (install & _ & E). destruct (is_safe_component install); cbn in E; [|done].
  apply result_bind_Ok in E as ([d|] & Hd & E); [|done]. injection E as <- <- <- <-.
  split_and!; [done| |done|by eapply canonical_install_directory_Ok]. by intros ->.
Qed.

Lemma parse_manifest_wf libraries read_path manifest_path id library w game w' :
  library ∈ libraries → warnings_wf w →
  parse_manifest read_path manifest_path id library w = (game, w') →
  warnings_wf w' ∧ ∀ g, game = Ok (Some g) → installed_wf libraries g.
Proof.
  intros Hlib Hw. unfold parse_manifest.
  destruct (manifest_head _ _ _ _) as [[[[[object app_id] name] dir]|]|] eqn:E;
    [|intros [= <- <-]; split; [done|done]..].
  apply manifest_head_Ok in E as (Hid & Hname & Hlen & Hdir).
  assert (warnings_wf (snd (manifest_icon library manifest_path object w)) ∧
    ∀ icon, fst (manifest_icon library manifest_path object w) = Some icon → icon_of library icon) as [Hw' Hicon].
  { unfold manifest_icon. destruct (optional_object_string _ _) as [value|]; [|done].
    destruct (is_safe_component value); cbn; [|split; [auto with oc|done]].
    destruct (canonical_local_icon library value) as [icon|] eqn:Ei; cbn; [|split; [by apply push_warning_wf|done]].
    split; [done|]. intros i ->. by eapply canonical_local_icon_Ok. }
  destruct (manifest_icon _ _ _ _) as [icon w'']. cbn in *. intros [= <- <-]. split; [done|].
  intros g [= <-]. unfold installed_wf. cbn. split_and!; [done..|]. by exists library, dir.
Qed.

Lemma scan_manifest_wf libraries library games w m :
  library ∈ libraries → games_wf libraries games ∧ warnings_wf w →
  games_wf libraries (fst (scan_manifest library (games, w) m)) ∧ warnings_wf (snd (scan_manifest library (games, w) m)).
Proof.
  intros Hlib [Hg Hw]. unfold scan_manifest, push_located.
  destruct (canonical_regular_file_within _ _ _) as [q|]; cbn; [|auto with oc].
  destruct (parse_manifest q (snd m) (fst m) library w) as [r w'] eqn:E.
  destruct (parse_manifest_wf libraries _ _ _ _ _ _ _ Hlib Hw E) as [Hw' Hr].
  destruct r as [[g|]|]; cbn; [|auto with oc..]. split; [|done].
  destruct (games !! sg_app_id g); cbn; [done|]. intros id g' [[<- <-]|[_ Hid]]%lookup_insert_Some; auto.
Qed.

Lemma scan_manifests_wf libraries library l gw :
  library ∈ libraries → games_wf libraries (fst gw) ∧ warnings_wf (snd gw) →
  games_wf libraries (fst (foldl (scan_manifest library) gw l)) ∧ warnings_wf (snd (foldl (scan_manifest library) gw l)).
Proof.
  intros Hlib. revert gw. induction l as [|m l IH]; intros [games w] Hgw; cbn [foldl]; [done|].
  apply IH. by apply scan_manifest_wf.
Qed.

(** The entries of a directory: never more manifests than may be inspected. *)
Lemma scan_entries_wf steamapps remaining l w :
  warnings_wf w →
  let e := foldl (scan_entry steamapps remaining) (mkEntries ([], false) ([], false) w) l in
  warnings_wf (en_warnings e) ∧ (length (fst (en_valid e)) ≤ remaining)%nat.
Proof.
  intros Hw. cbv zeta.
  enough (∀ e, warnings_wf (en_warnings e) →
    (∃ k, en_valid e = foldl (retain_bounded manifest_key remaining) ([], false) k) →
    warnings_wf (en_warnings (foldl (scan_entry steamapps remaining) e l)) ∧
    ∃ k, en_valid (foldl (scan_entry steamapps remaining) e l) =
      foldl (retain_bounded manifest_key remaining) ([], false) k) as G.
  { destruct (G (mkEntries ([], false) ([], false) w)) as [Hw' [k ->]]; [done|by exists []|].
    split; [done|]. rewrite (retain_bounded_all manifest_key). cbn. rewrite length_take. lia. }
  induction l as [|entry l IH]; intros e Hew [k Hk]; cbn [foldl]; [eauto|].
  apply IH; destruct entry as [name|]; cbn; [destruct (manifest_filename_app_id _) as [id| |]; done|
    by auto with oc| |by exists k].
  destruct (manifest_filename_app_id _) as [id| |]; cbn; [|by exists k..].
  exists (k ++ [(id, path_join steamapps name)]). by rewrite foldl_app, Hk.
Qed.

Record scan_wf (libraries : list SteamLibrary) (s : ScanState) : Prop := {
  sw_games : games_wf libraries (sn_games s);
  sw_warnings : warnings_wf (sn_warnings s);
  sw_inspected : (sn_inspected s ≤ MAX_MANIFESTS_INSPECTED)%nat
}.

Lemma scan_library_wf libraries library s :
  library ∈ libraries → scan_wf libraries s → scan_wf libraries (scan_library library s).
Proof.
  intros Hlib [Hg Hw Hi]. unfold scan_library.
  destruct (fs_read_dir (sl_steamapps library)) as [entries|]; [|split; cbn; auto with oc].
  set (remaining := (MAX_MANIFESTS_INSPECTED - sn_inspected s)%nat).
  pose proof (scan_entries_wf (sl_steamapps library) remaining entries (sn_warnings s) Hw) as [Hew Hel].
  set (e := foldl _ _ entries) in *.
  assert (∀ b w x, warnings_wf w → warnings_wf (if b : bool then push_warning w x else w)) as Hif
    by (intros []; auto with oc).
  match goal with |- context [foldl (scan_manifest library) ?gw ?l] =>
    assert (games_wf libraries (fst gw) ∧ warnings_wf (snd gw)) as Hgw;
      [split; [done|cbn; apply Hif, Hif; by apply push_warnings_wf]|];
    pose proof (scan_manifests_wf libraries library l gw Hlib Hgw) as [Hg' Hw'];
    destruct (foldl (scan_manifest library) gw l) as [games warnings]
  end.
  split; [exact Hg'|exact Hw'|]. cbn [sn_inspected]. clearbody e. unfold remaining in Hel. lia.
Qed.

Lemma scan_libraries_wf libraries l s :
  l ⊆ libraries → scan_wf libraries s → scan_wf libraries (scan_libraries s l).
Proof.
  revert s. induction l as [|library l IH]; intros s Hl Hs; cbn; [done|].
  destruct (sn_limit_reported s); [done|]. apply IH; [set_solver|]. apply scan_library_wf; [set_solver|done].
Qed.

(** The libraries found: at most 64 besides those of the roots. *)
Record discovery_wf (d : Discovery) (roots : nat) : Prop := {
  dw_libraries : Forall library_wf (ds_libraries d);
  dw_count : (length (ds_libraries d) ≤ roots + ds_secondary d)%nat;
  dw_secondary : (ds_secondary d ≤ MAX_SECONDARY_LIBRARIES)%nat;
  dw_warnings : warnings_wf (ds_warnings d)
}.

Lemma discovery_warn_wf d n w : discovery_wf d n → discovery_wf (discovery_warn d w) n.
Proof. intros [????]. split; cbn; auto with oc. Qed.
#[local] Hint Resolve discovery_warn_wf : oc.

Lemma discovery_wf_mono d n : discovery_wf d n → discovery_wf d (S n).
Proof. intros [????]. split; try done. lia. Qed.

Lemma canonical_library_wf root icon_root library :
  canonical_library root icon_root = Ok library → library_wf library.
Proof.
  unfold canonical_library.
  intros (r & _ & (i & _ & (s & [_ Hs]%located_Ok%canonical_directory_Ok & E)%result_bind_Ok)%result_bind_Ok)%result_bind_Ok.
  destruct (is_strictly_contained r s) eqn:Hc; [|done]. injection E as <-. done.
Qed.

Lemma add_library_wf d n library :
  discovery_wf d n → library_wf library → discovery_wf (fst (add_library d library)) (S n).
Proof.
  intros [Hl Hc Hs Hw] Hlib. unfold add_library. destruct (path_mem _ _); cbn; [split; done || lia|].
  split; cbn; [|rewrite length_app; cbn; lia|done..]. apply Forall_app. by rewrite Forall_singleton.
Qed.

Lemma add_secondary_wf d n library :
  discovery_wf d n → library_wf library → (ds_secondary d ≠ MAX_SECONDARY_LIBRARIES)%nat →
  let '(d', added) := add_library d library in
  discovery_wf (if added then d' <| ds_secondary ::= S |> else d') n.
Proof.
  intros [Hl Hc Hs Hw] Hlib Hne. unfold add_library. destruct (path_mem _ _); [done|].
  split; cbn; [|rewrite length_app; cbn; lia|lia|done]. apply Forall_app. by rewrite Forall_singleton.
Qed.

Lemma add_libraries_wf root library_file d n entries :
  discovery_wf d n → discovery_wf (add_libraries root library_file d entries) n.
Proof.
  revert d. induction entries as [|[p|e] entries IH]; intros d Hd; cbn; [done| |by auto with oc].
  destruct (canonical_directory p) as [q|]; [|by auto with oc].
  destruct (path_mem q (ds_seen d)); [by auto|].
  destruct (Nat.eqb_spec (ds_secondary d) MAX_SECONDARY_LIBRARIES) as [|Hne]; [by auto with oc|].
  destruct (canonical_library q root) as [library|] eqn:El; [|apply IH; by apply discovery_warn_wf].
  pose proof (add_secondary_wf d n library Hd (canonical_library_wf _ _ _ El) Hne) as H1.
  destruct (add_library d library) as [d' added]. by apply IH.
Qed.

Lemma discover_root_wf d n root : discovery_wf d n → discovery_wf (discover_root d root) (S n).
Proof.
  intros Hd. unfold discover_root, discovery_located. pose proof (discovery_wf_mono _ _ Hd) as Hd'.
  destruct (canonical_directory root) as [r|]; [|by auto with oc].
  destruct (canonical_library r r) as [library|] eqn:El; [|by auto with oc].
  pose proof (add_library_wf d n library Hd (canonical_library_wf _ _ _ El)) as Ha.
  destruct (canonical_regular_file_within _ _ _) as [file|]; [|by auto with oc].
  destruct (read_bounded_keyvalues _ _) as [text|]; [|by auto with oc].
  destruct (library_paths text) as [entries|]; [|by auto with oc]. by apply add_libraries_wf.
Qed.

Lemma discover_roots_wf roots d n :
  discovery_wf d n → discovery_wf (foldl discover_root d roots) (length roots + n).
Proof.
  revert d n. induction roots as [|root roots IH]; intros d n Hd; cbn [foldl length]; [done|].
  rewrite Nat.add_succ_comm. apply IH. by apply discover_root_wf.
Qed.

(** * The merged games *)

Lemma merged_entry_wf reports libraries games id game :
  Forall report_wf reports → games_wf libraries games →
  merged_entry reports games id (Some game) → sg_app_id game = id ∧ game_wf libraries game.
Proof.
  intros Hr Hg E.
  assert (∀ t, games !! id ≫= verified t = Some game → sg_app_id game = id ∧ game_wf libraries game) as Hv.
  { intros t (g & [Hid Hw]%Hg & Ht)%bind_Some.
    destruct Hw as (Hz & Hn & _ & Hw). destruct t; cbn in Ht; [|done|]; injection Ht as <-;
      (split; [done|]; left; split_and!; [done..|apply Hw|apply Hw]). }
  inversion E as [|name Hna (r & Hin & Hs)|t Hna Hno Hty Ho|Hna Hno Hty Ho]; subst; [|by eapply Hv..].
  split; [done|]. right. exists (mkSteamShortcut id name). split; [|done].
  rewrite Forall_forall in Hr. destruct (Hr r Hin) as [_ _ _ Hf]. rewrite Forall_forall in Hf. by apply Hf.
Qed.

Lemma merge_reports_warnings_wf reports games w :
  warnings_wf w → warnings_wf (snd (merge_reports reports games w)).
Proof.
  intros Hw. unfold merge_reports. cbn [snd].
  pose proof (push_warnings_wf (λ x, x) (reports ≫= bm_warnings) w Hw) as Hw'.
  by apply (push_warnings_wf (λ x, x)).
Qed.

Record report_ok (roots : list path) (report : DiscoveryReport) : Prop := {
  ro_warnings : warnings_wf (dr_warnings report);
  ro_games : ∃ libraries, Forall library_wf libraries ∧
    (length libraries ≤ length roots + MAX_SECONDARY_LIBRARIES)%nat ∧
    Forall (game_wf libraries) (dr_games report);
  ro_ids : NoDup (sg_app_id <$> dr_games report);
  ro_sorted : StronglySorted (λ g h, blt (game_key case_fold h) (game_key case_fold g) = false) (dr_games report)
}.

Lemma values_in_order_NoDup {V} (f : V → Z) (m : gmap Z V) :
  (∀ id v, m !! id = Some v → f v = id) → NoDup (f <$> values_in_order m).
Proof.
  intros Hf. unfold values_in_order.
  assert (∀ l, NoDup l → NoDup (f <$> omap (λ k, m !! k) l)) as H'.
  { induction 1 as [|k l Hk _ IH]; cbn; [constructor|]. destruct (m !! k) as [v|] eqn:E; cbn; [|done].
    constructor; [|done]. rewrite (Hf _ _ E). intros (w & Ew & (j & Hj & Hw)%list_elem_of_omap)%list_elem_of_fmap.
    rewrite (Hf _ _ Hw) in Ew. by subst j. }
  apply H'. rewrite merge_sort_Permutation. apply NoDup_elements.
Qed.

(** Whatever the file system and the files hold, discovery ends with a report of at most 64 bounded
    warnings whose games are sorted by folded name and id, have distinct ids that are not zero and a name, and
    are shortcuts or are installed in a directory that resolves strictly inside the common directory of an
    accepted library, with an icon, if any, that resolves strictly inside the Steam root's games directory. *)
Theorem discover_from_roots_ok roots : report_ok roots (discover_from_roots case_fold roots).
Proof.
  unfold discover_from_roots.
  assert (discovery_wf (foldl discover_root (mkDiscovery [] [] 0 []) roots) (length roots)) as [Hl Hc Hs Hw].
  { rewrite <- (Nat.add_0_r (length roots)). apply discover_roots_wf. split; cbn; try done; try lia. split; cbn; [lia|done]. }
  set (d := foldl discover_root _ roots) in *.
  assert (scan_wf (ds_libraries d) (scan_libraries (mkScanState ∅ (ds_warnings d) 0 false) (ds_libraries d))) as [Hg Hsw _].
  { apply scan_libraries_wf; [done|]. split; cbn; [by intros id g|done|lia]. }
  set (s := scan_libraries _ _) in *. unfold merge_binary_metadata.
  set (reports := read_binary_metadata <$> _).
  assert (Forall report_wf reports) as Hr by (apply Forall_fmap, Forall_true; apply binary_report_wf).
  pose proof (merge_reports_warnings_wf reports (sn_games s) (sn_warnings s) Hsw) as Hmw.
  pose proof (merge_reports_entry reports (sn_games s) (sn_warnings s)) as Hme.
  destruct (merge_reports reports (sn_games s) (sn_warnings s)) as [games warnings]. cbn in Hmw, Hme.
  assert (∀ id g, games !! id = Some g → sg_app_id g = id ∧ game_wf (ds_libraries d) g) as Hgames.
  { intros id g E. specialize (Hme id). rewrite E in Hme. by eapply merged_entry_wf. }
  pose proof (sort_by_key_perm (game_key case_fold) (values_in_order games)) as Hp.
  split; cbn [dr_warnings dr_games]; [done| | |apply sort_by_key_sorted].
  - exists (ds_libraries d). split_and!; [done|lia|]. rewrite Hp. apply Forall_forall.
    intros g [id E]%elem_of_values_in_order. by eapply Hgames.
  - rewrite Hp. apply values_in_order_NoDup. intros id g E. by eapply Hgames.
Qed.
End reported.
