(* ===== verification/UpdateRelease.v ===== *)
(** Which release an update check offers
    ([crates/overcrow-control/src/update_release.rs] and the data of
    [updates.rs]).  Version numbers, URLs and the JSON decoder are
    interfaces of the libraries the source uses. *)

From S2P Require Import Prelude Ordered Text Truncate Decimal Bytes.

(** * The libraries *)

(** [semver::Version], with its total order. *)
Class SemVer := {
  version : Type;
  version_bord :: BOrd version;
  version_parse : str → option version;
  version_show : version → str;
  version_major : version → Z;
  version_minor : version → Z;
  version_patch : version → Z;
  version_pre : version → str
}.

(** [url::Url]. *)
Class UrlParser := {
  url : Type;
  url_parse : str → option url;
  url_scheme : url → str;
  url_host_str : url → option str;
  url_username : url → str;
  url_password : url → option str;
  url_query : url → option str;
  url_fragment : url → option str;
  url_path : url → str
}.

(** * Data *)

Definition MAX_RELEASE_INDEX_BYTES : Z := 256 * 1024.
Definition MAX_RELEASES : nat := 20.
Definition MAX_RELEASE_ASSETS : nat := 20.
Definition MAX_PACKAGE_BYTES : Z := 128 * 1024 * 1024.
Definition MAX_TAG_BYTES : Z := 128.
Definition MAX_RELEASE_URL_BYTES : Z := 512.
Definition MAX_ASSET_NAME_BYTES : Z := 256.
Definition MAX_ASSET_URL_BYTES : Z := 512.
Definition SHA256_PREFIX : str := lit "sha256:".
Definition RELEASE_PAGE_PREFIX : str := lit "https://github.com/Valhallab/PlayerVox-OverCrow/releases/tag/".
Definition ASSET_API_PREFIX : str := lit "/repos/Valhallab/PlayerVox-OverCrow/releases/assets/".

Record GithubAsset := mkGithubAsset {
  ga_name : str;
  ga_url : str;
  ga_size : Z;
  ga_digest : option str
}.

Record GithubRelease := mkGithubRelease {
  gr_tag_name : str;
  gr_html_url : str;
  gr_draft : bool;
  gr_prerelease : bool;
  gr_assets : list GithubAsset
}.

Inductive ReleaseChannel := ChannelStable | ChannelPreRelease.

Inductive PackageTarget :=
| TargetArch
| TargetRpm (fedora_major : Z)
| TargetDeb
| TargetRpmOstree (fedora_major : Z)
| TargetManual.

Inductive UpdateError :=
| InvalidResponse | OperationBusy | Unavailable | Network | Timeout | UntrustedRedirect
| DownloadTooLarge | DigestMismatch | UnsafeCache | DownloadFailed | RuntimeStop
| AuthorizationCancelled | Installation | OpenPage.

Record UpdateAsset := mkUpdateAsset {
  ua_name : str;
  ua_api_url : str;
  ua_size : Z;
  ua_sha256 : list Z
}.

(** * Checksums *)

Definition hex_digit (byte : Z) : option Z :=
  if (48 <=? byte) && (byte <=? 57) then Some (byte - 48)
  else if (97 <=? byte) && (byte <=? 102) then Some (byte - 97 + 10)
  else None.

(** The loop over the pairs of hexadecimal digits. *)
Fixpoint hex_pairs (bytes : list Z) : option (list Z) :=
  match bytes with
  | a :: b :: rest =>
      high ← hex_digit a;
      low ← hex_digit b;
      cons (Z.lor (Z.shiftl high 4) low) <$> hex_pairs rest
  | _ => Some []
  end.

Definition parse_sha256 (value : str) : result UpdateError (list Z) :=
  hex ← ok_or InvalidResponse (opt_filter (λ hex, str_len hex =? 64) (strip_prefix SHA256_PREFIX value));
  ok_or InvalidResponse (hex_pairs (utf8 hex)).

(** * Assets *)

(** [str::replace] of a character. *)
Definition replace_char (a : char) (by_ : str) (s : str) : str := s ≫= λ c, if c =? a then by_ else [c].

Section release.
Context `{SemVer} `{UrlParser}.

Record UpdateCandidate := mkUpdateCandidate {
  uc_version : version;
  uc_release_page : str;
  uc_asset : option UpdateAsset
}.

Definition from_current (v : version) : ReleaseChannel :=
  if bool_decide (version_pre v = []) then ChannelStable else ChannelPreRelease.

Definition base_version (v : version) : str :=
  show_Z (version_major v) ++ lit "." ++ show_Z (version_minor v) ++ lit "." ++ show_Z (version_patch v).

Definition arch_asset_name (v : version) : str :=
  lit "overcrow-bin-" ++ base_version v ++ List.filter is_ascii_alphanumeric (version_pre v)
  ++ lit "-1-x86_64.pkg.tar.zst".

Definition rpm_asset_name (v : version) (fedora_major : Z) : str :=
  lit "overcrow-" ++ base_version v
  ++ (if bool_decide (version_pre v = []) then [] else lit "." ++ replace_char 45 (lit "_") (version_pre v))
  ++ lit "-1.fc" ++ show_Z fedora_major ++ lit ".x86_64.rpm".

Definition deb_asset_name (v : version) : str :=
  lit "overcrow_" ++ base_version v
  ++ (if bool_decide (version_pre v = []) then [] else lit "~" ++ replace_char 45 (lit ".") (version_pre v))
  ++ lit "-1_amd64.deb".

Definition expected_asset_name (v : version) (target : PackageTarget) : option str :=
  match target with
  | TargetArch => Some (arch_asset_name v)
  | TargetRpm fedora_major | TargetRpmOstree fedora_major => Some (rpm_asset_name v fedora_major)
  | TargetDeb => Some (deb_asset_name v)
  | TargetManual => None
  end.

(** What the two URL checks have in common. *)
Definition plain_url (parsed : url) (host : str) : bool :=
  str_eqb (url_scheme parsed) (lit "https") && bool_decide (url_host_str parsed = Some host)
  && str_eqb (url_username parsed) [] && isNone (url_password parsed)
  && isNone (url_query parsed) && isNone (url_fragment parsed).

Definition asset_path (path : str) : bool :=
  match strip_prefix ASSET_API_PREFIX path with
  | None => false
  | Some id => negb (bool_decide (id = [])) && forallb is_ascii_digit (utf8 id)
  end.

Definition validate_asset (asset : GithubAsset) : result UpdateError UpdateAsset :=
  if bool_decide (ga_name asset = []) || (MAX_ASSET_NAME_BYTES <? str_len (ga_name asset))
     || existsb is_control (ga_name asset) || (MAX_ASSET_URL_BYTES <? str_len (ga_url asset))
     || existsb is_control (ga_url asset) || (ga_size asset =? 0) || (MAX_PACKAGE_BYTES <? ga_size asset)
  then Err InvalidResponse
  else
    parsed ← ok_or InvalidResponse (url_parse (ga_url asset));
    if negb (plain_url parsed (lit "api.github.com") && asset_path (url_path parsed)) then Err InvalidResponse
    else
      digest ← ok_or InvalidResponse (ga_digest asset);
      sha256 ← parse_sha256 digest;
      Ok (mkUpdateAsset (ga_name asset) (ga_url asset) (ga_size asset) sha256).

Definition select_asset (assets : list GithubAsset) (v : version) (target : PackageTarget) :
    result UpdateError (option UpdateAsset) :=
  match expected_asset_name v target with
  | None => Ok None
  | Some expected_name =>
      match List.filter (λ asset, str_eqb (ga_name asset) expected_name) assets with
      | [] => Ok None
      | [asset] => Ok (ok_opt (validate_asset asset))
      | _ :: _ :: _ => Err InvalidResponse
      end
  end.

(** * Releases *)

Definition validated_release_version (release : GithubRelease) : option version :=
  if bool_decide (gr_tag_name release = []) || (MAX_TAG_BYTES <? str_len (gr_tag_name release))
     || existsb is_control (gr_tag_name release)
  then None
  else strip_prefix (lit "v") (gr_tag_name release) ≫= version_parse.

Definition validated_release_page (page tag : str) : result UpdateError str :=
  if (MAX_RELEASE_URL_BYTES <? str_len page) || existsb is_control page
     || negb (str_eqb page (RELEASE_PAGE_PREFIX ++ tag))
  then Err InvalidResponse
  else
    parsed ← ok_or InvalidResponse (url_parse page);
    if negb (plain_url parsed (lit "github.com")) then Err InvalidResponse else Ok page.

Definition is_stable (c : ReleaseChannel) : bool := match c with ChannelStable => true | ChannelPreRelease => false end.

(** The guard of the loop: what is passed over. *)
Definition skipped (current : version) (channel : ReleaseChannel) (release : GithubRelease) (v : version) : bool :=
  gr_draft release || negb (blt current v) || (is_stable channel && gr_prerelease release)
  || negb (Bool.eqb (gr_prerelease release) (negb (bool_decide (version_pre v = [])))).

Definition newer (candidate : UpdateCandidate) (selected : option UpdateCandidate) : bool :=
  is_none_or (λ current, blt (uc_version current) (uc_version candidate)) selected.

(** One release, and the candidate selected so far. *)
Definition select_step (current : version) (channel : ReleaseChannel) (target : PackageTarget)
    (selected : option UpdateCandidate) (release : GithubRelease) : result UpdateError (option UpdateCandidate) :=
  if (MAX_RELEASE_ASSETS <? length (gr_assets release))%nat then Err InvalidResponse
  else match validated_release_version release with
       | None => Ok selected
       | Some v =>
           if skipped current channel release v then Ok selected
           else
             release_page ← validated_release_page (gr_html_url release) (gr_tag_name release);
             asset ← select_asset (gr_assets release) v target;
             let candidate := mkUpdateCandidate v release_page asset in
             Ok (if newer candidate selected then Some candidate else selected)
       end.

Fixpoint select_loop (current : version) (channel : ReleaseChannel) (target : PackageTarget)
    (selected : option UpdateCandidate) (releases : list GithubRelease) : result UpdateError (option UpdateCandidate) :=
  match releases with
  | [] => Ok selected
  | release :: releases =>
      selected ← select_step current channel target selected release;
      select_loop current channel target selected releases
  end.

(** [parse]: [serde_json::from_slice]. *)
Definition select_release (parse : list Z → option (list GithubRelease)) (body : list Z) (current : version)
    (channel : ReleaseChannel) (target : PackageTarget) : result UpdateError (option UpdateCandidate) :=
  if MAX_RELEASE_INDEX_BYTES <? Z.of_nat (length body) then Err InvalidResponse
  else
    releases ← ok_or InvalidResponse (parse body);
    if (MAX_RELEASES <? length releases)%nat then Err InvalidResponse
    else select_loop current channel target None releases.

(** * What is offered *)

(** A release that may be offered, with its version. *)
Definition eligible (current : version) (channel : ReleaseChannel) (release : GithubRelease) (v : version) : Prop :=
  validated_release_version release = Some v ∧ gr_draft release = false ∧ blt current v = true ∧
  (channel = ChannelStable → gr_prerelease release = false) ∧ (gr_prerelease release = true ↔ version_pre v ≠ []).

(** A release the index may hold: eligible ones have their own page and no
    two assets for the target. *)
Definition release_ok (current : version) (channel : ReleaseChannel) (target : PackageTarget)
    (release : GithubRelease) : Prop :=
  (length (gr_assets release) ≤ MAX_RELEASE_ASSETS)%nat ∧
  ∀ v, eligible current channel release v →
    validated_release_page (gr_html_url release) (gr_tag_name release) = Ok (gr_html_url release) ∧
    is_ok (select_asset (gr_assets release) v target) = true.

(** The candidate of an eligible release. *)
Definition candidate_of (target : PackageTarget) (release : GithubRelease) (v : version) (c : UpdateCandidate) : Prop :=
  uc_version c = v ∧ uc_release_page c = RELEASE_PAGE_PREFIX ++ gr_tag_name release ∧
  select_asset (gr_assets release) v target = Ok (uc_asset c).

Inductive selection (releases : list GithubRelease) (current : version) (channel : ReleaseChannel)
    (target : PackageTarget) : result UpdateError (option UpdateCandidate) → Prop :=
| SelectionRefused release :
    release ∈ releases → ¬ release_ok current channel target release →
    selection releases current channel target (Err InvalidResponse)
| SelectionNone :
    Forall (release_ok current channel target) releases →
    (∀ release v, release ∈ releases → ¬ eligible current channel release v) →
    selection releases current channel target (Ok None)
| SelectionBest release v c :
    Forall (release_ok current channel target) releases →
    release ∈ releases → eligible current channel release v → candidate_of target release v c →
    (∀ release' v', release' ∈ releases → eligible current channel release' v' → blt v v' = false) →
    selection releases current channel target (Ok (Some c)).

Lemma skipped_eligible current channel release v :
  validated_release_version release = Some v →
  skipped current channel release v = false ↔ eligible current channel release v.
Proof.
  intros Hv. unfold skipped, eligible. rewrite !orb_false_iff, !negb_false_iff, andb_false_iff, Bool.eqb_true_iff.
  assert ((is_stable channel = false ∨ gr_prerelease release = false) ↔
    (channel = ChannelStable → gr_prerelease release = false)) as -> by (destruct channel, (gr_prerelease release); cbn; intuition congruence).
  assert ((gr_prerelease release = negb (bool_decide (version_pre v = []))) ↔
    (gr_prerelease release = true ↔ version_pre v ≠ [])) as ->.
  { destruct (gr_prerelease release); case_bool_decide; cbn; intuition congruence. }
  tauto.
Qed.

Lemma eligible_version current channel release v v' :
  validated_release_version release = Some v → eligible current channel release v' → v' = v.
Proof. intros Hv [Hv' _]. congruence. Qed.

Lemma validated_release_page_Ok page tag p :
  validated_release_page page tag = Ok p → p = page ∧ page = RELEASE_PAGE_PREFIX ++ tag.
Proof.
  unfold validated_release_page. destruct (_ || _ || negb _) eqn:E; [done|].
  apply orb_false_iff in E as [_ E%negb_false_iff%str_eqb_eq].
  intros (u & _ & Hp)%result_bind_Ok. destruct (plain_url u _); [|done]. by injection Hp as <-.
Qed.

Lemma validated_release_page_Err page tag e : validated_release_page page tag = Err e → e = InvalidResponse.
Proof.
  unfold validated_release_page. destruct (_ || _ || negb _); [by intros [= <-]|].
  destruct (url_parse page) as [u|]; cbn; [|by intros [= <-]]. destruct (plain_url u _); [done|by intros [= <-]].
Qed.

Lemma select_asset_Err assets v target e : select_asset assets v target = Err e → e = InvalidResponse.
Proof.
  unfold select_asset. destruct (expected_asset_name v target); [|done].
  destruct (List.filter _ assets) as [|? [|??]]; try done. by intros [= <-].
Qed.

(** The candidate kept is of an eligible release of [seen] and no other is newer. *)
Definition best (seen : list GithubRelease) (current : version) (channel : ReleaseChannel) (target : PackageTarget)
    (selected : option UpdateCandidate) : Prop :=
  match selected with
  | None => ∀ release v, release ∈ seen → ¬ eligible current channel release v
  | Some c => ∃ release v, release ∈ seen ∧ eligible current channel release v ∧ candidate_of target release v c ∧
      ∀ release' v', release' ∈ seen → eligible current channel release' v' → blt v v' = false
  end.

Lemma best_skip seen current channel target selected release :
  best seen current channel target selected → (∀ v, ¬ eligible current channel release v) →
  best (seen ++ [release]) current channel target selected.
Proof.
  intros Hb Hn. destruct selected as [c|]; cbn in *.
  - destruct Hb as (r & v & Hr & He & Hc & Hm). exists r, v. split_and!; [set_solver|done..|].
    intros r' v' [Hr'| ->%list_elem_of_singleton]%elem_of_app He'; [by eapply Hm|by apply Hn in He'].
  - intros r v [Hr| ->%list_elem_of_singleton]%elem_of_app; [by apply Hb|done].
Qed.

Lemma best_offer seen current channel target selected release v c :
  best seen current channel target selected → eligible current channel release v → candidate_of target release v c →
  best (seen ++ [release]) current channel target (if newer c selected then Some c else selected).
Proof.
  intros Hb He Hc. pose proof (proj1 Hc) as Hv.
  assert (∀ v', eligible current channel release v' → v' = v) as Hu.
  { intros v' He'. destruct He as [Hval _]. by eapply eligible_version. }
  destruct selected as [d|]; cbn in Hb |- *.
  - destruct Hb as (r & w & Hr & Hw & Hd & Hm). pose proof (proj1 Hd) as Hdw. rewrite Hdw, Hv.
    destruct (blt w v) eqn:E.
    + exists release, v. split_and!; [set_solver|done..|].
      intros r' v' [Hr'| ->%list_elem_of_singleton]%elem_of_app He'.
      * specialize (Hm r' v' Hr' He'). destruct (blt v v') eqn:E'; [|done].
        pose proof (blt_trans _ _ _ E E'). congruence.
      * rewrite (Hu v' He'). apply blt_irrefl.
    + exists r, w. split_and!; [set_solver|done..|].
      intros r' v' [Hr'| ->%list_elem_of_singleton]%elem_of_app He'; [by eapply Hm|]. by rewrite (Hu v' He').
  - exists release, v. split_and!; [set_solver|done..|].
    intros r' v' [Hr'| ->%list_elem_of_singleton]%elem_of_app He'; [by apply Hb in He'|].
    rewrite (Hu v' He'). apply blt_irrefl.
Qed.

(** One step keeps the best candidate, or finds the release at fault. *)
Lemma select_step_best seen current channel target selected release :
  best seen current channel target selected →
  match select_step current channel target selected release with
  | Ok selected' => release_ok current channel target release ∧ best (seen ++ [release]) current channel target selected'
  | Err e => e = InvalidResponse ∧ ¬ release_ok current channel target release
  end.
Proof.
  intros Hb. unfold select_step.
  destruct (Nat.ltb_spec MAX_RELEASE_ASSETS (length (gr_assets release))) as [Hl|Hl].
  { split; [done|]. intros [Hl' _]. lia. }
  destruct (validated_release_version release) as [v|] eqn:Hv.
  2:{ assert (∀ v, ¬ eligible current channel release v) as Hn by (intros v [E _]; congruence).
      split; [split; [done|]; intros v He; by apply Hn in He|by apply best_skip]. }
  destruct (skipped current channel release v) eqn:Hs.
  { assert (∀ v', ¬ eligible current channel release v') as Hn.
    { intros v' He. pose proof (eligible_version _ _ _ _ _ Hv He) as ->. apply (skipped_eligible current channel release v Hv) in He. congruence. }
    split; [split; [done|]; intros v' He; by apply Hn in He|by apply best_skip]. }
  apply (skipped_eligible _ _ _ _ Hv) in Hs.
  assert (∀ v', eligible current channel release v' → v' = v) as Hu by eauto using eligible_version.
  destruct (validated_release_page (gr_html_url release) (gr_tag_name release)) as [page|e] eqn:Hp; cbn.
  2:{ apply validated_release_page_Err in Hp as He. split; [done|]. intros [_ H']. destruct (H' v Hs) as [Hp' _]. congruence. }
  destruct (select_asset (gr_assets release) v target) as [asset|e] eqn:Ha; cbn.
  2:{ apply select_asset_Err in Ha as He. split; [done|]. intros [_ H']. destruct (H' v Hs) as [_ Ho]. by rewrite Ha in Ho. }
  destruct (validated_release_page_Ok _ _ _ Hp) as [-> Hpage]. split.
  - split; [done|]. intros v' He. rewrite (Hu v' He), Ha. done.
  - eapply best_offer; [done|exact Hs|]. by split_and!.
Qed.

Lemma select_loop_best seen current channel target selected releases :
  best seen current channel target selected → Forall (release_ok current channel target) seen →
  selection (seen ++ releases) current channel target (select_loop current channel target selected releases).
Proof.
  revert seen selected. induction releases as [|release releases IH]; intros seen selected Hb Hok; cbn [select_loop].
  - rewrite app_nil_r. destruct selected as [c|]; cbn in Hb; [|by constructor].
    destruct Hb as (r & v & Hr & He & Hc & Hm). by eapply SelectionBest.
  - pose proof (select_step_best seen current channel target selected release Hb) as Hs.
    destruct (select_step _ _ _ _ _) as [selected'|e]; cbn.
    + destruct Hs as [Hr Hb']. replace (seen ++ release :: releases) with ((seen ++ [release]) ++ releases)
        by (by rewrite <- app_assoc). apply IH; [done|]. apply Forall_app. by rewrite Forall_singleton.
    + destruct Hs as [-> Hr]. eapply SelectionRefused; [|exact Hr]. set_solver.
Qed.

(** A check of a readable release index of at most 20 releases offers the newest eligible release - newer
    than the running version, no draft, no pre-release on the stable channel, and marked as its version says - with
    its own page and the one package for the target; it offers nothing exactly when no release is eligible, and refuses
    the index exactly when some eligible release is malformed. *)
Theorem select_release_newest parse body current channel target releases
    (Hlen : Z.of_nat (length body) ≤ MAX_RELEASE_INDEX_BYTES) (Hparse : parse body = Some releases)
    (Hcount : (length releases ≤ MAX_RELEASES)%nat) :
  selection releases current channel target (select_release parse body current channel target).
Proof.
  unfold select_release. destruct (Z.ltb_spec MAX_RELEASE_INDEX_BYTES (Z.of_nat (length body))); [lia|].
  rewrite Hparse. cbn. destruct (Nat.ltb_spec MAX_RELEASES (length releases)); [lia|].
  apply (select_loop_best [] current channel target None releases); [|constructor].
  by intros release v ?%elem_of_nil.
Qed.
End release.

(** * Checksums are read back *)

Definition hex_char (d : Z) : char := if d <? 10 then 48 + d else 87 + d.
Definition hex_byte (b : Z) : str := [hex_char (b / 16); hex_char (b mod 16)].

Lemma hex_digit_char d : 0 ≤ d < 16 → hex_digit (hex_char d) = Some d.
Proof. intros Hd. unfold hex_digit, hex_char. destruct (Z.ltb_spec d 10); tests; f_equal; lia. Qed.

Lemma hex_digit_Some c d : hex_digit c = Some d → 0 ≤ d < 16 ∧ c = hex_char d.
Proof.
  unfold hex_digit, hex_char. destruct ((48 <=? c) && (c <=? 57)) eqn:E1; [|destruct ((97 <=? c) && (c <=? 102)) eqn:E2; [|done]];
    intros [= <-]; bools; (split; [lia|]); tests; lia.
Qed.

Lemma hex_join high low : 0 ≤ high < 16 → 0 ≤ low < 16 →
  Z.lor (Z.shiftl high 4) low = high * 16 + low.
Proof.
  intros Hh Hl. rewrite Z.shiftl_mul_pow2 by lia. change (2 ^ 4) with 16.
  rewrite <- Z.add_lor_land. assert (Z.land (high * 16) low = 0) as ->; [|lia].
  apply Z.bits_inj'. intros n Hn. rewrite Z.land_spec, Z.bits_0.
  change 16 with (2 ^ 4). rewrite <- Z.shiftl_mul_pow2 by lia.
  destruct (Z.ltb_spec n 4); [by rewrite Z.shiftl_spec_low|].
  replace (Z.testbit low n) with false; [apply andb_false_r|]. symmetry.
  rewrite Z.testbit_false by lia. rewrite Z.div_small; [done|].
  split; [lia|]. apply Z.lt_le_trans with (2 ^ 4); [lia|]. apply Z.pow_le_mono_r; lia.
Qed.

Lemma hex_pairs_bytes l : bytes_Forall l → hex_pairs (l ≫= hex_byte) = Some l.
Proof.
  unfold bytes_Forall. induction 1 as [|b l Hb _ IH]; [done|]. cbn in *.
  rewrite !hex_digit_char by (split; [apply Z.div_pos || apply Z.mod_pos_bound; lia|
    apply Z.div_lt_upper_bound || apply Z.mod_pos_bound; lia]). cbn. rewrite IH. cbn. do 2 f_equal.
  rewrite hex_join by (split; [apply Z.div_pos || apply Z.mod_pos_bound; lia|
    apply Z.div_lt_upper_bound || apply Z.mod_pos_bound; lia]). pose proof (Z.div_mod b 16). lia.
Qed.

Lemma hex_pairs_Some n bytes l :
  length bytes = (2 * n)%nat → hex_pairs bytes = Some l → bytes = l ≫= hex_byte ∧ length l = n ∧ bytes_Forall l.
Proof.
  revert bytes l. induction n as [|n IH]; intros bytes l Hn E.
  { destruct bytes; [|done]. injection E as <-. split_and!; [done..|constructor]. }
  destruct bytes as [|a [|b bytes]]; cbn in Hn; [lia..|]. cbn in E.
  destruct (hex_digit a) as [high|] eqn:Ha; [|done]. destruct (hex_digit b) as [low|] eqn:Hb; [|done].
  cbn in E. destruct (hex_pairs bytes) as [k|] eqn:Ek; [|done]. injection E as <-.
  destruct (IH bytes k) as (-> & <- & Hk); [lia|done|].
  apply hex_digit_Some in Ha as [Hh ->]. apply hex_digit_Some in Hb as [Hl ->].
  rewrite hex_join by done. cbn. split_and!; [|done|constructor; [lia|done]].
  unfold hex_byte. replace ((high * 16 + low) / 16) with high by (rewrite Z.div_add_l by lia; rewrite Z.div_small by lia; lia).
  replace ((high * 16 + low) mod 16) with low by (rewrite Z.add_comm, Z_mod_plus_full, Z.mod_small by lia; lia). done.
Qed.

Lemma hex_char_ascii d : 0 ≤ d < 16 → 48 ≤ hex_char d < 128.
Proof. intros Hd. unfold hex_char. destruct (Z.ltb_spec d 10); lia. Qed.

Lemma hex_bytes_length l : length (l ≫= hex_byte) = (2 * length l)%nat.
Proof. induction l as [|b l IH]; [done|]. cbn in *. lia. Qed.

Lemma hex_bytes_ascii l : bytes_Forall l → Forall (λ c, 48 ≤ c < 128) (l ≫= hex_byte).
Proof.
  unfold bytes_Forall. induction 1 as [|b l Hb _ IH]; cbn; [constructor|].
  repeat constructor; [..|done]; apply hex_char_ascii; (split; [apply Z.div_pos || apply Z.mod_pos_bound; lia|
    apply Z.div_lt_upper_bound || apply Z.mod_pos_bound; lia]).
Qed.

Lemma utf8_ascii s : Forall (λ c, 0 ≤ c < 128) s → utf8 s = s ∧ str_len s = Z.of_nat (length s).
Proof.
  induction 1 as [|c s Hc _ [IH1 IH2]]; [done|]. rewrite str_len_cons, IH2. cbn. unfold utf8 in IH1. rewrite IH1.
  unfold utf8_char, len_utf8. tests. split; [done|lia].
Qed.

Lemma ascii_utf8 s : Forall (λ c, is_scalar c = true) s → Forall (λ b, b < 128) (utf8 s) → Forall (λ c, 0 ≤ c < 128) s.
Proof.
  induction 1 as [|c s Hc _ IH]; [constructor|]. cbn. rewrite Forall_app. intros [Hb Hs].
  constructor; [|by apply IH]. unfold is_scalar in Hc. bools. split; [done|].
  unfold utf8_char in Hb. destruct (Z.ltb_spec c 128); [done|exfalso].
  pose proof (Z.div_pos c 64). pose proof (Z.div_pos c 4096). pose proof (Z.div_pos c 262144).
  destruct (c <? 2048), (c <? 65536); inversion Hb; lia.
Qed.

(** The digest of a package is accepted exactly when it is written as GitHub writes it, the prefix and the 64
    lowercase hexadecimal digits of its 32 bytes, and is then those bytes. *)
Theorem parse_sha256_iff value digest (Hs : Forall (λ c, is_scalar c = true) value) :
  parse_sha256 value = Ok digest ↔
    length digest = 32%nat ∧ bytes_Forall digest ∧ value = SHA256_PREFIX ++ (digest ≫= hex_byte).
Proof.
  unfold parse_sha256. rewrite result_bind_Ok. setoid_rewrite ok_or_Ok. setoid_rewrite opt_filter_Some.
  setoid_rewrite strip_prefix_Some. setoid_rewrite Z.eqb_eq. split.
  - intros (hex & [-> Hlen] & Hd). apply Forall_app in Hs as [_ Hs].
    pose proof (utf8_length hex Hs) as Hl. rewrite Hlen in Hl.
    destruct (hex_pairs_Some 32 (utf8 hex) digest) as (E & Hn & Hb); [lia|done|].
    split_and!; [done..|]. f_equal. rewrite <- E. symmetry. apply utf8_ascii, ascii_utf8; [done|].
    rewrite E. eapply Forall_impl; [by apply hex_bytes_ascii|]. cbn. lia.
  - intros (Hn & Hb & ->). exists (digest ≫= hex_byte). split; [split; [done|]|].
    + destruct (utf8_ascii (digest ≫= hex_byte)) as [_ ->].
      { eapply Forall_impl; [by apply hex_bytes_ascii|]. cbn. lia. }
      rewrite hex_bytes_length. lia.
    + rewrite (proj1 (utf8_ascii (digest ≫= hex_byte) ltac:(eapply Forall_impl; [by apply hex_bytes_ascii|]; cbn; lia))).
      by apply hex_pairs_bytes.
Qed.

(** * Examples *)

Definition demo_semver : SemVer := {|
  version := Z; version_bord := Z_bord; version_parse := parse_unsigned u64_max; version_show := show_Z;
  version_major v := v; version_minor _ := 0; version_patch _ := 0; version_pre _ := []
|}.

Definition demo_urls : UrlParser := {|
  url := str; url_parse := Some; url_scheme _ := lit "https";
  url_host_str u := Some (if starts_with (lit "https://github.com/") u then lit "github.com" else lit "api.github.com");
  url_username _ := []; url_password _ := None; url_query _ := None; url_fragment _ := None;
  url_path u := drop (length (lit "https://api.github.com")) u
|}.

Definition demo_release (tag : str) (draft : bool) (assets : list GithubAsset) : GithubRelease :=
  mkGithubRelease tag (RELEASE_PAGE_PREFIX ++ tag) draft false assets.

Definition demo_sha256 : list Z := seqZ 200 32.
Definition demo_digest : str := SHA256_PREFIX ++ (demo_sha256 ≫= hex_byte).
Definition demo_api_url : str := lit "https://api.github.com" ++ ASSET_API_PREFIX ++ lit "7".

Definition demo_releases : list GithubRelease :=
  [demo_release (lit "v2") false []; demo_release (lit "v4") true [];
   demo_release (lit "v3") false [mkGithubAsset (lit "overcrow_3.0.0-1_amd64.deb") demo_api_url 5 (Some demo_digest)]].

Lemma select_release_newest_witness :
  let S := demo_semver in let U := demo_urls in
  select_release (λ _, Some demo_releases) [] 1 ChannelStable TargetDeb =
    Ok (Some (mkUpdateCandidate (3 : version) (RELEASE_PAGE_PREFIX ++ lit "v3")
      (Some (mkUpdateAsset (lit "overcrow_3.0.0-1_amd64.deb") demo_api_url 5 demo_sha256)))) ∧
  selection demo_releases (1 : version) ChannelStable TargetDeb
    (select_release (λ _, Some demo_releases) [] 1 ChannelStable TargetDeb).
Proof.
  cbv zeta. split; [vm_compute; reflexivity|].
  apply (@select_release_newest demo_semver demo_urls); [vm_compute; discriminate|reflexivity|].
  apply Nat.leb_le. vm_compute. reflexivity.
Defined.

Lemma parse_sha256_iff_witness :
  Forall (λ c, is_scalar c = true) demo_digest ∧ parse_sha256 demo_digest = Ok demo_sha256.
Proof.
  assert (Forall (λ c, is_scalar c = true) demo_digest) as Hs.
  { apply Forall_forall. intros c Hc. apply list_elem_of_In in Hc. revert c Hc. apply forallb_forall. vm_compute. reflexivity. }
  split; [exact Hs|]. apply (parse_sha256_iff demo_digest demo_sha256 Hs).
  split; [reflexivity|]. split; [|reflexivity].
  unfold bytes_Forall, demo_sha256. apply Forall_forall. intros b Hb%elem_of_seqZ. lia.
Defined.
