(* ===== verification/Updates.v ===== *)
(** The update controller ([crates/overcrow-control/src/updates.rs]): checks
    and installations of a shared controller, one at a time, with what they
    publish and log.  The release source, the downloader, the step before the
    installation and the installer answer from outside. *)

From S2P Require Import Prelude Ordered Text UpdateRelease.

Definition SECOND : Z := 1000000000.
Definition AUTOMATIC_CHECK_INTERVAL : Z := 6 * 60 * 60 * SECOND.
Definition MANUAL_CHECK_INTERVAL : Z := 60 * SECOND.
Definition CONTROL_UPDATE_SCHEMA_VERSION : Z := 1.
Definition RELEASES_PAGE : str := lit "https://github.com/Valhallab/PlayerVox-OverCrow/releases".

Inductive UpdatePhase :=
| PhIdle | PhChecking | PhUpToDate | PhAvailable | PhDownloading | PhInstalling | PhInstalled
| PhRestartRequired | PhManual | PhFailed.

Inductive UpdateInstallKind := KindArch | KindRpm | KindDeb | KindRpmOstree | KindManual.

Inductive UpdateErrorCode :=
| CodeBusy | CodeUnavailable | CodeNetwork | CodeInvalidResponse | CodeDownload | CodeVerification
| CodeRuntimeStop | CodeAuthorizationCancelled | CodeInstallation | CodeTimeout | CodeOpenPage.

Definition install_kind (t : PackageTarget) : UpdateInstallKind :=
  match t with
  | TargetArch => KindArch
  | TargetRpm _ => KindRpm
  | TargetDeb => KindDeb
  | TargetRpmOstree _ => KindRpmOstree
  | TargetManual => KindManual
  end.

Definition error_code (e : UpdateError) : UpdateErrorCode :=
  match e with
  | OperationBusy => CodeBusy
  | Unavailable => CodeUnavailable
  | Network | UntrustedRedirect => CodeNetwork
  | InvalidResponse => CodeInvalidResponse
  | DownloadTooLarge | DownloadFailed => CodeDownload
  | DigestMismatch | UnsafeCache => CodeVerification
  | RuntimeStop => CodeRuntimeStop
  | AuthorizationCancelled => CodeAuthorizationCancelled
  | Installation => CodeInstallation
  | Timeout => CodeTimeout
  | OpenPage => CodeOpenPage
  end.

Definition error_category (e : UpdateError) : str :=
  lit match e with
  | InvalidResponse => "invalid_response"
  | OperationBusy => "busy"
  | Unavailable => "unavailable"
  | Network => "network"
  | Timeout => "timeout"
  | UntrustedRedirect => "untrusted_redirect"
  | DownloadTooLarge => "download_too_large"
  | DigestMismatch => "digest_mismatch"
  | UnsafeCache => "unsafe_cache"
  | DownloadFailed => "download"
  | RuntimeStop => "runtime_stop"
  | AuthorizationCancelled => "authorization_cancelled"
  | Installation => "installation"
  | OpenPage => "open_page"
  end.

Inductive InstallOutcome := OutcomeInstalled | OutcomeRestartRequired.

Inductive FailureStage := StageCheck | StageInstall.

#[export] Instance PackageTarget_eq_dec : EqDecision PackageTarget.
Proof. solve_decision. Defined.
#[export] Instance FailureStage_eq_dec : EqDecision FailureStage.
Proof. solve_decision. Defined.

Record ControlUpdateState := mkControlUpdateState {
  cu_schema_version : Z;
  cu_phase : UpdatePhase;
  cu_current_version : str;
  cu_latest_version : option str;
  cu_install_kind : UpdateInstallKind;
  cu_last_checked_at : option str;
  cu_error : option UpdateErrorCode
}.
#[export] Instance ControlUpdateState_eta : Eta ControlUpdateState :=
  λ s, mkControlUpdateState (cu_schema_version s) (cu_phase s) (cu_current_version s) (cu_latest_version s)
         (cu_install_kind s) (cu_last_checked_at s) (cu_error s).

(** What the logger is told: a stage fails, or has recovered. *)
Inductive LogEvent := LogFailed (stage : FailureStage) (error : UpdateError) | LogRecovered (stage : FailureStage).

Section controller.
Context `{SemVer} (Package : Type) (timestamp : Z → str).

Record UpdateInner := mkUpdateInner {
  ui_state : ControlUpdateState;
  ui_candidate : option UpdateCandidate;
  ui_last_attempt : option Z;
  ui_check_failure_active : bool;
  ui_install_failure_active : bool
}.
#[local] Instance UpdateInner_eta : Eta UpdateInner :=
  λ i, mkUpdateInner (ui_state i) (ui_candidate i) (ui_last_attempt i) (ui_check_failure_active i)
         (ui_install_failure_active i).

(** Where an operation waits for an answer from outside. *)
Inductive Waiting :=
| AwaitLatest (now : Z)
| AwaitDownload (asset : UpdateAsset)
| AwaitBefore (package : Package)
| AwaitInstall (package : Package).

(** What is asked of the outside. *)
Inductive UpdateRequest :=
| AskLatest (now : Z)
| AskDownload (asset : UpdateAsset)
| AskBefore
| AskInstall (package : Package) (target : PackageTarget).

(** What a call returns: it is refused, ends with a state, or goes on. *)
Inductive Outcome := Refused (error : UpdateError) | Ended (state : ControlUpdateState) | Waits.

(** The controller, with the operation that runs, and the histories of what
    was asked, published to observers and logged. *)
Record UpdateController := mkUpdateController {
  uk_current : version;
  uk_channel : ReleaseChannel;
  uk_target : PackageTarget;
  uk_inner : UpdateInner;
  uk_operation_active : bool;
  uk_waiting : option Waiting;
  uk_asked : list UpdateRequest;
  uk_published : list ControlUpdateState;
  uk_log : list LogEvent
}.
#[local] Instance UpdateController_eta : Eta UpdateController :=
  λ c, mkUpdateController (uk_current c) (uk_channel c) (uk_target c) (uk_inner c) (uk_operation_active c)
         (uk_waiting c) (uk_asked c) (uk_published c) (uk_log c).

Definition controller_new (current : version) (target : PackageTarget) : UpdateController :=
  mkUpdateController current (from_current current) target
    (mkUpdateInner
       (mkControlUpdateState CONTROL_UPDATE_SCHEMA_VERSION PhIdle (version_show current) None (install_kind target)
          None None)
       None None false false)
    false None [] [] [].

Definition publish (update : UpdateInner → UpdateInner) (c : UpdateController) : UpdateController :=
  let c := c <| uk_inner ::= update |> in
  c <| uk_published ::= λ p, p ++ [ui_state (uk_inner c)] |>.

Definition failure_active (stage : FailureStage) (i : UpdateInner) : bool :=
  match stage with StageCheck => ui_check_failure_active i | StageInstall => ui_install_failure_active i end.
Definition set_failure (stage : FailureStage) (b : bool) (i : UpdateInner) : UpdateInner :=
  match stage with
  | StageCheck => i <| ui_check_failure_active := b |>
  | StageInstall => i <| ui_install_failure_active := b |>
  end.

Definition set_phase (phase : UpdatePhase) (error : option UpdateErrorCode) (i : UpdateInner) : UpdateInner :=
  i <| ui_state ::= λ s, s <| cu_phase := phase |> <| cu_error := error |> |>.

Definition publish_failure (error : UpdateError) (stage : FailureStage) (c : UpdateController) : UpdateController :=
  let first := negb (failure_active stage (uk_inner c)) in
  let c := c <| uk_inner ::= set_failure stage true |> in
  let c := if first then c <| uk_log ::= λ l, l ++ [LogFailed stage error] |> else c in
  publish (set_phase PhFailed (Some (error_code error))) c.

(** [clear_failure], and [log_recovered] once the result is published. *)
Definition clear_failure (stage : FailureStage) (c : UpdateController) : UpdateController * bool :=
  (c <| uk_inner ::= set_failure stage false |>, failure_active stage (uk_inner c)).
Definition log_recovered (stage : FailureStage) (recovered : bool) (c : UpdateController) : UpdateController :=
  if recovered then c <| uk_log ::= λ l, l ++ [LogRecovered stage] |> else c.

(** The operation goes on to ask [request]. *)
Definition wait_for (request : UpdateRequest) (waiting : Waiting) (c : UpdateController) : UpdateController * Outcome :=
  (c <| uk_asked ::= λ a, a ++ [request] |> <| uk_waiting := Some waiting |>, Waits).

(** The end of an operation drops its guard. *)
Definition finish (o : Outcome) (c : UpdateController) : UpdateController * Outcome :=
  (c <| uk_operation_active := false |> <| uk_waiting := None |>, o).
Definition finish_state (c : UpdateController) : UpdateController * Outcome :=
  finish (Ended (ui_state (uk_inner c))) c.

(** [now.duration_since(last).ok()] and the interval. *)
Definition too_soon (now minimum_interval : Z) (last : option Z) : bool :=
  is_some_and (λ elapsed, elapsed <? minimum_interval) (last ≫= λ last, checked_sub now last).

Definition begin_check (now : Z) (i : UpdateInner) : UpdateInner :=
  i <| ui_last_attempt := Some now |> <| ui_candidate := None |>
    <| ui_state ::= λ s, s <| cu_phase := PhChecking |> <| cu_latest_version := None |> <| cu_error := None |> |>.

Definition check (force : bool) (now : Z) (c : UpdateController) : UpdateController * Outcome :=
  if uk_operation_active c then (c, Refused OperationBusy)
  else
    let c := c <| uk_operation_active := true |> in
    let minimum_interval := if force then MANUAL_CHECK_INTERVAL else AUTOMATIC_CHECK_INTERVAL in
    if too_soon now minimum_interval (ui_last_attempt (uk_inner c)) then finish_state c
    else wait_for (AskLatest now) (AwaitLatest now) (publish (begin_check now) c).

(** The publication of a successful check. *)
Definition checked (target : PackageTarget) (now : Z) (candidate : option UpdateCandidate) (i : UpdateInner) :
    UpdateInner :=
  let i := i <| ui_state ::= λ s, s <| cu_last_checked_at := Some (timestamp now) |> <| cu_error := None |> |> in
  match candidate with
  | Some candidate =>
      let phase := if bool_decide (target = TargetManual) || isNone (uc_asset candidate) then PhManual else PhAvailable in
      i <| ui_state ::= λ s, s <| cu_latest_version := Some (version_show (uc_version candidate)) |> <| cu_phase := phase |> |>
        <| ui_candidate := Some candidate |>
  | None =>
      i <| ui_state ::= λ s, s <| cu_phase := PhUpToDate |> <| cu_latest_version := None |> |> <| ui_candidate := None |>
  end.

Definition installable (target : PackageTarget) (candidate : option UpdateCandidate) : option UpdateAsset :=
  candidate ← candidate;
  if bool_decide (target = TargetManual) then None else uc_asset candidate.

Definition install_available_update (c : UpdateController) : UpdateController * Outcome :=
  if uk_operation_active c then (c, Refused OperationBusy)
  else
    let c := c <| uk_operation_active := true |> in
    match installable (uk_target c) (ui_candidate (uk_inner c)) with
    | None => finish (Refused Unavailable) c
    | Some asset => wait_for (AskDownload asset) (AwaitDownload asset) (publish (set_phase PhDownloading None) c)
    end.

(** Answers from outside, to the operation that waits for them. *)
Inductive Answer :=
| AnswerLatest (r : result UpdateError (option UpdateCandidate))
| AnswerDownload (r : result UpdateError Package)
| AnswerBefore (r : result UpdateError unit)
| AnswerInstall (r : result UpdateError InstallOutcome).

Definition answer (a : Answer) (c : UpdateController) : UpdateController * Outcome :=
  match uk_waiting c, a with
  | Some (AwaitLatest now), AnswerLatest (Ok candidate) =>
      let '(c, recovered) := clear_failure StageCheck c in
      let c := publish (checked (uk_target c) now candidate) c in
      let o := Ended (ui_state (uk_inner c)) in
      finish o (log_recovered StageCheck recovered c)
  | Some (AwaitLatest _), AnswerLatest (Err e) => finish_state (publish_failure e StageCheck c)
  | Some (AwaitDownload _), AnswerDownload (Ok package) => wait_for AskBefore (AwaitBefore package) c
  | Some (AwaitBefore package), AnswerBefore (Ok _) =>
      wait_for (AskInstall package (uk_target c)) (AwaitInstall package) (publish (set_phase PhInstalling None) c)
  | Some (AwaitInstall _), AnswerInstall (Ok outcome) =>
      let '(c, recovered) := clear_failure StageInstall c in
      let phase := match outcome with OutcomeInstalled => PhInstalled | OutcomeRestartRequired => PhRestartRequired end in
      let c := publish (set_phase phase None) c in
      let o := Ended (ui_state (uk_inner c)) in
      finish o (log_recovered StageInstall recovered c)
  | Some (AwaitDownload _), AnswerDownload (Err e)
  | Some (AwaitBefore _), AnswerBefore (Err e)
  | Some (AwaitInstall _), AnswerInstall (Err e) => finish_state (publish_failure e StageInstall c)
  | _, _ => (c, Waits)
  end.

(** [state] and [release_page], which any thread may read at any time. *)
Definition state (c : UpdateController) : ControlUpdateState := ui_state (uk_inner c).
Definition release_page (c : UpdateController) : str :=
  match ui_candidate (uk_inner c) with Some candidate => uc_release_page candidate | None => RELEASES_PAGE end.

(** Threads of the application call the controller and the outside answers,
    in any order. *)
Inductive Event := EvCheck (force : bool) (now : Z) | EvInstall | EvAnswer (a : Answer).

Definition step (e : Event) (c : UpdateController) : UpdateController * Outcome :=
  match e with
  | EvCheck force now => check force now c
  | EvInstall => install_available_update c
  | EvAnswer a => answer a c
  end.

Definition run (c : UpdateController) (events : list Event) : UpdateController := foldl (λ c e, fst (step e c)) c events.

(** * The invariant *)

Definition offered (c : UpdateController) : option str := version_show ∘ uc_version <$> ui_candidate (uk_inner c).

(** The phase a controller shows for what its operation waits for. *)
Definition phase_shows (c : UpdateController) : Prop :=
  match uk_waiting c, cu_phase (state c) with
  | Some (AwaitLatest now), PhChecking => ui_last_attempt (uk_inner c) = Some now
  | Some (AwaitDownload asset), PhDownloading => installable (uk_target c) (ui_candidate (uk_inner c)) = Some asset
  | Some (AwaitBefore _), PhDownloading | Some (AwaitInstall _), PhInstalling =>
      installable (uk_target c) (ui_candidate (uk_inner c)) ≠ None
  | None, PhIdle => ui_last_attempt (uk_inner c) = None
  | None, PhUpToDate => ui_candidate (uk_inner c) = None
  | None, (PhAvailable | PhInstalled | PhRestartRequired) => installable (uk_target c) (ui_candidate (uk_inner c)) ≠ None
  | None, PhManual => ui_candidate (uk_inner c) ≠ None ∧ installable (uk_target c) (ui_candidate (uk_inner c)) = None
  | None, PhFailed => True
  | _, _ => False
  end.

Definition is_failed (p : UpdatePhase) : bool := match p with PhFailed => true | _ => false end.

(** The log of one stage: failures and recoveries alternate. *)
Definition stage_log (stage : FailureStage) (log : list LogEvent) : list bool :=
  omap (λ e, match e with
             | LogFailed s _ => if bool_decide (s = stage) then Some true else None
             | LogRecovered s => if bool_decide (s = stage) then Some false else None
             end) log.
#[global] Arguments stage_log : simpl never.

(** [alternates b l]: [l] alternates from failure on and leaves the stage failing, or not, as [b] says. *)
Inductive alternates : bool → list bool → Prop :=
| alt_nil : alternates false []
| alt_snoc b l : alternates (negb b) l → alternates b (l ++ [b]).

Record update_inv (c : UpdateController) : Prop := {
  uv_active : uk_operation_active c = isSome (uk_waiting c);
  uv_phase : phase_shows c;
  uv_error : isSome (cu_error (state c)) = is_failed (cu_phase (state c));
  uv_latest : cu_latest_version (state c) = offered c;
  uv_log stage : alternates (failure_active stage (uk_inner c)) (stage_log stage (uk_log c));
  uv_published : ∀ s, last (uk_published c) = Some s → s = state c
}.

Lemma controller_new_inv current target : update_inv (controller_new current target).
Proof. split; cbn; try done. intros []; constructor. Qed.

(** Steps that leave the log, the candidate and the failures alone. *)
Lemma publish_last update c : last (uk_published (publish update c)) = Some (ui_state (uk_inner (publish update c))).
Proof. unfold publish. cbn. by rewrite last_snoc. Qed.

Lemma stage_log_failed stage s e log :
  stage_log stage (log ++ [LogFailed s e]) = stage_log stage log ++ (if bool_decide (s = stage) then [true] else []).
Proof. unfold stage_log. rewrite omap_app. cbn. by destruct (bool_decide (s = stage)). Qed.

Lemma stage_log_recovered stage s log :
  stage_log stage (log ++ [LogRecovered s]) = stage_log stage log ++ (if bool_decide (s = stage) then [false] else []).
Proof. unfold stage_log. rewrite omap_app. cbn. by destruct (bool_decide (s = stage)). Qed.

(** What a controller's log says of its failure flags. *)
Definition log_inv (c : UpdateController) : Prop :=
  ∀ stage, alternates (failure_active stage (uk_inner c)) (stage_log stage (uk_log c)).

Lemma failure_set stage s b i :
  failure_active s (set_failure stage b i) = if bool_decide (stage = s) then b else failure_active s i.
Proof. by destruct stage, s. Qed.

Lemma log_inv_same c c' :
  (∀ stage, failure_active stage (uk_inner c') = failure_active stage (uk_inner c)) → uk_log c' = uk_log c →
  log_inv c → log_inv c'.
Proof. intros Hf Hl H' stage. rewrite Hf, Hl. apply H'. Qed.

Lemma publish_failure_log e stage c : log_inv c → log_inv (publish_failure e stage c).
Proof.
  intros H' s. unfold publish_failure. specialize (H' s).
  assert (∀ i, failure_active s (set_phase PhFailed (Some (error_code e)) i) = failure_active s i) as E by (by destruct s).
  destruct (failure_active stage (uk_inner c)) eqn:Ef; cbn; rewrite E, failure_set.
  - case_bool_decide; [subst; by rewrite Ef in H'|done].
  - rewrite stage_log_failed. case_bool_decide; [|by rewrite app_nil_r]. subst s. constructor. by rewrite Ef in H'.
Qed.

Lemma recovery_log stage c f :
  (∀ s i, failure_active s (f i) = failure_active s i) → log_inv c →
  log_inv (log_recovered stage (snd (clear_failure stage c)) (publish f (fst (clear_failure stage c)))).
Proof.
  intros Hf H' s. specialize (H' s). unfold log_recovered, clear_failure. cbn [fst snd].
  destruct (failure_active stage (uk_inner c)) eqn:Ef; cbn; rewrite Hf, failure_set.
  - rewrite stage_log_recovered. case_bool_decide; [|by rewrite app_nil_r]. subst s. constructor. by rewrite Ef in H'.
  - case_bool_decide; [subst; by rewrite Ef in H'|done].
Qed.

Lemma set_phase_failures phase error s i : failure_active s (set_phase phase error i) = failure_active s i.
Proof. by destruct s. Qed.
Lemma checked_failures target now candidate s i : failure_active s (checked target now candidate i) = failure_active s i.
Proof. by destruct candidate, s. Qed.

(** The end of an operation whose published state shows it. *)
Record settled (c : UpdateController) : Prop := {
  se_phase : phase_shows (c <| uk_waiting := None |>);
  se_error : isSome (cu_error (state c)) = is_failed (cu_phase (state c));
  se_latest : cu_latest_version (state c) = offered c;
  se_log : log_inv c;
  se_published : ∀ s, last (uk_published c) = Some s → s = state c
}.

Lemma finish_inv o c : settled c → update_inv (fst (finish o c)).
Proof. intros [????]. by split. Qed.

Lemma settled_of_inv c : update_inv c → uk_waiting c = None → settled c.
Proof.
  intros [Ha Hp He Hl Hg Hs] Hw. split; try done. unfold phase_shows, state in *. cbn. by rewrite Hw in Hp.
Qed.

Lemma publish_failure_settled e stage c : update_inv c → settled (publish_failure e stage c).
Proof.
  intros [Ha Hp He Hl Hg Hs]. split.
  - done.
  - done.
  - unfold publish_failure, state, offered in *.
    destruct (failure_active stage (uk_inner c)), stage; exact Hl.
  - by apply publish_failure_log.
  - intros s. unfold publish_failure. rewrite publish_last. by intros [= <-].
Qed.

Lemma check_inv force now c : update_inv c → update_inv (fst (check force now c)).
Proof.
  intros Hc. pose proof Hc as [Ha Hp He Hl Hg Hs]. unfold check. destruct (uk_operation_active c) eqn:Hact; [done|].
  assert (uk_waiting c = None) as Hw by (by destruct (uk_waiting c)).
  destruct (too_soon _ _ _).
  - apply finish_inv. destruct (settled_of_inv c Hc Hw). by split.
  - split; cbn; try done. intros s. rewrite last_snoc. by intros [= <-].
Qed.

Lemma install_inv c : update_inv c → update_inv (fst (install_available_update c)).
Proof.
  intros Hc. pose proof Hc as [Ha Hp He Hl Hg Hs]. unfold install_available_update.
  destruct (uk_operation_active c) eqn:Hact; [done|].
  assert (uk_waiting c = None) as Hw by (by destruct (uk_waiting c)).
  match goal with |- context [installable ?t ?x] => destruct (installable t x) as [asset|] eqn:Hi end; cbn in Hi.
  - split; cbn; try done. intros s. rewrite last_snoc. by intros [= <-].
  - apply finish_inv. destruct (settled_of_inv c Hc Hw). by split.
Qed.

Lemma checked_settled now candidate c :
  log_inv c → settled (log_recovered StageCheck (snd (clear_failure StageCheck c))
    (publish (checked (uk_target c) now candidate) (fst (clear_failure StageCheck c)))).
Proof.
  intros Hg. pose proof (recovery_log StageCheck c (checked (uk_target c) now candidate) (checked_failures _ _ _) Hg) as Hlog.
  revert Hlog. unfold log_recovered, clear_failure. cbn [fst snd]. intros Hlog.
  split; [| | |exact Hlog|]; clear Hlog; destruct (failure_active StageCheck (uk_inner c)), candidate as [candidate|]; cbn;
    try done; try (rewrite last_snoc; by intros s [= <-]); unfold phase_shows, installable, state; cbn;
    case_bool_decide; cbn; try done; by destruct (uc_asset candidate).
Qed.

Lemma installed_settled outcome c :
  update_inv c → installable (uk_target c) (ui_candidate (uk_inner c)) ≠ None →
  settled (log_recovered StageInstall (snd (clear_failure StageInstall c))
    (publish (set_phase (match outcome with OutcomeInstalled => PhInstalled | OutcomeRestartRequired => PhRestartRequired end) None)
      (fst (clear_failure StageInstall c)))).
Proof.
  intros [_ _ _ Hl Hg _] Hi.
  pose proof (recovery_log StageInstall c _ (set_phase_failures
    (match outcome with OutcomeInstalled => PhInstalled | OutcomeRestartRequired => PhRestartRequired end) None) Hg) as Hlog.
  revert Hlog. unfold log_recovered, clear_failure. cbn [fst snd]. intros Hlog.
  split; [| | |exact Hlog|]; clear Hlog; destruct (failure_active StageInstall (uk_inner c)), outcome; cbn;
    try done; rewrite last_snoc; by intros s [= <-].
Qed.

Lemma answer_inv a c : update_inv c → update_inv (fst (answer a c)).
Proof.
  intros Hc. pose proof Hc as [Ha Hp He Hl Hg Hs]. unfold answer.
  destruct (uk_waiting c) as [w|] eqn:Hw; [|done].
  assert (uk_operation_active c = true) as Hact by (by rewrite Ha).
  unfold phase_shows in Hp. rewrite Hw in Hp.
  destruct w as [now|asset|package|package], a as [[candidate|e]|[pk|e]|[u|e]|[outcome|e]]; try done;
    try (apply finish_inv; by apply publish_failure_settled).
  - apply finish_inv. by apply (checked_settled now candidate c).
  - split; cbn; try done. unfold phase_shows. cbn.
    match goal with |- context [state ?d] => change (state d) with (state c) end.
    destruct (cu_phase (state c)); try done. by rewrite Hp.
  - split; cbn; try done; [by unfold phase_shows; cbn; destruct (cu_phase (state c))|].
    intros s. rewrite last_snoc. by intros [= <-].
  - apply finish_inv. apply (installed_settled outcome c); [done|]. by destruct (cu_phase (state c)).
Qed.

Lemma run_inv events c : update_inv c → update_inv (run c events).
Proof.
  revert c. induction events as [|e events IH]; intros c Hc; cbn; [done|]. apply IH.
  destruct e; cbn; auto using check_inv, install_inv, answer_inv.
Qed.

(** However the threads of the application call the controller and whatever the network, the downloader and
    the installer answer: exactly one operation runs while the controller is marked active; the phase shown tells what
    it waits for or how the last one ended, with an error exactly when it failed; an update is shown as available, or
    installed, only if the offered release has a package for this system; the version shown is that of the release
    offered; each kind of failure is logged once until it is logged as recovered; and what was published last is the
    state. *)
Theorem update_controller_consistent current target events :
  update_inv (run (controller_new current target) events).
Proof. apply run_inv, controller_new_inv. Qed.

(** * Exclusion *)

(** While an operation runs, every other call is refused and changes nothing. *)
Theorem update_operations_exclusive current target events e :
  let c := run (controller_new current target) events in
  uk_waiting c ≠ None → (∀ a, e ≠ EvAnswer a) → step e c = (c, Refused OperationBusy).
Proof.
  intros c Hw He. assert (update_inv c) as [Ha _ _ _ _ _] by apply run_inv, controller_new_inv.
  assert (uk_operation_active c = true) as Hact by (rewrite Ha; by destruct (uk_waiting c)).
  destruct e as [force now| |a]; cbn; unfold check, install_available_update; rewrite ?Hact; [done..|].
  by destruct (He a).
Qed.

(** * The requests made *)

Definition latest_times (asked : list UpdateRequest) : list Z :=
  omap (λ r, match r with AskLatest now => Some now | _ => None end) asked.

#[global] Arguments latest_times : simpl never.

(** Neighbouring times are a minute apart, unless the clock went back. *)
Definition spaced (times : list Z) : Prop :=
  ∀ i t t', times !! i = Some t → times !! S i = Some t' → t' < t ∨ MANUAL_CHECK_INTERVAL ≤ t' - t.

(** An installation follows the download of a package and the step before it. *)
Definition prepared (target : PackageTarget) (asked : list UpdateRequest) : Prop :=
  ∀ i package t, asked !! i = Some (AskInstall package t) →
    t = target ∧ t ≠ TargetManual ∧
    ∃ j asset, i = S (S j) ∧ asked !! j = Some (AskDownload asset) ∧ asked !! S j = Some AskBefore.

Record asked_inv (c : UpdateController) : Prop := {
  av_last : last (latest_times (uk_asked c)) = ui_last_attempt (uk_inner c);
  av_spaced : spaced (latest_times (uk_asked c));
  av_prepared : prepared (uk_target c) (uk_asked c);
  av_waiting : match uk_waiting c with
               | Some (AwaitDownload asset) =>
                   uk_target c ≠ TargetManual ∧ ∃ l, uk_asked c = l ++ [AskDownload asset]
               | Some (AwaitBefore _) =>
                   uk_target c ≠ TargetManual ∧ ∃ l asset, uk_asked c = l ++ [AskDownload asset; AskBefore]
               | _ => True
               end
}.

Lemma latest_times_snoc l r :
  latest_times (l ++ [r]) = latest_times l ++ match r with AskLatest now => [now] | _ => [] end.
Proof. unfold latest_times. rewrite omap_app. by destruct r. Qed.

Lemma spaced_snoc l t :
  spaced l → (∀ t0, last l = Some t0 → t < t0 ∨ MANUAL_CHECK_INTERVAL ≤ t - t0) → spaced (l ++ [t]).
Proof.
  intros Hl Ht i a b Ha Hb. destruct (decide (S i = length l)) as [E|Hne].
  - rewrite lookup_app_r, <- E, Nat.sub_diag in Hb by lia. cbn in Hb. injection Hb as <-. apply Ht.
    rewrite last_lookup, <- E. cbn. rewrite lookup_app_l in Ha by lia. done.
  - apply lookup_lt_Some in Hb as Hb'. rewrite length_app in Hb'. cbn in Hb'.
    rewrite lookup_app_l in Ha, Hb by lia. by apply (Hl i).
Qed.

Lemma prepared_snoc target l r :
  prepared target l →
  (∀ package t, r = AskInstall package t →
     t = target ∧ t ≠ TargetManual ∧ ∃ k asset, l = k ++ [AskDownload asset; AskBefore]) →
  prepared target (l ++ [r]).
Proof.
  intros Hl Hr i package t Hi. apply lookup_app_Some in Hi as [Hi|[Hlen Hi]].
  - destruct (Hl i package t Hi) as (Ht & Hm & j & asset & -> & Hj & Hsj). split_and!; [done..|].
    exists j, asset. apply lookup_lt_Some in Hi. by rewrite !lookup_app_l by lia.
  - destruct (i - length l)%nat as [|n] eqn:E; [|by destruct n]. cbn in Hi. injection Hi as ->.
    destruct (Hr package t eq_refl) as (Ht & Hm & k & asset & ->). split_and!; [done..|].
    exists (length k), asset. rewrite length_app in *. cbn in *. split_and!; [lia| |].
    + rewrite <- app_assoc, lookup_app_r, Nat.sub_diag by lia. done.
    + rewrite <- app_assoc, lookup_app_r by lia. replace (S (length k) - length k)%nat with 1%nat by lia. done.
Qed.

(** A step that asks nothing and ends the operation, or leaves it. *)
Lemma asked_inv_settle c c' :
  asked_inv c → uk_asked c' = uk_asked c → ui_last_attempt (uk_inner c') = ui_last_attempt (uk_inner c) →
  uk_target c' = uk_target c → uk_waiting c' = None → asked_inv c'.
Proof. intros [Hl Hs Hp Hw] Ea El Et Ew. split; rewrite ?Ea, ?El, ?Et, ?Ew; done. Qed.

Lemma publish_failure_asked e stage c :
  uk_asked (publish_failure e stage c) = uk_asked c ∧ uk_target (publish_failure e stage c) = uk_target c ∧
  ui_last_attempt (uk_inner (publish_failure e stage c)) = ui_last_attempt (uk_inner c).
Proof. unfold publish_failure. by destruct (negb _), stage. Qed.

Lemma too_soon_false now interval last t0 :
  too_soon now interval last = false → last = Some t0 → now < t0 ∨ interval ≤ now - t0.
Proof.
  intros Ht ->. unfold too_soon in Ht. cbn in Ht. unfold checked_sub in Ht.
  destruct (Z.leb_spec t0 now); cbn in Ht; [|lia]. destruct (Z.ltb_spec (now - t0) interval); [done|lia].
Qed.

Lemma check_asked force now c : asked_inv c → asked_inv (fst (check force now c)).
Proof.
  intros Hc. pose proof Hc as [Hl Hs Hp Hw]. unfold check. destruct (uk_operation_active c); [done|].
  destruct (too_soon _ _ _) eqn:Ht; [by apply (asked_inv_settle c)|]. cbn in Ht.
  split; cbn; [|rewrite latest_times_snoc|apply prepared_snoc; [done|by intros ??]|done].
  - by rewrite latest_times_snoc, last_snoc.
  - apply spaced_snoc; [done|]. intros t0. rewrite Hl. intros E.
    destruct (too_soon_false _ _ _ _ Ht E); [by left|right].
    transitivity (if force then MANUAL_CHECK_INTERVAL else AUTOMATIC_CHECK_INTERVAL); [|done]. by destruct force.
Qed.

Lemma install_asked c : asked_inv c → asked_inv (fst (install_available_update c)).
Proof.
  intros Hc. pose proof Hc as [Hl Hs Hp Hw]. unfold install_available_update.
  destruct (uk_operation_active c); [done|].
  match goal with |- context [installable ?t ?x] => destruct (installable t x) as [asset|] eqn:Hi end; cbn in Hi;
    [|by apply (asked_inv_settle c)].
  split; cbn; rewrite ?latest_times_snoc, ?app_nil_r; [done..|apply prepared_snoc; [done|by intros ??]|].
  split; [|by eexists]. intros Et. unfold installable in Hi. rewrite Et in Hi. by destruct (ui_candidate _).
Qed.

Lemma answer_asked a c : asked_inv c → asked_inv (fst (answer a c)).
Proof.
  intros Hc. pose proof Hc as [Hl Hs Hp Hw]. unfold answer. destruct (uk_waiting c) as [w|]; [|done].
  destruct w as [now|asset|package|package], a as [[candidate|e]|[pk|e]|[u|e]|[outcome|e]]; try done;
    try (match goal with |- context [publish_failure e ?stage c] =>
      destruct (publish_failure_asked e stage c) as (E1 & E2 & E3) end; by apply (asked_inv_settle c)).
  - unfold log_recovered, clear_failure. cbn [fst snd].
    destruct (failure_active StageCheck (uk_inner c)), candidate; by apply (asked_inv_settle c).
  - destruct Hw as [Hm [l E]]. split; cbn; rewrite ?latest_times_snoc, ?app_nil_r; [done..|apply prepared_snoc; [done|by intros ??]|].
    split; [done|]. exists l, asset. by rewrite E, <- app_assoc.
  - destruct Hw as [Hm (l & asset & E)]. split; cbn; rewrite ?latest_times_snoc, ?app_nil_r; [done..| |done].
    apply prepared_snoc; [done|]. intros p t [= <- <-]. split_and!; [done..|]. eauto.
  - unfold log_recovered, clear_failure. cbn [fst snd].
    destruct (failure_active StageInstall (uk_inner c)), outcome; by apply (asked_inv_settle c).
Qed.

Lemma step_target e c : uk_target (fst (step e c)) = uk_target c.
Proof.
  destruct e as [force now| |a]; cbn.
  - unfold check. destruct (uk_operation_active c); [done|]. by destruct (too_soon _ _ _).
  - unfold install_available_update. destruct (uk_operation_active c); [done|]. by destruct (installable _ _).
  - unfold answer. destruct (uk_waiting c) as [[]|], a as [[]|[]|[]|[]]; try done; cbn;
      unfold publish_failure, log_recovered; cbn; repeat case_match; done.
Qed.

Lemma run_asked events c : asked_inv c → asked_inv (run c events) ∧ uk_target (run c events) = uk_target c.
Proof.
  revert c. induction events as [|e events IH]; intros c Hc; cbn; [done|].
  destruct (IH (fst (step e c))) as [H' E].
  - destruct e; cbn; auto using check_asked, install_asked, answer_asked.
  - split; [exact H'|]. etransitivity; [exact E|apply step_target].
Qed.

End controller.

(** * Example *)

Lemma update_operations_exclusive_witness :
  let S := demo_semver in
  let c := run nat (λ _, []) (controller_new nat (1 : version) TargetDeb) [EvCheck nat true 0] in
  uk_waiting nat c ≠ None ∧ step nat (λ _, []) (EvInstall nat) c = (c, Refused OperationBusy).
Proof.
  cbv zeta. split; [discriminate|].
  apply (@update_operations_exclusive demo_semver nat (λ _, []) (1 : @version demo_semver) TargetDeb
    [EvCheck nat true 0] (EvInstall nat)); discriminate.
Defined.
