(* ===== verification/UpdatePackage.v ===== *)
(** Packages of an update: the download
    ([crates/overcrow-control/src/update_download.rs]) and the choice and
    command of the installer ([update_install.rs]).  The network, the cache's
    file operations and the probes of the system answer from outside. *)

From S2P Require Import Prelude Ordered Text Truncate Bytes FileSystem UpdateRelease Updates.

(** * The download *)

Definition MAX_REDIRECTS : nat := 2.
Definition MAX_CACHE_ENTRIES : nat := 32.
Definition APPROVED_ASSET_HOSTS : list str :=
  lit <$> ["api.github.com"; "github.com"; "release-assets.githubusercontent.com"; "objects.githubusercontent.com"]%string.

Record DownloadTrust := mkDownloadTrust { dt_https_only : bool; dt_approved_hosts : list str }.
Definition production_trust : DownloadTrust := mkDownloadTrust true APPROVED_ASSET_HOSTS.

(** What reading the body of a response gives: chunks, or an error that may
    be a time-out. *)
Abbreviation body := (list (result bool (list Z))) (only parsing).

(** What a request gives. *)
Inductive CallResult :=
| CallFailed (timed_out : bool)
| CallResponse (status : Z) (location : option str) (content : body).

Definition map_read_error (timed_out : bool) : UpdateError := if timed_out then Timeout else DownloadFailed.

Definition is_redirection (status : Z) : bool := (300 <=? status) && (status <=? 399).

Section download.
Context `{UrlParser}.

Definition trust_validate (t : DownloadTrust) (u : url) : result UpdateError unit :=
  let scheme_allowed :=
    if dt_https_only t then str_eqb (url_scheme u) (lit "https")
    else bool_decide (url_scheme u ∈ [lit "http"; lit "https"]) in
  if negb scheme_allowed || negb (bool_decide (default [] (url_host_str u) ∈ dt_approved_hosts t))
     || negb (str_eqb (url_username u) []) || isSome (url_password u)
  then Err UntrustedRedirect
  else Ok tt.

(** The requests of a download: [server] gives the time elapsed before the
    [n]th and its result.  Returns the URLs asked, and the body. *)
Fixpoint download_loop (t : DownloadTrust) (timeout : Z) (server : nat → Z * CallResult) (hops redirects : nat)
    (u : url) : list url * result UpdateError body :=
  match trust_validate t u with
  | Err e => ([], Err e)
  | Ok _ =>
      let '(elapsed, answer) := server redirects in
      match opt_filter (λ remaining, negb (remaining =? 0)) (checked_sub timeout elapsed) with
      | None => ([], Err Timeout)
      | Some _ =>
          match answer with
          | CallFailed timed_out => ([u], Err (map_read_error timed_out))
          | CallResponse status location content =>
              if is_redirection status
              then match hops, location ≫= url_parse with
                   | O, _ | _, None => ([u], Err UntrustedRedirect)
                   | S hops, Some u' =>
                       let '(asked, r) := download_loop t timeout server hops (S redirects) u' in (u :: asked, r)
                   end
              else ([u], if status =? 200 then Ok content else Err DownloadFailed)
          end
      end
  end.

(** Every request goes to an approved host, without credentials and only by
    https when the trust asks for it. *)
Definition trusted (t : DownloadTrust) (u : url) : Prop :=
  (dt_https_only t = true → url_scheme u = lit "https") ∧
  (∃ host, default [] (url_host_str u) = host ∧ host ∈ dt_approved_hosts t) ∧
  url_username u = [] ∧ url_password u = None.

Lemma trust_validate_Ok t u : trust_validate t u = Ok tt → trusted t u.
Proof.
  unfold trust_validate, trusted. destruct (_ || _ || _ || _) eqn:E; [done|]. intros _.
  rewrite !orb_false_iff, !negb_false_iff in E. destruct E as [[[Es Eh] Eu] Ep].
  apply bool_decide_eq_true in Eh. apply str_eqb_eq in Eu. split_and!; [|by eexists|done|by destruct (url_password u)].
  intros Ht. rewrite Ht in Es. by apply str_eqb_eq.
Qed.

(** A download only ever asks approved hosts, without credentials, over https in production, whatever the
    redirects say, and asks at most three times. *)
Theorem download_asks_trusted_hosts t timeout server u :
  let asked := fst (download_loop t timeout server MAX_REDIRECTS 0 u) in
  Forall (trusted t) asked ∧ (length asked ≤ S MAX_REDIRECTS)%nat.
Proof.
  cbv zeta. generalize MAX_REDIRECTS 0%nat u. clear u.
  induction n as [|n IH]; intros r u; cbn [download_loop];
    (destruct (trust_validate t u) as [[]|] eqn:Ht; [|split; [constructor|cbn; lia]]);
    apply trust_validate_Ok in Ht; destruct (server r) as [elapsed answer];
    (destruct (opt_filter _ _); [|split; [constructor|cbn; lia]]);
    (destruct answer as [timed_out|status location content]; [split; [by constructor|cbn; lia]|]);
    (destruct (is_redirection status); [|split; [by constructor|cbn; lia]]).
  - split; [by constructor|cbn; lia].
  - destruct (location ≫= url_parse) as [u'|]; [|split; [by constructor|cbn; lia]].
    specialize (IH (S r) u'). destruct (download_loop _ _ _ _ _ _) as [asked res]. cbn in *.
    destruct IH. split; [by constructor|lia].
Qed.
End download.

(** * The cache

    A file system directory of the user's own: names and contents. *)
Abbreviation cache := (gmap (list Z) (list Z)) (only parsing).

Record VerifiedPackage := mkVerifiedPackage { vp_name : list Z; vp_size : Z; vp_sha256 : list Z }.

(** How the file operations of a download end. *)
Record StoreOutcome := mkStoreOutcome {
  so_open : bool;
  so_write_fails : nat → option nat; (* the [n]th write fails after this many bytes *)
  so_sync : bool;
  so_rename : bool;
  so_directory : bool; (* opening and syncing the directory *)
  so_private : bool; (* the package is a private regular file *)
  so_readable : bool;
  so_remove : bool
}.

Section store.
Context (sha256 : list Z → list Z).

(** The loop that writes the body: the content of the file when it ends. *)
Fixpoint write_chunks (o : StoreOutcome) (n : nat) (asset : UpdateAsset) (written : list Z) (chunks : body) :
    list Z * result UpdateError unit :=
  match chunks with
  | [] => (written, Ok tt)
  | Err timed_out :: _ => (written, Err (map_read_error timed_out))
  | Ok chunk :: chunks =>
      if bool_decide (chunk = []) then (written, Ok tt)
      else
        let total := Z.of_nat (length written) + Z.of_nat (length chunk) in
        match opt_filter (λ v, (v <=? ua_size asset) && (v <=? MAX_PACKAGE_BYTES)) (then_some (total <=? u64_max) total) with
        | None => (written, Err DownloadTooLarge)
        | Some _ =>
            match so_write_fails o n with
            | Some k => (written ++ take k chunk, Err DownloadFailed)
            | None => write_chunks o (S n) asset (written ++ chunk) chunks
            end
        end
  end.

(** [VerifiedPackage::validate]. *)
Definition validate_package (o : StoreOutcome) (files : cache) (p : VerifiedPackage) : result UpdateError unit :=
  match files !! vp_name p with
  | None => Err UnsafeCache
  | Some content =>
      if negb (so_private o) || negb (Z.of_nat (length content) =? vp_size p) then Err UnsafeCache
      else if negb (so_readable o) then Err UnsafeCache
      else if bool_decide (sha256 content = vp_sha256 p) then Ok tt else Err DigestMismatch
  end.

(** The closure of [write_verified]. *)
Definition write_package (o : StoreOutcome) (temporary : list Z) (asset : UpdateAsset) (chunks : body) (files : cache) :
    cache * result UpdateError VerifiedPackage :=
  if negb (so_open o) || isSome (files !! temporary) then (files, Err UnsafeCache)
  else
    let '(written, r) := write_chunks o 0 asset [] chunks in
    let files := <[temporary := written]> files in
    match r with
    | Err e => (files, Err e)
    | Ok _ =>
        if negb (Z.of_nat (length written) =? ua_size asset) then (files, Err DownloadFailed)
        else if negb (bool_decide (sha256 written = ua_sha256 asset)) then (files, Err DigestMismatch)
        else if negb (so_sync o) then (files, Err DownloadFailed)
        else if negb (so_rename o) then (files, Err UnsafeCache)
        else
          let name := utf8 (ua_name asset) in
          let files := <[name := written]> (delete temporary files) in
          let package := mkVerifiedPackage name (ua_size asset) (ua_sha256 asset) in
          if negb (so_directory o) then (files, Err UnsafeCache)
          else match validate_package o files package with
               | Err e => (files, Err e)
               | Ok _ => (files, Ok package)
               end
    end.

Definition write_verified (o : StoreOutcome) (temporary : list Z) (asset : UpdateAsset) (chunks : body) (files : cache) :
    cache * result UpdateError VerifiedPackage :=
  let '(files, r) := write_package o temporary asset chunks files in
  (if negb (is_ok r) && so_remove o then delete temporary files else files, r).

(** The package is in the cache, with the content the release announced. *)
Definition package_stored (asset : UpdateAsset) (files : cache) (p : VerifiedPackage) : Prop :=
  p = mkVerifiedPackage (utf8 (ua_name asset)) (ua_size asset) (ua_sha256 asset) ∧
  ∃ content, files !! vp_name p = Some content ∧ Z.of_nat (length content) = ua_size asset ∧
    sha256 content = ua_sha256 asset.

(** Only the temporary file and the package's own are touched. *)
Definition others_kept (temporary : list Z) (asset : UpdateAsset) (files files' : cache) : Prop :=
  ∀ name, name ≠ temporary → name ≠ utf8 (ua_name asset) → files' !! name = files !! name.

End store.

(** [validate_asset_name]. *)
Definition validate_asset_name (name : str) : result UpdateError unit :=
  if bool_decide (name = []) || (256 <? str_len name) || existsb (Z.eqb 47) (utf8 name)
     || negb (bool_decide ((path_file_name (utf8 name) ≫= from_utf8) = Some name))
  then Err UnsafeCache
  else Ok tt.

(** * The installer *)

Definition CONTROL_BINARY : path := lit "/usr/bin/overcrow-control".
Definition PKEXEC : path := lit "/usr/bin/pkexec".
Definition PACMAN : path := lit "/usr/bin/pacman".
Definition DNF5 : path := lit "/usr/bin/dnf5".
Definition DNF : path := lit "/usr/bin/dnf".
Definition APT_GET : path := lit "/usr/bin/apt-get".
Definition RPM_OSTREE : path := lit "/usr/bin/rpm-ostree".
Definition MAX_OS_RELEASE_BYTES : Z := 4 * 1024.

Inductive PackageDatabase := DbArch | DbRpm | DbDeb.

(** [PlatformProbe]. *)
Class PlatformProbe := {
  probe_current_executable : option path;
  probe_ostree_booted : bool;
  probe_package_installed : PackageDatabase → bool;
  probe_trusted_executable : path → bool;
  probe_os_release : option (list Z)
}.

(** Lines of [os-release]; [split] of bytes. *)
Fixpoint os_release_lines (key : list Z) (lines : list (list Z)) : option str :=
  match lines with
  | [] => None
  | line :: lines =>
      match position (Z.eqb 61) line with
      | None => os_release_lines key lines
      | Some separator =>
          if negb (bool_decide (take separator line = key)) then os_release_lines key lines
          else
            value ← from_utf8 (drop (S separator) line);
            let value := trim value in
            let value := default value (strip_prefix [34] value ≫= strip_suffix [34]) in
            if bool_decide (value = []) || (64 <? str_len value)
               || existsb (λ c, is_control c || is_whitespace c) value
            then None
            else Some (to_ascii_lowercase value)
      end
  end.

Definition os_release_value (bytes : list Z) (key : list Z) : option str :=
  if (MAX_OS_RELEASE_BYTES <? Z.of_nat (length bytes)) || existsb (Z.eqb 0) bytes then None
  else os_release_lines key (split 10 bytes).

Definition fedora_major (os_release : option (list Z)) : option Z :=
  bytes ← os_release;
  id ← os_release_value bytes (lit "ID");
  if negb (bool_decide (id ∈ [lit "fedora"; lit "bazzite"])) then None
  else
    version ← os_release_value bytes (lit "VERSION_ID");
    if bool_decide (version = []) || (3 <? str_len version) || negb (forallb is_ascii_digit (utf8 version))
    then None
    else parse_unsigned u16_max version.

Definition is_normal_absolute_path (p : path) : bool :=
  path_is_absolute p && forallb (λ c, negb (bool_decide (c ∈ [lit "."; lit ".."]))) (snd (path_components p)).

Record InstallerPlan := mkInstallerPlan { ip_program : path; ip_args : list path; ip_outcome : InstallOutcome }.

Inductive InstallerExit := ExitSuccess | ExitAuthorizationCancelled | ExitFailed.

Section installer.
Context `{PlatformProbe}.

Definition detect : PackageTarget :=
  if negb (is_some_and (path_eqb CONTROL_BINARY) probe_current_executable) || negb (probe_trusted_executable PKEXEC)
  then TargetManual
  else
    let arch := probe_package_installed DbArch in
    let rpm := probe_package_installed DbRpm in
    let deb := probe_package_installed DbDeb in
    if negb (Z.b2z arch + Z.b2z rpm + Z.b2z deb =? 1) then TargetManual
    else if probe_ostree_booted
    then if rpm && probe_trusted_executable RPM_OSTREE
         then match fedora_major probe_os_release with
              | Some fedora_major => TargetRpmOstree fedora_major
              | None => TargetManual
              end
         else TargetManual
    else if arch && probe_trusted_executable PACMAN then TargetArch
    else if deb && probe_trusted_executable APT_GET then TargetDeb
    else if rpm && (probe_trusted_executable DNF5 || probe_trusted_executable DNF)
    then match fedora_major probe_os_release with
         | Some fedora_major => TargetRpm fedora_major
         | None => TargetManual
         end
    else TargetManual.

Definition installer_plan (target : PackageTarget) (package : path) : result UpdateError InstallerPlan :=
  if negb (is_normal_absolute_path package) || negb (probe_trusted_executable PKEXEC) then Err Installation
  else
    m ← match target with
        | TargetArch => Ok (PACMAN, lit <$> ["--noconfirm"; "-U"]%string, OutcomeInstalled)
        | TargetRpm _ =>
            Ok (if probe_trusted_executable DNF5 then DNF5 else DNF, lit <$> ["install"; "-y"]%string, OutcomeInstalled)
        | TargetDeb => Ok (APT_GET, lit <$> ["install"; "-y"]%string, OutcomeInstalled)
        | TargetRpmOstree _ => Ok (RPM_OSTREE, [lit "install"], OutcomeRestartRequired)
        | TargetManual => Err Installation
        end;
    let '(manager, manager_args, outcome) := m in
    if negb (probe_trusted_executable manager) then Err Installation
    else Ok (mkInstallerPlan PKEXEC (manager :: manager_args ++ [package]) outcome).

Definition run_plan (plan : InstallerPlan) (exit : result UpdateError InstallerExit) : result UpdateError InstallOutcome :=
  e ← exit;
  match e with
  | ExitSuccess => Ok (ip_outcome plan)
  | ExitAuthorizationCancelled => Err AuthorizationCancelled
  | ExitFailed => Err Installation
  end.

(** The package manager of a target and the database that proves it. *)
Definition managers (t : PackageTarget) : list path :=
  match t with
  | TargetArch => [PACMAN]
  | TargetRpm _ => [DNF5; DNF]
  | TargetDeb => [APT_GET]
  | TargetRpmOstree _ => [RPM_OSTREE]
  | TargetManual => []
  end.
Definition database (t : PackageTarget) : option PackageDatabase :=
  match t with
  | TargetArch => Some DbArch
  | TargetRpm _ | TargetRpmOstree _ => Some DbRpm
  | TargetDeb => Some DbDeb
  | TargetManual => None
  end.

(** When the target of this system is found rather than left to the user. *)
Definition detected (t : PackageTarget) : Prop :=
  (∃ p, probe_current_executable = Some p ∧ path_eqb CONTROL_BINARY p = true) ∧
  probe_trusted_executable PKEXEC = true ∧
  (∀ db, probe_package_installed db = true ↔ database t = Some db) ∧
  (∃ m, m ∈ managers t ∧ probe_trusted_executable m = true) ∧
  match t with
  | TargetRpmOstree v => probe_ostree_booted = true ∧ fedora_major probe_os_release = Some v
  | TargetRpm v => probe_ostree_booted = false ∧ fedora_major probe_os_release = Some v
  | TargetArch | TargetDeb => probe_ostree_booted = false
  | TargetManual => False
  end.

Lemma one_database (arch rpm deb : bool) :
  (Z.b2z arch + Z.b2z rpm + Z.b2z deb =? 1) = true →
  (arch = true ∧ rpm = false ∧ deb = false) ∨ (arch = false ∧ rpm = true ∧ deb = false) ∨
  (arch = false ∧ rpm = false ∧ deb = true).
Proof. destruct arch, rpm, deb; vm_compute; intuition congruence. Qed.

Lemma databases arch rpm deb :
  probe_package_installed DbArch = arch → probe_package_installed DbRpm = rpm → probe_package_installed DbDeb = deb →
  ∀ o, (∀ db, probe_package_installed db = true ↔ o = Some db) ↔
    (arch = true ↔ o = Some DbArch) ∧ (rpm = true ↔ o = Some DbRpm) ∧ (deb = true ↔ o = Some DbDeb).
Proof. intros <- <- <- o. split; [intros Hd; by split_and!|]. intros (? & ? & ?) []; done. Qed.

Lemma managers_trusted t :
  (∃ m, m ∈ managers t ∧ probe_trusted_executable m = true) ↔ existsb probe_trusted_executable (managers t) = true.
Proof. rewrite existsb_exists. by setoid_rewrite list_elem_of_In. Qed.

Lemma current_is_control :
  (∃ p, probe_current_executable = Some p ∧ path_eqb CONTROL_BINARY p = true) ↔
    is_some_and (path_eqb CONTROL_BINARY) probe_current_executable = true.
Proof. symmetry. apply is_some_and_true. Qed.

Lemma detect_detected t : detected t ↔ detect = t ∧ t ≠ TargetManual.
Proof.
  unfold detected. rewrite managers_trusted, current_is_control, (databases _ _ _ eq_refl eq_refl eq_refl). unfold detect.
  generalize (is_some_and (path_eqb CONTROL_BINARY) probe_current_executable) as control.
  pose proof (one_database (probe_package_installed DbArch) (probe_package_installed DbRpm) (probe_package_installed DbDeb)) as H1.
  revert H1. generalize (probe_package_installed DbArch) as arch, (probe_package_installed DbRpm) as rpm,
    (probe_package_installed DbDeb) as deb. intros arch rpm deb H1 control.
  destruct control; cbn [negb orb]; [|by split; [intros (? & _)|intros [<- ?]]].
  destruct (probe_trusted_executable PKEXEC); cbn [negb orb]; [|by split; [intros (_ & ? & _)|intros [<- ?]]].
  destruct (Z.b2z arch + Z.b2z rpm + Z.b2z deb =? 1) eqn:E; cbn [negb].
  2:{ split; [|by intros [<- ?]]. clear H1. intros (_ & _ & (Ha & Hr & Hd) & _ & Ht).
      destruct t; try done; destruct arch, rpm, deb; cbn in *; vm_compute in E; intuition congruence. }
  destruct (H1 eq_refl) as [(-> & -> & ->)|[(-> & -> & ->)|(-> & -> & ->)]]; clear H1 E; cbn [andb];
    destruct probe_ostree_booted; destruct t; cbn [managers database existsb];
    destruct (fedora_major probe_os_release) as [v|];
    repeat match goal with |- context [probe_trusted_executable ?m] => destruct (probe_trusted_executable m) end;
    cbn; intuition congruence.
Qed.

(** A package target is detected exactly when the program runs from its packaged path, pkexec and a package
    manager of the target can be trusted, one package database alone - the target's - holds the program, and the
    image of the system and its Fedora release fit the target; everything else is left to the user. *)
Theorem detect_iff t : detected t ↔ detect = t ∧ t ≠ TargetManual.
Proof. apply detect_detected. Qed.

(** A detected target has an installer: pkexec with a trusted package manager of the target, given the
    package as its last argument, and no shell in between. *)
Theorem detected_installs t package :
  detected t → is_normal_absolute_path package = true →
  ∃ manager args, manager ∈ managers t ∧ probe_trusted_executable manager = true ∧
    installer_plan t package = Ok (mkInstallerPlan PKEXEC (manager :: args ++ [package])
      (match t with TargetRpmOstree _ => OutcomeRestartRequired | _ => OutcomeInstalled end)).
Proof.
  intros (_ & Hp & _ & (m & Hm & Htr) & Ht) Hn. unfold installer_plan. rewrite Hn, Hp. cbn [negb orb].
  destruct t; try done; cbn [managers] in Hm; cbn [mbind result_bind];
    rewrite ?list_elem_of_singleton in Hm; try subst m; try (rewrite Htr; do 2 eexists; split_and!; [left|exact Htr|reflexivity]).
  destruct (probe_trusted_executable DNF5) eqn:E5.
  - rewrite E5. do 2 eexists. split_and!; [left|exact E5|reflexivity].
  - assert (m = DNF) as -> by (apply elem_of_cons in Hm as [->|Hm%list_elem_of_singleton]; [congruence|done]).
    rewrite Htr. do 2 eexists. split_and!; [right; left|exact Htr|reflexivity].
Qed.
End installer.

(** * Examples *)

Definition demo_fedora : list Z := lit "NAME=Fedora Linux" ++ [10] ++ lit "ID=fedora" ++ [10] ++ lit "VERSION_ID=43" ++ [10].

Definition demo_probe : PlatformProbe := {|
  probe_current_executable := Some CONTROL_BINARY;
  probe_ostree_booted := false;
  probe_package_installed db := match db with DbRpm => true | _ => false end;
  probe_trusted_executable p := negb (bool_decide (p = DNF5));
  probe_os_release := Some demo_fedora
|}.

Lemma detected_installs_witness :
  let P := demo_probe in
  detected (TargetRpm 43) ∧ ∃ manager args, manager ∈ managers (TargetRpm 43) ∧ probe_trusted_executable manager = true ∧
    installer_plan (TargetRpm 43) (lit "/cache/overcrow.rpm") =
      Ok (mkInstallerPlan PKEXEC (manager :: args ++ [lit "/cache/overcrow.rpm"]) OutcomeInstalled).
Proof.
  cbv zeta. assert (@detected demo_probe (TargetRpm 43)) as Hd.
  { apply (proj2 (@detect_detected demo_probe (TargetRpm 43))). split; [vm_compute; reflexivity|discriminate]. }
  split; [exact Hd|]. exact (@detected_installs demo_probe (TargetRpm 43) (lit "/cache/overcrow.rpm") Hd ltac:(vm_compute; reflexivity)).
Defined.

Definition demo_asset : UpdateAsset := mkUpdateAsset (lit "overcrow.rpm") [] 3 [6].
Definition demo_outcome : StoreOutcome := mkStoreOutcome true (λ _, None) true true true true true true.

