(* ===== verification/Logging.v ===== *)
(** The diagnostic logs ([crates/overcrow-logging/src/lib.rs]): what a line
    is made of, the queue between the threads that log and the one that
    writes, the files with their rotation, and reading the recent lines
    back.  The calendar (chrono) and the outcome of each file operation are
    parameters. *)

From S2P Require Import Prelude Ordered Text Truncate Decimal Bytes FileSystem.

Definition MAX_FILE_BYTES : Z := 2 * 1024 * 1024.
Definition MAX_LINE_BYTES : Z := 1024.
Definition QUEUE_CAPACITY : nat := 256.
Definition ARCHIVE_COUNT : nat := 3.
Definition MAX_EVENT_NAME_BYTES : Z := 64.
Definition MAX_DETAILS_BYTES : Z := 768.

Inductive Component := CompControl | CompCore | CompOverlay | CompHyprland.

Definition all_components : list Component := [CompControl; CompCore; CompOverlay; CompHyprland].

Definition component_name (c : Component) : str :=
  match c with
  | CompControl => lit "control" | CompCore => lit "core"
  | CompOverlay => lit "overlay" | CompHyprland => lit "hyprland"
  end.

Definition component_file_name (c : Component) : str :=
  match c with
  | CompControl => lit "control.log" | CompCore => lit "core.log"
  | CompOverlay => lit "overlay.log" | CompHyprland => lit "hyprland.log"
  end.

Inductive Level := LevelInfo | LevelWarn | LevelError.

Definition level_name (l : Level) : str :=
  match l with LevelInfo => lit "INFO" | LevelWarn => lit "WARN" | LevelError => lit "ERROR" end.

Record QueuedEvent := mkQueuedEvent {
  qe_timestamp : Z; (* a [SystemTime] *)
  qe_level : Level;
  qe_event : str;
  qe_details : str
}.

(** * Lines *)

Definition event_character (c : char) : bool := is_ascii_lower c || is_ascii_digit c || (c =? 95).

Definition validated_event_name (event : str) : str :=
  if negb (bool_decide (event = [])) && (str_len event <=? MAX_EVENT_NAME_BYTES) && forallb event_character event
  then event else lit "invalid_event_name".

Definition append_bounded (output value : str) (maximum : Z) : str :=
  if maximum <=? str_len output then output
  else
    let end_ := Z.min (str_len value) (maximum - str_len output) in
    output ++ slice_to_boundary (Z.to_nat end_) value end_.

Definition truncate_utf8 (value : str) (maximum : Z) : str :=
  let end_ := Z.min (str_len value) maximum in
  slice_to_boundary (Z.to_nat end_) value end_.

(** [{:x}] of a number: eight digits are enough for a [u32]. *)
Definition hex_digit_char (d : Z) : char := if d <? 10 then 48 + d else 87 + d.
Fixpoint hex_digits (fuel : nat) (z : Z) : str :=
  match fuel with
  | O => []
  | S fuel => (if z <? 16 then [] else hex_digits fuel (z / 16)) ++ [hex_digit_char (z mod 16)]
  end.

Definition escape (c : char) : str :=
  if c =? 10 then lit "\n"
  else if c =? 13 then lit "\r"
  else if c =? 9 then lit "\t"
  else if is_control c then lit "\u{" ++ hex_digits 8 c ++ lit "}"
  else [c].

(** [SanitizedText::write_str], and a whole text, which is written in the
    pieces its format arguments are printed in. *)
Fixpoint write_str (maximum : Z) (output value : str) : str :=
  match value with
  | [] => output
  | c :: value =>
      let output := append_bounded output (escape c) maximum in
      if maximum <=? str_len output then output else write_str maximum output value
  end.

Definition sanitized (details : list str) : str := foldl (write_str MAX_DETAILS_BYTES) [] details.

Section lines.
(** [DateTime::to_rfc3339_opts] with milliseconds and a [Z]. *)
Variable timestamp_at : Z → str.

Definition format_line (component : Component) (e : QueuedEvent) : str :=
  let line := timestamp_at (qe_timestamp e) ++ [32] ++ level_name (qe_level e) ++ [32]
                ++ component_name component ++ [32] ++ qe_event e in
  let line := if bool_decide (qe_details e = []) then line
              else append_bounded (line ++ [32]) (qe_details e) (MAX_LINE_BYTES - 1) in
  let line := if MAX_LINE_BYTES <=? str_len line then truncate_utf8 line (MAX_LINE_BYTES - 1) else line in
  line ++ [10].

Definition dropped_event (timestamp count : Z) : QueuedEvent :=
  mkQueuedEvent timestamp LevelWarn (lit "events_dropped") (lit "count=" ++ show_Z count).
End lines.

(** * The queue

    The threads that log share a bounded queue and a count of the events it
    had no room for; one worker takes events and writes them. *)

Inductive WorkerPhase :=
| WorkerLoop                                       (* before looking at the shutdown flag *)
| WorkerReceive                                    (* in [recv_timeout] *)
| WorkerDrain (left : nat)                         (* in the last loop, with [left] turns *)
| WorkerWrite (e : QueuedEvent) (next : WorkerPhase) (* in [write_event] *)
| WorkerFinal                                      (* before the last [write_dropped] *)
| WorkerStopped.

Record LogQueue := mkLogQueue {
  lq_events : list QueuedEvent;
  lq_dropped : Z;
  lq_shutdown : bool;
  lq_senders : bool; (* some logger is left *)
  lq_worker : WorkerPhase
}.
#[export] Instance log_queue_eta : Eta LogQueue := λ q,
  mkLogQueue (lq_events q) (lq_dropped q) (lq_shutdown q) (lq_senders q) (lq_worker q).

Definition queue_new : LogQueue := mkLogQueue [] 0 false true WorkerLoop.

(** [EventLogger::enqueue] of a logger with a sender, at time [now]. *)
Definition enqueue (now : Z) (level : Level) (event : str) (details : list str) (q : LogQueue) : LogQueue :=
  let queued := mkQueuedEvent now level (validated_event_name event) (sanitized details) in
  let refused :=
    match lq_worker q with
    | WorkerStopped => true
    | _ => (QUEUE_CAPACITY <=? length (lq_events q))%nat
    end in
  if refused then q <| lq_dropped ::= λ n, saturating_add u64_max n 1 |>
  else q <| lq_events ::= λ l, l ++ [queued] |>.

(** What the worker writes: an event, or how many were dropped. *)
Inductive LogRecord := RecEvent (e : QueuedEvent) | RecDropped (timestamp count : Z).

Definition record_event (r : LogRecord) : QueuedEvent :=
  match r with RecEvent e => e | RecDropped timestamp count => dropped_event timestamp count end.

(** [write_dropped]: the count is taken and reported. *)
Definition write_dropped (timestamp : Z) (q : LogQueue) : list LogRecord * LogQueue :=
  if lq_dropped q =? 0 then ([], q) else ([RecDropped timestamp (lq_dropped q)], q <| lq_dropped := 0 |>).

(** One step of [run_worker]: of the first loop, whose [recv_timeout] may
    also time out or find that no logger is left, and of the draining loop. *)
Inductive LogStep :=
| LogCall (now : Z) (level : Level) (event : str) (details : list str)
| LogShutdown          (* [LoggerRuntime::drop] *)
| LogSendersGone       (* the last logger is dropped *)
| LogWorker (now : Z)  (* the worker goes on *)
| LogTimeout.          (* its wait times out *)

Definition worker_step (now : Z) (q : LogQueue) : option (list LogRecord * LogQueue) :=
  match lq_worker q with
  | WorkerLoop => Some ([], q <| lq_worker := if lq_shutdown q then WorkerDrain QUEUE_CAPACITY else WorkerReceive |>)
  | WorkerReceive =>
      match lq_events q with
      | e :: events => Some ([], q <| lq_events := events |> <| lq_worker := WorkerWrite e WorkerLoop |>)
      | [] => if lq_senders q then None else Some ([], q <| lq_worker := WorkerDrain QUEUE_CAPACITY |>)
      end
  | WorkerDrain O => Some ([], q <| lq_worker := WorkerFinal |>)
  | WorkerDrain (S left_) =>
      match lq_events q with
      | e :: events => Some ([], q <| lq_events := events |> <| lq_worker := WorkerWrite e (WorkerDrain left_) |>)
      | [] => Some ([], q <| lq_worker := WorkerFinal |>)
      end
  | WorkerWrite e next =>
      let '(records, q) := write_dropped (qe_timestamp e) q in
      Some (records ++ [RecEvent e], q <| lq_worker := next |>)
  | WorkerFinal =>
      let '(records, q) := write_dropped now q in
      Some (records, q <| lq_worker := WorkerStopped |>)
  | WorkerStopped => None
  end.

Definition log_step (q : LogQueue) (s : LogStep) : option (list LogRecord * LogQueue) :=
  match s with
  | LogCall now level event details =>
      if lq_senders q then Some ([], enqueue now level event details q) else None
  | LogShutdown => Some ([], q <| lq_shutdown := true |>)
  | LogSendersGone => Some ([], q <| lq_senders := false |>)
  | LogWorker now => worker_step now q
  | LogTimeout =>
      match lq_worker q with
      | WorkerReceive => if bool_decide (lq_events q = []) then Some ([], q <| lq_worker := WorkerLoop |>) else None
      | _ => None
      end
  end.

Fixpoint log_run (q : LogQueue) (steps : list LogStep) : option (list LogRecord * LogQueue) :=
  match steps with
  | [] => Some ([], q)
  | s :: steps =>
      '(records, q) ← log_step q s;
      '(more, q) ← log_run q steps;
      Some (records ++ more, q)
  end.

(** * The files

    A component's files, by generation: 0 is the current log and 1 to
    [ARCHIVE_COUNT] are its archives, each named after the log with its
    generation appended. *)

Definition archive_path (p : path) (generation : nat) : path := p ++ lit "." ++ show_Z (Z.of_nat generation).

Definition log_path (p : path) (generation : nat) : path :=
  match generation with O => p | _ => archive_path p generation end.

Abbreviation log_files := (gmap nat file).

(** The operations on the files during one write. *)
Inductive LogOp := OpMetadata (generation : nat) | OpExists (generation : nat) | OpRemove | OpRename (generation : nat)
                 | OpOpen | OpPermissions | OpOpenedMetadata | OpWrite.

(** How they end: which fail, how much a failing write wrote, and the mode
    files are created with. *)
Record LogFaults := mkLogFaults { lo_fails : LogOp → option str; lo_partial : nat; lo_created_mode : Z }.

Definition no_faults : LogFaults := mkLogFaults (λ _, None) 0 PRIVATE_MODE.

Definition attempt (faults : LogFaults) (op : LogOp) : result str unit :=
  match lo_fails faults op with Some e => Err e | None => Ok tt end.

Definition validate_private_file_metadata (f : file) : result str unit :=
  if negb (fl_regular f) || negb (mode_bits f =? PRIVATE_MODE)
  then Err (lit "diagnostic log must be a regular 0600 file") else Ok tt.

Definition file_length (f : file) : Z := Z.of_nat (length (fl_content f)).

Definition validate_archive (faults : LogFaults) (files : log_files) (generation : nat) : result str unit :=
  attempt faults (OpMetadata generation);;
  match files !! generation with
  | None => Ok tt
  | Some f =>
      validate_private_file_metadata f;;
      if MAX_FILE_BYTES <? file_length f then Err (lit "diagnostic archive exceeds its size limit") else Ok tt
  end.

Fixpoint validate_archives_from (faults : LogFaults) (files : log_files) (generations : list nat) : result str unit :=
  match generations with
  | [] => Ok tt
  | g :: generations => validate_archive faults files g;; validate_archives_from faults files generations
  end.

Definition validate_archives (faults : LogFaults) (files : log_files) : result str unit :=
  validate_archives_from faults files (seq 1 ARCHIVE_COUNT).

(** [Path::exists], which is false when looking fails. *)
Definition log_exists (faults : LogFaults) (files : log_files) (generation : nat) : bool :=
  is_ok (attempt faults (OpExists generation)) && isSome (files !! generation).

(** [fs::rename] to the next generation, if the file exists. *)
Definition rename_next (faults : LogFaults) (files : log_files) (generation : nat) : log_files * result str unit :=
  if log_exists faults files generation then
    match attempt faults (OpRename generation), files !! generation with
    | Ok _, Some f => (<[S generation := f]> (delete generation files), Ok tt)
    | Ok _, None => (files, Ok tt)
    | Err e, _ => (files, Err e)
    end
  else (files, Ok tt).

Fixpoint rename_all (faults : LogFaults) (files : log_files) (generations : list nat) : log_files * result str unit :=
  match generations with
  | [] => (files, Ok tt)
  | g :: generations =>
      match rename_next faults files g with
      | (files, Ok _) => rename_all faults files generations
      | (files, Err e) => (files, Err e)
      end
  end.

(** [rotate_files]: the oldest archive goes, the others and the log move up. *)
Definition rotate_files (faults : LogFaults) (files : log_files) : log_files * result str unit :=
  match validate_archives faults files with
  | Err e => (files, Err e)
  | Ok _ =>
      if log_exists faults files ARCHIVE_COUNT then
        match attempt faults OpRemove with
        | Err e => (files, Err e)
        | Ok _ => rename_all faults (delete ARCHIVE_COUNT files) (rev (seq 0 ARCHIVE_COUNT))
        end
      else rename_all faults files (rev (seq 0 ARCHIVE_COUNT))
  end.

(** [open_log_file], with the length of the file opened. *)
Definition open_log_file (faults : LogFaults) (files : log_files) : log_files * result str Z :=
  match attempt faults (OpMetadata 0);;
        match files !! 0%nat with Some f => validate_private_file_metadata f | None => Ok tt end;;
        attempt faults OpOpen with
  | Err e => (files, Err e)
  | Ok _ =>
      let existed := isSome (files !! 0%nat) in
      let f := default (mkFile true (lo_created_mode faults) []) (files !! 0%nat) in
      match (if existed then Ok tt else attempt faults OpPermissions) with
      | Err e => (<[0%nat := f]> files, Err e)
      | Ok _ =>
          let f := if existed then f else mkFile true PRIVATE_MODE (fl_content f) in
          (<[0%nat := f]> files,
           attempt faults OpOpenedMetadata;;
           validate_private_file_metadata f;;
           if MAX_FILE_BYTES <? file_length f then Err (lit "diagnostic log exceeds its size limit")
           else Ok (file_length f))
      end
  end.

Record FileSink := mkFileSink { sk_open : bool; sk_size : Z }.

(** [FileSink::rotate]. *)
Definition sink_rotate (faults : LogFaults) (s : FileSink) (files : log_files) : FileSink * log_files * result str unit :=
  let s := mkFileSink false (sk_size s) in
  match rotate_files faults files with
  | (files, Err e) => (s, files, Err e)
  | (files, Ok _) =>
      match open_log_file faults files with
      | (files, Err e) => (s, files, Err e)
      | (files, Ok size) => (mkFileSink true size, files, Ok tt)
      end
  end.

(** [File::write_all] at the end of the current log. *)
Definition append_file (bytes : list Z) (f : file) : file := mkFile (fl_regular f) (fl_mode f) (fl_content f ++ bytes).

(** [FileSink::write]. *)
Definition sink_write_file (faults : LogFaults) (line : list Z) (s : FileSink) (files : log_files) :
    FileSink * log_files * result str unit :=
  let line_len := Z.of_nat (length line) in
  let '(s, files, rotated) :=
    if is_none_or (λ size, MAX_FILE_BYTES <? size) (checked_add u64_max (sk_size s) line_len)
    then sink_rotate faults s files else (s, files, Ok tt) in
  match rotated with
  | Err e => (s, files, Err e)
  | Ok _ =>
      if negb (sk_open s) then (s, files, Err (lit "diagnostic log file is unavailable"))
      else
        match attempt faults OpWrite with
        | Err e => (s, alter (append_file (take (lo_partial faults) line)) 0%nat files, Err e)
        | Ok _ =>
            let files := alter (append_file line) 0%nat files in
            match checked_add u64_max (sk_size s) line_len with
            | None => (s, files, Err (lit "diagnostic log size overflow"))
            | Some size => (mkFileSink true size, files, Ok tt)
            end
        end
  end.

Inductive Sink := SinkFile (s : FileSink) | SinkStderr.

(** [ensure_private_directory], from how its operations end: creating the
    directory, looking at it - is it a directory and no link? - and setting
    its mode. *)
Record DirectoryOutcome := mkDirectoryOutcome {
  do_created : result str unit; do_found : result str bool; do_permissions : result str unit
}.

Definition ensure_private_directory (o : DirectoryOutcome) : result str unit :=
  do_created o;;
  directory ← do_found o;
  if negb directory then Err (lit "diagnostic log directory is not a regular directory") else do_permissions o.

(** The parent of a log directory, if it is OverCrow's own. *)
Definition controlled_parent (directory : path) : bool :=
  match rev (snd (path_components directory)) with
  | name :: parent :: _ => bool_decide (name = lit "logs") && bool_decide (parent = lit "overcrow")
  | _ => false
  end.

(** [FileSink::open], with the outcomes for the parent and the directory. *)
Definition sink_open (parent own : DirectoryOutcome) (faults : LogFaults) (directory : path) (files : log_files) :
    log_files * result str FileSink :=
  match (if bool_decide (directory = []) || negb (path_is_absolute directory)
         then Err (lit "diagnostic log directory is unavailable") else Ok tt);;
        (if controlled_parent directory then ensure_private_directory parent else Ok tt);;
        ensure_private_directory own;;
        validate_archives faults files with
  | Err e => (files, Err e)
  | Ok _ =>
      match open_log_file faults files with
      | (files, Err e) => (files, Err e)
      | (files, Ok size) => (files, Ok (mkFileSink true size))
      end
  end.

(** The sink, the files and what went to stderr: messages and lines. *)
Record LogOutput := mkLogOutput { ou_sink : Sink; ou_files : log_files; ou_stderr : list str }.

(** [Sink::write]: a failure sends this line and all later ones to stderr. *)
Definition sink_write (faults : LogFaults) (line : str) (o : LogOutput) : LogOutput :=
  match ou_sink o with
  | SinkFile s =>
      match sink_write_file faults (utf8 line) s (ou_files o) with
      | (s, files, Ok _) => mkLogOutput (SinkFile s) files (ou_stderr o)
      | (s, files, Err e) =>
          mkLogOutput SinkStderr files
            (ou_stderr o ++ [lit "OverCrow diagnostic log write failed: " ++ e ++ lit "; using stderr" ++ [10]; line])
      end
  | SinkStderr => mkLogOutput SinkStderr (ou_files o) (ou_stderr o ++ [line])
  end.

Definition write_lines (o : LogOutput) (writes : list (LogFaults * str)) : LogOutput :=
  foldl (λ o w, sink_write (fst w) (snd w) o) o writes.

(** The place of the logs ([log_directory_from_values]). *)
Definition log_directory_from_values (xdg_state_home home : option path) : path :=
  match opt_filter path_is_absolute xdg_state_home with
  | Some root => path_join root (lit "overcrow/logs")
  | None =>
      match opt_filter path_is_absolute home with
      | Some root => path_join root (lit ".local/state/overcrow/logs")
      | None => []
      end
  end.

(** * Reading the recent lines *)

(** [BufRead::lines]: the pieces that line feeds end, without the line feed
    and a carriage return before it; the last one may have none. *)
Fixpoint split_inclusive (bytes : list Z) : list (list Z) :=
  match bytes with
  | [] => []
  | b :: bytes =>
      if b =? 10 then [b] :: split_inclusive bytes
      else match split_inclusive bytes with
           | [] => [[b]]
           | l :: ls => (b :: l) :: ls
           end
  end.

Definition strip_line_end (l : list Z) : list Z :=
  match strip_suffix [10] l with
  | Some l => default l (strip_suffix [13] l)
  | None => l
  end.

Definition buf_lines (bytes : list Z) : list (list Z) := strip_line_end <$> split_inclusive bytes.

(** [str::split_once]. *)
Fixpoint split_once (c : char) (s : str) : option (str * str) :=
  match s with
  | [] => None
  | d :: s => if d =? c then Some ([], s) else (λ p, (d :: fst p, snd p)) <$> split_once c s
  end.

Section reading.
(** [parse::<DateTime<Utc>>]. *)
Variable parse_timestamp : str → option Z.

Definition parse_line (bytes : list Z) : result str (Z * str) :=
  line ← ok_or (lit "stream did not contain valid UTF-8") (from_utf8 bytes);
  if MAX_LINE_BYTES <? saturating_add u64_max (str_len line) 1 then Err (lit "diagnostic line exceeds its size limit")
  else
    p ← ok_or (lit "diagnostic timestamp is missing") (split_once 32 line);
    timestamp ← ok_or (lit "invalid timestamp") (parse_timestamp (fst p));
    Ok (timestamp, line).

(** One line of [read_safe_lines]: the oldest makes room. *)
Definition push_line (limit : nat) (lines : list (Z * str)) (entry : Z * str) : list (Z * str) :=
  (if bool_decide (length lines = limit) then drop 1 lines else lines) ++ [entry].

Fixpoint read_lines (limit : nat) (lines : list (Z * str)) (l : list (list Z)) : result str (list (Z * str)) :=
  match l with
  | [] => Ok lines
  | bytes :: l => entry ← parse_line bytes; read_lines limit (push_line limit lines entry) l
  end.

(** [read_safe_lines] of a file, when opening and reading it may fail. *)
Definition read_safe_lines (failure : option str) (f : option file) (limit : nat) (lines : list (Z * str)) :
    result str (list (Z * str)) :=
  match failure, f with
  | Some e, _ => Err e
  | None, None => Ok lines
  | None, Some f =>
      validate_private_file_metadata f;;
      if MAX_FILE_BYTES <? file_length f then Err (lit "diagnostic log exceeds its size limit")
      else read_lines limit lines (buf_lines (fl_content f))
  end.

Fixpoint read_generations (failures : nat → option str) (files : log_files) (limit : nat) (generations : list nat)
    (lines : list (Z * str)) : result str (list (Z * str)) :=
  match generations with
  | [] => Ok lines
  | g :: generations =>
      lines ← read_safe_lines (failures g) (files !! g) limit lines;
      read_generations failures files limit generations lines
  end.

(** The lines of a component, oldest file first. *)
Definition read_component (failures : nat → option str) (files : log_files) (limit : nat) : result str (list (Z * str)) :=
  read_generations failures files limit (rev (seq 0 (S ARCHIVE_COUNT))) [].

Fixpoint read_components (failures : Component → nat → option str) (files : Component → log_files) (limit : nat)
    (components : list Component) (entries : list (Z * str)) : result str (list (Z * str)) :=
  match components with
  | [] => Ok entries
  | c :: components =>
      lines ← read_component (failures c) (files c) limit;
      read_components failures files limit components (entries ++ lines)
  end.

(** A directory as [symlink_metadata] finds it: whether it is one, and its
    mode. *)
Definition validate_private_directory_metadata (m : bool * Z) : result str unit :=
  if negb (fst m) || negb (Z.land (snd m) 4095 =? 448 (* 0o700 *))
  then Err (lit "diagnostic log directory must be a regular 0700 directory") else Ok tt.

Definition entry_key (e : Z * str) : Z * str := e.

Definition read_recent_logs_in (metadata parent_metadata : result IoError (bool * Z)) (directory : path)
    (failures : Component → nat → option str) (files : Component → log_files) (limit : nat) : result str (list str) :=
  match limit, metadata with
  | O, _ => Ok []
  | _, Err e => if io_not_found e then Ok [] else Err (io_text e)
  | _, Ok m =>
      validate_private_directory_metadata m;;
      (if controlled_parent directory then
         match parent_metadata with
         | Ok p => validate_private_directory_metadata p
         | Err e => Err (io_text e)
         end
       else Ok tt);;
      entries ← read_components failures files limit all_components [];
      let entries := sort_by_key entry_key entries in
      Ok (snd <$> drop (length entries - limit) entries)
  end.
End reading.

(** * What a line is *)

Definition plain (c : char) : Prop := is_control c = false.

Lemma append_bounded_app output value maximum :
  ∃ p, p `prefix_of` value ∧ append_bounded output value maximum = output ++ p ∧
    (str_len output ≤ maximum → str_len (output ++ p) ≤ maximum) ∧
    (str_len output + str_len value ≤ maximum → p = value).
Proof.
  unfold append_bounded. destruct (Z.leb_spec maximum (str_len output)) as [H|H].
  - exists []. rewrite app_nil_r. split_and!; [apply prefix_nil|done|done|].
    intros Hs. destruct value as [|c v]; [done|]. rewrite str_len_cons in Hs.
    pose proof (len_utf8_bounds c). pose proof (str_len_nonneg v). lia.
  - set (e := Z.min (str_len value) (maximum - str_len output)).
    pose proof (str_len_nonneg value) as Hv.
    destruct (slice_to_boundary_spec (Z.to_nat e) value e) as (Hp & Hl & Hm); [lia|].
    exists (slice_to_boundary (Z.to_nat e) value e). split_and!; [done|done|rewrite str_len_app; lia|].
    intros Hs. destruct Hp as [k Hk]. specialize (Hm value ltac:(done) ltac:(lia)).
    rewrite Hk in Hm at 1. rewrite str_len_app in Hm.
    destruct k as [|c k]; [by rewrite app_nil_r in Hk|]. rewrite str_len_cons in Hm.
    pose proof (len_utf8_bounds c). pose proof (str_len_nonneg k). lia.
Qed.

Lemma prefix_Forall {A} (P : A → Prop) p l : p `prefix_of` l → Forall P l → Forall P p.
Proof. intros [k ->] [H _]%Forall_app. done. Qed.

Lemma append_bounded_Forall P output value maximum :
  Forall P output → Forall P value → Forall P (append_bounded output value maximum).
Proof.
  intros Ho Hv. destruct (append_bounded_app output value maximum) as (p & Hp & -> & _).
  apply Forall_app. split; [done|]. by eapply prefix_Forall.
Qed.

Lemma append_bounded_fits output value maximum :
  str_len output ≤ maximum → str_len (append_bounded output value maximum) ≤ maximum.
Proof. intros Ho. destruct (append_bounded_app output value maximum) as (p & _ & -> & H & _). auto. Qed.

Lemma append_bounded_whole output value maximum :
  str_len output + str_len value ≤ maximum → append_bounded output value maximum = output ++ value.
Proof. intros Ho. destruct (append_bounded_app output value maximum) as (p & _ & -> & _ & H). by rewrite H. Qed.

Lemma truncate_utf8_spec value maximum :
  0 ≤ maximum → truncate_utf8 value maximum `prefix_of` value ∧ str_len (truncate_utf8 value maximum) ≤ maximum ∧
  ∀ q, q `prefix_of` value → str_len q ≤ maximum → q `prefix_of` truncate_utf8 value maximum.
Proof.
  intros Hm. unfold truncate_utf8. pose proof (str_len_nonneg value). set (e := Z.min (str_len value) maximum).
  destruct (slice_to_boundary_spec (Z.to_nat e) value e) as (Hp & Hl & Hq); [lia|]. split_and!; [done|lia|].
  intros q Hqv Hqm. destruct (prefix_weak_total _ _ _ Hqv Hp) as [?|[k Hk]]; [done|].
  assert (str_len q ≤ str_len value) as Hle
    by (destruct Hqv as [j ->]; rewrite str_len_app; pose proof (str_len_nonneg j); lia).
  specialize (Hq q Hqv ltac:(lia)). rewrite Hk in Hq. rewrite str_len_app in Hq.
  destruct k as [|c k]; [by rewrite Hk, app_nil_r|]. rewrite str_len_cons in Hq.
  pose proof (len_utf8_bounds c). pose proof (str_len_nonneg k). lia.
Qed.

Lemma hex_digits_plain fuel z : 0 ≤ z → Forall (λ c, plain c ∧ is_scalar c = true) (hex_digits fuel z).
Proof.
  revert z. induction fuel as [|fuel IH]; intros z Hz; cbn; [done|]. apply Forall_app. split.
  - destruct (z <? 16); [done|]. apply IH. by apply Z.div_pos.
  - constructor; [|done]. pose proof (Z.mod_pos_bound z 16 ltac:(lia)).
    unfold hex_digit_char, plain, is_control, is_scalar.
    destruct (Z.ltb_spec (z mod 16) 10); split;
      repeat match goal with |- context [?a <=? ?b] => destruct (Z.leb_spec a b) end; try done; lia.
Qed.

(** What escaping makes of a character is text on one line. *)
Lemma escape_plain c : is_scalar c = true → Forall (λ c, plain c ∧ is_scalar c = true) (escape c).
Proof.
  intros Hc. unfold escape.
  destruct (c =? 10); [by repeat constructor|]. destruct (c =? 13); [by repeat constructor|].
  destruct (c =? 9); [by repeat constructor|]. destruct (is_control c) eqn:E; [|by repeat constructor].
  apply Forall_app; split; [by repeat constructor|]. apply Forall_app; split; [|by repeat constructor].
  apply hex_digits_plain. unfold is_scalar in Hc. destruct (Z.leb_spec 0 c); [done|]. done.
Qed.

Lemma escape_length c : 1 ≤ str_len (escape c).
Proof.
  unfold escape. destruct (c =? 10); [done|]. destruct (c =? 13); [done|]. destruct (c =? 9); [done|].
  destruct (is_control c).
  - rewrite str_len_app. pose proof (str_len_nonneg (hex_digits 8 c ++ lit "}")). change (str_len (lit "\u{")) with 3. lia.
  - rewrite str_len_cons. pose proof (len_utf8_bounds c). pose proof (str_len_nonneg []). lia.
Qed.

Lemma write_str_Forall P maximum output value :
  Forall P output → Forall (λ c, Forall P (escape c)) value → Forall P (write_str maximum output value).
Proof.
  intros Ho Hv. revert output Ho. induction Hv as [|c value Hc Hv IH]; intros output Ho; cbn; [done|].
  destruct (_ <=? _); [|apply IH]; by apply append_bounded_Forall.
Qed.

Lemma write_str_fits maximum output value :
  str_len output ≤ maximum → str_len (write_str maximum output value) ≤ maximum.
Proof.
  revert output. induction value as [|c value IH]; intros output Ho; cbn; [done|].
  destruct (_ <=? _); [|apply IH]; by apply append_bounded_fits.
Qed.

Lemma write_str_whole maximum output value :
  str_len output + str_len (value ≫= escape) ≤ maximum → write_str maximum output value = output ++ (value ≫= escape).
Proof.
  revert output. induction value as [|c value IH]; intros output Ho; cbn [write_str].
  - by rewrite app_nil_r.
  - rewrite bind_cons, str_len_app in Ho. pose proof (str_len_nonneg (value ≫= escape)) as Hv.
    rewrite append_bounded_whole by lia. destruct (Z.leb_spec maximum (str_len (output ++ escape c))) as [H|H].
    + rewrite str_len_app in H. rewrite bind_cons. rewrite app_assoc. destruct value as [|d value]; [by rewrite app_nil_r|].
      exfalso. rewrite bind_cons, str_len_app in Ho, Hv. pose proof (str_len_nonneg (value ≫= escape)).
      pose proof (escape_length d). lia.
    + rewrite IH by (rewrite str_len_app in *; lia). by rewrite bind_cons, app_assoc.
Qed.

(** Details are sanitized to one bounded line, and are the escaped text
    itself when that fits. *)
Lemma sanitized_ok details :
  Forall (λ d, Forall (λ c, is_scalar c = true) d) details →
  Forall (λ c, plain c ∧ is_scalar c = true) (sanitized details) ∧ str_len (sanitized details) ≤ MAX_DETAILS_BYTES.
Proof.
  unfold sanitized. intros Hd.
  enough (∀ output, Forall (λ c, plain c ∧ is_scalar c = true) output ∧ str_len output ≤ MAX_DETAILS_BYTES →
    Forall (λ c, plain c ∧ is_scalar c = true) (foldl (write_str MAX_DETAILS_BYTES) output details) ∧
    str_len (foldl (write_str MAX_DETAILS_BYTES) output details) ≤ MAX_DETAILS_BYTES) as H by (apply H; by split).
  induction Hd as [|d details Hd _ IH]; intros output [Ho Hl]; cbn; [done|]. apply IH.
  split; [|by apply write_str_fits]. apply write_str_Forall; [done|].
  eapply Forall_impl; [exact Hd|]. apply escape_plain.
Qed.

Lemma sanitized_whole details :
  str_len (concat details ≫= escape) ≤ MAX_DETAILS_BYTES → sanitized details = concat details ≫= escape.
Proof.
  unfold sanitized. enough (∀ output, str_len output + str_len (concat details ≫= escape) ≤ MAX_DETAILS_BYTES →
    foldl (write_str MAX_DETAILS_BYTES) output details = output ++ (concat details ≫= escape)) as H by apply (H []).
  induction details as [|d details IH]; intros output Ho; cbn in *; [by rewrite app_nil_r|].
  rewrite bind_app, str_len_app in Ho. pose proof (str_len_nonneg (concat details ≫= escape)).
  rewrite write_str_whole by lia. rewrite IH by (rewrite str_len_app; lia). by rewrite bind_app, app_assoc.
Qed.

(** An event as the queue holds it. *)
Definition clean_event (e : QueuedEvent) : Prop :=
  Forall (λ c, plain c ∧ is_scalar c = true) (qe_event e ++ qe_details e).

(** Text of a timestamp: printable, without a space and short. *)
Definition timestamp_text (s : str) : Prop :=
  Forall (λ c, plain c ∧ is_scalar c = true) s ∧ 32 ∉ s ∧ str_len s < 64.

Lemma component_name_plain c : Forall (λ c, plain c ∧ is_scalar c = true) (component_name c).
Proof. destruct c; by repeat constructor. Qed.

Lemma level_name_plain l : Forall (λ c, plain c ∧ is_scalar c = true) (level_name l).
Proof. destruct l; by repeat constructor. Qed.

Lemma validated_event_name_plain event :
  Forall (λ c, plain c ∧ is_scalar c = true) (validated_event_name event).
Proof.
  unfold validated_event_name. destruct (_ && _ && _) eqn:E; [|by repeat constructor].
  apply andb_true_iff in E as [_ E]. apply Forall_forall. intros c Hc.
  rewrite forallb_forall in E. specialize (E c (proj1 (list_elem_of_In _ _) Hc)).
  unfold event_character, is_ascii_lower, is_ascii_digit in E. unfold plain, is_control, is_scalar.
  repeat match goal with
  | H : context [?a <=? ?b] |- _ => destruct (Z.leb_spec a b); cbn in H
  | H : context [?a =? ?b] |- _ => destruct (Z.eqb_spec a b); cbn in H
  end; try done; split;
  repeat match goal with |- context [?a <=? ?b] => destruct (Z.leb_spec a b) end; try done; lia.
Qed.

Lemma digits_plain s : Forall (λ c, is_ascii_digit c = true) s → Forall (λ c, plain c ∧ is_scalar c = true) s.
Proof.
  intros H. eapply Forall_impl; [exact H|]. intros c Hc. unfold is_ascii_digit in Hc. unfold plain, is_control, is_scalar.
  apply andb_true_iff in Hc as [?%Z.leb_le ?%Z.leb_le].
  repeat match goal with |- context [?a <=? ?b] => destruct (Z.leb_spec a b) end; try done; lia.
Qed.

Lemma dropped_event_clean timestamp count : 0 ≤ count → clean_event (dropped_event timestamp count).
Proof.
  intros Hc. unfold clean_event. cbn [dropped_event qe_event qe_details]. apply Forall_app; split; [by repeat constructor|].
  apply Forall_app; split; [by repeat constructor|]. by apply digits_plain, show_Z_digits.
Qed.

(** A line is its timestamp, more text on the same line, and the line feed
    that ends it; it never exceeds [MAX_LINE_BYTES]. *)
Lemma format_line_shape timestamp_at component e :
  timestamp_text (timestamp_at (qe_timestamp e)) → clean_event e →
  ∃ rest, format_line timestamp_at component e = (timestamp_at (qe_timestamp e) ++ 32 :: rest) ++ [10] ∧
    Forall (λ c, plain c ∧ is_scalar c = true) (timestamp_at (qe_timestamp e) ++ 32 :: rest) ∧
    str_len (timestamp_at (qe_timestamp e) ++ 32 :: rest) < MAX_LINE_BYTES.
Proof.
  intros (Ht & _ & Hl) Hclean. unfold clean_event in Hclean. apply Forall_app in Hclean as [He Hd].
  unfold format_line.
  set (head := timestamp_at (qe_timestamp e)) in *.
  set (line1 := head ++ [32] ++ _).
  assert (∃ r, line1 = head ++ 32 :: r ∧ Forall (λ c, plain c ∧ is_scalar c = true) r) as (r & E1 & Hr).
  { eexists. split; [done|]. repeat first [apply Forall_app; split | apply Forall_cons; split; [done|]];
      first [apply level_name_plain|apply component_name_plain|done|by repeat constructor]. }
  rewrite E1. clear line1 E1.
  set (line2 := if bool_decide _ then _ else _).
  assert (∃ r, line2 = head ++ 32 :: r ∧ Forall (λ c, plain c ∧ is_scalar c = true) r) as (r2 & E2 & Hr2).
  { subst line2. case_bool_decide; [by exists r|].
    destruct (append_bounded_app ((head ++ 32 :: r) ++ [32]) (qe_details e) (MAX_LINE_BYTES - 1)) as (p & Hp & -> & _).
    exists ((r ++ [32]) ++ p). rewrite <- !app_assoc. split; [done|].
    apply Forall_app; split; [done|]. apply Forall_app; split; [by repeat constructor|]. by eapply prefix_Forall. }
  rewrite E2. clear line2 E2.
  assert (Forall (λ c, plain c ∧ is_scalar c = true) (head ++ 32 :: r2)) as Hall
    by (apply Forall_app; split; [done|by constructor]).
  destruct (Z.leb_spec MAX_LINE_BYTES (str_len (head ++ 32 :: r2))) as [H|H]; [|by exists r2].
  assert (0 ≤ MAX_LINE_BYTES - 1) as Hm by (unfold MAX_LINE_BYTES; lia).
  destruct (truncate_utf8_spec (head ++ 32 :: r2) _ Hm) as (Hp & Hs & Hmax).
  assert (head ++ [32] `prefix_of` truncate_utf8 (head ++ 32 :: r2) (MAX_LINE_BYTES - 1)) as [k Hk].
  { apply Hmax; [exists r2; by rewrite <- app_assoc|]. rewrite str_len_app. change (str_len [32]) with 1.
    unfold MAX_LINE_BYTES. lia. }
  exists k. rewrite <- app_assoc in Hk. cbn in Hk. rewrite <- Hk. split_and!; [done| |lia].
  by eapply prefix_Forall.
Qed.

(** * What becomes of an event *)

Definition offered_event (s : LogStep) : option QueuedEvent :=
  match s with
  | LogCall now level event details => Some (mkQueuedEvent now level (validated_event_name event) (sanitized details))
  | _ => None
  end.

Definition record_of_event (r : LogRecord) : option QueuedEvent :=
  match r with RecEvent e => Some e | RecDropped _ _ => None end.

Definition reported (r : LogRecord) : Z := match r with RecEvent _ => 0 | RecDropped _ count => count end.
Definition total_reported (records : list LogRecord) : Z := foldr (λ r n, reported r + n) 0 records.

(** The event the worker has taken and not yet written. *)
Definition in_hand (p : WorkerPhase) : list QueuedEvent := match p with WorkerWrite e _ => [e] | _ => [] end.
Definition phase_ok (p : WorkerPhase) : Prop :=
  match p with WorkerWrite _ next => in_hand next = [] | _ => True end.

(** Of the events [offered] so far, those [accepted] are written, in hand or
    queued, in order, and the others are counted. *)
Record log_inv (q : LogQueue) (offered : list QueuedEvent) (records : list LogRecord) : Prop := mkLogInv {
  li_phase : phase_ok (lq_worker q);
  li_capacity : (length (lq_events q) ≤ QUEUE_CAPACITY)%nat;
  li_dropped : 0 ≤ lq_dropped q;
  li_reported : Forall (λ r, 0 ≤ reported r) records;
  li_accounted : ∃ accepted, accepted `sublist_of` offered ∧
    accepted = omap record_of_event records ++ in_hand (lq_worker q) ++ lq_events q ∧
    Z.of_nat (length offered) = Z.of_nat (length accepted) + lq_dropped q + total_reported records
}.

Lemma total_reported_app a b : total_reported (a ++ b) = total_reported a + total_reported b.
Proof. unfold total_reported. induction a as [|r a IH]; cbn; [done|]. rewrite IH. lia. Qed.

Lemma total_reported_nonneg records : Forall (λ r, 0 ≤ reported r) records → 0 ≤ total_reported records.
Proof. unfold total_reported. induction 1; cbn; lia. Qed.

#[global] Arguments total_reported : simpl never.

Lemma write_dropped_eq timestamp q :
  snd (write_dropped timestamp q) = q <| lq_dropped := 0 |> ∧
  total_reported (fst (write_dropped timestamp q)) = lq_dropped q ∧
  omap record_of_event (fst (write_dropped timestamp q)) = [] ∧
  (0 ≤ lq_dropped q → Forall (λ r, 0 ≤ reported r) (fst (write_dropped timestamp q))).
Proof.
  unfold write_dropped. destruct q as [l d s a w]. cbn. destruct (Z.eqb_spec d 0) as [->|H]; [done|]. cbn. split_and!; [done|unfold total_reported; cbn; lia|done|].
  intros. by repeat constructor.
Qed.

Lemma log_inv_step q offered records s more q' :
  log_inv q offered records → log_step q s = Some (more, q') →
  Z.of_nat (length (offered ++ option_list (offered_event s))) ≤ u64_max →
  log_inv q' (offered ++ option_list (offered_event s)) (records ++ more).
Proof.
  intros [Hp Hc Hd Hr (acc & Hsub & Hacc & Hn)] Hs Hmax. pose proof (total_reported_nonneg _ Hr) as Hr0.
  destruct s as [now level event details| | |now|]; cbn [log_step offered_event option_list] in *;
    rewrite ?app_nil_r in *.
  - destruct (lq_senders q); [|done]. injection Hs as <- <-. rewrite app_nil_r. unfold enqueue.
    set (e := mkQueuedEvent _ _ _ _) in *. set (refused := match lq_worker q with WorkerStopped => _ | _ => _ end).
    rewrite length_app in Hmax. cbn in Hmax.
    destruct refused eqn:Er; (split; cbn; [done| | |done|]); rewrite ?length_app.
    + done.
    + unfold saturating_add, u64_max. lia.
    + exists acc. split_and!; [by apply sublist_inserts_r|done|]. unfold saturating_add. cbn. lia.
    + cbn. subst refused. destruct (lq_worker q); try done; apply Nat.leb_gt in Er; lia.
    + done.
    + exists (acc ++ [e]). split_and!; [by apply sublist_app|by rewrite Hacc, <- !app_assoc|].
      rewrite length_app. cbn. lia.
  - injection Hs as <- <-. rewrite app_nil_r. split; cbn; eauto.
  - injection Hs as <- <-. rewrite app_nil_r. split; cbn; eauto.
  - unfold worker_step in Hs. destruct (lq_worker q) as [| |[|n]|e next| |] eqn:Ew; cbn [in_hand app] in *.
    + injection Hs as <- <-. rewrite app_nil_r. split; cbn; [by destruct (lq_shutdown q)|done..|].
      exists acc. split_and!; [done| |done]. by destruct (lq_shutdown q).
    + destruct (lq_events q) as [|e events] eqn:Ee.
      * destruct (lq_senders q); [done|]. injection Hs as <- <-. rewrite app_nil_r.
        split; cbn; rewrite ?Ee; eauto.
      * injection Hs as <- <-. rewrite app_nil_r. split; cbn in *; [done|lia|done..|]. exists acc. split_and!; done.
    + injection Hs as <- <-. rewrite app_nil_r. split; cbn; eauto.
    + destruct (lq_events q) as [|e events] eqn:Ee.
      * injection Hs as <- <-. rewrite app_nil_r. split; cbn; rewrite ?Ee; eauto.
      * injection Hs as <- <-. rewrite app_nil_r. split; cbn in *; [done|lia|done..|]. exists acc. split_and!; done.
    + destruct (write_dropped_eq (qe_timestamp e) q) as (E1 & E2 & E3 & E4).
      destruct (write_dropped (qe_timestamp e) q) as [reports q1]. cbn in *. subst q1. injection Hs as <- <-.
      split; cbn; [by destruct next|done..| |].
      * rewrite !Forall_app. split_and!; [done|by apply E4|]. repeat constructor. done.
      * exists acc. rewrite !omap_app, E3, !total_reported_app, E2. change (total_reported [RecEvent e]) with 0. cbn. rewrite Hp. split_and!; [done| |lia].
        by rewrite Hacc, <- !app_assoc.
    + destruct (write_dropped_eq now q) as (E1 & E2 & E3 & E4).
      destruct (write_dropped now q) as [reports q1]. cbn in *. subst q1. injection Hs as <- <-.
      split; cbn; [done|done|done| |].
      * rewrite Forall_app. split; [done|by apply E4].
      * exists acc. rewrite omap_app, E3, total_reported_app, E2, app_nil_r. split_and!; [done|done|lia].
    + done.
  - destruct (lq_worker q) eqn:Ew; try done. case_bool_decide; [|done]. injection Hs as <- <-.
    rewrite app_nil_r. split; cbn; eauto.
Qed.

Lemma log_run_inv q offered records steps more q' :
  log_inv q offered records → log_run q steps = Some (more, q') →
  Z.of_nat (length (offered ++ omap offered_event steps)) ≤ u64_max →
  log_inv q' (offered ++ omap offered_event steps) (records ++ more).
Proof.
  revert q offered records more. induction steps as [|s steps IH]; intros q offered records more Hi Hrun Hmax; cbn [log_run] in Hrun.
  { injection Hrun as <- <-. cbn. by rewrite !app_nil_r. }
  destruct (log_step q s) as [[r1 q1]|] eqn:E1; [|done]. cbn in Hrun.
  destruct (log_run q1 steps) as [[r2 q2]|] eqn:E2; [|done]. cbn in Hrun. injection Hrun as <- <-.
  assert (omap offered_event (s :: steps) = option_list (offered_event s) ++ omap offered_event steps) as E
    by (cbn; by destruct (offered_event s)).
  rewrite E in Hmax |- *. rewrite !app_assoc in *.
  apply (IH q1); [|done..]. apply (log_inv_step q); [done..|]. rewrite length_app in Hmax. lia.
Qed.

Lemma log_inv_new : log_inv queue_new [] [].
Proof. split; cbn; [done|lia|done|done|]. by exists []. Qed.

(** C25 No event is lost without a trace: however the threads that log and the
    worker interleave, of the events offered exactly the accepted ones have
    been written, in the order they were offered, or are in the worker's hand
    or in the queue, which never exceeds its capacity; and the others are as
    many as the reports of dropped events and the present count say. *)
Theorem log_events_accounted steps records q
    (Hrun : log_run queue_new steps = Some (records, q))
    (Hmax : Z.of_nat (length (omap offered_event steps)) ≤ u64_max) :
  (length (lq_events q) ≤ QUEUE_CAPACITY)%nat ∧
  ∃ accepted, accepted `sublist_of` omap offered_event steps ∧
    accepted = omap record_of_event records ++ in_hand (lq_worker q) ++ lq_events q ∧
    Z.of_nat (length (omap offered_event steps)) =
      Z.of_nat (length accepted) + lq_dropped q + total_reported records.
Proof. destruct (log_run_inv _ _ _ _ _ _ log_inv_new Hrun Hmax) as [_ ? _ _ ?]. done. Qed.

(** The lines of what is written are single lines. *)
Definition step_scalars (s : LogStep) : Prop :=
  match s with LogCall _ _ _ details => Forall (Forall (λ c, is_scalar c = true)) details | _ => True end.

Definition queue_clean (q : LogQueue) : Prop :=
  0 ≤ lq_dropped q ∧ Forall clean_event (in_hand (lq_worker q) ++ lq_events q) ∧ phase_ok (lq_worker q).

Lemma write_dropped_clean timestamp q :
  0 ≤ lq_dropped q → Forall (λ r, clean_event (record_event r)) (fst (write_dropped timestamp q)).
Proof.
  intros Hd. unfold write_dropped. destruct (_ =? 0); [done|]. apply Forall_singleton.
  by apply dropped_event_clean.
Qed.

Lemma log_step_clean q s records q' :
  step_scalars s → queue_clean q → log_step q s = Some (records, q') →
  queue_clean q' ∧ Forall (λ r, clean_event (record_event r)) records.
Proof.
  intros Hs Hq Hstep. pose proof Hq as (Hd & He & Hp). apply Forall_app in He as [Hh He].
  unfold queue_clean in *. destruct s as [now level event details| | |now|]; cbn [log_step] in *.
  - destruct (lq_senders q); [|done]. injection Hstep as <- <-. split; [|done]. unfold enqueue.
    destruct (match lq_worker q with WorkerStopped => _ | _ => _ end); cbn.
    + split_and!; [unfold saturating_add, u64_max; lia|by apply Forall_app|done].
    + split_and!; [done| |done]. rewrite !Forall_app. split_and!; [done..|]. apply Forall_singleton.
      unfold clean_event. cbn. apply Forall_app. split; [apply validated_event_name_plain|by apply sanitized_ok].
  - injection Hstep as <- <-. cbn. split; [|done]. by rewrite Forall_app.
  - injection Hstep as <- <-. cbn. split; [|done]. by rewrite Forall_app.
  - unfold worker_step in Hstep. destruct (lq_worker q) as [| |[|n]|e next| |] eqn:Ew; cbn [in_hand app] in *.
    + injection Hstep as <- <-. cbn. by destruct (lq_shutdown q).
    + destruct (lq_events q) as [|e events] eqn:Ee; [destruct (lq_senders q); [done|]|];
        injection Hstep as <- <-; cbn; rewrite ?Ee; done.
    + by injection Hstep as <- <-.
    + destruct (lq_events q) as [|e events] eqn:Ee; injection Hstep as <- <-; cbn; rewrite ?Ee; done.
    + pose proof (write_dropped_clean (qe_timestamp e) q Hd) as Hw.
      destruct (write_dropped_eq (qe_timestamp e) q) as (E1 & _). destruct (write_dropped _ q) as [reports q1].
      cbn in *. subst q1. injection Hstep as <- <-. cbn. rewrite Hp. split_and!; [done|done|by destruct next|].
      apply Forall_app. split; [done|]. apply Forall_singleton. by inversion Hh.
    + pose proof (write_dropped_clean now q Hd) as Hw.
      destruct (write_dropped_eq now q) as (E1 & _). destruct (write_dropped _ q) as [reports q1].
      cbn in *. subst q1. by injection Hstep as <- <-.
    + done.
  - destruct (lq_worker q) eqn:Ew; try done. case_bool_decide; [|done]. injection Hstep as <- <-. cbn. done.
Qed.

Lemma log_run_clean q steps records q' :
  Forall step_scalars steps → queue_clean q → log_run q steps = Some (records, q') →
  Forall (λ r, clean_event (record_event r)) records.
Proof.
  intros Hs. revert q records. induction Hs as [|s steps Hs _ IH]; intros q records Hq Hrun; cbn [log_run] in Hrun.
  { by injection Hrun as <- <-. }
  destruct (log_step q s) as [[r1 q1]|] eqn:E1; [|done]. cbn in Hrun.
  destruct (log_run q1 steps) as [[r2 q2]|] eqn:E2; [|done]. cbn in Hrun. injection Hrun as <- <-.
  destruct (log_step_clean _ _ _ _ Hs Hq E1) as [Hq1 ?]. apply Forall_app. split; [done|]. by apply (IH q1).
Qed.

(** One event, one line: whatever text is logged, everything the worker
    writes is a single line, ended by its only line feed, of at most
    [MAX_LINE_BYTES] bytes, and begins with its timestamp. *)
Theorem log_lines_single timestamp_at component steps records q
    (Htime : ∀ t, timestamp_text (timestamp_at t)) (Htext : Forall step_scalars steps)
    (Hrun : log_run queue_new steps = Some (records, q)) :
  Forall (λ r, ∃ rest,
    format_line timestamp_at component (record_event r) =
      (timestamp_at (qe_timestamp (record_event r)) ++ 32 :: rest) ++ [10] ∧
    10 ∉ timestamp_at (qe_timestamp (record_event r)) ++ 32 :: rest ∧
    str_len (format_line timestamp_at component (record_event r)) ≤ MAX_LINE_BYTES) records.
Proof.
  assert (queue_clean queue_new) as Hnew by (split_and!; cbn; done).
  eapply Forall_impl; [by eapply log_run_clean|]. intros r Hr.
  destruct (format_line_shape timestamp_at component (record_event r) (Htime _) Hr) as (rest & E & Hp & Hl).
  exists rest. split_and!; [done| |].
  - intros Hin. rewrite Forall_forall in Hp. by destruct (Hp _ Hin).
  - rewrite E, str_len_app. change (str_len [10]) with 1. lia.
Qed.

(** * Shutdown *)

(** The worker alone, until it stops or waits for good. *)
Fixpoint run_worker (fuel : nat) (now : Z) (q : LogQueue) : list LogRecord * LogQueue :=
  match fuel with
  | O => ([], q)
  | S fuel =>
      match match worker_step now q with Some r => Some r | None => log_step q LogTimeout end with
      | Some (records, q) => let '(more, q) := run_worker fuel now q in (records ++ more, q)
      | None => ([], q)
      end
  end.

(** The worker is in its first loop. *)
Definition in_loop (p : WorkerPhase) : Prop :=
  match p with WorkerLoop | WorkerReceive | WorkerWrite _ WorkerLoop => True | _ => False end.

Definition stopped_clean (now : Z) (q : LogQueue) (expected : list QueuedEvent) (r : list LogRecord * LogQueue) : Prop :=
  lq_worker (snd r) = WorkerStopped ∧ lq_events (snd r) = [] ∧ lq_dropped (snd r) = 0 ∧
  omap record_of_event (fst r) = expected ∧ total_reported (fst r) = lq_dropped q.

Definition turn (now : Z) (q : LogQueue) : option (list LogRecord * LogQueue) :=
  match worker_step now q with Some r => Some r | None => log_step q LogTimeout end.

(** A turn hands over what it writes and what remains to be done. *)
Lemma stopped_clean_turn now q records q1 fuel expected all :
  turn now q = Some (records, q1) → total_reported records + lq_dropped q1 = lq_dropped q →
  all = omap record_of_event records ++ expected →
  stopped_clean now q1 expected (run_worker fuel now q1) → stopped_clean now q all (run_worker (S fuel) now q).
Proof.
  intros Ht Hn -> (Hw & He & Hd & Ho & Hr). cbn [run_worker]. fold (turn now q). rewrite Ht.
  destruct (run_worker fuel now q1) as [more q2]. cbn [fst snd] in *.
  split_and!; cbn [fst snd]; [done..|by rewrite omap_app, Ho|]. rewrite total_reported_app. lia.
Qed.

Lemma run_final fuel now q :
  lq_worker q = WorkerFinal → lq_events q = [] → stopped_clean now q [] (run_worker (S fuel) now q).
Proof.
  intros Hw He. destruct (write_dropped_eq now q) as (E1 & E2 & E3 & _).
  destruct (write_dropped now q) as [reports q1] eqn:Ed. cbn in *.
  eapply (stopped_clean_turn now q reports (q1 <| lq_worker := WorkerStopped |>)).
  - unfold turn, worker_step. by rewrite Hw, Ed.
  - subst q1. cbn. lia.
  - by rewrite E3.
  - subst q1. destruct fuel; by split_and!.
Qed.

Lemma run_write fuel now q e next expected :
  lq_worker q = WorkerWrite e next →
  (∀ q1, lq_worker q1 = next → lq_events q1 = lq_events q → lq_shutdown q1 = lq_shutdown q →
     stopped_clean now q1 expected (run_worker fuel now q1)) →
  stopped_clean now q (e :: expected) (run_worker (S fuel) now q).
Proof.
  intros Hw Hnext. destruct (write_dropped_eq (qe_timestamp e) q) as (E1 & E2 & E3 & _).
  destruct (write_dropped (qe_timestamp e) q) as [reports q1] eqn:Ed. cbn in *.
  eapply (stopped_clean_turn now q (reports ++ [RecEvent e]) (q1 <| lq_worker := next |>)).
  - unfold turn, worker_step. by rewrite Hw, Ed.
  - subst q1. rewrite total_reported_app. change (total_reported [RecEvent e]) with 0. cbn. lia.
  - rewrite omap_app, E3. cbn. done.
  - apply Hnext; subst q1; done.
Qed.

Lemma run_drain now events : ∀ n fuel q,
  lq_worker q = WorkerDrain n → lq_events q = events → (length events ≤ n)%nat → (2 * length events + 2 ≤ fuel)%nat →
  stopped_clean now q events (run_worker fuel now q).
Proof.
  induction events as [|e events IH]; intros n fuel q Hw He Hn Hf; (destruct fuel as [|fuel]; [cbn in Hf; lia|]).
  - eapply (stopped_clean_turn now q [] (q <| lq_worker := WorkerFinal |>)); [|done|done|].
    + unfold turn, worker_step. rewrite Hw, He. by destruct n.
    + destruct fuel as [|fuel]; [cbn in Hf; lia|]. by apply run_final.
  - destruct n as [|n]; [cbn in Hn; lia|]. cbn in Hn, Hf.
    eapply (stopped_clean_turn now q [] (q <| lq_events := events |> <| lq_worker := WorkerWrite e (WorkerDrain n) |>)); [|done|done|].
    + unfold turn, worker_step. by rewrite Hw, He.
    + destruct fuel as [|fuel]; [lia|]. eapply run_write; [done|]. intros q1 H1 H2 _. cbn in H2.
      eapply IH; [done|done|lia|lia].
Qed.

Lemma run_loop now events fuel q :
  lq_worker q = WorkerLoop → lq_shutdown q = true → lq_events q = events → (length events ≤ QUEUE_CAPACITY)%nat →
  (2 * length events + 3 ≤ fuel)%nat → stopped_clean now q events (run_worker fuel now q).
Proof.
  intros Hw Hs He Hc Hf. destruct fuel as [|fuel]; [lia|].
  eapply (stopped_clean_turn now q [] (q <| lq_worker := WorkerDrain QUEUE_CAPACITY |>)); [|done|done|].
  - unfold turn, worker_step. by rewrite Hw, Hs.
  - apply (run_drain now events QUEUE_CAPACITY); [done|done|done|lia].
Qed.

(** C26 Shutting down ends, and loses nothing accepted: once the flag is set and
    nobody logs any more, the worker's own turns - at most two for each
    waiting event and six more, its waits timing out - end with it stopped,
    every event in hand and in the queue written in order, and every dropped
    one reported. *)
Theorem log_worker_stops now q fuel
    (Hphase : in_loop (lq_worker q)) (Hshutdown : lq_shutdown q = true)
    (Hcap : (length (lq_events q) ≤ QUEUE_CAPACITY)%nat) (Hfuel : (2 * length (lq_events q) + 6 ≤ fuel)%nat) :
  stopped_clean now q (in_hand (lq_worker q) ++ lq_events q) (run_worker fuel now q).
Proof.
  destruct (lq_worker q) as [| | |e next| |] eqn:Ew; try done; cbn [in_hand app].
  - apply run_loop; [done..|lia].
  - destruct fuel as [|fuel]; [lia|]. destruct (lq_events q) as [|e events] eqn:Ee; cbn in Hcap, Hfuel.
    + destruct (lq_senders q) eqn:Es.
      * eapply (stopped_clean_turn now q [] (q <| lq_worker := WorkerLoop |>)); [|done|done|].
        { unfold turn, worker_step, log_step. by rewrite Ew, Ee, Es. }
        apply run_loop; [done..|cbn; lia].
      * eapply (stopped_clean_turn now q [] (q <| lq_worker := WorkerDrain QUEUE_CAPACITY |>)); [|done|done|].
        { unfold turn, worker_step. by rewrite Ew, Ee, Es. }
        apply (run_drain now [] QUEUE_CAPACITY); [done|done|cbn; lia|cbn; lia].
    + eapply (stopped_clean_turn now q [] (q <| lq_events := events |> <| lq_worker := WorkerWrite e WorkerLoop |>)); [|done|done|].
      { unfold turn, worker_step. by rewrite Ew, Ee. }
      destruct fuel as [|fuel]; [lia|]. eapply run_write; [done|]. intros q1 H1 H2 H3. cbn in H2, H3.
      apply run_loop; [done|congruence|done|lia|lia].
  - destruct next; try done. destruct fuel as [|fuel]; [lia|]. eapply run_write; [done|]. intros q1 H1 H2 H3.
    apply run_loop; [done|congruence|done|lia|lia].
Qed.

(** * What the files keep *)

Definition content (files : log_files) (g : nat) : list Z := default [] (fl_content <$> files !! g).

(** All a component's files hold, oldest first. *)
Definition whole (files : log_files) : list Z := content files 3 ++ content files 2 ++ content files 1 ++ content files 0.

#[global] Arguments whole : simpl never.

Definition files_ok (files : log_files) : Prop :=
  ∀ g f, files !! g = Some f → (g ≤ ARCHIVE_COUNT)%nat ∧ file_length f ≤ MAX_FILE_BYTES.

Definition sink_ok (s : FileSink) (files : log_files) : Prop :=
  sk_open s = true → ∃ f, files !! 0%nat = Some f ∧ sk_size s = file_length f.

Section files.
Context (faults : LogFaults) (Hexists : ∀ g, lo_fails faults (OpExists g) = None).

Lemma log_exists_eq files g : log_exists faults files g = isSome (files !! g).
Proof using Hexists. unfold log_exists, attempt. by rewrite Hexists. Qed.

Lemma rename_next_ok files g :
  (g < 3)%nat → files !! S g = None → files_ok files →
  let '(files', r) := rename_next faults files g in
  files_ok files' ∧ whole files' = whole files ∧ (r = Ok tt → files' !! g = None).
Proof using Hexists.
  intros Hg Hnext Hok. unfold rename_next. rewrite log_exists_eq.
  destruct (files !! g) as [f|] eqn:Ef; cbn [isSome]; [|by split_and!].
  unfold attempt. destruct (lo_fails faults (OpRename g)); [by split_and!|]. split_and!.
  - intros h f' Hf'. destruct (decide (h = S g)) as [->|].
    + rewrite lookup_insert_eq in Hf'. injection Hf' as <-. destruct (Hok _ _ Ef). split; [unfold ARCHIVE_COUNT; lia|done].
    + rewrite lookup_insert_ne in Hf' by done. apply lookup_delete_Some in Hf' as [_ Hf']. by eapply Hok.
  - unfold whole, content. destruct g as [|[|[|g]]]; [..|lia];
      repeat (rewrite ?lookup_insert_eq, ?(lookup_insert_ne _ _ _ f), ?lookup_delete_eq, ?lookup_delete_ne by done);
      rewrite Ef, Hnext; cbn [fmap option_fmap option_map default from_option]; rewrite ?app_nil_l, ?app_nil_r; done.
  - intros _. rewrite lookup_insert_ne by lia. apply lookup_delete_eq.
Qed.

Lemma rename_all_ok files :
  files !! 3%nat = None → files_ok files →
  let '(files', r) := rename_all faults files (rev (seq 0 ARCHIVE_COUNT)) in
  files_ok files' ∧ whole files' = whole files ∧ (r = Ok tt → files' !! 0%nat = None).
Proof using Hexists.
  intros H3 Hok. change (rev (seq 0 ARCHIVE_COUNT)) with [2; 1; 0]%nat. cbn [rename_all].
  pose proof (rename_next_ok files 2 ltac:(lia) H3 Hok) as H. destruct (rename_next faults files 2) as [f2 [[]|e]];
    destruct H as (Hok2 & Hw2 & Hn2); [|by split_and!].
  pose proof (rename_next_ok f2 1 ltac:(lia) (Hn2 eq_refl) Hok2) as H. destruct (rename_next faults f2 1) as [f1 [[]|e]];
    destruct H as (Hok1 & Hw1 & Hn1); [|by rewrite Hw1, Hw2; split_and!].
  pose proof (rename_next_ok f1 0 ltac:(lia) (Hn1 eq_refl) Hok1) as H. destruct (rename_next faults f1 0) as [f0 [[]|e]];
    destruct H as (Hok0 & Hw0 & Hn0); rewrite Hw0, Hw1, Hw2; by split_and!.
Qed.

(** A rotation loses the oldest archive at most. *)
Lemma rotate_files_ok files :
  files_ok files →
  let '(files', r) := rotate_files faults files in
  files_ok files' ∧ (r = Ok tt → files' !! 0%nat = None) ∧
  ∃ lost, whole files = lost ++ whole files' ∧ (lost = [] ∨ lost = content files 3).
Proof using Hexists.
  intros Hok. unfold rotate_files. destruct (validate_archives faults files) as [[]|e];
    [|split_and!; [done|done|exists []; auto]].
  rewrite log_exists_eq. unfold ARCHIVE_COUNT at 1 2 3. destruct (files !! 3%nat) as [f|] eqn:E3; cbn [isSome].
  - destruct (attempt faults OpRemove); [|split_and!; [done|done|exists []; auto]].
    pose proof (rename_all_ok (delete 3%nat files)) as H.
    destruct (rename_all faults (delete 3%nat files) _) as [files' r].
    destruct H as (Hok' & Hw & Hn); [apply lookup_delete_eq| |].
    { intros g f' [_ Hf]%lookup_delete_Some. by eapply Hok. }
    split_and!; [done..|]. exists (content files 3). rewrite Hw. split; [|by right].
    unfold whole, content. by rewrite lookup_delete_eq, !lookup_delete_ne by done.
  - pose proof (rename_all_ok files E3 Hok) as H. destruct (rename_all faults files _) as [files' r].
    destruct H as (Hok' & Hw & Hn). split_and!; [done..|]. exists []. rewrite Hw. auto.
Qed.

Lemma open_log_file_ok files :
  files_ok files →
  let '(files', r) := open_log_file faults files in
  files_ok files' ∧ whole files' = whole files ∧
  (∀ size, r = Ok size → ∃ f, files' !! 0%nat = Some f ∧ size = file_length f) ∧
  (files !! 0%nat = None → content files' 0 = []).
Proof.
  intros Hok. unfold open_log_file.
  destruct (attempt faults (OpMetadata 0);; _) as [[]|e];
    [|split_and!; [done..|]; intros H0; unfold content; by rewrite H0].
  set (f := default _ (files !! 0%nat)).
  assert (∀ m, let f' := mkFile (fl_regular f) m (fl_content f) in
    files_ok (<[0%nat:=f']> files) ∧ whole (<[0%nat:=f']> files) = whole files ∧
    (files !! 0%nat = None → content (<[0%nat:=f']> files) 0 = [])) as Hins.
  { intros m f'. split_and!.
    - intros g h Hh. destruct (decide (g = 0%nat)) as [->|]; [|rewrite lookup_insert_ne in Hh by done; by eapply Hok].
      rewrite lookup_insert_eq in Hh. injection Hh as <-. split; [lia|]. subst f' f. unfold file_length. cbn.
      destruct (files !! 0%nat) as [h|] eqn:E; cbn; [|unfold MAX_FILE_BYTES; lia]. by apply (Hok 0%nat).
    - unfold whole, content. rewrite lookup_insert_eq, !lookup_insert_ne by done. subst f' f.
      by destruct (files !! 0%nat).
    - unfold content. rewrite lookup_insert_eq. subst f' f. by destruct (files !! 0%nat). }
  assert (f = mkFile (fl_regular f) (fl_mode f) (fl_content f)) as Ef by (by destruct f).
  destruct (if isSome (files !! 0%nat) then _ else _) as [[]|e].
  - set (f1 := if isSome _ then f else _).
    assert (∃ m, f1 = mkFile (fl_regular f) m (fl_content f)) as [m Em].
    { subst f1 f. destruct (files !! 0%nat) as [g|]; cbn [isSome]; [exists (fl_mode g); by destruct g|by exists PRIVATE_MODE]. }
    rewrite Em. destruct (Hins m) as (? & ? & ?). split_and!; [done|done| |done]. intros size Hs.
    apply result_bind_Ok in Hs as (_ & _ & Hs). apply result_bind_Ok in Hs as (_ & _ & Hs).
    destruct (_ <? _); [done|]. injection Hs as <-. eexists. rewrite lookup_insert_eq. done.
  - rewrite Ef. destruct (Hins (fl_mode f)) as (? & ? & ?). by split_and!.
Qed.

Lemma sink_rotate_ok s files :
  files_ok files →
  let '(s', files', r) := sink_rotate faults s files in
  files_ok files' ∧ (r = Ok tt → sk_open s' = true ∧ ∃ f, files' !! 0%nat = Some f ∧ sk_size s' = 0 ∧ fl_content f = []) ∧
  ∃ lost, whole files = lost ++ whole files' ∧ (lost = [] ∨ lost = content files 3).
Proof using Hexists.
  intros Hok. unfold sink_rotate. pose proof (rotate_files_ok files Hok) as H.
  destruct (rotate_files faults files) as [f1 [[]|e]]; destruct H as (Hok1 & Hn1 & lost & Hl & Hlost);
    [|split_and!; [done|done|eauto]].
  pose proof (open_log_file_ok f1 Hok1) as H. destruct (open_log_file faults f1) as [f2 [size|e]];
    destruct H as (Hok2 & Hw2 & Hf2 & Hc2); (split_and!; [done| |exists lost; by rewrite Hw2]); [|done].
  intros _. cbn. split; [done|]. destruct (Hf2 _ eq_refl) as (f & Hf & ->). exists f.
  specialize (Hc2 (Hn1 eq_refl)). unfold content in Hc2. rewrite Hf in Hc2. cbn in Hc2.
  split_and!; [done| |done]. unfold file_length. by rewrite Hc2.
Qed.
End files.

Lemma append_current files f line :
  files !! 0%nat = Some f → files_ok files → file_length f + Z.of_nat (length line) ≤ MAX_FILE_BYTES →
  files_ok (alter (append_file line) 0%nat files) ∧
  whole (alter (append_file line) 0%nat files) = whole files ++ line ∧
  ∃ f', alter (append_file line) 0%nat files !! 0%nat = Some f' ∧ file_length f' = file_length f + Z.of_nat (length line).
Proof.
  intros Hf Hok Hl.
  assert (alter (append_file line) 0%nat files !! 0%nat = Some (append_file line f)) as Ha by (by rewrite lookup_alter_eq, Hf).
  assert (file_length (append_file line f) = file_length f + Z.of_nat (length line)) as El
    by (unfold file_length, append_file; cbn; rewrite length_app; lia).
  split_and!; [| |by eexists].
  - intros g h Hh. destruct (decide (g = 0%nat)) as [->|]; [|rewrite lookup_alter_ne in Hh by done; by eapply Hok].
    rewrite Ha in Hh. injection Hh as <-. split; [lia|]. rewrite El. done.
  - unfold whole, content. rewrite Ha, Hf, !lookup_alter_ne by done. cbn [fmap option_fmap option_map default from_option append_file fl_content].
    by rewrite <- !app_assoc.
Qed.

(** Writing a line appends it, after a rotation if it does not fit, which
    costs the oldest archive; what fails loses nothing else, and may leave a
    part of the line. *)
Lemma sink_write_file_ok faults line s files :
  (∀ g, lo_fails faults (OpExists g) = None) → files_ok files → sink_ok s files →
  Z.of_nat (length line) ≤ MAX_LINE_BYTES →
  let '(s', files', r) := sink_write_file faults line s files in
  files_ok files' ∧ (r = Ok tt → sk_open s' = true ∧ sink_ok s' files') ∧
  ∃ lost tail, whole files ++ tail = lost ++ whole files' ∧ tail `prefix_of` line ∧ (r = Ok tt → tail = line) ∧
    (lost = [] ∨ (lost = content files 3 ∧ MAX_FILE_BYTES < sk_size s + Z.of_nat (length line))).
Proof.
  intros Hex Hok Hs Hlen. unfold sink_write_file.
  set (full := is_none_or _ _).
  assert (∃ s1 f1 r1 lost, (if full then sink_rotate faults s files else (s, files, Ok tt)) = (s1, f1, r1) ∧
    files_ok f1 ∧ whole files = lost ++ whole f1 ∧
    (lost = [] ∨ (lost = content files 3 ∧ MAX_FILE_BYTES < sk_size s + Z.of_nat (length line))) ∧
    (r1 = Ok tt → sk_open s1 = true → ∃ f, f1 !! 0%nat = Some f ∧ sk_size s1 = file_length f ∧
       file_length f + Z.of_nat (length line) ≤ MAX_FILE_BYTES)) as (s1 & f1 & r1 & lost & -> & Hok1 & Hw1 & Hlost & H1).
  { destruct full eqn:Efull.
    - pose proof (sink_rotate_ok faults Hex s files Hok) as H. destruct (sink_rotate faults s files) as [[s1 f1] r1].
      destruct H as (Hok1 & Hr1 & lost & Hl & Hlost). exists s1, f1, r1, lost. split_and!; [done..| |].
      + destruct Hlost as [->| ->]; [by left|]. right. split; [done|]. subst full. unfold checked_add, is_none_or in Efull.
        destruct (Z.leb_spec (sk_size s + Z.of_nat (length line)) u64_max); cbn in Efull; [by apply Z.ltb_lt|].
        unfold u64_max, MAX_FILE_BYTES in *. lia.
      + intros Hr _. destruct (Hr1 Hr) as (_ & f & Hf & Hsz & Hc). exists f. unfold file_length. rewrite Hc, Hsz. cbn.
        unfold MAX_LINE_BYTES, MAX_FILE_BYTES in *. split_and!; [done..|lia].
    - exists s, files, (Ok tt), []. split_and!; [done..|by left|]. intros _ Ho. destruct (Hs Ho) as (f & Hf & Hsz). exists f.
      split_and!; [done..|]. subst full. unfold checked_add, is_none_or in Efull. rewrite <- Hsz.
      destruct (Z.leb_spec (sk_size s + Z.of_nat (length line)) u64_max); cbn in Efull; [by apply Z.ltb_ge|done]. }
  destruct r1 as [[]|e].
  2: { split_and!; [done..|]. exists lost, []. rewrite app_nil_r. split_and!; [done|apply prefix_nil|done|done]. }
  destruct (sk_open s1) eqn:Eo; cbn [negb].
  2: { split_and!; [done..|]. exists lost, []. rewrite app_nil_r. split_and!; [done|apply prefix_nil|done|done]. }
  destruct (H1 eq_refl eq_refl) as (f & Hf & Hsz & Hfit).
  destruct (attempt faults OpWrite) as [[]|e].
  - destruct (append_current f1 f line Hf Hok1 Hfit) as (Ha & Hb & f' & Hc & Hd).
    unfold checked_add. rewrite Hsz.
    destruct (Z.leb_spec (file_length f + Z.of_nat (length line)) u64_max); [|unfold u64_max, MAX_FILE_BYTES in *; lia].
    split_and!; [done| |].
    + intros _. split; [done|]. intros _. exists f'. by rewrite Hd.
    + exists lost, line. rewrite Hb, Hw1, app_assoc. by split_and!.
  - assert (file_length f + Z.of_nat (length (take (lo_partial faults) line)) ≤ MAX_FILE_BYTES) as Hfit'
      by (rewrite length_take; lia).
    destruct (append_current f1 f _ Hf Hok1 Hfit') as (Ha & Hb & _).
    split_and!; [done..|]. exists lost, (take (lo_partial faults) line). rewrite Hb, Hw1, app_assoc.
    split_and!; [done|by apply prefix_take|done|done].
Qed.

Definition output_ok (o : LogOutput) : Prop :=
  files_ok (ou_files o) ∧
  match ou_sink o with SinkFile s => sk_open s = true ∧ sink_ok s (ou_files o) | SinkStderr => True end.

(** What remains after a loss is at least a full log. *)
Definition kept_enough (lost : list Z) (files : log_files) : Prop :=
  lost = [] ∨ MAX_FILE_BYTES - MAX_LINE_BYTES < Z.of_nat (length (whole files)).

Definition faults_ok (w : LogFaults * str) : Prop :=
  (∀ g, lo_fails (fst w) (OpExists g) = None) ∧ Z.of_nat (length (utf8 (snd w))) ≤ MAX_LINE_BYTES.

Lemma sink_write_ok o w :
  faults_ok w → output_ok o →
  output_ok (sink_write (fst w) (snd w) o) ∧
  ((ou_sink o ≠ SinkStderr ∧ ∃ lost, whole (ou_files o) ++ utf8 (snd w) = lost ++ whole (ou_files (sink_write (fst w) (snd w) o)) ∧
      kept_enough lost (ou_files (sink_write (fst w) (snd w) o)) ∧
      ou_stderr (sink_write (fst w) (snd w) o) = ou_stderr o) ∨
   (∃ lost tail, whole (ou_files o) ++ tail = lost ++ whole (ou_files (sink_write (fst w) (snd w) o)) ∧
      tail `prefix_of` utf8 (snd w) ∧ (ou_sink o = SinkStderr → tail = [] ∧ lost = []) ∧
      kept_enough lost (ou_files (sink_write (fst w) (snd w) o)) ∧
      ou_sink (sink_write (fst w) (snd w) o) = SinkStderr ∧
      ∃ message, ou_stderr (sink_write (fst w) (snd w) o) = ou_stderr o ++ message ++ [snd w])).
Proof.
  destruct w as [faults line], o as [[s|] files err]; cbn [fst snd]; intros [Hex Hl] [Hok Hs]; cbn [ou_files ou_sink ou_stderr fst snd] in *.
  2: { unfold sink_write. cbn. split; [by split|]. right. exists [], []. rewrite app_nil_r.
       split_and!; [done|apply prefix_nil|done|by left|done|by exists []]. }
  destruct Hs as [Ho Hs]. unfold sink_write. cbn [ou_sink ou_files ou_stderr].
  pose proof (sink_write_file_ok faults (utf8 line) s files Hex Hok Hs Hl) as H.
  destruct (sink_write_file faults (utf8 line) s files) as [[s' files'] r].
  destruct H as (Hok' & Hs' & lost & tail & Hw & Htail & Hr & Hlost).
  assert (kept_enough lost files') as Hkept.
  { destruct Hlost as [->|[-> Hfull]]; [by left|]. right. destruct (Hs Ho) as (f & Hf & Hsz).
    unfold whole in Hw at 1. rewrite <- !app_assoc in Hw. apply app_inv_head in Hw. rewrite <- Hw, !length_app.
    assert (Z.of_nat (length (content files 0)) = sk_size s) by (unfold content; by rewrite Hf, Hsz). lia. }
  destruct r as [[]|e].
  - destruct (Hs' eq_refl). split; [by split|]. left. split; [done|]. exists lost. rewrite <- (Hr eq_refl) at 1. done.
  - split; [by split|]. right. exists lost, tail. split_and!; [done..|].
    eexists [_]. done.
Qed.

(** The files under any history of writes: each holds at most
    [MAX_FILE_BYTES] and there are at most four; every line is in the files,
    in order, until the oldest are dropped - never before a full log follows
    them - or, from the first failure on, on stderr. *)
Lemma write_lines_ok o writes :
  Forall faults_ok writes → output_ok o →
  output_ok (write_lines o writes) ∧
  ∃ filed printed lost tail, snd <$> writes = filed ++ printed ∧
    whole (ou_files o) ++ concat (utf8 <$> filed) ++ tail = lost ++ whole (ou_files (write_lines o writes)) ∧
    tail `prefix_of` default [] (utf8 <$> head printed) ∧
    kept_enough lost (ou_files (write_lines o writes)) ∧
    (ou_sink o = SinkStderr → filed = [] ∧ tail = [] ∧ lost = []) ∧
    ∃ rest, ou_stderr (write_lines o writes) = ou_stderr o ++ rest ∧ printed `sublist_of` rest.
Proof.
  intros Hw. revert o. induction Hw as [|w writes Hw _ IH]; intros o Ho.
  { split; [done|]. exists [], [], [], []. cbn. rewrite app_nil_r.
    split_and!; [done|done|apply prefix_nil|by left|done|]. exists []. by rewrite app_nil_r. }
  destruct (sink_write_ok o w Hw Ho) as [Ho1 H1]. specialize (IH _ Ho1).
  change (write_lines o (w :: writes)) with (write_lines (sink_write (fst w) (snd w) o) writes).
  set (o1 := sink_write _ _ _) in *. set (o2 := write_lines o1 writes) in *.
  destruct IH as (Ho2 & filed & printed & lost & tail & Hl & Hwh & Htail & Hkept & Hstd & rest & Herr & Hsub).
  split; [done|]. destruct H1 as [(Hns & lost1 & Hw1 & Hk1 & He1)|(lost1 & tail1 & Hw1 & Ht1 & Hst1 & Hk1 & Hs1 & message & He1)].
  - exists (snd w :: filed), printed, (lost1 ++ lost), tail. split_and!.
    + rewrite fmap_cons, Hl. done.
    + rewrite fmap_cons. cbn [concat]. rewrite <- !app_assoc, app_assoc, Hw1, <- app_assoc. by rewrite <- Hwh.
    + done.
    + destruct Hkept as [->|Hkept]; [|by right]. rewrite app_nil_r.
      destruct Hk1 as [->|Hk1]; [by left|right]. rewrite app_nil_l in Hwh. rewrite <- Hwh, length_app. lia.
    + done.
    + exists rest. by rewrite Herr, He1.
  - destruct (Hstd Hs1) as (-> & -> & ->). rewrite app_nil_l in Hl. rewrite app_nil_r, app_nil_l in Hwh. cbn in Hwh.
    rewrite ?app_nil_r in Hwh. exists [], (snd w :: printed), lost1, tail1. split_and!.
    + rewrite fmap_cons, Hl. done.
    + cbn. by rewrite <- Hwh.
    + done.
    + unfold kept_enough in *. by rewrite <- Hwh.
    + intros Hs. by destruct (Hst1 Hs).
    + exists ((message ++ [snd w]) ++ rest). rewrite Herr, He1, <- !app_assoc. split; [done|].
      apply sublist_inserts_l. by apply sublist_skip.
Qed.

Lemma validate_archives_ok faults files g f :
  validate_archives faults files = Ok tt → files !! g = Some f → (1 ≤ g ≤ ARCHIVE_COUNT)%nat → file_length f ≤ MAX_FILE_BYTES.
Proof.
  unfold validate_archives. intros Hv Hf Hg.
  assert (∀ gs, validate_archives_from faults files gs = Ok tt → g ∈ gs → validate_archive faults files g = Ok tt) as H.
  { induction gs as [|h gs IH]; intros Hgs Hin; [by apply elem_of_nil in Hin|].
    cbn in Hgs. apply result_bind_Ok in Hgs as ([] & Hh & Hgs). apply elem_of_cons in Hin as [->|Hin]; [done|by apply IH]. }
  specialize (H _ Hv). unfold validate_archive in H. rewrite Hf in H.
  assert (g ∈ seq 1 ARCHIVE_COUNT) as Hin by (apply elem_of_seq; lia). specialize (H Hin).
  apply result_bind_Ok in H as (_ & _ & H). apply result_bind_Ok in H as (_ & _ & H).
  destruct (Z.ltb_spec MAX_FILE_BYTES (file_length f)); [done|lia].
Qed.

Lemma open_log_file_Ok faults files files' size :
  open_log_file faults files = (files', Ok size) →
  ∃ f, files' = <[0%nat := f]> files ∧ size = file_length f ∧ file_length f ≤ MAX_FILE_BYTES ∧
    fl_content f = content files 0.
Proof.
  unfold open_log_file. destruct (attempt faults (OpMetadata 0);; _) as [[]|e]; [|done].
  destruct (if isSome (files !! 0%nat) then _ else _) as [[]|e]; [|done].
  set (f := if isSome _ then _ else _). intros [= <- Hr].
  apply result_bind_Ok in Hr as (_ & _ & Hr). apply result_bind_Ok in Hr as (_ & _ & Hr).
  destruct (Z.ltb_spec MAX_FILE_BYTES (file_length f)); [done|]. injection Hr as <-. exists f. split_and!; [done..|].
  subst f. unfold content. by destruct (files !! 0%nat).
Qed.

(** A sink that opens finds its files within bounds, and changes none. *)
Lemma sink_open_ok parent own faults directory files files' s :
  (∀ g f, files !! g = Some f → (g ≤ ARCHIVE_COUNT)%nat) →
  sink_open parent own faults directory files = (files', Ok s) →
  files_ok files' ∧ sk_open s = true ∧ sink_ok s files' ∧ whole files' = whole files.
Proof.
  intros Hg. unfold sink_open.
  destruct (_;; _) as [[]|e] eqn:Ev; [|done].
  apply result_bind_Ok in Ev as (_ & _ & Ev). apply result_bind_Ok in Ev as (_ & _ & Ev).
  apply result_bind_Ok in Ev as (_ & _ & Ev).
  destruct (open_log_file faults files) as [f1 [size|e]] eqn:Eo; [|done]. intros [= <- <-].
  apply open_log_file_Ok in Eo as (f & -> & -> & Hmax & Hc). split_and!; [|done| |].
  - intros g h Hh. destruct (decide (g = 0%nat)) as [->|]; [rewrite lookup_insert_eq in Hh; injection Hh as <-; split; [lia|done]|].
    rewrite lookup_insert_ne in Hh by done. split; [by eapply Hg|]. eapply validate_archives_ok; [done..|].
    specialize (Hg _ _ Hh). lia.
  - intros _. exists f. rewrite lookup_insert_eq. done.
  - unfold whole. assert (content (<[0%nat:=f]> files) 0 = content files 0) as -> by (unfold content at 1; by rewrite lookup_insert_eq).
    unfold content. by rewrite !lookup_insert_ne by done.
Qed.


(** * Reading back what was logged *)

Definition lastn {A} (n : nat) (l : list A) : list A := drop (length l - n) l.

Lemma lastn_all {A} n (l : list A) : (length l ≤ n)%nat → lastn n l = l.
Proof. intros H. unfold lastn. by replace (length l - n)%nat with 0%nat by lia. Qed.

Lemma lastn_length {A} n (l : list A) : length (lastn n l) = Nat.min n (length l).
Proof. unfold lastn. rewrite length_drop. lia. Qed.

Lemma push_line_lastn limit l entry :
  (0 < limit)%nat → push_line limit (lastn limit l) entry = lastn limit (l ++ [entry]).
Proof.
  intros Hl. unfold push_line. rewrite lastn_length. unfold lastn. rewrite length_app. cbn.
  case_bool_decide as H.
  - rewrite drop_drop, drop_app_le by lia. f_equal. f_equal. lia.
  - replace (length l - limit)%nat with 0%nat by lia.
    by replace (length l + 1 - limit)%nat with 0%nat by lia.
Qed.

Lemma split_inclusive_app body bytes : 10 ∉ body → split_inclusive ((body ++ [10]) ++ bytes) = (body ++ [10]) :: split_inclusive bytes.
Proof.
  induction body as [|b body IH]; intros Hb; [done|]. apply not_elem_of_cons in Hb as [Hb Hbody].
  cbn [app split_inclusive]. rewrite IH by done. by destruct (Z.eqb_spec b 10).
Qed.

Lemma strip_line_end_body body : 13 ∉ body → strip_line_end (body ++ [10]) = body.
Proof.
  intros Hb. unfold strip_line_end, strip_suffix, ends_with. rewrite reverse_snoc. cbn [reverse rev_append starts_with].
  change (reverse [10]) with [10]. cbn. change (10 =? 10) with true. cbn.
  rewrite length_app, Nat.add_sub, take_app_length. change (reverse [13]) with [13].
  destruct (reverse body) as [|b rest] eqn:E; [done|]. destruct (Z.eqb_spec 13 b) as [<-|]; [|done].
  exfalso. apply Hb. apply (f_equal reverse) in E. rewrite reverse_involutive, reverse_cons in E. rewrite E.
  apply elem_of_app. right. by apply list_elem_of_singleton.
Qed.

Section read_back.
Context (timestamp_at : Z → str) (parse_timestamp : str → option Z) (shown : Z → Z).
Context (Htime : ∀ t, timestamp_text (timestamp_at t)).
Context (Hparse : ∀ t, parse_timestamp (timestamp_at t) = Some (shown t)).
Context (component : Component).

(** An event as it is read back: its time as shown, and its line. *)
Definition logged_entry (e : QueuedEvent) : Z * str :=
  (shown (qe_timestamp e), removelast (format_line timestamp_at component e)).

Lemma logged_entry_line e :
  clean_event e →
  let line := snd (logged_entry e) in
  format_line timestamp_at component e = line ++ [10] ∧ 10 ∉ utf8 line ∧ 13 ∉ utf8 line ∧
  parse_line parse_timestamp (utf8 line) = Ok (logged_entry e).
Proof using Htime Hparse.
  intros He. destruct (format_line_shape timestamp_at component e (Htime _) He) as (rest & E & Hp & Hl).
  unfold logged_entry. cbn [snd]. rewrite E, removelast_last. set (line := timestamp_at _ ++ 32 :: rest) in *.
  assert (Forall (λ c, is_scalar c = true) line) as Hs by (eapply Forall_impl; [exact Hp|]; naive_solver).
  rewrite Forall_forall in Hp. split_and!; [done| | |].
  - apply utf8_no_ascii; [lia|done|]. intros Hin. by destruct (Hp _ Hin).
  - apply utf8_no_ascii; [lia|done|]. intros Hin. by destruct (Hp _ Hin).
  - unfold parse_line. rewrite from_utf8_utf8 by done. cbn [ok_or mbind result_bind].
    assert ((MAX_LINE_BYTES <? saturating_add u64_max (str_len line) 1) = false) as ->
      by (apply Z.ltb_ge; unfold saturating_add; lia).
    assert (split_once 32 line = Some (timestamp_at (qe_timestamp e), rest)) as ->.
    { destruct (Htime (qe_timestamp e)) as (_ & Hsp & _). subst line. clear -Hsp.
      induction (timestamp_at (qe_timestamp e)) as [|c s IH]; [done|].
      apply not_elem_of_cons in Hsp as [Hc Hs]. cbn. destruct (Z.eqb_spec c 32); [congruence|]. by rewrite IH. }
    cbn. by rewrite Hparse.
Qed.

Definition logged_bytes (es : list QueuedEvent) : list Z := concat ((λ e, utf8 (format_line timestamp_at component e)) <$> es).

Lemma read_lines_logged limit es : ∀ before,
  (0 < limit)%nat → Forall clean_event es →
  read_lines parse_timestamp limit (lastn limit before) (buf_lines (logged_bytes es)) =
    Ok (lastn limit (before ++ (logged_entry <$> es))).
Proof using Htime Hparse.
  intros before Hl Hes. revert before. induction Hes as [|e es He _ IH]; intros before.
  { cbn. by rewrite app_nil_r. }
  destruct (logged_entry_line e He) as (E & H10 & H13 & Hp).
  unfold logged_bytes. cbn [fmap list_fmap concat]. rewrite E. unfold utf8 at 1. rewrite bind_app. fold (utf8 (snd (logged_entry e))).
  change ([10] ≫= utf8_char) with [10]. unfold buf_lines. rewrite split_inclusive_app by done. cbn [fmap list_fmap].
  rewrite strip_line_end_body by done. cbn [read_lines]. rewrite Hp. cbn [mbind result_bind].
  rewrite push_line_lastn by done. etrans; [apply IH|]. by rewrite <- app_assoc.
Qed.

(** A file of the log holds the events [es]. *)
Definition holds (f : option file) (es : list QueuedEvent) : Prop :=
  match f with
  | Some f => validate_private_file_metadata f = Ok tt ∧ file_length f ≤ MAX_FILE_BYTES ∧
              fl_content f = logged_bytes es
  | None => es = []
  end.

Lemma read_safe_lines_logged limit f es before :
  (0 < limit)%nat → Forall clean_event es → holds f es →
  read_safe_lines parse_timestamp None f limit (lastn limit before) = Ok (lastn limit (before ++ (logged_entry <$> es))).
Proof using Htime Hparse.
  intros Hl Hes Hf. unfold read_safe_lines. destruct f as [f|]; cbn in Hf.
  - destruct Hf as (-> & Hlen & ->). cbn [mbind result_bind].
    destruct (Z.ltb_spec MAX_FILE_BYTES (file_length f)); [lia|]. by apply read_lines_logged.
  - subst es. cbn. by rewrite app_nil_r.
Qed.

(** All the events of the files, oldest first. *)
Definition all_events (es : nat → list QueuedEvent) : list QueuedEvent := es 3%nat ++ es 2%nat ++ es 1%nat ++ es 0%nat.

Lemma read_component_logged limit files es :
  (0 < limit)%nat → (∀ g, (g ≤ ARCHIVE_COUNT)%nat → Forall clean_event (es g) ∧ holds (files !! g) (es g)) →
  read_component parse_timestamp (λ _, None) files limit = Ok (lastn limit (logged_entry <$> all_events es)).
Proof using Htime Hparse.
  intros Hl Hf. unfold read_component. change (rev (seq 0 (S ARCHIVE_COUNT))) with [3; 2; 1; 0]%nat.
  replace (@nil (Z * str)) with (lastn limit (@nil (Z * str))) by done. cbn [read_generations].
  unfold ARCHIVE_COUNT in Hf.
  rewrite read_safe_lines_logged with (es := es 3%nat) by (first [done|apply Hf; lia]). cbn [mbind result_bind].
  rewrite read_safe_lines_logged with (es := es 2%nat) by (first [done|apply Hf; lia]). cbn [mbind result_bind].
  rewrite read_safe_lines_logged with (es := es 1%nat) by (first [done|apply Hf; lia]). cbn [mbind result_bind].
  rewrite read_safe_lines_logged with (es := es 0%nat) by (first [done|apply Hf; lia]). cbn [mbind result_bind].
  unfold all_events. by rewrite !fmap_app, <- !app_assoc.
Qed.
End read_back.

(** * The newest lines *)

Lemma filter_true {A} (P : A → Prop) `{∀ x, Decision (P x)} l : Forall P l → filter P l = l.
Proof. induction 1 as [|x l Hx _ IH]; [done|]. by rewrite filter_cons_True, IH by done. Qed.

Lemma filter_false {A} (P : A → Prop) `{∀ x, Decision (P x)} l : Forall (λ x, ¬ P x) l → filter P l = [].
Proof. induction 1 as [|x l Hx _ IH]; [done|]. by rewrite filter_cons_False by done. Qed.

Definition in_time_order (l : list (Z * str)) : Prop := StronglySorted (λ a b, fst a ≤ fst b) l.

Definition recent (limit : nat) (groups : list (list (Z * str))) : list (Z * str) :=
  lastn limit (sort_by_key entry_key (concat (lastn limit <$> groups))).

Lemma concat_lastn_perm {A} limit (groups : list (list A)) :
  concat groups ≡ₚ concat ((λ g, take (length g - limit) g) <$> groups) ++ concat (lastn limit <$> groups).
Proof.
  induction groups as [|g groups IH]; [done|]. cbn [fmap list_fmap concat]. rewrite <- (take_drop (length g - limit) g) at 1.
  fold (lastn limit g). rewrite IH. solve_Permutation.
Qed.

Lemma concat_lastn_length {A} limit (groups : list (list A)) :
  Nat.min limit (length (concat (lastn limit <$> groups))) = Nat.min limit (length (concat groups)).
Proof.
  induction groups as [|g groups IH]; [done|]. cbn [fmap list_fmap concat]. rewrite !length_app, lastn_length. lia.
Qed.

(** Keeping only the last entries of each group loses none of the newest. *)
Lemma recent_newest limit groups :
  Forall in_time_order groups →
  length (recent limit groups) = Nat.min limit (length (concat groups)) ∧
  ∃ older, concat groups ≡ₚ older ++ recent limit groups ∧
    ∀ o n, o ∈ older → n ∈ recent limit groups → fst o ≤ fst n.
Proof.
  intros Hsorted. unfold recent. set (kept := concat (lastn limit <$> groups)). set (sorted := sort_by_key entry_key kept).
  assert (sorted ≡ₚ kept) as Hperm by apply sort_by_key_perm.
  split; [rewrite lastn_length, Hperm; apply concat_lastn_length|].
  set (skip := take (length sorted - limit) sorted). set (newest := lastn limit sorted).
  assert (sorted = skip ++ newest) as Esplit by (symmetry; apply take_drop).
  assert (∀ o n, o ∈ skip → n ∈ newest → fst o ≤ fst n) as Hskip.
  { intros o n Ho Hn. pose proof (sort_by_key_sorted entry_key kept) as Hs. fold sorted in Hs. rewrite Esplit in Hs.
    apply StronglySorted_app in Hs as (Hs & _ & _). specialize (Hs o n Ho Hn). unfold entry_key in Hs. cbn in Hs.
    apply orb_false_iff in Hs as [Hs _]. by apply Z.ltb_ge in Hs. }
  exists (concat ((λ g, take (length g - limit) g) <$> groups) ++ skip). split.
  { rewrite <- app_assoc, <- Esplit, Hperm. apply concat_lastn_perm. }
  intros o n [Ho|Ho]%elem_of_app Hn; [|by apply Hskip].
  destruct (Z.le_gt_cases (fst o) (fst n)) as [|Hlt]; [done|exfalso].
  apply list_elem_of_In, in_concat in Ho as (g' & Hg' & Ho). apply list_elem_of_In in Hg', Ho.
  apply list_elem_of_fmap in Hg' as (g & -> & Hg).
  rewrite Forall_forall in Hsorted. specialize (Hsorted g Hg). unfold in_time_order in Hsorted.
  rewrite <- (take_drop (length g - limit) g) in Hsorted. apply StronglySorted_app in Hsorted as (Hgo & _ & _).
  fold (lastn limit g) in Hgo.
  assert (limit < length g)%nat as Hlen.
  { destruct (decide (limit < length g)%nat); [done|]. replace (length g - limit)%nat with 0%nat in Ho by lia. by apply elem_of_nil in Ho. }
  assert (limit ≤ length (filter (λ x, (fst n < fst x)%Z) kept))%nat as Hmany.
  { transitivity (length (filter (λ x, (fst n < fst x)%Z) (lastn limit g))).
    - rewrite filter_true; [rewrite lastn_length; lia|]. apply Forall_forall. intros x Hx. specialize (Hgo o x Ho Hx). lia.
    - apply sublist_length. subst kept. apply list_elem_of_split in Hg as (g1 & g2 & ->).
      rewrite fmap_app, concat_app, filter_app, fmap_cons. cbn [concat]. rewrite filter_app.
      apply sublist_inserts_l, sublist_inserts_r. done. }
  rewrite <- Hperm, Esplit, filter_app, (filter_false _ skip) in Hmany.
  - pose proof (length_filter_lt (λ x, (fst n < fst x)%Z) newest n Hn (Z.lt_irrefl _)) as Hfew. cbn in Hmany.
    subst newest. rewrite lastn_length in Hfew. lia.
  - apply Forall_forall. intros x Hx. specialize (Hskip x n Hx Hn). lia.
Qed.

Section recent_logs.
Context (timestamp_at : Z → str) (parse_timestamp : str → option Z) (shown : Z → Z).
Context (Htime : ∀ t, timestamp_text (timestamp_at t)).
Context (Hparse : ∀ t, parse_timestamp (timestamp_at t) = Some (shown t)).

Definition component_entries (es : Component → nat → list QueuedEvent) (c : Component) : list (Z * str) :=
  logged_entry timestamp_at shown c <$> all_events (es c).

Lemma read_components_logged files es limit components : ∀ entries,
  (0 < limit)%nat →
  (∀ c g, (g ≤ ARCHIVE_COUNT)%nat → Forall clean_event (es c g) ∧ holds timestamp_at c (files c !! g) (es c g)) →
  read_components parse_timestamp (λ _ _, None) files limit components entries =
    Ok (entries ++ concat (lastn limit <$> (component_entries es <$> components))).
Proof using Htime Hparse.
  intros entries Hl Hf. revert entries. induction components as [|c components IH]; intros entries; cbn [read_components].
  { cbn. by rewrite app_nil_r. }
  rewrite (read_component_logged timestamp_at parse_timestamp shown Htime Hparse c limit (files c) (es c)) by auto.
  cbn [mbind result_bind]. rewrite IH. cbn [fmap list_fmap concat]. by rewrite <- app_assoc.
Qed.

(** The diagnostics show the newest events: from private files that hold
    logged events, the lines read are the [limit] newest of all components',
    oldest first, none of them older than one left out, each with the text
    it was logged as. *)
Theorem recent_logs_newest files es limit m parent directory
    (Hlimit : (0 < limit)%nat)
    (Hfiles : ∀ c g, (g ≤ ARCHIVE_COUNT)%nat → Forall clean_event (es c g) ∧ holds timestamp_at c (files c !! g) (es c g))
    (Horder : ∀ c, in_time_order (component_entries es c))
    (Hprivate : validate_private_directory_metadata m = Ok tt ∧ validate_private_directory_metadata parent = Ok tt) :
  ∃ older newest,
    read_recent_logs_in parse_timestamp (Ok m) (Ok parent) directory (λ _ _, None) files limit = Ok (snd <$> newest) ∧
    concat (component_entries es <$> all_components) ≡ₚ older ++ newest ∧
    in_time_order newest ∧ (∀ o n, o ∈ older → n ∈ newest → fst o ≤ fst n) ∧
    length newest = Nat.min limit (length (concat (component_entries es <$> all_components))).
Proof using Htime Hparse.
  set (groups := component_entries es <$> all_components).
  assert (Forall in_time_order groups) as Hg by (apply Forall_fmap, Forall_true; done).
  destruct (recent_newest limit groups Hg) as (Hlen & older & Hperm & Hold).
  exists older, (recent limit groups). split_and!; [|done| |done|done].
  - destruct Hprivate as [Hm Hp]. unfold read_recent_logs_in. destruct limit as [|k]; [lia|]. rewrite Hm, Hp.
    cbn [mbind result_bind]. destruct (controlled_parent directory); cbn [mbind result_bind];
      by rewrite (read_components_logged files es (S k) all_components []) by done.
  - unfold recent, in_time_order, lastn. set (s := sort_by_key _ _).
    assert (StronglySorted (λ a b : Z * str, fst a ≤ fst b) s) as Hs.
    { eapply StronglySorted_impl; [|apply sort_by_key_sorted]. intros a b E. cbn in E. unfold entry_key in E. cbn in E.
      apply orb_false_iff in E as [E _]. by apply Z.ltb_ge in E. }
    rewrite <- (take_drop (length s - limit) s) in Hs. by apply StronglySorted_app in Hs as (_ & _ & ?).
Qed.
End recent_logs.

(** * Examples *)

Definition example_event (t : Z) : QueuedEvent := mkQueuedEvent t LevelInfo (lit "probe") (lit "n=1").

Definition example_steps : list LogStep :=
  [LogCall 5 LevelInfo (lit "probe") [lit "a"; [10; 98]]; LogWorker 6; LogWorker 6; LogWorker 6; LogShutdown; LogWorker 7].

Definition example_result : list LogRecord * LogQueue :=
  ([RecEvent (mkQueuedEvent 5 LevelInfo (lit "probe") (lit "a\nb"))], mkLogQueue [] 0 true true (WorkerDrain QUEUE_CAPACITY)).

Example example_run : log_run queue_new example_steps = Some example_result.
Proof. vm_compute. reflexivity. Qed.

Lemma log_events_accounted_witness :
  log_run queue_new example_steps = Some example_result ∧
  ∃ accepted, accepted `sublist_of` omap offered_event example_steps ∧
    accepted = omap record_of_event (fst example_result) ++ [] ∧
    Z.of_nat (length (omap offered_event example_steps)) = Z.of_nat (length accepted) + 0 + total_reported (fst example_result).
Proof.
  split; [apply example_run|].
  apply (log_events_accounted example_steps (fst example_result) (snd example_result)); [vm_compute; reflexivity|vm_compute; discriminate].
Defined.

(** A calendar: the seconds of a day count in decimal. *)
Definition day_clock (t : Z) : str := show_Z (t mod 86400).

Lemma day_clock_text t : timestamp_text (day_clock t).
Proof.
  unfold timestamp_text, day_clock. pose proof (Z.mod_pos_bound t 86400 ltac:(lia)) as Ht.
  pose proof (show_Z_digits _ (proj1 Ht)) as Hd. split_and!.
  - by apply digits_plain.
  - intros Hin. rewrite Forall_forall in Hd. by specialize (Hd _ Hin).
  - rewrite ascii_str_len by (apply show_Z_ascii; lia). pose proof (show_Z_length 5 (t mod 86400) ltac:(lia) ltac:(lia)). lia.
Qed.

Lemma day_clock_parse t : parse_unsigned u64_max (day_clock t) = Some (t mod 86400).
Proof. pose proof (Z.mod_pos_bound t 86400 ltac:(lia)). apply parse_show. unfold u64_max. lia. Qed.

Lemma log_lines_single_witness :
  let r := RecEvent (mkQueuedEvent 5 LevelInfo (lit "probe") (lit "a\nb")) in
  ∃ rest, format_line day_clock CompCore (record_event r) = (day_clock 5 ++ 32 :: rest) ++ [10] ∧
    10 ∉ day_clock 5 ++ 32 :: rest ∧ str_len (format_line day_clock CompCore (record_event r)) ≤ MAX_LINE_BYTES.
Proof.
  assert (Forall step_scalars example_steps) as Ht by (repeat constructor).
  pose proof (log_lines_single day_clock CompCore example_steps (fst example_result) (snd example_result)
    day_clock_text Ht ltac:(vm_compute; reflexivity)) as H.
  exact (Forall_inv H).
Defined.

Lemma log_worker_stops_witness :
  let q := mkLogQueue [example_event 1; example_event 2] 3 true true (WorkerWrite (example_event 0) WorkerLoop) in
  stopped_clean 9 q [example_event 0; example_event 1; example_event 2] (run_worker 10 9 q).
Proof.
  apply (log_worker_stops 9 (mkLogQueue [example_event 1; example_event 2] 3 true true (WorkerWrite (example_event 0) WorkerLoop)) 10);
    vm_compute; repeat constructor.
Defined.

Definition fine_directory : DirectoryOutcome := mkDirectoryOutcome (Ok tt) (Ok true) (Ok tt).
Definition fine_files : log_files := {[0%nat := mkFile true PRIVATE_MODE []]}.
Definition failing_write : LogFaults := mkLogFaults (λ op, match op with OpWrite => Some (lit "full") | _ => None end) 1 PRIVATE_MODE.


Lemma recent_logs_newest_witness :
  let es := λ (c : Component) (g : nat), match c, g with CompCore, 0%nat => [example_event 3; example_event 5] | CompOverlay, 1%nat => [example_event 4] | _, _ => [] end in
  let files := λ c, match c with
    | CompCore => {[0%nat := mkFile true PRIVATE_MODE (logged_bytes day_clock CompCore [example_event 3; example_event 5])]}
    | CompOverlay => {[1%nat := mkFile true PRIVATE_MODE (logged_bytes day_clock CompOverlay [example_event 4])]}
    | _ => (∅ : log_files) end in
  ∃ older newest,
    read_recent_logs_in (parse_unsigned u64_max) (Ok (true, 448)) (Ok (true, 448)) (lit "/l") (λ _ _, None) files 2 = Ok (snd <$> newest) ∧
    concat (component_entries day_clock (λ t, t mod 86400) es <$> all_components) ≡ₚ older ++ newest ∧
    in_time_order newest ∧ (∀ o n, o ∈ older → n ∈ newest → fst o ≤ fst n) ∧ length newest = 2%nat.
Proof.
  intros es files.
  apply (recent_logs_newest day_clock (parse_unsigned u64_max) (λ t, t mod 86400) day_clock_text day_clock_parse files es 2
    (true, 448) (true, 448) (lit "/l")).
  - lia.
  - intros c g Hg. assert (∀ t, clean_event (example_event t)) as Hc by (intros t; repeat constructor).
    unfold ARCHIVE_COUNT in Hg. destruct c, g as [|[|[|[|g]]]]; try lia;
      (split; [repeat (constructor; [apply Hc|]); constructor|]); subst files es; cbn beta iota;
      rewrite ?lookup_empty, ?lookup_singleton_eq, ?lookup_singleton_ne by lia; vm_compute; repeat split; discriminate.
  - intros c. unfold in_time_order. destruct c; cbn; repeat constructor; vm_compute; discriminate.
  - by split.
Defined.
