(* ===== verification/EventLog.v ===== *)
(** The events the Core logs ([crates/overcrow-core/src/event_log.rs]): what
    is logged of each published snapshot, with changes of geometry limited to
    one a second. *)

From S2P Require Import Prelude Text Truncate Decimal Timing Float Protocol Logging.

Definition GEOMETRY_LOG_INTERVAL : duration := from_secs 1.
Definition MAX_ID_BYTES : Z := 128.

Definition bounded_text (value : str) : str :=
  let end_ := Z.min (str_len value) MAX_ID_BYTES in
  slice_to_boundary (Z.to_nat end_) value end_.

Definition bounded_identifier (value : str) : str :=
  if bool_decide (47 ∈ value) || bool_decide (92 ∈ value) then lit "<redacted-path>" else bounded_text value.

Record LoggedGame := mkLoggedGame {
  lg_pid : option Z;
  lg_steam_app_id : option Z;
  lg_app_id : option str;
  lg_backend : str;
  lg_rect : Rect
}.
#[export] Instance LoggedGame_eta : Eta LoggedGame := λ g,
  mkLoggedGame (lg_pid g) (lg_steam_app_id g) (lg_app_id g) (lg_backend g) (lg_rect g).

Definition logged_game (s : CoreSnapshot) : option LoggedGame :=
  (λ g, mkLoggedGame (gw_pid g) (gw_steam_app_id g) (bounded_identifier <$> gw_app_id g)
          (bounded_text (gw_backend g)) (gw_rect g)) <$> cs_active_game s.

Definition same_identity (a b : LoggedGame) : bool :=
  bool_decide (lg_pid a = lg_pid b) && bool_decide (lg_steam_app_id a = lg_steam_app_id b)
  && bool_decide (lg_app_id a = lg_app_id b) && bool_decide (lg_backend a = lg_backend b).

(** The events, the first two with the game's fields. *)
Inductive CoreEvent :=
| GameDetected (game : LoggedGame)
| GameChanged (game : LoggedGame)
| GeometryChanged (rect : Rect) (suppressed : Z)
| GameCleared
| OverlayModeChanged (mode : OverlayMode).

Record CoreEventTracker := mkCoreEventTracker {
  et_game : option LoggedGame;
  et_mode : option OverlayMode;
  et_next_geometry_log : option instant;
  et_pending_geometry : option (Rect * Z)
}.
#[export] Instance CoreEventTracker_eta : Eta CoreEventTracker := λ t,
  mkCoreEventTracker (et_game t) (et_mode t) (et_next_geometry_log t) (et_pending_geometry t).

Definition event_tracker_default : CoreEventTracker := mkCoreEventTracker None None None None.

Definition flush_pending_geometry (t : CoreEventTracker) (events : list CoreEvent) : CoreEventTracker * list CoreEvent :=
  match et_pending_geometry t with
  | Some (rect, suppressed) => (t <| et_pending_geometry := None |>, events ++ [GeometryChanged rect suppressed])
  | None => (t, events)
  end.

Definition reset_geometry_limit (t : CoreEventTracker) : CoreEventTracker :=
  t <| et_next_geometry_log := None |> <| et_pending_geometry := None |>.

Section tracker.
(** The last instant [checked_add] can represent. *)
Variable instant_max : instant.

Definition observe_geometry (t : CoreEventTracker) (rect : Rect) (now : instant) (events : list CoreEvent) :
    CoreEventTracker * list CoreEvent :=
  if is_none_or (λ deadline, deadline <=? now) (et_next_geometry_log t) then
    let suppressed := match et_pending_geometry t with Some (_, n) => n | None => 0 end in
    (t <| et_pending_geometry := None |>
       <| et_next_geometry_log := checked_add instant_max now GEOMETRY_LOG_INTERVAL |>,
     events ++ [GeometryChanged rect suppressed])
  else
    let suppressed := match et_pending_geometry t with Some (_, n) => saturating_add u64_max n 1 | None => 1 end in
    (t <| et_pending_geometry := Some (rect, suppressed) |>, events).

Definition is_geometry_event (e : CoreEvent) : bool := match e with GeometryChanged _ _ => true | _ => false end.

Definition flush_due_geometry (t : CoreEventTracker) (now : instant) (events : list CoreEvent) :
    CoreEventTracker * list CoreEvent :=
  if is_some_and (λ deadline, deadline <=? now) (et_next_geometry_log t) then
    let '(t, events) := flush_pending_geometry t events in
    if is_some_and is_geometry_event (last events)
    then (t <| et_next_geometry_log := checked_add instant_max now GEOMETRY_LOG_INTERVAL |>, events)
    else (t, events)
  else (t, events).

Definition observe (t : CoreEventTracker) (snapshot : CoreSnapshot) (now : instant) : CoreEventTracker * list CoreEvent :=
  let current := logged_game snapshot in
  let '(t, events) :=
    match et_game t, current with
    | None, Some game => (reset_geometry_limit t, [GameDetected game])
    | Some _, None =>
        let '(t, events) := flush_pending_geometry t [] in
        (reset_geometry_limit t, events ++ [GameCleared])
    | Some previous, Some game =>
        if negb (same_identity previous game) then
          let '(t, events) := flush_pending_geometry t [] in
          (reset_geometry_limit t, events ++ [GameChanged game])
        else if negb (bool_decide (lg_rect previous = lg_rect game)) then observe_geometry t (lg_rect game) now []
        else flush_due_geometry t now []
    | None, None => flush_due_geometry t now []
    end in
  let t := t <| et_game := current |> in
  if bool_decide (et_mode t = Some (cs_overlay_mode snapshot)) then (t, events)
  else (t <| et_mode := Some (cs_overlay_mode snapshot) |>, events ++ [OverlayModeChanged (cs_overlay_mode snapshot)]).

(** [run_core_event_logging]: the events of each snapshot the task sees. *)
Fixpoint observe_all (t : CoreEventTracker) (l : list (CoreSnapshot * instant)) : CoreEventTracker * list (list CoreEvent) :=
  match l with
  | [] => (t, [])
  | (s, now) :: l =>
      let '(t, events) := observe t s now in
      let '(t, rest) := observe_all t l in
      (t, events :: rest)
  end.
End tracker.

(** [CoreEvent::emit]: name and details, given how text is quoted. *)
Section emit.
Variable debug_str : str → str.

Definition debug_option {A} (show : A → str) (o : option A) : str :=
  match o with None => lit "None" | Some x => lit "Some(" ++ show x ++ lit ")" end.

Definition show_rect (r : Rect) : str :=
  show_Z (rect_x r) ++ lit "," ++ show_Z (rect_y r) ++ lit "," ++ show_Z (rect_width r) ++ lit "," ++ show_Z (rect_height r).

Definition game_details (g : LoggedGame) : str :=
  lit "pid=" ++ debug_option show_Z (lg_pid g) ++ lit " steam_app_id=" ++ debug_option show_Z (lg_steam_app_id g)
    ++ lit " app_id=" ++ debug_option debug_str (lg_app_id g) ++ lit " backend=" ++ debug_str (lg_backend g)
    ++ lit " rect=" ++ show_rect (lg_rect g).

Definition emit (e : CoreEvent) : str * str :=
  match e with
  | GameDetected g => (lit "game_detected", game_details g)
  | GameChanged g => (lit "game_changed", game_details g)
  | GeometryChanged r n => (lit "game_geometry_changed", lit "rect=" ++ show_rect r ++ lit " suppressed=" ++ show_Z n)
  | GameCleared => (lit "game_cleared", [])
  | OverlayModeChanged Passive => (lit "overlay_mode_changed", lit "mode=Passive")
  | OverlayModeChanged Interactive => (lit "overlay_mode_changed", lit "mode=Interactive")
  end.
End emit.

(** * The log tells what is shown *)

(** What a reader of the log knows: the game and the mode. *)
Record LogView := mkLogView { lv_game : option LoggedGame; lv_mode : option OverlayMode }.

Definition read_event (v : LogView) (e : CoreEvent) : LogView :=
  match e with
  | GameDetected g | GameChanged g => mkLogView (Some g) (lv_mode v)
  | GeometryChanged r _ => mkLogView ((λ g, g <| lg_rect := r |>) <$> lv_game v) (lv_mode v)
  | GameCleared => mkLogView None (lv_mode v)
  | OverlayModeChanged m => mkLogView (lv_game v) (Some m)
  end.

Definition read_events (v : LogView) (events : list CoreEvent) : LogView := foldl read_event v events.

(** The reader's game is the tracked one, but for a rectangle that is pending. *)
Definition view_ok (t : CoreEventTracker) (v : LogView) : Prop :=
  lv_mode v = et_mode t ∧
  match et_game t, lv_game v with
  | None, None => et_pending_geometry t = None
  | Some g, Some h =>
      same_identity g h = true ∧
      match et_pending_geometry t with Some (r, n) => r = lg_rect g ∧ 1 ≤ n | None => lg_rect h = lg_rect g end
  | _, _ => False
  end.

Lemma same_identity_refl g : same_identity g g = true.
Proof. unfold same_identity. by rewrite !bool_decide_eq_true_2. Qed.

Lemma same_identity_iff a b :
  same_identity a b = true ↔
  lg_pid a = lg_pid b ∧ lg_steam_app_id a = lg_steam_app_id b ∧ lg_app_id a = lg_app_id b ∧ lg_backend a = lg_backend b.
Proof. unfold same_identity. rewrite !andb_true_iff, !bool_decide_eq_true. naive_solver. Qed.

Lemma same_identity_rect a b r : same_identity a (b <| lg_rect := r |>) = same_identity a b.
Proof. done. Qed.

Lemma view_ok_observe instant_max t v s now :
  view_ok t v →
  let '(t', events) := observe instant_max t s now in
  view_ok t' (read_events v events) ∧ et_game t' = logged_game s ∧ et_mode t' = Some (cs_overlay_mode s).
Proof.
  intros [Hm Hg]. unfold observe.
  set (body := match et_game t, logged_game s with None, Some _ => _ | _, _ => _ end).
  assert (∃ t1 e1, body = (t1, e1) ∧ et_mode t1 = et_mode t ∧
    lv_mode (read_events v e1) = et_mode t ∧
    match logged_game s, lv_game (read_events v e1) with
    | None, None => et_pending_geometry t1 = None
    | Some g, Some h =>
        same_identity g h = true ∧
        match et_pending_geometry t1 with Some (r, n) => r = lg_rect g ∧ 1 ≤ n | None => lg_rect h = lg_rect g end
    | _, _ => False
    end) as (t1 & e1 & -> & Hm1 & Hv1 & Hg1).
  { subst body. destruct t as [game mode next pending], v as [vg vm]. cbn in *. subst vm.
    destruct game as [p|], vg as [h|]; try done; destruct (logged_game s) as [g|].
    - destruct Hg as [Hid Hpend]. destruct (same_identity p g) eqn:Epg; cbn.
      + assert (same_identity g h = true) as Hgh
          by (apply same_identity_iff in Hid, Epg; apply same_identity_iff; destruct_and!; split_and!; congruence).
        case_bool_decide as Hr; cbn.
        * unfold flush_due_geometry, flush_pending_geometry. cbn. rewrite Hr in Hpend.
          destruct (is_some_and _ next); [|by eexists _, _].
          destruct pending as [[r n]|]; cbn; eexists _, _; (split; [done|]); cbn; [|done].
          destruct Hpend as [-> ?]. done.
        * unfold observe_geometry. cbn. destruct (is_none_or _ next); eexists _, _; (split; [done|]); cbn; [done|].
          split_and!; [done..|]. destruct pending as [[r n]|]; cbn; [|lia]. unfold saturating_add, u64_max. lia.
      + unfold flush_pending_geometry. cbn. destruct pending as [[r n]|]; cbn; eexists _, _; (split; [done|]); cbn;
          by rewrite same_identity_refl.
    - unfold flush_pending_geometry. cbn. destruct pending as [[r n]|]; cbn; eexists _, _; (split; [done|]); done.
    - eexists _, _. split; [done|]. cbn. by rewrite same_identity_refl.
    - subst pending. unfold flush_due_geometry, flush_pending_geometry. cbn.
      destruct (is_some_and _ next); cbn; eexists _, _; (split; [done|]); done. }
  cbn. destruct t1 as [game1 mode1 next1 pending1]. cbn in *. case_bool_decide as Hmode.
  - split_and!; [split; [by rewrite Hm1|done]|done|done].
  - unfold read_events. rewrite foldl_app. fold (read_events v e1). cbn. by split_and!.
Qed.

(** The log tells what was shown: reading the events of any snapshots gives
    the mode of the last one and the identity of its game, and its rectangle
    unless a change of it is being held back. *)
Theorem log_tells_state instant_max observations s now :
  let '(t, events) := observe_all instant_max event_tracker_default (observations ++ [(s, now)]) in
  let v := read_events (mkLogView None None) (concat events) in
  lv_mode v = Some (cs_overlay_mode s) ∧
  match logged_game s, lv_game v with
  | None, None => True
  | Some g, Some h => same_identity g h = true ∧ (et_pending_geometry t = None → g = h)
  | _, _ => False
  end.
Proof.
  enough (∀ l t v, view_ok t v →
    let '(t', events) := observe_all instant_max t l in
    view_ok t' (read_events v (concat events)) ∧
    (∀ s now l', l = l' ++ [(s, now)] → et_game t' = logged_game s ∧ et_mode t' = Some (cs_overlay_mode s))) as H.
  { specialize (H (observations ++ [(s, now)]) event_tracker_default (mkLogView None None) ltac:(done)).
    destruct (observe_all _ _ _) as [t events]. destruct H as [[Hm Hg] H]. destruct (H _ _ _ eq_refl) as [Eg Em].
    split; [congruence|]. rewrite Eg in Hg. destruct (logged_game s) as [g|], (lv_game _) as [h|]; try done.
    destruct Hg as [Hid Hp]. split; [done|]. intros Hnone. rewrite Hnone in Hp.
    apply same_identity_iff in Hid. destruct g, h. cbn in *. destruct_and!. by subst. }
  induction l as [|[s1 n1] l IH]; intros t v Hv; cbn [observe_all].
  { split; [done|]. intros ??? H. by destruct l'. }
  pose proof (view_ok_observe instant_max t v s1 n1 Hv) as H1. destruct (observe instant_max t s1 n1) as [t1 e1].
  destruct H1 as (Hv1 & Hg1 & Hm1). specialize (IH t1 (read_events v e1) Hv1).
  destruct (observe_all instant_max t1 l) as [t2 e2] eqn:E2. destruct IH as [IH1 IH2].
  cbn [concat]. unfold read_events in *. rewrite foldl_app. split; [done|].
  intros s2 n2 l' El. destruct l' as [|x l']; [|injection El as <- El; by eapply IH2].
  injection El as -> -> ->. cbn in E2. by injection E2 as <- <-.
Qed.

(** * Geometry is limited *)

Definition is_game_event (e : CoreEvent) : bool :=
  match e with GameDetected _ | GameChanged _ | GameCleared => true | _ => false end.

(** Whether a call's events are of the same game as before, and whether it
    then logs a rectangle. *)
Definition same_game (events : list CoreEvent) : bool := forallb (λ e, negb (is_game_event e)) events.
Definition logs_geometry (events : list CoreEvent) : bool := existsb is_geometry_event events.

(** No rectangle is logged before [deadline] while the game stays. *)
Definition limited_until (deadline : instant) (t : CoreEventTracker) : Prop :=
  match et_next_geometry_log t with Some d => deadline ≤ d | None => False end.

Lemma existsb_app_geometry a b : logs_geometry (a ++ b) = logs_geometry a || logs_geometry b.
Proof. apply existsb_app. Qed.

Lemma observe_limited instant_max t s now :
  let '(t', events) := observe instant_max t s now in
  same_game events = true → now + GEOMETRY_LOG_INTERVAL ≤ instant_max →
  (logs_geometry events = true → limited_until (now + GEOMETRY_LOG_INTERVAL) t' ∧
     ∀ d, limited_until d t → d ≤ now) ∧
  ∀ d, limited_until d t → limited_until d t'.
Proof.
  unfold observe. set (body := match et_game t, logged_game s with None, Some _ => _ | _, _ => _ end).
  destruct body as [t1 e1] eqn:Ebody. subst body.
  set (r := if bool_decide _ then _ else _). destruct r as [t' events] eqn:Er. intros Hsame Hmax.
  assert (et_next_geometry_log t' = et_next_geometry_log t1 ∧ logs_geometry events = logs_geometry e1 ∧ same_game e1 = true)
    as (En & El & Hsame1).
  { subst r. case_bool_decide; injection Er as <- <-; [done|]. cbn. rewrite existsb_app_geometry, orb_false_r.
    unfold same_game in Hsame. rewrite forallb_app in Hsame. by apply andb_true_iff in Hsame as [? _]. }
  rewrite El. unfold limited_until. rewrite En. clear r Er En El Hsame.
  assert (checked_add instant_max now GEOMETRY_LOG_INTERVAL = Some (now + GEOMETRY_LOG_INTERVAL)) as Hadd
    by (unfold checked_add; destruct (Z.leb_spec (now + GEOMETRY_LOG_INTERVAL) instant_max); [done|lia]).
  assert (0 < GEOMETRY_LOG_INTERVAL) as Hpos by done.
  destruct t as [game mode next pending].
  assert (flush_due_geometry instant_max (mkCoreEventTracker game mode next pending) now [] = (t1, e1) →
    (logs_geometry e1 = true →
     match et_next_geometry_log t1 with Some d => now + GEOMETRY_LOG_INTERVAL ≤ d | None => False end ∧
     (∀ d : Z, match next with Some d0 => d ≤ d0 | None => False end → d ≤ now)) ∧
    (∀ d : Z, match next with Some d0 => d ≤ d0 | None => False end →
       match et_next_geometry_log t1 with Some d0 => d ≤ d0 | None => False end)) as Hflush.
  { unfold flush_due_geometry, flush_pending_geometry. cbn. destruct next as [n|]; cbn; [|by intros [= <- <-]].
    destruct (Z.leb_spec n now); [|by intros [= <- <-]].
    destruct pending as [[r k]|]; cbn; intros [= <- <-]; cbn; [|done]. rewrite Hadd. cbn. split; [|lia].
    intros _. split; [lia|]. lia. }
  destruct game as [p|], (logged_game s) as [g|]; cbn in Ebody.
  - destruct (same_identity p g); cbn in Ebody.
    + case_bool_decide; cbn in Ebody; [by apply Hflush|]. unfold observe_geometry in Ebody. cbn in Ebody.
      destruct next as [n|]; cbn in Ebody.
      * destruct (Z.leb_spec n now); injection Ebody as <- <-; cbn; [|done]. rewrite Hadd. split; [|lia]. split; [lia|]. lia.
      * injection Ebody as <- <-. cbn. rewrite Hadd. split; [|done]. intros _. split; [lia|done].
    + unfold flush_pending_geometry in Ebody. cbn in Ebody. destruct pending as [[r k]|]; injection Ebody as <- <-; done.
  - unfold flush_pending_geometry in Ebody. cbn in Ebody. destruct pending as [[r k]|]; injection Ebody as <- <-; done.
  - injection Ebody as <- <-. done.
  - by apply Hflush.
Qed.

Lemma observe_all_length instant_max t l : length (snd (observe_all instant_max t l)) = length l.
Proof.
  revert t. induction l as [|[s n] l IH]; intros t; cbn; [done|]. destruct (observe instant_max t s n) as [t1 e1].
  specialize (IH t1). destruct (observe_all instant_max t1 l). cbn in *. by rewrite IH.
Qed.

(** A log that changes its rectangle as often as the window moves would
    bury everything else: as long as one game stays, two rectangles are
    logged at least a second apart, whatever happens in between. *)
Theorem geometry_logged_once_a_second instant_max t observations first_now last_now first_snapshot last_snapshot
    (Htimes : Forall (λ o, snd o + GEOMETRY_LOG_INTERVAL ≤ instant_max)
                ((first_snapshot, first_now) :: observations ++ [(last_snapshot, last_now)])) :
  let '(t', events) := observe_all instant_max t ((first_snapshot, first_now) :: observations ++ [(last_snapshot, last_now)]) in
  Forall (λ es, same_game es = true) events →
  is_some_and logs_geometry (head events) = true → is_some_and logs_geometry (last events) = true →
  first_now + GEOMETRY_LOG_INTERVAL ≤ last_now.
Proof.
  inversion Htimes as [|?? Hfirst Hrest]; subst. cbn [observe_all snd] in *.
  pose proof (observe_limited instant_max t first_snapshot first_now) as H1.
  destruct (observe instant_max t first_snapshot first_now) as [t1 e1].
  enough (∀ l t1 d, limited_until d t1 → Forall (λ o, snd o + GEOMETRY_LOG_INTERVAL ≤ instant_max) (l ++ [(last_snapshot, last_now)]) →
    let '(t', events) := observe_all instant_max t1 (l ++ [(last_snapshot, last_now)]) in
    Forall (λ es, same_game es = true) events → is_some_and logs_geometry (last events) = true → d ≤ last_now) as H.
  { specialize (H observations t1 (first_now + GEOMETRY_LOG_INTERVAL)).
    pose proof (observe_all_length instant_max t1 (observations ++ [(last_snapshot, last_now)])) as Hlen.
    destruct (observe_all instant_max t1 _) as [t2 [|e2 es]]; [rewrite length_app in Hlen; cbn in Hlen; lia|].
    intros [Hs1 Hs2]%Forall_cons Hhead Hlast. destruct (H1 Hs1 Hfirst) as [Hl1 _]. destruct (Hl1 Hhead) as [Hlim _].
    by apply H. }
  clear. induction l as [|[s n] l IH]; intros t1 d Hlim Ht; cbn [app observe_all].
  - pose proof (observe_limited instant_max t1 last_snapshot last_now) as H. destruct (observe _ _ _ _) as [t2 e2].
    intros [Hs _]%Forall_cons Hlast. cbn in Hlast. inversion Ht as [|?? Hn _]; subst. cbn in Hn.
    destruct (H Hs Hn) as [Hl _]. destruct (Hl Hlast) as [_ Hd]. by apply Hd.
  - pose proof (observe_limited instant_max t1 s n) as H. destruct (observe instant_max t1 s n) as [t2 e2].
    inversion Ht as [|?? Hn Hr]; subst. cbn in Hn. specialize (IH t2 d).
    pose proof (observe_all_length instant_max t2 (l ++ [(last_snapshot, last_now)])) as Hlen.
    destruct (observe_all instant_max t2 _) as [t3 [|e3 es]]; [rewrite length_app in Hlen; cbn in Hlen; lia|].
    intros [Hs Hs3]%Forall_cons Hlast. destruct (H Hs Hn) as [_ Hkeep]. by apply IH; [apply Hkeep|..].
Qed.

Definition example_snapshot (x : Z) : CoreSnapshot :=
  mkCoreSnapshot (Some (mkGameWindow (Some 42) None None (lit "title") (mkRect x 36 1920 1080) (f64_of_Z 1) (lit "x11"))) Passive None None
    manual_stopwatch_snapshot_default.

Lemma geometry_logged_once_a_second_witness :
  let t := fst (observe 10000000000 event_tracker_default (example_snapshot 0) 0) in
  let observations := [(example_snapshot 2, 5)] in
  from_secs 1 + 3 + GEOMETRY_LOG_INTERVAL ≤ 10000000000 ∧ 3 + GEOMETRY_LOG_INTERVAL ≤ from_secs 1 + 3.
Proof.
  intros t observations. split; [vm_compute; discriminate|].
  pose proof (geometry_logged_once_a_second 10000000000 t observations 3 (from_secs 1 + 3) (example_snapshot 1) (example_snapshot 3)
    ltac:(repeat constructor; vm_compute; discriminate)) as H.
  vm_compute in H |- *. apply H; [repeat constructor|done|done].
Defined.

(** * What is logged of a game *)

(** No path and no long text reaches the log: an identifier is logged
    without separators, and identifiers and backends with at most
    [MAX_ID_BYTES] bytes; titles are not logged. *)
Lemma logged_game_bounded s g :
  logged_game s = Some g →
  (∀ id, lg_app_id g = Some id → 47 ∉ id ∧ 92 ∉ id ∧ str_len id ≤ MAX_ID_BYTES) ∧ str_len (lg_backend g) ≤ MAX_ID_BYTES.
Proof.
  assert (∀ v, str_len (bounded_text v) ≤ MAX_ID_BYTES ∧ bounded_text v `prefix_of` v) as Hb.
  { intros v. unfold bounded_text. pose proof (str_len_nonneg v).
    destruct (slice_to_boundary_spec (Z.to_nat (Z.min (str_len v) MAX_ID_BYTES)) v (Z.min (str_len v) MAX_ID_BYTES))
      as (? & ? & _); unfold MAX_ID_BYTES in *; [lia|]. split; [lia|done]. }
  unfold logged_game. intros (w & _ & ->)%fmap_Some. cbn. split; [|apply Hb].
  intros id (v & _ & ->)%fmap_Some. unfold bounded_identifier.
  destruct (bool_decide (47 ∈ v) || bool_decide (92 ∈ v)) eqn:E.
  - split_and!; [by apply (bool_decide_unpack _)..|done].
  - apply orb_false_iff in E as [E1%bool_decide_eq_false E2%bool_decide_eq_false].
    destruct (Hb v) as [Hl [k Hk]]. split_and!; [..|done]; intros Hin; [apply E1|apply E2]; rewrite Hk; apply elem_of_app; by left.
Qed.
