(* ===== verification/ConfigStore.v ===== *)
(** The configuration files ([store.rs], [widget_store.rs] and the stores of
    [twitch_prefs.rs] and [warframe_prefs.rs] in crates/overcrow-config/src,
    [crates/overcrow-overlay/src/notes/store.rs]): private files that are
    replaced atomically and read only when they are safe.  The encoders and
    decoders (serde) and the outcome of each file operation are parameters. *)

From S2P Require Import Prelude Text Bytes FileSystem Settings Float Widgets TwitchPrefs WarframePrefs.

(** * Files *)

(** The configuration file and the temporary file next to it. *)
Record disk := mkDisk { dk_target : option file; dk_temporary : option file }.
#[export] Instance disk_eta : Eta disk := λ d, mkDisk (dk_target d) (dk_temporary d).

(** * Atomic replacement *)

Inductive SaveStep := CreateDirectory | CreateTemporary | WriteContents | Flush | SetPermissions | SyncFile | Persist | SyncParent.

#[export] Instance SaveStep_eq_dec : EqDecision SaveStep.
Proof. solve_decision. Defined.

(** [SettingsStore::save_with_writer] sets the mode after writing, the other
    stores before. *)
Definition settings_steps : list SaveStep :=
  [CreateDirectory; CreateTemporary; WriteContents; Flush; SetPermissions; SyncFile; Persist; SyncParent].
Definition private_steps : list SaveStep :=
  [CreateDirectory; CreateTemporary; SetPermissions; WriteContents; Flush; SyncFile; Persist; SyncParent].

(** An I/O error, and whether the file was replaced all the same
    ([CommittedSettingsSaveError]). *)
Record SaveError := mkSaveError { se_error : str; se_committed : bool }.

(** How the operations end: which fail, how much a failing write wrote, and
    the mode temporary files are created with. *)
Record Faults := mkFaults { ft_fails : SaveStep → option str; ft_partial : nat; ft_created_mode : Z }.

(** A step that works. *)
Definition do_step (faults : Faults) (contents : list Z) (s : SaveStep) (d : disk) : disk :=
  match s with
  | CreateTemporary => d <| dk_temporary := Some (mkFile true (ft_created_mode faults) []) |>
  | WriteContents =>
      d <| dk_temporary ::= option_map (λ f, mkFile (fl_regular f) (fl_mode f) (fl_content f ++ contents)) |>
  | SetPermissions => d <| dk_temporary ::= option_map (λ f, mkFile (fl_regular f) PRIVATE_MODE (fl_content f)) |>
  | Persist => mkDisk (match dk_temporary d with Some f => Some f | None => dk_target d end) None
  | CreateDirectory | Flush | SyncFile | SyncParent => d
  end.

(** What a step that fails leaves behind, before the temporary file is
    dropped. *)
Definition partial_step (faults : Faults) (contents : list Z) (s : SaveStep) (d : disk) : disk :=
  match s with
  | WriteContents =>
      d <| dk_temporary ::= option_map
             (λ f, mkFile (fl_regular f) (fl_mode f) (fl_content f ++ take (ft_partial faults) contents)) |>
  | _ => d
  end.

(** The steps of a save, with every state of the disk on the way. *)
Fixpoint save_steps (faults : Faults) (contents : list Z) (steps : list SaveStep) (d : disk) :
    list disk * disk * result SaveError unit :=
  match steps with
  | [] => ([d], d, Ok tt)
  | s :: steps =>
      match ft_fails faults s with
      | Some e =>
          let partial := partial_step faults contents s d in
          let dropped := partial <| dk_temporary := None |> in
          ([d; partial; dropped], dropped, Err (mkSaveError e (bool_decide (s = SyncParent))))
      | None =>
          let '(trace, d', r) := save_steps faults contents steps (do_step faults contents s d) in
          (d :: trace, d', r)
      end
  end.

(** [path.parent()], when it is not empty. *)
Definition has_parent (p : path) : bool :=
  let '(absolute, comps) := path_components p in
  match comps with
  | [] => false
  | [_] => absolute
  | _ => true
  end.

(** * A store *)

Record Store (A : Type) := mkStore {
  st_name : str;                       (* as messages name the file *)
  st_max : Z;
  st_prepare : A → result str A;       (* validation before a save, and what is then written *)
  st_encode : A → result str (list Z); (* the JSON text, without its final newline *)
  st_decode : list Z → result str A;   (* decoding and validation *)
  st_default : A;
  st_streamed : bool;                  (* encoded straight into the file, not before *)
  st_checked : option str;             (* the error of a text that is too long, where it is checked *)
  st_too_large : str;                  (* the same on reading *)
  st_steps : list SaveStep
}.
Arguments st_name {A}. Arguments st_max {A}. Arguments st_prepare {A}. Arguments st_encode {A}.
Arguments st_decode {A}. Arguments st_default {A}. Arguments st_streamed {A}. Arguments st_checked {A}. Arguments st_too_large {A}. Arguments st_steps {A}.

Definition plain_error {A} (e : str) : result SaveError A := Err (mkSaveError e false).

Section store.
Context {A : Type} (st : Store A).

(** What a save writes, or why it does not get to writing. *)
Definition contents_of (a : A) : result SaveError (list Z) :=
  a ← map_error (λ e, mkSaveError e false) (st_prepare st a);
  text ← map_error (λ e, mkSaveError e false) (st_encode st a);
  let contents := text ++ [10] in
  match st_checked st with
  | Some e => if st_max st <? Z.of_nat (length contents) then plain_error e else Ok contents
  | None => Ok contents
  end.

Definition replace_file (p : path) (faults : Faults) (contents : list Z) (d : disk) : list disk * disk * result SaveError unit :=
  if negb (has_parent p) then ([d], d, plain_error (lit "user configuration directory unavailable"))
  else save_steps faults contents (st_steps st) d.

(** Writing a value that cannot be encoded fails. *)
Definition fails_writing (e : str) (faults : Faults) : Faults :=
  mkFaults (λ s, match ft_fails faults s with
                 | Some e' => Some e'
                 | None => if bool_decide (s = WriteContents) then Some e else None
                 end) (ft_partial faults) (ft_created_mode faults).

Definition save (p : path) (faults : Faults) (a : A) (d : disk) : list disk * disk * result SaveError unit :=
  if st_streamed st then
    match st_prepare st a with
    | Err e => ([d], d, plain_error e)
    | Ok b =>
        match st_encode st b with
        | Ok text => replace_file p faults (text ++ [10]) d
        | Err e => replace_file p (fails_writing e faults) [] d
        end
    end
  else match contents_of a with
       | Err e => ([d], d, Err e)
       | Ok contents => replace_file p faults contents d
       end.

(** How reading the file goes: an error on opening it, on its metadata or on
    its content. *)
Record ReadFaults := mkReadFaults {
  rf_open : option str;
  rf_metadata : option str;
  rf_read : option str
}.

Inductive FileLoad (B : Type) := Missing | Loaded (b : B) | Rejected (warning : str).
Arguments Missing {B}. Arguments Loaded {B}. Arguments Rejected {B}.

Definition read_private_file (faults : ReadFaults) (d : disk) : FileLoad (list Z) :=
  match dk_target d with
  | None => Missing
  | Some f =>
      match rf_open faults with
      | Some e => Rejected (lit "refusing unsafe " ++ st_name st ++ lit ": " ++ e)
      | None =>
          match rf_metadata faults with
          | Some e => Rejected (lit "could not inspect opened " ++ st_name st ++ lit ": " ++ e)
          | None =>
              if negb (fl_regular f) || negb (mode_bits f =? PRIVATE_MODE)
              then Rejected (lit "refusing to read unsafe " ++ st_name st ++ lit ": expected a regular 0600 file")
              else match rf_read faults with
                   | Some e => Rejected (lit "could not read " ++ st_name st ++ lit ": " ++ e)
                   | None =>
                       let contents := take_bytes (st_max st + 1) (fl_content f) in
                       if st_max st <? Z.of_nat (length contents)
                       then Rejected (st_too_large st ++ lit " file is too large (maximum " ++ show_Z (st_max st) ++ lit " bytes)")
                       else Loaded contents
                   end
          end
      end
  end.

Definition read_file (faults : ReadFaults) (d : disk) : FileLoad A :=
  match read_private_file faults d with
  | Missing => Missing
  | Rejected w => Rejected w
  | Loaded contents =>
      match st_decode st contents with
      | Ok a => Loaded a
      | Err e => Rejected (lit "invalid " ++ st_name st ++ lit ": " ++ e)
      end
  end.

(** The value and the warning a load gives. *)
Definition load (faults : ReadFaults) (d : disk) : A * option str :=
  match read_file faults d with
  | Loaded a => (a, None)
  | Rejected w => (st_default st, Some w)
  | Missing => (st_default st, None)
  end.

(** * Saving is atomic *)

(** The file holds what it held, or the new contents and nothing else, private. *)
Definition replaced (contents : list Z) : option file := Some (mkFile true PRIVATE_MODE contents).

Definition step_order_ok (steps : list SaveStep) : Prop := steps = settings_steps ∨ steps = private_steps.

Lemma save_steps_atomic faults contents steps d :
  step_order_ok steps → dk_temporary d = None →
  let '(trace, d', r) := save_steps faults contents steps d in
  Forall (λ x, dk_target x = dk_target d ∨ dk_target x = replaced contents) trace ∧
  dk_temporary d' = None ∧
  dk_target d' = match r with
                 | Ok _ => replaced contents
                 | Err e => if se_committed e then replaced contents else dk_target d
                 end.
Proof.
  intros Ho Ht. destruct d as [target temporary]. cbn in Ht. subst temporary.
  destruct Ho as [-> | ->]; unfold settings_steps, private_steps; cbn [save_steps do_step];
  repeat (match goal with |- context [ft_fails faults ?s] => destruct (ft_fails faults s) end; cbn [save_steps do_step]);
  cbn; split_and!; try done; repeat (constructor; cbn; auto).
Qed.

(** A streamed store checks no size. *)
Definition store_ok : Prop := step_order_ok (st_steps st) ∧ (st_streamed st = true → st_checked st = None).

(** The bytes a save puts in the file, if it gets there. *)
Definition written (a : A) : option (list Z) := ok_opt (contents_of a).

Definition save_result (old : option file) (contents : list Z) (r : result SaveError unit) : option file :=
  match r with
  | Ok _ => replaced contents
  | Err e => if se_committed e then replaced contents else old
  end.

Lemma replace_file_atomic p faults contents d :
  step_order_ok (st_steps st) → dk_temporary d = None →
  let '(trace, d', r) := replace_file p faults contents d in
  Forall (λ x, dk_target x = dk_target d ∨ dk_target x = replaced contents) trace ∧
  dk_temporary d' = None ∧ dk_target d' = save_result (dk_target d) contents r.
Proof.
  intros Ho Ht. unfold replace_file. destruct (has_parent p); cbn [negb].
  - pose proof (save_steps_atomic faults contents (st_steps st) d Ho Ht) as H.
    destruct (save_steps _ _ _ _) as [[trace d'] r]. exact H.
  - split_and!; [by repeat constructor; left|done..].
Qed.

(** Before the file is replaced, nothing that fails changes it. *)
Lemma save_steps_unwritten e faults contents steps d :
  step_order_ok steps → dk_temporary d = None →
  let '(trace, d', r) := save_steps (fails_writing e faults) contents steps d in
  Forall (λ x, dk_target x = dk_target d) trace ∧ dk_temporary d' = None ∧ dk_target d' = dk_target d ∧
  is_ok r = false.
Proof.
  intros Ho Ht. destruct d as [target temporary]. cbn in Ht. subst temporary.
  destruct Ho as [-> | ->]; unfold settings_steps, private_steps, fails_writing; cbn [save_steps do_step ft_fails];
  repeat (match goal with |- context [ft_fails faults ?s] => destruct (ft_fails faults s) end; cbn [save_steps do_step ft_fails]);
  try (rewrite bool_decide_eq_true_2 by done); cbn; split_and!; try done; repeat (constructor; cbn; auto).
Qed.

Lemma save_target p faults a d (Ho : store_ok) (Ht : dk_temporary d = None) :
  let '(trace, d', r) := save p faults a d in
  dk_temporary d' = None ∧
  match written a with
  | None => Forall (λ x, dk_target x = dk_target d) trace ∧ dk_target d' = dk_target d ∧ is_ok r = false
  | Some contents =>
      Forall (λ x, dk_target x = dk_target d ∨ dk_target x = replaced contents) trace ∧
      dk_target d' = save_result (dk_target d) contents r
  end.
Proof.
  destruct Ho as [Ho Hst]. unfold save, written, contents_of. destruct (st_streamed st).
  - rewrite (Hst eq_refl). destruct (st_prepare st a) as [b|e]; cbn; [|by repeat constructor].
    destruct (st_encode st b) as [text|e]; cbn.
    + pose proof (replace_file_atomic p faults (text ++ [10]) d Ho Ht) as H.
      destruct (replace_file _ _ _ _) as [[trace d'] r]. by destruct H as (? & ? & ?).
    + unfold replace_file. destruct (has_parent p); cbn [negb]; [|by repeat constructor].
      pose proof (save_steps_unwritten e faults [] (st_steps st) d Ho Ht) as H.
      destruct (save_steps _ _ _ _) as [[trace d'] r]. by destruct H as (? & ? & ? & ?).
  - fold (contents_of a). destruct (contents_of a) as [contents|e]; cbn; [|by repeat constructor].
    pose proof (replace_file_atomic p faults contents d Ho Ht) as H.
    destruct (replace_file _ _ _ _) as [[trace d'] r]. by destruct H as (? & ? & ?).
Qed.

(** C21 A save either leaves the file as it was, with an error, or replaces it by a private file of exactly the
    encoded value; whatever fails, and at every moment in between - so after a crash too - the file holds one of the
    two in full, and no temporary file is left. *)
Theorem save_atomic p faults a d (Ho : store_ok) (Ht : dk_temporary d = None) :
  let '(trace, d', r) := save p faults a d in
  dk_temporary d' = None ∧
  match written a with
  | None => Forall (λ x, dk_target x = dk_target d) trace ∧ dk_target d' = dk_target d ∧ is_ok r = false
  | Some contents =>
      Forall (λ x, dk_target x = dk_target d ∨ dk_target x = replaced contents) trace ∧
      dk_target d' = save_result (dk_target d) contents r
  end.
Proof. by apply save_target. Qed.

Lemma read_replaced contents :
  Z.of_nat (length contents) ≤ st_max st →
  read_private_file (mkReadFaults None None None) (mkDisk (replaced contents) None) = Loaded contents.
Proof.
  intros Hlen. unfold read_private_file. cbn. unfold take_bytes. rewrite take_ge by lia.
  by destruct (Z.ltb_spec (st_max st) (Z.of_nat (length contents))); [lia|].
Qed.

(** The decoder reads back what the encoder wrote of a value ready to be saved. *)
Definition codec_ok : Prop :=
  ∀ a b text, st_prepare st a = Ok b → st_encode st b = Ok text → st_decode st (text ++ [10]) = Ok b.

End store.
Arguments Missing {B}. Arguments Loaded {B}. Arguments Rejected {B}.

(** * The stores of the program *)

Definition settings_error_text (e : SettingsError) : str :=
  lit match e with
  | UnsupportedSchemaVersion => "unsupported settings schema version"
  | ZeroSteamAppId => "Steam app ID must not be zero"
  | DuplicateManualId => "manual game IDs must be unique"
  | NonAbsoluteExecutable => "manual game executable must be absolute"
  | MalformedAccelerator => "shortcut accelerator is malformed"
  end.

Definition widget_name (id : WidgetId) : str :=
  lit match id with
  | Session => "Session" | Clock => "Clock" | Performance => "Performance" | ManualStopwatch => "ManualStopwatch"
  | Media => "Media" | Widgets.Notes => "Notes" | WarframeStatus => "WarframeStatus" | WarframeFissures => "WarframeFissures"
  | WarframeMarket => "WarframeMarket" | WarframeSortie => "WarframeSortie" | WarframeInvasions => "WarframeInvasions"
  | TwitchChat => "TwitchChat" | DiscordVoice => "DiscordVoice"
  end.

Definition widget_error_text (e : WidgetProfileError) : str :=
  match e with
  | WidgetUnsupportedSchemaVersion => lit "unsupported widget profile schema version"
  | InvalidPosition id => lit "invalid normalized position for widget " ++ widget_name id
  | InvalidScale id => lit "invalid scale for widget " ++ widget_name id
  | InvalidSize id => lit "invalid panel size for widget " ++ widget_name id
  | EmptyNotesDisplay => lit "notes widget must show a note or checklist"
  | InvalidDiscordParticipantLimit => lit "invalid Discord participant limit"
  end.

Definition twitch_error_text (e : TwitchPrefsError) : str :=
  lit match e with
  | TwitchUnsupportedSchemaVersion => "unsupported Twitch preferences schema version"
  | InvalidChannel => "invalid Twitch channel"
  | TooManyFavorites => "too many favorite Twitch channels"
  | InvalidPassiveLifetime => "invalid passive Twitch message lifetime"
  end.

Definition warframe_error_text (e : WarframePrefsError) : str :=
  lit match e with
  | WarframeUnsupportedSchemaVersion => "unsupported warframe prefs schema version"
  | QueryTooLong => "market query is too long"
  | InvalidQuery => "market query is invalid"
  | NoSourceSelected => "at least one fissure source must be enabled"
  | WatchlistTooLong => "invasion watchlist is too long"
  | WatchlistEntryTooLong => "invasion watchlist entry is too long"
  | InvalidWatchlistEntry => "invasion watchlist entry is invalid"
  | ActivityDoneTooLong => "activity done list is too long"
  | ActivityDoneEntryTooLong => "activity done entry is too long"
  | InvalidActivityDoneEntry => "activity done entry is invalid"
  end.

Definition SETTINGS_MAX_BYTES : Z := 1024 * 1024.
Definition WIDGET_MAX_BYTES : Z := 64 * 1024.
Definition TWITCH_PREFS_MAX_BYTES : Z := 16 * 1024.
Definition WARFRAME_PREFS_MAX_BYTES : Z := 64 * 1024.

Section stores.
Context (encode_settings : LifecycleSettings → result str (list Z)) (decode_settings : list Z → result str LifecycleSettings).
Context (encode_widgets : WidgetProfile → result str (list Z)) (decode_widgets : list Z → result str WidgetProfile).
Context (encode_twitch : TwitchPrefs → result str (list Z)) (decode_twitch : list Z → result str TwitchPrefs).
Context (encode_warframe : WarframePrefs → result str (list Z)) (decode_warframe : list Z → result str WarframePrefs).

Definition settings_store : Store LifecycleSettings := {|
  st_name := lit "lifecycle settings";
  st_max := SETTINGS_MAX_BYTES;
  st_prepare s := _ ← map_error settings_error_text (validate_settings s); Ok s;
  st_encode := encode_settings;
  st_decode bytes := s ← decode_settings bytes; map_error settings_error_text (validate_settings s);
  st_default := lifecycle_settings_default;
  st_streamed := true;
  st_checked := None;
  st_too_large := lit "could not read lifecycle settings: settings";
  st_steps := settings_steps
|}.

(** Profiles of versions 1 and 2 are read as the current one. *)
Definition upgrade_profile (p : WidgetProfile) : WidgetProfile :=
  if bool_decide (wpr_schema_version p ∈ [1; 2]) then p <| wpr_schema_version := WIDGET_SCHEMA_VERSION |> else p.

Definition widget_store : Store WidgetProfile := {|
  st_name := lit "widget settings";
  st_max := WIDGET_MAX_BYTES;
  st_prepare p := _ ← map_error widget_error_text (validate_widget_profile p); Ok p;
  st_encode := encode_widgets;
  st_decode bytes := p ← decode_widgets bytes; map_error widget_error_text (validate_widget_profile (upgrade_profile p));
  st_default := widget_profile_default;
  st_streamed := true;
  st_checked := None;
  st_too_large := lit "widget settings";
  st_steps := private_steps
|}.

Definition twitch_store : Store TwitchPrefs := {|
  st_name := lit "Twitch preferences";
  st_max := TWITCH_PREFS_MAX_BYTES;
  st_prepare p := map_error twitch_error_text (validate_twitch_prefs p);
  st_encode := encode_twitch;
  st_decode bytes := p ← decode_twitch bytes; map_error twitch_error_text (validate_twitch_prefs p);
  st_default := twitch_prefs_default;
  st_streamed := false;
  st_checked := Some (lit "Twitch preferences are too large");
  st_too_large := lit "Twitch preferences";
  st_steps := private_steps
|}.

Definition warframe_store : Store WarframePrefs := {|
  st_name := lit "warframe prefs";
  st_max := WARFRAME_PREFS_MAX_BYTES;
  st_prepare p := map_error warframe_error_text (validate_warframe_prefs p);
  st_encode := encode_warframe;
  st_decode bytes := p ← decode_warframe bytes; map_error warframe_error_text (validate_warframe_prefs p);
  st_default := warframe_prefs_default;
  st_streamed := false;
  st_checked := Some (lit "warframe prefs are too large");
  st_too_large := lit "warframe prefs";
  st_steps := private_steps
|}.

Lemma stores_ok : store_ok settings_store ∧ store_ok widget_store ∧ store_ok twitch_store ∧ store_ok warframe_store.
Proof. split_and!; (split; [by (left + right)|done]). Qed.

(** The widget profile is read from its own file, or from the older file of
    overlay preferences. *)
Record LegacyOverlayPreferences := mkLegacyOverlayPreferences {
  lo_show_stopwatch_in_passive : bool;
  lo_stopwatch_position : WidgetPosition
}.

Context (decode_legacy : list Z → result str LegacyOverlayPreferences).

Definition legacy_store : Store LegacyOverlayPreferences := {|
  st_name := lit "legacy widget preferences";
  st_max := WIDGET_MAX_BYTES;
  st_prepare := Ok;
  st_encode _ := Err [];
  st_decode bytes :=
    l ← decode_legacy bytes;
    if position_is_valid (lo_stopwatch_position l) then Ok l else Err (lit "position");
  st_default := mkLegacyOverlayPreferences false (default_position Session);
  st_streamed := false;
  st_checked := None;
  st_too_large := lit "legacy widget preferences";
  st_steps := private_steps
|}.

Definition load_widgets (faults legacy_faults : ReadFaults) (d legacy : disk) : WidgetProfile * option str :=
  match read_file widget_store faults d with
  | Loaded profile => (profile, None)
  | Rejected w => (widget_profile_default, Some w)
  | Missing =>
      match read_file legacy_store legacy_faults legacy with
      | Loaded l =>
          (widget_profile_default <| wpr_session ::= λ s,
             s <| ws_show_in_passive := lo_show_stopwatch_in_passive l |> <| ws_position := lo_stopwatch_position l |> |>,
           None)
      | Rejected w => (widget_profile_default, Some w)
      | Missing => (widget_profile_default, None)
      end
  end.

(** [SettingsStore::diagnose], which tells only what it must. *)
Inductive SettingsDiagnostic :=
| DiagUnavailable | DiagMissing | DiagInvalid
| DiagValid (enabled : bool) (selected_games : Z).

Definition diagnose (p : path) (faults : ReadFaults) (d : disk) : SettingsDiagnostic :=
  if bool_decide (p = []) then DiagUnavailable
  else match read_file settings_store faults d with
       | Missing => DiagMissing
       | Rejected _ => DiagInvalid
       | Loaded s =>
           match checked_add u64_max (Z.of_nat (size (ls_selected_steam_app_ids s))) (Z.of_nat (length (ls_manual_games s))) with
           | Some selected_games => DiagValid (ls_enabled s) selected_games
           | None => DiagInvalid
           end
       end.
End stores.

(** Where the files are: under an absolute [XDG_CONFIG_HOME], else under an
    absolute home. *)
Definition absolute (value : option path) : option path :=
  value ← opt_filter (λ v, negb (bool_decide (v = []))) value;
  then_some (path_is_absolute value) value.

Definition config_file (xdg_config_home home : option path) (name : string) : path :=
  match match absolute xdg_config_home with Some x => Some x | None => (λ h, path_join h (lit ".config")) <$> absolute home end with
  | Some root => path_join root (lit name)
  | None => []
  end.

Definition settings_path (xdg_config_home home : option path) : path := config_file xdg_config_home home "overcrow/settings.json".
Definition twitch_prefs_path (xdg_config_home home : option path) : path := config_file xdg_config_home home "overcrow/twitch.json".
Definition warframe_prefs_path (xdg_config_home home : option path) : path := config_file xdg_config_home home "overcrow/warframe.json".
Definition widget_paths (xdg_config_home home : option path) : path * path :=
  match match absolute xdg_config_home with Some x => Some x | None => (λ h, path_join h (lit ".config")) <$> absolute home end with
  | Some root =>
      let directory := path_join root (lit "overcrow") in
      (path_join directory (lit "widgets.json"), path_join directory (lit "overlay.json"))
  | None => ([], [])
  end.

(** * Examples *)

(** A store of plain byte strings. *)
Definition byte_store : Store (list Z) := {|
  st_name := lit "bytes"; st_max := 100; st_prepare := Ok; st_encode := Ok; st_decode b := Ok (removelast b);
  st_default := []; st_streamed := false; st_checked := Some (lit "too large"); st_too_large := lit "bytes";
  st_steps := private_steps
|}.
Definition no_faults : Faults := mkFaults (λ _, None) 0 PRIVATE_MODE.
Definition sync_fails : Faults := mkFaults (λ s, if bool_decide (s = SyncFile) then Some (lit "no space") else None) 0 PRIVATE_MODE.


Lemma save_atomic_witness :
  let old := Some (mkFile true PRIVATE_MODE [1]) in
  let '(trace, d', r) := save byte_store (lit "/home/u/f") sync_fails [7; 8] (mkDisk old None) in
  is_ok r = false ∧ dk_target d' = old ∧ Forall (λ x, dk_target x = old ∨ dk_target x = replaced [7; 8; 10]) trace.
Proof.
  cbv zeta. assert (store_ok byte_store) as Ho by (split; [by right|done]).
  pose proof (save_atomic byte_store (lit "/home/u/f") sync_fails [7; 8]
    (mkDisk (Some (mkFile true PRIVATE_MODE [1])) None) Ho eq_refl) as H.
  revert H. vm_compute. intros (_ & H & _). split; [reflexivity|]. split; [reflexivity|exact H].
Defined.
