(* ===== verification/ControlModel.v ===== *)
(** The selections of the control application
    ([crates/overcrow-control/src/model.rs]): the games found, the settings
    being edited and the manual games, whose identity is their canonical
    path. *)

From S2P Require Import Prelude Text Bytes FileSystem Settings ConfigStore SteamLibrary UpdateRelease.

Definition MANUAL_ID_PREFIX : str := lit "local.".
Definition MANUAL_ID_DIGEST_BYTES : nat := 16.

Inductive SelectionError :=
| EmptyName | ExecutableNotAbsolute | ExecutableNotUtf8 | ExecutableValidationFailed (kind : str)
| ExecutableNotRegularFile | ExecutableNotExecutable | WineIdentityUnavailable
| DuplicateManualExecutable | ManualGameIdCollision.

(** [Path::extension]. *)
Definition path_extension (p : path) : option (list Z) :=
  name ← path_file_name p;
  match reverse (split 46 name) with
  | extension :: before :: rest => if bool_decide (before = [] ∧ rest = []) then None else Some extension
  | _ => None
  end.

Definition has_exe_extension (p : path) : bool :=
  is_some_and (λ e, eq_ignore_ascii_case e (lit "exe")) (path_extension p ≫= from_utf8).

(** Paths of a native executable: the file system, with [canonicalize] and
    the metadata of the canonical path. *)
Record ExecutableMetadata := mkExecutableMetadata { em_regular : bool; em_mode : Z }.

(** [NativePathValidator::canonical_executable]. *)
Definition native_canonical_executable (canonicalize : path → result str path)
    (metadata : path → result str ExecutableMetadata) (p : path) : result SelectionError path :=
  if negb (path_is_absolute p) then Err ExecutableNotAbsolute
  else if has_exe_extension p then Err WineIdentityUnavailable
  else
    canonical ← map_error ExecutableValidationFailed (canonicalize p);
    if has_exe_extension canonical then Err WineIdentityUnavailable
    else
      m ← map_error ExecutableValidationFailed (metadata canonical);
      if negb (em_regular m) then Err ExecutableNotRegularFile
      else if Z.land (em_mode m) 73 =? 0 then Err ExecutableNotExecutable (* 0o111 *)
      else Ok canonical.

(** [PathValidator], and SHA-256 of the library. *)
Class PathValidator := {
  canonical_executable : path → result SelectionError path;
  sha256_digest : list Z → list Z
}.

Section model.
Context `{PathValidator} (case_fold : str → str).

Definition stable_manual_game_id (canonical : path) : str :=
  MANUAL_ID_PREFIX ++ (take MANUAL_ID_DIGEST_BYTES (sha256_digest canonical) ≫= hex_byte).

Definition is_stable_manual_game_id (id : str) : bool :=
  is_some_and (λ digest, (str_len digest =? Z.of_nat MANUAL_ID_DIGEST_BYTES * 2)
                         && forallb (λ b, ((48 <=? b) && (b <=? 57)) || ((97 <=? b) && (b <=? 102))) (utf8 digest))
    (strip_prefix MANUAL_ID_PREFIX id).

Definition validated_manual_game (name : str) (executable : path) : result SelectionError ManualGame :=
  let name := trim name in
  if bool_decide (name = []) then Err EmptyName
  else if negb (path_is_absolute executable) then Err ExecutableNotAbsolute
  else
    canonical ← canonical_executable executable;
    if negb (path_is_absolute canonical) then Err ExecutableNotAbsolute
    else if isNone (from_utf8 canonical) then Err ExecutableNotUtf8
    else if has_exe_extension canonical then Err WineIdentityUnavailable
    else Ok (mkManualGame (stable_manual_game_id canonical) name canonical).

(** [PartialEq] of manual games: paths by component. *)
Definition manual_game_eqb (a b : ManualGame) : bool :=
  str_eqb (mg_id a) (mg_id b) && str_eqb (mg_name a) (mg_name b) && path_eqb (mg_executable a) (mg_executable b).

(** [validate_stored_manual_game]: the game as validated now, or none. *)
Definition validate_stored_manual_game (game : ManualGame) : bool :=
  match validated_manual_game (mg_name game) (mg_executable game) with
  | Ok validated => manual_game_eqb validated game
  | Err _ => false
  end.

(** The loop of [revalidated_loaded_manual_games]: the games retained, the
    paths and ids seen, and how many were dropped. *)
Definition revalidate_step (s : list ManualGame * nat) (loaded : ManualGame) : list ManualGame * nat :=
  let '(retained, dropped) := s in
  match validated_manual_game (mg_name loaded) (mg_executable loaded) with
  | Err _ => (retained, S dropped)
  | Ok validated =>
      if path_eqb (mg_executable loaded) (mg_executable validated) && str_eqb (mg_id loaded) (mg_id validated)
         && negb (existsb (λ g, path_eqb (mg_executable g) (mg_executable validated)) retained)
         && negb (existsb (λ g, str_eqb (mg_id g) (mg_id validated)) retained)
      then (retained ++ [validated], dropped)
      else (retained, S dropped)
  end.

Definition revalidated_loaded_manual_games (games : list ManualGame) : list ManualGame * nat :=
  foldl revalidate_step ([], 0%nat) games.

Definition merged_settings_warning (existing : option str) (dropped : nat) : option str :=
  match dropped with
  | O => existing
  | _ =>
      let text := lit "Dropped " ++ show_Z (Z.of_nat dropped) ++ lit " invalid manual game selection"
                  ++ (if (dropped =? 1)%nat then [] else lit "s") ++ lit "." in
      Some match existing with Some existing => existing ++ lit " " ++ text | None => text end
  end.

Record ControlModel := mkControlModel {
  cm_settings : LifecycleSettings;
  cm_games : list SteamGame;
  cm_discovery_warnings : list str;
  cm_settings_warning : option str;
  cm_search : str
}.

Definition set_manual_games (games : list ManualGame) (s : LifecycleSettings) : LifecycleSettings :=
  mkLifecycleSettings (ls_schema_version s) (ls_enabled s) (ls_selected_steam_app_ids s) games (ls_shortcut s).
Definition set_steam_ids (ids : gset Z) (s : LifecycleSettings) : LifecycleSettings :=
  mkLifecycleSettings (ls_schema_version s) (ls_enabled s) ids (ls_manual_games s) (ls_shortcut s).
Definition disable_when (b : bool) (s : LifecycleSettings) : LifecycleSettings :=
  mkLifecycleSettings (ls_schema_version s) (if b then false else ls_enabled s) (ls_selected_steam_app_ids s)
    (ls_manual_games s) (ls_shortcut s).

(** The settings a load leaves, and the warning. *)
Definition accept_load (l : LifecycleSettings * option str) : LifecycleSettings * option str :=
  let '(settings, warning) := l in
  let '(games, dropped) := revalidated_loaded_manual_games (ls_manual_games settings) in
  (disable_when (negb (dropped =? 0)%nat) (set_manual_games games settings), merged_settings_warning warning dropped).

Definition model_new (l : LifecycleSettings * option str) (discovery : DiscoveryReport) : ControlModel :=
  let '(settings, warning) := accept_load l in
  mkControlModel settings (dr_games discovery) (dr_warnings discovery) warning [].

Definition apply_settings_load (l : LifecycleSettings * option str) (m : ControlModel) : ControlModel :=
  let '(settings, warning) := accept_load l in
  mkControlModel settings (cm_games m) (cm_discovery_warnings m) warning (cm_search m).

Definition with_settings (f : LifecycleSettings → LifecycleSettings) (m : ControlModel) : ControlModel :=
  mkControlModel (f (cm_settings m)) (cm_games m) (cm_discovery_warnings m) (cm_settings_warning m) (cm_search m).

Definition set_search (search : str) (m : ControlModel) : ControlModel :=
  mkControlModel (cm_settings m) (cm_games m) (cm_discovery_warnings m) (cm_settings_warning m) (case_fold (trim search)).

Definition visible_games (m : ControlModel) : list SteamGame :=
  List.filter (λ g, bool_decide (cm_search m = []) || contains (cm_search m) (case_fold (sg_name g))) (cm_games m).

Definition set_steam_selected (app_id : Z) (selected : bool) (m : ControlModel) : ControlModel :=
  let ids := ls_selected_steam_app_ids (cm_settings m) in
  if selected then
    if existsb (λ g, sg_app_id g =? app_id) (cm_games m) then with_settings (set_steam_ids ({[app_id]} ∪ ids)) m else m
  else with_settings (set_steam_ids (ids ∖ {[app_id]})) m.

Definition add_manual_game (name : str) (executable : path) (m : ControlModel) : ControlModel * result SelectionError str :=
  match validated_manual_game name executable with
  | Err e => (m, Err e)
  | Ok game =>
      let games := ls_manual_games (cm_settings m) in
      if existsb (λ g, path_eqb (mg_executable g) (mg_executable game)) games then (m, Err DuplicateManualExecutable)
      else if existsb (λ g, str_eqb (mg_id g) (mg_id game)) games then (m, Err ManualGameIdCollision)
      else (with_settings (set_manual_games (games ++ [game])) m, Ok (mg_id game))
  end.

Definition remove_manual_game (id : str) (m : ControlModel) : ControlModel * bool :=
  let games := ls_manual_games (cm_settings m) in
  let kept := List.filter (λ g, negb (str_eqb (mg_id g) id)) games in
  (with_settings (set_manual_games kept) m, negb (length kept =? length games)%nat).

(** What [save_selections] gives the store, or nothing. *)
Definition selections_to_save (m : ControlModel) : option LifecycleSettings :=
  let games := ls_manual_games (cm_settings m) in
  let '(validated, dropped) := revalidated_loaded_manual_games games in
  if negb (dropped =? 0)%nat || negb (bool_decide (Forall2 (λ a b, manual_game_eqb a b = true) validated games)) then None
  else Some (set_manual_games validated (cm_settings m)).

(** * The invariant *)

Definition game_named (g : ManualGame) : Prop :=
  mg_id g = stable_manual_game_id (mg_executable g) ∧ path_is_absolute (mg_executable g) = true ∧
  has_exe_extension (mg_executable g) = false ∧ is_Some (from_utf8 (mg_executable g)) ∧
  mg_name g ≠ [] ∧ trim (mg_name g) = mg_name g.

Record games_wf (games : list ManualGame) : Prop := {
  gw_named : Forall game_named games;
  gw_ids : NoDup (mg_id <$> games);
  gw_paths : NoDup (path_components ∘ mg_executable <$> games)
}.

Lemma validated_manual_game_named name executable g :
  validated_manual_game name executable = Ok g → game_named g ∧ canonical_executable executable = Ok (mg_executable g).
Proof.
  unfold validated_manual_game. case_bool_decide as Hn; [done|].
  destruct (path_is_absolute executable); cbn [negb]; [|done].
  intros (canonical & Hc & E)%result_bind_Ok. destruct (path_is_absolute canonical) eqn:Ha; cbn [negb] in E; [|done].
  destruct (from_utf8 canonical) eqn:Hu; cbn in E; [|done]. destruct (has_exe_extension canonical) eqn:He; [done|].
  injection E as <-. split; [|done]. unfold game_named. cbn [mg_id mg_name mg_executable].
  split_and!; [done..|by rewrite Hu|done|apply trim_trim].
Qed.

Lemma existsb_false_elem {A} (f : A → bool) l : existsb f l = false ↔ ∀ x, x ∈ l → f x = false.
Proof.
  split.
  - intros Hf x Hx. apply not_true_is_false. intros Ht. apply not_true_iff_false in Hf. destruct Hf.
    apply existsb_exists. exists x. by rewrite <- list_elem_of_In.
  - intros Hf. apply not_true_is_false. intros (x & Hx%list_elem_of_In & Ht)%existsb_exists. by rewrite Hf in Ht.
Qed.

(** A game that differs from all the others in its path and id. *)
Lemma games_wf_snoc games g :
  games_wf games → game_named g →
  existsb (λ h, path_eqb (mg_executable h) (mg_executable g)) games = false →
  existsb (λ h, str_eqb (mg_id h) (mg_id g)) games = false → games_wf (games ++ [g]).
Proof.
  intros [Hn Hi Hp] Hg Ep Ei. rewrite existsb_false_elem in Ep, Ei. split.
  - apply Forall_app. by rewrite Forall_singleton.
  - rewrite fmap_app. apply NoDup_app. split_and!; [done| |apply NoDup_singleton].
    intros id (h & -> & Hh)%list_elem_of_fmap E%list_elem_of_singleton. specialize (Ei h Hh). by rewrite E, str_eqb_neq in Ei.
  - rewrite fmap_app. apply NoDup_app. split_and!; [done| |apply NoDup_singleton].
    intros c (h & -> & Hh)%list_elem_of_fmap E%list_elem_of_singleton. specialize (Ep h Hh).
    unfold path_eqb in Ep. by apply bool_decide_eq_false in Ep.
Qed.

Lemma games_wf_nil : games_wf [].
Proof. split; constructor. Qed.

(** What revalidation retains. *)
Lemma revalidate_games_wf games :
  games_wf (fst (revalidated_loaded_manual_games games)).
Proof.
  unfold revalidated_loaded_manual_games. assert (games_wf (fst (([] : list ManualGame), 0%nat))) as H0 by apply games_wf_nil.
  revert H0. generalize (([] : list ManualGame), 0%nat). induction games as [|g games IH]; intros [retained dropped] Hs; cbn [foldl]; [done|].
  apply IH. unfold revalidate_step.
  destruct (validated_manual_game (mg_name g) (mg_executable g)) as [v|] eqn:Hv; [|done].
  destruct (_ && _ && negb (existsb _ retained) && negb (existsb _ retained)) eqn:E; [|done].
  rewrite !andb_true_iff, !negb_true_iff in E. destruct E as [[_ Ep] Ei].
  apply games_wf_snoc; [done|by eapply validated_manual_game_named|done..].
Qed.

Definition steam_ids_wf (m : ControlModel) : Prop := 0 ∉ ls_selected_steam_app_ids (cm_settings m).

Record model_wf (m : ControlModel) : Prop := {
  mw_games : games_wf (ls_manual_games (cm_settings m));
  mw_settings : validate_settings (cm_settings m) = Ok (cm_settings m);
  mw_found : Forall (λ g, sg_app_id g ≠ 0) (cm_games m)
}.

(** The user's edits. *)
Inductive Edit :=
| EdSearch (search : str)
| EdSteam (app_id : Z) (selected : bool)
| EdAdd (name : str) (executable : path)
| EdRemove (id : str).

Definition edit (m : ControlModel) (e : Edit) : ControlModel :=
  match e with
  | EdSearch search => set_search search m
  | EdSteam app_id selected => set_steam_selected app_id selected m
  | EdAdd name executable => fst (add_manual_game name executable m)
  | EdRemove id => fst (remove_manual_game id m)
  end.

Lemma validate_manual_games_ok seen games :
  Forall (λ g, path_is_absolute (mg_executable g) = true) games → NoDup (mg_id <$> games) →
  (∀ g, g ∈ games → mg_id g ∉ seen) → validate_manual_games seen games = None.
Proof.
  intros Ha. revert seen. induction Ha as [|g games Hg Hgs IH]; intros seen Hn Hs; cbn; [done|].
  apply NoDup_cons in Hn as [Hni Hn]. rewrite bool_decide_eq_false_2 by (apply Hs; by left). rewrite Hg. cbn.
  apply IH; [done|]. intros h Hh [E|Hin]%elem_of_cons; [|by apply (Hs h); [right|]].
  apply Hni. rewrite <- E. apply list_elem_of_fmap. eauto.
Qed.

Lemma validate_settings_fields s games ids enabled :
  validate_settings s = Ok s → games_wf games → 0 ∉ ids →
  let s' := mkLifecycleSettings (ls_schema_version s) enabled ids games (ls_shortcut s) in
  validate_settings s' = Ok s'.
Proof.
  intros Hs [Hn Hi _] Hids s'. unfold validate_settings in *. cbn.
  destruct (ls_schema_version s =? SETTINGS_SCHEMA_VERSION); cbn in *; [|done].
  destruct (bool_decide (0 ∈ ls_selected_steam_app_ids s)); [done|].
  rewrite bool_decide_eq_false_2 by done.
  destruct (validate_manual_games [] (ls_manual_games s)); [done|].
  rewrite validate_manual_games_ok; [|eapply Forall_impl; [exact Hn|]; by intros g (_ & ? & _)|done|by intros g _ ?%elem_of_nil].
  by destruct (accelerator_is_valid _).
Qed.

Lemma validate_settings_ids s : validate_settings s = Ok s → 0 ∉ ls_selected_steam_app_ids s.
Proof.
  unfold validate_settings. destruct (ls_schema_version s =? SETTINGS_SCHEMA_VERSION); cbn; [|done].
  by case_bool_decide.
Qed.

Lemma model_new_wf l discovery :
  validate_settings (fst l) = Ok (fst l) → Forall (λ g, sg_app_id g ≠ 0) (dr_games discovery) →
  model_wf (model_new l discovery).
Proof.
  destruct l as [s w]. intros Hs Hg. unfold model_new, accept_load. cbn in Hs.
  pose proof (revalidate_games_wf (ls_manual_games s)) as Hw.
  destruct (revalidated_loaded_manual_games (ls_manual_games s)) as [games dropped]. cbn in Hw.
  split; cbn; [done| |done].
  apply (validate_settings_fields s games (ls_selected_steam_app_ids s)); [done..|]. by apply validate_settings_ids.
Qed.

Lemma edit_wf m e : model_wf m → model_wf (edit m e).
Proof.
  intros [Hg Hs Hf]. pose proof (validate_settings_ids _ Hs) as Hids. destruct e as [search|app_id selected|name executable|id]; cbn.
  - by split.
  - unfold set_steam_selected. destruct selected; [destruct (existsb _ (cm_games m)) eqn:E; [|by split]|];
      split; cbn; try done; apply (validate_settings_fields (cm_settings m)); try done; [|set_solver].
    apply existsb_exists in E as (g & Hin%list_elem_of_In & Eid%Z.eqb_eq). rewrite Forall_forall in Hf.
    specialize (Hf g Hin). set_solver.
  - unfold add_manual_game. destruct (validated_manual_game name executable) as [g|] eqn:Hv; [|by split].
    apply validated_manual_game_named in Hv as [Hn _].
    destruct (existsb _ _) eqn:Ep; [by split|]. destruct (existsb (λ h, str_eqb _ _) _) eqn:Ei; [by split|].
    pose proof (games_wf_snoc _ g Hg Hn Ep Ei) as Hg'. split; cbn; [done| |done].
    by apply (validate_settings_fields (cm_settings m)).
  - assert (games_wf (List.filter (λ g, negb (str_eqb (mg_id g) id)) (ls_manual_games (cm_settings m)))) as Hk.
    { destruct Hg as [Hn Hi Hp].
      assert (List.filter (λ g, negb (str_eqb (mg_id g) id)) (ls_manual_games (cm_settings m)) `sublist_of`
        ls_manual_games (cm_settings m)) as Hsub.
      { clear. induction (ls_manual_games (cm_settings m)) as [|g l IH]; cbn; [done|]. destruct (str_eqb (mg_id g) id); cbn;
          [by apply sublist_cons|by apply sublist_skip]. }
      split; [by eapply Forall_sublist|eapply sublist_NoDup; [exact Hi|by apply fmap_sublist]|
        eapply sublist_NoDup; [exact Hp|by apply fmap_sublist]]. }
    split; cbn; [done| |done]. by apply (validate_settings_fields (cm_settings m)).
Qed.

(** Whatever the user edits after a load of valid settings, the settings stay valid, and every manual game
    keeps the id of its canonical path, a name, and a path no other game has. *)
Theorem selections_stay_valid l discovery edits
    (Hl : validate_settings (fst l) = Ok (fst l)) (Hd : Forall (λ g, sg_app_id g ≠ 0) (dr_games discovery)) :
  model_wf (foldl edit (model_new l discovery) edits).
Proof.
  pose proof (model_new_wf l discovery Hl Hd) as Hw. revert Hw. generalize (model_new l discovery).
  induction edits as [|e edits IH]; intros m Hw; cbn [foldl]; [done|]. apply IH. by apply edit_wf.
Qed.

(** * Saving the selections *)

Lemma revalidate_dropped games retained dropped :
  let s := foldl revalidate_step (retained, dropped) games in
  (dropped ≤ snd s)%nat ∧
  (snd s = dropped → ∃ new, fst s = retained ++ new ∧
     Forall2 (λ v g, validated_manual_game (mg_name g) (mg_executable g) = Ok v) new games).
Proof.
  cbv zeta. revert retained dropped. induction games as [|g games IH]; intros retained dropped; cbn [foldl].
  { split; [done|]. intros _. exists []. rewrite app_nil_r. by split. }
  unfold revalidate_step at 2 4 6. 
  destruct (validated_manual_game (mg_name g) (mg_executable g)) as [v|] eqn:Hv.
  2:{ destruct (IH retained (S dropped)) as [Hle _]. split; [lia|]. intros E. cbn in *. lia. }
  destruct (_ && _ && negb (existsb _ retained) && negb (existsb _ retained)).
  2:{ destruct (IH retained (S dropped)) as [Hle _]. split; [lia|]. intros E. cbn in *. lia. }
  destruct (IH (retained ++ [v]) dropped) as [Hle Hnew]. split; [done|]. intros E.
  destruct (Hnew E) as (new & -> & Hf). exists (v :: new). rewrite <- app_assoc. split; [done|]. by constructor.
Qed.

(** The selections are saved only if every manual game, validated again, is still the game of the settings:
    then the games saved are the validated ones, all with distinct paths and ids. *)
Theorem selections_saved_validated m s :
  selections_to_save m = Some s →
  Forall2 (λ v g, validated_manual_game (mg_name g) (mg_executable g) = Ok v ∧ manual_game_eqb v g = true)
    (ls_manual_games s) (ls_manual_games (cm_settings m)) ∧
  games_wf (ls_manual_games s) ∧
  set_manual_games [] s = set_manual_games [] (cm_settings m).
Proof.
  unfold selections_to_save.
  pose proof (revalidate_games_wf (ls_manual_games (cm_settings m))) as Hw.
  pose proof (revalidate_dropped (ls_manual_games (cm_settings m)) [] 0) as [_ Hd].
  fold (revalidated_loaded_manual_games (ls_manual_games (cm_settings m))) in Hd.
  destruct (revalidated_loaded_manual_games (ls_manual_games (cm_settings m))) as [validated dropped]. cbn in Hw, Hd.
  destruct (Nat.eqb_spec dropped 0) as [->|]; cbn [negb orb]; [|done].
  destruct (Hd eq_refl) as (new & -> & Hf). case_bool_decide as He; cbn [negb]; [|done]. intros [= <-].
  split_and!; [|done..]. cbn. clear Hw Hd. induction Hf as [|v g new games Hv Hf IH]; [constructor|].
  inversion He; subst. by constructor; [|apply IH].
Qed.
End model.

(** * Examples *)

Definition demo_validator : PathValidator := {| canonical_executable := Ok; sha256_digest l := l |}.
Definition demo_found : DiscoveryReport := mkDiscoveryReport [mkSteamGame 5 (lit "Game") KindSteamGame None None] [].
Definition demo_model : ControlModel :=
  foldl (@edit demo_validator (λ s, s)) (@model_new demo_validator (lifecycle_settings_default, None) demo_found)
    [EdSteam 5 true; EdAdd (lit " Other ") (lit "/opt/other")].

Lemma selections_stay_valid_witness :
  ls_selected_steam_app_ids (cm_settings demo_model) = {[5]} ∧
  mg_name <$> ls_manual_games (cm_settings demo_model) = [lit "Other"] ∧ @model_wf demo_validator demo_model.
Proof.
  split; [vm_compute; reflexivity|]. split; [vm_compute; reflexivity|].
  apply (@selections_stay_valid demo_validator (λ s, s) (lifecycle_settings_default, None) demo_found).
  - vm_compute. reflexivity.
  - repeat constructor. discriminate.
Defined.

Lemma selections_saved_validated_witness :
  let s := cm_settings demo_model in
  @selections_to_save demo_validator demo_model = Some s ∧
  @games_wf demo_validator (ls_manual_games s).
Proof.
  cbv zeta. assert (@selections_to_save demo_validator demo_model = Some (cm_settings demo_model)) as E
    by (vm_compute; reflexivity).
  split; [exact E|]. exact (proj1 (proj2 (@selections_saved_validated demo_validator demo_model _ E))).
Defined.
