(* ===== verification/Lifecycle.v ===== *)
(** Enabling and disabling OverCrow
    ([crates/overcrow-control/src/lifecycle.rs]): a transaction over the
    settings file, the integration, the systemd units and a running Core,
    with its roll-back.  What each of them answers may depend on everything
    asked before. *)

From S2P Require Import Prelude Text Bytes FileSystem Settings ConfigStore UpdatePackage.

(** * The world of a transaction *)

Inductive SystemctlCommand := ENABLE_CORE | DISABLE_CORE | STOP_SESSION.

#[export] Instance SystemctlCommand_eq_dec : EqDecision SystemctlCommand.
Proof. solve_decision. Defined.

Inductive Request :=
| AskLoad
| AskValidate (game : ManualGame)
| AskPrepare
| AskSave (settings : LifecycleSettings)
| AskReady
| AskSystemctl (command : SystemctlCommand)
| AskPassive.

(** The collaborators of the controller, given what was asked before. *)
Class World := {
  world_load : list Request → LifecycleSettings * option str;
  world_validate : list Request → ManualGame → result str unit;
  world_prepare : list Request → result str unit;
  world_save : list Request → LifecycleSettings → result SaveError unit;
  world_ready : list Request → result str unit;
  world_systemctl : list Request → SystemctlCommand → result str unit;
  world_passive : list Request → result str unit
}.

(** A computation over the history of requests. *)
Definition M (A : Type) : Type := list Request → list Request * A.
#[export] Instance M_ret : MRet M := λ A x h, (h, x).
#[export] Instance M_bind : MBind M := λ A B f m h, let '(h, x) := m h in f x h.

Record LifecycleError := mkLifecycleError { lc_primary : str; lc_cleanup : list str }.
Definition error_new (primary : str) : LifecycleError := mkLifecycleError primary [].
Definition push_cleanup (failure : str) (e : LifecycleError) : LifecycleError :=
  mkLifecycleError (lc_primary e) (lc_cleanup e ++ [failure]).

(** [Display]. *)
Definition error_display (e : LifecycleError) : str :=
  lc_primary e ++ (lc_cleanup e ≫= λ failure, lit "; cleanup failed: " ++ failure).

Definition save_error (context : str) (e : SaveError) : str :=
  if se_committed e
  then context ++ lit " (replacement committed but durability unknown): " ++ se_error e
  else context ++ lit ": " ++ se_error e.

Definition set_enabled (b : bool) (s : LifecycleSettings) : LifecycleSettings :=
  mkLifecycleSettings (ls_schema_version s) b (ls_selected_steam_app_ids s) (ls_manual_games s) (ls_shortcut s).

Section controller.
Context `{World}.

Definition ask {A} (r : Request) (answer : list Request → A) : M A := λ h, (h ++ [r], answer h).

Definition load_settings : M (LifecycleSettings * option str) := ask AskLoad world_load.
Definition save_settings (s : LifecycleSettings) : M (result SaveError unit) := ask (AskSave s) (λ h, world_save h s).
Definition run_systemctl (c : SystemctlCommand) : M (result str unit) := ask (AskSystemctl c) (λ h, world_systemctl h c).

Definition failure {A} (prefix : str) (r : result str A) : list str :=
  match r with Ok _ => [] | Err e => [prefix ++ e] end.

(** All three steps are tried, whatever fails. *)
Definition run_cleanup (errors : list str) : M (list str) :=
  passive ← ask AskPassive world_passive;
  stopped ← run_systemctl STOP_SESSION;
  disabled ← run_systemctl DISABLE_CORE;
  mret (errors ++ failure [] passive ++ failure (lit "could not stop session units: ") stopped
        ++ failure (lit "could not disable Core: ") disabled).

Definition errors_to_result (errors : list str) : result LifecycleError unit :=
  match errors with
  | [] => Ok tt
  | primary :: cleanup => Err (mkLifecycleError primary cleanup)
  end.

(** [disable], once the transaction lock is held. *)
Definition disable : M (result LifecycleError unit) :=
  load ← load_settings;
  let disabled := set_enabled false (fst load) in
  errors ← match snd load with
           | Some warning =>
               mret [lit "settings load warning; problematic settings were preserved and the disable write was skipped: "
                     ++ warning]
           | None =>
               saved ← save_settings disabled;
               mret match saved with
                    | Ok _ => []
                    | Err e => [save_error (lit "could not persist disabled lifecycle settings") e]
                    end
           end;
  errors ← run_cleanup errors;
  mret (errors_to_result errors).

Definition rollback_after_enable (primary : str) : M LifecycleError :=
  load ← load_settings;
  let disabled := set_enabled false (fst load) in
  let error := error_new primary in
  error ← match snd load with
          | Some warning =>
              mret (push_cleanup
                (lit "settings load warning; problematic settings were preserved and the rollback write was skipped: "
                 ++ warning) error)
          | None =>
              saved ← save_settings disabled;
              mret match saved with
                   | Ok _ => error
                   | Err e => push_cleanup (save_error (lit "could not persist disabled rollback settings") e) error
                   end
          end;
  cleanup ← run_cleanup [];
  mret (foldl (λ e f, push_cleanup f e) error cleanup).

Definition refuse {A} (message : str) : M (result LifecycleError A) := mret (Err (error_new message)).

Definition roll_back (primary : str) : M (result LifecycleError unit) :=
  error ← rollback_after_enable primary;
  mret (Err error).

(** The manual games still validate, or the first that does not. *)
Fixpoint validate_games (games : list ManualGame) : M (result str unit) :=
  match games with
  | [] => mret (Ok tt)
  | game :: games =>
      r ← ask (AskValidate game) (λ h, world_validate h game);
      match r with
      | Err e => mret (Err e)
      | Ok _ => validate_games games
      end
  end.

(** The writes of [enable], from saving on. *)
Definition enable_commit (enabled : LifecycleSettings) : M (result LifecycleError unit) :=
  saved ← save_settings enabled;
  match saved with
  | Err e => roll_back (save_error (lit "could not persist enabled lifecycle settings") e)
  | Ok _ =>
      ready ← ask AskReady world_ready;
      match ready with
      | Err e => roll_back (lit "integration setup failed: " ++ e)
      | Ok _ =>
          started ← run_systemctl ENABLE_CORE;
          match started with
          | Err e => roll_back (lit "could not enable Core: " ++ e)
          | Ok _ => mret (Ok tt)
          end
      end
  end.

(** [enable], once the transaction lock is held. *)
Definition enable (settings : LifecycleSettings) : M (result LifecycleError unit) :=
  match validate_settings (set_enabled true settings) with
  | Err e => refuse (lit "invalid lifecycle settings: " ++ settings_error_text e)
  | Ok enabled =>
      if bool_decide (ls_selected_steam_app_ids enabled = ∅) && bool_decide (ls_manual_games enabled = [])
      then refuse (lit "at least one exact game identity must be selected")
      else
        current ← load_settings;
        match snd current with
        | Some warning => refuse (lit "cannot enable while lifecycle settings have a warning: " ++ warning)
        | None =>
            valid ← validate_games (ls_manual_games enabled);
            match valid with
            | Err e => refuse (lit "manual game identity is no longer valid: " ++ e)
            | Ok _ =>
                prepared ← ask AskPrepare world_prepare;
                match prepared with
                | Err e => refuse (lit "systemd unit identity preflight failed: " ++ e)
                | Ok _ => enable_commit enabled
                end
            end
        end
  end.

Inductive LifecycleStatus := StatusDisabled | StatusEnabled | StatusWarning.

Definition snapshot : M ((LifecycleSettings * option str) * LifecycleStatus) :=
  load ← load_settings;
  mret (load, match snd load with
              | Some _ => StatusWarning
              | None => if ls_enabled (fst load) then StatusEnabled else StatusDisabled
              end).

(** * What a transaction asks *)

(** The three steps that leave nothing running, in their order. *)
Definition cleanup_steps : list Request := [AskPassive; AskSystemctl STOP_SESSION; AskSystemctl DISABLE_CORE].

(** Disabling on file, unless the file could not be read. *)
Definition disable_write (load : LifecycleSettings * option str) : list Request :=
  match snd load with Some _ => [] | None => [AskSave (set_enabled false (fst load))] end.

(** The requests of switching everything off. *)
Definition switch_off (h : list Request) : list Request :=
  AskLoad :: disable_write (world_load h) ++ cleanup_steps.

Lemma run_cleanup_asks errors h :
  fst (run_cleanup errors h) = h ++ cleanup_steps ∧ ∃ new, snd (run_cleanup errors h) = errors ++ new ∧
    (new = [] ↔ world_passive h = Ok tt ∧ world_systemctl (h ++ [AskPassive]) STOP_SESSION = Ok tt ∧
       world_systemctl (h ++ [AskPassive; AskSystemctl STOP_SESSION]) DISABLE_CORE = Ok tt).
Proof.
  unfold run_cleanup, ask, run_systemctl. unfold mbind, M_bind, mret, M_ret. cbn.
  rewrite <- !app_assoc. cbn. split; [done|]. eexists. split; [done|].
  destruct (world_passive h) as [[]|], (world_systemctl (h ++ [AskPassive]) STOP_SESSION) as [[]|],
    (world_systemctl (h ++ [AskPassive; AskSystemctl STOP_SESSION]) DISABLE_CORE) as [[]|]; cbn; intuition congruence.
Qed.

Lemma disable_asks h :
  fst (disable h) = h ++ switch_off h.
Proof.
  unfold disable, load_settings, save_settings, ask, switch_off, disable_write. unfold mbind, M_bind, mret, M_ret. cbn.
  destruct (world_load h) as [s [w|]]; cbn.
  - match goal with |- context [run_cleanup ?e ?h'] => pose proof (proj1 (run_cleanup_asks e h')) as E;
      destruct (run_cleanup e h') as [h1 errors] end. cbn in *. by rewrite E, <- app_assoc.
  - match goal with |- context [run_cleanup ?e ?h'] => pose proof (proj1 (run_cleanup_asks e h')) as E;
      destruct (run_cleanup e h') as [h1 errors] end. cbn in *. by rewrite E, <- !app_assoc.
Qed.

Lemma rollback_asks primary h :
  fst (rollback_after_enable primary h) = h ++ switch_off h ∧
  lc_primary (snd (rollback_after_enable primary h)) = primary.
Proof.
  assert (∀ cleanup e, lc_primary (foldl (λ e f, push_cleanup f e) e cleanup) = lc_primary e) as Hp.
  { intros cleanup. induction cleanup as [|f cleanup IH]; intros e; cbn; [done|]. by rewrite IH. }
  unfold rollback_after_enable, load_settings, save_settings, ask, switch_off, disable_write.
  unfold mbind, M_bind, mret, M_ret. cbn. destruct (world_load h) as [s [w|]]; cbn;
    (match goal with |- context [run_cleanup ?e ?h'] => pose proof (proj1 (run_cleanup_asks e h')) as E;
      destruct (run_cleanup e h') as [h1 errors] end; cbn in *; rewrite E, Hp, <- !app_assoc; split; [done|]).
  - done.
  - by destruct (world_save _ _).
Qed.

(** * Enabling *)

Definition reads (r : Request) : Prop :=
  match r with AskLoad | AskValidate _ | AskPrepare => True | _ => False end.

(** The requests of a call to [enable] after the history [h], and its
    result. *)
Inductive enable_run (settings : LifecycleSettings) (h : list Request) :
    list Request * result LifecycleError unit → Prop :=
| EnableRefused asked e :
    Forall reads asked → enable_run settings h (h ++ asked, Err e)
| EnableRolledBack enabled asked written e :
    validate_settings (set_enabled true settings) = Ok enabled → snd (world_load h) = None → Forall reads asked →
    written ≠ [] → written `prefix_of` [AskSave enabled; AskReady; AskSystemctl ENABLE_CORE] →
    enable_run settings h (h ++ asked ++ written ++ switch_off (h ++ asked ++ written), Err e)
| EnableDone enabled :
    validate_settings (set_enabled true settings) = Ok enabled →
    ls_selected_steam_app_ids enabled ≠ ∅ ∨ ls_manual_games enabled ≠ [] → snd (world_load h) = None →
    (let asked := AskLoad :: (AskValidate <$> ls_manual_games enabled) ++ [AskPrepare] in
     world_save (h ++ asked) enabled = Ok tt →
     enable_run settings h (h ++ asked ++ [AskSave enabled; AskReady; AskSystemctl ENABLE_CORE], Ok tt)).

Lemma validate_games_asks games h :
  ∃ k, fst (validate_games games h) = h ++ k ∧ Forall reads k ∧
    match snd (validate_games games h) with
    | Ok _ => k = AskValidate <$> games
    | Err _ => True
    end.
Proof.
  revert h. induction games as [|g games IH]; intros h; cbn.
  { exists []. rewrite app_nil_r. repeat constructor. }
  unfold ask. unfold mbind, M_bind, mret, M_ret. cbn. destruct (world_validate h g) as [[]|e]; cbn.
  - destruct (IH (h ++ [AskValidate g])) as (k & -> & Hk & E). exists (AskValidate g :: k).
    rewrite <- app_assoc. split; [done|]. split; [by constructor|]. destruct (snd _); [by subst|done].
  - exists [AskValidate g]. repeat constructor.
Qed.

Lemma roll_back_asks primary h : ∃ e, roll_back primary h = (h ++ switch_off h, Err e).
Proof.
  unfold roll_back. unfold mbind, M_bind, mret, M_ret. destruct (rollback_asks primary h) as [E _].
  destruct (rollback_after_enable primary h) as [h' e]. cbn in E. subst h'. by exists e.
Qed.

Lemma enable_commit_run settings enabled asked h :
  validate_settings (set_enabled true settings) = Ok enabled →
  ls_selected_steam_app_ids enabled ≠ ∅ ∨ ls_manual_games enabled ≠ [] → snd (world_load h) = None →
  asked = AskLoad :: (AskValidate <$> ls_manual_games enabled) ++ [AskPrepare] → Forall reads asked →
  enable_run settings h (enable_commit enabled (h ++ asked)).
Proof.
  intros Hv Hne Hl Ha Hr. unfold enable_commit, save_settings, run_systemctl, ask. unfold mbind, M_bind, mret, M_ret.
  assert (∀ primary written, written ≠ [] → written `prefix_of` [AskSave enabled; AskReady; AskSystemctl ENABLE_CORE] →
    enable_run settings h (roll_back primary ((h ++ asked) ++ written))) as Hroll.
  { intros primary written Hw Hp. destruct (roll_back_asks primary ((h ++ asked) ++ written)) as [e ->].
    rewrite <- !app_assoc. by eapply EnableRolledBack. }
  destruct (world_save (h ++ asked) enabled) as [[]|e] eqn:Hs; [|by apply Hroll; [|by eexists]].
  rewrite <- (app_assoc (h ++ asked)). cbn.
  destruct (world_ready _) as [[]|e]; [|apply Hroll; [done|by eexists [_]]]. 
  destruct (world_systemctl _ _) as [[]|e]; [|rewrite <- (app_assoc (h ++ asked)); cbn; apply Hroll; [done|by exists []]].
  rewrite <- !app_assoc. cbn. subst asked. by eapply EnableDone.
Qed.

Lemma enable_runs settings h : enable_run settings h (enable settings h).
Proof.
  unfold enable, load_settings, refuse, ask. unfold mbind, M_bind, mret, M_ret.
  assert (∀ e, enable_run settings h (h, Err e)) as Hnone.
  { intros e. rewrite <- (app_nil_r h) at 2. by apply EnableRefused. }
  destruct (validate_settings (set_enabled true settings)) as [enabled|e] eqn:Hv; [|apply Hnone].
  destruct (bool_decide (ls_selected_steam_app_ids enabled = ∅) && bool_decide (ls_manual_games enabled = [])) eqn:Hne;
    [apply Hnone|].
  assert (ls_selected_steam_app_ids enabled ≠ ∅ ∨ ls_manual_games enabled ≠ []) as Hne'.
  { apply andb_false_iff in Hne as [Hn%bool_decide_eq_false|Hn%bool_decide_eq_false]; [by left|by right]. }
  cbn. destruct (snd (world_load h)) as [w|] eqn:Hl; [by apply EnableRefused; repeat constructor|].
  destruct (validate_games_asks (ls_manual_games enabled) (h ++ [AskLoad])) as (k & Ek & Hk & Hr).
  destruct (validate_games (ls_manual_games enabled) (h ++ [AskLoad])) as [h' valid]. cbn in Ek, Hr. subst h'.
  rewrite <- app_assoc. destruct valid as [u|e]; [|by apply EnableRefused; constructor]. subst k.
  destruct (world_prepare _) as [u'|e].
  - rewrite <- app_assoc. apply enable_commit_run; [done..|]. cbn. constructor; [done|]. apply Forall_app. by repeat constructor.
  - rewrite <- app_assoc. apply EnableRefused. cbn. constructor; [done|]. apply Forall_app. by repeat constructor.
Qed.


(** * Disabling *)

Lemma disable_result h :
  let h1 := h ++ AskLoad :: disable_write (world_load h) in
  fst (disable h) = h ++ switch_off h ∧
  (snd (disable h) = Ok tt ↔
    snd (world_load h) = None ∧ world_save (h ++ [AskLoad]) (set_enabled false (fst (world_load h))) = Ok tt ∧
    world_passive h1 = Ok tt ∧ world_systemctl (h1 ++ [AskPassive]) STOP_SESSION = Ok tt ∧
    world_systemctl (h1 ++ [AskPassive; AskSystemctl STOP_SESSION]) DISABLE_CORE = Ok tt).
Proof.
  cbv zeta. split; [apply disable_asks|].
  unfold disable, load_settings, save_settings, ask, disable_write. unfold mbind, M_bind, mret, M_ret. cbn.
  destruct (world_load h) as [s [w|]]; cbn.
  - match goal with |- context [run_cleanup ?e ?h'] => destruct (run_cleanup_asks e h') as (_ & new & E & _);
      destruct (run_cleanup e h') as [h2 errors] end. cbn in E. subst errors. cbn. split; [done|by intros [? _]].
  - match goal with |- context [run_cleanup ?e ?h'] => destruct (run_cleanup_asks e h') as (_ & new & E & Hnew);
      destruct (run_cleanup e h') as [h2 errors] end. cbn in E. subst errors. rewrite <- app_assoc in Hnew. cbn in Hnew.
    destruct (world_save _ _) as [[]|e]; cbn; [|split; [done|by intros (_ & ? & _)]].
    transitivity (new = []); [destruct new; cbn; split; done|]. rewrite Hnew. intuition.
Qed.

Lemma disable_ok h :
  snd (disable h) = Ok tt →
  snd (world_load h) = None ∧ world_save (h ++ [AskLoad]) (set_enabled false (fst (world_load h))) = Ok tt.
Proof. intros Hok. apply (proj2 (disable_result h)) in Hok. tauto. Qed.

(** Disabling always tries everything - writing the settings disabled unless they could not be read, asking
    the Core to go passive, stopping the session and disabling the Core - and succeeds exactly when every part did. *)
Theorem disable_tries_everything h :
  let h1 := h ++ AskLoad :: disable_write (world_load h) in
  fst (disable h) = h ++ switch_off h ∧
  (snd (disable h) = Ok tt ↔
    snd (world_load h) = None ∧ world_save (h ++ [AskLoad]) (set_enabled false (fst (world_load h))) = Ok tt ∧
    world_passive h1 = Ok tt ∧ world_systemctl (h1 ++ [AskPassive]) STOP_SESSION = Ok tt ∧
    world_systemctl (h1 ++ [AskPassive; AskSystemctl STOP_SESSION]) DISABLE_CORE = Ok tt).
Proof. apply disable_result. Qed.

(** * The status follows *)

Definition no_save (r : Request) : Prop := match r with AskSave _ => False | _ => True end.

(** A settings file that keeps what was saved last. *)
Definition file_kept : Prop :=
  ∀ h s k, world_save h s = Ok tt → Forall no_save k → world_load (h ++ AskSave s :: k) = (s, None).

Lemma validate_settings_same s t : validate_settings s = Ok t → t = s.
Proof.
  unfold validate_settings. destruct (negb _); [done|]. case_bool_decide; [done|].
  destruct (validate_manual_games _ _); [done|]. destruct (negb _); [done|]. by intros [= ->].
Qed.

Lemma enable_done settings h :
  snd (enable settings h) = Ok tt →
  ∃ asked, world_save (h ++ asked) (set_enabled true settings) = Ok tt ∧
    fst (enable settings h) =
      (h ++ asked) ++ [AskSave (set_enabled true settings); AskReady; AskSystemctl ENABLE_CORE].
Proof.
  pose proof (enable_runs settings h) as Hrun. intros Hok.
  destruct Hrun as [asked e Hr|enabled asked written e Hv Hl Hr Hw Hp|enabled Hv Hne Hl asked Hs]; [done..|].
  apply validate_settings_same in Hv as ->. exists asked. split; [done|]. cbn [fst]. by rewrite <- app_assoc.
Qed.

(** When the settings file keeps what is saved, a successful enabling is shown as enabled, with the validated
    settings, and a successful disabling as disabled. *)
Theorem lifecycle_status_follows settings h (Hfile : file_kept) :
  (snd (enable settings h) = Ok tt →
     let '(_, (load, status)) := snapshot (fst (enable settings h)) in
     status = StatusEnabled ∧ load = (set_enabled true settings, None)) ∧
  (snd (disable h) = Ok tt →
     let '(_, (load, status)) := snapshot (fst (disable h)) in
     status = StatusDisabled ∧ load = (set_enabled false (fst (world_load h)), None)).
Proof.
  split.
  - pose proof (enable_done settings h) as H1. intros Hok. destruct (H1 Hok) as (asked & Hs & ->).
    unfold snapshot, load_settings, ask. unfold mbind, M_bind, mret, M_ret. cbn.
    rewrite (Hfile (h ++ asked) (set_enabled true settings)); [done|done|by repeat constructor].
  - intros Hok. destruct (disable_ok h Hok) as [Hl Hs]. rewrite disable_asks. unfold switch_off, disable_write.
    unfold snapshot, load_settings, ask. unfold mbind, M_bind, mret, M_ret. rewrite Hl. cbn.
    pose proof (Hfile (h ++ [AskLoad]) (set_enabled false (fst (world_load h))) cleanup_steps Hs
      ltac:(by repeat constructor)) as E.
    rewrite <- app_assoc in E. cbn in E. by rewrite E.
Qed.
End controller.

(** * Example *)

Fixpoint last_saved (s : LifecycleSettings) (h : list Request) : LifecycleSettings :=
  match h with
  | [] => s
  | AskSave s' :: h => last_saved s' h
  | _ :: h => last_saved s h
  end.

(** A world where everything works. *)
Definition demo_world : World := {|
  world_load h := (last_saved lifecycle_settings_default h, None);
  world_validate _ _ := Ok tt;
  world_prepare _ := Ok tt;
  world_save _ _ := Ok tt;
  world_ready _ := Ok tt;
  world_systemctl _ _ := Ok tt;
  world_passive _ := Ok tt
|}.

Definition demo_settings : LifecycleSettings := mkLifecycleSettings 1 false {[5]} [] (ls_shortcut lifecycle_settings_default).

Lemma demo_file_kept : @file_kept demo_world.
Proof.
  intros h s k _ Hk. cbn. f_equal. generalize lifecycle_settings_default as s0.
  assert (∀ k s, Forall no_save k → last_saved s k = s) as Hlast.
  { clear. intros k s Hk. revert s. induction Hk as [|r k Hr _ IH]; intros s; cbn; [done|]. by destruct r. }
  induction h as [|r h IH]; intros s0; cbn; [by apply Hlast|]. destruct r; apply IH.
Qed.

Lemma lifecycle_status_follows_witness :
  snd (@enable demo_world demo_settings []) = Ok tt ∧
  let '(_, (load, status)) := @snapshot demo_world (fst (@enable demo_world demo_settings [])) in
  status = StatusEnabled ∧ load = (set_enabled true demo_settings, None).
Proof.
  assert (snd (@enable demo_world demo_settings []) = Ok tt) as E by (vm_compute; reflexivity).
  split; [exact E|]. exact (proj1 (@lifecycle_status_follows demo_world demo_settings [] demo_file_kept) E).
Defined.

(** * The units that are activated *)

Definition ACTIVATION_UNITS : list str :=
  lit <$> ["overcrow-core.service"; "overcrow-overlay.service"; "overcrow-hyprland.service"]%string.

Definition exact_fragment_output (output : list Z) (expected : path) : bool :=
  (length output =? length expected + 1)%nat && bool_decide (take (length expected) output = expected)
  && bool_decide (output !! length expected = Some 10).

Section activation.
(** [run_systemctl], given the commands run before. *)
Context (systemctl : list (list str) → list str → result str (list Z)).

Definition reload_command : list str := lit <$> ["--user"; "daemon-reload"]%string.
Definition show_command (unit : str) : list str :=
  (lit <$> ["--user"; "show"; "--property=FragmentPath"; "--value"]%string) ++ [unit].

Fixpoint check_units (unit_directory : path) (history : list (list str)) (units : list str) : result str unit :=
  match units with
  | [] => Ok tt
  | unit :: units =>
      let expected := path_join unit_directory (utf8 unit) in
      output ← map_error (λ e, lit "could not query FragmentPath for " ++ unit ++ lit ": " ++ e)
                 (systemctl history (show_command unit));
      if negb (exact_fragment_output output expected)
      then Err (lit "foreign or ambiguous FragmentPath for " ++ unit ++ lit "; expected " ++ path_display expected)
      else check_units unit_directory (history ++ [show_command unit]) units
  end.

Definition prepare_activation_in (unit_directory : path) : result str unit :=
  _ ← map_error (λ e, lit "systemd daemon-reload failed: " ++ e) (systemctl [] reload_command);
  check_units unit_directory [reload_command] ACTIVATION_UNITS.

Lemma exact_fragment_output_iff output expected :
  exact_fragment_output output expected = true ↔ output = expected ++ [10].
Proof.
  unfold exact_fragment_output. rewrite !andb_true_iff, Nat.eqb_eq, !bool_decide_eq_true. split.
  - intros [[Hl Ht] Hn]. rewrite <- (take_drop (length expected) output), Ht. f_equal.
    apply list_eq. intros [|i].
    + rewrite lookup_drop, Nat.add_0_r. exact Hn.
    + rewrite lookup_drop, lookup_ge_None_2 by lia. done.
  - intros ->. rewrite length_app, take_app_length. split; [split; [done|done]|].
    by rewrite lookup_app_r, Nat.sub_diag by lia.
Qed.

Lemma check_units_Ok dir history units :
  check_units dir history units = Ok tt ↔
    ∀ i unit, units !! i = Some unit →
      systemctl (history ++ (show_command <$> take i units)) (show_command unit) =
        Ok (path_join dir (utf8 unit) ++ [10]).
Proof.
  revert history. induction units as [|unit units IH]; intros history; cbn [check_units]; [done|].
  rewrite result_bind_Ok. setoid_rewrite map_error_Ok. split.
  - intros (output & Ho & E). destruct (exact_fragment_output output _) eqn:He; cbn [negb] in E; [|done].
    apply exact_fragment_output_iff in He as ->. intros [|i] u Hu; cbn in *.
    + injection Hu as <-. by rewrite app_nil_r.
    + apply IH with (i := i) (unit := u) in E; [|done]. by rewrite <- app_assoc in E.
  - intros Hall. pose proof (Hall 0%nat unit eq_refl) as H0. cbn in H0. rewrite app_nil_r in H0.
    eexists. split; [exact H0|]. rewrite (proj2 (exact_fragment_output_iff _ _)) by done. cbn [negb].
    apply IH. intros i u Hu. specialize (Hall (S i) u Hu). cbn in Hall. by rewrite <- app_assoc.
Qed.

(** The units are prepared exactly when systemd reloads and answers for each of the three, in turn, the file
    of that name in the expected directory and nothing else. *)
Theorem prepare_activation_iff dir :
  prepare_activation_in dir = Ok tt ↔
    is_ok (systemctl [] reload_command) = true ∧
    ∀ i unit, ACTIVATION_UNITS !! i = Some unit →
      systemctl (reload_command :: (show_command <$> take i ACTIVATION_UNITS)) (show_command unit) =
        Ok (path_join dir (utf8 unit) ++ [10]).
Proof.
  unfold prepare_activation_in. destruct (systemctl [] reload_command) as [o|e]; cbn [map_error mbind result_bind is_ok].
  - rewrite check_units_Ok. cbn [app]. intuition.
  - split; [done|by intros [? _]].
Qed.
End activation.

(** Where the units are installed: the system's directory for the packaged
    program ([is_trusted_system_control_binary]), the user's for a local
    one. *)
Definition supported_unit_directory (trusted_system : path → bool) (executable : path) (home data_home : option path) :
    result str path :=
  if negb (is_normal_absolute_path executable) then Err (lit "control binary path is not an absolute normalized path")
  else if trusted_system executable then Ok (lit "/usr/lib/systemd/user")
  else match opt_filter is_normal_absolute_path home with
       | None => Err (lit "an absolute HOME is required for a local installation")
       | Some home =>
           if negb (path_eqb executable (path_join home (lit ".local/bin/overcrow-control")))
           then Err (lit "control binary is not in a supported installed layout")
           else
             data_home ← match data_home with
                         | Some p => if is_normal_absolute_path p then Ok p
                                     else Err (lit "XDG_DATA_HOME is not an absolute normalized path")
                         | None => Ok (path_join home (lit ".local/share"))
                         end;
             Ok (path_join data_home (lit "systemd/user"))
       end.

Definition SERVICE_UNKNOWN : str := lit "org.freedesktop.DBus.Error.ServiceUnknown".
Definition is_service_unknown_name (name : str) : bool := str_eqb name SERVICE_UNKNOWN.
