(* ===== verification/CoreClient.v ===== *)
(** The overlay's connection to Core
    ([crates/overcrow-overlay/src/runtime/core_client.rs]): the revision gate,
    the two mailboxes between the interface and the worker thread, and the
    worker's connection cycle as a machine whose inputs are what D-Bus, the
    timers and the interface do. *)

From S2P Require Import Prelude Text Truncate Timing Float Protocol Stopwatch.

Definition LEGACY_POLL_INTERVAL : duration := from_millis 250.
Definition RECONCILIATION_INTERVAL : duration := from_secs 30.
Definition INITIAL_BACKOFF : duration := from_millis 250.
Definition MAXIMUM_BACKOFF : duration := from_secs 5.
Definition MAX_CONNECTION_ERROR_BYTES : Z := 256.

(** The derived [PartialEq] of a snapshot. *)
Definition core_snapshot_eqb (a b : CoreSnapshot) : bool :=
  active_game_eqb (cs_active_game a) (cs_active_game b)
  && bool_decide (cs_overlay_mode a = cs_overlay_mode b)
  && bool_decide (cs_session_elapsed_ms a = cs_session_elapsed_ms b)
  && bool_decide (cs_telemetry a = cs_telemetry b)
  && bool_decide (cs_manual_stopwatch a = cs_manual_stopwatch b).

(** * The revision gate *)

Inductive RevisionDecision :=
| DecApply (event : VersionedCoreSnapshot)
| DecIgnore
| DecReconcile.

Definition gate_apply (applied : option VersionedCoreSnapshot) (event : VersionedCoreSnapshot) :
    RevisionDecision * option VersionedCoreSnapshot :=
  match applied with
  | None => (DecApply event, Some event)
  | Some a =>
      if vcs_revision event <? vcs_revision a then (DecIgnore, applied)
      else if vcs_revision event =? vcs_revision a then
        if core_snapshot_eqb (vcs_snapshot event) (vcs_snapshot a) then (DecIgnore, applied)
        else (DecReconcile, applied)
      else (DecApply event, Some event)
  end.

#[global] Arguments gate_apply : simpl never.

Inductive VersionedHandling := HandApplied | HandIgnored | HandReconcile.
#[export] Instance VersionedHandling_eq_dec : EqDecision VersionedHandling.
Proof. solve_decision. Defined.

(** * Connection events *)

Inductive ConnectionEvent :=
| CeConnected
| CeConnectionFailed (error : str)
| CeDisconnected (error : str).

Record ConnectionEventTracker := mkTracker { tr_connected : bool; tr_last_failure : option str }.
Definition tracker_default : ConnectionEventTracker := mkTracker false None.

Definition tracker_connected (t : ConnectionEventTracker) : option ConnectionEvent * ConnectionEventTracker :=
  if tr_connected t then (None, t) else (Some CeConnected, mkTracker true None).

(** [BoundedDisplay]: what is kept of the pieces a [Display] writes. *)
Definition bounded_write (maximum : Z) (value piece : str) : str :=
  if maximum <=? str_len value then value
  else
    let end_ := Z.min (str_len piece) (maximum - str_len value) in
    value ++ slice_to_boundary (Z.to_nat end_) piece end_.
Definition bounded_display (pieces : list str) (maximum : Z) : str := foldl (bounded_write maximum) [] pieces.

Definition tracker_failed (t : ConnectionEventTracker) (error : list str) :
    option ConnectionEvent * ConnectionEventTracker :=
  let error := bounded_display error MAX_CONNECTION_ERROR_BYTES in
  if negb (tr_connected t) && bool_decide (tr_last_failure t = Some error) then (None, t)
  else (Some (if tr_connected t then CeDisconnected error else CeConnectionFailed error),
        mkTracker false (Some error)).

Inductive BaselineFailure := BaselineLegacy | BaselineReconnect.

Definition baseline_failure_for_error_name (name : option str) : BaselineFailure :=
  if bool_decide (name = Some (lit "org.freedesktop.DBus.Error.UnknownMethod")) then BaselineLegacy
  else BaselineReconnect.

(** * Commands *)

Inductive ClientCommand := SetPassive | ReloadWidgetSettings | ToggleManualStopwatch | ResetManualStopwatch.
#[export] Instance ClientCommand_eq_dec : EqDecision ClientCommand.
Proof. solve_decision. Defined.

Record PendingWidgetActions := mkActions { wa_reload : bool; wa_reset : bool; wa_toggle : bool }.
#[export] Instance PendingWidgetActions_eta : Eta PendingWidgetActions :=
  λ a, mkActions (wa_reload a) (wa_reset a) (wa_toggle a).
#[export] Instance PendingWidgetActions_eq_dec : EqDecision PendingWidgetActions.
Proof. solve_decision. Defined.
Definition actions_default : PendingWidgetActions := mkActions false false false.

Definition actions_push (a : PendingWidgetActions) (command : ClientCommand) : PendingWidgetActions :=
  match command with
  | SetPassive => a
  | ReloadWidgetSettings => a <| wa_reload := true |>
  | ToggleManualStopwatch => a <| wa_toggle ::= negb |>
  | ResetManualStopwatch => a <| wa_reset := true |> <| wa_toggle := false |>
  end.

Definition merge_newer (a newer : PendingWidgetActions) : PendingWidgetActions :=
  let a := a <| wa_reload ::= λ r, r || wa_reload newer |> in
  if wa_reset newer then a <| wa_reset := true |> <| wa_toggle := wa_toggle newer |>
  else a <| wa_toggle ::= λ t, xorb t (wa_toggle newer) |>.

Definition take_next (a : PendingWidgetActions) : option ClientCommand * PendingWidgetActions :=
  if wa_reload a then (Some ReloadWidgetSettings, a <| wa_reload := false |>)
  else if wa_reset a then (Some ResetManualStopwatch, a <| wa_reset := false |>)
  else if wa_toggle a then (Some ToggleManualStopwatch, a <| wa_toggle := false |>)
  else (None, a).

Record PendingCommands := mkPending { pc_set_passive : bool; pc_widget_actions : PendingWidgetActions }.
#[export] Instance PendingCommands_eta : Eta PendingCommands :=
  λ p, mkPending (pc_set_passive p) (pc_widget_actions p).
Definition commands_default : PendingCommands := mkPending false actions_default.

Definition commands_push (p : PendingCommands) (command : ClientCommand) : PendingCommands :=
  if bool_decide (command = SetPassive) then p <| pc_set_passive := true |>
  else p <| pc_widget_actions ::= λ a, actions_push a command |>.

Record PassiveIntent := mkIntent { pi_pending : bool; pi_widget_actions : PendingWidgetActions }.
#[export] Instance PassiveIntent_eta : Eta PassiveIntent := λ i, mkIntent (pi_pending i) (pi_widget_actions i).
Definition intent_default : PassiveIntent := mkIntent false actions_default.

Definition is_passive (s : CoreSnapshot) : bool := bool_decide (cs_overlay_mode s = Passive).

(** [record_snapshot], and [record_response] of a response that decoded. *)
Definition record_snapshot (i : PassiveIntent) (s : CoreSnapshot) : PassiveIntent :=
  if is_passive s then i <| pi_pending := false |> else i.
Definition record_response (i : PassiveIntent) (response : option CoreSnapshot) : PassiveIntent :=
  if is_some_and is_passive response then i <| pi_pending := false |> else i.

(** * Snapshots for the interface *)

Record SnapshotUpdate := mkUpdate { su_snapshot : CoreSnapshot; su_passive_confirmed : bool; su_confirmed : bool }.
#[export] Instance SnapshotUpdate_eta : Eta SnapshotUpdate :=
  λ u, mkUpdate (su_snapshot u) (su_passive_confirmed u) (su_confirmed u).

Definition update_confirmed (s : CoreSnapshot) (passive_confirmed : bool) : SnapshotUpdate :=
  mkUpdate s passive_confirmed true.
Definition update_unconfirmed (s : CoreSnapshot) : SnapshotUpdate := mkUpdate s false false.

(** The mailbox: the slot, the one token of the ready channel, and whether
    its receiver is alive.  [publish] stores under the lock and then offers
    the token; [take_latest] takes the token and then empties the slot. *)
Record Mailbox := mkMailbox { mb_slot : option SnapshotUpdate; mb_ready : bool; mb_receiver : bool }.
#[export] Instance Mailbox_eta : Eta Mailbox := λ m, mkMailbox (mb_slot m) (mb_ready m) (mb_receiver m).
Definition mailbox_new : Mailbox := mkMailbox None false true.

Definition publish_store (m : Mailbox) (update : SnapshotUpdate) : Mailbox :=
  let update :=
    match mb_slot m with
    | Some previous => update <| su_passive_confirmed ::= λ p, p || su_passive_confirmed previous |>
    | None => update
    end in
  m <| mb_slot := Some update |>.

Definition publish_notify (m : Mailbox) : bool * Mailbox :=
  if mb_receiver m then (true, m <| mb_ready := true |>) else (false, m).

Definition publish (m : Mailbox) (update : SnapshotUpdate) : bool * Mailbox :=
  publish_notify (publish_store m update).

Definition take_token (m : Mailbox) : option Mailbox :=
  if mb_ready m then Some (m <| mb_ready := false |>) else None.
Definition take_slot (m : Mailbox) : option SnapshotUpdate * Mailbox := (mb_slot m, m <| mb_slot := None |>).

Definition take_latest (m : Mailbox) : option SnapshotUpdate * Mailbox :=
  match take_token m with Some m => take_slot m | None => (None, m) end.

(** * Backoff *)

Record Backoff := mkBackoff { bk_initial : duration; bk_maximum : duration; bk_current : duration }.

Definition backoff_new (initial maximum : duration) : Backoff :=
  let initial := Z.min initial maximum in mkBackoff initial maximum initial.

Definition next_delay (b : Backoff) : duration * Backoff :=
  (bk_current b,
   mkBackoff (bk_initial b) (bk_maximum b)
     (Z.min (default (bk_maximum b) (checked_mul duration_max (bk_current b) 2)) (bk_maximum b))).

Definition backoff_reset (b : Backoff) : Backoff := mkBackoff (bk_initial b) (bk_maximum b) (bk_initial b).

(** * The worker *)

(** Where the worker is: the await it is at.  A dispatch that begins with
    [true] first asks for passive mode when that is pending. *)
Inductive Phase :=
| PhConnect
| PhDispatch (passive_first : bool)
| PhCall (call : ClientCommand)
| PhLoop
| PhReconciling
| PhLegacyDispatch (passive_first : bool)
| PhLegacyCall (call : ClientCommand)
| PhLegacySnapshot
| PhLegacyWait
| PhSleep (delay : duration)
| PhStopped.

Record Client := mkClient {
  cl_mailbox : Mailbox;
  cl_commands : PendingCommands;
  cl_permit : bool;
  cl_open : bool;
  cl_shutdown : bool;
  cl_gate : option VersionedCoreSnapshot;
  cl_reconcile_now : bool;
  cl_intent : PassiveIntent;
  cl_events : ConnectionEventTracker;
  cl_authority : bool;
  cl_backoff : Backoff;
  cl_phase : Phase;
  cl_calls : list ClientCommand;
  cl_log : list ConnectionEvent;
  cl_repaints : nat
}.
#[export] Instance Client_eta : Eta Client := λ c,
  mkClient (cl_mailbox c) (cl_commands c) (cl_permit c) (cl_open c) (cl_shutdown c) (cl_gate c)
    (cl_reconcile_now c) (cl_intent c) (cl_events c) (cl_authority c) (cl_backoff c) (cl_phase c)
    (cl_calls c) (cl_log c) (cl_repaints c).

Definition client_spawned : Client :=
  mkClient mailbox_new commands_default false true false None false intent_default tracker_default false
    (backoff_new INITIAL_BACKOFF MAXIMUM_BACKOFF) PhConnect [] [] 0.

(** What the worker's awaits return, and what the interface does. *)
Inductive ClientInput :=
| InFailed (error : list str)
| InBaselineError (name : option str) (error : list str)
| InBaseline (json : result str VersionedCoreSnapshot)
| InDispatch
| InReply (reply : result (list str) (option CoreSnapshot))
| InOwner (changed : bool)
| InSignal (signal : option (option VersionedCoreSnapshot))
| InNotified
| InReconcileDue
| InReconciled (reply : result (list str) (result str VersionedCoreSnapshot))
| InPolled (reply : result (list str) (option CoreSnapshot))
| InLegacyTimer
| InSlept
| InShutdown
| UiSend (command : ClientCommand)
| UiTake
| UiShutdown
| UiDropReceiver
| UiDropSender.

Definition request_repaint (c : Client) : Client := c <| cl_repaints ::= S |>.

Definition set_authority (c : Client) (value : bool) : Client :=
  let changed := xorb (cl_authority c) value in
  let c := c <| cl_authority := value |> in
  if changed then request_repaint c else c.

Definition publish_update (c : Client) (update : SnapshotUpdate) : Client :=
  let '(alive, mailbox) := publish (cl_mailbox c) update in
  let c := c <| cl_mailbox := mailbox |> in
  if alive then request_repaint c else c.

Definition apply_versioned (c : Client) (event : VersionedCoreSnapshot) : VersionedHandling * Client :=
  let '(decision, gate) := gate_apply (cl_gate c) event in
  let c := c <| cl_gate := gate |> in
  match decision with
  | DecApply event =>
      let c := c <| cl_intent ::= λ i, record_snapshot i (vcs_snapshot event) |> in
      (HandApplied, publish_update c (update_confirmed (vcs_snapshot event) (is_passive (vcs_snapshot event))))
  | DecIgnore => (HandIgnored, c)
  | DecReconcile => (HandReconcile, c)
  end.

(** The legacy interface's answers; [None] is one that does not decode. *)
Definition publish_json (c : Client) (json : option CoreSnapshot) : Client :=
  match json with
  | None => request_repaint c
  | Some snapshot => publish_update c (update_confirmed snapshot (is_passive snapshot))
  end.

Definition emit (c : Client) (event : option ConnectionEvent * ConnectionEventTracker) : Client :=
  let c := c <| cl_events := snd event |> in
  match fst event with Some e => c <| cl_log ::= λ l, l ++ [e] |> | None => c end.

Definition note_connected (c : Client) : Client := emit c (tracker_connected (cl_events c)).

(** The end of [connection_cycle], and what [run_client] does next. *)
Definition end_cycle (c : Client) (error : option (list str)) : Client :=
  let c := set_authority c false in
  let c := match error with Some e => emit c (tracker_failed (cl_events c) e) | None => c end in
  let '(delay, backoff) := next_delay (cl_backoff c) in
  c <| cl_backoff := backoff |> <| cl_phase := PhSleep delay |>.

(** [absorb_commands]; the boolean says whether the channel is open. *)
Definition absorb_commands (c : Client) : bool * Client :=
  let incoming := cl_commands c in
  (cl_open c,
   c <| cl_commands := commands_default |>
     <| cl_intent ::= λ i,
          mkIntent (pi_pending i || pc_set_passive incoming)
            (merge_newer (pi_widget_actions i) (pc_widget_actions incoming)) |>).

Definition absorb_and (next : Phase) (c : Client) : Client :=
  let '(open, c) := absorb_commands c in
  if open then c <| cl_phase := next |> else end_cycle c None.

(** The next call of a dispatch, or [after] when there is none left. *)
Definition dispatch (c : Client) (passive_first : bool) (call_phase : ClientCommand → Phase) (after : Phase) : Client :=
  let call action c := c <| cl_calls ::= λ l, l ++ [action] |> <| cl_phase := call_phase action |> in
  if passive_first && pi_pending (cl_intent c) then call SetPassive c
  else
    let '(action, actions) := take_next (pi_widget_actions (cl_intent c)) in
    let c := c <| cl_intent ::= λ i, i <| pi_widget_actions := actions |> |> in
    match action with Some action => call action c | None => c <| cl_phase := after |> end.

Section worker.
(** How the bus library displays its [Failure] error. *)
Context (show_failure : str → list str).

Definition owner_stream_error (changed : bool) : list str :=
  show_failure (lit (if changed then "Core D-Bus owner changed" else "Core D-Bus owner-change stream ended")).
Definition malformed_versioned_error (error : str) : list str :=
  show_failure (lit "malformed versioned Core snapshot: " ++ take 256 error).
Definition signal_stream_ended : list str := show_failure (lit "Core SnapshotChanged signal stream ended").
Definition conflicting_content : list str :=
  show_failure (lit "Core returned conflicting content for one snapshot revision").

(** A cycle starts with a gate and a timer of its own. *)
Definition accept_baseline (c : Client) (baseline : VersionedCoreSnapshot) : Client :=
  let c := note_connected c in
  let c := c <| cl_gate := None |> <| cl_reconcile_now := false |> in
  let c := snd (apply_versioned c baseline) in
  let c := set_authority c true in
  let c := c <| cl_backoff ::= backoff_reset |> in
  absorb_and (PhDispatch true) c.

Definition handle_signal (c : Client) (signal : option VersionedCoreSnapshot) : Client :=
  let '(handling, c) :=
    match signal with Some event => apply_versioned c event | None => (HandReconcile, c) end in
  if bool_decide (handling = HandReconcile) then c <| cl_reconcile_now := true |> else c.

Definition handle_reconciliation (c : Client) (event : VersionedCoreSnapshot) : Client :=
  let '(handling, c) := apply_versioned c event in
  if bool_decide (handling = HandReconcile) then end_cycle c (Some conflicting_content)
  else c <| cl_backoff ::= backoff_reset |> <| cl_reconcile_now := false |> <| cl_phase := PhLoop |>.

Definition legacy_reply (c : Client) (call : ClientCommand) (response : option CoreSnapshot) : Client :=
  let c := publish_json c response in
  let c :=
    if bool_decide (call = SetPassive) then c <| cl_intent ::= λ i, record_response i response |> else c in
  if isSome response then c <| cl_backoff ::= backoff_reset |> else c.

Definition legacy_poll (c : Client) (response : option CoreSnapshot) : Client :=
  let c := publish_json c response in
  let c := c <| cl_intent ::= λ i, record_response i response |> in
  let c := if isSome response then set_authority (c <| cl_backoff ::= backoff_reset |>) true else c in
  c <| cl_phase := PhLegacyWait |>.

(** One await of the worker that completes. *)
Definition worker_input (c : Client) (i : ClientInput) : option Client :=
  match cl_phase c, i with
  | PhConnect, InFailed e => Some (end_cycle c (Some e))
  | PhConnect, InOwner changed => Some (end_cycle c (Some (owner_stream_error changed)))
  | PhConnect, InBaselineError name e =>
      match baseline_failure_for_error_name name with
      | BaselineLegacy => Some (absorb_and (PhLegacyDispatch true) (note_connected c))
      | BaselineReconnect => Some (end_cycle c (Some e))
      end
  | PhConnect, InBaseline (Ok baseline) => Some (accept_baseline c baseline)
  | PhConnect, InBaseline (Err e) => Some (end_cycle c (Some (malformed_versioned_error e)))
  | PhDispatch true, InOwner changed => Some (end_cycle c (Some (owner_stream_error changed)))
  | PhDispatch first, InDispatch => Some (dispatch c first PhCall PhLoop)
  | PhCall _, InReply (Ok _) => Some (c <| cl_phase := PhDispatch false |>)
  | PhCall _, InReply (Err e) => Some (end_cycle c (Some e))
  | PhCall _, InOwner changed => Some (end_cycle c (Some (owner_stream_error changed)))
  | PhLoop, InOwner changed => Some (end_cycle c (Some (owner_stream_error changed)))
  | PhLoop, InSignal None => Some (end_cycle c (Some signal_stream_ended))
  | PhLoop, InSignal (Some signal) => Some (handle_signal c signal)
  | PhLoop, InNotified =>
      if cl_permit c then Some (absorb_and (PhDispatch true) (c <| cl_permit := false |>)) else None
  | PhLoop, InReconcileDue => Some (c <| cl_phase := PhReconciling |>)
  | PhReconciling, InOwner changed => Some (end_cycle c (Some (owner_stream_error changed)))
  | PhReconciling, InReconciled (Err e) => Some (end_cycle c (Some e))
  | PhReconciling, InReconciled (Ok (Err e)) => Some (end_cycle c (Some (malformed_versioned_error e)))
  | PhReconciling, InReconciled (Ok (Ok event)) => Some (handle_reconciliation c event)
  | PhLegacyDispatch first, InDispatch => Some (dispatch c first PhLegacyCall PhLegacySnapshot)
  | PhLegacyCall call, InReply (Ok response) =>
      Some (legacy_reply c call response <| cl_phase := PhLegacyDispatch false |>)
  | PhLegacyCall _, InReply (Err e) => Some (end_cycle c (Some e))
  | PhLegacySnapshot, InPolled (Ok response) => Some (legacy_poll c response)
  | PhLegacySnapshot, InPolled (Err e) => Some (end_cycle c (Some e))
  | PhLegacyWait, InNotified =>
      if cl_permit c then Some (absorb_and (PhLegacyDispatch true) (c <| cl_permit := false |>)) else None
  | PhLegacyWait, InLegacyTimer => Some (absorb_and (PhLegacyDispatch true) c)
  | PhSleep _, InSlept => Some (c <| cl_phase := PhConnect |>)
  | PhStopped, _ => None
  | PhSleep _, InShutdown => if cl_shutdown c then Some (c <| cl_phase := PhStopped |>) else None
  | _, InShutdown => if cl_shutdown c then Some (set_authority c false <| cl_phase := PhStopped |>) else None
  | _, _ => None
  end.

Definition ui_send (c : Client) (command : ClientCommand) : Client :=
  c <| cl_commands ::= λ p, commands_push p command |> <| cl_permit := true |>.
Definition ui_take (c : Client) : option SnapshotUpdate * Client :=
  let '(update, mailbox) := take_latest (cl_mailbox c) in (update, c <| cl_mailbox := mailbox |>).

Definition client_step (c : Client) (i : ClientInput) : option Client :=
  match i with
  | UiSend command => if cl_open c then Some (ui_send c command) else None
  | UiTake => Some (snd (ui_take c))
  | UiShutdown => Some (c <| cl_shutdown := true |>)
  | UiDropReceiver => Some (c <| cl_mailbox ::= λ m, m <| mb_receiver := false |> |>)
  | UiDropSender => Some (c <| cl_open := false |> <| cl_permit := true |>)
  | _ => worker_input c i
  end.

Fixpoint client_run (c : Client) (inputs : list ClientInput) : option Client :=
  match inputs with
  | [] => Some c
  | i :: inputs => c ← client_step c i; client_run c inputs
  end.
End worker.

(** * The revision gate keeps the newest snapshot *)

Fixpoint gate_run (applied : option VersionedCoreSnapshot) (events : list VersionedCoreSnapshot) :
    list RevisionDecision * option VersionedCoreSnapshot :=
  match events with
  | [] => ([], applied)
  | e :: events =>
      let '(d, applied) := gate_apply applied e in
      let '(ds, applied) := gate_run applied events in (d :: ds, applied)
  end.

(** The events newer than all before them, in a sequence whose newest so far
    is [newest]. *)
Fixpoint newer_events (newest : option Z) (events : list VersionedCoreSnapshot) : list RevisionDecision :=
  match events with
  | [] => []
  | e :: events =>
      if is_none_or (λ n, n <? vcs_revision e) newest
      then DecApply e :: newer_events (Some (vcs_revision e)) events
      else DecIgnore :: newer_events newest events
  end.

(** Core sends one content under one revision. *)
Definition revisions_agree (events : list VersionedCoreSnapshot) : Prop :=
  ∀ a b, a ∈ events → b ∈ events → vcs_revision a = vcs_revision b →
  core_snapshot_eqb (vcs_snapshot a) (vcs_snapshot b) = true.

Lemma gate_run_reference seen applied events :
  revisions_agree (seen ++ events) → (∀ a, applied = Some a → a ∈ seen) →
  (gate_run applied events).1 = newer_events (vcs_revision <$> applied) events.
Proof.
  revert seen applied. induction events as [|e events IH]; intros seen applied Hr Ha; [done|].
  cbn. destruct (gate_apply applied e) as [d applied'] eqn:Eg. destruct (gate_run applied' events) as [ds g] eqn:Er.
  cbn. rewrite cons_middle, app_assoc in Hr. specialize (IH (seen ++ [e]) applied' Hr). rewrite Er in IH. cbn in IH.
  unfold gate_apply in Eg. destruct applied as [a|]; cbn.
  - specialize (Ha a eq_refl). destruct (Z.ltb_spec (vcs_revision e) (vcs_revision a)) as [Hlt|Hge].
    + injection Eg as <- <-. rewrite (proj2 (Z.ltb_ge _ _)) by lia. f_equal. apply IH. intros ? [= <-]. set_solver.
    + destruct (Z.eqb_spec (vcs_revision e) (vcs_revision a)) as [He|Hne].
      * rewrite (Hr e a) in Eg by (done || set_solver). injection Eg as <- <-.
        rewrite (proj2 (Z.ltb_ge _ _)) by lia. f_equal. apply IH. intros ? [= <-]. set_solver.
      * injection Eg as <- <-. rewrite (proj2 (Z.ltb_lt _ _)) by lia. f_equal. apply IH. intros ? [= <-]. set_solver.
  - injection Eg as <- <-. f_equal. apply IH. intros ? [= <-]. set_solver.
Qed.

Lemma gate_run_maximum applied events g :
  (gate_run applied events).2 = Some g →
  (applied = Some g ∨ g ∈ events) ∧
  (∀ a, applied = Some a → vcs_revision a ≤ vcs_revision g) ∧
  (∀ e, e ∈ events → vcs_revision e ≤ vcs_revision g).
Proof.
  revert applied. induction events as [|e events IH]; intros applied H.
  { cbn in H. subst applied. split_and!; [by left|by intros ? [= ->]|by intros ? ?%elem_of_nil]. }
  cbn in H. destruct (gate_apply applied e) as [d applied'] eqn:Eg.
  specialize (IH applied'). destruct (gate_run applied' events) as [ds g'] eqn:Er. cbn in H, IH.
  destruct (IH H) as (H1 & H2 & H3). unfold gate_apply in Eg. setoid_rewrite elem_of_cons.
  destruct applied as [a|]; [|injection Eg as _ <-; naive_solver].
  destruct (Z.ltb_spec (vcs_revision e) (vcs_revision a)).
  { injection Eg as _ <-. specialize (H2 a eq_refl). split_and!; [naive_solver| |]; intros ?; [by intros [= <-]|].
    intros [->|?]; [lia|auto]. }
  destruct (Z.eqb_spec (vcs_revision e) (vcs_revision a)).
  { assert (applied' = Some a) as -> by (destruct (core_snapshot_eqb _ _); by injection Eg as _ <-).
    specialize (H2 a eq_refl). split_and!; [naive_solver| |]; intros ?; [by intros [= <-]|].
    intros [->|?]; [lia|auto]. }
  injection Eg as _ <-. specialize (H2 e eq_refl). split_and!; [naive_solver| |]; intros ?; [intros [= <-]; lia|].
  intros [->|?]; [lia|auto].
Qed.

Lemma gate_run_is_Some a events : is_Some (gate_run (Some a) events).2.
Proof.
  revert a. induction events as [|e events IH]; intros a; [by eexists|]. cbn.
  destruct (gate_apply (Some a) e) as [d applied] eqn:E.
  assert (∃ b, applied = Some b) as [b ->].
  { unfold gate_apply in E. repeat case_match; simplify_eq; eauto. }
  specialize (IH b). by destruct (gate_run (Some b) events).
Qed.

(** C13 The overlay shows the newest snapshot: whatever order, duplication or
    loss the messages of one Core suffer, the gate applies exactly those
    newer than every one before them, never asks to reconcile, and keeps one
    of the highest revision received. *)
Theorem revision_gate_newest events
    (Hagree : revisions_agree events) :
  (gate_run None events).1 = newer_events None events ∧
  match (gate_run None events).2 with
  | Some g => g ∈ events ∧ ∀ e, e ∈ events → vcs_revision e ≤ vcs_revision g
  | None => events = []
  end.
Proof.
  split; [by apply (gate_run_reference [])|].
  destruct (gate_run None events).2 as [g|] eqn:E.
  - destruct (gate_run_maximum _ _ _ E) as ([?|?] & _ & ?); [done|]. done.
  - destruct events as [|e events]; [done|]. cbn in E.
    destruct (gate_run_is_Some e events) as [g Hg].
    change (gate_apply None e) with (DecApply e, Some e) in E. cbv iota in E.
    destruct (gate_run (Some e) events). cbn in *. congruence.
Qed.

(** * Coalesced widget actions *)

#[local] Arguments stopwatch_toggle : simpl never.
#[local] Arguments stopwatch_reset : simpl never.

(** Two stopwatches that no one can tell apart from [t] on. *)
Definition sw_equiv (t : instant) (w w' : ManualStopwatch) : Prop :=
  isSome (sw_started_at w) = isSome (sw_started_at w') ∧
  ∀ t', t ≤ t' → stopwatch_elapsed w t' = stopwatch_elapsed w' t'.

#[export] Instance sw_equiv_equivalence t : Equivalence (sw_equiv t).
Proof.
  split; unfold sw_equiv.
  - done.
  - intros x y [H1 H2]. split; [done|]. intros. symmetry. auto.
  - intros x y z [H1 H2] [H3 H4]. split; [congruence|]. intros. rewrite H2; auto.
Qed.

(** A stopwatch as it can be at [t]. *)
Definition sw_ok (t : instant) (w : ManualStopwatch) : Prop :=
  0 ≤ sw_accumulated w ≤ duration_max ∧ ∀ s, sw_started_at w = Some s → s ≤ t.

#[export] Instance stopwatch_toggle_proper t : Proper (sw_equiv t ==> sw_equiv t) (λ w, stopwatch_toggle w t).
Proof.
  intros [a [s|]] [a' [s'|]] [Hs He]; try done; split; try done; intros t' Ht'.
  - specialize (He t ltac:(lia)). unfold stopwatch_elapsed, stopwatch_toggle in *. cbn in *. done.
  - specialize (He t ltac:(lia)). unfold stopwatch_elapsed, stopwatch_toggle in *. cbn in *. by subst.
Qed.

Lemma stopwatch_toggle_toggle t w : sw_ok t w → sw_equiv t (stopwatch_toggle (stopwatch_toggle w t) t) w.
Proof.
  destruct w as [a [s|]]; intros [Ha Hs]; cbn in Ha, Hs; split; try done; intros t' Ht'.
  - specialize (Hs s eq_refl). rewrite stopwatch_toggle_stop. unfold stopwatch_toggle at 1. cbn [sw_started_at sw_accumulated].
    rewrite !stopwatch_elapsed_running. unfold dur_saturating_add, saturating_add, saturating_duration_since, saturating_sub. lia.
  - unfold stopwatch_toggle at 2. cbn [sw_started_at sw_accumulated]. rewrite stopwatch_toggle_stop.
    unfold stopwatch_elapsed. cbn [sw_started_at sw_accumulated].
    unfold dur_saturating_add, saturating_add, saturating_duration_since, saturating_sub. lia.
Qed.

Lemma stopwatch_toggle_ok t w : sw_ok t w → sw_ok t (stopwatch_toggle w t).
Proof.
  destruct w as [a [s|]]; intros [Ha Hs]; cbn in Ha, Hs.
  - rewrite stopwatch_toggle_stop. split; [|done]. cbn. apply dur_saturating_add_valid; [lia|apply saturating_since_nonneg].
  - split; [done|]. unfold stopwatch_toggle. cbn. intros ? [= <-]. lia.
Qed.

Lemma stopwatch_reset_ok t w : sw_ok t (stopwatch_reset w).
Proof. split; [|done]. unfold stopwatch_reset. cbn. unfold duration_max, u64_max, nanos_per_sec. lia. Qed.

(** What Core's stopwatch does on a command at [t]. *)
Definition command_effect (t : instant) (w : ManualStopwatch) (c : ClientCommand) : ManualStopwatch :=
  match c with
  | ToggleManualStopwatch => stopwatch_toggle w t
  | ResetManualStopwatch => stopwatch_reset w
  | _ => w
  end.
(** What the pending actions amount to. *)
Definition actions_effect (t : instant) (a : PendingWidgetActions) (w : ManualStopwatch) : ManualStopwatch :=
  let w := if wa_reset a then stopwatch_reset w else w in
  if wa_toggle a then stopwatch_toggle w t else w.

(** The calls the worker makes of pending actions when nothing arrives in
    between: at most one of each. *)
Fixpoint drain (fuel : nat) (a : PendingWidgetActions) : list ClientCommand :=
  match fuel with
  | O => []
  | S fuel => match take_next a with (Some c, a) => c :: drain fuel a | (None, _) => [] end
  end.

#[local] Hint Resolve stopwatch_toggle_ok stopwatch_reset_ok : core.

Lemma drain_effect t a w : foldl (command_effect t) w (drain 3 a) = actions_effect t a w.
Proof. by destruct a as [[] [] []]. Qed.

Lemma actions_effect_ok t a w : sw_ok t w → sw_ok t (actions_effect t a w).
Proof.
  destruct a as [r [] []]; unfold actions_effect; cbn [wa_reset wa_toggle]; auto.
Qed.
Lemma command_effect_ok t w c : sw_ok t w → sw_ok t (command_effect t w c).
Proof. destruct c; cbn [command_effect]; auto. Qed.

#[export] Instance command_effect_proper t : Proper (sw_equiv t ==> (=) ==> sw_equiv t) (command_effect t).
Proof. intros w w' Hw c ? <-. destruct c; cbn; try done. by apply stopwatch_toggle_proper. Qed.
#[export] Instance actions_effect_proper t a : Proper (sw_equiv t ==> sw_equiv t) (actions_effect t a).
Proof.
  intros w w' Hw. destruct a as [r [] []]; unfold actions_effect; cbn; try done. by apply stopwatch_toggle_proper.
Qed.

Lemma actions_push_effect t a c w :
  sw_ok t w → sw_equiv t (actions_effect t (actions_push a c) w) (command_effect t (actions_effect t a w) c).
Proof.
  intros Hw. destruct c; cbn; [done|done| |]; destruct a as [r [] []]; unfold actions_effect; cbn; try done;
    symmetry; apply stopwatch_toggle_toggle; done || apply stopwatch_reset_ok.
Qed.

Lemma merge_newer_effect t a b w :
  sw_ok t w → sw_equiv t (actions_effect t (merge_newer a b) w) (actions_effect t b (actions_effect t a w)).
Proof.
  intros Hw. destruct a as [r [] []], b as [r' [] []]; unfold actions_effect, merge_newer; cbn; try done;
    symmetry; apply stopwatch_toggle_toggle; done || apply stopwatch_reset_ok.
Qed.

Lemma pushed_effect t a cs w :
  sw_ok t w →
  sw_equiv t (actions_effect t (foldl actions_push a cs) w) (foldl (command_effect t) (actions_effect t a w) cs).
Proof.
  intros Hw. revert a. induction cs as [|c cs IH]; intros a; cbn [foldl]; [done|]. rewrite IH.
  pose proof (actions_push_effect t a c w Hw) as He. revert He.
  generalize (actions_effect t (actions_push a c) w), (command_effect t (actions_effect t a w) c). clear.
  induction cs as [|c cs IH]; intros x y He; cbn; [done|]. apply IH. by rewrite He.
Qed.

Lemma merged_effect t a batches w :
  sw_ok t w →
  sw_equiv t
    (actions_effect t (foldl merge_newer a ((λ b, foldl actions_push actions_default b) <$> batches)) w)
    (foldl (command_effect t) (actions_effect t a w) (concat batches)).
Proof.
  intros Hw. revert a. induction batches as [|b batches IH]; intros a; cbn [fmap list_fmap concat foldl]; [done|].
  rewrite IH, foldl_app.
  assert (sw_equiv t (actions_effect t (merge_newer a (foldl actions_push actions_default b)) w)
            (foldl (command_effect t) (actions_effect t a w) b)) as He.
  { rewrite merge_newer_effect, pushed_effect by auto using actions_effect_ok. done. }
  revert He. generalize (concat batches). clear. intros l. 
  generalize (actions_effect t (merge_newer a (foldl actions_push actions_default b)) w),
    (foldl (command_effect t) (actions_effect t a w) b).
  induction l as [|c l IH]; intros x y He; cbn; [done|]. apply IH. by rewrite He.
Qed.

Lemma pushed_reload a cs :
  wa_reload (foldl actions_push a cs) = wa_reload a || bool_decide (ReloadWidgetSettings ∈ cs).
Proof.
  revert a. induction cs as [|c cs IH]; intros a; cbn [foldl].
  { rewrite bool_decide_eq_false_2 by apply not_elem_of_nil. by rewrite orb_false_r. }
  rewrite IH. apply eq_true_iff_eq. rewrite !orb_true_iff, !bool_decide_eq_true, elem_of_cons.
  destruct c; cbn; naive_solver.
Qed.

Lemma merged_reload a batches :
  wa_reload (foldl merge_newer a ((λ b, foldl actions_push actions_default b) <$> batches)) =
    wa_reload a || bool_decide (ReloadWidgetSettings ∈ concat batches).
Proof.
  revert a. induction batches as [|b batches IH]; intros a; cbn [foldl fmap list_fmap concat].
  { rewrite bool_decide_eq_false_2 by apply not_elem_of_nil. by rewrite orb_false_r. }
  rewrite IH. apply eq_true_iff_eq. rewrite !orb_true_iff, !bool_decide_eq_true, elem_of_app.
  assert (wa_reload (merge_newer a (foldl actions_push actions_default b)) =
          wa_reload a || bool_decide (ReloadWidgetSettings ∈ b)) as ->.
  { unfold merge_newer. rewrite <- (orb_false_l (bool_decide _)).
    change false with (wa_reload actions_default) at 1. rewrite <- pushed_reload. by destruct (wa_reset _). }
  rewrite orb_true_iff, bool_decide_eq_true. tauto.
Qed.



Lemma revision_gate_newest_witness :
  let e r := mkVersionedCoreSnapshot r core_snapshot_default in
  (gate_run None [e 2; e 1; e 2; e 5]).1 = [DecApply (e 2); DecIgnore; DecIgnore; DecApply (e 5)].
Proof.
  intros e. refine (proj1 (revision_gate_newest [e 2; e 1; e 2; e 5] _)).
  intros a b Ha Hb _. rewrite !elem_of_cons, elem_of_nil in Ha, Hb.
  destruct_or!; subst; try done.
Defined.

(** * The worker's steps, field by field *)

#[global] Arguments end_cycle : simpl never.
#[global] Arguments set_authority : simpl never.
#[global] Arguments emit : simpl never.
#[global] Arguments publish_json : simpl never.
#[global] Arguments publish_update : simpl never.
#[global] Arguments apply_versioned : simpl never.
#[global] Arguments absorb_and : simpl never.
#[global] Arguments dispatch : simpl never.
#[global] Arguments accept_baseline : simpl never.
#[global] Arguments handle_signal : simpl never.
#[global] Arguments handle_reconciliation : simpl never.
#[global] Arguments legacy_reply : simpl never.
#[global] Arguments legacy_poll : simpl never.

Lemma set_authority_eq c v : ∃ n, set_authority c v = c <| cl_authority := v |> <| cl_repaints := n |>.
Proof. unfold set_authority, request_repaint. destruct c, (xorb _ _); cbn; by eexists. Qed.

Lemma emit_eq c e : ∃ l, emit c e = c <| cl_events := e.2 |> <| cl_log := l |>.
Proof. unfold emit. destruct c, e as [[]]; cbn; by eexists. Qed.

Lemma publish_update_eq c u : ∃ m n, publish_update c u = c <| cl_mailbox := m |> <| cl_repaints := n |>.
Proof.
  unfold publish_update, request_repaint. destruct (publish _ _) as [[] m]; destruct c; cbn; by eexists _, _.
Qed.

Lemma publish_json_eq c j : ∃ m n, publish_json c j = c <| cl_mailbox := m |> <| cl_repaints := n |>.
Proof.
  destruct j; [apply publish_update_eq|]. unfold publish_json, request_repaint. destruct c; cbn; by eexists _, _.
Qed.

Lemma end_cycle_eq c e : ∃ ev l n b d, end_cycle c e =
  c <| cl_authority := false |> <| cl_events := ev |> <| cl_log := l |> <| cl_repaints := n |>
    <| cl_backoff := b |> <| cl_phase := PhSleep d |>.
Proof.
  unfold end_cycle. destruct (set_authority_eq c false) as [n ->].
  destruct e as [e|].
  - destruct (emit_eq (c <| cl_authority := false |> <| cl_repaints := n |>)
      (tracker_failed (cl_events (c <| cl_authority := false |> <| cl_repaints := n |>)) e)) as [l ->].
    destruct (next_delay _) as [d b]. destruct c; cbn. by eexists _, _, _, _, _.
  - destruct (next_delay _) as [d b]. destruct c; cbn. by eexists _, _, _, _, _.
Qed.

Lemma apply_versioned_eq c e : ∃ m n g, (apply_versioned c e).2 =
  c <| cl_gate := Some g |> <| cl_mailbox := m |> <| cl_repaints := n |>
    <| cl_intent := (apply_versioned c e).2.(cl_intent) |> ∧
  ((apply_versioned c e).2.(cl_intent) = cl_intent c ∨
   (apply_versioned c e).2.(cl_intent) = record_snapshot (cl_intent c) (vcs_snapshot e)).
Proof.
  unfold apply_versioned. destruct (gate_apply (cl_gate c) e) as [d g] eqn:Eg.
  assert (∃ g', g = Some g' ∧ (d = DecApply e ∨ d = DecIgnore ∨ d = DecReconcile)) as (g' & -> & Hd).
  { unfold gate_apply in Eg. repeat case_match; simplify_eq; eauto 6. }
  destruct Hd as [-> | [-> | ->]].
  - cbn. destruct (publish_update_eq (c <| cl_gate := Some g' |> <| cl_intent ::= λ i, record_snapshot i (vcs_snapshot e) |>)
      (update_confirmed (vcs_snapshot e) (is_passive (vcs_snapshot e)))) as (m & n & H).
    cbn in H. rewrite H. destruct c; cbn. eexists _, _, _. split; [reflexivity|by right].
  - destruct c; cbn. eexists _, _, _. split; [reflexivity|by left].
  - destruct c; cbn. eexists _, _, _. split; [reflexivity|by left].
Qed.

Lemma absorb_and_eq next c : absorb_and next c =
  (if cl_open c then λ c, c <| cl_phase := next |> else λ c, end_cycle c None)
    (c <| cl_commands := commands_default |>
       <| cl_intent := mkIntent (pi_pending (cl_intent c) || pc_set_passive (cl_commands c))
            (merge_newer (pi_widget_actions (cl_intent c)) (pc_widget_actions (cl_commands c))) |>).
Proof. unfold absorb_and, absorb_commands. by destruct (cl_open c). Qed.

Lemma dispatch_eq c first call after : ∃ actions calls p, dispatch c first call after =
  c <| cl_intent := mkIntent (pi_pending (cl_intent c)) actions |> <| cl_calls := cl_calls c ++ calls |> <| cl_phase := p |> ∧
  (p = after ∧ calls = [] ∧ (first && pi_pending (cl_intent c)) = false ∨
   ∃ a, p = call a ∧ calls = [a] ∧ ((first && pi_pending (cl_intent c)) = true → a = SetPassive)).
Proof.
  unfold dispatch. destruct (first && _) eqn:E.
  - eexists (pi_widget_actions (cl_intent c)), [SetPassive], _. split; [destruct c as [??????? [] ???????]; cbn; reflexivity|].
    right. by eexists.
  - destruct (take_next _) as [[a|] actions].
    + eexists actions, [a], _. split; [destruct c; cbn; reflexivity|]. right. by eexists.
    + eexists actions, [], _. split; [destruct c; cbn; by rewrite app_nil_r|]. by left.
Qed.

(** Rewrite the innermost call of the worker's steps with its equation. *)
Ltac inner c :=
  lazymatch c with
  | context [end_cycle] => fail
  | context [set_authority] => fail
  | context [emit] => fail
  | context [publish_json] => fail
  | context [apply_versioned] => fail
  | _ => idtac
  end.
Ltac step_fields :=
  repeat match goal with
  | |- context [set_authority ?c ?v] => inner c; destruct (set_authority_eq c v) as [? ->]
  | |- context [emit ?c ?v] => inner c; destruct (emit_eq c v) as [? ->]
  | |- context [publish_json ?c ?v] => inner c; destruct (publish_json_eq c v) as (? & ? & ->)
  | |- context [end_cycle ?c ?v] => inner c; destruct (end_cycle_eq c v) as (? & ? & ? & ? & ? & ->)
  end.

(** * Authority *)

Definition connected_phase (p : Phase) : bool :=
  match p with PhConnect | PhSleep _ | PhStopped => false | _ => true end.
Definition versioned_phase (p : Phase) : bool :=
  match p with PhDispatch _ | PhCall _ | PhLoop | PhReconciling => true | _ => false end.

Record authority_inv (c : Client) : Prop := {
  ai_connected : cl_authority c = true → connected_phase (cl_phase c) = true;
  ai_versioned : versioned_phase (cl_phase c) = true → cl_authority c = true ∧ is_Some (cl_gate c)
}.

Lemma end_cycle_authority c e : authority_inv (end_cycle c e).
Proof. destruct (end_cycle_eq c e) as (?&?&?&?&?&->). destruct c. by split. Qed.

Lemma absorb_and_authority next c :
  (cl_authority c = true → connected_phase next = true) →
  (versioned_phase next = true → cl_authority c = true ∧ is_Some (cl_gate c)) →
  authority_inv (absorb_and next c).
Proof.
  intros H1 H2. rewrite absorb_and_eq. destruct (cl_open c); [|apply end_cycle_authority].
  destruct c; by split.
Qed.

Lemma apply_versioned_authority c e :
  cl_authority (apply_versioned c e).2 = cl_authority c ∧ cl_phase (apply_versioned c e).2 = cl_phase c ∧
  is_Some (cl_gate (apply_versioned c e).2).
Proof. destruct (apply_versioned_eq c e) as (m & n & g & -> & _). destruct c; cbn. eauto. Qed.

Section client_theorems.
Context (show_failure : str → list str).

Lemma accept_baseline_authority c e : authority_inv (accept_baseline c e).
Proof.
  unfold accept_baseline. apply absorb_and_authority; [done|]. intros _.
  set (c1 := note_connected c <| cl_gate := None |> <| cl_reconcile_now := false |>).
  destruct (apply_versioned_authority c1 e) as (_ & _ & Hg).
  destruct (set_authority_eq (apply_versioned c1 e).2 true) as [n ->]. by destruct (apply_versioned c1 e).2.
Qed.

Lemma dispatch_authority c first call after :
  authority_inv c → versioned_phase (cl_phase c) = versioned_phase after → connected_phase after = true →
  (∀ a, versioned_phase (call a) = versioned_phase after ∧ connected_phase (call a) = true) →
  authority_inv (dispatch c first call after).
Proof.
  intros [H1 H2] Hv Hc Hcall. destruct (dispatch_eq c first call after) as (i & l & p & -> & Hp).
  assert (versioned_phase p = versioned_phase after ∧ connected_phase p = true) as [Hpv Hpc].
  { destruct Hp as [(-> & _)|(a & -> & _)]; auto. }
  rewrite Hv, <- Hpv in H2. destruct c; split; cbn in *; auto.
Qed.

Lemma handle_signal_authority c s :
  authority_inv c → cl_phase c = PhLoop → authority_inv (handle_signal c s).
Proof.
  intros [H1 H2] Hp. rewrite Hp in *. destruct (H2 eq_refl) as [Ha Hg]. unfold handle_signal.
  destruct s as [e|].
  - destruct (apply_versioned_authority c e) as (E1 & E2 & E3). destruct (apply_versioned c e) as [h c'].
    cbn in *. rewrite Hp, Ha in *. case_bool_decide; destruct c'; cbn in *; subst; by split.
  - cbn. case_bool_decide; destruct c; cbn in *; subst; by split.
Qed.

Lemma handle_reconciliation_authority c e : cl_authority c = true → authority_inv (handle_reconciliation show_failure c e).
Proof.
  intros Ha. unfold handle_reconciliation. destruct (apply_versioned_authority c e) as (E1 & E2 & E3).
  destruct (apply_versioned c e) as [h c']. cbn in *. case_bool_decide; [apply end_cycle_authority|].
  rewrite Ha in E1. destruct c'; cbn in *; subst; by split.
Qed.

Lemma legacy_authority c next :
  versioned_phase next = false → connected_phase next = true → authority_inv (c <| cl_phase := next |>).
Proof. intros H1 H2. destruct c; split; cbn; [done|by rewrite H1]. Qed.

Lemma worker_input_authority c i c' :
  authority_inv c → worker_input show_failure c i = Some c' → authority_inv c'.
Proof.
  intros Hi H. pose proof Hi as [H1 H2]. unfold worker_input in H.
  destruct (cl_phase c) as [|first|call| | |first|call| | |d|] eqn:Ep; destruct i; repeat (case_match; try done);
    simplify_eq; try apply end_cycle_authority; try apply accept_baseline_authority;
    try (apply legacy_authority; done); try (by apply handle_signal_authority);
    try (apply handle_reconciliation_authority; by apply H2);
    try (apply dispatch_authority; rewrite ?Ep; done);
    try (destruct (set_authority_eq c false) as [? ->]; destruct c; by split);
    try (apply absorb_and_authority; try done; intros; destruct c; cbn in *; auto);
    try (destruct c; cbn in *; split; cbn; subst; auto; done).
Qed.

Lemma client_step_authority c i c' :
  authority_inv c → client_step show_failure c i = Some c' → authority_inv c'.
Proof.
  intros Hi H. unfold client_step in H.
  destruct i; try (by eapply worker_input_authority); destruct Hi as [H1 H2].
  - case_match; [|done]. injection H as <-. destruct c; by split.
  - injection H as <-. unfold ui_take. destruct (take_latest _). destruct c; by split.
  - injection H as <-. destruct c; by split.
  - injection H as <-. destruct c; by split.
  - injection H as <-. destruct c; by split.
Qed.

Lemma client_run_invariant (P : Client → Prop) c inputs c' :
  (∀ c i c', P c → client_step show_failure c i = Some c' → P c') →
  P c → client_run show_failure c inputs = Some c' → P c'.
Proof.
  intros Hstep. revert c. induction inputs as [|i inputs IH]; intros c Hc H; cbn in H; [by simplify_eq|].
  destruct (client_step show_failure c i) as [c1|] eqn:E; cbn in H; [|done]. eapply IH; [|done]. by eapply Hstep.
Qed.

(** Providers fail closed: in every state the client reaches, it claims
    Core's authority only while a connection is up, and while it follows a
    Core with versioned snapshots it does so with a snapshot in its gate;
    between connections and after the end it never does. *)
Theorem authority_only_while_connected inputs c
    (Hrun : client_run show_failure client_spawned inputs = Some c) :
  (cl_authority c = true → connected_phase (cl_phase c) = true) ∧
  (versioned_phase (cl_phase c) = true → cl_authority c = true ∧ is_Some (cl_gate c)).
Proof.
  assert (authority_inv c) as [H1 H2]; [|by split].
  eapply client_run_invariant; [apply client_step_authority| |done]. by split.
Qed.

(** * Passive mode *)

(** A request for passive mode the client still has to see through. *)
Definition wants_passive (c : Client) : bool := pc_set_passive (cl_commands c) || pi_pending (cl_intent c).

(** The input carries a snapshot of Core's in passive mode. *)
Definition delivers_passive (i : ClientInput) : bool :=
  match i with
  | InBaseline (Ok e) | InSignal (Some (Some e)) | InReconciled (Ok (Ok e)) => is_passive (vcs_snapshot e)
  | InReply (Ok (Some s)) | InPolled (Ok (Some s)) => is_passive s
  | _ => false
  end.

(** The parts of the client a request lives in. *)
Definition request_parts (c : Client) := (cl_commands c, cl_permit c, cl_intent c, cl_calls c).

(** Where a dispatch that begins with the passive request is still to come. *)
Definition before_dispatch (p : Phase) : Prop :=
  match p with
  | PhConnect | PhSleep _ | PhStopped | PhDispatch true | PhLegacyDispatch true => True
  | _ => False
  end.

(** Progress of a request made when the client had made [n] calls: not yet
    taken from the commands, whose wake-up is still to come; or taken, with a
    dispatch still to begin; or called. *)
Definition request_progress (n : nat) (c : Client) : Prop :=
  let '(commands, permit, intent, calls) := request_parts c in
  (n ≤ length calls)%nat ∧
  (SetPassive ∈ drop n calls ∨ pc_set_passive commands = true ∧ permit = true ∨
   pi_pending intent = true ∧ before_dispatch (cl_phase c)).

Lemma apply_versioned_pending c e :
  is_passive (vcs_snapshot e) = false → cl_intent (apply_versioned c e).2 = cl_intent c.
Proof.
  intros Hp. destruct (apply_versioned_eq c e) as (m & n & g & _ & [-> | ->]); [done|].
  unfold record_snapshot. by rewrite Hp.
Qed.

Lemma apply_versioned_parts c e :
  is_passive (vcs_snapshot e) = false →
  request_parts (apply_versioned c e).2 = request_parts c ∧ cl_phase (apply_versioned c e).2 = cl_phase c ∧
  cl_open (apply_versioned c e).2 = cl_open c.
Proof.
  intros Hp. pose proof (apply_versioned_pending c e Hp) as Hi.
  destruct (apply_versioned_eq c e) as (m & n & g & E & _). rewrite Hi in E. rewrite E. by destruct c.
Qed.

Lemma end_cycle_parts c e : request_parts (end_cycle c e) = request_parts c ∧ ∃ d, cl_phase (end_cycle c e) = PhSleep d.
Proof. destruct (end_cycle_eq c e) as (?&?&?&?&d&->). destruct c; cbn. eauto. Qed.

Lemma end_cycle_progress n c c1 e :
  request_parts c1 = request_parts c → request_progress n c → request_progress n (end_cycle c1 e).
Proof.
  intros E H. destruct (end_cycle_parts c1 e) as [E1 [d Ep]]. unfold request_progress in *.
  rewrite Ep, E1, E. destruct (request_parts c) as [[[commands permit] intent] calls].
  destruct H as [Hn [H | [H | [H _]]]]; cbn; auto.
Qed.

Lemma absorb_and_progress n c next :
  before_dispatch next → (n ≤ length (cl_calls c))%nat →
  (SetPassive ∈ drop n (cl_calls c) ∨ pc_set_passive (cl_commands c) = true ∨ pi_pending (cl_intent c) = true) →
  request_progress n (absorb_and next c).
Proof.
  intros Hnext Hn H. rewrite absorb_and_eq.
  set (c1 := c <| cl_commands := _ |> <| cl_intent := _ |>).
  assert (∀ p, before_dispatch p → request_progress n (c1 <| cl_phase := p |>)) as Hp.
  { intros p Hp. unfold c1. destruct c; cbn in *. split; [done|].
    destruct H as [H | [-> | ->]]; auto; right; right; rewrite ?orb_true_r; done. }
  destruct (cl_open c); [by apply Hp|].
  eapply end_cycle_progress; [|apply (Hp PhConnect); done]. by destruct c.
Qed.

Lemma dispatch_progress n c (first : bool) call after :
  cl_phase c = (if first then PhDispatch true else PhDispatch false) ∨
  cl_phase c = (if first then PhLegacyDispatch true else PhLegacyDispatch false) →
  request_progress n c → request_progress n (dispatch c first call after).
Proof.
  intros Hp H. destruct (dispatch_eq c first call after) as (actions & calls & p & -> & Hc).
  destruct c. cbn in *. destruct H as [Hn H].
  split; [rewrite length_app; lia|]. rewrite drop_app_le by done.
  destruct H as [H | [H | [H Hph]]]; [left; set_solver|by right; left|].
  destruct Hc as [(-> & -> & Hf) | (a & -> & -> & Hf)].
  - exfalso. rewrite H, andb_true_r in Hf. subst first. destruct Hp as [-> | ->]; done.
  - left. rewrite H, andb_true_r in Hf. destruct first; [rewrite Hf by done; set_solver|].
    exfalso. destruct Hp as [-> | ->]; done.
Qed.
Lemma progress_parts n c c' :
  request_parts c' = request_parts c → (before_dispatch (cl_phase c) → before_dispatch (cl_phase c')) →
  request_progress n c → request_progress n c'.
Proof.
  intros E Hp. unfold request_progress. rewrite E. destruct (request_parts c) as [[[commands permit] intent] calls].
  naive_solver.
Qed.

(** The request is still around, wherever it is. *)
Lemma progress_alive n c : request_progress n c → (n ≤ length (cl_calls c))%nat ∧
  (SetPassive ∈ drop n (cl_calls c) ∨ pc_set_passive (cl_commands c) = true ∨ pi_pending (cl_intent c) = true).
Proof. destruct c. cbn. naive_solver. Qed.

Lemma absorb_parts_progress n c c1 next :
  before_dispatch next →
  cl_commands c1 = cl_commands c → cl_intent c1 = cl_intent c → cl_calls c1 = cl_calls c →
  request_progress n c → request_progress n (absorb_and next c1).
Proof.
  intros Hn E1 E2 E3 [Hl H]%progress_alive. apply absorb_and_progress; [done|by rewrite E3|]. by rewrite E1, E2, E3.
Qed.

Lemma note_connected_parts c : request_parts (note_connected c) = request_parts c.
Proof.
  unfold note_connected. destruct (emit_eq c (tracker_connected (cl_events c))) as [l ->]. by destruct c.
Qed.

Lemma accept_baseline_parts c e :
  is_passive (vcs_snapshot e) = false →
  ∃ c1, accept_baseline c e = absorb_and (PhDispatch true) c1 ∧ request_parts c1 = request_parts c.
Proof.
  intros Hp. unfold accept_baseline. eexists. split; [reflexivity|].
  set (c1 := note_connected c <| cl_gate := None |> <| cl_reconcile_now := false |>).
  destruct (apply_versioned_parts c1 e Hp) as [E _].
  assert (request_parts c1 = request_parts c) as E1
    by (rewrite <- (note_connected_parts c); unfold c1; by destruct (note_connected c)).
  destruct (set_authority_eq (apply_versioned c1 e).2 true) as [k ->].
  rewrite <- E1, <- E. by destruct (apply_versioned c1 e).2.
Qed.

Lemma accept_baseline_progress n c e :
  is_passive (vcs_snapshot e) = false → request_progress n c → request_progress n (accept_baseline c e).
Proof.
  intros Hp Hc. destruct (accept_baseline_parts c e Hp) as (c1 & -> & E). unfold request_parts in E.
  destruct c1. eapply absorb_parts_progress; [done| | | |exact Hc]; cbn in *; congruence.
Qed.

Lemma handle_signal_parts c s :
  is_some_and (λ e, is_passive (vcs_snapshot e)) s = false →
  request_parts (handle_signal c s) = request_parts c ∧ cl_phase (handle_signal c s) = cl_phase c.
Proof.
  intros Hp. unfold handle_signal. destruct s as [e|].
  - destruct (apply_versioned_parts c e Hp) as (<- & <- & _). destruct (apply_versioned c e) as [h c1].
    case_bool_decide; by destruct c1.
  - cbn. case_bool_decide; by destruct c.
Qed.

Lemma handle_signal_progress n c s :
  is_some_and (λ e, is_passive (vcs_snapshot e)) s = false →
  request_progress n c → request_progress n (handle_signal c s).
Proof. intros Hp. destruct (handle_signal_parts c s Hp) as [E1 E2]. apply progress_parts; by rewrite ?E2. Qed.

Lemma handle_reconciliation_parts c e :
  is_passive (vcs_snapshot e) = false →
  (∃ c1 err, handle_reconciliation show_failure c e = end_cycle c1 err ∧ request_parts c1 = request_parts c) ∨
  request_parts (handle_reconciliation show_failure c e) = request_parts c.
Proof.
  intros Hp. unfold handle_reconciliation.
  destruct (apply_versioned_parts c e Hp) as (E & _ & _). destruct (apply_versioned c e) as [h c1]. cbn in E.
  case_bool_decide; [left; eauto|right]. rewrite <- E. by destruct c1.
Qed.

Lemma handle_reconciliation_progress n c e :
  is_passive (vcs_snapshot e) = false → cl_phase c = PhReconciling →
  request_progress n c → request_progress n (handle_reconciliation show_failure c e).
Proof.
  intros Hp Eph Hc. destruct (handle_reconciliation_parts c e Hp) as [(c1 & err & -> & E)|E].
  - by eapply end_cycle_progress.
  - eapply progress_parts; [done|by rewrite Eph|exact Hc].
Qed.

Lemma legacy_reply_parts c call r :
  is_some_and is_passive r = false →
  request_parts (legacy_reply c call r) = request_parts c.
Proof.
  intros Hp. unfold legacy_reply, record_response. rewrite Hp. destruct (publish_json_eq c r) as (m & k & ->).
  case_bool_decide; destruct (isSome r); by destruct c.
Qed.

Lemma legacy_poll_parts c r :
  is_some_and is_passive r = false → request_parts (legacy_poll c r) = request_parts c.
Proof.
  intros Hp. unfold legacy_poll, record_response. rewrite Hp. destruct (publish_json_eq c r) as (m & k & ->).
  destruct (isSome r); [|by destruct c].
  match goal with |- context [set_authority ?x true] => destruct (set_authority_eq x true) as [? ->] end. by destruct c.
Qed.

Lemma stopped_progress n c :
  request_progress n c →
  request_progress n (set_authority c false <| cl_phase := PhStopped |>).
Proof.
  intros Hc. eapply progress_parts; [| |exact Hc]; destruct (set_authority_eq c false) as [? ->]; by destruct c.
Qed.

Lemma legacy_connected_progress n c :
  request_progress n c → request_progress n (absorb_and (PhLegacyDispatch true) (note_connected c)).
Proof.
  intros Hc. pose proof (note_connected_parts c) as E. unfold request_parts in E.
  destruct (note_connected c). eapply absorb_parts_progress; [done| | | |exact Hc]; cbn in *; congruence.
Qed.

Lemma worker_input_progress n c i c' :
  delivers_passive i = false → request_progress n c →
  worker_input show_failure c i = Some c' → request_progress n c'.
Proof.
  intros Hd Hc H. unfold worker_input in H.
  destruct (cl_phase c) as [|first|call| | |first|call| | |d|] eqn:Ep; destruct i; cbn in Hd;
    repeat (case_match; try done); simplify_eq;
    try (by eapply end_cycle_progress); try (by apply accept_baseline_progress);
    try (by apply handle_signal_progress); try (by apply handle_reconciliation_progress);
    try (apply dispatch_progress; [rewrite Ep; tauto|done]);
    try (eapply progress_parts; [|by rewrite Ep|exact Hc]; destruct c; done).
  all: try (eapply absorb_parts_progress; [done| | | |exact Hc]; destruct c; done).
  all: try (by apply stopped_progress). all: try (by apply legacy_connected_progress).
  - destruct first; apply dispatch_progress; rewrite ?Ep; auto.
  - eapply progress_parts; [|by rewrite Ep|exact Hc].
    rewrite <- (legacy_reply_parts c call (Some c0)) by done. by destruct (legacy_reply _ _ _).
  - eapply progress_parts; [|by rewrite Ep|exact Hc].
    rewrite <- (legacy_reply_parts c call None) by done. by destruct (legacy_reply _ _ _).
  - eapply progress_parts; [by apply legacy_poll_parts|by rewrite Ep|exact Hc].
Qed.

Lemma client_step_progress n c i c' :
  delivers_passive i = false → request_progress n c → client_step show_failure c i = Some c' → request_progress n c'.
Proof.
  intros Hd Hc H. unfold client_step in H. destruct i; try (by eapply worker_input_progress).
  - case_match; [|done]. injection H as <-. destruct c. cbn in *. unfold commands_push.
    destruct Hc as [Hn [H | [[H1 H2] | H]]]; (split; [done|]); auto.
    right; left. case_bool_decide; cbn; auto.
  - injection H as <-. unfold ui_take. destruct (take_latest _). eapply progress_parts; [| |exact Hc]; by destruct c.
  - injection H as <-. eapply progress_parts; [| |exact Hc]; by destruct c.
  - injection H as <-. eapply progress_parts; [| |exact Hc]; by destruct c.
  - injection H as <-. destruct c. cbn in *. naive_solver.
Qed.

(** C15 A request for passive mode reaches Core: whatever happens after the
    interface asks - or after a connection is lost with the request still
    pending - until Core reports passive mode, the next time the worker has
    nothing to do on a connection it has made the call. *)
Theorem passive_request_reaches_core c inputs c'
    (Hstart : (∃ c0, client_step show_failure c0 (UiSend SetPassive) = Some c) ∨
              (cl_phase c = PhConnect ∧ pi_pending (cl_intent c) = true))
    (Hrun : client_run show_failure c inputs = Some c')
    (Hinputs : Forall (λ i, delivers_passive i = false) inputs)
    (Hrest : (cl_phase c' = PhLoop ∨ cl_phase c' = PhLegacyWait) ∧ cl_permit c' = false) :
  SetPassive ∈ drop (length (cl_calls c)) (cl_calls c').
Proof.
  assert (request_progress (length (cl_calls c)) c) as Hc.
  { destruct Hstart as [(c0 & H)|[Ep Hp]].
    - unfold client_step in H. case_match; [|done]. injection H as <-. destruct c0; cbn in *. split; [done|]. auto.
    - destruct c; cbn in *. subst. split; [done|]. right; right. by split. }
  revert Hc Hrun. generalize (length (cl_calls c)) as n. intros n. clear Hstart. revert c.
  induction Hinputs as [|i inputs Hi _ IH]; intros c Hc H; cbn in H.
  - injection H as <-. destruct c as [? ? permit]. cbn in *. destruct Hrest as [Hph ->].
    destruct Hc as [_ [? | [[_ ?] | [_ Hb]]]]; [done|done|]. by destruct Hph as [-> | ->].
  - destruct (client_step show_failure c i) as [c1|] eqn:E; cbn in H; [|done].
    apply (IH c1); [|done]. by eapply client_step_progress.
Qed.

Lemma wants_parts c c' : request_parts c' = request_parts c → wants_passive c' = wants_passive c.
Proof. unfold wants_passive, request_parts. intros [= -> _ -> _]. done. Qed.

Lemma end_cycle_wants c e : wants_passive (end_cycle c e) = wants_passive c.
Proof. apply wants_parts, end_cycle_parts. Qed.

Lemma absorb_and_wants next c : wants_passive (absorb_and next c) = wants_passive c.
Proof.
  rewrite absorb_and_eq. destruct (cl_open c); rewrite ?end_cycle_wants; destruct c; unfold wants_passive; cbn; apply orb_comm.
Qed.

Lemma accept_baseline_wants c e :
  is_passive (vcs_snapshot e) = false → wants_passive (accept_baseline c e) = wants_passive c.
Proof.
  intros Hp. destruct (accept_baseline_parts c e Hp) as (c1 & -> & E). rewrite absorb_and_wants. by apply wants_parts.
Qed.
Lemma handle_reconciliation_wants c e :
  is_passive (vcs_snapshot e) = false → wants_passive (handle_reconciliation show_failure c e) = wants_passive c.
Proof.
  intros Hp. destruct (handle_reconciliation_parts c e Hp) as [(c1 & err & -> & E)|E]; rewrite ?end_cycle_wants; by apply wants_parts.
Qed.
Lemma dispatch_wants c first call after : wants_passive (dispatch c first call after) = wants_passive c.
Proof. destruct (dispatch_eq c first call after) as (? & ? & ? & -> & _). by destruct c. Qed.
Lemma phase_wants c p : wants_passive (c <| cl_phase := p |>) = wants_passive c.
Proof. by destruct c. Qed.
Lemma legacy_reply_wants c call r :
  is_some_and is_passive r = false → wants_passive (legacy_reply c call r) = wants_passive c.
Proof. intros Hp. by apply wants_parts, legacy_reply_parts. Qed.

Lemma worker_input_wants c i c' :
  delivers_passive i = false → worker_input show_failure c i = Some c' → wants_passive c' = wants_passive c.
Proof.
  intros Hd H. unfold worker_input in H.
  destruct (cl_phase c) as [|first|call| | |first|call| | |d|] eqn:Ep; destruct i; cbn in Hd;
    repeat (case_match; try done); simplify_eq;
    rewrite ?phase_wants, ?end_cycle_wants, ?absorb_and_wants, ?dispatch_wants, ?legacy_reply_wants by done;
    try (by destruct c); try (by apply accept_baseline_wants); try (by apply handle_reconciliation_wants);
    try (apply wants_parts, note_connected_parts); try (by apply wants_parts, handle_signal_parts);
    try (by apply wants_parts, legacy_poll_parts);
    try (destruct (set_authority_eq c false) as [? ->]; by destruct c).
Qed.

(** A request for passive mode is never dropped: in any state and whatever
    happens - calls that fail, connections lost, Cores replaced - a request
    made and not yet fulfilled stays, until Core reports passive mode. *)
Theorem passive_request_kept c i c'
    (Hwants : wants_passive c = true) (Hstep : client_step show_failure c i = Some c') :
  wants_passive c' = true ∨ delivers_passive i = true.
Proof.
  destruct (delivers_passive i) eqn:Hd; [by right|left]. unfold client_step in Hstep.
  destruct i; try (erewrite worker_input_wants; [exact Hwants|exact Hd|exact Hstep]).
  - case_match; [|done]. injection Hstep as <-. unfold ui_send, wants_passive, commands_push in *.
    destruct (bool_decide _); by destruct c.
  - injection Hstep as <-. unfold ui_take. destruct (take_latest _). by destruct c.
  - injection Hstep as <-. by destruct c.
  - injection Hstep as <-. by destruct c.
  - injection Hstep as <-. by destruct c.
Qed.
End client_theorems.

(** * The snapshot mailbox under interleaving *)

(** [publish] and [take_latest] run on two threads; each is two atomic steps,
    and between them the other thread may run. *)
Inductive MailboxStep := MbStore (update : SnapshotUpdate) | MbNotify | MbToken | MbSlot.

Record MailboxThreads := mkThreads { mt_mailbox : Mailbox; mt_publishing : bool; mt_taking : bool }.

(** One step, and what it hands to the interface. *)
Definition mailbox_step (s : MailboxThreads) (step : MailboxStep) : option (option SnapshotUpdate * MailboxThreads) :=
  match step with
  | MbStore update =>
      if mt_publishing s then None
      else Some (None, mkThreads (publish_store (mt_mailbox s) update) true (mt_taking s))
  | MbNotify =>
      if mt_publishing s then Some (None, mkThreads (snd (publish_notify (mt_mailbox s))) false (mt_taking s))
      else None
  | MbToken =>
      if mt_taking s then None
      else match take_token (mt_mailbox s) with
           | Some m => Some (None, mkThreads m (mt_publishing s) true)
           | None => Some (None, s)
           end
  | MbSlot =>
      if mt_taking s then
        let '(update, m) := take_slot (mt_mailbox s) in Some (update, mkThreads m (mt_publishing s) false)
      else None
  end.

Fixpoint mailbox_run (s : MailboxThreads) (steps : list MailboxStep) : option (list SnapshotUpdate * MailboxThreads) :=
  match steps with
  | [] => Some ([], s)
  | step :: steps =>
      '(out, s) ← mailbox_step s step;
      '(taken, s) ← mailbox_run s steps;
      Some (option_list out ++ taken, s)
  end.

Definition published (steps : list MailboxStep) : list SnapshotUpdate :=
  omap (λ s, match s with MbStore u => Some u | _ => None end) steps.

(** What a batch of updates is shown as: the last snapshot, with passive mode
    confirmed when any of them confirms it. *)
Definition merged (batch : list SnapshotUpdate) : option SnapshotUpdate :=
  (λ u, u <| su_passive_confirmed := existsb su_passive_confirmed batch |>) <$> last batch.

Record mailbox_inv (s : MailboxThreads) (pending : list SnapshotUpdate) : Prop := {
  mi_slot : mb_slot (mt_mailbox s) = merged pending;
  mi_receiver : mb_receiver (mt_mailbox s) = true;
  mi_wake : pending = [] ∨ mb_ready (mt_mailbox s) = true ∨ mt_publishing s = true ∨ mt_taking s = true
}.

Lemma merged_snoc batch u :
  merged (batch ++ [u]) =
    Some (match merged batch with
          | Some previous => u <| su_passive_confirmed ::= λ p, p || su_passive_confirmed previous |>
          | None => u
          end).
Proof.
  unfold merged. rewrite last_snoc, existsb_app. cbn. f_equal. destruct (last batch) as [v|] eqn:E; cbn.
  - destruct u; cbn. f_equal. rewrite orb_false_r. apply orb_comm.
  - apply last_None in E as ->. destruct u; cbn. by rewrite orb_false_r.
Qed.

Lemma merged_None batch : merged batch = None ↔ batch = [].
Proof. unfold merged. by rewrite fmap_None, last_None. Qed.

Lemma mailbox_store_inv m taking pending u :
  mb_slot m = merged pending → mb_receiver m = true →
  mailbox_inv (mkThreads (publish_store m u) true taking) (pending ++ [u]).
Proof.
  intros Hs Hr. split; [|by destruct m|by right; right; left]. rewrite merged_snoc, <- Hs. by destruct m.
Qed.

Lemma mailbox_taken_inv m publishing :
  mb_receiver m = true → mailbox_inv (mkThreads (snd (take_slot m)) publishing false) [].
Proof. intros Hr. split; [by destruct m|by destruct m|by left]. Qed.

Lemma mailbox_run_batches steps s pending taken s' :
  mailbox_inv s pending → mailbox_run s steps = Some (taken, s') →
  ∃ batches pending',
    pending ++ published steps = concat batches ++ pending' ∧ Some <$> taken = merged <$> batches ∧
    mailbox_inv s' pending'.
Proof.
  revert s pending taken. induction steps as [|step steps IH]; intros s pending taken Hi H; cbn in H.
  { injection H as <- <-. exists [], pending. split_and!; [by rewrite app_nil_r|done|done]. }
  apply bind_Some in H as ([out s1] & H1 & H). apply bind_Some in H as ([taken1 s2] & H2 & [= <- <-]).
  destruct s as [m publishing taking]. destruct Hi as [Hs Hr Hw]; cbn in Hs, Hr, Hw.
  destruct step as [u| | |]; cbn in H1.
  - destruct publishing; [done|]. injection H1 as <- <-.
    destruct (IH _ _ taken1 (mailbox_store_inv m taking pending u Hs Hr) H2) as (bs & p & E & Et & Hi). exists bs, p. split_and!; [|done|done].
    rewrite <- E, <- app_assoc. done.
  - destruct publishing; [|done]. injection H1 as <- <-. unfold publish_notify in H2. rewrite Hr in H2.
    refine (IH _ pending taken1 _ H2). split; cbn; [done|done|auto].
  - destruct taking; [done|]. unfold take_token in H1. destruct (mb_ready m) eqn:Em; injection H1 as <- <-.
    + refine (IH _ pending taken1 _ H2). split; cbn; [done|done|auto].
    + refine (IH _ pending taken1 _ H2). split; cbn; [done|done|by rewrite Em].
  - destruct taking; [|done]. injection H1 as <- <-.
    destruct (IH _ _ taken1 (mailbox_taken_inv m publishing Hr) H2) as (bs & p & E & Et & Hi).
    rewrite Hs. destruct (merged pending) as [u|] eqn:Em.
    + exists (pending :: bs), p. cbn. rewrite <- app_assoc. cbn in E.
      split_and!; [by f_equal|by rewrite Em, Et|done].
    + apply merged_None in Em as ->. by exists bs, p.
Qed.

(** The interface misses nothing: however the two threads interleave, the
    published updates fall into batches, each handed over once as its newest
    snapshot with passive mode confirmed if any update of the batch confirmed
    it, and updates not yet handed over are announced or about to be. *)
Theorem snapshot_mailbox_delivers steps taken s
    (Hrun : mailbox_run (mkThreads mailbox_new false false) steps = Some (taken, s)) :
  ∃ batches pending,
    published steps = concat batches ++ pending ∧ Some <$> taken = merged <$> batches ∧
    mb_slot (mt_mailbox s) = merged pending ∧
    (pending = [] ∨ mb_ready (mt_mailbox s) = true ∨ mt_publishing s = true ∨ mt_taking s = true).
Proof.
  destruct (mailbox_run_batches steps _ _ taken s (mailbox_taken_inv mailbox_new false eq_refl) Hrun)
    as (bs & p & E & Et & [H1 H2 H3]).
  by exists bs, p.
Qed.

(** * Witnesses *)

Definition example_passive : SnapshotUpdate := update_confirmed core_snapshot_default true.
Definition example_later : SnapshotUpdate :=
  update_confirmed (core_snapshot_default <| cs_session_elapsed_ms := Some 5 |>) false.

Lemma snapshot_mailbox_delivers_witness :
  ∃ batches pending,
    [example_passive; example_later] = concat batches ++ pending ∧
    Some <$> [example_later <| su_passive_confirmed := true |>] = merged <$> batches.
Proof.
  destruct (snapshot_mailbox_delivers
    [MbStore example_passive; MbNotify; MbToken; MbStore example_later; MbSlot; MbNotify; MbToken; MbSlot]
    [example_later <| su_passive_confirmed := true |>] (mkThreads mailbox_new false false) eq_refl)
    as (bs & p & E & Et & _).
  by exists bs, p.
Defined.

Definition example_show (e : str) : list str := [e].
Definition example_interactive : VersionedCoreSnapshot :=
  mkVersionedCoreSnapshot 4 (core_snapshot_default <| cs_overlay_mode := Interactive |>).

Definition example_inputs : list ClientInput := [InBaseline (Ok example_interactive); InDispatch].
Definition example_connected : Client := default client_spawned (client_run example_show client_spawned example_inputs).

Lemma authority_only_while_connected_witness :
  client_run example_show client_spawned example_inputs = Some example_connected ∧
  cl_authority example_connected = true.
Proof.
  assert (client_run example_show client_spawned example_inputs = Some example_connected) as H
    by (vm_compute; reflexivity).
  split; [exact H|].
  refine (proj1 (proj2 (authority_only_while_connected example_show example_inputs example_connected H) _)).
  vm_compute. reflexivity.
Defined.

Definition example_asked : Client := ui_send client_spawned SetPassive.
Definition example_request : list ClientInput :=
  [InFailed [lit "down"]; InSlept; InBaseline (Ok example_interactive); InDispatch; InReply (Ok None);
   InDispatch; InNotified; InDispatch; InReply (Ok None); InDispatch].
Definition example_requested : Client := default client_spawned (client_run example_show example_asked example_request).

Lemma passive_request_reaches_core_witness :
  client_run example_show example_asked example_request = Some example_requested ∧
  SetPassive ∈ drop (length (cl_calls example_asked)) (cl_calls example_requested).
Proof.
  assert (client_run example_show example_asked example_request = Some example_requested) as H
    by (vm_compute; reflexivity).
  split; [exact H|].
  refine (passive_request_reaches_core example_show _ example_request _
    (or_introl (ex_intro _ client_spawned eq_refl)) H _ _).
  - repeat constructor.
  - split; [left|]; vm_compute; reflexivity.
Defined.

Lemma passive_request_kept_witness :
  wants_passive (end_cycle example_asked (Some [lit "down"])) = true ∨ delivers_passive (InFailed [lit "down"]) = true.
Proof.
  refine (passive_request_kept example_show example_asked (InFailed [lit "down"]) _ _ _); reflexivity.
Defined.
