(* ===== verification/OverlayRuntime.v ===== *)
(** The overlay's runtime helpers (crates/overcrow-overlay/src): the channel
    that hands over the latest value ([runtime/latest.rs]), the readiness
    bits ([runtime/readiness.rs]), the repaint scheduler
    ([runtime/scheduler.rs]), the log of a provider's health
    ([runtime/widget_diagnostics.rs]) and the clock of a session
    ([session_clock.rs]). *)

From S2P Require Import Prelude Text Timing.

(** * The latest value

    Publishers share a locked value with the receiver and wake it through a
    channel of one place. *)

Record LatestState (T : Type) := mkLatestState {
  la_current : T;
  la_revision : Z;
  la_pending : bool;
  la_token : bool;      (* a wake-up is in the channel *)
  la_notifying : nat;   (* publishers between the lock and the wake-up *)
  la_taking : bool      (* the receiver between the wake-up and the lock *)
}.
Arguments mkLatestState {T}. Arguments la_current {T}. Arguments la_revision {T}. Arguments la_pending {T}.
Arguments la_token {T}. Arguments la_notifying {T}. Arguments la_taking {T}.

Section latest.
Context {T : Type}.

#[export] Instance latest_state_eta : Eta (LatestState T) := λ s,
  mkLatestState (la_current s) (la_revision s) (la_pending s) (la_token s) (la_notifying s) (la_taking s).

Definition latest_channel (initial : T) : LatestState T := mkLatestState initial 0 false false 0 false.

(** The locked part of [publish] and [update], which panics - and leaves the
    state alone - when the revisions are exhausted. *)
Definition latest_store (value : T) (s : LatestState T) : LatestState T :=
  match checked_add u64_max (la_revision s) 1 with
  | None => s
  | Some revision =>
      s <| la_revision := revision |> <| la_current := value |> <| la_pending := true |> <| la_notifying ::= S |>
  end.

Definition latest_update (update : T → T) (s : LatestState T) : LatestState T := latest_store (update (la_current s)) s.

(** [notify_receiver]: a full channel is as good as a new token. *)
Definition notify_receiver (s : LatestState T) : option (LatestState T) :=
  match la_notifying s with
  | O => None
  | S n => Some (s <| la_token := true |> <| la_notifying := n |>)
  end.

(** [take_latest], which first takes the wake-up and then looks under the
    lock. *)
Definition latest_try_recv (s : LatestState T) : option (LatestState T) :=
  if la_token s && negb (la_taking s) then Some (s <| la_token := false |> <| la_taking := true |>) else None.

Definition latest_take (s : LatestState T) : option (option (Z * T) * LatestState T) :=
  if la_taking s then
    if la_pending s then
      Some (Some (la_revision s, la_current s), s <| la_pending := false |> <| la_taking := false |>)
    else Some (None, s <| la_taking := false |>)
  else None.

Inductive LatestStep := LatestPublish (value : T) | LatestUpdate (update : T → T) | LatestNotify | LatestTryRecv | LatestTake.

Definition latest_step (s : LatestState T) (step : LatestStep) : option (option (Z * T) * LatestState T) :=
  match step with
  | LatestPublish value => Some (None, latest_store value s)
  | LatestUpdate update => Some (None, latest_update update s)
  | LatestNotify => (λ s, (None, s)) <$> notify_receiver s
  | LatestTryRecv => (λ s, (None, s)) <$> latest_try_recv s
  | LatestTake => latest_take s
  end.

(** A run, with the values published and those taken, in order. *)
Definition stored_by (s : LatestState T) (step : LatestStep) : list T :=
  match step with
  | LatestPublish value => [value]
  | LatestUpdate update => [update (la_current s)]
  | _ => []
  end.

Fixpoint latest_run (s : LatestState T) (steps : list LatestStep) : option (list T * list (Z * T) * LatestState T) :=
  match steps with
  | [] => Some ([], [], s)
  | step :: steps =>
      '(taken, s') ← latest_step s step;
      '(stored, more, s'') ← latest_run s' steps;
      Some (stored_by s step ++ stored, option_list taken ++ more, s'')
  end.

(** What holds after [stored] was published and [taken] taken. *)
Record latest_inv (initial : T) (s : LatestState T) (stored : list T) (taken : list (Z * T)) : Prop := mkLatestInv {
  li_revision : la_revision s = Z.of_nat (length stored);
  li_current : last (initial :: stored) = Some (la_current s);
  li_taken : Forall (λ p, 0 < fst p ∧ stored !! Z.to_nat (fst p - 1) = Some (snd p)) taken;
  li_increasing : StronglySorted (λ p q, fst p < fst q) taken;
  li_pending : la_pending s = true → (la_token s = true ∨ la_notifying s ≠ 0%nat ∨ la_taking s = true) ∧
                 stored ≠ [] ∧ Forall (λ p, fst p < la_revision s) taken;
  li_settled : la_pending s = false →
    match last taken with Some p => p = (la_revision s, la_current s) | None => stored = [] end
}.

Lemma StronglySorted_snoc {A} (R : A → A → Prop) l x :
  StronglySorted R l → Forall (λ y, R y x) l → StronglySorted R (l ++ [x]).
Proof.
  intros Hl Hx. induction Hl as [|y l Hl IH Hy]; [repeat constructor|]. inversion Hx; subst. cbn. constructor; [auto|].
  apply Forall_app. split; [done|]. by constructor.
Qed.

Lemma sorted_below_last (taken : list (Z * T)) r v :
  StronglySorted (λ p q : Z * T, fst p < fst q) taken → last taken = Some (r, v) → Forall (λ p, fst p ≤ r) taken.
Proof.
  intros Hs [l ->]%last_Some. apply Forall_app. split; [|by repeat constructor].
  apply StronglySorted_app in Hs as (Hs & _ & _). apply Forall_forall. intros p Hp.
  specialize (Hs p (r, v) Hp ltac:(by left)). cbn in Hs. lia.
Qed.

Lemma latest_inv_store initial s stored taken value :
  latest_inv initial s stored taken → Z.of_nat (length (stored ++ [value])) ≤ u64_max →
  latest_inv initial (latest_store value s) (stored ++ [value]) taken.
Proof.
  intros [Hr Hc Ht Hi Hp Hs] Hmax. rewrite length_app in Hmax. cbn in Hmax. unfold latest_store, checked_add.
  destruct (Z.leb_spec (la_revision s + 1) u64_max); [|lia]. split; cbn.
  - rewrite length_app. cbn. lia.
  - by rewrite app_comm_cons, last_snoc.
  - eapply Forall_impl; [exact Ht|]. cbn. intros p [? Hl]. split; [done|]. by apply lookup_app_l_Some.
  - done.
  - intros _. split; [right; by left|]. split; [by destruct stored|]. destruct (la_pending s) eqn:Ep.
    + destruct (Hp eq_refl) as (_ & _ & Hf). eapply Forall_impl; [exact Hf|]. cbn. lia.
    + specialize (Hs eq_refl). destruct (last taken) as [[r v]|] eqn:El; [|by apply last_None in El as ->].
      injection Hs as -> ->. eapply Forall_impl; [by eapply sorted_below_last|]. cbn. lia.
  - done.
Qed.

Lemma latest_inv_step initial s stored taken step t s' :
  latest_inv initial s stored taken → latest_step s step = Some (t, s') →
  Z.of_nat (length (stored ++ stored_by s step)) ≤ u64_max →
  latest_inv initial s' (stored ++ stored_by s step) (taken ++ option_list t).
Proof.
  intros Hi Hstep Hmax. destruct step as [value|update| | |]; cbn [latest_step stored_by] in *.
  - injection Hstep as <- <-. rewrite app_nil_r. by apply latest_inv_store.
  - injection Hstep as <- <-. rewrite app_nil_r. by apply latest_inv_store.
  - rewrite app_nil_r in *. apply fmap_Some in Hstep as (s1 & Hn & [= -> ->]). cbn. rewrite app_nil_r.
    unfold notify_receiver in Hn. destruct Hi as [Hr Hc Ht Hs Hp Hl].
    destruct (la_notifying s) as [|n] eqn:En; [done|]. injection Hn as <-. split; cbn; try done.
    intros Hpend. destruct (Hp Hpend) as (_ & ? & ?). split_and!; [by left|done..].
  - rewrite app_nil_r in *. apply fmap_Some in Hstep as (s1 & Hn & [= -> ->]). cbn. rewrite app_nil_r.
    unfold latest_try_recv in Hn. destruct Hi as [Hr Hc Ht Hs Hp Hl].
    destruct (_ && _); [|done]. injection Hn as <-. split; cbn; try done.
    intros Hpend. destruct (Hp Hpend) as (_ & ? & ?). split_and!; [by right; right|done..].
  - rewrite app_nil_r in *. unfold latest_take in Hstep. destruct Hi as [Hr Hc Ht Hs Hp Hl].
    destruct (la_taking s); [|done]. destruct (la_pending s) eqn:Ep; injection Hstep as <- <-; cbn.
    + destruct (Hp eq_refl) as (_ & Hne & Hf). split; cbn; try done.
      * apply Forall_app. split; [done|]. apply Forall_singleton. cbn.
        destruct (exists_last Hne) as (l & x & ->). rewrite app_comm_cons, last_snoc in Hc. injection Hc as ->.
        rewrite length_app in Hr. cbn in Hr. split; [lia|].
        replace (Z.to_nat (la_revision s - 1)) with (length l) by lia. by apply list_lookup_middle.
      * by apply StronglySorted_snoc.
      * intros _. by rewrite last_snoc.
    + rewrite app_nil_r. split; cbn; by rewrite ?Ep.
Qed.

Lemma latest_run_inv initial s stored taken steps more_stored more_taken s' :
  latest_inv initial s stored taken → latest_run s steps = Some (more_stored, more_taken, s') →
  Z.of_nat (length (stored ++ more_stored)) ≤ u64_max →
  latest_inv initial s' (stored ++ more_stored) (taken ++ more_taken).
Proof.
  revert s stored taken more_stored more_taken.
  induction steps as [|step steps IH]; intros s stored taken ms mt Hi Hrun Hmax; cbn [latest_run] in Hrun.
  { injection Hrun as <- <- <-. by rewrite !app_nil_r. }
  destruct (latest_step s step) as [[t s1]|] eqn:E1; [|done]. cbn in Hrun.
  destruct (latest_run s1 steps) as [[[ms1 mt1] s2]|] eqn:E2; [|done]. cbn in Hrun. injection Hrun as <- <- <-.
  rewrite !app_assoc in *. eapply IH; [|done|done]. eapply latest_inv_step; [done..|].
  rewrite length_app in Hmax. lia.
Qed.

(** The receiver sees the latest value: however publishers and the receiver
    interleave, every value taken is one that was published, under its
    number, and never an older one than before; a value not yet taken is
    announced, or about to be looked at, so no wake-up is lost; and otherwise
    the last value taken is the last one published. *)
Theorem latest_channel_delivers initial steps stored taken s
    (Hrun : latest_run (latest_channel initial) steps = Some (stored, taken, s))
    (Hmax : Z.of_nat (length stored) ≤ u64_max) :
  Forall (λ p, 0 < fst p ∧ stored !! Z.to_nat (fst p - 1) = Some (snd p)) taken ∧
  StronglySorted (λ p q, fst p < fst q) taken ∧
  (la_pending s = true → la_token s = true ∨ la_notifying s ≠ 0%nat ∨ la_taking s = true) ∧
  (la_pending s = false →
     match last taken with Some p => p = (la_revision s, la_current s) ∧ last stored = Some (snd p) | None => stored = [] end).
Proof.
  assert (latest_inv initial (latest_channel initial) [] []) as Hnew by (split; cbn; first [done|constructor]).
  destruct (latest_run_inv _ _ _ _ _ _ _ _ Hnew Hrun Hmax) as [Hr Hc Ht Hs Hp Hl].
  cbn in *. split_and!; [done..|by intros H; apply Hp|]. intros H. specialize (Hl H).
  destruct (last taken) as [p|] eqn:El; [|done]. split; [done|]. subst p. cbn.
  destruct stored as [|x l]; [|done]. exfalso. apply last_Some in El as [l ->]. apply Forall_app in Ht as [_ Ht].
  inversion Ht as [|?? [Hpos _] _]; subst. cbn in Hpos. cbn in Hr. lia.
Qed.
End latest.

Lemma latest_channel_delivers_witness :
  let steps := [LatestPublish 1; LatestNotify; LatestTryRecv; LatestPublish 2; LatestTake; LatestUpdate (Z.add 5); LatestNotify] in
  ∃ s, latest_run (latest_channel 0) steps = Some ([1; 2; 7], [(2, 2)], s) ∧ la_token s = true ∧
    Forall (λ p, 0 < fst p ∧ [1; 2; 7] !! Z.to_nat (fst p - 1) = Some (snd p)) [(2, 2)].
Proof.
  intros steps. eexists. split; [vm_compute; reflexivity|]. split; [reflexivity|].
  eapply (latest_channel_delivers 0 steps); [vm_compute; reflexivity|vm_compute; discriminate].
Defined.

(** * Readiness *)

Definition READY_MEDIA : Z := Z.shiftl 1 0.
Definition READY_WORLDSTATE : Z := Z.shiftl 1 1.
Definition READY_MARKET : Z := Z.shiftl 1 2.

Inductive ReadyStep := MarkMedia | MarkWorldstate | MarkMarket | TakeReady.

(** One atomic operation: the bits after it, and what [take] returns. *)
Definition ready_step (bits : Z) (s : ReadyStep) : Z * option Z :=
  match s with
  | MarkMedia => (Z.lor bits READY_MEDIA, None)
  | MarkWorldstate => (Z.lor bits READY_WORLDSTATE, None)
  | MarkMarket => (Z.lor bits READY_MARKET, None)
  | TakeReady => (0, Some bits)
  end.

Definition ready_media (b : Z) : bool := negb (Z.land b READY_MEDIA =? 0).
Definition ready_worldstate (b : Z) : bool := negb (Z.land b READY_WORLDSTATE =? 0).
Definition ready_market (b : Z) : bool := negb (Z.land b READY_MARKET =? 0).

Fixpoint ready_run (bits : Z) (steps : list ReadyStep) : Z * list Z :=
  match steps with
  | [] => (bits, [])
  | s :: steps =>
      let '(bits, taken) := ready_step bits s in
      let '(bits, rest) := ready_run bits steps in
      (bits, option_list taken ++ rest)
  end.

#[export] Instance ReadyStep_eq_dec : EqDecision ReadyStep.
Proof. solve_decision. Defined.

(** The marks since the last take. *)
Definition marked (m : ReadyStep) (marks : list ReadyStep) : bool := bool_decide (m ∈ marks).

Definition mark_bit (m : ReadyStep) : Z :=
  match m with MarkMedia => 0 | MarkWorldstate => 1 | MarkMarket => 2 | TakeReady => 3 end.

Lemma land_bit x i : 0 ≤ i → negb (Z.land x (Z.shiftl 1 i) =? 0) = Z.testbit x i.
Proof.
  intros Hi. rewrite Z.shiftl_1_l. destruct (Z.testbit x i) eqn:E.
  - apply negb_true_iff, Z.eqb_neq. intros E0. apply (f_equal (λ y, Z.testbit y i)) in E0.
    by rewrite Z.land_spec, E, Z.pow2_bits_true, Z.bits_0 in E0 by done.
  - apply negb_false_iff, Z.eqb_eq. apply Z.bits_inj'. intros n Hn. rewrite Z.land_spec, Z.bits_0.
    destruct (decide (n = i)) as [->|]; [by rewrite E|]. rewrite Z.pow2_bits_false by done. apply andb_false_r.
Qed.

Lemma ready_run_bits bits m marks :
  TakeReady ∉ marks →
  snd (ready_run bits marks) = [] ∧
  (m ≠ TakeReady → Z.testbit (fst (ready_run bits marks)) (mark_bit m) = Z.testbit bits (mark_bit m) || marked m marks).
Proof.
  revert bits. induction marks as [|k marks IH]; intros bits Ht; cbn [ready_run].
  { split; [done|]. intros _. unfold marked. by rewrite bool_decide_eq_false_2, orb_false_r by apply not_elem_of_nil. }
  apply not_elem_of_cons in Ht as [Hk Ht].
  assert (marked m (k :: marks) = bool_decide (m = k) || marked m marks) as ->.
  { unfold marked. apply eq_true_iff_eq. rewrite orb_true_iff, !bool_decide_eq_true, elem_of_cons. done. }
  assert (∃ bits', ready_step bits k = (bits', None) ∧
    (m ≠ TakeReady → Z.testbit bits' (mark_bit m) = Z.testbit bits (mark_bit m) || bool_decide (m = k))) as (bits' & -> & Hb).
  { destruct k; [..|done]; (eexists; split; [reflexivity|]); intros Hm; rewrite Z.lor_spec; f_equal; by destruct m. }
  specialize (IH bits' Ht). destruct (ready_run bits' marks). cbn [fst snd] in *. destruct IH as [-> IH]. split; [done|].
  intros Hm. by rewrite IH, Hb, <- orb_assoc by done.
Qed.

Lemma ready_run_cons bits k l :
  ready_run bits (k :: l) =
    (fst (ready_run (fst (ready_step bits k)) l), option_list (snd (ready_step bits k)) ++ snd (ready_run (fst (ready_step bits k)) l)).
Proof. cbn [ready_run]. destruct (ready_step bits k) as [b t]. cbn. by destruct (ready_run b l). Qed.

Lemma ready_run_app bits a b :
  ready_run bits (a ++ b) =
    (fst (ready_run (fst (ready_run bits a)) b), snd (ready_run bits a) ++ snd (ready_run (fst (ready_run bits a)) b)).
Proof.
  revert bits. induction a as [|k a IH]; intros bits; [cbn; by destruct (ready_run bits b)|].
  rewrite <- app_comm_cons, !ready_run_cons, IH. cbn. by rewrite app_assoc.
Qed.

(** No mark is lost: a take finds a provider ready exactly when it was
    marked since the last take. *)
Theorem ready_take_finds_marks before marks :
  TakeReady ∉ marks →
  let taken := last (snd (ready_run 0 (before ++ TakeReady :: marks ++ [TakeReady]))) in
  ∃ bits, taken = Some bits ∧ ready_media bits = marked MarkMedia marks ∧
    ready_worldstate bits = marked MarkWorldstate marks ∧ ready_market bits = marked MarkMarket marks.
Proof.
  intros Ht. rewrite ready_run_app, ready_run_cons, ready_run_app, ready_run_cons. cbn [fst snd ready_run ready_step]. unfold option_list. cbn [option_rect].
  rewrite !app_assoc, !app_nil_r, last_snoc. eexists. split; [done|].
  unfold ready_media, ready_worldstate, ready_market, READY_MEDIA, READY_WORLDSTATE, READY_MARKET. rewrite !land_bit by done.
  split_and!.
  - by etrans; [apply (proj2 (ready_run_bits 0 MarkMedia marks Ht))|].
  - by etrans; [apply (proj2 (ready_run_bits 0 MarkWorldstate marks Ht))|].
  - by etrans; [apply (proj2 (ready_run_bits 0 MarkMarket marks Ht))|].
Qed.

(** * The scheduler *)

Definition WARFRAME_TICK_INTERVAL : duration := from_secs 1.

Record MarketDeadline := mkMarketDeadline { md_revision : Z; md_wall_secs : Z; md_monotonic : instant; md_fired : bool }.

Record OverlayScheduler := mkOverlayScheduler {
  os_warframe_tick_at : option instant;
  os_market_refresh : option MarketDeadline;
  os_copy_flash_at : option instant;
  os_last_observed_wall_secs : option Z
}.
#[export] Instance OverlayScheduler_eta : Eta OverlayScheduler := λ s,
  mkOverlayScheduler (os_warframe_tick_at s) (os_market_refresh s) (os_copy_flash_at s) (os_last_observed_wall_secs s).

Definition overlay_scheduler_default : OverlayScheduler := mkOverlayScheduler None None None None.

Section scheduler.
(** The last instant [checked_add] can represent. *)
Variable instant_max : instant.

Definition take_warframe_tick (enabled : bool) (now : instant) (s : OverlayScheduler) : bool * OverlayScheduler :=
  if negb enabled then (false, s <| os_warframe_tick_at := None |>)
  else
    let due := is_none_or (λ deadline, deadline <=? now) (os_warframe_tick_at s) in
    (due, if due then s <| os_warframe_tick_at := checked_add instant_max now WARFRAME_TICK_INTERVAL |> else s).

Definition take_market_refresh (enabled has_selection : bool) (revision refresh_at_wall_secs : Z) (now : instant)
    (wall_secs : Z) (s : OverlayScheduler) : bool * OverlayScheduler :=
  let s := s <| os_last_observed_wall_secs := Some wall_secs |> in
  if negb enabled || negb has_selection || (refresh_at_wall_secs =? u64_max)
  then (false, s <| os_market_refresh := None |>)
  else
    let changed := is_none_or (λ d, negb (md_revision d =? revision) || negb (md_wall_secs d =? refresh_at_wall_secs))
                     (os_market_refresh s) in
    let fresh :=
      mkMarketDeadline revision refresh_at_wall_secs
        (default now (checked_add instant_max now (from_secs (saturating_sub refresh_at_wall_secs wall_secs)))) false in
    let deadline := if changed then fresh else default fresh (os_market_refresh s) in
    if md_fired deadline || ((now <? md_monotonic deadline) && (wall_secs <? md_wall_secs deadline))
    then (false, s <| os_market_refresh := Some deadline |>)
    else (true, s <| os_market_refresh := Some (mkMarketDeadline (md_revision deadline) (md_wall_secs deadline)
                                                  (md_monotonic deadline) true) |>).

Definition set_copy_flash_deadline (deadline : option instant) (s : OverlayScheduler) : OverlayScheduler :=
  s <| os_copy_flash_at := deadline |>.

Definition take_copy_flash_expired (now : instant) (s : OverlayScheduler) : bool * OverlayScheduler :=
  if is_none_or (λ deadline, now <? deadline) (os_copy_flash_at s) then (false, s)
  else (true, s <| os_copy_flash_at := None |>).

(** [Iterator::min]. *)
Definition min_instant (l : list instant) : option instant :=
  match l with [] => None | x :: l => Some (foldl Z.min x l) end.

Definition next_repaint_after (s : OverlayScheduler) (now : instant) : option duration :=
  let market := md_monotonic <$> opt_filter (λ d, negb (md_fired d)) (os_market_refresh s) in
  (λ deadline, saturating_duration_since deadline now)
    <$> min_instant (option_list (os_warframe_tick_at s) ++ option_list market ++ option_list (os_copy_flash_at s)).

(** ** The frame after a repaint has work to do *)

Lemma min_instant_spec l m :
  min_instant l = Some m → m ∈ l ∧ Forall (λ x, m ≤ x) l.
Proof.
  destruct l as [|x l]; [done|]. cbn. intros [= <-].
  enough (∀ x, foldl Z.min x l ∈ x :: l ∧ Forall (λ y, foldl Z.min x l ≤ y) (x :: l)) as H by apply H.
  clear x. induction l as [|y l IH]; intros x; cbn.
  { split; [by left|]. by repeat constructor. }
  destruct (IH (Z.min x y)) as [Hin Hle]. apply Forall_cons in Hle as [Hle1 Hle2]. split.
  - rewrite !elem_of_cons in *. destruct (Z.min_spec x y) as [[_ E]|[_ E]]; rewrite E in Hin at 2; naive_solver.
  - constructor; [|constructor]; [lia|lia|done].
Qed.

Lemma min_instant_None l : min_instant l = None ↔ l = [].
Proof. by destruct l. Qed.

(** The market deadline the scheduler keeps, unless it has fired. *)
Definition market_waiting (s : OverlayScheduler) (revision refresh_at : Z) : Prop :=
  ∃ m, os_market_refresh s = Some (mkMarketDeadline revision refresh_at m false).

(** What is due at a time, of the work the scheduler waits for. *)
Definition tick_due (s : OverlayScheduler) (now : instant) : bool :=
  is_some_and (λ d, d <=? now) (os_warframe_tick_at s).
Definition market_due (s : OverlayScheduler) (now : instant) : bool :=
  is_some_and (λ d, negb (md_fired d) && (md_monotonic d <=? now)) (os_market_refresh s).
Definition flash_due (s : OverlayScheduler) (now : instant) : bool :=
  is_some_and (λ d, d <=? now) (os_copy_flash_at s).

Lemma next_repaint_due s now t :
  now ≤ t →
  match next_repaint_after s now with
  | Some d => (tick_due s t || market_due s t || flash_due s t) = (now + d <=? t)
  | None => (tick_due s t || market_due s t || flash_due s t) = false
  end.
Proof.
  intros Ht. unfold next_repaint_after. set (l := option_list _ ++ _ ++ _).
  assert ((tick_due s t || market_due s t || flash_due s t) = existsb (λ x, x <=? t) l) as ->.
  { subst l. rewrite !existsb_app. unfold tick_due, market_due, flash_due.
    destruct (os_warframe_tick_at s), (os_market_refresh s) as [[r w m [|]]|], (os_copy_flash_at s); cbn;
      rewrite ?orb_false_r, ?orb_assoc; done. }
  destruct (min_instant l) as [m|] eqn:E; cbn.
  - apply min_instant_spec in E as [Hin Hle]. rewrite Forall_forall in Hle. apply eq_true_iff_eq.
    rewrite existsb_exists. unfold saturating_duration_since, saturating_sub. split.
    + intros (x & Hx%list_elem_of_In & Hxt%Z.leb_le). specialize (Hle x Hx). apply Z.leb_le. lia.
    + intros Hmt%Z.leb_le. exists m. split; [by apply list_elem_of_In|]. apply Z.leb_le. lia.
  - apply min_instant_None in E. by rewrite E.
Qed.

Lemma take_warframe_tick_due now s :
  is_Some (os_warframe_tick_at s) → fst (take_warframe_tick true now s) = tick_due s now.
Proof. unfold take_warframe_tick, tick_due. intros [d ->]. done. Qed.

Lemma take_copy_flash_due now s : fst (take_copy_flash_expired now s) = flash_due s now.
Proof.
  unfold take_copy_flash_expired, flash_due. destruct (os_copy_flash_at s) as [d|]; cbn; [|done].
  destruct (Z.ltb_spec now d), (Z.leb_spec d now); try done; lia.
Qed.

Lemma take_market_due now wall s revision refresh_at :
  market_waiting s revision refresh_at → refresh_at ≠ u64_max → wall < refresh_at →
  fst (take_market_refresh true true revision refresh_at now wall s) = market_due s now.
Proof.
  intros [m E] Hne Hwall. unfold take_market_refresh, market_due. cbn. rewrite E. cbn.
  destruct (Z.eqb_spec refresh_at u64_max); [done|]. rewrite !Z.eqb_refl. cbn.
  destruct (Z.ltb_spec wall refresh_at); [|lia]. rewrite andb_true_r.
  destruct (Z.ltb_spec now m), (Z.leb_spec m now); try done; lia.
Qed.

(** The overlay may sleep until the repaint the scheduler asks for: until
    then no frame would find work to do, and the frame at that time does -
    while the features stay enabled, and the market's refresh is reached by
    the wall clock no sooner than by the monotonic one. *)
Theorem repaint_when_work_is_due s now t wall revision refresh_at
    (Htick : is_Some (os_warframe_tick_at s)) (Hmarket : market_waiting s revision refresh_at)
    (Hrefresh : refresh_at ≠ u64_max) (Hwall : wall < refresh_at) (Ht : now ≤ t) :
  let frame :=
    fst (take_warframe_tick true t s) || fst (take_market_refresh true true revision refresh_at t wall s)
    || fst (take_copy_flash_expired t s) in
  ∃ d, next_repaint_after s now = Some d ∧ frame = (now + d <=? t).
Proof.
  cbn zeta. rewrite take_warframe_tick_due, (take_market_due t wall), take_copy_flash_due by done.
  pose proof (next_repaint_due s now t Ht) as H. destruct (next_repaint_after s now) as [d|] eqn:E; [by exists d|].
  exfalso. unfold next_repaint_after in E. destruct Htick as [d Hd]. rewrite Hd in E. done.
Qed.

(** The market is refreshed once for each deadline: after it fired, it does
    not fire again for the same snapshot and time. *)
Lemma market_fires_once revision refresh_at now wall s now' wall' enabled selected :
  fst (take_market_refresh enabled selected revision refresh_at now wall s) = true →
  fst (take_market_refresh true true revision refresh_at now' wall'
         (snd (take_market_refresh enabled selected revision refresh_at now wall s))) = false.
Proof.
  unfold take_market_refresh at 1 3. set (fresh := mkMarketDeadline _ _ _ _). cbn zeta.
  destruct (negb enabled || negb selected || (refresh_at =? u64_max)) eqn:Eoff; [done|].
  cbn [os_market_refresh set_field]. set (changed := is_none_or _ _). set (deadline := if changed then _ else _).
  assert (md_revision deadline = revision ∧ md_wall_secs deadline = refresh_at) as [Er Ew].
  { subst deadline changed. cbn. destruct (os_market_refresh s) as [d|]; cbn; [|done].
    destruct (Z.eqb_spec (md_revision d) revision), (Z.eqb_spec (md_wall_secs d) refresh_at); cbn; done. }
  destruct (md_fired deadline || _) eqn:Ef; [done|]. intros _. cbn [snd].
  unfold take_market_refresh. cbn. apply orb_false_iff in Eoff as [_ Eoff]. rewrite Eoff, Er, Ew, !Z.eqb_refl. done.
Qed.
End scheduler.

Lemma repaint_when_work_is_due_witness :
  let s := mkOverlayScheduler (Some 1000) (Some (mkMarketDeadline 7 1005 500 false)) None None in
  ∃ d, next_repaint_after s 200 = Some d ∧
    (fst (take_warframe_tick 9999 true 500 s) || fst (take_market_refresh 9999 true true 7 1005 500 1000 s)
     || fst (take_copy_flash_expired 500 s)) = (200 + d <=? 500).
Proof.
  intros s. apply (repaint_when_work_is_due 9999 s 200 500 1000 7 1005); [by eexists|by eexists|done|lia|lia].
Defined.

(** * Provider health *)

Inductive Provider := ProviderMpris | ProviderLocalNotes | ProviderWarframeWorldstate | ProviderWarframeMarket
                    | ProviderTwitch | ProviderDiscord.

Definition provider_fields (p : Provider) : str :=
  match p with
  | ProviderMpris => lit "widget=media provider=mpris"
  | ProviderLocalNotes => lit "widget=notes provider=local_notes"
  | ProviderWarframeWorldstate =>
      lit "provider=warframe_worldstate affected_widgets=warframe_status,warframe_fissures,warframe_sortie,warframe_invasions"
  | ProviderWarframeMarket => lit "widget=warframe_market provider=warframe_market"
  | ProviderTwitch => lit "widget=twitch_chat provider=twitch"
  | ProviderDiscord => lit "widget=discord_voice provider=discord"
  end.

Inductive FailureCategory :=
  FcStartup | FcConnection | FcDiscovery | FcCommand | FcTimeout | FcTransport | FcHttp | FcParse | FcValidation | FcRouting
| FcIdentity | FcContent | FcResponse | FcFilesystem | FcDurability.

#[export] Instance FailureCategory_eq_dec : EqDecision FailureCategory.
Proof. solve_decision. Defined.

Definition failure_category_name (c : FailureCategory) : str :=
  match c with
  | FcStartup => lit "startup" | FcConnection => lit "connection" | FcDiscovery => lit "discovery"
  | FcCommand => lit "command" | FcTimeout => lit "timeout" | FcTransport => lit "transport" | FcHttp => lit "http"
  | FcParse => lit "parse" | FcValidation => lit "validation" | FcRouting => lit "routing" | FcIdentity => lit "identity"
  | FcContent => lit "content" | FcResponse => lit "response" | FcFilesystem => lit "filesystem"
  | FcDurability => lit "durability"
  end.

Inductive Transition := TransFailed (c : FailureCategory) | TransRecovered.

(** [HealthTracker]: the failure reported last. *)
Definition health_failed (failure : option FailureCategory) (category : FailureCategory) :
    option FailureCategory * option Transition :=
  if bool_decide (failure = Some category) then (failure, None) else (Some category, Some (TransFailed category)).

Definition health_recovered (failure : option FailureCategory) : option FailureCategory * option Transition :=
  (None, (λ _, TransRecovered) <$> failure).

Inductive HealthCall := HealthFailed (c : FailureCategory) | HealthRecovered.

Definition health_step (failure : option FailureCategory) (call : HealthCall) : option FailureCategory * option Transition :=
  match call with HealthFailed c => health_failed failure c | HealthRecovered => health_recovered failure end.

(** [ProviderDiagnostics]: what is logged for a call, if anything: whether
    as a warning, the event and its details. *)
Definition diagnostics_line (p : Provider) (t : Transition) : bool * str * str :=
  match t with
  | TransFailed c => (true, lit "widget_provider_failed", provider_fields p ++ lit " category=" ++ failure_category_name c)
  | TransRecovered => (false, lit "widget_provider_recovered", provider_fields p)
  end.

Definition diagnostics_call (p : Provider) (failure : option FailureCategory) (call : HealthCall) :
    option FailureCategory * list (bool * str * str) :=
  let '(failure, transition) := health_step failure call in
  (failure, diagnostics_line p <$> option_list transition).

Fixpoint health_run (failure : option FailureCategory) (calls : list HealthCall) : list (option Transition) :=
  match calls with
  | [] => []
  | call :: calls => let '(failure, t) := health_step failure call in t :: health_run failure calls
  end.

(** The health a call reports. *)
Definition reported_health (call : HealthCall) : option FailureCategory :=
  match call with HealthFailed c => Some c | HealthRecovered => None end.

(** Each change of health is logged once, as what it changed to, and nothing
    else is: a call is logged exactly when it reports another health than the
    call before it, the provider being healthy at first. *)
Theorem health_logged_on_change calls i call :
  calls !! i = Some call →
  health_run None calls !! i = Some
    (if bool_decide (reported_health call = from_option reported_health None (match i with O => None | S j => calls !! j end))
     then None
     else Some (match reported_health call with Some c => TransFailed c | None => TransRecovered end)).
Proof.
  enough (∀ failure, calls !! i = Some call →
    health_run failure calls !! i = Some
      (if bool_decide (reported_health call = match i with O => failure | S j => from_option reported_health None (calls !! j) end)
       then None else Some (match reported_health call with Some c => TransFailed c | None => TransRecovered end))) as H.
  { intros Hc. rewrite (H None Hc). by destruct i. }
  revert i. induction calls as [|k calls IH]; intros i failure Hi; [done|].
  destruct i as [|i]; cbn in Hi.
  - injection Hi as ->. cbn. destruct call as [c|]; cbn.
    + unfold health_failed. case_bool_decide as E1; case_bool_decide as E2; try done; congruence.
    + destruct failure; cbn; by rewrite ?bool_decide_eq_true_2, ?bool_decide_eq_false_2 by done.
  - cbn [health_run]. assert (∃ t, health_step failure k = (reported_health k, t)) as [t ->].
    { destruct k as [c|]; cbn; [|by eexists]. unfold health_failed. case_bool_decide as E; [rewrite E|]; by eexists. }
    cbn. rewrite (IH i _ Hi). by destruct i.
Qed.

(** * The session clock *)

(** The anchor: what had elapsed, and when that was received. *)
Definition session_sync (elapsed_ms : option Z) (received_at : instant) : option (duration * instant) :=
  (λ ms, (from_millis ms, received_at)) <$> elapsed_ms.

Definition session_elapsed_at (anchor : option (duration * instant)) (now : instant) : option duration :=
  (λ a, dur_saturating_add (fst a) (saturating_duration_since now (snd a))) <$> anchor.

(** [Duration::subsec_millis]. *)
Definition subsec_millis (d : duration) : Z := (d mod nanos_per_sec) / nanos_per_milli.

Definition session_repaint_after (anchor : option (duration * instant)) (now : instant) : option duration :=
  (λ elapsed, from_millis (1000 - subsec_millis elapsed)) <$> session_elapsed_at anchor now.

(** The clock is repainted when its seconds change: at the time asked for
    the display shows the next second, and not more than a millisecond of
    it has passed. *)
Theorem session_repaint_next_second anchor now elapsed
    (Hnow : snd anchor ≤ now) (Hpos : 0 ≤ fst anchor) (Hmax : fst anchor + (now - snd anchor) + from_secs 2 ≤ duration_max)
    (Helapsed : session_elapsed_at (Some anchor) now = Some elapsed) :
  ∃ wait later, session_repaint_after (Some anchor) now = Some wait ∧ 0 < wait ≤ from_secs 1 ∧
    session_elapsed_at (Some anchor) (now + wait) = Some later ∧
    later / nanos_per_sec = elapsed / nanos_per_sec + 1 ∧ later mod nanos_per_sec < nanos_per_milli.
Proof.
  unfold session_repaint_after. rewrite Helapsed. cbn [fmap option_fmap option_map].
  unfold session_elapsed_at in *. cbn [fmap option_fmap option_map] in *. injection Helapsed as <-.
  unfold dur_saturating_add, saturating_duration_since, saturating_add, saturating_sub, from_millis, from_secs, subsec_millis in *.
  destruct anchor as [e r]. cbn [fst snd] in *.
  unfold nanos_per_sec, nanos_per_milli in *. set (x := Z.min duration_max (e + Z.max 0 (now - r))).
  assert (x = e + (now - r)) as Hx by lia. clearbody x. subst x. set (x := e + (now - r)) in *.
  pose proof (Z.mod_pos_bound x 1000000000 ltac:(lia)) as Hs. pose proof (Z.div_mod x 1000000000 ltac:(lia)) as Hd.
  pose proof (Z.div_mod (x mod 1000000000) 1000000 ltac:(lia)) as Hm.
  pose proof (Z.mod_pos_bound (x mod 1000000000) 1000000 ltac:(lia)) as Hb.
  set (ms := (x mod 1000000000) / 1000000) in *. set (sub := (x mod 1000000000) mod 1000000) in *.
  assert (0 ≤ ms < 1000) by lia.
  exists ((1000 - ms) * 1000000), (x + (1000 - ms) * 1000000). split_and!; [done|lia|lia|f_equal; lia| |].
  - symmetry. apply (Z.div_unique _ _ _ sub); lia.
  - rewrite <- (Z.mod_unique (x + (1000 - ms) * 1000000) 1000000000 (x / 1000000000 + 1) sub); lia.
Qed.

Lemma session_repaint_next_second_witness :
  ∃ wait later, session_repaint_after (Some (from_millis 1200250, 7)) 1000007 = Some wait ∧ 0 < wait ≤ from_secs 1 ∧
    session_elapsed_at (Some (from_millis 1200250, 7)) (1000007 + wait) = Some later ∧
    later / nanos_per_sec = 1200251000000 / nanos_per_sec + 1 ∧ later mod nanos_per_sec < nanos_per_milli.
Proof.
  apply (session_repaint_next_second (from_millis 1200250, 7) 1000007 1200251000000);
    [cbn; lia|vm_compute; discriminate|vm_compute; discriminate|vm_compute; reflexivity].
Defined.
