(* ===== verification/Discord.v ===== *)
(** Discord's RPC ([rpc.rs], [model.rs], [auth.rs], [credentials.rs] and the
    framing of [client.rs] in crates/overcrow-overlay/src/discord): what is
    accepted of Discord's messages, the packets of the local socket, and the
    credentials of the user.  JSON (serde), lower-casing, the key ring and
    the OAuth requests are parameters. *)

From S2P Require Import Prelude Ordered Text Bytes.

Definition DISCORD_RPC_MESSAGE_MAX_BYTES : Z := 256 * 1024.
Definition DISCORD_PARTICIPANT_MAX : nat := 64.
#[global] Arguments DISCORD_PARTICIPANT_MAX : simpl never.
Definition DISCORD_ID_MAX_BYTES : Z := 32.
Definition DISCORD_NAME_MAX_CHARS : nat := 128.
#[global] Arguments DISCORD_NAME_MAX_CHARS : simpl never.
Definition DISCORD_AVATAR_HASH_MAX_BYTES : Z := 128.
Definition DISCORD_CODE_MAX_BYTES : Z := 1024.
Definition DISCORD_COMMAND_MAX_BYTES : Z := 64.
Definition DISCORD_EVENT_MAX_BYTES : Z := 64.
Definition DISCORD_NONCE_MAX_BYTES : Z := 64.

(** * Voice channels *)

Record VoiceParticipant := mkVoiceParticipant {
  vp_id : str;
  vp_display_name : str;
  vp_avatar_hash : option str;
  vp_speaking : bool;
  vp_muted : bool;
  vp_deafened : bool
}.
#[export] Instance VoiceParticipant_eta : Eta VoiceParticipant := λ p,
  mkVoiceParticipant (vp_id p) (vp_display_name p) (vp_avatar_hash p) (vp_speaking p) (vp_muted p) (vp_deafened p).

Record VoiceChannel := mkVoiceChannel { vc_id : str; vc_name : str; vc_participants : list VoiceParticipant }.
#[export] Instance VoiceChannel_eta : Eta VoiceChannel := λ c, mkVoiceChannel (vc_id c) (vc_name c) (vc_participants c).

Inductive VoiceSubscriptionEvent :=
  VoiceChannelSelect | SpeakingStart | SpeakingStop | VoiceStateCreate | VoiceStateDelete | VoiceStateUpdate.

#[export] Instance VoiceSubscriptionEvent_eq_dec : EqDecision VoiceSubscriptionEvent.
Proof. solve_decision. Defined.

Definition CHANNEL_SCOPED : list VoiceSubscriptionEvent :=
  [SpeakingStart; SpeakingStop; VoiceStateCreate; VoiceStateDelete; VoiceStateUpdate].

Definition voice_event_as_str (e : VoiceSubscriptionEvent) : str :=
  match e with
  | VoiceChannelSelect => lit "VOICE_CHANNEL_SELECT"
  | SpeakingStart => lit "SPEAKING_START"
  | SpeakingStop => lit "SPEAKING_STOP"
  | VoiceStateCreate => lit "VOICE_STATE_CREATE"
  | VoiceStateDelete => lit "VOICE_STATE_DELETE"
  | VoiceStateUpdate => lit "VOICE_STATE_UPDATE"
  end.

Definition voice_event_parse (value : str) : option VoiceSubscriptionEvent :=
  find_first (λ e, str_eqb (voice_event_as_str e) value) (VoiceChannelSelect :: CHANNEL_SCOPED).

Section participants.
(** [str::to_lowercase]. *)
Variable to_lowercase : str → str.

Definition participant_rank (local_user_id : option str) (p : VoiceParticipant) : Z :=
  if bool_decide (local_user_id = Some (vp_id p)) then 0 else if vp_speaking p then 1 else 2.

Definition participant_key (local_user_id : option str) (p : VoiceParticipant) : Z * (str * str) :=
  (participant_rank local_user_id p, (to_lowercase (vp_display_name p), vp_id p)).

Definition sort_participants (local_user_id : option str) (participants : list VoiceParticipant) : list VoiceParticipant :=
  sort_by_key (participant_key local_user_id) participants.

Definition participants_sorted (local_user_id : option str) (l : list VoiceParticipant) : Prop :=
  StronglySorted (λ p q, blt (participant_key local_user_id q) (participant_key local_user_id p) = false) l.
End participants.

(** * Messages *)

Inductive DiscordRpcEvent :=
| RpcReady
| AuthorizationGranted (nonce code : str)
| Authenticated (nonce user_id : str)
| ChannelSelected (channel_id : option str)
| ChannelSnapshot (nonce : str) (channel : option VoiceChannel)
| ParticipantCreated (participant : VoiceParticipant)
| ParticipantUpdated (participant : VoiceParticipant)
| ParticipantDeleted (user_id : str)
| SpeakingChanged (user_id : str) (speaking : bool)
| SubscriptionChanged (subscribed : bool) (event : VoiceSubscriptionEvent) (nonce : str)
| ProviderError (command : option str) (code : Z) (nonce : option str)
| RpcIgnored.

Inductive RpcParseError := RpcOversized | RpcMalformed | RpcInvalidData.

Record WireVoiceFlags := mkWireVoiceFlags { wf_mute : bool; wf_deaf : bool; wf_self_mute : bool; wf_self_deaf : bool; wf_suppress : bool }.

Record WireUser := mkWireUser { wu_id : str; wu_username : str; wu_global_name : option str; wu_avatar : option str }.

Record WireVoiceState := mkWireVoiceState {
  ws_nick : option str; ws_mute : bool; ws_speaking : bool; ws_voice_state : WireVoiceFlags; ws_user : WireUser
}.

Record WireChannel := mkWireChannel { wc_id : str; wc_name : option str; wc_voice_states : list WireVoiceState }.

Record WireEnvelope (data : Type) := mkWireEnvelope {
  we_cmd : str; we_data : data; we_evt : option str; we_nonce : option str
}.
Arguments mkWireEnvelope {data}. Arguments we_cmd {data}. Arguments we_data {data}. Arguments we_evt {data}. Arguments we_nonce {data}.

(** JSON values, and decoding them as the wire types. *)
Class DiscordJson := {
  json : Type;
  json_is_null : json → bool;
  decode_envelope : list Z → option (WireEnvelope json);
  decode_authorization : json → option str;                    (* code *)
  decode_authentication : json → option WireUser;              (* user *)
  decode_channel_select : json → option (option str);          (* channel_id *)
  decode_channel : json → option WireChannel;
  decode_voice_state : json → option WireVoiceState;
  decode_speaking : json → option str;                         (* user_id *)
  decode_deleted : json → option str;                          (* user.id *)
  decode_error : json → option Z;                              (* code *)
  decode_subscription : json → option str                      (* evt *)
}.

Definition is_ascii (c : char) : bool := c <? 128.

Definition valid_id (value : str) : result RpcParseError str :=
  if negb (bool_decide (value = [])) && (str_len value <=? DISCORD_ID_MAX_BYTES) && forallb is_ascii_digit value
  then Ok value else Err RpcInvalidData.

Definition valid_name (value : str) : result RpcParseError str :=
  if negb (bool_decide (value = [])) && (length value <=? DISCORD_NAME_MAX_CHARS)%nat && negb (existsb is_control value)
  then Ok value else Err RpcInvalidData.

Definition avatar_character (c : char) : bool := is_ascii_alphanumeric c || (c =? 95).

Definition valid_avatar_hash (value : str) : result RpcParseError str :=
  if negb (bool_decide (value = [])) && (str_len value <=? DISCORD_AVATAR_HASH_MAX_BYTES) && forallb avatar_character value
  then Ok value else Err RpcInvalidData.

Definition valid_sensitive (value : str) (max_bytes : Z) : bool :=
  negb (bool_decide (value = [])) && (str_len value <=? max_bytes) && negb (existsb is_control value).

Definition valid_bounded_ascii (value : str) (max_bytes : Z) : bool :=
  negb (bool_decide (value = [])) && (str_len value <=? max_bytes) && forallb is_ascii value.

(** [Option::map(f).transpose()]. *)
Definition transpose_map {E A B} (f : A → result E B) (o : option A) : result E (option B) :=
  match o with None => Ok None | Some a => Some <$> f a end.

(** [collect::<Result<Vec<_>, _>>()]. *)
Fixpoint map_results {E A B} (f : A → result E B) (l : list A) : result E (list B) :=
  match l with
  | [] => Ok []
  | a :: l => b ← f a; bs ← map_results f l; Ok (b :: bs)
  end.

(** The first candidate for a display name that is not empty. *)
Definition display_candidate (s : WireVoiceState) : option str :=
  find_first (λ name, negb (bool_decide (name = [])))
    (option_list (ws_nick s) ++ option_list (wu_global_name (ws_user s)) ++ [wu_username (ws_user s)]).

Definition validate_voice_state (s : WireVoiceState) : result RpcParseError VoiceParticipant :=
  id ← valid_id (wu_id (ws_user s));
  candidate ← ok_or RpcInvalidData (display_candidate s);
  display_name ← valid_name candidate;
  avatar_hash ← transpose_map valid_avatar_hash (wu_avatar (ws_user s));
  let flags := ws_voice_state s in
  Ok (mkVoiceParticipant id display_name avatar_hash (ws_speaking s)
        (ws_mute s || wf_mute flags || wf_self_mute flags)
        (wf_deaf flags || wf_self_deaf flags || wf_suppress flags)).

Section parse.
Context `{DiscordJson}.

Definition parse_data {T} (o : option T) : result RpcParseError T := ok_or RpcInvalidData o.

Definition parse_authorization (data : json) (nonce : option str) : result RpcParseError DiscordRpcEvent :=
  code ← parse_data (decode_authorization data);
  if negb (valid_sensitive code DISCORD_CODE_MAX_BYTES) then Err RpcInvalidData
  else nonce ← ok_or RpcInvalidData nonce; Ok (AuthorizationGranted nonce code).

Definition parse_authentication (data : json) (nonce : option str) : result RpcParseError DiscordRpcEvent :=
  user ← parse_data (decode_authentication data);
  user_id ← valid_id (wu_id user);
  nonce ← ok_or RpcInvalidData nonce;
  Ok (Authenticated nonce user_id).

Definition parse_channel_select (data : json) : result RpcParseError DiscordRpcEvent :=
  selection ← parse_data (decode_channel_select data);
  channel_id ← transpose_map valid_id selection;
  Ok (ChannelSelected channel_id).

Definition parse_channel (data : json) (nonce : option str) : result RpcParseError DiscordRpcEvent :=
  nonce ← ok_or RpcInvalidData nonce;
  if json_is_null data then Ok (ChannelSnapshot nonce None)
  else
    channel ← parse_data (decode_channel data);
    if (DISCORD_PARTICIPANT_MAX <? length (wc_voice_states channel))%nat then Err RpcInvalidData
    else
      id ← valid_id (wc_id channel);
      name ← transpose_map valid_name (opt_filter (λ name, negb (bool_decide (name = []))) (wc_name channel));
      participants ← map_results validate_voice_state (wc_voice_states channel);
      Ok (ChannelSnapshot nonce (Some (mkVoiceChannel id (default (lit "Direct call") name) participants))).

Definition parse_voice_state (data : json) : result RpcParseError VoiceParticipant :=
  state ← parse_data (decode_voice_state data); validate_voice_state state.

Definition parse_deleted (data : json) : result RpcParseError DiscordRpcEvent :=
  id ← parse_data (decode_deleted data); user_id ← valid_id id; Ok (ParticipantDeleted user_id).

Definition parse_speaking (data : json) (speaking : bool) : result RpcParseError DiscordRpcEvent :=
  id ← parse_data (decode_speaking data); user_id ← valid_id id; Ok (SpeakingChanged user_id speaking).

Definition parse_subscription (data : json) (nonce : option str) (subscribed : bool) : result RpcParseError DiscordRpcEvent :=
  nonce ← ok_or RpcInvalidData nonce;
  evt ← parse_data (decode_subscription data);
  event ← ok_or RpcInvalidData (voice_event_parse evt);
  Ok (SubscriptionChanged subscribed event nonce).

Definition parse_envelope (e : WireEnvelope json) : result RpcParseError DiscordRpcEvent :=
  let cmd := we_cmd e in
  let evt := we_evt e in
  let dispatch (name : string) := str_eqb cmd (lit "DISPATCH") && bool_decide (evt = Some (lit name)) in
  if bool_decide (evt = Some (lit "ERROR")) then
    code ← parse_data (decode_error (we_data e)); Ok (ProviderError (Some cmd) code (we_nonce e))
  else if dispatch "READY" then Ok RpcReady
  else if str_eqb cmd (lit "AUTHORIZE") then parse_authorization (we_data e) (we_nonce e)
  else if str_eqb cmd (lit "AUTHENTICATE") then parse_authentication (we_data e) (we_nonce e)
  else if str_eqb cmd (lit "GET_SELECTED_VOICE_CHANNEL") then parse_channel (we_data e) (we_nonce e)
  else if dispatch "VOICE_CHANNEL_SELECT" then parse_channel_select (we_data e)
  else if dispatch "VOICE_STATE_CREATE" then ParticipantCreated <$> parse_voice_state (we_data e)
  else if dispatch "VOICE_STATE_UPDATE" then ParticipantUpdated <$> parse_voice_state (we_data e)
  else if dispatch "VOICE_STATE_DELETE" then parse_deleted (we_data e)
  else if dispatch "SPEAKING_START" then parse_speaking (we_data e) true
  else if dispatch "SPEAKING_STOP" then parse_speaking (we_data e) false
  else if str_eqb cmd (lit "SUBSCRIBE") then parse_subscription (we_data e) (we_nonce e) true
  else if str_eqb cmd (lit "UNSUBSCRIBE") then parse_subscription (we_data e) (we_nonce e) false
  else Ok RpcIgnored.

Definition parse_rpc_message (bytes : list Z) : result RpcParseError DiscordRpcEvent :=
  if DISCORD_RPC_MESSAGE_MAX_BYTES <? Z.of_nat (length bytes) then Err RpcOversized
  else
    envelope ← ok_or RpcMalformed (decode_envelope bytes);
    if negb (valid_bounded_ascii (we_cmd envelope) DISCORD_COMMAND_MAX_BYTES)
       || is_some_and (λ event, negb (valid_bounded_ascii event DISCORD_EVENT_MAX_BYTES)) (we_evt envelope)
       || is_some_and (λ nonce, negb (valid_bounded_ascii nonce DISCORD_NONCE_MAX_BYTES)) (we_nonce envelope)
    then Err RpcInvalidData
    else parse_envelope envelope.
End parse.

(** ** What an accepted message holds *)

Definition id_ok (id : str) : Prop := id ≠ [] ∧ str_len id ≤ DISCORD_ID_MAX_BYTES ∧ Forall (λ c, is_ascii_digit c = true) id.
Definition name_ok (name : str) : Prop :=
  name ≠ [] ∧ (length name ≤ DISCORD_NAME_MAX_CHARS)%nat ∧ Forall (λ c, is_control c = false) name.
Definition avatar_ok (hash : str) : Prop :=
  hash ≠ [] ∧ str_len hash ≤ DISCORD_AVATAR_HASH_MAX_BYTES ∧ Forall (λ c, avatar_character c = true) hash.

Definition participant_ok (p : VoiceParticipant) : Prop :=
  id_ok (vp_id p) ∧ name_ok (vp_display_name p) ∧ (∀ h, vp_avatar_hash p = Some h → avatar_ok h).

Definition channel_ok (c : VoiceChannel) : Prop :=
  id_ok (vc_id c) ∧ name_ok (vc_name c) ∧ (length (vc_participants c) ≤ DISCORD_PARTICIPANT_MAX)%nat ∧
  Forall participant_ok (vc_participants c).

Definition event_ok (e : DiscordRpcEvent) : Prop :=
  match e with
  | AuthorizationGranted _ code => valid_sensitive code DISCORD_CODE_MAX_BYTES = true
  | Authenticated _ user_id | ParticipantDeleted user_id | SpeakingChanged user_id _ => id_ok user_id
  | ChannelSelected id => ∀ i, id = Some i → id_ok i
  | ChannelSnapshot _ c => ∀ v, c = Some v → channel_ok v
  | ParticipantCreated p | ParticipantUpdated p => participant_ok p
  | RpcReady | SubscriptionChanged _ _ _ | ProviderError _ _ _ | RpcIgnored => True
  end.

Lemma valid_id_Ok v w : valid_id v = Ok w ↔ w = v ∧ id_ok v.
Proof.
  unfold valid_id, id_ok. rewrite <- forallb_Forall'. destruct (_ && _) eqn:E.
  - rewrite !andb_true_iff, negb_true_iff, bool_decide_eq_false, Z.leb_le in E. naive_solver.
  - split; [done|]. intros (_ & H1 & H2 & H3). apply Z.leb_le in H2.
    rewrite H2, H3, bool_decide_eq_false_2 in E by done. done.
Qed.

Lemma valid_name_Ok v w : valid_name v = Ok w ↔ w = v ∧ name_ok v.
Proof.
  unfold valid_name, name_ok. rewrite <- existsb_false. destruct (_ && _) eqn:E.
  - rewrite !andb_true_iff, !negb_true_iff, bool_decide_eq_false, Nat.leb_le in E. naive_solver.
  - split; [done|]. intros (_ & H1 & H2 & H3). apply Nat.leb_le in H2.
    rewrite H2, H3, bool_decide_eq_false_2 in E by done. done.
Qed.

Lemma valid_avatar_hash_Ok v w : valid_avatar_hash v = Ok w ↔ w = v ∧ avatar_ok v.
Proof.
  unfold valid_avatar_hash, avatar_ok. rewrite <- forallb_Forall'. destruct (_ && _) eqn:E.
  - rewrite !andb_true_iff, negb_true_iff, bool_decide_eq_false, Z.leb_le in E. naive_solver.
  - split; [done|]. intros (_ & H1 & H2 & H3). apply Z.leb_le in H2.
    rewrite H2, H3, bool_decide_eq_false_2 in E by done. done.
Qed.

Lemma transpose_map_Ok {E A B} (f : A → result E B) o r :
  transpose_map f o = Ok r → match r with Some b => ∃ a, o = Some a ∧ f a = Ok b | None => o = None end.
Proof.
  destruct o as [a|]; cbn; [|by intros [= <-]]. destruct (f a) as [b|] eqn:Ef; cbn; [|done].
  intros [= <-]. by exists a.
Qed.

Lemma map_results_Ok {E A B} (f : A → result E B) l r :
  map_results f l = Ok r → Forall2 (λ a b, f a = Ok b) l r.
Proof.
  revert r. induction l as [|a l IH]; intros r Hr; cbn in Hr; [by injection Hr as <-|].
  apply result_bind_Ok in Hr as (b & Hb & Hr). apply result_bind_Ok in Hr as (bs & Hbs & [= <-]).
  constructor; [done|by apply IH].
Qed.

Lemma validate_voice_state_ok s p : validate_voice_state s = Ok p → participant_ok p.
Proof.
  unfold validate_voice_state. intros (id & Hid & H)%result_bind_Ok. apply valid_id_Ok in Hid as [-> Hid].
  apply result_bind_Ok in H as (candidate & _ & H). apply result_bind_Ok in H as (name & Hn & H).
  apply valid_name_Ok in Hn as [-> Hn]. apply result_bind_Ok in H as (avatar & Ha & [= <-]).
  split_and!; [done|done|]. cbn. intros h ->. apply transpose_map_Ok in Ha as (a & _ & [-> Ha]%valid_avatar_hash_Ok). done.
Qed.

Section parsed.
Context `{DiscordJson}.

Lemma parse_channel_ok data nonce e : parse_channel data nonce = Ok e → event_ok e.
Proof.
  unfold parse_channel. intros (n & _ & Hp)%result_bind_Ok. destruct (json_is_null data); [by injection Hp as <-|].
  apply result_bind_Ok in Hp as (c & _ & Hp).
  destruct (Nat.ltb_spec DISCORD_PARTICIPANT_MAX (length (wc_voice_states c))) as [|Hlen]; [done|].
  apply result_bind_Ok in Hp as (id & [-> Hid]%valid_id_Ok & Hp).
  apply result_bind_Ok in Hp as (name & Hname & Hp). apply result_bind_Ok in Hp as (ps & Hps & [= <-]).
  intros v [= <-]. apply map_results_Ok in Hps. split_and!; cbn; [done| | |].
  - destruct name as [name|]; cbn; [|split_and!; [done|by vm_compute; repeat constructor|by repeat constructor]].
    apply transpose_map_Ok in Hname as (a & _ & [-> Hn]%valid_name_Ok). done.
  - by rewrite <- (Forall2_length _ _ _ Hps).
  - eapply Forall_forall. intros p Hp. apply list_elem_of_lookup in Hp as [i Hi].
    destruct (Forall2_lookup_r _ _ _ _ _ Hps Hi) as (s & _ & Hs). by eapply validate_voice_state_ok.
Qed.

(** Every message that is accepted names users and channels by short digit
    ids, and people by short names without control characters, at most 64 of
    them, and its codes are bounded. *)
Lemma parse_rpc_message_ok bytes e : parse_rpc_message bytes = Ok e → event_ok e.
Proof.
  intros Hparse. unfold parse_rpc_message in Hparse. destruct (_ <? _); [done|].
  apply result_bind_Ok in Hparse as (env & _ & Hparse). destruct (_ || _); [done|]. unfold parse_envelope in Hparse.
  repeat match type of Hparse with
  | (if ?b then _ else _) = _ => destruct b
  end; try (injection Hparse as <-; done).
  - by apply result_bind_Ok in Hparse as (code & _ & [= <-]).
  - unfold parse_authorization in Hparse. apply result_bind_Ok in Hparse as (code & _ & Hparse).
    destruct (negb _) eqn:E; [done|]. apply result_bind_Ok in Hparse as (n & _ & [= <-]). by apply negb_false_iff in E.
  - unfold parse_authentication in Hparse. apply result_bind_Ok in Hparse as (u & _ & Hparse).
    apply result_bind_Ok in Hparse as (id & [-> Hid]%valid_id_Ok & Hparse). by apply result_bind_Ok in Hparse as (n & _ & [= <-]).
  - by eapply parse_channel_ok.
  - unfold parse_channel_select in Hparse. apply result_bind_Ok in Hparse as (s & _ & Hparse).
    apply result_bind_Ok in Hparse as (c & Hc & [= <-]). intros i ->.
    by apply transpose_map_Ok in Hc as (a & _ & [-> Hi]%valid_id_Ok).
  - destruct (parse_voice_state (we_data env)) as [p|] eqn:Ep; cbn in Hparse; [|done]. injection Hparse as <-.
    apply result_bind_Ok in Ep as (s & _ & Ep). by eapply validate_voice_state_ok.
  - destruct (parse_voice_state (we_data env)) as [p|] eqn:Ep; cbn in Hparse; [|done]. injection Hparse as <-.
    apply result_bind_Ok in Ep as (s & _ & Ep). by eapply validate_voice_state_ok.
  - apply result_bind_Ok in Hparse as (i & _ & Hparse). by apply result_bind_Ok in Hparse as (id & [-> Hid]%valid_id_Ok & [= <-]).
  - apply result_bind_Ok in Hparse as (i & _ & Hparse). by apply result_bind_Ok in Hparse as (id & [-> Hid]%valid_id_Ok & [= <-]).
  - apply result_bind_Ok in Hparse as (i & _ & Hparse). by apply result_bind_Ok in Hparse as (id & [-> Hid]%valid_id_Ok & [= <-]).
  - apply result_bind_Ok in Hparse as (i & _ & Hparse). apply result_bind_Ok in Hparse as (evt & _ & Hparse).
    by apply result_bind_Ok in Hparse as (ev & _ & [= <-]).
  - apply result_bind_Ok in Hparse as (i & _ & Hparse). apply result_bind_Ok in Hparse as (evt & _ & Hparse).
    by apply result_bind_Ok in Hparse as (ev & _ & [= <-]).
Qed.
End parsed.

(** * Packets *)

Inductive BackendError := BackendConnection | BackendTimeout | BackendProtocol.

Definition IPC_OPCODE_HANDSHAKE : Z := 0.
Definition IPC_OPCODE_FRAME : Z := 1.
Definition IPC_OPCODE_CLOSE : Z := 2.
Definition IPC_OPCODE_PING : Z := 3.
Definition IPC_OPCODE_PONG : Z := 4.
Definition IPC_HEADER_BYTES : nat := 8.

(** What arrives on the socket: the bytes, and whether the stream then ends
    or fails. *)
Record Incoming := mkIncoming { in_bytes : list Z; in_ends : bool }.

(** [read_exact]: the error says whether the stream ended. *)
Definition read_exact (n : nat) (s : Incoming) : result bool (list Z) * Incoming :=
  if (n <=? length (in_bytes s))%nat
  then (Ok (take n (in_bytes s)), mkIncoming (drop n (in_bytes s)) (in_ends s))
  else (Err (in_ends s), mkIncoming [] (in_ends s)).

Definition read_ipc_packet (s : Incoming) : result BackendError (option (Z * list Z)) * Incoming :=
  match read_exact IPC_HEADER_BYTES s with
  | (Err ended, s) => (if ended then Ok None else Err BackendConnection, s)
  | (Ok header, s) =>
      let opcode := from_le_bytes (take 4 header) in
      let length := from_le_bytes (drop 4 header) in
      if DISCORD_RPC_MESSAGE_MAX_BYTES <? length then (Err BackendProtocol, s)
      else
        match read_exact (Z.to_nat length) s with
        | (Err _, s) => (Err BackendConnection, s)
        | (Ok payload, s) => (Ok (Some (opcode, payload)), s)
        end
  end.

Definition ipc_packet (opcode : Z) (payload : list Z) : list Z :=
  le_bytes 4 opcode ++ le_bytes 4 (Z.of_nat (length payload)) ++ payload.

(** [write_ipc_packet]: what is written, when the stream takes it. *)
Definition write_ipc_packet (writable : bool) (opcode : Z) (payload : list Z) : result BackendError (list Z) :=
  if DISCORD_RPC_MESSAGE_MAX_BYTES <? Z.of_nat (length payload) then Err BackendProtocol
  else if writable then Ok (ipc_packet opcode payload) else Err BackendConnection.

(** [DiscordIpcSocket::next], with the packets written on the way, each of
    which the stream takes or not.  A packet takes at least a header, so
    the bytes left bound the turns of the loop. *)
Fixpoint socket_next (fuel : nat) (writable : nat → bool) (written : list (list Z)) (s : Incoming) :
    result BackendError (option str) * list (list Z) * Incoming :=
  match fuel with
  | O => (Ok None, written, s)
  | S fuel =>
      match read_ipc_packet s with
      | (Err e, s) => (Err e, written, s)
      | (Ok None, s) => (Ok None, written, s)
      | (Ok (Some (opcode, payload)), s) =>
          if opcode =? IPC_OPCODE_FRAME then (Some <$> ok_or BackendProtocol (from_utf8 payload), written, s)
          else if opcode =? IPC_OPCODE_PING then
            match write_ipc_packet (writable (length written)) IPC_OPCODE_PONG payload with
            | Err e => (Err e, written, s)
            | Ok packet => socket_next fuel writable (written ++ [packet]) s
            end
          else if opcode =? IPC_OPCODE_PONG then socket_next fuel writable written s
          else if opcode =? IPC_OPCODE_CLOSE then (Ok None, written, s)
          else (Err BackendProtocol, written, s)
      end
  end.

Definition next_fuel (s : Incoming) : nat := S (length (in_bytes s)).

Lemma incoming_read_exact_app n a b ends : length a = n → read_exact n (mkIncoming (a ++ b) ends) = (Ok a, mkIncoming b ends).
Proof.
  intros <-. unfold read_exact. cbn. rewrite length_app.
  destruct (Nat.leb_spec (length a) (length a + length b)); [|lia]. by rewrite take_app_length, drop_app_length.
Qed.

Lemma read_ipc_packet_encoded opcode payload rest ends :
  0 ≤ opcode < 2 ^ 32 → Z.of_nat (length payload) ≤ DISCORD_RPC_MESSAGE_MAX_BYTES →
  read_ipc_packet (mkIncoming (ipc_packet opcode payload ++ rest) ends) = (Ok (Some (opcode, payload)), mkIncoming rest ends).
Proof.
  intros Hop Hlen. unfold read_ipc_packet, ipc_packet.
  rewrite !app_assoc, <- (app_assoc _ payload rest), <- app_assoc, (app_assoc (le_bytes 4 opcode)).
  rewrite incoming_read_exact_app by (rewrite length_app, !le_bytes_length; done).
  rewrite take_app_length', drop_app_length' by (by rewrite le_bytes_length).
  rewrite !from_le_le_bytes by (unfold DISCORD_RPC_MESSAGE_MAX_BYTES in *; lia).
  destruct (Z.ltb_spec DISCORD_RPC_MESSAGE_MAX_BYTES (Z.of_nat (length payload))); [lia|].
  rewrite Nat2Z.id. by rewrite incoming_read_exact_app.
Qed.

(** A packet read takes at least its header. *)
Lemma read_ipc_packet_shorter s p s' :
  read_ipc_packet s = (Ok (Some p), s') → (length (in_bytes s') < length (in_bytes s))%nat.
Proof.
  unfold read_ipc_packet, read_exact. destruct (Nat.leb_spec IPC_HEADER_BYTES (length (in_bytes s))) as [H|H]; [|by destruct (in_ends s)].
  destruct (_ <? _); [done|]. cbn [in_bytes in_ends]. unfold IPC_HEADER_BYTES in *.
  destruct (_ <=? _)%nat; [|done]. intros [= _ <-]. cbn. rewrite !length_drop. lia.
Qed.

(** The fuel is enough: more changes nothing. *)
Lemma socket_next_fuel writable fuel1 fuel2 written s :
  (length (in_bytes s) < fuel1)%nat → (length (in_bytes s) < fuel2)%nat →
  socket_next fuel1 writable written s = socket_next fuel2 writable written s.
Proof.
  revert fuel2 written s. induction fuel1 as [|fuel1 IH]; intros fuel2 written s H1 H2; [lia|].
  destruct fuel2 as [|fuel2]; [lia|]. cbn [socket_next].
  destruct (read_ipc_packet s) as [[[[opcode payload]|]|e] s'] eqn:Er; [|done|done].
  apply read_ipc_packet_shorter in Er. destruct (opcode =? IPC_OPCODE_FRAME); [done|].
  destruct (opcode =? IPC_OPCODE_PING); [destruct (write_ipc_packet _ _ _); [apply IH; lia|done]|].
  destruct (opcode =? IPC_OPCODE_PONG); [apply IH; lia|done].
Qed.

(** A packet of Discord's that is not a frame: a ping or a pong. *)
Record Heartbeat := mkHeartbeat { hb_ping : bool; hb_payload : list Z }.
Definition heartbeat_packet (h : Heartbeat) : list Z :=
  ipc_packet (if hb_ping h then IPC_OPCODE_PING else IPC_OPCODE_PONG) (hb_payload h).
Definition heartbeat_reply (h : Heartbeat) : list (list Z) :=
  if hb_ping h then [ipc_packet IPC_OPCODE_PONG (hb_payload h)] else [].

Lemma ipc_packet_length opcode payload : length (ipc_packet opcode payload) = (8 + length payload)%nat.
Proof. unfold ipc_packet. by rewrite !length_app, !le_bytes_length. Qed.

Lemma socket_next_heartbeats fuel writable beats written rest ends :
  (∀ n, writable n = true) → (length beats ≤ fuel)%nat →
  Forall (λ h, Z.of_nat (length (hb_payload h)) ≤ DISCORD_RPC_MESSAGE_MAX_BYTES) beats →
  socket_next fuel writable written (mkIncoming ((beats ≫= heartbeat_packet) ++ rest) ends) =
    socket_next (fuel - length beats) writable (written ++ (beats ≫= heartbeat_reply)) (mkIncoming rest ends).
Proof.
  intros Hw Hf Hb. revert fuel written Hf. induction Hb as [|h beats Hh _ IH]; intros fuel written Hf.
  { cbn. by rewrite app_nil_r, Nat.sub_0_r. }
  cbn in Hf. destruct fuel as [|fuel]; [lia|]. rewrite !bind_cons, <- app_assoc. cbn [socket_next length].
  unfold heartbeat_packet at 1. rewrite read_ipc_packet_encoded by (first [by destruct (hb_ping h)|done]).
  destruct (hb_ping h) eqn:Ep.
  - change (IPC_OPCODE_PING =? IPC_OPCODE_FRAME) with false. rewrite Z.eqb_refl. unfold write_ipc_packet. rewrite Hw.
    destruct (Z.ltb_spec DISCORD_RPC_MESSAGE_MAX_BYTES (Z.of_nat (length (hb_payload h)))); [lia|].
    rewrite IH by lia. unfold heartbeat_reply at 2. rewrite Ep, app_assoc. done.
  - change (IPC_OPCODE_PONG =? IPC_OPCODE_FRAME) with false. change (IPC_OPCODE_PONG =? IPC_OPCODE_PING) with false.
    rewrite Z.eqb_refl. rewrite IH by lia. unfold heartbeat_reply at 2. by rewrite Ep.
Qed.

Lemma heartbeats_length beats : (length beats ≤ length (beats ≫= heartbeat_packet))%nat.
Proof.
  induction beats as [|h beats IH]; [done|]. rewrite bind_cons, length_app. unfold heartbeat_packet at 1.
  rewrite ipc_packet_length. cbn [length]. lia.
Qed.

(** C28 The socket is read in step: behind any heartbeats the next message is
    found, whole and unchanged, each ping having been answered with its own
    payload, in order; what follows the message is left for the next read. *)
Theorem socket_next_message writable beats text rest ends
    (Hwritable : ∀ n, writable n = true)
    (Hbeats : Forall (λ h, Z.of_nat (length (hb_payload h)) ≤ DISCORD_RPC_MESSAGE_MAX_BYTES) beats)
    (Htext : Forall (λ c, is_scalar c = true) text) (Hlen : str_len text ≤ DISCORD_RPC_MESSAGE_MAX_BYTES) :
  let s := mkIncoming ((beats ≫= heartbeat_packet) ++ ipc_packet IPC_OPCODE_FRAME (utf8 text) ++ rest) ends in
  socket_next (next_fuel s) writable [] s = (Ok (Some text), beats ≫= heartbeat_reply, mkIncoming rest ends).
Proof.
  intros s. assert (length beats ≤ length (in_bytes s))%nat as Hfuel.
  { pose proof (heartbeats_length beats). subst s. cbn [in_bytes]. rewrite length_app. lia. }
  unfold s at 2. rewrite socket_next_heartbeats by (first [done|unfold next_fuel; lia]).
  destruct (next_fuel s - length beats)%nat as [|fuel] eqn:Ef; [unfold next_fuel in Ef; lia|]. cbn [socket_next].
  rewrite read_ipc_packet_encoded by (first [done|rewrite utf8_length by done; lia]).
  rewrite Z.eqb_refl, from_utf8_utf8 by done. done.
Qed.

Lemma socket_next_message_witness :
  let beats := [mkHeartbeat true [1; 2]; mkHeartbeat false []] in
  let s := mkIncoming ((beats ≫= heartbeat_packet) ++ ipc_packet IPC_OPCODE_FRAME (utf8 (lit "{}")) ++ [7]) true in
  socket_next (next_fuel s) (λ _, true) [] s = (Ok (Some (lit "{}")), [[4; 0; 0; 0; 2; 0; 0; 0; 1; 2]], mkIncoming [7] true).
Proof.
  intros beats s. apply (socket_next_message (λ _, true) beats (lit "{}") [7] true);
    [done|repeat constructor; vm_compute; discriminate|repeat constructor|vm_compute; discriminate].
Defined.

(** * Credentials *)

Definition TOKEN_MAX_BYTES : Z := 4 * 1024.
Definition REFRESH_MARGIN_SECS : Z := 5 * 60.

Record DiscordCredentials := mkDiscordCredentials { cr_access_token : str; cr_refresh_token : str; cr_expires_at : Z }.

Inductive CredentialStoreError := StoreUnavailable | StoreCorrupt.
Inductive OauthError := OauthInvalidRequest | OauthTransport | OauthTimeout | OauthStatus (status : Z) | OauthBodyTooLarge
                      | OauthInvalidResponse | OauthUnauthorized.
Inductive AuthError := AuthorizationExpired | AuthStore (e : CredentialStoreError) | AuthOauth (e : OauthError).
Inductive AuthPersistence := Persisted | MemoryOnly.

Record TokenResponse := mkTokenResponse { tr_access_token : str; tr_refresh_token : str; tr_expires_in_secs : Z }.

(** [valid_token]: ASCII control characters and white space are refused. *)
Definition token_character (c : char) : bool := negb ((c <=? 32) || (c =? 127)).

Definition valid_token (token : str) : bool :=
  negb (bool_decide (token = [])) && (str_len token <=? TOKEN_MAX_BYTES) && forallb token_character token.

Definition credentials_new (access_token refresh_token : str) (expires_at : Z) : result CredentialStoreError DiscordCredentials :=
  if negb (valid_token access_token) || negb (valid_token refresh_token) || (expires_at =? 0) then Err StoreCorrupt
  else Ok (mkDiscordCredentials access_token refresh_token expires_at).

(** What the key ring and the OAuth service answer during one call of the
    client, each of which is asked at most once. *)
Record AuthWorld := mkAuthWorld {
  aw_now : Z; (* [unix_time_secs()] *)
  aw_load : result CredentialStoreError (option DiscordCredentials);
  aw_save : result CredentialStoreError unit;
  aw_delete : result CredentialStoreError unit;
  aw_exchange : result OauthError TokenResponse;
  aw_refresh : result OauthError TokenResponse
}.

Inductive AuthRequest :=
| AskStoreLoad | AskStoreSave (c : DiscordCredentials) | AskStoreDelete
| AskExchange (code : str) | AskRefresh (token : str) | AskRevoke (token : str).

Record DiscordAuth := mkDiscordAuth { da_credentials : option DiscordCredentials; da_persisted : bool }.

Definition auth_new : DiscordAuth := mkDiscordAuth None false.

Definition auth_persistence (a : DiscordAuth) : AuthPersistence := if da_persisted a then Persisted else MemoryOnly.

Definition auth_access_token (a : DiscordAuth) : option str := cr_access_token <$> da_credentials a.

(** Each operation gives the requests it makes, the state after it and its
    result. *)
Abbreviation auth_outcome := (list AuthRequest * DiscordAuth * result AuthError AuthPersistence)%type (only parsing).

Definition auth_restore (w : AuthWorld) (a : DiscordAuth) : auth_outcome :=
  match aw_load w with
  | Err e => ([AskStoreLoad], a, Err (AuthStore e))
  | Ok credentials =>
      let a := mkDiscordAuth credentials (isSome credentials) in ([AskStoreLoad], a, Ok (auth_persistence a))
  end.

Definition install_response (w : AuthWorld) (response : TokenResponse) (a : DiscordAuth) : auth_outcome :=
  match checked_add u64_max (aw_now w) (tr_expires_in_secs response) with
  | None => ([], a, Err (AuthOauth OauthInvalidResponse))
  | Some expires_at =>
      match credentials_new (tr_access_token response) (tr_refresh_token response) expires_at with
      | Err e => ([], a, Err (AuthStore e))
      | Ok credentials =>
          let a := mkDiscordAuth (Some credentials) (is_ok (aw_save w)) in
          ([AskStoreSave credentials], a, Ok (auth_persistence a))
      end
  end.

Definition auth_authorize (w : AuthWorld) (code : str) (a : DiscordAuth) : auth_outcome :=
  match aw_exchange w with
  | Err e => ([AskExchange code], a, Err (AuthOauth e))
  | Ok response => let '(asked, a, r) := install_response w response a in (AskExchange code :: asked, a, r)
  end.

Definition auth_refresh (w : AuthWorld) (a : DiscordAuth) : auth_outcome :=
  match da_credentials a with
  | None => ([], a, Err AuthorizationExpired)
  | Some c =>
      match aw_refresh w with
      | Err e => ([AskRefresh (cr_refresh_token c)], a, Err (AuthOauth e))
      | Ok response => let '(asked, a, r) := install_response w response a in (AskRefresh (cr_refresh_token c) :: asked, a, r)
      end
  end.

Definition refresh_if_needed (w : AuthWorld) (a : DiscordAuth) : auth_outcome :=
  match da_credentials a with
  | None => ([], a, Err AuthorizationExpired)
  | Some c =>
      if saturating_add u64_max (aw_now w) REFRESH_MARGIN_SECS <? cr_expires_at c then ([], a, Ok (auth_persistence a))
      else auth_refresh w a
  end.

Definition auth_invalidate (w : AuthWorld) (a : DiscordAuth) : list AuthRequest * DiscordAuth * result AuthError unit :=
  match aw_delete w with
  | Err e => ([AskStoreDelete], a, Err (AuthStore e))
  | Ok _ => ([AskStoreDelete], auth_new, Ok tt)
  end.

Definition refresh_after_rejection (w : AuthWorld) (a : DiscordAuth) : auth_outcome :=
  match auth_refresh w a with
  | (asked, a, Err (AuthOauth OauthUnauthorized)) =>
      match auth_invalidate w a with
      | (more, a, Ok _) => (asked ++ more, a, Err AuthorizationExpired)
      | (more, a, Err e) => (asked ++ more, a, Err e)
      end
  | outcome => outcome
  end.

Definition auth_sign_out (w : AuthWorld) (a : DiscordAuth) : list AuthRequest * DiscordAuth * result AuthError unit :=
  let revoke := match da_credentials a with Some c => [AskRevoke (cr_access_token c)] | None => [] end in
  let '(asked, a, r) := auth_invalidate w a in (revoke ++ asked, a, r).

Inductive AuthOp := OpRestore | OpAuthorize (code : str) | OpRefreshIfNeeded | OpRefreshAfterRejection | OpInvalidate | OpSignOut.

(** The operations by name; whether each succeeded. *)
Definition auth_operation (op : AuthOp) (w : AuthWorld) (a : DiscordAuth) : list AuthRequest * DiscordAuth * bool :=
  match op with
  | OpRestore => let '(l, a, r) := auth_restore w a in (l, a, is_ok r)
  | OpAuthorize code => let '(l, a, r) := auth_authorize w code a in (l, a, is_ok r)
  | OpRefreshIfNeeded => let '(l, a, r) := refresh_if_needed w a in (l, a, is_ok r)
  | OpRefreshAfterRejection => let '(l, a, r) := refresh_after_rejection w a in (l, a, is_ok r)
  | OpInvalidate => let '(l, a, r) := auth_invalidate w a in (l, a, is_ok r)
  | OpSignOut => let '(l, a, r) := auth_sign_out w a in (l, a, is_ok r)
  end.

(** The key ring after a request: a save or deletion that failed left it
    alone. *)
Definition ring_after (w : AuthWorld) (ring : option DiscordCredentials) (r : AuthRequest) : option DiscordCredentials :=
  match r with
  | AskStoreSave c => if is_ok (aw_save w) then Some c else ring
  | AskStoreDelete => if is_ok (aw_delete w) then None else ring
  | _ => ring
  end.

Definition credentials_valid (c : DiscordCredentials) : Prop :=
  valid_token (cr_access_token c) = true ∧ valid_token (cr_refresh_token c) = true ∧ cr_expires_at c ≠ 0.

Definition auth_inv (ring : option DiscordCredentials) (a : DiscordAuth) : Prop :=
  (da_persisted a = true → da_credentials a = ring ∧ is_Some ring) ∧
  (∀ c, da_credentials a = Some c → credentials_valid c) ∧ (∀ c, ring = Some c → credentials_valid c).

Fixpoint auth_run (ring : option DiscordCredentials) (a : DiscordAuth) (calls : list (AuthOp * AuthWorld)) :
    option DiscordCredentials * DiscordAuth * list bool :=
  match calls with
  | [] => (ring, a, [])
  | (op, w) :: calls =>
      let '(asked, a, r) := auth_operation op w a in
      let '(ring, a, rs) := auth_run (foldl (ring_after w) ring asked) a calls in
      (ring, a, r :: rs)
  end.

(** Loading gives what the key ring holds, or fails. *)
Fixpoint ring_loads (ring : option DiscordCredentials) (a : DiscordAuth) (calls : list (AuthOp * AuthWorld)) : Prop :=
  match calls with
  | [] => True
  | (op, w) :: calls =>
      (∀ c, aw_load w = Ok c → c = ring) ∧
      let '(asked, a, _) := auth_operation op w a in ring_loads (foldl (ring_after w) ring asked) a calls
  end.

Lemma credentials_new_valid at_ rt e c : credentials_new at_ rt e = Ok c → credentials_valid c.
Proof.
  unfold credentials_new. destruct (_ || _) eqn:E; [done|]. intros [= <-].
  apply orb_false_iff in E as [E E3%Z.eqb_neq]. by apply orb_false_iff in E as [E1%negb_false_iff E2%negb_false_iff].
Qed.

Lemma install_response_inv w response ring a :
  auth_inv ring a →
  let '(asked, a', r) := install_response w response a in
  auth_inv (foldl (ring_after w) ring asked) a'.
Proof.
  intros Ha. unfold install_response. destruct (checked_add _ _ _); [|done].
  destruct (credentials_new _ _ _) as [c|] eqn:Ec; [|done]. apply credentials_new_valid in Ec.
  destruct Ha as (_ & _ & Hr). cbn. destruct (is_ok (aw_save w)); split_and!; cbn; try done; naive_solver.
Qed.

Lemma auth_refresh_inv w ring a :
  auth_inv ring a →
  let '(asked, a', r) := auth_refresh w a in auth_inv (foldl (ring_after w) ring asked) a'.
Proof.
  intros Ha. unfold auth_refresh. destruct (da_credentials a); [|done]. destruct (aw_refresh w) as [t|]; [|done].
  pose proof (install_response_inv w t ring a Ha) as H. by destruct (install_response w t a) as [[l a'] r].
Qed.

Lemma auth_invalidate_inv w ring a :
  auth_inv ring a →
  let '(asked, a', r) := auth_invalidate w a in
  auth_inv (foldl (ring_after w) ring asked) a' ∧
  (is_ok r = true → a' = auth_new ∧ foldl (ring_after w) ring asked = None).
Proof.
  intros Ha. unfold auth_invalidate. destruct (aw_delete w) eqn:E; cbn; rewrite E; cbn; [|done].
  split; [|done]. by split_and!.
Qed.

Lemma auth_operation_inv op w ring a :
  (∀ c, aw_load w = Ok c → c = ring) → auth_inv ring a →
  let '(asked, a', r) := auth_operation op w a in
  auth_inv (foldl (ring_after w) ring asked) a' ∧
  (op = OpSignOut ∨ op = OpInvalidate → r = true → a' = auth_new ∧ foldl (ring_after w) ring asked = None).
Proof.
  intros Hload Ha. destruct op as [|code| | | |]; cbn [auth_operation].
  - unfold auth_restore. destruct (aw_load w) as [c|] eqn:E; cbn; [|split; [done|naive_solver]]. split; [|naive_solver].
    rewrite <- (Hload c eq_refl) in Ha |- *. destruct Ha as (H1 & H2 & H3). split_and!; cbn; [|done|done]. by destruct c.
  - unfold auth_authorize. destruct (aw_exchange w) as [t|]; [|split; [done|naive_solver]].
    pose proof (install_response_inv w t ring a Ha) as H. destruct (install_response w t a) as [[l a'] r]. split; [done|naive_solver].
  - unfold refresh_if_needed. destruct (da_credentials a) eqn:E; [|split; [done|naive_solver]].
    destruct (_ <? _); [split; [done|naive_solver]|]. pose proof (auth_refresh_inv w ring a Ha) as H.
    destruct (auth_refresh w a) as [[l a'] r]. split; [done|naive_solver].
  - unfold refresh_after_rejection. pose proof (auth_refresh_inv w ring a Ha) as H.
    destruct (auth_refresh w a) as [[l a'] r]. destruct r as [p|[| |[]]]; try (split; [done|naive_solver]).
    pose proof (auth_invalidate_inv w _ a' H) as H2. destruct (auth_invalidate w a') as [[l2 a2] [u|e]];
      rewrite foldl_app; (split; [by destruct H2|naive_solver]).
  - pose proof (auth_invalidate_inv w ring a Ha) as H. destruct (auth_invalidate w a) as [[l a'] r]. naive_solver.
  - unfold auth_sign_out. pose proof (auth_invalidate_inv w ring a Ha) as H.
    destruct (auth_invalidate w a) as [[l a'] r]. rewrite foldl_app.
    replace (foldl (ring_after w) ring (match da_credentials a with Some c => _ | None => _ end)) with ring by (by destruct (da_credentials a)).
    naive_solver.
Qed.

(** The credentials are what they claim: however the operations follow one
    another and whatever the key ring and the service answer, tokens in
    memory and in the key ring are well formed, and credentials marked as
    persisted are those in the key ring; a sign-out that succeeds leaves none
    in either. *)
Theorem credentials_consistent ring calls op w
    (Hring : ∀ c, ring = Some c → credentials_valid c) (Hloads : ring_loads ring auth_new (calls ++ [(op, w)])) :
  let '(ring', a, results) := auth_run ring auth_new (calls ++ [(op, w)]) in
  (da_persisted a = true → da_credentials a = ring' ∧ is_Some ring') ∧
  (∀ c, da_credentials a = Some c → credentials_valid c) ∧
  (op = OpSignOut → last results = Some true → da_credentials a = None ∧ ring' = None).
Proof.
  assert (auth_inv ring auth_new) as Ha by (by split_and!). revert Ha Hloads. generalize auth_new as a. clear Hring. revert ring.
  induction calls as [|[op1 w1] calls IH]; intros ring a Ha Hloads; cbn [app auth_run ring_loads] in *.
  - destruct Hloads as [Hload _]. pose proof (auth_operation_inv op w ring a Hload Ha) as H.
    destruct (auth_operation op w a) as [[l a'] r]. destruct H as [(H1 & H2 & H3) H4]. split_and!; [done|done|].
    intros Hop [= ->]. destruct (H4 (or_introl Hop) eq_refl) as [-> ->]. done.
  - destruct Hloads as [Hload Hloads]. pose proof (auth_operation_inv op1 w1 ring a Hload Ha) as H.
    destruct (auth_operation op1 w1 a) as [[l a'] r]. destruct H as [H _]. specialize (IH _ a' H Hloads).
    destruct (auth_run _ a' _) as [[ring2 a2] rs] eqn:E. destruct IH as (I1 & I2 & I3). split_and!; [done|done|].
    intros Hop Hlast. apply I3; [done|]. destruct rs as [|x rs]; [|done]. exfalso. clear -E.
    destruct calls as [|[o2 w2] calls]; cbn in E;
      [destruct (auth_operation op w a') as [[? ?] ?]; done|].
    destruct (auth_operation o2 w2 a') as [[? ?] ?]. by destruct (auth_run _ _ _) as [[? ?] ?].
Qed.

Definition example_world : AuthWorld :=
  mkAuthWorld 1000 (Err StoreUnavailable) (Ok tt) (Ok tt) (Ok (mkTokenResponse (lit "access") (lit "refresh") 60)) (Err OauthUnauthorized).

Lemma credentials_consistent_witness :
  let '(ring', a, results) := auth_run None auth_new [(OpAuthorize (lit "code"), example_world); (OpSignOut, example_world)] in
  results = [true; true] ∧ da_credentials a = None ∧ ring' = None.
Proof.
  pose proof (credentials_consistent None [(OpAuthorize (lit "code"), example_world)] OpSignOut example_world
    ltac:(done)) as H.
  cbn [app] in H. destruct (auth_run _ _ _) as [[ring' a] results] eqn:E. vm_compute in E. injection E as <- <- <-.
  split; [done|]. apply H; [|done|done]. vm_compute. by repeat split.
Defined.
