(* ===== verification/DiscordClient.v ===== *)
(** The Discord voice worker ([crates/overcrow-overlay/src/discord/client.rs]):
    the session on the local socket - authorization, the selected channel,
    its subscriptions and participants - and the loop that connects, waits
    for the gate and backs off.  Discord, the key ring, the OAuth service and
    the clock are the environment; what the worker sends, publishes and logs
    is recorded. *)

From S2P Require Import Prelude Ordered Text Decimal Timing FileSystem Watch OverlayRuntime Discord.

Definition RPC_INVALID_TOKEN : Z := 4009.
Definition RPC_ROOT_MAX : nat := 5.
Definition OPERATION_TIMEOUT : duration := from_secs 10.
Definition AUTHORIZATION_TIMEOUT : duration := from_secs (5 * 60).
Definition INITIAL_BACKOFF : duration := from_millis 250.
Definition MAXIMUM_BACKOFF : duration := from_secs 10.

(** * State *)

Record DiscordGate := mkDiscordGate { dg_lifecycle_enabled : bool; dg_active_game_authorized : bool; dg_widget_enabled : bool }.

Inductive DiscordConnectionState :=
  DcInert | DcClientNotConfigured | DcConnecting | DcAuthorizationRequired | DcAuthorizing | DcAuthenticating
| DcReady | DcDiscordUnavailable | DcFailed.

#[export] Instance DiscordConnectionState_eq_dec : EqDecision DiscordConnectionState.
Proof. solve_decision. Defined.
#[export] Instance DiscordGate_eq_dec : EqDecision DiscordGate.
Proof. solve_decision. Defined.

Definition gate_is_open (g : DiscordGate) : bool :=
  dg_lifecycle_enabled g && dg_active_game_authorized g && dg_widget_enabled g.

Definition keeps_socket_open (g : DiscordGate) (c : DiscordConnectionState) : bool :=
  gate_is_open g
  || (dg_lifecycle_enabled g && dg_widget_enabled g
      && (bool_decide (c = DcAuthorizing) || bool_decide (c = DcAuthenticating))).

Definition retains_display_on_close (g : DiscordGate) : bool := dg_lifecycle_enabled g && dg_widget_enabled g.

Record DiscordSnapshot := mkDiscordSnapshot {
  ds_generation : Z;
  ds_connection : DiscordConnectionState;
  ds_channel : option VoiceChannel;
  ds_credentials_available : bool;
  ds_credentials_persisted : bool;
  ds_client_configured : bool
}.
#[export] Instance DiscordSnapshot_eta : Eta DiscordSnapshot := λ s,
  mkDiscordSnapshot (ds_generation s) (ds_connection s) (ds_channel s) (ds_credentials_available s)
    (ds_credentials_persisted s) (ds_client_configured s).

Inductive SubscriptionCommand := Subscribe | Unsubscribe.

#[export] Instance SubscriptionCommand_eq_dec : EqDecision SubscriptionCommand.
Proof. solve_decision. Defined.

Definition subscription_command_as_str (c : SubscriptionCommand) : str :=
  match c with Subscribe => lit "SUBSCRIBE" | Unsubscribe => lit "UNSUBSCRIBE" end.

Definition matches_response (c : SubscriptionCommand) (subscribed : bool) : bool :=
  Bool.eqb subscribed (bool_decide (c = Subscribe)).

Definition subscription_command_parse (value : str) : option SubscriptionCommand :=
  if str_eqb value (lit "SUBSCRIBE") then Some Subscribe
  else if str_eqb value (lit "UNSUBSCRIBE") then Some Unsubscribe else None.

Record PendingSubscription := mkPendingSubscription {
  ps_command : SubscriptionCommand; ps_event : VoiceSubscriptionEvent; ps_channel_id : option str
}.

(** What is sent to Discord. *)
Inductive Payload :=
| PayAuthorize (client_id : str)
| PayAuthenticate (access_token : str)
| PaySubscribeSelect
| PayGetSelectedChannel
| PaySubscription (command : SubscriptionCommand) (channel_id : str) (event : VoiceSubscriptionEvent).

(** The record of what the worker does. *)
Inductive WorkerAction :=
| ActSend (nonce : str) (payload : Payload) (sent : bool)
| ActPublish (snapshot : DiscordSnapshot)
| ActHealth (call : HealthCall)
| ActAuth (request : AuthRequest).

Record Worker := mkWorker {
  wk_snapshot : DiscordSnapshot;
  wk_local_user_id : option str;
  wk_nonce : Z;
  wk_auth_loaded : bool;
  wk_refresh_attempted : bool; (* [authentication_refresh_attempted] *)
  wk_authorization_nonce : option str;
  wk_authentication_nonce : option str;
  wk_subscribed_channel : option str;
  wk_subscriptions : gmap str PendingSubscription; (* [pending_subscriptions] *)
  wk_snapshot_nonce : option str; (* [pending_channel_snapshot_nonce] *)
  wk_selected_channel : option (option str);
  wk_snapshot_received : bool;
  wk_healthy : bool; (* [session_healthy] *)
  wk_setup_deadline : option instant;
  wk_auth : DiscordAuth;
  wk_actions : list WorkerAction
}.
#[export] Instance Worker_eta : Eta Worker := λ s,
  mkWorker (wk_snapshot s) (wk_local_user_id s) (wk_nonce s) (wk_auth_loaded s) (wk_refresh_attempted s)
    (wk_authorization_nonce s) (wk_authentication_nonce s) (wk_subscribed_channel s) (wk_subscriptions s)
    (wk_snapshot_nonce s) (wk_selected_channel s) (wk_snapshot_received s) (wk_healthy s) (wk_setup_deadline s)
    (wk_auth s) (wk_actions s).

Definition worker_new (client_configured : bool) : Worker :=
  mkWorker (mkDiscordSnapshot 0 DcInert None false false client_configured) None 0 false false None None None ∅ None None
    false false None auth_new [].

(** The environment of one event: the key ring and the service, whether a
    message can be sent, by its nonce, and the clock, which goes on while
    the worker acts. *)
Record Env := mkEnv {
  ev_auth : AuthWorld;
  ev_send : str → result BackendError unit;
  ev_clock : list WorkerAction → instant
}.

(** * Operations

    A computation changes the worker and ends with a result; an error leaves
    the changes made before it. *)

Definition wk (E A : Type) : Type := Worker → Worker * result E A.

#[export] Instance wk_ret {E} : MRet (wk E) := λ A a s, (s, Ok a).
#[export] Instance wk_bind {E} : MBind (wk E) := λ A B f m s,
  match m s with (s, Ok a) => f a s | (s, Err e) => (s, Err e) end.

Definition get_worker {E} : wk E Worker := λ s, (s, Ok s).
Definition change {E} (f : Worker → Worker) : wk E unit := λ s, (f s, Ok tt).
Definition fail {E A} (e : E) : wk E A := λ s, (s, Err e).
Definition map_failure {E F A} (f : E → F) (m : wk E A) : wk F A := λ s, let '(s, r) := m s in (s, map_error f r).

Definition act (a : WorkerAction) (s : Worker) : Worker := s <| wk_actions ::= λ l, l ++ [a] |>.
Definition act_all (l : list WorkerAction) (s : Worker) : Worker := s <| wk_actions ::= λ k, k ++ l |>.

Definition set_connection (c : DiscordConnectionState) (s : Worker) : Worker :=
  s <| wk_snapshot ::= λ d, d <| ds_connection := c |> |>.
Definition set_channel (c : option VoiceChannel) (s : Worker) : Worker :=
  s <| wk_snapshot ::= λ d, d <| ds_channel := c |> |>.
Definition connection (s : Worker) : DiscordConnectionState := ds_connection (wk_snapshot s).
Definition channel (s : Worker) : option VoiceChannel := ds_channel (wk_snapshot s).

Definition reset_rpc_session (s : Worker) : Worker :=
  mkWorker (wk_snapshot s) None (wk_nonce s) (wk_auth_loaded s) (wk_refresh_attempted s) None None None ∅ None None
    false false None (wk_auth s) (wk_actions s).

Definition clear_private_state (s : Worker) : Worker := reset_rpc_session (set_channel None s).

Definition suspend_for_gate (g : DiscordGate) (s : Worker) : Worker :=
  let s := if retains_display_on_close g then s else set_channel None s in
  set_connection DcInert (reset_rpc_session s).

Definition wk_publish (s : Worker) : Worker :=
  let s := s <| wk_snapshot ::= λ d, d <| ds_generation ::= λ n, (n + 1) mod (u64_max + 1) |> |> in
  act (ActPublish (wk_snapshot s)) s.

Definition update_auth_snapshot (s : Worker) : Worker :=
  s <| wk_snapshot ::= λ d, d <| ds_credentials_available := isSome (auth_access_token (wk_auth s)) |>
                              <| ds_credentials_persisted := da_persisted (wk_auth s) |> |>.

Definition health_failed_call (c : FailureCategory) : Worker → Worker := act (ActHealth (HealthFailed c)).
Definition health_recovered_call : Worker → Worker := act (ActHealth HealthRecovered).

(** An operation on the credentials. *)
Definition use_auth {R} (f : DiscordAuth → list AuthRequest * DiscordAuth * result AuthError R) :
    wk FailureCategory (result AuthError R) := λ s,
  let '(asked, a, r) := f (wk_auth s) in (act_all (ActAuth <$> asked) (s <| wk_auth := a |>), Ok r).

Definition backend_failure_category (e : BackendError) : FailureCategory :=
  match e with BackendConnection => FcConnection | BackendTimeout => FcTimeout | BackendProtocol => FcResponse end.

(** [take_matching_nonce]: whether the nonce is the pending one. *)
Definition matching_nonce (pending : option str) (nonce : str) : bool := bool_decide (pending = Some nonce).

Definition mark_healthy (s : Worker) : Worker :=
  let s := s <| wk_setup_deadline := None |> in
  if wk_healthy s then s else health_recovered_call (s <| wk_healthy := true |>).

Definition mark_authorization_ready : Worker → Worker := mark_healthy.

Definition mark_session_healthy_if_ready (s : Worker) : Worker :=
  if wk_snapshot_received s && bool_decide (wk_subscriptions s = ∅) then mark_healthy s else s.

Section worker.
Context `{DiscordJson} (to_lowercase : str → str).

Section event.
Variable env : Env.

Definition arm_setup_deadline (timeout : duration) (s : Worker) : Worker :=
  s <| wk_setup_deadline := Some (ev_clock env (wk_actions s) + timeout) |>.

Definition begin_setup (timeout : duration) (s : Worker) : Worker :=
  arm_setup_deadline timeout (s <| wk_healthy := false |>).

Definition send_payload (payload : Payload) : wk BackendError str := λ s,
  let n := (wk_nonce s + 1) mod (u64_max + 1) in
  let nonce := show_Z n in
  let r := ev_send env nonce in
  (act (ActSend nonce payload (is_ok r)) (s <| wk_nonce := n |>), match r with Ok _ => Ok nonce | Err e => Err e end).

Definition send_authenticate (timeout : duration) : wk BackendError unit :=
  s ← get_worker;
  match auth_access_token (wk_auth s) with
  | None => fail BackendProtocol
  | Some access_token =>
      change (set_connection DcAuthenticating);;
      nonce ← send_payload (PayAuthenticate access_token);
      change (λ s, arm_setup_deadline timeout (s <| wk_authentication_nonce := Some nonce |>))
  end.

Definition request_selected_channel (timeout : duration) : wk BackendError unit :=
  nonce ← send_payload PayGetSelectedChannel;
  change (λ s, arm_setup_deadline timeout (s <| wk_snapshot_nonce := Some nonce |> <| wk_snapshot_received := false |>)).

Definition send_subscription (command : SubscriptionCommand) (channel_id : str) (event : VoiceSubscriptionEvent)
    (timeout : duration) : wk BackendError unit :=
  nonce ← send_payload (PaySubscription command channel_id event);
  change (λ s, arm_setup_deadline timeout
    (s <| wk_subscriptions ::= <[nonce := mkPendingSubscription command event (Some channel_id)]> |>)).

Fixpoint send_subscriptions (command : SubscriptionCommand) (channel_id : str) (events : list VoiceSubscriptionEvent)
    (timeout : duration) : wk BackendError unit :=
  match events with
  | [] => mret tt
  | event :: events =>
      send_subscription command channel_id event timeout;; send_subscriptions command channel_id events timeout
  end.

(** Whether an unsubscription is still to be acknowledged. *)
Definition unsubscribing (s : Worker) : bool :=
  existsb (λ p, bool_decide (ps_command p = Unsubscribe)) (snd <$> map_to_list (wk_subscriptions s)).

Definition reconcile_channel_subscriptions (timeout : duration) : wk BackendError unit :=
  s ← get_worker;
  if unsubscribing s then mret tt
  else
    let next_channel_id := vc_id <$> channel s in
    if bool_decide (wk_subscribed_channel s = next_channel_id) then mret tt
    else
      match wk_subscribed_channel s with
      | Some previous =>
          change (λ s, s <| wk_subscribed_channel := None |>);;
          send_subscriptions Unsubscribe previous CHANNEL_SCOPED timeout
      | None =>
          match next_channel_id with
          | None => mret tt
          | Some next =>
              send_subscriptions Subscribe next CHANNEL_SCOPED timeout;;
              change (λ s, s <| wk_subscribed_channel := Some next |>)
          end
      end.

(** [active_channel_mut]: a change of the channel on display, if it is the
    one subscribed to. *)
Definition change_active_channel (f : VoiceChannel → VoiceChannel) (s : Worker) : Worker :=
  match wk_subscribed_channel s, channel s with
  | Some subscribed, Some c => if str_eqb (vc_id c) subscribed then set_channel (Some (f c)) s else s
  | _, _ => s
  end.

Definition sort_channel (local_user_id : option str) (c : VoiceChannel) : VoiceChannel :=
  c <| vc_participants ::= sort_participants to_lowercase local_user_id |>.

Definition add_participant (p : VoiceParticipant) (local_user_id : option str) (c : VoiceChannel) : VoiceChannel :=
  if (length (vc_participants c) <? 64)%nat && negb (existsb (λ q, str_eqb (vp_id q) (vp_id p)) (vc_participants c))
  then sort_channel local_user_id (c <| vc_participants ::= λ l, l ++ [p] |>) else c.

(** [iter_mut().find(..)], then an assignment. *)
Fixpoint change_participant (id : str) (f : VoiceParticipant → VoiceParticipant) (l : list VoiceParticipant) :
    option (list VoiceParticipant) :=
  match l with
  | [] => None
  | p :: l => if str_eqb (vp_id p) id then Some (f p :: l) else cons p <$> change_participant id f l
  end.

Definition update_participant (p : VoiceParticipant) (local_user_id : option str) (c : VoiceChannel) : VoiceChannel :=
  match change_participant (vp_id p) (λ _, p) (vc_participants c) with
  | Some l => sort_channel local_user_id (c <| vc_participants := l |>)
  | None => c
  end.

Definition remove_participant (user_id : str) (c : VoiceChannel) : VoiceChannel :=
  c <| vc_participants ::= λ l, filter (λ p, vp_id p ≠ user_id) l |>.

Definition set_speaking (user_id : str) (speaking : bool) (local_user_id : option str) (c : VoiceChannel) : VoiceChannel :=
  let l := default (vc_participants c) (change_participant user_id (λ p, p <| vp_speaking := speaking |>) (vc_participants c)) in
  sort_channel local_user_id (c <| vc_participants := l |>).

Definition backend {A} (m : wk BackendError A) : wk FailureCategory A := map_failure backend_failure_category m.

Definition to_authorization_required : Worker → Worker := λ s,
  mark_authorization_ready (set_connection DcAuthorizationRequired s).

Definition handle_ready (timeout : duration) : wk FailureCategory unit :=
  s ← get_worker;
  (match auth_access_token (wk_auth s) with
   | None => change to_authorization_required
   | Some _ =>
       refreshed ← use_auth (refresh_if_needed (ev_auth env));
       match refreshed with
       | Ok _ => backend (send_authenticate timeout)
       | Err AuthorizationExpired => change to_authorization_required
       | Err (AuthOauth OauthUnauthorized) =>
           invalidated ← use_auth (auth_invalidate (ev_auth env));
           match invalidated with
           | Ok _ => change to_authorization_required
           | Err _ => change (λ s, health_failed_call FcIdentity (set_connection DcFailed s))
           end
       | Err _ => change (set_connection DcFailed);; fail FcIdentity
       end
   end);;
  change update_auth_snapshot.

Definition handle_authorization_granted (nonce code : str) (timeout : duration) : wk FailureCategory unit :=
  s ← get_worker;
  if negb (bool_decide (connection s = DcAuthorizing)) || negb (matching_nonce (wk_authorization_nonce s) nonce) then mret tt
  else
    change (λ s, s <| wk_authorization_nonce := None |>);;
    authorized ← use_auth (auth_authorize (ev_auth env) code);
    (match authorized with
     | Ok _ => backend (send_authenticate timeout)
     | Err _ =>
         change (λ s, health_failed_call FcIdentity (set_connection DcAuthorizationRequired s) <| wk_setup_deadline := None |>)
     end);;
    change update_auth_snapshot.

Definition handle_authenticated (nonce user_id : str) (timeout : duration) : wk FailureCategory unit :=
  s ← get_worker;
  if negb (bool_decide (connection s = DcAuthenticating)) || negb (matching_nonce (wk_authentication_nonce s) nonce) then mret tt
  else
    change (λ s, set_connection DcReady
      (s <| wk_authentication_nonce := None |> <| wk_local_user_id := Some user_id |> <| wk_refresh_attempted := false |>));;
    sent ← backend (send_payload PaySubscribeSelect);
    change (λ s, s <| wk_subscriptions ::= <[sent := mkPendingSubscription Subscribe VoiceChannelSelect None]> |>);;
    backend (request_selected_channel timeout).

(** The subscriptions that a new selection keeps waiting for. *)
Definition keeps_pending (p : PendingSubscription) : bool :=
  bool_decide (ps_command p = Unsubscribe) || isNone (ps_channel_id p).

Definition handle_channel_selected (channel_id : option str) (timeout : duration) : wk FailureCategory unit :=
  change (λ s,
    let s := if bool_decide (wk_selected_channel s = Some channel_id) then s
             else s <| wk_subscriptions ::= filter (λ kp, keeps_pending (snd kp) = true) |> in
    let s := s <| wk_selected_channel := Some channel_id |> in
    if bool_decide (channel_id = vc_id <$> channel s) then s else set_channel None s);;
  backend (reconcile_channel_subscriptions timeout);;
  backend (request_selected_channel timeout).

Definition handle_channel_snapshot (nonce : str) (c : option VoiceChannel) (timeout : duration) : wk FailureCategory unit :=
  s ← get_worker;
  if negb (matching_nonce (wk_snapshot_nonce s) nonce) then mret tt
  else
    change (λ s, s <| wk_snapshot_nonce := None |>);;
    if is_some_and (λ expected, negb (bool_decide (vc_id <$> c = expected))) (wk_selected_channel s) then fail FcValidation
    else
      change (λ s, set_channel (sort_channel (wk_local_user_id s) <$> c) (s <| wk_snapshot_received := true |>));;
      backend (reconcile_channel_subscriptions timeout);;
      change mark_session_healthy_if_ready.

Definition handle_participant_deleted (user_id : str) (s : Worker) : Worker :=
  let s := change_active_channel (remove_participant user_id) s in
  if bool_decide (wk_local_user_id s = Some user_id) then set_channel None s else s.

Definition handle_subscription_changed (subscribed : bool) (event : VoiceSubscriptionEvent) (nonce : str) (timeout : duration) :
    wk FailureCategory unit :=
  s ← get_worker;
  match wk_subscriptions s !! nonce with
  | None => mret tt
  | Some pending =>
      change (λ s, s <| wk_subscriptions ::= delete nonce |>);;
      if negb (bool_decide (ps_event pending = event)) || negb (matches_response (ps_command pending) subscribed)
      then fail FcValidation
      else
        (if bool_decide (ps_command pending = Unsubscribe) then backend (reconcile_channel_subscriptions timeout) else mret tt);;
        change mark_session_healthy_if_ready
  end.

Definition handle_authenticate_error (code : Z) (nonce : option str) (timeout : duration) : wk FailureCategory unit :=
  s ← get_worker;
  if negb (bool_decide (connection s = DcAuthenticating)) then mret tt
  else
    match nonce with
    | None => fail FcValidation
    | Some nonce =>
        if negb (matching_nonce (wk_authentication_nonce s) nonce) then mret tt
        else
          change (λ s, s <| wk_authentication_nonce := None |>);;
          if negb (code =? RPC_INVALID_TOKEN) then change (set_connection DcFailed);; fail FcResponse
          else
            (if wk_refresh_attempted s then
               invalidated ← use_auth (auth_invalidate (ev_auth env));
               match invalidated with
               | Ok _ => change (λ s, to_authorization_required (clear_private_state s))
               | Err _ => change (λ s, health_failed_call FcIdentity (set_connection DcFailed s))
               end
             else
               change (λ s, s <| wk_refresh_attempted := true |>);;
               refreshed ← use_auth (refresh_after_rejection (ev_auth env));
               match refreshed with
               | Ok _ => backend (send_authenticate timeout)
               | Err AuthorizationExpired => change (λ s, to_authorization_required (clear_private_state s))
               | Err _ => change (set_connection DcFailed);; fail FcIdentity
               end);;
            change update_auth_snapshot
    end.

Definition handle_authorize_error (nonce : option str) : wk FailureCategory unit :=
  s ← get_worker;
  if negb (bool_decide (connection s = DcAuthorizing)) then mret tt
  else
    match nonce with
    | None => fail FcValidation
    | Some nonce =>
        if negb (matching_nonce (wk_authorization_nonce s) nonce) then mret tt
        else change (λ s, health_failed_call FcIdentity (set_connection DcAuthorizationRequired (s <| wk_authorization_nonce := None |>))
                            <| wk_setup_deadline := None |>)
    end.

Definition handle_subscription_error (command : str) (nonce : option str) : wk FailureCategory unit :=
  s ← get_worker;
  match nonce with
  | None => fail FcValidation
  | Some nonce =>
      match wk_subscriptions s !! nonce with
      | None => mret tt
      | Some pending =>
          if bool_decide (subscription_command_parse command = Some (ps_command pending))
          then change (set_connection DcFailed);; fail FcResponse
          else fail FcValidation
      end
  end.

Definition handle_snapshot_error (nonce : option str) : wk FailureCategory unit :=
  s ← get_worker;
  match nonce with
  | None => fail FcValidation
  | Some nonce =>
      if negb (matching_nonce (wk_snapshot_nonce s) nonce) then mret tt
      else change (set_connection DcFailed);; fail FcResponse
  end.

Definition handle_event (event : DiscordRpcEvent) (timeout : duration) : wk FailureCategory unit :=
  match event with
  | RpcReady => handle_ready timeout
  | AuthorizationGranted nonce code => handle_authorization_granted nonce code timeout
  | Authenticated nonce user_id => handle_authenticated nonce user_id timeout
  | ChannelSelected channel_id => handle_channel_selected channel_id timeout
  | ChannelSnapshot nonce c => handle_channel_snapshot nonce c timeout
  | ParticipantCreated p => change (λ s, change_active_channel (add_participant p (wk_local_user_id s)) s)
  | ParticipantUpdated p => change (λ s, change_active_channel (update_participant p (wk_local_user_id s)) s)
  | ParticipantDeleted user_id => change (handle_participant_deleted user_id)
  | SpeakingChanged user_id speaking =>
      change (λ s, change_active_channel (set_speaking user_id speaking (wk_local_user_id s)) s)
  | SubscriptionChanged subscribed event nonce => handle_subscription_changed subscribed event nonce timeout
  | ProviderError command code nonce =>
      match command with
      | None => change (health_failed_call FcResponse)
      | Some command =>
          if str_eqb command (lit "AUTHENTICATE") then handle_authenticate_error code nonce timeout
          else if str_eqb command (lit "AUTHORIZE") then handle_authorize_error nonce
          else if isSome (subscription_command_parse command) then handle_subscription_error command nonce
          else if str_eqb command (lit "GET_SELECTED_VOICE_CHANNEL") then handle_snapshot_error nonce
          else change (health_failed_call FcResponse)
      end
  | RpcIgnored => mret tt
  end.

(** [process_sign_out]: whether the credentials were deleted. *)
Definition process_sign_out (success_state : DiscordConnectionState) (s : Worker) : Worker * bool :=
  let '(asked, a, r) := auth_sign_out (ev_auth env) (wk_auth s) in
  let s := act_all (ActAuth <$> asked) (s <| wk_auth := a |>) in
  let s := match r with
           | Ok _ => health_recovered_call (set_connection success_state (clear_private_state s))
           | Err _ => health_failed_call FcIdentity s
           end in
  (wk_publish (update_auth_snapshot (s <| wk_auth_loaded := true |>)), is_ok r).

(** * One socket *)

Inductive SocketOutcome := OutcomeShutdown | OutcomeRestart | OutcomeReconnect (c : FailureCategory).

Inductive DiscordCommand := CommandConnect | CommandSignOut.

(** What one turn of [run_socket] finds first. *)
Inductive SocketInput :=
| SocketDeadline                                                    (* the setup deadline has passed *)
| SocketMessage (message : result BackendError (option (list Z)))  (* [None]: closed *)
| SocketCommand (command : option DiscordCommand)                   (* [None]: the interface is gone *)
| SocketGate (alive : bool)                                         (* the gate changed, or its sender is gone *)
| SocketShutdown (alive value : bool).

Definition parse_failure_category (e : RpcParseError) : FailureCategory :=
  match e with RpcOversized => FcContent | RpcMalformed => FcParse | RpcInvalidData => FcValidation end.

Definition suspend_restart (gate : DiscordGate) (s : Worker) : Worker * option SocketOutcome :=
  (wk_publish (suspend_for_gate gate s), Some OutcomeRestart).

Definition run_socket_step (client_id : str) (gate : DiscordGate) (input : SocketInput) (s : Worker) :
    Worker * option SocketOutcome :=
  match input with
  | SocketDeadline =>
      match wk_setup_deadline s with Some _ => (s, Some (OutcomeReconnect FcTimeout)) | None => (s, None) end
  | SocketMessage (Err e) => (s, Some (OutcomeReconnect (backend_failure_category e)))
  | SocketMessage (Ok None) => (s, Some (OutcomeReconnect FcConnection))
  | SocketMessage (Ok (Some raw)) =>
      match parse_rpc_message raw with
      | Err e => (health_failed_call (parse_failure_category e) s, None)
      | Ok event =>
          match handle_event event OPERATION_TIMEOUT s with
          | (s, Err category) => (s, Some (OutcomeReconnect category))
          | (s, Ok _) => if negb (keeps_socket_open gate (connection s)) then suspend_restart gate s else (wk_publish s, None)
          end
      end
  | SocketCommand (Some CommandConnect) =>
      if bool_decide (connection s = DcAuthorizationRequired) then
        match send_payload (PayAuthorize client_id) (set_connection DcAuthorizing s) with
        | (s, Err e) => (s, Some (OutcomeReconnect (backend_failure_category e)))
        | (s, Ok nonce) => (wk_publish (begin_setup AUTHORIZATION_TIMEOUT (s <| wk_authorization_nonce := Some nonce |>)), None)
        end
      else (s, None)
  | SocketCommand (Some CommandSignOut) =>
      let '(s, deleted) := process_sign_out DcAuthorizationRequired s in
      (s, if deleted then Some OutcomeRestart else None)
  | SocketCommand None => (s, Some OutcomeShutdown)
  | SocketGate alive =>
      if negb alive || negb (keeps_socket_open gate (connection s)) then suspend_restart gate s else (s, None)
  | SocketShutdown alive value => (s, if negb alive || value then Some OutcomeShutdown else None)
  end.
End event.
End worker.

(** * The worker's loop *)

Definition valid_client_id (value : str) : bool :=
  (17 <=? str_len value) && (str_len value <=? 32) && forallb is_ascii_digit value.

(** [rpc_socket_candidates]: ten names under each of the first five
    distinct absolute roots. *)
Fixpoint distinct_paths (seen roots : list path) : list path :=
  match roots with
  | [] => []
  | root :: roots => if path_mem root seen then distinct_paths seen roots else root :: distinct_paths (root :: seen) roots
  end.

Definition rpc_socket_candidates (roots : list path) : list path :=
  take RPC_ROOT_MAX (distinct_paths [] (filter (λ r, path_is_absolute r = true) roots))
    ≫= λ root, (λ slot, path_join root (lit "discord-ipc-" ++ show_Z slot)) <$> seqZ 0 10.

Inductive ProviderPhase :=
| PvTop              (* at the top of the loop *)
| PvGateWait         (* in [wait_for_open_gate] *)
| PvUnconfigured     (* in [wait_while_unconfigured] *)
| PvDiscover         (* connecting to the candidates *)
| PvSocket           (* in [run_socket] *)
| PvDelay            (* in [interruptible_delay] *)
| PvEnded.

Record DiscordProvider := mkDiscordProvider {
  pv_worker : Worker;
  pv_phase : ProviderPhase;
  pv_backoff : duration;
  pv_gate : watch DiscordGate;
  pv_gate_seen : nat;
  pv_shutdown : bool;
  pv_senders : bool            (* the interface is alive *)
}.
#[export] Instance DiscordProvider_eta : Eta DiscordProvider := λ p,
  mkDiscordProvider (pv_worker p) (pv_phase p) (pv_backoff p) (pv_gate p) (pv_gate_seen p) (pv_shutdown p)
    (pv_senders p).

(** What happens: the interface sets the gate or goes away; the worker goes
    on, finding a candidate that accepts it or none; or one of the futures it
    waits for completes. *)
Inductive ProviderInput :=
| PiSetGate (gate : DiscordGate)
| PiDrop
| PiContinue (env : Env)
| PiConnected (connects : path → bool) (env : Env)
| PiGateChanged (env : Env)
| PiShutdown (env : Env)
| PiCommand (command : option DiscordCommand) (env : Env)
| PiMessage (message : result BackendError (option (list Z))) (env : Env)
| PiDeadline (env : Env)
| PiDelayed.

Section provider.
Context `{DiscordJson} (to_lowercase : str → str) (client_id : str) (rpc_paths : list path).

Definition provider_spawned : DiscordProvider :=
  mkDiscordProvider (wk_publish (worker_new (valid_client_id client_id))) PvTop INITIAL_BACKOFF
    (watch_channel (mkDiscordGate false false false)) 0 false true.

Definition on_worker (f : Worker → Worker) (p : DiscordProvider) : DiscordProvider := p <| pv_worker ::= f |>.
Definition to_phase (phase : ProviderPhase) (p : DiscordProvider) : DiscordProvider := p <| pv_phase := phase |>.

(** From an open gate on: the credentials are loaded once, and a socket is
    looked for. *)
Definition after_gate (env : Env) (p : DiscordProvider) : DiscordProvider :=
  let p := on_worker (λ s,
    if wk_auth_loaded s then s
    else
      let '(asked, a, r) := auth_restore (ev_auth env) (wk_auth s) in
      let s := act_all (ActAuth <$> asked) (s <| wk_auth := a |>) in
      let s := if is_ok r then s else health_failed_call FcIdentity s in
      wk_publish (update_auth_snapshot (s <| wk_auth_loaded := true |>))) p in
  if valid_client_id client_id
  then to_phase PvDiscover (on_worker (λ s, wk_publish (set_connection DcConnecting s)) p)
  else to_phase PvUnconfigured (on_worker (λ s, wk_publish (set_connection DcClientNotConfigured s)) p).

Definition at_top (env : Env) (p : DiscordProvider) : DiscordProvider :=
  if pv_shutdown p then to_phase PvEnded p
  else
    let gate := w_value (pv_gate p) in
    if gate_is_open gate then after_gate env p
    else to_phase PvGateWait (on_worker (λ s, wk_publish (suspend_for_gate gate s)) p).

(** [discover]: the first candidate that accepts a connection. *)
Definition discover (connects : path → bool) : bool := existsb connects rpc_paths.

Definition longer (backoff : duration) : duration := Z.min (backoff * 2) MAXIMUM_BACKOFF.

Definition socket_ended (outcome : SocketOutcome) (p : DiscordProvider) : DiscordProvider :=
  let healthy := wk_healthy (pv_worker p) in
  match outcome with
  | OutcomeShutdown => to_phase PvEnded p
  | OutcomeRestart => to_phase PvTop (p <| pv_backoff := INITIAL_BACKOFF |>)
  | OutcomeReconnect category =>
      let p := if healthy then p <| pv_backoff := INITIAL_BACKOFF |> else p in
      let p := on_worker (λ s,
        let s := if bool_decide (connection s = DcFailed) then clear_private_state s else reset_rpc_session s in
        health_failed_call category (wk_publish (set_connection DcConnecting s))) p in
      to_phase PvDelay p
  end.

Definition socket_step (env : Env) (input : SocketInput) (p : DiscordProvider) : DiscordProvider :=
  let '(s, outcome) := run_socket_step to_lowercase env client_id (w_value (pv_gate p)) input (pv_worker p) in
  let p := p <| pv_worker := s |> in
  match outcome with None => p | Some outcome => socket_ended outcome p end.

Definition sign_out_while_waiting (env : Env) (state : DiscordConnectionState) (p : DiscordProvider) : DiscordProvider :=
  on_worker (λ s, fst (process_sign_out env state s)) p.

Definition provider_step (p : DiscordProvider) (i : ProviderInput) : option DiscordProvider :=
  match i with
  | PiSetGate gate =>
      if negb (pv_senders p) then None
      else Some (if bool_decide (w_value (pv_gate p) = gate) then p else p <| pv_gate ::= λ w, send_replace w gate |>)
  | PiDrop => Some (p <| pv_shutdown := true |> <| pv_senders := false |>)
  | PiContinue env => match pv_phase p with PvTop => Some (at_top env p) | _ => None end
  | PiConnected connects env =>
      match pv_phase p with
      | PvDiscover =>
          Some (if discover connects then
                  to_phase PvSocket (on_worker (λ s, arm_setup_deadline env OPERATION_TIMEOUT s) p)
                else
                  to_phase PvDelay (on_worker (λ s,
                    health_failed_call FcDiscovery (wk_publish (set_connection DcDiscordUnavailable s))) p))
      | _ => None
      end
  | PiGateChanged env =>
      if negb (has_changed (pv_gate_seen p) (pv_gate p)) && pv_senders p then None
      else
        let alive := has_changed (pv_gate_seen p) (pv_gate p) in
        let p := p <| pv_gate_seen := w_version (pv_gate p) |> in
        match pv_phase p with
        | PvGateWait =>
            Some (if negb alive then to_phase PvEnded p
                  else if gate_is_open (w_value (pv_gate p)) then after_gate env p else p)
        | PvUnconfigured => Some (to_phase (if alive then PvTop else PvEnded) p)
        | PvDelay => Some (if alive then to_phase PvTop (p <| pv_backoff ::= longer |>) else to_phase PvEnded p)
        | PvSocket => Some (socket_step env (SocketGate alive) p)
        | _ => None
        end
  | PiShutdown env =>
      if negb (pv_shutdown p) then None
      else
        match pv_phase p with
        | PvGateWait | PvUnconfigured | PvDelay => Some (to_phase PvEnded p)
        | PvSocket => Some (socket_step env (SocketShutdown true true) p)
        | _ => None
        end
  | PiCommand command env =>
      match command with
      | None => if pv_senders p then None else
          match pv_phase p with
          | PvGateWait | PvUnconfigured => Some (to_phase PvEnded p)
          | PvSocket => Some (socket_step env (SocketCommand None) p)
          | _ => None
          end
      | Some c =>
          match pv_phase p, c with
          | PvGateWait, CommandSignOut => Some (sign_out_while_waiting env DcInert p)
          | PvUnconfigured, CommandSignOut => Some (sign_out_while_waiting env DcClientNotConfigured p)
          | PvGateWait, CommandConnect | PvUnconfigured, CommandConnect => Some p
          | PvSocket, _ => Some (socket_step env (SocketCommand (Some c)) p)
          | _, _ => None
          end
      end
  | PiMessage message env => match pv_phase p with PvSocket => Some (socket_step env (SocketMessage message) p) | _ => None end
  | PiDeadline env => match pv_phase p with PvSocket => Some (socket_step env SocketDeadline p) | _ => None end
  | PiDelayed => match pv_phase p with PvDelay => Some (to_phase PvTop (p <| pv_backoff ::= longer |>)) | _ => None end
  end.

Fixpoint provider_run (p : DiscordProvider) (inputs : list ProviderInput) : option DiscordProvider :=
  match inputs with
  | [] => Some p
  | i :: inputs => p ← provider_step p i; provider_run p inputs
  end.
End provider.

(** * What the operations keep *)

(** An assertion that a computation keeps, whatever its result. *)
Definition keeps {E A} (P : Worker → Prop) (m : wk E A) : Prop := ∀ s, P s → P (fst (m s)).

Section keeps.
Context (P : Worker → Prop).

Lemma keeps_ret {E A} (a : A) : keeps P (mret a : wk E A).
Proof. by intros s. Qed.

Lemma keeps_fail {E A} (e : E) : keeps P (fail e : wk E A).
Proof. by intros s. Qed.

Lemma keeps_get {E} : keeps P (get_worker : wk E Worker).
Proof. by intros s. Qed.

Lemma keeps_bind {E A B} (m : wk E A) (f : A → wk E B) : keeps P m → (∀ a, keeps P (f a)) → keeps P (m ≫= f).
Proof.
  intros Hm Hf s Hs. specialize (Hm s Hs). unfold mbind, wk_bind. destruct (m s) as [s' [a|e]]; [by apply Hf|done].
Qed.

Lemma keeps_change {E} (f : Worker → Worker) : (∀ s, P s → P (f s)) → keeps P (change f : wk E unit).
Proof. intros Hf s Hs. by apply Hf. Qed.

Lemma keeps_map_failure {E F A} (f : E → F) (m : wk E A) : keeps P m → keeps P (map_failure f m).
Proof. intros Hm s Hs. specialize (Hm s Hs). unfold map_failure. by destruct (m s). Qed.

Lemma keeps_use_auth {R} (f : DiscordAuth → list AuthRequest * DiscordAuth * result AuthError R) :
  (∀ s a l, P s → P (act_all (ActAuth <$> l) (s <| wk_auth := a |>))) → keeps P (use_auth f).
Proof. intros HP s Hs. unfold use_auth. destruct (f (wk_auth s)) as [[l a] r]. by apply HP. Qed.
End keeps.

Ltac keep :=
  repeat match goal with
  | |- keeps _ (mbind _ _) => apply keeps_bind; [|intros ?]
  | |- keeps _ (mret _) => apply keeps_ret
  | |- keeps _ (fail _) => apply keeps_fail
  | |- keeps _ get_worker => apply keeps_get
  | |- keeps _ (map_failure _ _) => apply keeps_map_failure
  | |- keeps _ (match ?x with _ => _ end) => destruct x
  end.

(** ** The channel on display *)

Section display.
Context `{DiscordJson} (to_lowercase : str → str).

(** A channel fit to show: of accepted fields, with at most 64 participants,
    sorted. *)
Definition presentable (c : VoiceChannel) : Prop :=
  channel_ok c ∧ ∃ local_user_id, participants_sorted to_lowercase local_user_id (vc_participants c).

Definition published_ok (a : WorkerAction) : Prop :=
  match a with ActPublish d => ∀ c, ds_channel d = Some c → presentable c | _ => True end.

Definition display_ok (s : Worker) : Prop :=
  (∀ c, channel s = Some c → presentable c) ∧ Forall published_ok (wk_actions s).

Lemma display_ok_same s s' :
  channel s' = channel s → (∃ l, wk_actions s' = wk_actions s ++ l ∧ Forall published_ok l) → display_ok s → display_ok s'.
Proof.
  intros Hc (l & Ha & Hl) [H1 H2]. split; [by rewrite Hc|]. rewrite Ha. by apply Forall_app.
Qed.

Lemma display_ok_act a s : published_ok a → display_ok s → display_ok (act a s).
Proof. intros Ha. apply display_ok_same; [done|]. exists [a]. split; [done|]. by apply Forall_singleton. Qed.

Lemma display_ok_auth l a s : display_ok s → display_ok (act_all (ActAuth <$> l) (s <| wk_auth := a |>)).
Proof. apply display_ok_same; [done|]. eexists. split; [done|]. by apply Forall_fmap, Forall_true. Qed.

Lemma display_ok_publish s : display_ok s → display_ok (wk_publish s).
Proof.
  intros Hs. unfold wk_publish. apply display_ok_act.
  - destruct Hs as [Hs _]. exact Hs.
  - revert Hs. apply display_ok_same; [done|]. exists []. by rewrite app_nil_r.
Qed.

Lemma display_ok_set_channel c s : (∀ v, c = Some v → presentable v) → display_ok s → display_ok (set_channel c s).
Proof. intros Hc [_ H2]. by split. Qed.
End display.

Section display_steps.
Context `{DiscordJson} (to_lowercase : str → str).
Abbreviation presentable := (presentable to_lowercase).
Abbreviation display_ok := (display_ok to_lowercase).

Lemma presentable_sorted c lid l :
  channel_ok c → (length l ≤ DISCORD_PARTICIPANT_MAX)%nat → Forall participant_ok l →
  presentable (sort_channel to_lowercase lid (c <| vc_participants := l |>)).
Proof.
  intros (Hid & Hname & _ & _) Hlen Hl. pose proof (sort_by_key_perm (participant_key to_lowercase lid) l) as Hp.
  split; [split_and!; cbn; [done|done| |]|exists lid; apply sort_by_key_sorted].
  - unfold sort_participants. by rewrite Hp.
  - unfold sort_participants. by rewrite Hp.
Qed.

Lemma presentable_sort c lid : channel_ok c → presentable (sort_channel to_lowercase lid c).
Proof. intros Hc. pose proof Hc as (_ & _ & Hl & Hf). by apply (presentable_sorted c lid (vc_participants c)). Qed.

Lemma presentable_add p lid c : participant_ok p → presentable c → presentable (add_participant to_lowercase p lid c).
Proof.
  intros Hp [Hc Hs]. unfold add_participant. destruct (_ && _) eqn:E; [|by split].
  apply andb_true_iff in E as [E%Nat.ltb_lt _]. pose proof Hc as (_ & _ & _ & Hf).
  apply (presentable_sorted c lid (vc_participants c ++ [p])); [done| |].
  - rewrite length_app. cbn. unfold DISCORD_PARTICIPANT_MAX. lia.
  - apply Forall_app. split; [done|by apply Forall_singleton].
Qed.

Lemma change_participant_ok id f l l' :
  change_participant id f l = Some l' → Forall participant_ok l → (∀ p, participant_ok p → participant_ok (f p)) →
  length l' = length l ∧ Forall participant_ok l'.
Proof.
  intros E Hl Hf. revert l' E. induction Hl as [|p l Hp Hl IH]; intros l' E; cbn in E; [done|].
  destruct (str_eqb (vp_id p) id).
  - injection E as <-. split; [done|]. constructor; [by apply Hf|done].
  - destruct (change_participant id f l) as [l1|]; [|done]. injection E as <-. destruct (IH _ eq_refl) as [E1 E2].
    split; [cbn; by rewrite E1|by constructor].
Qed.

Lemma presentable_update p lid c : participant_ok p → presentable c → presentable (update_participant to_lowercase p lid c).
Proof.
  intros Hp [Hc Hs]. unfold update_participant. destruct (change_participant _ _ _) as [l|] eqn:E; [|by split].
  pose proof Hc as (_ & _ & Hl & Hf). apply change_participant_ok in E as [E1 E2]; [|done|done].
  apply presentable_sorted; [done|by rewrite E1|done].
Qed.

Lemma presentable_speaking user_id speaking lid c : presentable c → presentable (set_speaking to_lowercase user_id speaking lid c).
Proof.
  intros [Hc Hs]. unfold set_speaking. pose proof Hc as (_ & _ & Hl & Hf).
  destruct (change_participant _ _ _) as [l|] eqn:E; cbn; [|by apply presentable_sort].
  apply change_participant_ok in E as [E1 E2]; [|done|done]. apply presentable_sorted; [done|by rewrite E1|done].
Qed.

Lemma StronglySorted_filter {A} (R : A → A → Prop) (P : A → Prop) `{∀ x, Decision (P x)} l :
  StronglySorted R l → StronglySorted R (filter P l).
Proof.
  induction 1 as [|x l Hl IH Hx]; [constructor|]. rewrite filter_cons. destruct (decide (P x)); [|done].
  constructor; [done|]. apply Forall_forall. intros y Hy. apply list_elem_of_filter in Hy as [_ Hy].
  rewrite Forall_forall in Hx. by apply Hx.
Qed.

Lemma presentable_remove user_id c : presentable c → presentable (remove_participant user_id c).
Proof.
  intros [(H1 & H2 & H3 & H4) (lid & Hs)]. split; [split_and!; cbn; [done|done| |]|exists lid; by apply StronglySorted_filter].
  - etrans; [apply length_filter|done].
  - apply Forall_forall. intros p Hp. apply list_elem_of_filter in Hp as [_ Hp]. rewrite Forall_forall in H4. by apply H4.
Qed.

Lemma display_ok_active f s :
  (∀ c, presentable c → presentable (f c)) → display_ok s → display_ok (change_active_channel f s).
Proof.
  intros Hf Hs. unfold change_active_channel. destruct (wk_subscribed_channel s); [|done].
  destruct (channel s) as [c|] eqn:E; [|done]. destruct (str_eqb _ _); [|done].
  apply display_ok_set_channel; [|done]. intros v [= <-]. apply Hf. by apply (proj1 Hs).
Qed.

Lemma display_ok_mark s : display_ok s → display_ok (mark_healthy s).
Proof. intros Hs. unfold mark_healthy. cbn. destruct (wk_healthy s); [done|]. by apply display_ok_act. Qed.

Lemma display_ok_mark_ready s : display_ok s → display_ok (mark_session_healthy_if_ready s).
Proof. intros Hs. unfold mark_session_healthy_if_ready. destruct (_ && _); [by apply display_ok_mark|done]. Qed.

Lemma display_ok_required s : display_ok s → display_ok (to_authorization_required s).
Proof. intros Hs. by apply display_ok_mark. Qed.

Lemma display_ok_clear s : display_ok s → display_ok (clear_private_state s).
Proof. intros Hs. apply (display_ok_set_channel to_lowercase None); [done|done]. Qed.

Lemma display_ok_failed_call c s : display_ok s → display_ok (health_failed_call c s).
Proof. by apply display_ok_act. Qed.

Lemma display_ok_use_auth {R} (f : DiscordAuth → list AuthRequest * DiscordAuth * result AuthError R) : keeps display_ok (use_auth f).
Proof. apply keeps_use_auth. intros. by apply display_ok_auth. Qed.

Section event.
Context (env : Env).

Lemma display_ok_send payload : keeps display_ok (send_payload env payload).
Proof. intros s Hs. by apply display_ok_act. Qed.

(** A change that touches neither the channel nor the record. *)
Lemma keeps_display_change {E} (f : Worker → Worker) :
  (∀ s, channel (f s) = channel s ∧ wk_actions (f s) = wk_actions s) → keeps display_ok (change f : wk E unit).
Proof.
  intros Hf. apply keeps_change. intros s Hs. destruct (Hf s) as [H1 H2]. unfold DiscordClient.display_ok. by rewrite H1, H2.
Qed.

Lemma display_ok_authenticate timeout : keeps display_ok (send_authenticate env timeout).
Proof. unfold send_authenticate. keep; first [apply display_ok_send|by apply keeps_display_change]. Qed.

Lemma display_ok_request timeout : keeps display_ok (request_selected_channel env timeout).
Proof. unfold request_selected_channel. keep; first [apply display_ok_send|by apply keeps_display_change]. Qed.

Lemma display_ok_subscriptions command id events timeout : keeps display_ok (send_subscriptions env command id events timeout).
Proof.
  induction events as [|e events IH]; cbn [send_subscriptions]; keep; [|exact IH].
  unfold send_subscription. keep; first [apply display_ok_send|by apply keeps_display_change].
Qed.

Lemma display_ok_reconcile timeout : keeps display_ok (reconcile_channel_subscriptions env timeout).
Proof.
  unfold reconcile_channel_subscriptions. keep; first [apply display_ok_subscriptions|by apply keeps_display_change].
Qed.

Lemma handle_event_display event timeout :
  event_ok event → keeps display_ok (handle_event to_lowercase env event timeout).
Proof.
  intros He. unfold handle_event. destruct event as [|nonce code|nonce uid|id|nonce c|p|p|uid|uid speaking|sub ev nonce|cmd code nonce|].
  - unfold handle_ready, backend. keep; first [apply display_ok_use_auth|apply display_ok_authenticate|by apply keeps_display_change
      |apply keeps_change; intros; by apply display_ok_required|apply keeps_change; intros; by apply display_ok_failed_call].
  - unfold handle_authorization_granted, backend. keep; first [apply display_ok_use_auth|apply display_ok_authenticate
      |by apply keeps_display_change|apply keeps_change; intros s Hs; by apply (display_ok_failed_call FcIdentity s)].
  - unfold handle_authenticated, backend. keep; first [apply display_ok_send|apply display_ok_request|by apply keeps_display_change].
  - unfold handle_channel_selected, backend. keep; try first [apply display_ok_reconcile|apply display_ok_request].
    apply keeps_change. intros s Hs. cbn zeta. case_bool_decide; case_bool_decide; try exact Hs;
      by apply (display_ok_set_channel to_lowercase None).
  - unfold handle_channel_snapshot, backend. keep; try first [apply display_ok_reconcile|by apply keeps_display_change
      |apply keeps_change; intros; by apply display_ok_mark_ready].
    apply keeps_change. intros s Hs. apply display_ok_set_channel; [|exact Hs].
    intros v Hv. destruct c as [c|]; [|done]. injection Hv as <-. apply presentable_sort. by apply He.
  - apply keeps_change. intros s Hs. apply display_ok_active; [|done]. intros c. by apply presentable_add.
  - apply keeps_change. intros s Hs. apply display_ok_active; [|done]. intros c. by apply presentable_update.
  - apply keeps_change. intros s Hs. unfold handle_participant_deleted.
    assert (display_ok (change_active_channel (remove_participant uid) s)) as H1
      by (apply display_ok_active; [|done]; intros c; apply presentable_remove).
    case_bool_decide; [|done]. by apply display_ok_set_channel.
  - apply keeps_change. intros s Hs. apply display_ok_active; [|done]. intros c. apply presentable_speaking.
  - unfold handle_subscription_changed, backend. keep; first [apply display_ok_reconcile|by apply keeps_display_change
      |apply keeps_change; intros; by apply display_ok_mark_ready].
  - unfold handle_authenticate_error, handle_authorize_error, handle_subscription_error, handle_snapshot_error, backend.
    keep; first [apply display_ok_use_auth|apply display_ok_authenticate|by apply keeps_display_change
      |apply keeps_change; intros; by apply display_ok_required, display_ok_clear
      |apply keeps_change; intros; by apply display_ok_failed_call
      |apply keeps_change; intros s Hs; by apply (display_ok_failed_call FcIdentity s)].
  - apply keeps_ret.
Qed.
End event.
End display_steps.

Section provider_display.
Context `{DiscordJson} (to_lowercase : str → str) (client_id : str) (rpc_paths : list path).
Abbreviation display_ok := (display_ok to_lowercase).

Lemma display_ok_suspend gate s : display_ok s → display_ok (suspend_for_gate gate s).
Proof.
  intros Hs. unfold suspend_for_gate. destruct (retains_display_on_close gate); [exact Hs|].
  by apply (display_ok_set_channel to_lowercase None s).
Qed.

Lemma display_ok_sign_out env state s : display_ok s → display_ok (fst (process_sign_out env state s)).
Proof.
  intros Hs. unfold process_sign_out. destruct (auth_sign_out (ev_auth env) (wk_auth s)) as [[asked a] r]. cbn [fst].
  apply display_ok_publish.
  assert (display_ok (act_all (ActAuth <$> asked) (s <| wk_auth := a |>))) as H1 by by apply display_ok_auth.
  revert H1. generalize (act_all (ActAuth <$> asked) (s <| wk_auth := a |>)) as s1. intros s1 H1.
  assert (display_ok (match r with Ok _ => health_recovered_call (set_connection state (clear_private_state s1))
    | Err _ => health_failed_call FcIdentity s1 end)) as H2.
  { destruct r; [|by apply display_ok_failed_call]. apply display_ok_act; [done|]. by apply display_ok_clear. }
  revert H2. generalize (match r with Ok _ => health_recovered_call (set_connection state (clear_private_state s1))
    | Err _ => health_failed_call FcIdentity s1 end) as s2. intros s2 H2. exact H2.
Qed.

Lemma display_ok_socket env gate input s :
  display_ok s → display_ok (fst (run_socket_step to_lowercase env client_id gate input s)).
Proof.
  intros Hs. unfold run_socket_step, suspend_restart. destruct input as [|message|command|alive|alive value].
  - by destruct (wk_setup_deadline s).
  - destruct message as [[raw|]|e]; [|done|done]. destruct (parse_rpc_message raw) as [event|e] eqn:Ep; [|by apply display_ok_failed_call].
    pose proof (handle_event_display to_lowercase env event OPERATION_TIMEOUT (parse_rpc_message_ok _ _ Ep) s Hs) as He.
    destruct (handle_event _ _ _ _ s) as [s' [u|e]]; cbn in He; [|done].
    destruct (negb _); cbn; apply display_ok_publish; [by apply display_ok_suspend|done].
  - destruct command as [[|]|]; [| |done].
    + case_bool_decide; [|done].
      pose proof (display_ok_send to_lowercase env (PayAuthorize client_id) (set_connection DcAuthorizing s) Hs) as H1.
      destruct (send_payload env _ _) as [s' [nonce|e]]; cbn in *; [|done]. by apply display_ok_publish.
    + pose proof (display_ok_sign_out env DcAuthorizationRequired s Hs) as H1. by destruct (process_sign_out env _ s).
  - destruct (_ || _); [|done]. by apply display_ok_publish, display_ok_suspend.
  - done.
Qed.

Lemma display_ok_after_gate env p : display_ok (pv_worker p) → display_ok (pv_worker (after_gate client_id env p)).
Proof.
  intros Hp. unfold after_gate. set (p1 := on_worker _ p).
  assert (display_ok (pv_worker p1)) as H1.
  { subst p1. cbn. destruct (wk_auth_loaded (pv_worker p)); [done|].
    destruct (auth_restore (ev_auth env) (wk_auth (pv_worker p))) as [[asked a] r]. apply display_ok_publish.
    assert (display_ok (act_all (ActAuth <$> asked) (pv_worker p <| wk_auth := a |>))) as H2 by by apply display_ok_auth.
    destruct (is_ok r); [exact H2|]. exact (display_ok_failed_call to_lowercase FcIdentity _ H2). }
  clearbody p1. destruct (valid_client_id client_id); cbn; by apply display_ok_publish.
Qed.

Lemma display_ok_step p i p' :
  display_ok (pv_worker p) → provider_step to_lowercase client_id rpc_paths p i = Some p' → display_ok (pv_worker p').
Proof.
  intros Hp Hstep.
  assert (∀ env input q, display_ok (pv_worker q) → display_ok (pv_worker (socket_step to_lowercase client_id env input q))) as Hsock.
  { intros env input q Hq. unfold socket_step.
    pose proof (display_ok_socket env (w_value (pv_gate q)) input (pv_worker q) Hq) as H1.
    destruct (run_socket_step _ _ _ _ _ _) as [s [outcome|]]; [|done]. cbn in H1. destruct outcome; [done|done|].
    unfold socket_ended. cbn. apply display_ok_failed_call, display_ok_publish.
    destruct (wk_healthy s); cbn; (case_bool_decide; [by apply display_ok_clear|done]). }
  destruct i as [gate| |env|connects env|env|env|command env|message env|env|]; cbn [provider_step] in Hstep.
  - destruct (negb _); [done|]. injection Hstep as <-. by case_bool_decide.
  - by injection Hstep as <-.
  - destruct (pv_phase p); try done. injection Hstep as <-. unfold at_top. destruct (pv_shutdown p); [done|].
    destruct (gate_is_open _); [by apply display_ok_after_gate|]. cbn. by apply display_ok_publish, display_ok_suspend.
  - destruct (pv_phase p); try done. injection Hstep as <-. destruct (discover _ _); [done|]. cbn.
    by apply display_ok_failed_call, display_ok_publish.
  - destruct (_ && _); [done|]. cbn in Hstep. destruct (pv_phase p); try done; injection Hstep as <-.
    + destruct (negb _); [done|]. destruct (gate_is_open _); [by apply display_ok_after_gate|done].
    + done.
    + by apply Hsock.
    + by destruct (has_changed _ _).
  - destruct (negb _); [done|]. destruct (pv_phase p); try done; injection Hstep as <-; [done|done|by apply Hsock|done].
  - destruct command as [c|].
    + destruct (pv_phase p), c; try done; injection Hstep as <-; try done; try (by apply Hsock); by apply display_ok_sign_out.
    + destruct (pv_senders p); [done|]. destruct (pv_phase p); try done; injection Hstep as <-; [done|done|by apply Hsock].
  - destruct (pv_phase p); try done. injection Hstep as <-. by apply Hsock.
  - destruct (pv_phase p); try done. injection Hstep as <-. by apply Hsock.
  - destruct (pv_phase p); try done. by injection Hstep as <-.
Qed.

(** C27 What the overlay is given to show of Discord is always fit to show:
    whatever Discord sends and however the interface, the key ring, the
    service and time play along, every channel ever published has short
    plain names and ids, at most 64 participants, and these sorted - the
    user first, then who speaks, then by name. *)
Theorem discord_display_presentable inputs p
    (Hrun : provider_run to_lowercase client_id rpc_paths (provider_spawned client_id) inputs = Some p) :
  Forall (published_ok to_lowercase) (wk_actions (pv_worker p)).
Proof.
  enough (∀ q, display_ok (pv_worker q) → provider_run to_lowercase client_id rpc_paths q inputs = Some p → display_ok (pv_worker p)) as Hall.
  { refine (proj2 (Hall _ _ Hrun)). cbn. apply display_ok_publish. by split. }
  clear Hrun. induction inputs as [|i inputs IH]; intros q Hq Hrun; cbn in Hrun; [by injection Hrun as <-|].
  destruct (provider_step _ _ _ q i) as [q1|] eqn:E; [|done]. cbn in Hrun. apply (IH q1); [|done]. by eapply display_ok_step.
Qed.
End provider_display.

(** * A session, as an example

    JSON decoded as the wire data of a session: a message is one byte, the
    number of its row in the table. *)
Module Session.

Inductive ExampleJson :=
| ExNull
| ExUser (u : WireUser)
| ExChannel (c : WireChannel)
| ExSubscription (evt : str).

Definition example_user (id : string) : WireUser := mkWireUser (lit id) (lit id) None None.
Definition example_state (id : string) : WireVoiceState :=
  mkWireVoiceState None false false (mkWireVoiceFlags false false false false false) (example_user id).
Definition example_wire_channel : WireChannel := mkWireChannel (lit "7") (Some (lit "Raid")) [example_state "31"; example_state "30"].

Definition example_envelope (bytes : list Z) : option (WireEnvelope ExampleJson) :=
  match bytes with
  | [0] => Some (mkWireEnvelope (lit "DISPATCH") ExNull (Some (lit "READY")) None)
  | [1] => Some (mkWireEnvelope (lit "AUTHENTICATE") (ExUser (example_user "30")) None (Some (lit "1")))
  | [2] => Some (mkWireEnvelope (lit "GET_SELECTED_VOICE_CHANNEL") (ExChannel example_wire_channel) None (Some (lit "3")))
  | [3] => Some (mkWireEnvelope (lit "SUBSCRIBE") (ExSubscription (lit "VOICE_CHANNEL_SELECT")) None (Some (lit "2")))
  | _ => None
  end.

#[export] Instance example_json : DiscordJson := {|
  json := ExampleJson;
  json_is_null j := match j with ExNull => true | _ => false end;
  decode_envelope := example_envelope;
  decode_authorization _ := None;
  decode_authentication j := match j with ExUser u => Some u | _ => None end;
  decode_channel_select _ := None;
  decode_channel j := match j with ExChannel c => Some c | _ => None end;
  decode_voice_state _ := None;
  decode_speaking _ := None;
  decode_deleted _ := None;
  decode_error _ := None;
  decode_subscription j := match j with ExSubscription evt => Some evt | _ => None end
|}.

Definition example_credentials : DiscordCredentials := mkDiscordCredentials (lit "access") (lit "refresh") 100000.
Definition example_env : Env :=
  mkEnv (mkAuthWorld 1000 (Ok (Some example_credentials)) (Ok tt) (Ok tt) (Err OauthUnauthorized) (Err OauthUnauthorized))
    (λ _, Ok tt) (λ log, Z.of_nat (length log)).
Definition example_client : str := lit "123456789012345678".
Definition message (row : Z) : ProviderInput := PiMessage (Ok (Some [row])) example_env.

(** The user is shown in a channel, and leaves the game. *)
Definition shown_channel : list ProviderInput :=
  [PiSetGate (mkDiscordGate true true true); PiContinue example_env; PiConnected (λ _, true) example_env;
   message 0; message 1; message 3; message 2].
Definition leave_game : list ProviderInput :=
  [PiSetGate (mkDiscordGate true false true); PiGateChanged example_env; PiContinue example_env].
Definition disable_widget : list ProviderInput :=
  [PiSetGate (mkDiscordGate true false false); PiGateChanged example_env].

Definition example_paths : list path := rpc_socket_candidates [lit "/run"].
Definition run_example (inputs : list ProviderInput) : option DiscordProvider :=
  provider_run (λ s, s) example_client example_paths (provider_spawned example_client) inputs.

(** [Display]: where the worker is and the channel on display. *)
Definition display (p : DiscordProvider) : ProviderPhase * DiscordConnectionState * option str :=
  (pv_phase p, connection (pv_worker p), vc_id <$> channel (pv_worker p)).

Lemma shown_channel_runs : (display <$> run_example shown_channel) = Some (PvSocket, DcReady, Some (lit "7")).
Proof. vm_compute. reflexivity. Qed.

(** Disabling the widget clears the channel on display while the user plays,
    but not after the user has left the game: the worker waits for an open
    gate and takes no notice of a gate that stays closed, although the
    retained channel is to be cleared when the widget is disabled. *)
Theorem disabled_widget_keeps_channel :
  (display <$> run_example (shown_channel ++ disable_widget ++ [PiContinue example_env])) = Some (PvGateWait, DcInert, None)
  ∧ (display <$> run_example (shown_channel ++ leave_game ++ disable_widget)) = Some (PvGateWait, DcInert, Some (lit "7")).
Proof. split; vm_compute; reflexivity. Qed.

End Session.
#[local] Existing Instance Session.example_json.

Lemma discord_display_presentable_witness :
  isSome (Session.run_example (Session.shown_channel ++ Session.leave_game)) = true
  ∧ ∀ p, provider_run (λ s, s) Session.example_client Session.example_paths (provider_spawned Session.example_client)
        (Session.shown_channel ++ Session.leave_game) = Some p →
    Forall (published_ok (λ s, s)) (wk_actions (pv_worker p)).
Proof. split; [vm_compute; reflexivity|]. intros p. apply discord_display_presentable. Defined.
