(* ===== verification/WarframeModel.v ===== *)
(** Warframe data in the overlay
    ([crates/overcrow-overlay/src/warframe/{model,sanitize,labels,locations,activity_keys,gate}.rs]
    and [market/model.rs]): the world state on display, the texts shown and
    copied, the names of things, the keys of completion marks and when the
    providers may run.  The name tables are data files, given as functions. *)

From S2P Require Import Prelude Ordered Text Decimal Float Protocol Widgets WarframePrefs.

Definition STRING_MAX_CHARS : nat := 96.
Definition FISSURE_LIST_MAX : nat := 96.
Definition CYCLE_LIST_MAX : nat := 16.
Definition INVASION_LIST_MAX : nat := 32.
Definition ACTIVITY_MISSION_MAX : nat := 3.
Definition ERROR_MAX_CHARS : nat := 160.
Definition DISPLAY_MAX : nat := 64.
Definition WARFRAME_STEAM_APP_ID : Z := 230410.

#[global] Arguments STRING_MAX_CHARS : simpl never.
#[global] Arguments FISSURE_LIST_MAX : simpl never.
#[global] Arguments CYCLE_LIST_MAX : simpl never.
#[global] Arguments INVASION_LIST_MAX : simpl never.
#[global] Arguments ERROR_MAX_CHARS : simpl never.
#[global] Arguments DISPLAY_MAX : simpl never.

(** * The world state *)

Record ActivityMission := mkActivityMission { am_mission_type : str; am_node : str; am_modifier : option str }.
Record SortieMission := mkSortieMission { so_boss : str; so_expires_at_secs : Z; so_missions : list ActivityMission }.
Record ArchonHunt := mkArchonHunt { ah_boss : str; ah_expires_at_secs : Z; ah_missions : list ActivityMission }.
Record RewardLine := mkRewardLine { rw_item_key : str; rw_label : str; rw_count : Z }.

Record InvasionMission := mkInvasionMission {
  im_instance_id : str;
  im_node : str;
  im_attacker_faction : str;
  im_defender_faction : str;
  im_attacker_reward : option RewardLine;
  im_defender_reward : option RewardLine;
  im_count : Z;
  im_goal : Z;
  im_completed : bool
}.

Record CycleStatus := mkCycleStatus { cy_id : str; cy_label : str; cy_state : option str; cy_expires_at_secs : Z }.
Record BaroStatus := mkBaroStatus { ba_present : bool; ba_activation_secs : Z; ba_expiry_secs : Z; ba_location : option str }.

Record FissureMission := mkFissureMission {
  fm_era : FissureEra;
  fm_mission_type : str;
  fm_node : str;
  fm_expires_at_secs : Z;
  fm_steel_path : bool;
  fm_is_storm : bool
}.

Record WorldstateSnapshot := mkWorldstateSnapshot {
  ws_server_time_secs : Z;
  ws_fetched_at_secs : Z;
  ws_last_attempt_at_secs : Z;
  ws_cycles : list CycleStatus;
  ws_daily_reset_at_secs : option Z;
  ws_baro : option BaroStatus;
  ws_fissures : list FissureMission;
  ws_sortie : option SortieMission;
  ws_archon : option ArchonHunt;
  ws_invasions : list InvasionMission;
  ws_error : option str
}.
#[export] Instance WorldstateSnapshot_eta : Eta WorldstateSnapshot := λ w,
  mkWorldstateSnapshot (ws_server_time_secs w) (ws_fetched_at_secs w) (ws_last_attempt_at_secs w) (ws_cycles w)
    (ws_daily_reset_at_secs w) (ws_baro w) (ws_fissures w) (ws_sortie w) (ws_archon w) (ws_invasions w) (ws_error w).

#[export] Instance ActivityMission_eq_dec : EqDecision ActivityMission.
Proof. solve_decision. Defined.
#[export] Instance SortieMission_eq_dec : EqDecision SortieMission.
Proof. solve_decision. Defined.
#[export] Instance ArchonHunt_eq_dec : EqDecision ArchonHunt.
Proof. solve_decision. Defined.
#[export] Instance RewardLine_eq_dec : EqDecision RewardLine.
Proof. solve_decision. Defined.
#[export] Instance InvasionMission_eq_dec : EqDecision InvasionMission.
Proof. solve_decision. Defined.
#[export] Instance CycleStatus_eq_dec : EqDecision CycleStatus.
Proof. solve_decision. Defined.
#[export] Instance BaroStatus_eq_dec : EqDecision BaroStatus.
Proof. solve_decision. Defined.
#[export] Instance FissureMission_eq_dec : EqDecision FissureMission.
Proof. solve_decision. Defined.
#[export] Instance WorldstateSnapshot_eq_dec : EqDecision WorldstateSnapshot.
Proof. solve_decision. Defined.

Definition worldstate_default : WorldstateSnapshot := mkWorldstateSnapshot 0 0 0 [] None None [] None None [] None.

Definition has_payload (w : WorldstateSnapshot) : bool :=
  (0 <? ws_server_time_secs w) || negb (bool_decide (ws_cycles w = [])) || isSome (ws_baro w)
  || negb (bool_decide (ws_fissures w = [])) || isSome (ws_daily_reset_at_secs w) || isSome (ws_sortie w)
  || isSome (ws_archon w) || negb (bool_decide (ws_invasions w = [])).

(** [progress_ratio] and [attacker_bar_ratio]; a clamp between constants does
    not panic. *)
Definition progress_ratio (i : InvasionMission) : option f32 :=
  if im_goal i =? 0 then None
  else f_clamp (f32_div (f32_of_Z (Z.abs (im_count i))) (f32_of_Z (Z.abs (im_goal i)))) (f32_of_Z 0) (f32_of_Z 1).

Definition attacker_bar_ratio (i : InvasionMission) : option f32 :=
  if im_goal i =? 0 then None
  else
    t ← f_clamp (f32_div (f32_of_Z (im_count i)) (f32_of_Z (Z.abs (im_goal i)))) (f32_of_Z (-1)) (f32_of_Z 1);
    f_clamp (f32_mul (f32_add t (f32_of_Z 1)) (f32_ratio 1 2)) (f32_of_Z 0) (f32_of_Z 1).

(** * Texts *)

Definition ellipsis : char := 8230.
Definition dash : str := [8212].

Definition bound_chars (input : str) (max_chars : nat) : str :=
  if (length input <=? max_chars)%nat then input else take (max_chars - 1) input ++ [ellipsis].

(** Two digits, as [{:02}] prints a number. *)
Definition two_digits (n : Z) : str := (if n <? 10 then lit "0" else []) ++ show_Z n.

Definition format_remaining (now_secs expires_at_secs : Z) (show_seconds : bool) : str :=
  if expires_at_secs <=? now_secs then lit "expired"
  else
    let remaining := expires_at_secs - now_secs in
    if show_seconds then
      let days := remaining / 86400 in
      let hours := remaining mod 86400 / 3600 in
      let minutes := remaining mod 3600 / 60 in
      let seconds := remaining mod 60 in
      if 0 <? days then show_Z days ++ lit "d " ++ show_Z hours ++ lit "h " ++ two_digits minutes ++ lit "m " ++ two_digits seconds ++ lit "s"
      else if 0 <? hours then show_Z hours ++ lit "h " ++ two_digits minutes ++ lit "m " ++ two_digits seconds ++ lit "s"
      else if 0 <? minutes then show_Z minutes ++ lit "m " ++ two_digits seconds ++ lit "s"
      else two_digits seconds ++ lit "s"
    else
      let total_minutes := (remaining + 59) / 60 in
      let days := total_minutes / (24 * 60) in
      let hours := total_minutes mod (24 * 60) / 60 in
      let minutes := total_minutes mod 60 in
      if 0 <? days then show_Z days ++ lit "d " ++ show_Z hours ++ lit "h " ++ two_digits minutes ++ lit "m"
      else if 0 <? hours then show_Z hours ++ lit "h " ++ two_digits minutes ++ lit "m"
      else show_Z minutes ++ lit "m".

Definition sanitize_display (input : str) (max_chars : nat) : str :=
  bound_chars (trim (filter (λ c, is_control c = false) input)) max_chars.

Definition sanitize_player_name (input : str) : str :=
  trim (take 32 (filter (λ c, is_control c = false ∧ c ≠ 47 ∧ c ≠ 92) input)).

Definition sanitize_item_name (input : str) : str := sanitize_display input STRING_MAX_CHARS.

Definition sanitize_clipboard_text (input : str) : result str str :=
  let cleaned := (λ c, if (c =? 10) || (c =? 13) then 32 else c) <$> filter (λ c, c ≠ 0) input in
  let trimmed := trim cleaned in
  if bool_decide (trimmed = []) then Err (lit "empty text")
  else if (512 <? length trimmed)%nat then Err (lit "text too long")
  else Ok trimmed.

Inductive TradeSide := TradeSell | TradeBuy.

Definition trade_prefix (side : TradeSide) : str := match side with TradeSell => lit "WTS" | TradeBuy => lit "WTB" end.

Definition format_trade_line (side : TradeSide) (name : str) (price : Z) : str :=
  trade_prefix side ++ lit " " ++ sanitize_item_name name ++ lit " " ++ show_Z price ++ lit "p".

Definition format_whisper_line (side : TradeSide) (trader item : str) (price : Z) : str :=
  let trader := sanitize_player_name trader in
  let trader := if bool_decide (trader = []) then lit "Tenno" else trader in
  lit "/w " ++ trader ++ lit " Hi, " ++ trade_prefix side ++ lit " " ++ sanitize_item_name item ++ lit " for "
  ++ show_Z price ++ lit "p".

(** * Names of things *)

(** The data files [sortie_bosses], [sortie_modifiers], [item_names],
    [factions], [sol_nodes] and [mission_types], and
    [char::to_uppercase]. *)
Class WarframeTables := {
  bosses : str → option str;
  modifiers : str → option str;
  items : str → option str;
  factions : str → option str;
  sol_nodes : str → option str;
  mission_types : str → option str;
  char_to_uppercase : char → str
}.

(** [rsplit_once]: at the last occurrence. *)
Fixpoint rsplit_once (p s : str) : option (str * str) :=
  match s with
  | [] => if bool_decide (p = []) then Some ([], []) else None
  | c :: s' =>
      match rsplit_once p s' with
      | Some (a, b) => Some (c :: a, b)
      | None => if starts_with p s then Some ([], drop (length p) s) else None
      end
  end.

(** [split_whitespace]. *)
Fixpoint words_onto (word : str) (s : str) : list str :=
  match s with
  | [] => if bool_decide (word = []) then [] else [word]
  | c :: s =>
      if is_whitespace c then (if bool_decide (word = []) then [] else [word]) ++ words_onto [] s
      else words_onto (word ++ [c]) s
  end.
Definition split_whitespace (s : str) : list str := words_onto [] s.

(** The pieces of a name: underscores, and capitals after small letters,
    begin a new one. *)
Fixpoint spaced (prev_lower : bool) (s : str) : str :=
  match s with
  | [] => []
  | c :: s =>
      if c =? 95 then 32 :: spaced false s
      else (if prev_lower && is_ascii_upper c then [32] else []) ++ c :: spaced (is_ascii_lower c) s
  end.

Record NodeLabel := mkNodeLabel { nl_node : str; nl_planet : option str }.

Section names.
Context `{WarframeTables}.

Definition capitalized (word : str) : str := match word with [] => [] | c :: word => char_to_uppercase c ++ word end.

Definition prettify_tail (tail : str) : str :=
  let trimmed := trim tail in
  let trimmed :=
    match strip_prefix (lit "SORTIE_MODIFIER_") trimmed with
    | Some rest => rest
    | None => default trimmed (strip_prefix (lit "SORTIE_BOSS_") trimmed)
    end in
  if bool_decide (trimmed = []) then bound_chars tail DISPLAY_MAX
  else bound_chars (join 32 (capitalized <$> split_whitespace (spaced false trimmed))) DISPLAY_MAX.

Definition lookup_or_pretty (table : str → option str) (raw : str) : str :=
  let raw := trim raw in
  if bool_decide (raw = []) then dash
  else match table raw with
       | Some label => sanitize_display label DISPLAY_MAX
       | None =>
           let tail := path_tail raw in
           match table tail with
           | Some label => sanitize_display label DISPLAY_MAX
           | None => sanitize_display (prettify_tail tail) DISPLAY_MAX
           end
       end.

Definition format_boss : str → str := lookup_or_pretty bosses.
Definition format_modifier : str → str := lookup_or_pretty modifiers.
Definition format_item : str → str := lookup_or_pretty items.
Definition format_faction : str → str := lookup_or_pretty factions.
Definition item_key (p : str) : str := bound_chars (path_tail p) DISPLAY_MAX.

Definition split_node_value (value fallback_code : str) : NodeLabel :=
  let whole := mkNodeLabel (sanitize_display value DISPLAY_MAX) None in
  match rsplit_once (lit " (") value with
  | None => whole
  | Some (name, rest) =>
      match strip_suffix (lit ")") rest with
      | None => whole
      | Some planet =>
          if negb (bool_decide (name = [])) && negb (bool_decide (planet = [])) && negb (str_eqb name fallback_code)
          then mkNodeLabel (sanitize_display name DISPLAY_MAX) (Some (sanitize_display planet DISPLAY_MAX))
          else whole
      end
  end.

Definition event_hub_label (code : str) : option NodeLabel :=
  if starts_with (lit "tennocon") (to_ascii_lowercase code) then Some (mkNodeLabel (lit "TennoCon Relay") None) else None.

Definition resolve_node (code : str) : NodeLabel :=
  let code := trim code in
  if bool_decide (code = []) || str_eqb code dash then mkNodeLabel dash None
  else match sol_nodes code with
       | Some value => split_node_value value code
       | None => default (mkNodeLabel (bound_chars code DISPLAY_MAX) None) (event_hub_label code)
       end.

(** [NodeLabel::display]. *)
Definition node_display (l : NodeLabel) : str :=
  match nl_planet l with
  | Some planet => if bool_decide (planet = []) then nl_node l else nl_node l ++ [32; 183; 32] ++ planet
  | None => nl_node l
  end.

Definition format_node (code : str) : str := node_display (resolve_node code).

Definition mission_fallback (code : str) : str :=
  let names := [("MT_DEFENSE", "Defense"); ("MT_EXTERMINATION", "Extermination"); ("MT_CAPTURE", "Capture");
                ("MT_MOBILE_DEFENSE", "Mobile Defense"); ("MT_SABOTAGE", "Sabotage"); ("MT_SURVIVAL", "Survival");
                ("MT_RESCUE", "Rescue"); ("MT_INTEL", "Spy"); ("MT_ARTIFACT", "Disruption");
                ("MT_TERRITORY", "Interception"); ("MT_CORRUPTION", "Hijack"); ("MT_EVACUATION", "Defection")]%string in
  default code (find_map (λ e, then_some (str_eqb code (lit (fst e))) (lit (snd e))) names).

Definition format_mission_type (code : str) : str :=
  let code := trim code in
  if bool_decide (code = []) || str_eqb code dash then dash
  else match mission_types code with
       | Some value => bound_chars value DISPLAY_MAX
       | None => bound_chars (mission_fallback code) DISPLAY_MAX
       end.
End names.

(** [archon_shard_hint], with its colour. *)
Definition archon_shard_hint (boss_label_or_code : str) : option (string * (Z * Z * Z)) :=
  let key := ascii_upper <$> boss_label_or_code in
  if contains (lit "NIRA") key then Some ("Amber Archon Shard", (255, 196, 72))%string
  else if contains (lit "BOREAL") key then Some ("Azure Archon Shard", (96, 168, 255))%string
  else if contains (lit "AMAR") key then Some ("Crimson Archon Shard", (232, 88, 88))%string
  else None.

(** * Keys of completion marks *)

Definition INVASION_DONE_KEY_PREFIX : str := lit "invasion:".
Definition invasion_instance_id_max_chars : nat := WARFRAME_ACTIVITY_DONE_ENTRY_MAX_CHARS - length INVASION_DONE_KEY_PREFIX.

Definition sortie_mission_key (expires_at_secs : Z) (index : nat) : str :=
  lit "sortie:" ++ show_Z expires_at_secs ++ lit ":" ++ show_Z (Z.of_nat index).
Definition archon_mission_key (expires_at_secs : Z) (index : nat) : str :=
  lit "archon:" ++ show_Z expires_at_secs ++ lit ":" ++ show_Z (Z.of_nat index).
Definition invasion_done_key (instance_id : str) : str := INVASION_DONE_KEY_PREFIX ++ instance_id.

Definition sortie_mission_keys (expires_at_secs : Z) (count : nat) : list str := sortie_mission_key expires_at_secs <$> seq 0 count.
Definition archon_mission_keys (expires_at_secs : Z) (count : nat) : list str := archon_mission_key expires_at_secs <$> seq 0 count.

Definition current_activity_done_keys (w : WorldstateSnapshot) : list str :=
  match ws_sortie w with Some s => sortie_mission_keys (so_expires_at_secs s) (length (so_missions s)) | None => [] end
  ++ match ws_archon w with Some a => archon_mission_keys (ah_expires_at_secs a) (length (ah_missions a)) | None => [] end
  ++ ((λ i, invasion_done_key (im_instance_id i)) <$> ws_invasions w).

(** * When providers run *)

Definition is_warframe_active (snapshot : CoreSnapshot) : bool :=
  is_some_and (λ id, id =? WARFRAME_STEAM_APP_ID) (cs_active_game snapshot ≫= gw_steam_app_id).

Definition any_worldstate_widget_enabled (profile : WidgetProfile) : bool :=
  existsb (λ id, ws_enabled (widget_settings profile id)) [WarframeStatus; WarframeFissures; WarframeSortie; WarframeInvasions].

Definition market_requests_enabled (snapshot : CoreSnapshot) (profile : WidgetProfile) : bool :=
  is_warframe_active snapshot && bool_decide (cs_overlay_mode snapshot = Interactive)
  && ws_enabled (widget_settings profile WarframeMarket).

Definition warframe_widget_visible (id : WidgetId) (snapshot : CoreSnapshot) (base_visible : bool) : bool :=
  bool_decide (id ∈ [WarframeStatus; WarframeFissures; WarframeMarket; WarframeSortie; WarframeInvasions])
  && base_visible && is_warframe_active snapshot.

(** * Facts shared by the components that use these *)

Lemma bound_chars_length s n : (0 < n)%nat → (length (bound_chars s n) ≤ n)%nat.
Proof.
  intros Hn. unfold bound_chars. destruct (Nat.leb_spec (length s) n); [done|].
  rewrite length_app, length_take. cbn. lia.
Qed.

Lemma bound_chars_elem s n c : c ∈ bound_chars s n → c ∈ s ∨ c = ellipsis.
Proof.
  unfold bound_chars. destruct (_ <=? _)%nat; [by left|].
  rewrite elem_of_app. intros [Hc|Hc%list_elem_of_singleton]; [|by right]. left. eapply subseteq_take. done.
Qed.

(** * The market's snapshot *)

Definition MARKET_RESULTS_MAX : nat := 12.
Definition MARKET_ORDERS_SHOWN : nat := 6.
Definition MARKET_ORDERS_REFRESH_SECS : Z := 30.

Inductive TraderPresence := PresOnline | PresIngame | PresOffline | PresUnknown.

Definition presence_label (p : TraderPresence) : str :=
  match p with PresOnline => lit "online" | PresIngame => lit "in game" | PresOffline => lit "offline" | PresUnknown => lit "?" end.
Definition presence_rank (p : TraderPresence) : Z :=
  match p with PresIngame => 0 | PresOnline => 1 | PresUnknown => 2 | PresOffline => 3 end.

Record MarketItemSummary := mkMarketItemSummary { ms_name : str; ms_slug : str }.
Record MarketOrder := mkMarketOrder { mo_side : TradeSide; mo_platinum : Z; mo_trader : str; mo_presence : TraderPresence }.
Record MarketItemDetail := mkMarketItemDetail {
  mi_name : str;
  mi_slug : str;
  mi_lowest_sell : option Z;
  mi_highest_buy : option Z;
  mi_order_count : Z;
  mi_top_sells : list MarketOrder;
  mi_top_buys : list MarketOrder
}.

Record MarketSnapshot := mkMarketSnapshot {
  mk_query : str;
  mk_results : list MarketItemSummary;
  mk_selected : option MarketItemDetail;
  mk_status : option str;
  mk_error : option str;
  mk_selected_fetched_at_secs : Z;
  mk_next_refresh_at_secs : Z
}.
#[export] Instance MarketSnapshot_eta : Eta MarketSnapshot := λ m,
  mkMarketSnapshot (mk_query m) (mk_results m) (mk_selected m) (mk_status m) (mk_error m) (mk_selected_fetched_at_secs m)
    (mk_next_refresh_at_secs m).

Definition market_default : MarketSnapshot := mkMarketSnapshot [] [] None None None 0 0.

#[export] Instance TradeSide_eq_dec : EqDecision TradeSide.
Proof. solve_decision. Defined.
#[export] Instance TraderPresence_eq_dec : EqDecision TraderPresence.
Proof. solve_decision. Defined.
#[export] Instance MarketItemSummary_eq_dec : EqDecision MarketItemSummary.
Proof. solve_decision. Defined.
#[export] Instance MarketOrder_eq_dec : EqDecision MarketOrder.
Proof. solve_decision. Defined.
#[export] Instance MarketItemDetail_eq_dec : EqDecision MarketItemDetail.
Proof. solve_decision. Defined.
#[export] Instance MarketSnapshot_eq_dec : EqDecision MarketSnapshot.
Proof. solve_decision. Defined.
