(* ===== verification/Worldstate.v ===== *)
(** The world state of Warframe as the overlay reads it
    ([crates/overcrow-overlay/src/warframe/worldstate/parse.rs],
    [bounded_serde.rs]) and keeps it live between polls ([live.rs]).

    JSON is read by serde: a [Document] is what its derived code hands to the
    visitors written here, sequences element by element. *)

From S2P Require Import Prelude Ordered Text Decimal Bytes WarframePrefs WarframeModel.

(** * Machine integers

    An [i64] operation: nothing when it overflows. *)
Definition i64 (z : Z) : option Z := try_from i64_min i64_max z.

(** Seconds as milliseconds: [i64::try_from(s.saturating_mul(1_000))], or the
    greatest. *)
Definition saturating_millis (secs : Z) : Z := default i64_max (try_from i64_min i64_max (saturating_mul u64_max secs 1000)).

(** [u64::try_from]. *)
Definition to_u64 (z : Z) : option Z := try_from 0 u64_max z.

(** * Reading *)

(** [serde_json::Value]; the keys of an object are distinct. *)
#[warnings="-register-all"]
Inductive Value :=
| VNull | VBool (b : bool) | VInt (z : Z) | VFloat | VString (s : str) | VArray (l : list Value) | VObject (fields : list (str * Value)).

Definition value_u64 (v : Value) : option Z := match v with VInt z => to_u64 z | _ => None end.
Definition value_i64 (v : Value) : option Z := match v with VInt z => i64 z | _ => None end.
Definition value_str (v : Value) : option str := match v with VString s => Some s | _ => None end.
Definition value_get (name : string) (v : Value) : option Value :=
  match v with VObject fields => snd <$> find_first (λ f, str_eqb (fst f) (lit name)) fields | _ => None end.

Definition normalize_epoch (value : Z) : Z := if 10000000000 <? value then value / 1000 else value.

(** A number, or the text of one. *)
Definition parse_epoch_text (s : str) : option Z := normalize_epoch <$> parse_unsigned u64_max s.
Definition parse_epoch_value (v : Value) : option (option Z) :=
  match value_u64 v with
  | Some number => Some (Some (normalize_epoch number))
  | None =>
      match value_i64 v with
      | Some number => Some (normalize_epoch <$> to_u64 number)
      | None => parse_epoch_text <$> value_str v
      end
  end.

Definition parse_epoch_secs (value : option Value) : option Z :=
  value ← value;
  match parse_epoch_value value with
  | Some r => r
  | None =>
      date ← value_get "$date" value;
      match parse_epoch_value date with
      | Some r => r
      | None =>
          number_long ← value_get "$numberLong" date;
          text ← value_str number_long;
          parse_epoch_text text
      end
  end.

(** ** The raw records *)

Record RawSyndicateMission := mkRawSyndicateMission { rs_tag : option str; rs_expiry : option Value }.
Record RawVoidTrader := mkRawVoidTrader {
  vt_character : option str; vt_node : option str; vt_activation : option Value; vt_expiry : option Value }.
Record RawActiveMission := mkRawActiveMission {
  ra_modifier : option str; ra_mission_type : option str; ra_node : option str; ra_expiry : option Value; ra_hard : bool }.
Record RawVoidStorm := mkRawVoidStorm { vs_tier : option str; vs_node : option str; vs_expiry : option Value }.
Record RawSortieVariant := mkRawSortieVariant { sv_mission_type : option str; sv_modifier_type : option str; sv_node : option str }.
Record RawArchonMission := mkRawArchonMission { rm_mission_type : option str; rm_node : option str }.
Record RawCountedItem := mkRawCountedItem { ci_item_type : option str; ci_item_count : option Z }.

(** [RawObjectId]: the id, or the digest of one that is no id. *)
Record RawObjectId := mkRawObjectId { oi_oid : option str; oi_invalid_oid_digest : option Z }.

(** A list whose elements are read one by one: nothing for an element that
    does not decode. *)
Abbreviation sequence A := (list (option A)).

Inductive OidValue := OidString (s : str) | OidOther.
(** What stands at [_id]: an object with its fields in order, those called
    [$oid] with their values, or anything else. *)
Inductive IdShape := IdObject (fields : list (option OidValue)) | IdOther.

(** What stands at a reward: an object's fields in order, [countedItems] with
    its items; a sequence, empty or not; or null. *)
Inductive RewardShape :=
| RewardObject (fields : list (option (sequence RawCountedItem)))
| RewardSequence (empty : bool)
| RewardNull.

(** Sorties and archon hunts, by what their missions are. *)
Record RawHunt (A : Type) := mkRawHunt { rh_boss : option str; rh_expiry : option Value; rh_missions : A }.
Arguments mkRawHunt {A}. Arguments rh_boss {A}. Arguments rh_expiry {A}. Arguments rh_missions {A}.

(** Invasions, by what their ids and rewards are. *)
Record RawInvasion (I R : Type) := mkRawInvasion {
  ri_id : option I;
  ri_node : option str;
  ri_faction : option str;
  ri_defender_faction : option str;
  ri_count : option Z;
  ri_goal : option Z;
  ri_completed : bool;
  ri_attacker_reward : R;
  ri_defender_reward : R
}.
Arguments mkRawInvasion {I R}. Arguments ri_id {I R}. Arguments ri_node {I R}. Arguments ri_faction {I R}.
Arguments ri_defender_faction {I R}. Arguments ri_count {I R}. Arguments ri_goal {I R}. Arguments ri_completed {I R}.
Arguments ri_attacker_reward {I R}. Arguments ri_defender_reward {I R}.

Record Document := mkDocument {
  do_time : option Z;
  do_syndicate_missions : sequence RawSyndicateMission;
  do_void_traders : sequence RawVoidTrader;
  do_active_missions : sequence RawActiveMission;
  do_void_storms : sequence RawVoidStorm;
  do_sorties : sequence (RawHunt (sequence RawSortieVariant));
  do_lite_sorties : sequence (RawHunt (sequence RawArchonMission));
  do_invasions : sequence (RawInvasion IdShape (option RewardShape))
}.

Record RawWorldstate := mkRawWorldstate {
  rt_time : option Z;
  rt_syndicate_missions : list RawSyndicateMission;
  rt_void_traders : list RawVoidTrader;
  rt_active_missions : list RawActiveMission;
  rt_void_storms : list RawVoidStorm;
  rt_sorties : list (RawHunt (list RawSortieVariant));
  rt_lite_sorties : list (RawHunt (list RawArchonMission));
  rt_invasions : list (RawInvasion RawObjectId (list RawCountedItem))
}.

(** ** The visitors *)

(** [deserialize_capped_vec]: at most so many elements, and none after. *)
Fixpoint capped_vec {A B} (read : A → option B) (max : nat) (l : sequence A) : option (list B) :=
  match max, l with
  | _, [] => Some []
  | O, _ :: _ => None
  | S max, x :: l => x ← x; y ← read x; values ← capped_vec read max l; Some (y :: values)
  end.

Definition SYNDICATE_MISSION_INPUT_MAX : nat := 128.
Definition CYCLE_SYNDICATE_TAGS : list str := [lit "CetusSyndicate"; lit "ZarimanSyndicate"].

(** [deserialize_cycle_syndicate_missions]: the first of each wanted tag, of
    at most so many. *)
Fixpoint cycle_syndicates (max : nat) (retained : list RawSyndicateMission) (l : sequence RawSyndicateMission) :
    option (list RawSyndicateMission) :=
  match max, l with
  | _, [] => Some retained
  | O, _ :: _ => None
  | S max, x :: l =>
      mission ← x;
      let wanted := is_some_and (λ tag, existsb (str_eqb tag) CYCLE_SYNDICATE_TAGS) (rs_tag mission) in
      let duplicate := existsb (λ existing, bool_decide (rs_tag existing = rs_tag mission)) retained in
      cycle_syndicates max (if wanted && negb duplicate then retained ++ [mission] else retained) l
  end.

Definition FNV_OFFSET_BASIS : Z := 0xcbf29ce484222325.
Definition FNV_PRIME : Z := 0x100000001b3.
Definition fnv_byte (hash byte : Z) : Z := (Z.lxor hash byte * FNV_PRIME) mod (u64_max + 1).
Definition fnv1a_digest (bytes : list Z) : Z := foldl fnv_byte FNV_OFFSET_BASIS bytes.

Definition id_character (byte : Z) : bool := is_ascii_alphanumeric byte || (byte =? 45) || (byte =? 95).

Definition sanitize_invasion_instance_id (raw : str) : option str :=
  then_some (negb (bool_decide (raw = [])) && (length raw <=? invasion_instance_id_max_chars)%nat && forallb id_character (utf8 raw)) raw.

(** [LenientProviderOid]. *)
Definition provider_oid (v : OidValue) : RawObjectId :=
  match v with
  | OidString s =>
      match sanitize_invasion_instance_id s with
      | Some s => mkRawObjectId (Some s) None
      | None => mkRawObjectId None (Some (fnv1a_digest (utf8 s)))
      end
  | OidOther => mkRawObjectId None None
  end.

Definition object_id_field (o : RawObjectId) (field : option OidValue) : RawObjectId :=
  match field with
  | Some v => if isNone (oi_oid o) && isNone (oi_invalid_oid_digest o) then provider_oid v else o
  | None => o
  end.

Definition read_object_id (shape : IdShape) : RawObjectId :=
  match shape with
  | IdObject fields => foldl object_id_field (mkRawObjectId None None) fields
  | IdOther => mkRawObjectId None None
  end.

(** [RawReward]: a second [countedItems] is refused. *)
Fixpoint reward_fields (counted_items : option (list RawCountedItem)) (fields : list (option (sequence RawCountedItem))) :
    option (list RawCountedItem) :=
  match fields with
  | [] => Some (default [] counted_items)
  | None :: fields => reward_fields counted_items fields
  | Some items :: fields =>
      match counted_items with
      | Some _ => None
      | None => items ← capped_vec Some INVASION_LIST_MAX items; reward_fields (Some items) fields
      end
  end.

Definition read_reward (shape : option RewardShape) : option (list RawCountedItem) :=
  match shape with
  | None | Some RewardNull => Some []
  | Some (RewardObject fields) => reward_fields None fields
  | Some (RewardSequence empty) => then_some empty []
  end.

Definition read_hunt {A} (max : nat) (h : RawHunt (sequence A)) : option (RawHunt (list A)) :=
  missions ← capped_vec Some max (rh_missions h); Some (mkRawHunt (rh_boss h) (rh_expiry h) missions).

Definition read_invasion (i : RawInvasion IdShape (option RewardShape)) : option (RawInvasion RawObjectId (list RawCountedItem)) :=
  attacker ← read_reward (ri_attacker_reward i);
  defender ← read_reward (ri_defender_reward i);
  Some (mkRawInvasion (read_object_id <$> ri_id i) (ri_node i) (ri_faction i) (ri_defender_faction i) (ri_count i) (ri_goal i)
    (ri_completed i) attacker defender).

Definition read_worldstate (d : Document) : option RawWorldstate :=
  syndicates ← cycle_syndicates SYNDICATE_MISSION_INPUT_MAX [] (do_syndicate_missions d);
  traders ← capped_vec Some CYCLE_LIST_MAX (do_void_traders d);
  active ← capped_vec Some FISSURE_LIST_MAX (do_active_missions d);
  storms ← capped_vec Some FISSURE_LIST_MAX (do_void_storms d);
  sorties ← capped_vec (read_hunt ACTIVITY_MISSION_MAX) ACTIVITY_MISSION_MAX (do_sorties d);
  lite_sorties ← capped_vec (read_hunt ACTIVITY_MISSION_MAX) ACTIVITY_MISSION_MAX (do_lite_sorties d);
  invasions ← capped_vec read_invasion INVASION_LIST_MAX (do_invasions d);
  Some (mkRawWorldstate (do_time d) syndicates traders active storms sorties lite_sorties invasions).

(** * Cycles *)

Definition CETUS_DAY_SECS : Z := 6000.
Definition CETUS_NIGHT_SECS : Z := 3000.
Definition VALLIS_EPOCH_MS : Z := 1770234408000.
Definition VALLIS_LOOP_MS : Z := 1600000.
Definition VALLIS_COLD_MS : Z := 1200000.
Definition ZARIMAN_EPOCH_MS : Z := 1655182800000.
Definition ZARIMAN_FULL_MS : Z := 18000000.
Definition ZARIMAN_HALF_MS : Z := 9000000.

(** [div_round], with Rust's division, which truncates. *)
Definition div_round (numerator denominator : Z) : option Z :=
  if denominator =? 0 then Some 0
  else if 0 <=? numerator then n ← i64 (numerator + Z.quot denominator 2); i64 (Z.quot n denominator)
  else n ← i64 (numerator - Z.quot denominator 2); i64 (Z.quot n denominator).

(** The end of a bounty, to the minute, in milliseconds. *)
Definition bounty_end (bounty_end_secs : Z) : option Z :=
  let ms := saturating_millis bounty_end_secs in i64 (ms - ms mod 60000).

Definition cetus_like_cycle (id label : string) (bounty_end_secs now_ms : Z) (day_label night_label : string) : option CycleStatus :=
  bounty_end_ms ← bounty_end bounty_end_secs;
  millis_left ← i64 (bounty_end_ms - now_ms);
  seconds_to_night_end ← div_round millis_left 1000;
  let is_day := CETUS_NIGHT_SECS <? seconds_to_night_end in
  seconds_remaining ← if is_day then i64 (seconds_to_night_end - CETUS_NIGHT_SECS) else Some seconds_to_night_end;
  expires ←
    (if 0 <? seconds_remaining then
       ms ← i64 (seconds_remaining * 1000);
       at_ms ← i64 (now_ms + ms);
       minutes ← div_round at_ms 60000;
       expiry_ms ← i64 (minutes * 60000);
       Some (default bounty_end_secs (to_u64 (Z.quot expiry_ms 1000)))
     else Some (default bounty_end_secs (to_u64 (Z.quot bounty_end_ms 1000))));
  Some (mkCycleStatus (lit id) (lit label) (Some (lit (if is_day then day_label else night_label))) expires).

Definition vallis_at (now_ms : Z) : option CycleStatus :=
  since ← i64 (now_ms - VALLIS_EPOCH_MS);
  let since_last := since mod VALLIS_LOOP_MS in
  let to_next_full := VALLIS_LOOP_MS - since_last in
  let is_warm := VALLIS_COLD_MS <? to_next_full in
  let to_next_minor := if to_next_full <? VALLIS_COLD_MS then to_next_full else to_next_full - VALLIS_COLD_MS in
  at_ms ← i64 (now_ms + to_next_minor);
  Some (mkCycleStatus (lit "vallis") (lit "Vallis") (Some (lit (if is_warm then "warm" else "cold")))
    (default 0 (to_u64 (Z.quot at_ms 1000)))).

Definition zariman_status (is_corpus : bool) (expires : Z) : CycleStatus :=
  mkCycleStatus (lit "zariman") (lit "Zariman") (Some (lit (if is_corpus then "corpus" else "grineer"))) expires.

Definition zariman_at (now_ms : Z) : option CycleStatus :=
  since ← i64 (now_ms - ZARIMAN_EPOCH_MS);
  let cycle_time_left := ZARIMAN_FULL_MS - since mod ZARIMAN_FULL_MS in
  let is_corpus := ZARIMAN_HALF_MS <? cycle_time_left in
  let to_flip := if is_corpus then cycle_time_left - ZARIMAN_HALF_MS else cycle_time_left in
  at_ms ← i64 (now_ms + Z.max to_flip 1000);
  Some (zariman_status is_corpus (default 0 (to_u64 (Z.quot at_ms 1000)))).

Definition zariman_from_bounty (bounty_end_secs now_ms : Z) : option CycleStatus :=
  bounty_end_ms ← bounty_end bounty_end_secs;
  millis_left ← i64 (bounty_end_ms - now_ms);
  if millis_left <=? 0 then zariman_at now_ms
  else
    at_ms ← i64 (now_ms + millis_left);
    bounties_clone ← i64 (bounty_end_ms - 5000);
    since ← i64 (bounties_clone - ZARIMAN_EPOCH_MS);
    let cycle_time_left := ZARIMAN_FULL_MS - since mod ZARIMAN_FULL_MS in
    Some (zariman_status (ZARIMAN_HALF_MS <? cycle_time_left) (default bounty_end_secs (to_u64 (Z.quot at_ms 1000)))).

Definition next_utc_midnight (server_time_secs : Z) : option Z :=
  let day := server_time_secs / 86400 in to_u64 ((day + 1) * 86400).

Definition syndicate_expiry (missions : list RawSyndicateMission) (tag : string) : option Z :=
  mission ← find_first (λ m, bool_decide (rs_tag m = Some (lit tag))) missions;
  parse_epoch_secs (rs_expiry mission).

(** Cambion follows Cetus. *)
Definition cambion_of (cetus : CycleStatus) : CycleStatus :=
  mkCycleStatus (lit "cambion") (lit "Cambion")
    (Some (if bool_decide (cy_state cetus = Some (lit "day")) then lit "fass" else lit "vome")) (cy_expires_at_secs cetus).

Definition parse_cycles (missions : list RawSyndicateMission) (now_ms : Z) : option (list CycleStatus) :=
  plains ← (match syndicate_expiry missions "CetusSyndicate" with
            | Some end_ => cetus ← cetus_like_cycle "cetus" "Cetus" end_ now_ms "day" "night"; Some [cetus; cambion_of cetus]
            | None => Some []
            end);
  vallis ← vallis_at now_ms;
  zariman ← (match syndicate_expiry missions "ZarimanSyndicate" with
             | Some end_ => z ← zariman_from_bounty end_ now_ms; Some [z]
             | None => Some []
             end);
  Some (take CYCLE_LIST_MAX (plains ++ vallis :: zariman)).

(** * Missions *)

Section missions.
Context `{WarframeTables}.

Definition text_or_dash (o : option str) : str := default dash o.

Definition star_chart_fissure (m : RawActiveMission) : option FissureMission :=
  modifier ← ra_modifier m;
  era ← from_void_modifier modifier;
  expires ← parse_epoch_secs (ra_expiry m);
  Some (mkFissureMission era (bound_chars (text_or_dash (ra_mission_type m)) STRING_MAX_CHARS)
    (bound_chars (text_or_dash (ra_node m)) STRING_MAX_CHARS) expires (ra_hard m) false).

Definition void_storm_fissure (s : RawVoidStorm) : option FissureMission :=
  tier ← vs_tier s;
  era ← from_void_modifier tier;
  expires ← parse_epoch_secs (vs_expiry s);
  Some (mkFissureMission era (lit "Void Storm") (bound_chars (text_or_dash (vs_node s)) STRING_MAX_CHARS) expires false true).

Definition fissure_key (f : FissureMission) : Z * str := (fm_expires_at_secs f, fm_node f).

Definition parse_fissures (active : list RawActiveMission) (storms : list RawVoidStorm) (fetched_at_secs : Z) : list FissureMission :=
  let all := omap star_chart_fissure active ++ omap void_storm_fissure storms in
  take FISSURE_LIST_MAX (sort_by_key fissure_key (filter (λ f, fetched_at_secs < fm_expires_at_secs f) all)).

Definition is_baro (t : RawVoidTrader) : bool :=
  is_some_and (λ name, contains (lit "baro") (to_ascii_lowercase name)) (vt_character t).

Definition baro_candidate (now_secs : Z) (t : RawVoidTrader) : option (RawVoidTrader * Z * Z) :=
  if is_baro t then
    activation ← parse_epoch_secs (vt_activation t);
    expiry ← parse_epoch_secs (vt_expiry t);
    then_some (now_secs <? expiry) (t, activation, expiry)
  else None.

Definition baro_key (now_secs : Z) (c : RawVoidTrader * Z * Z) : Z * (Z * (Z * str)) :=
  let '(t, activation, expiry) := c in
  let present := (activation <=? now_secs) && (now_secs <? expiry) in
  let known := is_some_and (λ node, isSome (nl_planet (resolve_node node))) (vt_node t) in
  ((if present then 0 else 1), (activation, ((if known then 0 else 1), default [] (vt_node t)))).

Definition select_baro (traders : list RawVoidTrader) (now_secs : Z) : option BaroStatus :=
  match sort_by_key (baro_key now_secs) (omap (baro_candidate now_secs) traders) with
  | [] => None
  | (t, activation, expiry) :: _ =>
      Some (mkBaroStatus ((activation <=? now_secs) && (now_secs <? expiry)) activation expiry (format_node <$> vt_node t))
  end.

Definition sortie_mission (v : RawSortieVariant) : ActivityMission :=
  mkActivityMission (bound_chars (text_or_dash (sv_mission_type v)) STRING_MAX_CHARS)
    (bound_chars (text_or_dash (sv_node v)) STRING_MAX_CHARS) (format_modifier <$> sv_modifier_type v).

Definition archon_mission (m : RawArchonMission) : ActivityMission :=
  mkActivityMission (bound_chars (text_or_dash (rm_mission_type m)) STRING_MAX_CHARS)
    (bound_chars (text_or_dash (rm_node m)) STRING_MAX_CHARS) None.

Definition parse_sortie (now_secs : Z) (raw : RawHunt (list RawSortieVariant)) : option SortieMission :=
  expires ← parse_epoch_secs (rh_expiry raw);
  if expires <=? now_secs then None
  else Some (mkSortieMission (format_boss (text_or_dash (rh_boss raw))) expires
               (take ACTIVITY_MISSION_MAX (sortie_mission <$> rh_missions raw))).

Definition parse_archon (now_secs : Z) (raw : RawHunt (list RawArchonMission)) : option ArchonHunt :=
  expires ← parse_epoch_secs (rh_expiry raw);
  if expires <=? now_secs then None
  else Some (mkArchonHunt (format_boss (text_or_dash (rh_boss raw))) expires
               (take ACTIVITY_MISSION_MAX (archon_mission <$> rh_missions raw))).

Definition parse_reward (counted_items : list RawCountedItem) : option RewardLine :=
  first ← head counted_items;
  item_type ← ci_item_type first;
  let count := Z.min (default 1 (ci_item_count first)) u32_max in
  Some (mkRewardLine (item_key item_type) (format_item item_type) (Z.max count 1)).

(** [{:016x}]. *)
Definition hex16 (z : Z) : str := (λ i, let d := Z.shiftr z (4 * Z.of_nat i) mod 16 in if d <? 10 then 48 + d else 87 + d) <$> rev (seq 0 16).

Definition fallback_invasion_instance_id (node attacker_faction defender_faction : str) (goal : Z)
    (attacker_reward_key defender_reward_key : option str) (invalid_provider_id_digest : option Z) : str :=
  let digest := default [] (hex16 <$> invalid_provider_id_digest) in
  let fields := [digest; node; attacker_faction; defender_faction; show_Z goal; default [] attacker_reward_key;
                 default [] defender_reward_key] in
  hex16 (fnv1a_digest (fields ≫= λ field, utf8 field ++ [255])).

Definition parse_invasion (raw : RawInvasion RawObjectId (list RawCountedItem)) : option InvasionMission :=
  node ← trim <$> ri_node raw;
  if bool_decide (node = []) then None
  else
    let node := bound_chars node STRING_MAX_CHARS in
    let attacker_faction := format_faction (text_or_dash (ri_faction raw)) in
    let defender_faction := format_faction (text_or_dash (ri_defender_faction raw)) in
    let attacker_reward := parse_reward (ri_attacker_reward raw) in
    let defender_reward := parse_reward (ri_defender_reward raw) in
    let goal := default 0 (ri_goal raw) in
    let instance_id :=
      match ri_id raw ≫= oi_oid with
      | Some oid => oid
      | None => fallback_invasion_instance_id node attacker_faction defender_faction goal (rw_item_key <$> attacker_reward)
                  (rw_item_key <$> defender_reward) (ri_id raw ≫= oi_invalid_oid_digest)
      end in
    Some (mkInvasionMission instance_id node attacker_faction defender_faction attacker_reward defender_reward
      (default 0 (ri_count raw)) goal (ri_completed raw)).

(** [parse_worldstate], once the text is read: nothing when a number
    overflows. *)
Definition worldstate_of (raw : RawWorldstate) (fetched_at_secs : Z) : option WorldstateSnapshot :=
  let now_ms := saturating_millis fetched_at_secs in
  cycles ← parse_cycles (rt_syndicate_missions raw) now_ms;
  daily_reset ← next_utc_midnight fetched_at_secs;
  Some (mkWorldstateSnapshot (default fetched_at_secs (rt_time raw)) fetched_at_secs fetched_at_secs cycles (Some daily_reset)
    (select_baro (rt_void_traders raw) fetched_at_secs)
    (parse_fissures (rt_active_missions raw) (rt_void_storms raw) fetched_at_secs)
    (head (rt_sorties raw) ≫= parse_sortie fetched_at_secs)
    (head (rt_lite_sorties raw) ≫= parse_archon fetched_at_secs)
    (take INVASION_LIST_MAX (omap parse_invasion (rt_invasions raw))) None).
End missions.

(** The text of the response to its document, or the error; [from_slice]
    gives up at the first thing wrong, so that reading the document's own
    sequences may come after. *)
Class WorldstateJson := { decode_document : list Z → result str Document; sequence_error : Document → str }.

Definition parse_worldstate `{WarframeTables, WorldstateJson} (bytes : list Z) (fetched_at_secs : Z) :
    option (result str WorldstateSnapshot) :=
  match decode_document bytes with
  | Err error => Some (Err (bound_chars error ERROR_MAX_CHARS))
  | Ok d =>
      match read_worldstate d with
      | None => Some (Err (bound_chars (sequence_error d) ERROR_MAX_CHARS))
      | Some raw => Ok <$> worldstate_of raw fetched_at_secs
      end
  end.

Definition fissure_source (f : FissureMission) : FissureSource :=
  if fm_is_storm f then SourceRailjack else if fm_steel_path f then SourceSteelPath else SourceNormal.

Definition invasion_on_watchlist (i : InvasionMission) (prefs : WarframePrefs) : bool :=
  is_some_and (λ r, invasion_watchlisted prefs (rw_item_key r)) (im_attacker_reward i)
  || is_some_and (λ r, invasion_watchlisted prefs (rw_item_key r)) (im_defender_reward i).

(** [invasion_reward_catalog]: the first label of every key, by label. *)
Definition catalog_add (out : list (str * str)) (r : RewardLine) : list (str * str) :=
  if existsb (λ e, str_eqb (fst e) (rw_item_key r)) out then out else out ++ [(rw_item_key r, rw_label r)].

Definition invasion_reward_catalog (invasions : list InvasionMission) : list (str * str) :=
  let rewards := invasions ≫= λ i, option_list (im_attacker_reward i) ++ option_list (im_defender_reward i) in
  sort_by_key (λ e, (snd e, fst e)) (foldl catalog_add [] rewards).

(** * Between polls *)

(** At most 64 phases are walked through. *)
Fixpoint walk_phases (steps : nat) (is_day : bool) (expires now_secs : Z) : bool * Z :=
  match steps with
  | O => (is_day, expires)
  | S steps =>
      if now_secs <? expires then (is_day, expires)
      else if is_day then walk_phases steps false (saturating_add u64_max expires CETUS_NIGHT_SECS) now_secs
      else walk_phases steps true (saturating_add u64_max expires CETUS_DAY_SECS) now_secs
  end.

Definition advance_cetus_like (c : CycleStatus) (now_secs : Z) (day night : string) : CycleStatus * bool :=
  if now_secs <? cy_expires_at_secs c then (c, false)
  else
    let is_day := bool_decide (cy_state c = Some (lit day)) || isNone (cy_state c) in
    let '(is_day, expires) := walk_phases 64 is_day (cy_expires_at_secs c) now_secs in
    (mkCycleStatus (cy_id c) (cy_label c) (Some (lit (if is_day then day else night)))
       (Z.max expires (saturating_add u64_max now_secs 1)), true).

(** One row, and whether a new poll is useful. *)
Definition advance_cycle (now_secs now_ms : Z) (c : CycleStatus) : option (CycleStatus * bool) :=
  if str_eqb (cy_id c) (lit "cetus") then Some (advance_cetus_like c now_secs "day" "night")
  else if str_eqb (cy_id c) (lit "cambion") then Some (advance_cetus_like c now_secs "fass" "vome")
  else if str_eqb (cy_id c) (lit "vallis") then v ← vallis_at now_ms; Some (v, false)
  else if str_eqb (cy_id c) (lit "zariman") && (cy_expires_at_secs c <=? now_secs) then z ← zariman_at now_ms; Some (z, true)
  else Some (c, false).

Fixpoint advance_cycles (now_secs now_ms : Z) (l : list CycleStatus) : option (list CycleStatus * bool) :=
  match l with
  | [] => Some ([], false)
  | c :: l =>
      '(c, refresh) ← advance_cycle now_secs now_ms c;
      '(l, refreshes) ← advance_cycles now_secs now_ms l;
      Some (c :: l, refresh || refreshes)
  end.

(** The loop that moves the daily reset on: nothing when the fuel is spent. *)
Fixpoint roll_reset (fuel : nat) (reset now_secs : Z) : option Z :=
  if now_secs <? reset then Some reset
  else match fuel with O => None | S fuel => roll_reset fuel (saturating_add u64_max reset 86400) now_secs end.

Definition advance_live_timers (fuel : nat) (w : WorldstateSnapshot) (now_secs : Z) : option (WorldstateSnapshot * bool) :=
  if bool_decide (ws_cycles w = []) && isNone (ws_daily_reset_at_secs w) then Some (w, false)
  else
    '(cycles, refresh) ← advance_cycles now_secs (saturating_millis now_secs) (ws_cycles w);
    reset ← (match ws_daily_reset_at_secs w with
             | None => Some None
             | Some reset => Some <$> roll_reset fuel reset now_secs
             end);
    Some (w <| ws_cycles := cycles |> <| ws_daily_reset_at_secs := reset |>, refresh).

(** * Cycles in seconds

    The arithmetic in milliseconds, with its roundings and its overflows,
    comes to this: the end of a bounty is taken to the minute; the last 50
    minutes before it are night. *)

(** Clocks the world state is read at: [i64] milliseconds, with a margin. *)
Definition clock_ok (now_secs : Z) : Prop := 0 ≤ now_secs ≤ 9000000000000000.

Lemma i64_Some z : i64_min ≤ z ≤ i64_max → i64 z = Some z.
Proof. intros Hz. unfold i64, try_from. by rewrite (proj2 (Z.leb_le i64_min z)), (proj2 (Z.leb_le z i64_max)) by lia. Qed.

Lemma to_u64_Some z : 0 ≤ z ≤ u64_max → to_u64 z = Some z.
Proof. intros Hz. unfold to_u64, try_from. by rewrite (proj2 (Z.leb_le 0 z)), (proj2 (Z.leb_le z u64_max)) by lia. Qed.

Lemma saturating_millis_clock now : clock_ok now → saturating_millis now = now * 1000.
Proof.
  intros Hn. unfold saturating_millis, saturating_mul, clock_ok in *. rewrite Z.min_r by (unfold u64_max; lia).
  unfold try_from. rewrite (proj2 (Z.leb_le _ _)), (proj2 (Z.leb_le _ _)) by (unfold i64_min, i64_max; lia). done.
Qed.

Lemma saturating_millis_range s : 0 ≤ s → 0 ≤ saturating_millis s ≤ i64_max.
Proof.
  intros Hs. unfold saturating_millis, try_from, saturating_mul, i64_min, i64_max, u64_max.
  destruct (_ && _) eqn:E; cbn; [|lia]. apply andb_true_iff in E as [?%Z.leb_le ?%Z.leb_le]. lia.
Qed.

Lemma quot_exact k d r : 0 < d → Z.abs r < d → 0 ≤ k * r → Z.quot (k * d + r) d = k.
Proof.
  intros Hd Hr Hs. rewrite Z.add_comm. destruct (Z.eq_dec k 0) as [->|Hk].
  - rewrite Z.add_0_r. by apply Z.quot_small_iff; lia.
  - rewrite Z.quot_add by nia. rewrite (proj2 (Z.quot_small_iff r d ltac:(lia))) by lia. lia.
Qed.

Lemma div_round_exact k d :
  0 < d → i64_min ≤ k * d - d / 2 → k * d + d / 2 ≤ i64_max → div_round (k * d) d = Some k.
Proof.
  intros Hd Hlo Hhi. unfold div_round. rewrite (proj2 (Z.eqb_neq d 0)) by lia.
  rewrite (Z.quot_div_nonneg d 2) by lia. pose proof (Z.div_lt d 2 ltac:(lia) ltac:(lia)).
  pose proof (Z.div_pos d 2 ltac:(lia) ltac:(lia)).
  assert (i64_min ≤ k ≤ i64_max) by (unfold i64_min, i64_max in *; nia).
  destruct (Z.leb_spec 0 (k * d)).
  - rewrite i64_Some by lia. cbn. rewrite quot_exact by nia. by apply i64_Some.
  - rewrite i64_Some by lia. cbn. replace (k * d - d / 2) with (k * d + - (d / 2)) by lia.
    rewrite quot_exact by nia. by apply i64_Some.
Qed.

(** The minute a bounty ends, in seconds. *)
Definition end_minute (secs : Z) : Z := saturating_millis secs / 60000 * 60.

Lemma end_minute_range secs : 0 ≤ secs → 0 ≤ end_minute secs ∧ end_minute secs * 1000 ≤ i64_max - 55807.
Proof.
  intros Hs. unfold end_minute. pose proof (saturating_millis_range secs Hs) as Hr. unfold i64_max in *.
  pose proof (Z.mul_div_le (saturating_millis secs) 60000 ltac:(lia)).
  pose proof (Z.div_pos (saturating_millis secs) 60000 ltac:(lia) ltac:(lia)).
  assert (saturating_millis secs / 60000 ≤ 9223372036854775807 / 60000) as Hd by (apply Z.div_le_mono; lia).
  change (9223372036854775807 / 60000) with 153722867280912 in Hd. lia.
Qed.

Lemma bounty_end_minute secs : 0 ≤ secs → bounty_end secs = Some (end_minute secs * 1000).
Proof.
  intros Hs. unfold bounty_end. pose proof (end_minute_range secs Hs) as [H1 H2].
  pose proof (Z.div_mod (saturating_millis secs) 60000 ltac:(lia)).
  replace (saturating_millis secs - saturating_millis secs mod 60000) with (end_minute secs * 1000) by (unfold end_minute; lia).
  apply i64_Some. unfold i64_min, i64_max in *. lia.
Qed.

Lemma quot_seconds z : Z.quot (z * 1000) 1000 = z.
Proof. apply Z.quot_mul. lia. Qed.

Lemma cetus_like_seconds id label end_ now d n :
  0 ≤ end_ → clock_ok now →
  cetus_like_cycle id label end_ (now * 1000) d n =
    Some (if now <? end_minute end_ - CETUS_NIGHT_SECS
          then mkCycleStatus (lit id) (lit label) (Some (lit d)) (end_minute end_ - CETUS_NIGHT_SECS)
          else mkCycleStatus (lit id) (lit label) (Some (lit n)) (end_minute end_)).
Proof.
  intros He Hn. pose proof (end_minute_range end_ He) as [H1 H2]. unfold cetus_like_cycle, CETUS_NIGHT_SECS, clock_ok in *.
  rewrite bounty_end_minute by done. assert (∃ m, end_minute end_ = m * 60) as [m Hm] by (eexists; unfold end_minute; done).
  set (e := end_minute end_) in *. clearbody e. unfold i64_max in *. cbn [mbind option_bind].
  rewrite i64_Some by (unfold i64_min, i64_max; lia). cbn [mbind option_bind].
  replace (e * 1000 - now * 1000) with ((e - now) * 1000) by lia.
  rewrite div_round_exact by (change (1000 / 2) with 500; unfold i64_min, i64_max; lia). cbn [mbind option_bind].
  destruct (Z.ltb_spec 3000 (e - now)); destruct (Z.ltb_spec now (e - 3000)); try lia.
  - rewrite i64_Some by (unfold i64_min, i64_max; lia). cbn [mbind option_bind].
    rewrite (proj2 (Z.ltb_lt _ _)) by lia.
    rewrite i64_Some by (unfold i64_min, i64_max; lia). cbn [mbind option_bind].
    rewrite i64_Some by (unfold i64_min, i64_max; lia). cbn [mbind option_bind].
    replace (now * 1000 + (e - now - 3000) * 1000) with ((m - 50) * 60000) by lia.
    rewrite div_round_exact by (change (60000 / 2) with 30000; unfold i64_min, i64_max; lia). cbn [mbind option_bind].
    rewrite i64_Some by (unfold i64_min, i64_max; lia). cbn [mbind option_bind].
    replace ((m - 50) * 60000) with ((e - 3000) * 1000) by lia.
    rewrite quot_seconds, to_u64_Some by (unfold u64_max; lia). done.
  - cbn [mbind option_bind]. destruct (Z.ltb_spec 0 (e - now)).
    + rewrite i64_Some by (unfold i64_min, i64_max; lia). cbn [mbind option_bind].
      rewrite i64_Some by (unfold i64_min, i64_max; lia). cbn [mbind option_bind].
      replace (now * 1000 + (e - now) * 1000) with (m * 60000) by lia.
      rewrite div_round_exact by (change (60000 / 2) with 30000; unfold i64_min, i64_max; lia). cbn [mbind option_bind].
      rewrite i64_Some by (unfold i64_min, i64_max; lia). cbn [mbind option_bind].
      replace (m * 60000) with (e * 1000) by lia. rewrite quot_seconds, to_u64_Some by (unfold u64_max; lia). done.
    + rewrite quot_seconds, to_u64_Some by (unfold u64_max; lia). done.
Qed.

Lemma mod_thousand a b : 0 < b → (a * 1000) mod (b * 1000) = a mod b * 1000.
Proof. intros Hb. apply Zmult_mod_distr_r. Qed.

(** Vallis is warm for 400 of its 1600 seconds. *)
Definition vallis_phase (now : Z) : Z := (now - 1770234408) mod 1600.

Lemma vallis_seconds now :
  clock_ok now →
  vallis_at (now * 1000) =
    Some (mkCycleStatus (lit "vallis") (lit "Vallis") (Some (lit (if vallis_phase now <? 400 then "warm" else "cold")))
      (now + if vallis_phase now <? 400 then 400 - vallis_phase now
             else if vallis_phase now =? 400 then 0 else 1600 - vallis_phase now)).
Proof.
  intros Hn. unfold vallis_at, vallis_phase, clock_ok, VALLIS_EPOCH_MS, VALLIS_LOOP_MS, VALLIS_COLD_MS in *.
  replace (now * 1000 - 1770234408000) with ((now - 1770234408) * 1000) by lia.
  rewrite i64_Some by (unfold i64_min, i64_max; lia). cbn [mbind option_bind].
  rewrite (mod_thousand (now - 1770234408) 1600 ltac:(lia) : _ mod 1600000 = _).
  pose proof (Z.mod_pos_bound (now - 1770234408) 1600 ltac:(lia)) as Hr.
  set (r := (now - 1770234408) mod 1600) in *. clearbody r.
  assert (Ht : (if 1600000 - r * 1000 <? 1200000 then 1600000 - r * 1000 else 1600000 - r * 1000 - 1200000) =
               (if r <? 400 then 400 - r else if r =? 400 then 0 else 1600 - r) * 1000).
  { destruct (Z.ltb_spec (1600000 - r * 1000) 1200000), (Z.ltb_spec r 400), (Z.eqb_spec r 400); lia. }
  rewrite Ht. rewrite <- Z.mul_add_distr_r.
  set (k := if r <? 400 then _ else _). assert (0 ≤ k ≤ 1600) by (subst k; destruct (Z.ltb_spec r 400), (Z.eqb_spec r 400); lia).
  clearbody k. rewrite i64_Some by (unfold i64_min, i64_max; lia). cbn [mbind option_bind].
  rewrite quot_seconds, to_u64_Some by (unfold u64_max; lia). cbn [from_option].
  do 4 f_equal. destruct (Z.ltb_spec 1200000 (1600000 - r * 1000)), (Z.ltb_spec r 400); try done; lia.
Qed.

(** Zariman changes hands every 9000 seconds. *)
Definition zariman_phase (now : Z) : Z := (now - 1655182800) mod 18000.

Lemma zariman_seconds now :
  clock_ok now →
  zariman_at (now * 1000) = Some (zariman_status (zariman_phase now <? 9000) (now + (9000 - zariman_phase now mod 9000))).
Proof.
  intros Hn. unfold zariman_at, zariman_phase, clock_ok, ZARIMAN_EPOCH_MS, ZARIMAN_FULL_MS, ZARIMAN_HALF_MS in *.
  replace (now * 1000 - 1655182800000) with ((now - 1655182800) * 1000) by lia.
  rewrite i64_Some by (unfold i64_min, i64_max; lia). cbn [mbind option_bind].
  rewrite (mod_thousand (now - 1655182800) 18000 ltac:(lia) : _ mod 18000000 = _).
  pose proof (Z.mod_pos_bound (now - 1655182800) 18000 ltac:(lia)) as Hr.
  set (r := (now - 1655182800) mod 18000) in *. clearbody r.
  assert (r mod 9000 = if r <? 9000 then r else r - 9000) as ->.
  { destruct (Z.ltb_spec r 9000); [apply Z.mod_small; lia|]. symmetry. apply (Z.mod_unique r 9000 1); lia. }
  set (to_flip := if _ <? _ then _ else _).
  assert (Z.max to_flip 1000 = (9000 - if r <? 9000 then r else r - 9000) * 1000) as ->.
  { subst to_flip. destruct (Z.ltb_spec 9000000 (18000000 - r * 1000)), (Z.ltb_spec r 9000); lia. }
  rewrite <- Z.mul_add_distr_r.
  set (k := 9000 - _). assert (0 ≤ k ≤ 9000) by (subst k; destruct (Z.ltb_spec r 9000); lia). clearbody k.
  rewrite i64_Some by (unfold i64_min, i64_max; lia). cbn [mbind option_bind].
  rewrite quot_seconds, to_u64_Some by (unfold u64_max; lia). cbn [from_option]. do 2 f_equal.
  destruct (Z.ltb_spec 9000000 (18000000 - r * 1000)), (Z.ltb_spec r 9000); try done; lia.
Qed.

Lemma zariman_bounty_seconds end_ now :
  0 ≤ end_ → clock_ok now →
  ∃ is_corpus, zariman_from_bounty end_ (now * 1000) =
    Some (if now <? end_minute end_ then zariman_status is_corpus (end_minute end_)
          else zariman_status (zariman_phase now <? 9000) (now + (9000 - zariman_phase now mod 9000))).
Proof.
  intros He Hn. pose proof (end_minute_range end_ He) as [H1 H2]. unfold zariman_from_bounty.
  rewrite bounty_end_minute, (zariman_seconds now Hn) by done. set (e := end_minute end_) in *. clearbody e. unfold clock_ok in *.
  cbn [mbind option_bind]. rewrite (i64_Some (e * 1000 - now * 1000)) by (unfold i64_min, i64_max in *; lia). cbn [mbind option_bind].
  destruct (Z.leb_spec (e * 1000 - now * 1000) 0), (Z.ltb_spec now e); try lia; [by exists true|].
  rewrite (i64_Some (now * 1000 + (e * 1000 - now * 1000))), (i64_Some (e * 1000 - 5000)) by (unfold i64_min, i64_max in *; lia).
  cbn [mbind option_bind]. rewrite i64_Some by (unfold i64_min, i64_max, ZARIMAN_EPOCH_MS in *; lia). cbn [mbind option_bind].
  eexists. replace (now * 1000 + (e * 1000 - now * 1000)) with (e * 1000) by lia.
  rewrite quot_seconds, to_u64_Some by (unfold u64_max, i64_max in *; lia). done.
Qed.

Lemma midnight_Some secs :
  clock_ok secs → ∃ reset, next_utc_midnight secs = Some reset ∧ secs < reset ≤ secs + 86400 ∧ reset mod 86400 = 0.
Proof.
  intros Hs. unfold next_utc_midnight, clock_ok in *. pose proof (Z.div_mod secs 86400 ltac:(lia)).
  pose proof (Z.mod_pos_bound secs 86400 ltac:(lia)). eexists. rewrite to_u64_Some by (unfold u64_max; lia).
  split; [done|]. split; [lia|]. apply Z.mod_mul. lia.
Qed.

(** * What a world state that was read is like *)

Lemma to_u64_range z n : to_u64 z = Some n → 0 ≤ n ≤ u64_max.
Proof.
  unfold to_u64, try_from. destruct (_ && _) eqn:E; [|done]. intros [= <-]. apply andb_true_iff in E as [?%Z.leb_le ?%Z.leb_le]. done.
Qed.

Lemma normalize_epoch_range n : 0 ≤ n ≤ u64_max → 0 ≤ normalize_epoch n ≤ u64_max.
Proof.
  intros Hn. unfold normalize_epoch. destruct (_ <? _); [|done]. split; [apply Z.div_pos; lia|].
  apply Z.div_le_upper_bound; unfold u64_max in *; lia.
Qed.

Lemma parse_epoch_text_range s n : parse_epoch_text s = Some n → 0 ≤ n ≤ u64_max.
Proof.
  unfold parse_epoch_text. intros (m & Hm & ->)%fmap_Some. apply normalize_epoch_range.
  apply (parse_unsigned_range u64_max s); [unfold u64_max; lia|done].
Qed.

Lemma parse_epoch_value_range v n : parse_epoch_value v = Some (Some n) → 0 ≤ n ≤ u64_max.
Proof.
  unfold parse_epoch_value, value_u64. destruct v as [| |z| |s| |]; cbn [value_i64 value_str]; try done.
  - destruct (to_u64 z) as [m|] eqn:Em; [intros [= <-]; by apply normalize_epoch_range, (to_u64_range z)|].
    destruct (i64 z) as [m|] eqn:Ei; [|done]. intros [= Hn]. apply fmap_Some in Hn as (k & Hk & ->).
    by apply normalize_epoch_range, (to_u64_range m).
  - cbn. intros [= Hn]. by apply parse_epoch_text_range in Hn.
Qed.

Lemma parse_epoch_range v n : parse_epoch_secs v = Some n → 0 ≤ n ≤ u64_max.
Proof.
  destruct v as [v|]; [|done]. unfold parse_epoch_secs. cbn.
  destruct (parse_epoch_value v) as [r|] eqn:Ev; [intros ->; by apply (parse_epoch_value_range v)|].
  destruct (value_get "$date" v) as [date|]; [|done]. cbn.
  destruct (parse_epoch_value date) as [r|] eqn:Ed; [intros ->; by apply (parse_epoch_value_range date)|].
  destruct (value_get "$numberLong" date) as [l|]; [|done]. cbn.
  destruct (value_str l); [|done]. cbn. apply parse_epoch_text_range.
Qed.

Lemma capped_vec_length {A B} (read : A → option B) max l r :
  capped_vec read max l = Some r → (length r ≤ max)%nat ∧ Forall (λ y, ∃ x, read x = Some y) r.
Proof.
  revert max r. induction l as [|x l IH]; intros max r; [destruct max; intros [= <-]; cbn; split; (lia || constructor)|].
  destruct max as [|max]; [done|]. cbn. destruct x as [x|]; [|done]. cbn. destruct (read x) as [y|] eqn:Ey; [|done]. cbn.
  destruct (capped_vec read max l) as [values|] eqn:E; [|done]. cbn. intros [= <-].
  destruct (IH _ _ E) as [Hlen Hall]. split; [cbn; lia|]. constructor; [by exists x|done].
Qed.

(** Instance ids, and the keys made of them. *)
Definition id_text (s : str) : Prop :=
  s ≠ [] ∧ (length s ≤ invasion_instance_id_max_chars)%nat ∧ Forall (λ c, id_character c = true) s.

Lemma id_character_utf8 s : forallb id_character (utf8 s) = true → Forall (λ c, id_character c = true) s.
Proof.
  intros Hs. apply Forall_forall. intros c Hc.
  assert (∀ b, b ∈ utf8_char c → id_character b = true) as Hb.
  { intros b Hb. rewrite forallb_forall in Hs. apply Hs, list_elem_of_In. unfold utf8. apply list_elem_of_bind. by exists c. }
  unfold utf8_char in Hb. destruct (Z.ltb_spec c 128); [apply Hb, list_elem_of_singleton; done|].
  exfalso. assert (∀ b, 127 < b → id_character b = false) as Hbig.
  { intros b Hbb. unfold id_character, is_ascii_alphanumeric, is_ascii_alphabetic, is_ascii_upper, is_ascii_lower, is_ascii_digit. bools. tests; done || lia. }
  assert (∀ x l, 127 < x → (∀ b, b ∈ x :: l → id_character b = true) → False) as Hno.
  { intros x l Hx Hl. specialize (Hl x (list_elem_of_here _ _)). by rewrite Hbig in Hl. }
  pose proof (Z.div_pos c 64 ltac:(lia) ltac:(lia)). pose proof (Z.div_pos c 4096 ltac:(lia) ltac:(lia)).
  pose proof (Z.div_pos c 262144 ltac:(lia) ltac:(lia)).
  destruct (c <? 2048); [by eapply Hno, Hb; lia|]. destruct (c <? 65536); by eapply Hno, Hb; lia.
Qed.

Lemma plain_entry max e :
  e ≠ [] → Forall (λ c, is_whitespace c = false ∧ bad_char c = false) e → (length e ≤ max)%nat → entry_ok max e.
Proof.
  intros Hne He Hlen. rewrite Forall_forall in He. split; [done|]. split; [|split; [done|]].
  - apply trim_id; intros c s' E; apply (He c).
    + rewrite E. by left.
    + apply elem_of_reverse. rewrite E. by left.
  - destruct (existsb bad_char e) eqn:E; [|done].
    apply existsb_exists in E as (c & Hc & Hb). apply list_elem_of_In in Hc. destruct (He c Hc) as [_ Hf]. by rewrite Hf in Hb.
Qed.

Lemma id_character_plain c : id_character c = true → is_whitespace c = false ∧ bad_char c = false.
Proof.
  unfold id_character, is_ascii_alphanumeric, is_ascii_alphabetic, is_ascii_upper, is_ascii_lower, is_ascii_digit,
    is_whitespace, bad_char, is_control. intros Hc. bools. split; tests; done || lia.
Qed.

Lemma digit_plain c : is_ascii_digit c = true → is_whitespace c = false ∧ bad_char c = false.
Proof. intros Hc. apply id_character_plain. unfold id_character, is_ascii_alphanumeric. by rewrite Hc, orb_true_r. Qed.

Lemma invasion_key_ok s : id_text s → entry_ok WARFRAME_ACTIVITY_DONE_ENTRY_MAX_CHARS (invasion_done_key s).
Proof.
  intros (Hne & Hlen & Hs). unfold invasion_done_key. apply plain_entry; [done|..].
  - apply Forall_app. split; [by repeat constructor|]. eapply Forall_impl; [exact Hs|]. apply id_character_plain.
  - rewrite length_app. unfold invasion_instance_id_max_chars in Hlen. change (length INVASION_DONE_KEY_PREFIX) with 9%nat in *.
    unfold WARFRAME_ACTIVITY_DONE_ENTRY_MAX_CHARS in *. lia.
Qed.

Lemma mission_key_ok (prefix : string) expires index :
  0 ≤ expires ≤ u64_max → (index < 3)%nat → (length (lit prefix) ≤ 10)%nat →
  Forall (λ c, is_whitespace c = false ∧ bad_char c = false) (lit prefix) →
  entry_ok WARFRAME_ACTIVITY_DONE_ENTRY_MAX_CHARS (lit prefix ++ show_Z expires ++ lit ":" ++ show_Z (Z.of_nat index)).
Proof.
  intros He Hi Hl Hp. apply plain_entry.
  - intros E. apply (f_equal length) in E. rewrite !length_app in E.
    change (length (lit ":")) with 1%nat in E. change (@length Z []) with 0%nat in E. lia.
  - repeat (apply Forall_app; split); [done| |by repeat constructor|];
      (eapply Forall_impl; [apply show_Z_digits; lia|apply digit_plain]).
  - rewrite !length_app. pose proof (show_Z_length 20 expires ltac:(lia)
      ltac:(change (10 ^ Z.of_nat 20) with 100000000000000000000; unfold u64_max in *; lia)).
    pose proof (show_Z_length 1 (Z.of_nat index) ltac:(lia) ltac:(change (10 ^ Z.of_nat 1) with 10; lia)). change (length (lit ":")) with 1%nat. unfold WARFRAME_ACTIVITY_DONE_ENTRY_MAX_CHARS. lia.
Qed.

Lemma read_object_id_ok shape oid : oi_oid (read_object_id shape) = Some oid → id_text oid.
Proof.
  destruct shape as [fields|]; [|done]. unfold read_object_id.
  enough (∀ o, (∀ oid, oi_oid o = Some oid → id_text oid) →
    oi_oid (foldl object_id_field o fields) = Some oid → id_text oid) as Hall.
  { by apply Hall. }
  induction fields as [|f fields IH]; intros o Ho; cbn; [apply Ho|]. apply IH.
  unfold object_id_field. destruct f as [v|]; [|done]. destruct (_ && _); [|done].
  destruct v as [s|]; [|done]. cbn. unfold sanitize_invasion_instance_id, then_some.
  destruct (_ && _) eqn:E; [|done]. cbn. intros ? [= <-]. bools. split; [done|].
  split; [by apply Nat.leb_le|]. by apply id_character_utf8.
Qed.

Lemma hex16_ok z : id_text (hex16 z).
Proof.
  unfold hex16. split; [done|]. split; [rewrite length_fmap; apply Nat.leb_le; by vm_compute|].
  apply Forall_fmap, Forall_forall. intros i _. cbn.
  pose proof (Z.mod_pos_bound (Z.shiftr z (4 * Z.of_nat i)) 16 ltac:(lia)) as Hd. set (d := _ mod 16) in *. clearbody d.
  unfold id_character, is_ascii_alphanumeric, is_ascii_alphabetic, is_ascii_upper, is_ascii_lower, is_ascii_digit.
  destruct (Z.ltb_spec d 10); bools; tests; done || lia.
Qed.

Section fit.
Context `{WarframeTables}.

Lemma lookup_or_pretty_length table raw : (length (lookup_or_pretty table raw) ≤ DISPLAY_MAX)%nat.
Proof.
  assert (0 < DISPLAY_MAX)%nat as Hd by (unfold DISPLAY_MAX; lia).
  unfold lookup_or_pretty, sanitize_display. case_bool_decide; [cbn; lia|].
  destruct (table _); [by apply bound_chars_length|]. destruct (table _); by apply bound_chars_length.
Qed.

Definition reward_ok (r : RewardLine) : Prop :=
  (length (rw_item_key r) ≤ DISPLAY_MAX)%nat ∧ (length (rw_label r) ≤ DISPLAY_MAX)%nat ∧ 1 ≤ rw_count r ≤ u32_max.

Lemma parse_reward_ok items r : parse_reward items = Some r → reward_ok r.
Proof.
  unfold parse_reward. destruct (head items) as [first|]; [|done]. cbn. destruct (ci_item_type first) as [t|]; [|done]. cbn.
  intros [= <-]. repeat split; cbn.
  - apply bound_chars_length. unfold DISPLAY_MAX. lia.
  - apply lookup_or_pretty_length.
  - lia.
  - unfold u32_max. lia.
Qed.

Definition invasion_ok (i : InvasionMission) : Prop :=
  id_text (im_instance_id i)
  ∧ (im_node i ≠ [] ∧ length (im_node i) ≤ STRING_MAX_CHARS)%nat
  ∧ (length (im_attacker_faction i) ≤ DISPLAY_MAX ∧ length (im_defender_faction i) ≤ DISPLAY_MAX)%nat
  ∧ (∀ r, im_attacker_reward i = Some r ∨ im_defender_reward i = Some r → reward_ok r).

Lemma bound_chars_nonempty s n : s ≠ [] → bound_chars s n ≠ [].
Proof. intros Hs. unfold bound_chars. destruct (_ <=? _)%nat; [done|]. by destruct (take _ _). Qed.

Lemma parse_invasion_ok raw i :
  (∀ oid, ri_id raw ≫= oi_oid = Some oid → id_text oid) → parse_invasion raw = Some i → invasion_ok i.
Proof.
  intros Hid. unfold parse_invasion. destruct (ri_node raw) as [node|]; [|done]. cbn. case_bool_decide as Hne; [done|].
  intros Hi. apply Some_inj in Hi as <-. split; [|split; [|split]]; cbn.
  - destruct (ri_id raw ≫= oi_oid) as [oid|] eqn:E; [by apply Hid|apply hex16_ok].
  - split; [by apply bound_chars_nonempty|]. apply bound_chars_length. unfold STRING_MAX_CHARS. lia.
  - split; apply lookup_or_pretty_length.
  - intros r [Hr|Hr]; by eapply parse_reward_ok.
Qed.

Definition fissure_ok (t : Z) (f : FissureMission) : Prop :=
  t < fm_expires_at_secs f ≤ u64_max ∧ (length (fm_node f) ≤ STRING_MAX_CHARS ∧ length (fm_mission_type f) ≤ STRING_MAX_CHARS)%nat.

Lemma star_chart_ok m f : star_chart_fissure m = Some f →
  fm_expires_at_secs f ≤ u64_max ∧ (length (fm_node f) ≤ STRING_MAX_CHARS ∧ length (fm_mission_type f) ≤ STRING_MAX_CHARS)%nat.
Proof.
  unfold star_chart_fissure. destruct (ra_modifier m) as [x|]; [|done]. cbn. destruct (from_void_modifier x); [|done]. cbn.
  destruct (parse_epoch_secs (ra_expiry m)) as [e|] eqn:E; [|done]. cbn. intros [= <-]. apply parse_epoch_range in E.
  cbn. repeat split; [lia|apply bound_chars_length; unfold STRING_MAX_CHARS; lia..].
Qed.

Lemma void_storm_ok m f : void_storm_fissure m = Some f →
  fm_expires_at_secs f ≤ u64_max ∧ (length (fm_node f) ≤ STRING_MAX_CHARS ∧ length (fm_mission_type f) ≤ STRING_MAX_CHARS)%nat.
Proof.
  unfold void_storm_fissure. destruct (vs_tier m) as [x|]; [|done]. cbn. destruct (from_void_modifier x); [|done]. cbn.
  destruct (parse_epoch_secs (vs_expiry m)) as [e|] eqn:E; [|done]. cbn. intros [= <-]. apply parse_epoch_range in E.
  cbn. repeat split; [lia|apply bound_chars_length; unfold STRING_MAX_CHARS; lia|apply Nat.leb_le; by vm_compute].
Qed.

Lemma parse_fissures_ok active storms t :
  Forall (fissure_ok t) (parse_fissures active storms t)
  ∧ StronglySorted (λ f g, blt (fissure_key g) (fissure_key f) = false) (parse_fissures active storms t)
  ∧ (length (parse_fissures active storms t) ≤ FISSURE_LIST_MAX)%nat.
Proof.
  unfold parse_fissures. set (l := filter _ _). split; [|split].
  - apply Forall_take. rewrite sort_by_key_perm. subst l. apply Forall_forall. intros f [Hlt Hf]%list_elem_of_filter.
    apply elem_of_app in Hf as [(m & Hm & Hf)%list_elem_of_omap|(m & Hm & Hf)%list_elem_of_omap];
      [apply star_chart_ok in Hf|apply void_storm_ok in Hf]; by destruct Hf as [? ?].
  - pose proof (sort_by_key_sorted fissure_key l) as Hs. rewrite <- (take_drop FISSURE_LIST_MAX (sort_by_key fissure_key l)) in Hs.
    by apply StronglySorted_app_1_l in Hs || by apply StronglySorted_app in Hs as (? & ? & ?).
  - rewrite length_take. lia.
Qed.

Definition hunt_ok (t expires : Z) (missions : list ActivityMission) : Prop :=
  t < expires ≤ u64_max ∧ (length missions ≤ ACTIVITY_MISSION_MAX)%nat.

Lemma parse_sortie_ok t raw s : parse_sortie t raw = Some s → hunt_ok t (so_expires_at_secs s) (so_missions s).
Proof.
  unfold parse_sortie. destruct (parse_epoch_secs _) as [e|] eqn:E; [|done]. cbn. apply parse_epoch_range in E.
  destruct (Z.leb_spec e t); [done|]. intros [= <-]. split; [cbn; lia|]. cbn [so_missions]. rewrite length_take. unfold ACTIVITY_MISSION_MAX. lia.
Qed.

Lemma parse_archon_ok t raw a : parse_archon t raw = Some a → hunt_ok t (ah_expires_at_secs a) (ah_missions a).
Proof.
  unfold parse_archon. destruct (parse_epoch_secs _) as [e|] eqn:E; [|done]. cbn. apply parse_epoch_range in E.
  destruct (Z.leb_spec e t); [done|]. intros [= <-]. split; [cbn; lia|]. cbn [ah_missions]. rewrite length_take. unfold ACTIVITY_MISSION_MAX. lia.
Qed.
End fit.

Section read.
Context `{WarframeTables}.

Lemma read_invasion_ids x y oid : read_invasion x = Some y → ri_id y ≫= oi_oid = Some oid → id_text oid.
Proof.
  unfold read_invasion. destruct (read_reward (ri_attacker_reward x)); [|done]. cbn.
  destruct (read_reward (ri_defender_reward x)); [|done]. cbn. intros Hy. apply Some_inj in Hy as <-. cbn.
  destruct (ri_id x) as [shape|]; [|done]. cbn. apply read_object_id_ok.
Qed.

Lemma read_worldstate_ids d raw :
  read_worldstate d = Some raw → Forall (λ i, ∀ oid, ri_id i ≫= oi_oid = Some oid → id_text oid) (rt_invasions raw).
Proof.
  unfold read_worldstate. intros Hr.
  repeat (match type of Hr with (?o ≫= _) = _ => destruct o eqn:?; [|done]; cbn [mbind option_bind] in Hr end).
  apply Some_inj in Hr as <-. cbn [rt_invasions].
  match goal with E : capped_vec read_invasion _ _ = Some ?l |- Forall _ ?l => destruct (capped_vec_length _ _ _ _ E) as [_ Hall] end.
  eapply Forall_impl; [exact Hall|]. intros y [x Hx] oid. by eapply read_invasion_ids.
Qed.

(** A world state that may be shown at its time. *)
Definition shown_ok (t : Z) (w : WorldstateSnapshot) : Prop :=
  (length (ws_cycles w) ≤ 4)%nat
  ∧ (∃ reset, ws_daily_reset_at_secs w = Some reset ∧ t < reset ≤ t + 86400)
  ∧ (Forall (fissure_ok t) (ws_fissures w)
     ∧ StronglySorted (λ f g, blt (fissure_key g) (fissure_key f) = false) (ws_fissures w)
     ∧ (length (ws_fissures w) ≤ FISSURE_LIST_MAX)%nat)
  ∧ (Forall invasion_ok (ws_invasions w) ∧ (length (ws_invasions w) ≤ INVASION_LIST_MAX)%nat)
  ∧ list_storable WARFRAME_ACTIVITY_DONE_ENTRY_MAX_CHARS WARFRAME_ACTIVITY_DONE_MAX (current_activity_done_keys w).

Lemma syndicate_expiry_range missions tag n : syndicate_expiry missions tag = Some n → 0 ≤ n.
Proof.
  unfold syndicate_expiry. destruct (find_first _ _) as [m|]; [|done]. cbn. intros E%parse_epoch_range. lia.
Qed.

Lemma parse_cycles_total missions t :
  clock_ok t → ∃ cycles, parse_cycles missions (t * 1000) = Some cycles ∧ (length cycles ≤ 4)%nat.
Proof.
  intros Ht. unfold parse_cycles.
  assert (∃ plains, (match syndicate_expiry missions "CetusSyndicate" with
            | Some end_ => cetus ← cetus_like_cycle "cetus" "Cetus" end_ (t * 1000) "day" "night"; Some [cetus; cambion_of cetus]
            | None => Some [] end) = Some plains ∧ (length plains ≤ 2)%nat) as (plains & -> & Hp).
  { destruct (syndicate_expiry _ _) as [e|] eqn:E; [|exists []; split; [done|cbn; lia]]. apply syndicate_expiry_range in E.
    rewrite cetus_like_seconds by done. cbn. eexists. split; [done|cbn; lia]. }
  cbn [mbind option_bind]. rewrite vallis_seconds by done. cbn [mbind option_bind].
  assert (∃ z, (match syndicate_expiry missions "ZarimanSyndicate" with
             | Some end_ => z ← zariman_from_bounty end_ (t * 1000); Some [z]
             | None => Some [] end) = Some z ∧ (length z ≤ 1)%nat) as (z & -> & Hz).
  { destruct (syndicate_expiry _ _) as [e|] eqn:E; [|exists []; split; [done|cbn; lia]]. apply syndicate_expiry_range in E.
    destruct (zariman_bounty_seconds e t E Ht) as [c ->]. cbn. eexists. split; [done|cbn; lia]. }
  cbn [mbind option_bind]. eexists. split; [done|]. rewrite length_take, length_app. cbn [length]. lia.
Qed.

(** Keys of the completion marks of what is shown. *)
Lemma done_keys_storable t w :
  Forall invasion_ok (ws_invasions w) → (length (ws_invasions w) ≤ INVASION_LIST_MAX)%nat →
  (∀ s, ws_sortie w = Some s → hunt_ok t (so_expires_at_secs s) (so_missions s)) →
  (∀ a, ws_archon w = Some a → hunt_ok t (ah_expires_at_secs a) (ah_missions a)) → 0 ≤ t →
  list_storable WARFRAME_ACTIVITY_DONE_ENTRY_MAX_CHARS WARFRAME_ACTIVITY_DONE_MAX (current_activity_done_keys w).
Proof.
  intros Hi Hlen Hs Ha Ht. unfold current_activity_done_keys. split.
  - apply Forall_app. split; [|apply Forall_app; split].
    + destruct (ws_sortie w) as [s|]; [|constructor]. destruct (Hs s eq_refl) as [He Hm]. apply Forall_fmap, Forall_seq.
      intros i Hi'. unfold compose, sortie_mission_key. apply (mission_key_ok "sortie:"); [lia|unfold ACTIVITY_MISSION_MAX in *; lia|apply Nat.leb_le; by vm_compute|by repeat constructor].
    + destruct (ws_archon w) as [a|]; [|constructor]. destruct (Ha a eq_refl) as [He Hm]. apply Forall_fmap, Forall_seq.
      intros i Hi'. unfold compose, archon_mission_key. apply (mission_key_ok "archon:"); [lia|unfold ACTIVITY_MISSION_MAX in *; lia|apply Nat.leb_le; by vm_compute|by repeat constructor].
    + apply Forall_fmap. eapply Forall_impl; [exact Hi|]. intros i (Hid & _). by apply invasion_key_ok.
  - rewrite !length_app, length_fmap. unfold INVASION_LIST_MAX, WARFRAME_ACTIVITY_DONE_MAX, ACTIVITY_MISSION_MAX in *.
    assert (length (match ws_sortie w with Some s => sortie_mission_keys (so_expires_at_secs s) (length (so_missions s)) | None => [] end) ≤ 3)%nat.
    { destruct (ws_sortie w) as [s|]; [|cbn; lia]. destruct (Hs s eq_refl) as [_ Hm]. unfold sortie_mission_keys. rewrite length_fmap, length_seq. unfold ACTIVITY_MISSION_MAX in *. lia. }
    assert (length (match ws_archon w with Some a => archon_mission_keys (ah_expires_at_secs a) (length (ah_missions a)) | None => [] end) ≤ 3)%nat.
    { destruct (ws_archon w) as [a|]; [|cbn; lia]. destruct (Ha a eq_refl) as [_ Hm]. unfold archon_mission_keys. rewrite length_fmap, length_seq. unfold ACTIVITY_MISSION_MAX in *. lia. }
    lia.
Qed.

End read.

(** * Between polls, in seconds *)

(** Where day (6000 seconds) and night (3000) stand at [now], a phase having
    ended at [expires]. *)
Definition phase_reference (is_day : bool) (expires now : Z) : bool * Z :=
  let base := expires + (now - expires) / 9000 * 9000 in
  let into := (now - expires) mod 9000 in
  if is_day then if into <? CETUS_NIGHT_SECS then (false, base + CETUS_NIGHT_SECS) else (true, base + 9000)
  else if into <? CETUS_DAY_SECS then (true, base + CETUS_DAY_SECS) else (false, base + 9000).

Lemma saturating_small a b : 0 ≤ a ≤ 9100000000000000 → 0 ≤ b ≤ 86400 → saturating_add u64_max a b = a + b.
Proof. intros Ha Hb. unfold saturating_add, u64_max. lia. Qed.

Lemma walk_past n d e now : now < e → walk_phases n d e now = (d, e).
Proof. intros He. destruct n; cbn; [done|]. by rewrite (proj2 (Z.ltb_lt _ _)) by lia. Qed.

Lemma walk_turn n d e now :
  0 ≤ e → clock_ok now → e + 9000 ≤ now → walk_phases (S (S n)) d e now = walk_phases n d (e + 9000) now.
Proof.
  intros He Hn Hle. unfold clock_ok in Hn. destruct d; cbn [walk_phases]; unfold CETUS_NIGHT_SECS, CETUS_DAY_SECS.
  - rewrite (proj2 (Z.ltb_ge now e)) by lia. rewrite (saturating_small e) by lia.
    rewrite (proj2 (Z.ltb_ge now (e + 3000))) by lia. rewrite saturating_small by lia. f_equal. lia.
  - rewrite (proj2 (Z.ltb_ge now e)) by lia. rewrite (saturating_small e) by lia.
    rewrite (proj2 (Z.ltb_ge now (e + 6000))) by lia. rewrite saturating_small by lia. f_equal. lia.
Qed.

Lemma walk_last n d e now :
  0 ≤ e ≤ now → clock_ok now → now < e + 9000 → walk_phases (S (S n)) d e now = phase_reference d e now.
Proof.
  intros He Hn Hlt. unfold clock_ok in Hn. unfold phase_reference.
  rewrite (Z.div_small (now - e)), (Z.mod_small (now - e)) by lia. cbn zeta. rewrite Z.mul_0_l, Z.add_0_r.
  destruct d; cbn [walk_phases]; unfold CETUS_NIGHT_SECS, CETUS_DAY_SECS;
    rewrite (proj2 (Z.ltb_ge now e)), (saturating_small e) by lia.
  - destruct (Z.ltb_spec (now - e) 3000), (Z.ltb_spec now (e + 3000)); try lia; [done|].
    rewrite saturating_small by lia. rewrite walk_past by lia. f_equal. lia.
  - destruct (Z.ltb_spec (now - e) 6000), (Z.ltb_spec now (e + 6000)); try lia; [done|].
    rewrite saturating_small by lia. rewrite walk_past by lia. f_equal. lia.
Qed.

Lemma phase_reference_turn d e now : phase_reference d (e + 9000) now = phase_reference d e now.
Proof.
  unfold phase_reference. replace (now - e) with (now - (e + 9000) + 1 * 9000) by lia.
  rewrite Z.div_add, Z.mod_add by lia.
  replace (e + 9000 + (now - (e + 9000)) / 9000 * 9000) with (e + ((now - (e + 9000)) / 9000 + 1) * 9000) by lia. done.
Qed.

Lemma walk_reference k d e now :
  0 ≤ e ≤ now → clock_ok now → now < e + 9000 * (Z.of_nat k + 1) →
  walk_phases (2 * S k) d e now = phase_reference d e now.
Proof.
  revert e. induction k as [|k IH]; intros e He Hn Hlt; [by apply walk_last; try lia|].
  replace (2 * S (S k))%nat with (S (S (2 * S k))) by lia.
  destruct (Z.ltb_spec now (e + 9000)); [by apply walk_last|].
  rewrite walk_turn by (done || lia). rewrite IH by (done || lia). apply phase_reference_turn.
Qed.

Lemma phase_reference_after d e now : e ≤ now → now < snd (phase_reference d e now) ≤ now + 9000.
Proof.
  intros He. unfold phase_reference, CETUS_NIGHT_SECS, CETUS_DAY_SECS.
  pose proof (Z.div_mod (now - e) 9000 ltac:(lia)). pose proof (Z.mod_pos_bound (now - e) 9000 ltac:(lia)).
  destruct d; [destruct (Z.ltb_spec ((now - e) mod 9000) 3000)|destruct (Z.ltb_spec ((now - e) mod 9000) 6000)]; cbn; lia.
Qed.

(** The daily reset. *)
Lemma roll_reset_runs fuel reset now :
  0 ≤ reset → clock_ok now → (now - reset) / 86400 < Z.of_nat fuel →
  ∃ r, roll_reset fuel reset now = Some r ∧ now < r ∧ (r = reset ∨ r ≤ now + 86400) ∧ reset ≤ r ∧ r mod 86400 = reset mod 86400.
Proof.
  revert reset. induction fuel as [|fuel IH]; intros reset Hr Hn Hf; cbn [roll_reset];
    (destruct (Z.ltb_spec now reset); [exists reset; repeat split; (done || lia || by left)|]).
  - pose proof (Z.div_pos (now - reset) 86400 ltac:(lia) ltac:(lia)). lia.
  - unfold clock_ok in Hn. rewrite saturating_small by lia.
    destruct (IH (reset + 86400)) as (r & -> & H1 & H2 & H3 & H4); [lia|done| |].
    + replace (now - (reset + 86400)) with (now - reset + (-1) * 86400) by lia. rewrite Z.div_add by lia. lia.
    + exists r. split; [done|]. split; [done|]. split; [right; lia|]. split; [lia|].
      rewrite H4. rewrite <- (Z.mul_1_l 86400) at 1. by rewrite Z.mod_add.
Qed.

(** A row, live. *)
Definition known_row (id : str) : Prop := id = lit "cetus" ∨ id = lit "cambion" ∨ id = lit "vallis" ∨ id = lit "zariman".

(** The row says what the phase is and when it ends; Vallis names the second
    it turns cold as the end of its phase. *)
Definition row_live (now : Z) (c : CycleStatus) : Prop :=
  now < cy_expires_at_secs c ∨ (cy_id c = lit "vallis" ∧ vallis_phase now = 400 ∧ cy_expires_at_secs c = now).

Definition rolled (now : Z) (c : CycleStatus) : bool :=
  existsb (str_eqb (cy_id c)) [lit "cetus"; lit "cambion"; lit "zariman"] && (cy_expires_at_secs c <=? now).

(** The row the clock says. *)
Definition live_phase (now : Z) (day night : string) (c : CycleStatus) : CycleStatus :=
  if now <? cy_expires_at_secs c then c
  else
    let '(is_day, expires) := phase_reference (bool_decide (cy_state c = Some (lit day)) || isNone (cy_state c)) (cy_expires_at_secs c) now in
    mkCycleStatus (cy_id c) (cy_label c) (Some (lit (if is_day then day else night))) expires.

Definition live_row (now : Z) (c : CycleStatus) : CycleStatus :=
  if str_eqb (cy_id c) (lit "cetus") then live_phase now "day" "night" c
  else if str_eqb (cy_id c) (lit "cambion") then live_phase now "fass" "vome" c
  else if str_eqb (cy_id c) (lit "vallis") then
    mkCycleStatus (lit "vallis") (lit "Vallis") (Some (lit (if vallis_phase now <? 400 then "warm" else "cold")))
      (now + if vallis_phase now <? 400 then 400 - vallis_phase now
             else if vallis_phase now =? 400 then 0 else 1600 - vallis_phase now)
  else if str_eqb (cy_id c) (lit "zariman") && (cy_expires_at_secs c <=? now) then
    zariman_status (zariman_phase now <? 9000) (now + (9000 - zariman_phase now mod 9000))
  else c.

Lemma advance_cetus_like_phase now day night c :
  clock_ok now → 0 ≤ cy_expires_at_secs c → now < cy_expires_at_secs c + 9000 * 32 →
  advance_cetus_like c now day night = (live_phase now day night c, cy_expires_at_secs c <=? now).
Proof.
  intros Hn He Hlt. unfold advance_cetus_like, live_phase.
  destruct (Z.ltb_spec now (cy_expires_at_secs c)) as [Hb|Hb].
  { by rewrite (proj2 (Z.leb_gt _ _)) by lia. }
  rewrite (proj2 (Z.leb_le _ _)) by lia. rewrite (walk_reference 31) by (done || lia).
  pose proof (phase_reference_after (bool_decide (cy_state c = Some (lit day)) || isNone (cy_state c)) (cy_expires_at_secs c) now Hb) as Ha.
  destruct (phase_reference _ _ _) as [d e]. cbn in Ha. unfold clock_ok in Hn.
  rewrite saturating_small by lia. rewrite Z.max_l by lia. done.
Qed.

Lemma advance_cycle_row now c :
  clock_ok now → 0 ≤ cy_expires_at_secs c → now < cy_expires_at_secs c + 9000 * 32 →
  advance_cycle now (now * 1000) c = Some (live_row now c, rolled now c).
Proof.
  intros Hn He Hlt. unfold advance_cycle, live_row, rolled. cbn [existsb].
  destruct (str_eqb (cy_id c) (lit "cetus")) eqn:E1; [by rewrite advance_cetus_like_phase|].
  destruct (str_eqb (cy_id c) (lit "cambion")) eqn:E2; [by rewrite advance_cetus_like_phase|].
  destruct (str_eqb (cy_id c) (lit "vallis")) eqn:E3.
  { rewrite vallis_seconds by done. cbn. apply str_eqb_eq in E3. by rewrite E3. }
  destruct (str_eqb (cy_id c) (lit "zariman")) eqn:E4; [|done]. cbn.
  destruct (_ <=? _); [by rewrite zariman_seconds|done].
Qed.

Lemma live_row_live now c : clock_ok now → known_row (cy_id c) → row_live now (live_row now c).
Proof.
  intros Hn Hk. unfold live_row.
  assert (∀ day night, row_live now (live_phase now day night c)) as Hphase.
  { intros day night. left. unfold live_phase. destruct (Z.ltb_spec now (cy_expires_at_secs c)) as [Hb|Hb]; [done|].
    pose proof (phase_reference_after (bool_decide (cy_state c = Some (lit day)) || isNone (cy_state c)) (cy_expires_at_secs c) now Hb) as Ha.
    destruct (phase_reference _ _ _) as [d e]. cbn in *. lia. }
  destruct (str_eqb (cy_id c) (lit "cetus")) eqn:E1; [apply Hphase|].
  destruct (str_eqb (cy_id c) (lit "cambion")) eqn:E2; [apply Hphase|].
  destruct (str_eqb (cy_id c) (lit "vallis")) eqn:E3.
  - unfold row_live. cbn. pose proof (Z.mod_pos_bound (now - 1770234408) 1600 ltac:(lia)) as Hr. fold (vallis_phase now) in Hr.
    destruct (Z.ltb_spec (vallis_phase now) 400); [left; lia|].
    destruct (Z.eqb_spec (vallis_phase now) 400); [right; repeat split; (done || lia)|left; lia].
  - destruct (str_eqb (cy_id c) (lit "zariman")) eqn:E4.
    + cbn. left. destruct (Z.leb_spec (cy_expires_at_secs c) now); [|lia]. cbn.
      pose proof (Z.mod_pos_bound (zariman_phase now) 9000 ltac:(lia)). lia.
    + exfalso. apply str_eqb_neq in E1, E2, E3, E4. destruct Hk as [?|[?|[?|?]]]; contradiction.
Qed.

Lemma advance_cycles_rows now l :
  clock_ok now → Forall (λ c, 0 ≤ cy_expires_at_secs c ∧ now < cy_expires_at_secs c + 9000 * 32) l →
  advance_cycles now (now * 1000) l = Some (live_row now <$> l, existsb (rolled now) l).
Proof.
  intros Hn. induction 1 as [|c l [Hc1 Hc2] _ IH]; [done|]. cbn [advance_cycles]. rewrite advance_cycle_row by done.
  cbn [mbind option_bind]. rewrite IH. done.
Qed.


(** The row of Vallis in the second it turns cold. *)
Example vallis_turning_cold :
  vallis_at (1770234808 * 1000) = Some (mkCycleStatus (lit "vallis") (lit "Vallis") (Some (lit "cold")) 1770234808)
  ∧ format_remaining 1770234808 1770234808 true = lit "expired".
Proof. by vm_compute. Qed.

(** The samples of the source. *)
Example cetus_sample :
  cetus_like_cycle "cetus" "Cetus" 1784334592 1784327796000 "day" "night" =
  Some (mkCycleStatus (lit "cetus") (lit "Cetus") (Some (lit "day")) 1784331540).
Proof. by vm_compute. Qed.

Definition example_rows : WorldstateSnapshot :=
  worldstate_default <| ws_cycles := [mkCycleStatus (lit "cetus") (lit "Cetus") (Some (lit "day")) 1000] |>
    <| ws_daily_reset_at_secs := Some 1000 |>.


(** Tables with no names, and a response with an invasion and a sortie. *)
#[local] Instance example_tables : WarframeTables := {|
  bosses _ := None; modifiers _ := None; items _ := None; factions _ := None; sol_nodes _ := None; mission_types _ := None;
  char_to_uppercase c := [ascii_upper c]
|}.

Definition example_document : Document :=
  mkDocument None
    [Some (mkRawSyndicateMission (Some (lit "CetusSyndicate")) (Some (VObject [(lit "$date", VObject [(lit "$numberLong", VString (lit "1784334592000"))])])))]
    [] [Some (mkRawActiveMission (Some (lit "VoidT1")) (Some (lit "MT_CAPTURE")) None (Some (VInt 1784400000)) false)] []
    [Some (mkRawHunt (Some (lit "SORTIE_BOSS_VAY_HEK")) (Some (VInt 1784400000)) [Some (mkRawSortieVariant None None None)])]
    []
    [Some (mkRawInvasion (Some (IdObject [Some (OidString (lit "bad id"))])) (Some (lit " SolNode1 ")) None None None (Some 100) false
       (Some (RewardObject [Some [Some (mkRawCountedItem (Some (lit "/Lotus/Fieldron")) None)]])) None)].

