(* ===== verification/WarframeController.v ===== *)
(** The Warframe providers' consumer in the overlay
    ([crates/overcrow-overlay/src/warframe/{controller,derived}.rs], the
    preference actions of [widgets/warframe_*.rs], and the world state's
    worker in [warframe/worldstate/client.rs]). *)

From S2P Require Import Prelude Ordered Text Float Timing Protocol Widgets WarframePrefs ConfigStore OverlayRuntime WarframeModel Worldstate.

(** * The worker of the world state *)

Definition POLL_INTERVAL : duration := from_secs 60.
Definition ERROR_BACKOFF_INITIAL : duration := from_secs 5.
Definition ERROR_BACKOFF_MAX : duration := from_secs 120.
Definition FORCE_REFRESH_MIN_INTERVAL_SECS : Z := 10.
Definition WORLDSTATE_STALE_TTL_SECS : Z := 5 * 60.

Record WorldstateClient := mkWorldstateClient {
  wc_enabled : bool;
  wc_refresh_requested : bool;
  wc_last_force_refresh_secs : Z;
  wc_shown : list WorldstateSnapshot;   (* what was published, the newest last *)
  wc_published : WorldstateSnapshot;
  wc_last_good : WorldstateSnapshot;
  wc_next_poll : instant;
  wc_error_backoff : duration;
  wc_health : list HealthCall
}.
#[export] Instance WorldstateClient_eta : Eta WorldstateClient := λ c,
  mkWorldstateClient (wc_enabled c) (wc_refresh_requested c) (wc_last_force_refresh_secs c) (wc_shown c) (wc_published c)
    (wc_last_good c) (wc_next_poll c) (wc_error_backoff c) (wc_health c).

Definition worldstate_client_new (now : instant) : WorldstateClient :=
  mkWorldstateClient false false 0 [] worldstate_default worldstate_default now ERROR_BACKOFF_INITIAL [].

(** [request_refresh], with the interface's clock. *)
Definition request_refresh (now_secs : Z) (c : WorldstateClient) : WorldstateClient :=
  if (saturating_sub now_secs (wc_last_force_refresh_secs c) <? FORCE_REFRESH_MIN_INTERVAL_SECS) || wc_refresh_requested c then c
  else c <| wc_last_force_refresh_secs := now_secs |> <| wc_refresh_requested := true |>.

(** [publish_if_changed], and whether it was. *)
Definition publish_if_changed (w : WorldstateSnapshot) (c : WorldstateClient) : WorldstateClient * bool :=
  if bool_decide (wc_published c = w) then (c, false)
  else (c <| wc_shown ::= λ l, l ++ [w] |> <| wc_published := w |>, true).

Definition failure_snapshot (last_good : WorldstateSnapshot) (attempted_at_secs : Z) (error : str) : WorldstateSnapshot :=
  let fetched_at_secs := ws_fetched_at_secs last_good in
  if has_payload last_good && (WORLDSTATE_STALE_TTL_SECS <? saturating_sub attempted_at_secs fetched_at_secs)
  then worldstate_default <| ws_fetched_at_secs := fetched_at_secs |> <| ws_last_attempt_at_secs := attempted_at_secs |>
         <| ws_error := Some error |>
  else last_good <| ws_last_attempt_at_secs := attempted_at_secs |> <| ws_error := Some error |>.

(** What one turn of the worker meets: the clock at the test and at the
    request, the answer, and the clock after it. *)
Record PollTurn := mkPollTurn {
  pt_now : instant;
  pt_fetched_at_secs : Z;
  pt_answer : result (FailureCategory * str) (list Z);
  pt_after : instant
}.

Section worker.
Context `{WarframeTables, WorldstateJson}.

Definition poll_failed (category : FailureCategory) (error : str) (t : PollTurn) (c : WorldstateClient) : WorldstateClient :=
  let c := c <| wc_health ::= λ l, l ++ [HealthFailed category] |> in
  let c := fst (publish_if_changed (failure_snapshot (wc_last_good c) (pt_fetched_at_secs t) (bound_chars error ERROR_MAX_CHARS)) c) in
  c <| wc_next_poll := pt_after t + wc_error_backoff c |>
    <| wc_error_backoff := Z.min (wc_error_backoff c * 2) ERROR_BACKOFF_MAX |>.

(** One turn of [worker_loop]: nothing when parsing overflows. *)
Definition worker_turn (t : PollTurn) (c : WorldstateClient) : option WorldstateClient :=
  let forced := wc_refresh_requested c in
  let c := c <| wc_refresh_requested := false |> in
  if wc_enabled c && (forced || (wc_next_poll c <=? pt_now t)) then
    match pt_answer t with
    | Ok bytes =>
        parsed ← parse_worldstate bytes (pt_fetched_at_secs t);
        match parsed with
        | Ok snapshot =>
            let c := c <| wc_health ::= λ l, l ++ [HealthRecovered] |> in
            let '(c, changed) := publish_if_changed snapshot c in
            let c := if changed then c <| wc_last_good := wc_published c |> else c in
            Some (c <| wc_error_backoff := ERROR_BACKOFF_INITIAL |> <| wc_next_poll := pt_after t + POLL_INTERVAL |>)
        | Err error => Some (poll_failed FcParse error t c)
        end
    | Err (category, message) => Some (poll_failed category message t c)
    end
  else Some c.

Inductive ClientStep := StepEnable (enabled : bool) | StepRefresh (now_secs : Z) | StepTurn (t : PollTurn).

Definition worldstate_client_step (c : WorldstateClient) (s : ClientStep) : option WorldstateClient :=
  match s with
  | StepEnable enabled => Some (c <| wc_enabled := enabled |>)
  | StepRefresh now_secs => Some (request_refresh now_secs c)
  | StepTurn t => worker_turn t c
  end.

Fixpoint worldstate_client_run (c : WorldstateClient) (steps : list ClientStep) : option WorldstateClient :=
  match steps with [] => Some c | s :: steps => c ← worldstate_client_step c s; worldstate_client_run c steps end.

(** ** What is shown is dated *)

(** What may be published: nothing yet; a response, as read when it was
    fetched; or, with an error, the last response if it is at most five
    minutes older than the attempt, and its date alone if it is older. *)
Definition honest (w : WorldstateSnapshot) : Prop :=
  match ws_error w with
  | None => ws_last_attempt_at_secs w = ws_fetched_at_secs w
  | Some error =>
      (length error ≤ ERROR_MAX_CHARS)%nat
      ∧ (has_payload w = true → ws_last_attempt_at_secs w - ws_fetched_at_secs w ≤ WORLDSTATE_STALE_TTL_SECS)
  end.

Definition client_ok (c : WorldstateClient) : Prop :=
  Forall honest (wc_shown c) ∧ last (worldstate_default :: wc_shown c) = Some (wc_published c)
  ∧ ws_error (wc_last_good c) = None
  ∧ (ws_error (wc_published c) = None → wc_last_good c = wc_published c)
  ∧ ERROR_BACKOFF_INITIAL ≤ wc_error_backoff c ≤ ERROR_BACKOFF_MAX.

Lemma has_payload_attempt w a e :
  has_payload (w <| ws_last_attempt_at_secs := a |> <| ws_error := e |>) = has_payload w.
Proof. done. Qed.

Lemma failure_honest g a e : (length e ≤ ERROR_MAX_CHARS)%nat → honest (failure_snapshot g a e).
Proof.
  intros He. unfold failure_snapshot. destruct (has_payload g) eqn:Ep; cbn [andb].
  - destruct (Z.ltb_spec WORLDSTATE_STALE_TTL_SECS (saturating_sub a (ws_fetched_at_secs g))) as [Hs|Hs]; split; cbn; try done.
    intros _. unfold saturating_sub in Hs. lia.
  - split; [done|]. by rewrite has_payload_attempt, Ep.
Qed.

Lemma publish_ok w c :
  honest w → Forall honest (wc_shown c) → last (worldstate_default :: wc_shown c) = Some (wc_published c) →
  let c' := fst (publish_if_changed w c) in
  Forall honest (wc_shown c') ∧ last (worldstate_default :: wc_shown c') = Some (wc_published c') ∧ wc_published c' = w
  ∧ wc_last_good c' = wc_last_good c ∧ wc_error_backoff c' = wc_error_backoff c.
Proof.
  intros Hw Hs Hl. unfold publish_if_changed. case_bool_decide as Heq; cbn; [by subst|].
  split; [apply Forall_app; split; [done|by constructor]|]. split; [|done]. by rewrite app_comm_cons, last_snoc.
Qed.

Lemma publish_changed w c : snd (publish_if_changed w c) = negb (bool_decide (wc_published c = w)).
Proof. unfold publish_if_changed. by case_bool_decide. Qed.

Lemma poll_failed_ok category error t c : client_ok c → client_ok (poll_failed category error t c).
Proof.
  intros (Hs & Hl & Hg & Hp & Hb). unfold poll_failed.
  set (c1 := c <| wc_health ::= _ |>). set (w := failure_snapshot _ _ _).
  assert (honest w) as Hw by (apply failure_honest, bound_chars_length; unfold ERROR_MAX_CHARS; lia).
  destruct (publish_ok w c1 Hw Hs Hl) as (H1 & H2 & H3 & H4 & H5).
  assert (ws_error w = Some (bound_chars error ERROR_MAX_CHARS)) as Hwe by (unfold w, failure_snapshot; by destruct (_ && _)).
  clearbody w. destruct (publish_if_changed w c1) as [c2 b]. cbn in *. unfold client_ok. cbn.
  rewrite H3, H4, H5. cbn. split; [done|]. split; [by rewrite <- H3|]. split; [done|]. split; [by rewrite Hwe|].
  unfold ERROR_BACKOFF_INITIAL, ERROR_BACKOFF_MAX, from_secs, nanos_per_sec in *. lia.
Qed.

Lemma parse_worldstate_fresh bytes t w :
  parse_worldstate bytes t = Some (Ok w) → ws_error w = None ∧ ws_last_attempt_at_secs w = t ∧ ws_fetched_at_secs w = t.
Proof.
  unfold parse_worldstate. destruct (decode_document bytes) as [d|e]; [|done]. destruct (read_worldstate d) as [raw|]; [|done].
  intros (w' & Hw & [= ->])%fmap_Some. unfold worldstate_of in Hw.
  destruct (parse_cycles _ _); [|done]. cbn in Hw. destruct (next_utc_midnight t); [|done]. cbn in Hw. by apply Some_inj in Hw as <-.
Qed.

Lemma worker_turn_ok t c c' : client_ok c → worker_turn t c = Some c' → client_ok c'.
Proof.
  intros Hc. unfold worker_turn. set (c0 := c <| wc_refresh_requested := false |>).
  assert (client_ok c0) as Hc0 by exact Hc. clearbody c0. destruct (_ && _); [|by intros [= <-]].
  destruct (pt_answer t) as [bytes|[category message]].
  2:{ intros [= <-]. by apply poll_failed_ok. }
  destruct (parse_worldstate bytes (pt_fetched_at_secs t)) as [[w|error]|] eqn:E; cbn [mbind option_bind]; [|intros [= <-]; by apply poll_failed_ok|done].
  destruct (parse_worldstate_fresh _ _ _ E) as (He & Ha & Hf). destruct Hc0 as (Hs & Hl & Hg & Hp & Hb).
  set (c1 := c0 <| wc_health ::= _ |>).
  assert (honest w) as Hw by (unfold honest; rewrite He; congruence).
  destruct (publish_ok w c1 Hw Hs Hl) as (H1 & H2 & H3 & H4 & H5). pose proof (publish_changed w c1) as Hch.
  destruct (publish_if_changed w c1) as [c2 changed]. cbn in *. intros [= <-]. unfold client_ok. cbn.
  assert (wc_last_good (if changed then c2 <| wc_last_good := wc_published c2 |> else c2) = w) as Hlg.
  { destruct changed; cbn; [done|]. rewrite H4. cbn in Hch. case_bool_decide as Heq; [|done]. cbn in Heq. rewrite Hp by by rewrite Heq. done. }
  destruct changed; cbn in *; rewrite ?Hlg, ?H3; cbn; (split; [done|]; split; [by rewrite H2, H3|]; split; [done|]; split; [done|]);
    unfold ERROR_BACKOFF_INITIAL, ERROR_BACKOFF_MAX, from_secs, nanos_per_sec; lia.
Qed.

End worker.

#[local] Existing Instance example_tables.
#[local] Instance example_json : WorldstateJson := {|
  decode_document bytes := if bool_decide (bytes = [1]) then Ok example_document else Err (lit "expected value");
  sequence_error _ := lit "too many entries"
|}.

Definition example_polls : list ClientStep :=
  [StepEnable true; StepTurn (mkPollTurn 0 1784327796 (Ok [1]) 0); StepTurn (mkPollTurn (from_secs 60) 1784327856 (Ok []) (from_secs 60));
   StepTurn (mkPollTurn (from_secs 600) 1784328396 (Err (FcHttp, lit "status 503")) (from_secs 600))].

(** What is shown, in short: whether there is a payload, and an error. *)
Definition shown_summary (c : WorldstateClient) : list (bool * bool) := (λ w, (has_payload w, isSome (ws_error w))) <$> wc_shown c.


(** * The derived cache *)

Record InvasionCompactLabel := mkInvasionCompactLabel { il_attacker : option str; il_defender : option str; il_node : str }.

Record WarframeDerivedCache := mkWarframeDerivedCache {
  dc_worldstate_revision : option Z;
  dc_prefs_revision : Z;
  dc_reward_catalog : list (str * str);
  dc_fissure_indices : list nat;
  dc_invasion_indices : list nat;
  dc_labels : option (Z * Z * Z) * list InvasionCompactLabel;
  dc_filter_key : option (Z * Z)
}.
#[export] Instance WarframeDerivedCache_eta : Eta WarframeDerivedCache := λ d,
  mkWarframeDerivedCache (dc_worldstate_revision d) (dc_prefs_revision d) (dc_reward_catalog d) (dc_fissure_indices d)
    (dc_invasion_indices d) (dc_labels d) (dc_filter_key d).

Definition derived_default : WarframeDerivedCache := mkWarframeDerivedCache None 0 [] [] [] (None, []) None.

(** [enumerate().filter(..).map(index)]. *)
Definition indices_where {A} (p : A → bool) (l : list A) : list nat := fst <$> filter (λ ix, p (snd ix) = true) (zip (seq 0 (length l)) l).

Definition fissure_visible (prefs : WarframePrefs) (f : FissureMission) : bool :=
  era_enabled prefs (fm_era f) && source_enabled prefs (fissure_source f).

Definition reward_keys (i : InvasionMission) : list str :=
  option_list (rw_item_key <$> im_attacker_reward i) ++ option_list (rw_item_key <$> im_defender_reward i).

Definition invasion_visible (prefs : WarframePrefs) (i : InvasionMission) : bool :=
  (negb (wf_invasion_hide_completed prefs) || negb (im_completed i))
  && (if bool_decide (reward_keys i = []) then bool_decide (wf_invasion_resource_filter prefs = [])
      else invasion_matches_resource_filter prefs (reward_keys i)).

(** The watched first, then, if so preferred, the finished last, then by
    node. *)
Definition invasion_order (prefs : WarframePrefs) (i : InvasionMission) : Z * (Z * str) :=
  ((if invasion_on_watchlist i prefs then 0 else 1),
   ((if wf_invasion_push_done_down prefs && activity_is_done prefs (invasion_done_key (im_instance_id i)) then 1 else 0), im_node i)).

Definition no_invasion : InvasionMission := mkInvasionMission [] [] [] [] None None 0 0 false.

Definition fissure_indices (prefs : WarframePrefs) (w : WorldstateSnapshot) : list nat :=
  indices_where (fissure_visible prefs) (ws_fissures w).

Definition invasion_indices (prefs : WarframePrefs) (w : WorldstateSnapshot) : list nat :=
  sort_by_key (λ ix, invasion_order prefs (default no_invasion (ws_invasions w !! ix)))
    (indices_where (invasion_visible prefs) (ws_invasions w)).

Definition derived_sync (w : WorldstateSnapshot) (worldstate_revision : Z) (prefs : WarframePrefs) (prefs_revision : Z)
    (d : WarframeDerivedCache) : WarframeDerivedCache :=
  let provider_changed := negb (bool_decide (dc_worldstate_revision d = Some worldstate_revision)) in
  let prefs_changed := negb (bool_decide (dc_filter_key d = Some (worldstate_revision, prefs_revision))) in
  let d := if provider_changed then d <| dc_reward_catalog := invasion_reward_catalog (ws_invasions w) |> else d in
  let d := if provider_changed || prefs_changed
           then d <| dc_fissure_indices := fissure_indices prefs w |> <| dc_invasion_indices := invasion_indices prefs w |>
           else d in
  d <| dc_worldstate_revision := Some worldstate_revision |> <| dc_prefs_revision := prefs_revision |>
    <| dc_filter_key := Some (worldstate_revision, prefs_revision) |>.

(** [width_bucket]: eights of the width, as a [u32]. *)
Definition floor_Z (x : f32) : Z :=
  match x with
  | SpecFloat.S754_finite false m e => if 0 <=? e then Z.pos m * 2 ^ e else Z.shiftr (Z.pos m) (- e)
  | _ => 0
  end.
Definition width_bucket (width : f32) : Z :=
  if is_finite width && f_gt width (f32_of_Z 0) then Z.min (floor_Z (f32_div width (f32_of_Z 8))) u32_max else 0.

(** [compact_invasion_labels]: built once for a key. *)
Definition compact_invasion_labels (worldstate_revision prefs_revision : Z) (available_width : f32)
    (build : f32 → list InvasionCompactLabel) (d : WarframeDerivedCache) : list InvasionCompactLabel * WarframeDerivedCache :=
  let bucket := width_bucket available_width in
  let key := (worldstate_revision, prefs_revision, bucket) in
  if bool_decide (fst (dc_labels d) = Some key) then (snd (dc_labels d), d)
  else
    let values := build (f32_mul (f32_of_Z bucket) (f32_of_Z 8)) in
    (values, d <| dc_labels := (Some key, values) |>).

(** * Preference actions *)

Inductive StatusPrefsAction := StatusToggleHorizontal | StatusToggleSeconds | StatusToggleRow (row : StatusRow).
Inductive FissurePrefsAction :=
  FissureToggleEra (era : FissureEra) | FissureToggleSource (source : FissureSource) | FissureToggleShowNode | FissureToggleSeconds.
Inductive SortiePrefsAction := SortieToggleSeconds | SortieToggleDone (key : str) | SortieSetBlockDone (keys : list str) (done : bool).
Inductive InvasionPrefsAction :=
  InvasionToggleHideCompleted | InvasionTogglePushDoneDown | InvasionToggleCompact | InvasionToggleWatchlist (key : str)
| InvasionClearWatchlist | InvasionToggleDone (key : str) | InvasionToggleResourceFilter (key : str) | InvasionClearResourceFilter.

Definition apply_status_prefs_action (p : WarframePrefs) (a : StatusPrefsAction) : WarframePrefs :=
  match a with
  | StatusToggleHorizontal => p <| wf_status_horizontal ::= negb |>
  | StatusToggleSeconds => p <| wf_show_status_seconds ::= negb |>
  | StatusToggleRow row => set_status_row_visible p row (negb (status_row_visible p row))
  end.

Definition all_sources : list FissureSource := [SourceNormal; SourceSteelPath; SourceRailjack].
Definition all_eras : list FissureEra := [Lith; Meso; Neo; Axi; Requiem; Omni].

#[export] Instance FissureSource_eq_dec : EqDecision FissureSource.
Proof. solve_decision. Defined.

Definition apply_fissure_prefs_action (p : WarframePrefs) (a : FissurePrefsAction) : WarframePrefs :=
  match a with
  | FissureToggleSource source =>
      let next := negb (source_enabled p source) in
      let others_on := existsb (λ s, negb (bool_decide (s = source)) && source_enabled p s) all_sources in
      if negb next && negb others_on then p
      else match source with
           | SourceNormal => p <| wf_show_normal := next |>
           | SourceSteelPath => p <| wf_show_steel_path := next |>
           | SourceRailjack => p <| wf_show_railjack := next |>
           end
  | FissureToggleEra era =>
      let eras :=
        if bool_decide (wf_fissure_eras p = []) then filter (λ e, e ≠ era) all_eras
        else match position (λ e, bool_decide (e = era)) (wf_fissure_eras p) with
             | Some index => delete index (wf_fissure_eras p)
             | None => wf_fissure_eras p ++ [era]
             end in
      p <| wf_fissure_eras := if (length eras =? length all_eras)%nat then [] else eras |>
  | FissureToggleShowNode => p <| wf_show_fissure_node ::= negb |>
  | FissureToggleSeconds => p <| wf_show_fissure_seconds ::= negb |>
  end.

Definition apply_sortie_prefs_action (p : WarframePrefs) (a : SortiePrefsAction) : WarframePrefs :=
  match a with
  | SortieToggleSeconds => p <| wf_show_activity_seconds ::= negb |>
  | SortieToggleDone key => toggle_activity_done p key
  | SortieSetBlockDone keys done => foldl (λ p key, set_activity_done p key done) p keys
  end.

Definition apply_invasion_prefs_action (available_resource_keys : list str) (p : WarframePrefs) (a : InvasionPrefsAction) : WarframePrefs :=
  match a with
  | InvasionToggleHideCompleted => p <| wf_invasion_hide_completed ::= negb |>
  | InvasionTogglePushDoneDown => p <| wf_invasion_push_done_down ::= negb |>
  | InvasionToggleCompact => p <| wf_invasion_compact ::= negb |>
  | InvasionToggleWatchlist key => toggle_invasion_watchlist p key
  | InvasionClearWatchlist => p <| wf_invasion_reward_watchlist := [] |>
  | InvasionToggleDone key => toggle_activity_done p key
  | InvasionToggleResourceFilter key => toggle_invasion_resource_filter p key available_resource_keys
  | InvasionClearResourceFilter => p <| wf_invasion_resource_filter := [] |>
  end.

(** * The controller *)

Definition WARFRAME_PREFS_ERROR_MAX_CHARS : nat := 180.
Definition COPY_FLASH_DURATION : duration := from_millis 1400.

#[global] Arguments WARFRAME_PREFS_ERROR_MAX_CHARS : simpl never.

Record WarframeActionBatch := mkWarframeActionBatch {
  wb_status : list StatusPrefsAction;
  wb_fissures : list FissurePrefsAction;
  wb_sortie : list SortiePrefsAction;
  wb_invasions : list InvasionPrefsAction;
  wb_market_query : option str
}.

Definition batch_is_empty (b : WarframeActionBatch) : bool :=
  match b with mkWarframeActionBatch [] [] [] [] None => true | _ => false end.

Inductive WarframePrefsCommitFailure := CommitValidation | CommitFilesystem.
Inductive WarframePrefsCommitOutcome :=
| CommitDurable
| CommittedWithWarning (message : str)
| CommitRolledBack (message : str) (category : WarframePrefsCommitFailure).

Definition bounded_warframe_prefs_message (prefix error : str) : str :=
  let message := prefix ++ lit ": " ++ error in
  if (length message <=? WARFRAME_PREFS_ERROR_MAX_CHARS)%nat then message
  else take (WARFRAME_PREFS_ERROR_MAX_CHARS - 1) message ++ [ellipsis].

Definition bounded_warframe_prefs_error (error : str) : str :=
  bounded_warframe_prefs_message (lit "Could not apply Warframe preferences") error.
Definition bounded_warframe_prefs_durability_warning (error : str) : str :=
  bounded_warframe_prefs_message (lit "Saved Warframe preferences, but durability is uncertain") error.

(** [commit_warframe_prefs]: the preferences after, and the save made, with
    how it ended. *)
Definition commit_warframe_prefs (current candidate : WarframePrefs) (save : WarframePrefs → result SaveError unit) :
    WarframePrefs * WarframePrefsCommitOutcome * list (WarframePrefs * result SaveError unit) :=
  match validate_warframe_prefs candidate with
  | Err error => (current, CommitRolledBack (bounded_warframe_prefs_error (warframe_error_text error)) CommitValidation, [])
  | Ok candidate =>
      let r := save candidate in
      match r with
      | Ok _ => (candidate, CommitDurable, [(candidate, r)])
      | Err error =>
          if se_committed error
          then (candidate, CommittedWithWarning (bounded_warframe_prefs_durability_warning (se_error error)), [(candidate, r)])
          else (current, CommitRolledBack (bounded_warframe_prefs_error (se_error error)) CommitFilesystem, [(candidate, r)])
      end
  end.

Definition committed (o : WarframePrefsCommitOutcome) : bool := match o with CommitRolledBack _ _ => false | _ => true end.

Definition bounded_market_query (query : str) : str := take WARFRAME_MARKET_QUERY_MAX_CHARS (trim query).

Definition warframe_actions_allowed (snapshot : CoreSnapshot) : bool :=
  bool_decide (cs_overlay_mode snapshot = Interactive) && is_warframe_active snapshot.

Definition prune_activity_done_for_snapshot (w : WorldstateSnapshot) (p : WarframePrefs) : WarframePrefs :=
  prune_activity_done p (current_activity_done_keys w).

Definition sortie_batch_action (w : WorldstateSnapshot) (p : WarframePrefs) (a : SortiePrefsAction) : WarframePrefs :=
  let p := match a with SortieToggleDone _ | SortieSetBlockDone _ _ => prune_activity_done_for_snapshot w p | _ => p end in
  apply_sortie_prefs_action p a.

Definition invasion_batch_action (w : WorldstateSnapshot) (resource_keys : list str) (p : WarframePrefs) (a : InvasionPrefsAction) :
    WarframePrefs :=
  let p := match a with InvasionToggleDone _ => prune_activity_done_for_snapshot w p | _ => p end in
  apply_invasion_prefs_action resource_keys p a.

(** The changes of a batch, on a copy. *)
Definition batch_candidate (w : WorldstateSnapshot) (resource_keys : list str) (b : WarframeActionBatch) (p : WarframePrefs) : WarframePrefs :=
  let p := foldl apply_status_prefs_action p (wb_status b) in
  let p := foldl apply_fissure_prefs_action p (wb_fissures b) in
  let p := foldl (sortie_batch_action w) p (wb_sortie b) in
  let p := foldl (invasion_batch_action w resource_keys) p (wb_invasions b) in
  match wb_market_query b with Some query => p <| wf_last_market_query := bounded_market_query query |> | None => p end.

Definition invasion_resource_keys (b : WarframeActionBatch) (d : WarframeDerivedCache) : list str :=
  if existsb (λ a, match a with InvasionToggleResourceFilter _ => true | _ => false end) (wb_invasions b)
  then fst <$> dc_reward_catalog d else [].

Definition outcome_message (o : WarframePrefsCommitOutcome) : option str :=
  match o with CommitDurable => None | CommittedWithWarning message | CommitRolledBack message _ => Some message end.

(** What is logged of an outcome: its category. *)
Definition logged_outcome (o : WarframePrefsCommitOutcome) : option str :=
  match o with
  | CommitDurable => None
  | CommittedWithWarning _ => Some (lit "durability")
  | CommitRolledBack _ CommitValidation => Some (lit "validation")
  | CommitRolledBack _ CommitFilesystem => Some (lit "filesystem")
  end.

(** What the controller asks of others. *)
Inductive ControllerRequest :=
| ReqPolling (enabled : bool) | ReqMarket (enabled : bool) | ReqWorldstateRefresh | ReqMarketRefresh | ReqRepaintAfter (d : duration)
| ReqLog (category : str) | ReqSave (prefs : WarframePrefs) (r : result SaveError unit).

Record WarframeController := mkWarframeController {
  ct_worldstate : WorldstateSnapshot;
  ct_worldstate_revision : Z;
  ct_scheduler : OverlayScheduler;
  ct_derived : WarframeDerivedCache;
  ct_market : MarketSnapshot;
  ct_market_revision : Z;
  ct_market_query : str;
  ct_copy_flash : option (str * instant);
  ct_prefs : WarframePrefs;
  ct_prefs_revision : Z;
  ct_prefs_message : option str;
  ct_worldstate_enabled : bool;
  ct_market_enabled : bool
}.
#[export] Instance WarframeController_eta : Eta WarframeController := λ c,
  mkWarframeController (ct_worldstate c) (ct_worldstate_revision c) (ct_scheduler c) (ct_derived c) (ct_market c)
    (ct_market_revision c) (ct_market_query c) (ct_copy_flash c) (ct_prefs c) (ct_prefs_revision c) (ct_prefs_message c)
    (ct_worldstate_enabled c) (ct_market_enabled c).

(** [with_dependencies]. *)
Definition controller_new (prefs : WarframePrefs) : WarframeController :=
  mkWarframeController worldstate_default 0 overlay_scheduler_default derived_default market_default 0
    (wf_last_market_query prefs) None prefs 0 None false false.

Definition controller_commit (snapshot : CoreSnapshot) (b : WarframeActionBatch) (save : WarframePrefs → result SaveError unit)
    (c : WarframeController) : list ControllerRequest * WarframeController :=
  if negb (warframe_actions_allowed snapshot) || batch_is_empty b then ([], c)
  else
    let candidate := batch_candidate (ct_worldstate c) (invasion_resource_keys b (ct_derived c)) b (ct_prefs c) in
    let '(prefs, outcome, saves) := commit_warframe_prefs (ct_prefs c) candidate save in
    let revision := if committed outcome then (ct_prefs_revision c + 1) mod (u64_max + 1) else ct_prefs_revision c in
    (((λ s, ReqSave (fst s) (snd s)) <$> saves) ++ option_list (ReqLog <$> logged_outcome outcome),
     c <| ct_prefs := prefs |> <| ct_prefs_revision := revision |> <| ct_prefs_message := outcome_message outcome |>).

Section controller.
(** The last instant [checked_add] can represent. *)
Variable instant_max : instant.

Definition set_copy_flash (flash_id : str) (now : instant) (c : WarframeController) : WarframeController :=
  let deadline := default now (checked_add instant_max now COPY_FLASH_DURATION) in
  c <| ct_copy_flash := Some (flash_id, deadline) |> <| ct_scheduler ::= set_copy_flash_deadline (Some deadline) |>.

(** Fuel for the days since the last reset. *)
Definition reset_fuel (w : WorldstateSnapshot) (now_secs : Z) : nat :=
  Z.to_nat ((now_secs - default 0 (ws_daily_reset_at_secs w)) / 86400 + 1).

(** What the providers handed over. *)
Record ProviderUpdates := mkProviderUpdates { pu_worldstate : option (Z * WorldstateSnapshot); pu_market : option (Z * MarketSnapshot) }.

(** [drain_ready_warframe_providers], from the readiness taken and what each
    receiver would hand over. *)
Definition drain_ready (ready : Z) (take_worldstate : option (Z * WorldstateSnapshot)) (take_market : option (Z * MarketSnapshot)) :
    ProviderUpdates :=
  mkProviderUpdates (if ready_worldstate ready then take_worldstate else None) (if ready_market ready then take_market else None).

Definition take_updates (u : ProviderUpdates) (c : WarframeController) : WarframeController :=
  let c := match pu_worldstate u with
           | Some (revision, w) => c <| ct_worldstate_revision := revision |> <| ct_worldstate := w |>
           | None => c
           end in
  match pu_market u with
  | Some (revision, m) => c <| ct_market_revision := revision |> <| ct_market := m |>
  | None => c
  end.

(** The presentation tick, and whether a new poll is useful. *)
Definition present_tick (now : instant) (wall_secs : Z) (c : WarframeController) : option (bool * WarframeController) :=
  let '(tick, scheduler) := take_warframe_tick instant_max (ct_worldstate_enabled c) now (ct_scheduler c) in
  let c := c <| ct_scheduler := scheduler |> in
  if tick then
    '(w, refresh) ← advance_live_timers (reset_fuel (ct_worldstate c) wall_secs) (ct_worldstate c) wall_secs;
    Some (refresh, c <| ct_worldstate := w |>)
  else Some (false, c).

Definition controller_sync (snapshot : CoreSnapshot) (profile : WidgetProfile) (updates : ProviderUpdates) (now : instant)
    (wall_secs : Z) (c : WarframeController) : option (list ControllerRequest * WarframeController) :=
  let worldstate_enabled := is_warframe_active snapshot && any_worldstate_widget_enabled profile in
  let market_enabled := market_requests_enabled snapshot profile in
  let c := c <| ct_worldstate_enabled := worldstate_enabled |> <| ct_market_enabled := market_enabled |> in
  let c := take_updates updates c in
  ticked ← present_tick now wall_secs c;
  let '(refresh, c) := ticked in
  let c := c <| ct_derived ::= derived_sync (ct_worldstate c) (ct_worldstate_revision c) (ct_prefs c) (ct_prefs_revision c) |> in
  let '(market_refresh, scheduler) :=
    take_market_refresh instant_max market_enabled (isSome (mk_selected (ct_market c))) (ct_market_revision c)
      (mk_next_refresh_at_secs (ct_market c)) now wall_secs (ct_scheduler c) in
  let '(flash_expired, scheduler) := take_copy_flash_expired now scheduler in
  let c := c <| ct_scheduler := scheduler |> in
  let c := if flash_expired then c <| ct_copy_flash := None |> else c in
  Some ([ReqPolling worldstate_enabled; ReqMarket market_enabled]
        ++ (if (refresh : bool) then [ReqWorldstateRefresh] else []) ++ (if market_refresh then [ReqMarketRefresh] else [])
        ++ option_list (ReqRepaintAfter <$> next_repaint_after scheduler now), c).

(** The steps of the interface thread. *)
Inductive ControllerStep :=
| CtSync (snapshot : CoreSnapshot) (profile : WidgetProfile) (updates : ProviderUpdates) (now : instant) (wall_secs : Z)
| CtCommit (snapshot : CoreSnapshot) (b : WarframeActionBatch) (save : WarframePrefs → result SaveError unit)
| CtCopyFlash (flash_id : str) (now : instant).

Definition controller_step (c : WarframeController) (s : ControllerStep) : option (list ControllerRequest * WarframeController) :=
  match s with
  | CtSync snapshot profile updates now wall_secs => controller_sync snapshot profile updates now wall_secs c
  | CtCommit snapshot b save => Some (controller_commit snapshot b save c)
  | CtCopyFlash flash_id now => Some ([], set_copy_flash flash_id now c)
  end.

Fixpoint controller_run (c : WarframeController) (steps : list ControllerStep) : option (list ControllerRequest * WarframeController) :=
  match steps with
  | [] => Some ([], c)
  | s :: steps =>
      match controller_step c s with
      | None => None
      | Some (requests, c) => (λ r, (requests ++ fst r, snd r)) <$> controller_run c steps
      end
  end.
End controller.

(** ** Preferences follow the store *)

Definition replaced_store (r : result SaveError unit) : bool := match r with Ok _ => true | Err e => se_committed e end.

(** The preferences in the store after the requests. *)
Definition store_after (stored : WarframePrefs) (request : ControllerRequest) : WarframePrefs :=
  match request with ReqSave prefs r => if replaced_store r then prefs else stored | _ => stored end.
Definition is_commit (request : ControllerRequest) : bool := match request with ReqSave _ r => replaced_store r | _ => false end.
Definition commits (requests : list ControllerRequest) : Z := Z.of_nat (length (filter (λ r, is_commit r = true) requests)).

Definition save_normal (request : ControllerRequest) : Prop :=
  match request with ReqSave prefs _ => warframe_prefs_normal prefs | _ => True end.

(** What a step does to the preferences. *)
Definition prefs_step_ok (c c' : WarframeController) (requests : list ControllerRequest) : Prop :=
  ct_prefs c' = foldl store_after (ct_prefs c) requests
  ∧ Forall save_normal requests
  ∧ ct_prefs_revision c' = (ct_prefs_revision c + commits requests) mod (u64_max + 1)
  ∧ (warframe_prefs_normal (ct_prefs c) → warframe_prefs_normal (ct_prefs c')).

Lemma commits_app l k : commits (l ++ k) = commits l + commits k.
Proof. unfold commits. rewrite filter_app, length_app. lia. Qed.

Definition quiet_request (r : ControllerRequest) : Prop := match r with ReqSave _ _ => False | _ => True end.

Lemma quiet_requests stored l :
  Forall quiet_request l → foldl store_after stored l = stored ∧ Forall save_normal l ∧ commits l = 0.
Proof.
  unfold commits. induction 1 as [|r l Hr _ IH]; [done|]. destruct IH as (H1 & H2 & H3), r; try done;
    (split; [done|]; split; [by constructor|]; rewrite filter_cons; by rewrite decide_False by done).
Qed.

Lemma prefs_step_quiet c c' l :
  ct_prefs c' = ct_prefs c → ct_prefs_revision c' = ct_prefs_revision c → 0 ≤ ct_prefs_revision c ≤ u64_max →
  Forall quiet_request l → prefs_step_ok c c' l.
Proof.
  intros Hp Hr Hb Hl. destruct (quiet_requests (ct_prefs c) l Hl) as (H1 & H2 & H3). unfold prefs_step_ok.
  rewrite Hp, Hr, H1, H3. split; [done|]. split; [done|]. split; [|done]. symmetry. rewrite Z.add_0_r. apply Z.mod_small. lia.
Qed.

Lemma commits_save p r l : commits (ReqSave p r :: l) = (if replaced_store r then 1 else 0) + commits l.
Proof.
  unfold commits. destruct (replaced_store r) eqn:E; [rewrite filter_cons_True by done|rewrite filter_cons_False by (cbn; congruence)]; cbn [length]; lia.
Qed.

Lemma commit_prefs_ok snapshot b save c :
  0 ≤ ct_prefs_revision c ≤ u64_max →
  prefs_step_ok c (snd (controller_commit snapshot b save c)) (fst (controller_commit snapshot b save c)).
Proof.
  intros Hb. unfold controller_commit. destruct (_ || _); [by apply prefs_step_quiet|].
  set (candidate := batch_candidate _ _ _ _). clearbody candidate. unfold commit_warframe_prefs.
  destruct (validate_warframe_prefs candidate) as [p|e] eqn:E.
  - destruct (proj1 (validate_warframe_prefs_normal candidate) p E) as [Hp _].
    destruct (save p) as [u|e] eqn:Er; [|destruct (se_committed e) eqn:Ec]; cbn [committed]; unfold prefs_step_ok; cbn;
      rewrite commits_save; cbn; rewrite ?Ec;
      (split; [done|]; split; [constructor; [exact Hp|by repeat constructor]|]; split; [|done]); try done.
    rewrite Z.add_0_r. symmetry. apply Z.mod_small. lia.
  - cbn. apply prefs_step_quiet; try done. by repeat constructor.
Qed.

(** ** The derived lists are never stale *)

Definition derived_fresh (w : WorldstateSnapshot) (p : WarframePrefs) (d : WarframeDerivedCache) : Prop :=
  dc_reward_catalog d = invasion_reward_catalog (ws_invasions w)
  ∧ dc_fissure_indices d = fissure_indices p w ∧ dc_invasion_indices d = invasion_indices p w.

(** The lists belong to the revisions they are kept under. *)
Definition derived_ok (c : WarframeController) : Prop :=
  let d := ct_derived c in
  match dc_filter_key d with
  | None => dc_worldstate_revision d = None
  | Some (rw, rp) =>
      dc_worldstate_revision d = Some rw ∧ rw ≤ ct_worldstate_revision c ∧ rp ≤ ct_prefs_revision c
      ∧ (rw = ct_worldstate_revision c →
           dc_reward_catalog d = invasion_reward_catalog (ws_invasions (ct_worldstate c))
           ∧ (rp = ct_prefs_revision c → derived_fresh (ct_worldstate c) (ct_prefs c) d))
  end.

Lemma fissure_indices_lists p w w' : ws_fissures w = ws_fissures w' → fissure_indices p w = fissure_indices p w'.
Proof. intros E. unfold fissure_indices. by rewrite E. Qed.
Lemma invasion_indices_lists p w w' : ws_invasions w = ws_invasions w' → invasion_indices p w = invasion_indices p w'.
Proof. intros E. unfold invasion_indices. by rewrite E. Qed.

Definition same_lists (w w' : WorldstateSnapshot) : Prop := ws_fissures w = ws_fissures w' ∧ ws_invasions w = ws_invasions w'.

Lemma derived_fresh_lists p w w' d : same_lists w w' → derived_fresh w p d → derived_fresh w' p d.
Proof.
  intros [Hf Hi] (H1 & H2 & H3). unfold derived_fresh. rewrite H1, H2, H3, Hi.
  by rewrite (fissure_indices_lists p w w' Hf), (invasion_indices_lists p w w' Hi).
Qed.

Lemma advance_live_timers_lists fuel w now w' r : advance_live_timers fuel w now = Some (w', r) → same_lists w w'.
Proof.
  unfold advance_live_timers. destruct (_ && _); [by intros [= <- _]|].
  destruct (advance_cycles _ _ _) as [[cycles refresh]|]; [|done]. cbn [mbind option_bind].
  destruct (ws_daily_reset_at_secs w) as [reset|]; [|by intros [= <- _]].
  destruct (roll_reset _ _ _); [|done]. by intros [= <- _].
Qed.

Lemma derived_sync_fresh w rw p rp d :
  (match dc_filter_key d with
   | None => dc_worldstate_revision d = None
   | Some (kw, kp) => dc_worldstate_revision d = Some kw
       ∧ (kw = rw → dc_reward_catalog d = invasion_reward_catalog (ws_invasions w) ∧ (kp = rp → derived_fresh w p d))
   end) →
  let d' := derived_sync w rw p rp d in
  derived_fresh w p d' ∧ dc_worldstate_revision d' = Some rw ∧ dc_filter_key d' = Some (rw, rp).
Proof.
  intros Hd. unfold derived_sync. cbn zeta. split; [|done]. unfold derived_fresh.
  destruct (dc_filter_key d) as [[kw kp]|] eqn:Ek.
  - destruct Hd as [Hr Hf]. rewrite Hr. case_bool_decide as E1.
    + injection E1 as ->. destruct (Hf eq_refl) as [Hc Hf']. cbn [negb orb]. case_bool_decide as E2; cbn [negb orb].
      * injection E2 as ->. destruct (Hf' eq_refl) as (H1 & H2 & H3). cbn. done.
      * cbn. done.
    + cbn. done.
  - rewrite Hd. rewrite bool_decide_eq_false_2 by done. cbn. done.
Qed.

Section controller_proofs.
Context (instant_max : instant).

Lemma present_tick_same now wall c r c' :
  present_tick instant_max now wall c = Some (r, c') →
  same_lists (ct_worldstate c) (ct_worldstate c') ∧ ct_worldstate_revision c' = ct_worldstate_revision c
  ∧ ct_derived c' = ct_derived c ∧ ct_prefs c' = ct_prefs c ∧ ct_prefs_revision c' = ct_prefs_revision c.
Proof.
  unfold present_tick. destruct (take_warframe_tick _ _ _ _) as [tick scheduler]. destruct tick; [|by intros [= <- <-]].
  cbn [ct_worldstate]. destruct (advance_live_timers _ _ _) as [[w refresh]|] eqn:E; [|done]. cbn [mbind option_bind].
  intros [= <- <-]. cbn. by apply advance_live_timers_lists in E.
Qed.

(** Updates bring newer revisions. *)
Definition update_newer (c : WarframeController) (u : ProviderUpdates) : Prop :=
  is_some_and (λ rw, ct_worldstate_revision c <? fst rw) (pu_worldstate u) = isSome (pu_worldstate u).

Lemma take_updates_ok u c :
  update_newer c u → derived_ok c → derived_ok (take_updates u c).
Proof.
  intros Hn Hd. unfold take_updates, update_newer in *.
  destruct (pu_worldstate u) as [[rw w]|]; cbn in Hn.
  - apply Z.ltb_lt in Hn. destruct (pu_market u) as [[rm m]|]; unfold derived_ok in *; cbn in *;
      destruct (dc_filter_key (ct_derived c)) as [[kw kp]|]; try done; destruct Hd as (H1 & H2 & H3 & H4);
      (split; [done|]; split; [lia|]; split; [done|]; intros ->; lia).
  - by destruct (pu_market u) as [[rm m]|].
Qed.

Lemma controller_sync_ok snapshot profile u now wall c requests c' :
  controller_sync instant_max snapshot profile u now wall c = Some (requests, c') →
  ct_prefs c' = ct_prefs c ∧ ct_prefs_revision c' = ct_prefs_revision c ∧ Forall quiet_request requests
  ∧ ct_worldstate_revision c' = default (ct_worldstate_revision c) (fst <$> pu_worldstate u)
  ∧ (update_newer c u → derived_ok c → derived_ok c' ∧ derived_fresh (ct_worldstate c') (ct_prefs c') (ct_derived c')).
Proof.
  intros Hs. unfold controller_sync in Hs.
  set (c1 := c <| ct_worldstate_enabled := _ |> <| ct_market_enabled := _ |>) in Hs.
  assert (update_newer c u → derived_ok c → derived_ok (take_updates u c1)) as Hd2
    by (intros Hn Hd; by apply (take_updates_ok u c1)).
  assert (ct_worldstate_revision (take_updates u c1) = default (ct_worldstate_revision c) (fst <$> pu_worldstate u)
          ∧ ct_prefs (take_updates u c1) = ct_prefs c ∧ ct_prefs_revision (take_updates u c1) = ct_prefs_revision c)
    as (Hw2 & Hp2 & Hr2).
  { unfold take_updates. destruct (pu_worldstate u) as [[rw w]|], (pu_market u) as [[rm m]|]; done. }
  set (c2 := take_updates u c1) in *. clearbody c2. clear c1.
  destruct (present_tick instant_max now wall c2) as [[refresh c3]|] eqn:Et; [|done]. cbn [mbind option_bind] in Hs.
  destruct (present_tick_same _ _ _ _ _ Et) as (Hl & Hw3 & Hd3 & Hp3 & Hr3).
  assert (derived_ok c2 → let d := derived_sync (ct_worldstate c3) (ct_worldstate_revision c3) (ct_prefs c3) (ct_prefs_revision c3) (ct_derived c3) in
          derived_fresh (ct_worldstate c3) (ct_prefs c3) d ∧ dc_worldstate_revision d = Some (ct_worldstate_revision c3)
          ∧ dc_filter_key d = Some (ct_worldstate_revision c3, ct_prefs_revision c3)) as Hf.
  { intros Hd. apply derived_sync_fresh. unfold derived_ok in Hd. rewrite Hd3, Hw3, Hr3, Hp3.
    destruct (dc_filter_key (ct_derived c2)) as [[kw kp]|]; [|done].
    destruct Hd as (H1 & H2 & H3 & H4). split; [done|]. intros E. destruct (H4 E) as [H5 H6]. split; [by rewrite H5, (proj2 Hl)|].
    intros E2. by apply (derived_fresh_lists _ _ _ _ Hl), H6. }
  set (c4 := c3 <| ct_derived ::= _ |>) in Hs.
  set (d := derived_sync _ _ _ _ _) in *.
  assert (ct_derived c4 = d ∧ ct_worldstate c4 = ct_worldstate c3 ∧ ct_worldstate_revision c4 = ct_worldstate_revision c3
          ∧ ct_prefs c4 = ct_prefs c3 ∧ ct_prefs_revision c4 = ct_prefs_revision c3) as (Hd4 & Hs4 & Hw4 & Hp4 & Hr4) by done.
  clearbody c4. cbn zeta in Hf. clearbody d.
  destruct (take_market_refresh _ _ _ _ _ _ _ _) as [mr s1]. destruct (take_copy_flash_expired _ _) as [fe s2].
  cbn [fst snd] in Hs. injection Hs as <- <-.
  assert (∀ c5, ct_derived c5 = ct_derived c4 → ct_worldstate c5 = ct_worldstate c4 →
            ct_worldstate_revision c5 = ct_worldstate_revision c4 → ct_prefs c5 = ct_prefs c4 →
            ct_prefs_revision c5 = ct_prefs_revision c4 → derived_ok c2 →
            derived_ok c5 ∧ derived_fresh (ct_worldstate c5) (ct_prefs c5) (ct_derived c5)) as Hok.
  { intros c5 E1 E2 E3 E4 E5 Hd. destruct (Hf Hd) as (Hf' & Hk1 & Hk2).
    unfold derived_ok. rewrite E1, E2, E3, E4, E5, Hd4, Hs4, Hw4, Hp4, Hr4, Hk1, Hk2.
    split; [|exact Hf']. split; [done|]. split; [lia|]. split; [lia|]. intros _. split; [apply Hf'|done]. }
  split; [destruct fe; cbn; congruence|]. split; [destruct fe; cbn; congruence|]. split.
  - constructor; [done|]. constructor; [done|].
    repeat (apply Forall_app; split); [by destruct refresh; repeat constructor|by destruct mr; repeat constructor|].
    destruct (next_repaint_after s2 now); by repeat constructor.
  - split; [destruct fe; cbn; congruence|]. intros Hn Hd. apply Hok; [by destruct fe..|by apply Hd2].
Qed.
End controller_proofs.

(** ** Runs of the controller *)

(** The revisions of the updates grow. *)
Fixpoint revisions_increase (last : Z) (steps : list ControllerStep) : bool :=
  match steps with
  | [] => true
  | CtSync _ _ u _ _ :: steps =>
      match pu_worldstate u with Some (revision, _) => (last <? revision) && revisions_increase revision steps | None => revisions_increase last steps end
  | _ :: steps => revisions_increase last steps
  end.

Definition is_sync (s : ControllerStep) : bool := match s with CtSync _ _ _ _ _ => true | _ => false end.

Lemma prefs_step_trans c1 c2 c3 l k :
  prefs_step_ok c1 c2 l → prefs_step_ok c2 c3 k → prefs_step_ok c1 c3 (l ++ k).
Proof.
  intros (H1 & H2 & H3 & H4) (K1 & K2 & K3 & K4). unfold prefs_step_ok. rewrite foldl_app, <- H1, commits_app.
  split; [done|]. split; [by apply Forall_app|]. split; [|auto].
  rewrite K3, H3, Zplus_mod_idemp_l. f_equal. lia.
Qed.

Section run_proofs.
Context (instant_max : instant).

Lemma controller_step_prefs c s requests c' :
  0 ≤ ct_prefs_revision c ≤ u64_max → controller_step instant_max c s = Some (requests, c') → prefs_step_ok c c' requests.
Proof.
  intros Hb Hs. destruct s as [snapshot profile u now wall|snapshot b save|flash_id now]; cbn [controller_step] in Hs.
  - destruct (controller_sync_ok _ _ _ _ _ _ _ _ _ Hs) as (Hp & Hr & Hq & _). by apply prefs_step_quiet.
  - injection Hs as E. pose proof (commit_prefs_ok snapshot b save c Hb) as H. by rewrite E in H.
  - injection Hs as <- <-. by apply prefs_step_quiet.
Qed.

Lemma controller_run_prefs steps : ∀ c requests c',
  0 ≤ ct_prefs_revision c ≤ u64_max → controller_run instant_max c steps = Some (requests, c') → prefs_step_ok c c' requests.
Proof.
  induction steps as [|s steps IH]; intros c requests c' Hb; cbn [controller_run].
  { intros [= <- <-]. by apply prefs_step_quiet. }
  destruct (controller_step instant_max c s) as [[l c1]|] eqn:Es; [|done].
  pose proof (controller_step_prefs _ _ _ _ Hb Es) as H1.
  destruct (controller_run instant_max c1 steps) as [[k c2]|] eqn:Er; [|done]. cbn [fmap option_fmap option_map fst snd]. intros [= <- <-].
  apply (prefs_step_trans c c1); [done|]. apply IH; [|done]. destruct H1 as (_ & _ & -> & _).
  pose proof (Z.mod_pos_bound (ct_prefs_revision c + commits l) (u64_max + 1) ltac:(done)). lia.
Qed.

Lemma controller_commit_derived snapshot b save c :
  0 ≤ ct_prefs_revision c < u64_max → derived_ok c →
  let c' := snd (controller_commit snapshot b save c) in
  derived_ok c' ∧ ct_worldstate_revision c' = ct_worldstate_revision c
  ∧ ct_prefs_revision c ≤ ct_prefs_revision c' ≤ ct_prefs_revision c + 1.
Proof.
  intros Hb Hd. unfold controller_commit. destruct (_ || _); [cbn; split; [done|split; [done|lia]]|].
  set (candidate := batch_candidate _ _ _ _). clearbody candidate. unfold commit_warframe_prefs.
  assert (∀ p m, derived_ok (c <| ct_prefs := p |> <| ct_prefs_revision := (ct_prefs_revision c + 1) mod (u64_max + 1) |> <| ct_prefs_message := m |>)
          ∧ ct_prefs_revision c ≤ (ct_prefs_revision c + 1) mod (u64_max + 1) ≤ ct_prefs_revision c + 1) as Hnew.
  { intros p m. rewrite Z.mod_small by lia. split; [|lia]. unfold derived_ok in *. cbn.
    destruct (dc_filter_key (ct_derived c)) as [[rw rp]|]; [|done]. destruct Hd as (H1 & H2 & H3 & H4).
    split; [done|]. split; [done|]. split; [lia|]. intros E. split; [exact (proj1 (H4 E))|]. lia. }
  destruct (validate_warframe_prefs candidate) as [p|e]; [destruct (save p) as [u|e]; [|destruct (se_committed e)]|]; cbn [committed snd];
    try (split; [apply Hnew|split; [done|apply (Hnew p None)]]); (split; [exact Hd|split; [done|cbn; lia]]).
Qed.

Lemma controller_step_derived c s requests c' :
  0 ≤ ct_prefs_revision c < u64_max → controller_step instant_max c s = Some (requests, c') →
  revisions_increase (ct_worldstate_revision c) [s] = true → derived_ok c →
  derived_ok c' ∧ ct_prefs_revision c' ≤ ct_prefs_revision c + 1 ∧ 0 ≤ ct_prefs_revision c'
  ∧ (is_sync s = true → derived_fresh (ct_worldstate c') (ct_prefs c') (ct_derived c'))
  ∧ ∀ steps, revisions_increase (ct_worldstate_revision c) (s :: steps) = true →
      revisions_increase (ct_worldstate_revision c') steps = true.
Proof.
  intros Hb Hs Hi Hd. destruct s as [snapshot profile u now wall|snapshot b save|flash_id now]; cbn [controller_step] in Hs.
  - destruct (controller_sync_ok _ _ _ _ _ _ _ _ _ Hs) as (Hp & Hr & _ & Hw & Hok). rewrite Hr, Hw.
    assert (update_newer c u) as Hn.
    { unfold update_newer. cbn in Hi. destruct (pu_worldstate u) as [[rw w]|]; [|done]. cbn. by apply andb_true_iff in Hi as [-> _]. }
    destruct (Hok Hn Hd) as [Hd' Hf]. split; [done|]. split; [lia|]. split; [lia|]. split; [done|].
    intros steps. cbn. destruct (pu_worldstate u) as [[rw w]|]; [|done]. by intros [_ H]%andb_true_iff.
  - injection Hs as E. pose proof (controller_commit_derived snapshot b save c Hb Hd) as H. rewrite E in H.
    destruct H as (H1 & H2 & H3). cbn [snd] in *. rewrite H2. split; [done|]. split; [lia|]. split; [lia|]. done.
  - injection Hs as <- <-. split; [exact Hd|]. cbn. split; [lia|]. split; [lia|]. done.
Qed.

Lemma controller_run_derived steps : ∀ c requests c',
  0 ≤ ct_prefs_revision c → ct_prefs_revision c + Z.of_nat (length steps) ≤ u64_max →
  controller_run instant_max c steps = Some (requests, c') → revisions_increase (ct_worldstate_revision c) steps = true → derived_ok c →
  derived_ok c' ∧ (from_option is_sync false (last steps) = true → derived_fresh (ct_worldstate c') (ct_prefs c') (ct_derived c')).
Proof.
  induction steps as [|s steps IH]; intros c requests c' Hb Hl; cbn [controller_run].
  { intros [= <- <-]. done. }
  destruct (controller_step instant_max c s) as [[l c1]|] eqn:Es; [|done].
  destruct (controller_run instant_max c1 steps) as [[k c2]|] eqn:Er; [|done]. cbn [fmap option_fmap option_map fst snd].
  intros [= <- <-] Hi Hd. cbn [length] in Hl.
  assert (revisions_increase (ct_worldstate_revision c) [s] = true) as Hi1.
  { destruct s as [? ? u ? ?| |]; try done. cbn in *. destruct (pu_worldstate u) as [[rw w]|]; [|done]. by apply andb_true_iff in Hi as [-> _]. }
  destruct (controller_step_derived c s l c1 ltac:(lia) Es Hi1 Hd) as (Hd1 & Hr1 & Hr0 & Hf1 & Hs1).
  destruct (IH c1 k c2 Hr0 ltac:(lia) Er (Hs1 steps Hi) Hd1) as [Hd2 Hf2]. split; [done|].
  destruct steps as [|s' steps]; [|exact Hf2]. injection Er as _ <-. exact Hf1.
Qed.
End run_proofs.

(** ** What the runs show *)

(** C29 Whatever the interface asks and however saving fails, the preferences the
    controller shows are those of the store after its saves: a save that did
    not replace the file changes nothing shown, one that replaced it but may
    not last is shown.  Only preferences [validate] leaves unchanged are saved, the
    preferences shown are always such, and the revision counts the saves that
    replaced the file. *)
Theorem prefs_follow_store instant_max prefs steps requests c
    (Hprefs : warframe_prefs_normal prefs)
    (Hrun : controller_run instant_max (controller_new prefs) steps = Some (requests, c)) :
  ct_prefs c = foldl store_after prefs requests
  ∧ Forall save_normal requests ∧ warframe_prefs_normal (ct_prefs c)
  ∧ ct_prefs_revision c = commits requests mod (u64_max + 1).
Proof.
  destruct (controller_run_prefs instant_max steps (controller_new prefs) requests c) as (H1 & H2 & H3 & H4); [done|done|].
  split; [done|]. split; [done|]. split; [by apply H4|done].
Qed.

(** After the work of a frame, the reward catalog and the rows of fissures
    and invasions shown are those of the world state and the preferences of
    that frame, though they are kept between frames and made again only under
    a new revision: whatever the earlier frames, commits and copies were, as
    long as the worker's revisions grow and there are fewer than 2^64 steps. *)
Theorem derived_never_stale instant_max prefs steps requests c
    (Hrun : controller_run instant_max (controller_new prefs) steps = Some (requests, c))
    (Hincrease : revisions_increase 0 steps = true) (Hlength : Z.of_nat (length steps) ≤ u64_max)
    (Hlast : from_option is_sync false (last steps) = true) :
  dc_reward_catalog (ct_derived c) = invasion_reward_catalog (ws_invasions (ct_worldstate c))
  ∧ dc_fissure_indices (ct_derived c) = fissure_indices (ct_prefs c) (ct_worldstate c)
  ∧ dc_invasion_indices (ct_derived c) = invasion_indices (ct_prefs c) (ct_worldstate c).
Proof.
  destruct (controller_run_derived instant_max steps (controller_new prefs) requests c) as [_ Hfresh]; try done.
  by apply Hfresh.
Qed.

(** Warframe in front, one update, then the watchlist changed, a save that
    fails, one that replaced the file without lasting, and frames between. *)
Definition example_snapshot : CoreSnapshot :=
  core_snapshot_default <| cs_overlay_mode := Interactive |>
    <| cs_active_game := Some (mkGameWindow (Some 42) (Some WARFRAME_STEAM_APP_ID) None (lit "Warframe") (mkRect 0 0 800 600) (f64_of_Z 1) (lit "x11")) |>.

Definition example_world : WorldstateSnapshot :=
  default worldstate_default (read_worldstate example_document ≫= λ raw, worldstate_of raw 1784327796).

Definition example_batch (a : StatusPrefsAction) (i : InvasionPrefsAction) : WarframeActionBatch := mkWarframeActionBatch [a] [] [] [i] None.

Definition example_frame (world : option (Z * WorldstateSnapshot)) (now : Z) : ControllerStep :=
  CtSync example_snapshot widget_profile_default (mkProviderUpdates world None) now 1784327796.

Definition example_session : list ControllerStep :=
  [example_frame None 0; example_frame (Some (1, example_world)) 10;
   CtCommit example_snapshot (example_batch StatusToggleSeconds InvasionTogglePushDoneDown) (λ _, Ok tt);
   CtCommit example_snapshot (example_batch StatusToggleHorizontal InvasionToggleHideCompleted) (λ _, Err (mkSaveError (lit "disk full") false));
   example_frame None 20;
   CtCommit example_snapshot (example_batch StatusToggleSeconds InvasionToggleCompact) (λ _, Err (mkSaveError (lit "sync failed") true));
   CtCopyFlash (lit "order:1") 25;
   example_frame (Some (2, example_world)) 30].

Definition example_end : list ControllerRequest * WarframeController :=
  default ([], controller_new warframe_prefs_default) (controller_run (from_secs 1000) (controller_new warframe_prefs_default) example_session).

Lemma prefs_follow_store_witness :
  ct_prefs_revision (snd example_end) = 2 ∧ wf_invasion_compact (ct_prefs (snd example_end)) = negb (wf_invasion_compact warframe_prefs_default)
  ∧ wf_invasion_hide_completed (ct_prefs (snd example_end)) = wf_invasion_hide_completed warframe_prefs_default
  ∧ ct_prefs (snd example_end) = foldl store_after warframe_prefs_default (fst example_end).
Proof.
  split; [by vm_compute|]. split; [by vm_compute|]. split; [by vm_compute|].
  apply (prefs_follow_store (from_secs 1000) warframe_prefs_default example_session); [|by vm_compute].
  by apply (proj1 (validate_warframe_prefs_normal warframe_prefs_default) warframe_prefs_default); vm_compute.
Defined.

Lemma derived_never_stale_witness :
  dc_invasion_indices (ct_derived (snd example_end)) = [0%nat]
  ∧ dc_invasion_indices (ct_derived (snd example_end)) = invasion_indices (ct_prefs (snd example_end)) (ct_worldstate (snd example_end)).
Proof.
  split; [by vm_compute|].
  apply (derived_never_stale (from_secs 1000) warframe_prefs_default example_session (fst example_end) (snd example_end)); by vm_compute.
Defined.
