(* ===== verification/Http.v ===== *)
(** What the libraries the overlay's providers ask the web with answer:
    [ureq], which ends a request, and [url], which parses a text
    ([warframe/http.rs] and [twitch/http.rs] of the overlay use both). *)

From S2P Require Import Prelude Text.

(** What a request ends with: [ureq] gave up, or a response whose body may
    fail after some bytes. *)
Record HttpResponse := mkHttpResponse {
  hr_status : Z;
  hr_retry_after : option str;          (* the header, where it is text *)
  hr_body : list Z;
  hr_body_failure : option (bool * str) (* timed out, and the message *)
}.
Inductive HttpAnswer := AnsweredTimeout | AnsweredFailure (message : str) | AnsweredResponse (r : HttpResponse).

(** What the [url] crate says of a text it parses: its scheme, its host, what
    stands between scheme and host (the user and the password, also taken
    apart), the port or the scheme's own, the path, the query (raw and as
    decoded pairs) and the fragment. *)
Record ParsedUrl := mkParsedUrl {
  pu_scheme : str;
  pu_host_str : option str;
  pu_userinfo : str;
  pu_username : str;
  pu_password : option str;
  pu_port : option Z;
  pu_path : str;
  pu_query : option str;
  pu_query_pairs : list (str * str);
  pu_fragment : option str
}.

Class WebUrls := parse_url : str → option ParsedUrl.

(** The tests both providers put to a URL: this scheme and host, no user, no
    password, the standard port. *)
Definition url_ok `{WebUrls} (scheme host url : str) : Prop :=
  ∃ u, parse_url url = Some u ∧ pu_scheme u = scheme ∧ pu_username u = [] ∧ pu_password u = None
    ∧ (∃ h, pu_host_str u = Some h ∧ eq_ignore_ascii_case h host = true) ∧ pu_port u = Some 443 ∧ pu_fragment u = None.
