(* ===== verification/WarframeMarket.v ===== *)
(** The Warframe market in the overlay
    ([crates/overcrow-overlay/src/warframe/http.rs] and
    [warframe/market/client.rs]): bounded requests to one host, the catalog
    and the orders of an item, and the worker with its commands. *)

From S2P Require Import Prelude Ordered Text Decimal Timing Http OverlayRuntime WarframeModel.

(** * HTTPS requests *)

Definition HTTP_ERROR_MAX_CHARS : nat := 180.
Definition RETRY_AFTER_MAX_SECS : Z := 300.
Definition WORLDSTATE_HOST : str := lit "api.warframe.com".
Definition MARKET_HOST : str := lit "api.warframe.market".
Definition WORLDSTATE_MAX_BYTES : Z := 8 * 1024 * 1024.
Definition MARKET_MAX_BYTES : Z := 12 * 1024 * 1024.

#[global] Arguments HTTP_ERROR_MAX_CHARS : simpl never.

Inductive HttpError :=
| HttpInvalidUrl
| HttpTimeout
| HttpTransport (message : str)
| HttpStatus (code : Z) (retry_after : option duration)
| HttpBodyTooLarge (maximum : Z)
| HttpRead (message : str)
| HttpParse (message : str).

(** [Duration::as_secs]. *)
Definition as_secs (d : duration) : Z := d / nanos_per_sec.

Definition http_error_text (e : HttpError) : str :=
  match e with
  | HttpInvalidUrl => lit "invalid or disallowed URL"
  | HttpTimeout => lit "HTTP request timed out"
  | HttpTransport message => lit "HTTP transport failed: " ++ message
  | HttpStatus code _ => lit "HTTP status " ++ show_Z code
  | HttpBodyTooLarge maximum => lit "response too large (maximum " ++ show_Z maximum ++ lit " bytes)"
  | HttpRead message => lit "response read failed: " ++ message
  | HttpParse message => lit "response parse failed: " ++ message
  end.

Definition http_failure_category (e : HttpError) : FailureCategory :=
  match e with
  | HttpInvalidUrl => FcValidation
  | HttpTimeout => FcTimeout
  | HttpTransport _ => FcTransport
  | HttpStatus _ _ => FcHttp
  | HttpParse _ => FcParse
  | HttpBodyTooLarge _ | HttpRead _ => FcResponse
  end.

Fixpoint take_while (p : char → bool) (s : str) : str :=
  match s with c :: s => if p c then c :: take_while p s else [] | [] => [] end.
Fixpoint after_char (c : char) (s : str) : option str :=
  match s with d :: s => if d =? c then Some s else after_char c s | [] => None end.

Definition raw_authority (url : str) : option str :=
  after_scheme ← after_char 58 url;
  after_scheme ← strip_prefix (lit "//") after_scheme;
  Some (take_while (λ c, negb ((c =? 47) || (c =? 63) || (c =? 35))) after_scheme).

Definition validate_https_url `{WebUrls} (url allowed_host : str) : result HttpError ParsedUrl :=
  parsed ← ok_or HttpInvalidUrl (parse_url url);
  host ← ok_or HttpInvalidUrl (pu_host_str parsed);
  let has_userinfo := negb (bool_decide (pu_userinfo parsed = []))
                      || is_some_and (λ authority, existsb (Z.eqb 64) authority) (raw_authority url) in
  if negb (str_eqb (pu_scheme parsed) (lit "https")) || has_userinfo || negb (eq_ignore_ascii_case host allowed_host)
     || negb (bool_decide (pu_port parsed = Some 443))
  then Err HttpInvalidUrl else Ok parsed.

Definition parse_retry_after (value : option str) : option duration :=
  (λ seconds, from_secs (Z.min seconds RETRY_AFTER_MAX_SECS)) <$> (value ≫= parse_unsigned u64_max).

(** [http.rs]'s own [bound_error]. *)
Definition http_bound_error (error : str) : str := take HTTP_ERROR_MAX_CHARS error.

(** Reading at most a byte more than allowed. *)
Definition read_limited (limit : Z) (r : HttpResponse) : result HttpError (list Z) :=
  if limit <=? Z.of_nat (length (hr_body r)) then Ok (take (Z.to_nat limit) (hr_body r))
  else match hr_body_failure r with
       | None => Ok (hr_body r)
       | Some (timed_out, message) => Err (if timed_out then HttpTimeout else HttpRead (http_bound_error message))
       end.

Definition get_with_agent (answer : HttpAnswer) (max_bytes : Z) : result HttpError (list Z) :=
  match answer with
  | AnsweredTimeout => Err HttpTimeout
  | AnsweredFailure message => Err (HttpTransport (http_bound_error message))
  | AnsweredResponse r =>
      let code := hr_status r in
      if negb ((200 <=? code) && (code <? 300))
      then Err (HttpStatus code (if code =? 429 then parse_retry_after (hr_retry_after r) else None))
      else
        body ← read_limited (saturating_add u64_max max_bytes 1) r;
        if max_bytes <? Z.of_nat (length body) then Err (HttpBodyTooLarge max_bytes) else Ok body
  end.

Definition is_safe_market_slug (slug : str) : bool :=
  (1 <=? str_len slug) && (str_len slug <=? 96)
  && forallb (λ b, is_ascii_lower b || is_ascii_digit b || (b =? 95) || (b =? 45)) slug.

(** * The live backend *)

Definition ITEMS_URL : str := lit "https://api.warframe.market/v2/items".
Definition ORDERS_URL_PREFIX : str := lit "https://api.warframe.market/v2/orders/item/".
Definition CATALOG_ITEM_MAX : nat := Z.to_nat 50000.
#[global] Arguments CATALOG_ITEM_MAX : simpl never.
#[global] Arguments ITEMS_URL : simpl never.
#[global] Arguments ORDERS_URL_PREFIX : simpl never.

(** The documents of the service: [ItemsResponse] and [OrdersResponse]. *)
Record ItemEntry := mkItemEntry { ie_slug : option str; ie_i18n : option (gmap str (option str)) }.
Record OrderUser := mkOrderUser { ou_ingame_name : option str; ou_status : option str }.
Record OrderEntry := mkOrderEntry { oe_order_type : str; oe_platinum : Z; oe_visible : bool; oe_user : option OrderUser }.

(** [serde_json] on them, with its message when it fails. *)
Class MarketJson := {
  decode_items : list Z → result str (list ItemEntry);
  decode_orders : list Z → result str (list OrderEntry)
}.

Record CatalogItem := mkCatalogItem { ci_name : str; ci_slug : str }.

(** [LiveMarketBackend] is its catalog.  An operation asks the network and
    gives its result, the catalog after and what it requested. *)
Definition Catalog : Type := option (list CatalogItem).
Definition BackendM (A : Type) : Type := (str → HttpAnswer) → Catalog → result HttpError A * Catalog * list str.

#[export] Instance backend_ret : MRet BackendM := λ A a net catalog, (Ok a, catalog, []).
#[export] Instance backend_bind : MBind BackendM := λ A B f m net catalog,
  let '(r, catalog, requested) := m net catalog in
  match r with
  | Err e => (Err e, catalog, requested)
  | Ok a => let '(r, catalog, more) := f a net catalog in (r, catalog, requested ++ more)
  end.
Definition backend_result {A} (r : result HttpError A) : BackendM A := λ net catalog, (r, catalog, []).
Definition get_catalog : BackendM Catalog := λ net catalog, (Ok catalog, catalog, []).
Definition put_catalog (catalog : Catalog) : BackendM () := λ net _, (Ok tt, catalog, []).

Definition market_bound_error (message : str) : str := bound_chars message ERROR_MAX_CHARS.

Definition parse_presence (status : str) : TraderPresence :=
  let status := to_ascii_lowercase status in
  if str_eqb status (lit "ingame") || str_eqb status (lit "in game") then PresIngame
  else if str_eqb status (lit "online") then PresOnline
  else if str_eqb status (lit "offline") then PresOffline
  else PresUnknown.

(** The loop over the items of the catalog. *)
Definition catalog_item (item : ItemEntry) : option CatalogItem :=
  let name := default [] (match ie_i18n item ≫= (λ map, map !! lit "en" ≫= id) with Some name => Some name | None => ie_slug item end) in
  let slug := default [] (ie_slug item) in
  if bool_decide (name = []) || negb (is_safe_market_slug slug) then None
  else Some (mkCatalogItem (sanitize_item_name name) slug).

(** The loop over the orders. *)
Record OrderBook := mkOrderBook {
  ob_lowest_sell : option Z;
  ob_highest_buy : option Z;
  ob_order_count : Z;
  ob_sells : list MarketOrder;
  ob_buys : list MarketOrder
}.

Definition order_trader (order : OrderEntry) : option str :=
  opt_filter (λ name, negb (bool_decide (name = []))) (sanitize_player_name <$> (oe_user order ≫= ou_ingame_name)).

Definition order_valid (order : OrderEntry) : bool :=
  oe_visible order && negb (oe_platinum order =? 0) && (oe_platinum order <=? 1000000).

Definition order_presence (order : OrderEntry) : TraderPresence :=
  default PresUnknown (parse_presence <$> (oe_user order ≫= ou_status)).

Definition add_order (b : OrderBook) (order : OrderEntry) : OrderBook :=
  if negb (order_valid order) then b
  else
    match order_trader order with
    | None => b
    | Some trader =>
        let entry side := mkMarketOrder side (oe_platinum order) trader (order_presence order) in
        let count := saturating_add u32_max (ob_order_count b) 1 in
        if str_eqb (oe_order_type order) (lit "sell")
        then mkOrderBook (Some (match ob_lowest_sell b with Some current => Z.min current (oe_platinum order) | None => oe_platinum order end))
               (ob_highest_buy b) count (ob_sells b ++ [entry TradeSell]) (ob_buys b)
        else if str_eqb (oe_order_type order) (lit "buy")
        then mkOrderBook (ob_lowest_sell b)
               (Some (match ob_highest_buy b with Some current => Z.max current (oe_platinum order) | None => oe_platinum order end))
               count (ob_sells b) (ob_buys b ++ [entry TradeBuy])
        else mkOrderBook (ob_lowest_sell b) (ob_highest_buy b) count (ob_sells b) (ob_buys b)
    end.

(** The keys the orders are sorted by: who can trade now, then the best
    price for the viewer. *)
Definition sell_key (o : MarketOrder) : Z * (Z * str) := (presence_rank (mo_presence o), (mo_platinum o, mo_trader o)).
Definition buy_key (o : MarketOrder) : Z * (Z * str) := (presence_rank (mo_presence o), (- mo_platinum o, mo_trader o)).

Definition order_detail (name slug : str) (data : list OrderEntry) : MarketItemDetail :=
  let b := foldl add_order (mkOrderBook None None 0 [] []) data in
  mkMarketItemDetail name (bound_chars slug STRING_MAX_CHARS) (ob_lowest_sell b) (ob_highest_buy b) (ob_order_count b)
    (take MARKET_ORDERS_SHOWN (sort_by_key sell_key (ob_sells b))) (take MARKET_ORDERS_SHOWN (sort_by_key buy_key (ob_buys b))).

Section backend.
Context `{WebUrls, MarketJson}.

Definition https_get_allowlisted (url allowed_host : str) (max_bytes : Z) : BackendM (list Z) := λ net catalog,
  match validate_https_url url allowed_host with
  | Err e => (Err e, catalog, [])
  | Ok _ => (get_with_agent (net url) max_bytes, catalog, [url])
  end.

Definition ensure_catalog : BackendM (list CatalogItem) :=
  catalog ← get_catalog;
  match catalog with
  | Some catalog => mret catalog
  | None =>
      body ← https_get_allowlisted ITEMS_URL MARKET_HOST MARKET_MAX_BYTES;
      data ← backend_result (map_error (λ e, HttpParse (market_bound_error e)) (decode_items body));
      let catalog := omap catalog_item (take CATALOG_ITEM_MAX data) in
      _ ← put_catalog (Some catalog);
      mret catalog
  end.

Definition backend_search (query : str) : BackendM (list MarketItemSummary) :=
  let needle := trim query in
  if bool_decide (needle = []) then mret []
  else if (STRING_MAX_CHARS <? length needle)%nat then backend_result (Err (HttpRead (lit "request too long")))
  else
    let needle := to_ascii_lowercase needle in
    catalog ← ensure_catalog;
    mret ((λ item, mkMarketItemSummary (ci_name item) (ci_slug item))
            <$> take MARKET_RESULTS_MAX (filter (λ item, contains needle (to_ascii_lowercase (ci_name item)) = true) catalog)).

Definition backend_orders (slug : str) : BackendM MarketItemDetail :=
  if negb (is_safe_market_slug slug) then backend_result (Err HttpInvalidUrl)
  else
    body ← https_get_allowlisted (ORDERS_URL_PREFIX ++ slug) MARKET_HOST MARKET_MAX_BYTES;
    data ← backend_result (map_error (λ e, HttpParse (market_bound_error e)) (decode_orders body));
    catalog ← ensure_catalog;
    let name := default (sanitize_item_name slug) (ci_name <$> find_first (λ item, str_eqb (ci_slug item) slug) catalog) in
    mret (order_detail name slug data).
End backend.

(** * The worker *)

Definition COMMAND_CAPACITY : nat := 8.
Definition MARKET_BACKOFF_INITIAL : duration := from_secs 5.
Definition MARKET_BACKOFF_MAX : duration := from_secs 120.
Definition RETRY_AFTER_MAX : duration := from_secs 300.
#[global] Arguments COMMAND_CAPACITY : simpl never.

Inductive MarketCommand := CommandSearch (query : str) | CommandSelect (slug : str) | CommandRefreshSelected | CommandClear.

Definition is_refresh (command : MarketCommand) : bool := match command with CommandRefreshSelected => true | _ => false end.

Record RetryPolicy := mkRetryPolicy { rp_delay : duration; rp_next_backoff : duration }.

Definition retry_policy (error : HttpError) (backoff : duration) : RetryPolicy :=
  let by_backoff := mkRetryPolicy backoff (Z.min (backoff * 2) MARKET_BACKOFF_MAX) in
  match error with
  | HttpStatus code (Some retry_after) => if code =? 429 then mkRetryPolicy (Z.min retry_after RETRY_AFTER_MAX) backoff else by_backoff
  | _ => by_backoff
  end.

Definition normalize_command (command : MarketCommand) : option MarketCommand :=
  match command with
  | CommandSearch query => Some (CommandSearch (bound_chars (trim query) STRING_MAX_CHARS))
  | CommandSelect slug => if is_safe_market_slug slug then Some (CommandSelect slug) else None
  | command => Some command
  end.

Definition MARKET_BUSY : str := lit "Market busy" ++ [ellipsis].
Definition SEARCHING : str := lit "Recherche" ++ [ellipsis].
Definition LOADING_ORDERS : str := lit "Loading orders" ++ [ellipsis].
#[global] Arguments MARKET_BUSY : simpl never.
#[global] Arguments SEARCHING : simpl never.
#[global] Arguments LOADING_ORDERS : simpl never.

(** Where the worker is: between the receipt of a command, the test that it
    is still wanted, the reading of the snapshot, what it publishes before it
    asks, the request, what it publishes after, and the end of the command. *)
Inductive MarketWorker :=
| WorkerWaiting
| WorkerReceived (generation : Z) (command : MarketCommand)
| WorkerReading (generation : Z) (command : MarketCommand)
| WorkerLoading (generation : Z) (command : MarketCommand) (snapshot : MarketSnapshot)
| WorkerAsking (generation : Z) (command : MarketCommand) (snapshot : MarketSnapshot)
| WorkerPublishing (generation : Z) (command : MarketCommand) (snapshot : MarketSnapshot)
| WorkerRefused (generation : Z) (snapshot : MarketSnapshot)
| WorkerFinishing (command : MarketCommand)
| WorkerStopped.

Record MarketClient := mkMarketClient {
  mc_latest : LatestState MarketSnapshot;
  mc_commands : list (Z * MarketCommand);
  mc_open : bool;                         (* the client, and with it the sender, lives *)
  mc_enabled : bool;
  mc_generation : Z;
  mc_refresh_pending : bool;
  mc_shutdown : bool;
  mc_worker : MarketWorker;
  mc_backoff : duration;
  mc_catalog : Catalog;
  mc_health : list HealthCall;
  mc_requested : list str;                (* every URL asked for *)
  mc_shown : list MarketSnapshot          (* everything published *)
}.
#[export] Instance MarketClient_eta : Eta MarketClient := λ c,
  mkMarketClient (mc_latest c) (mc_commands c) (mc_open c) (mc_enabled c) (mc_generation c) (mc_refresh_pending c) (mc_shutdown c)
    (mc_worker c) (mc_backoff c) (mc_catalog c) (mc_health c) (mc_requested c) (mc_shown c).

Definition market_client_new : MarketClient :=
  mkMarketClient (latest_channel market_default) [] true false 0 false false WorkerWaiting MARKET_BACKOFF_INITIAL None [] [] [].

Definition published (c : MarketClient) : MarketSnapshot := la_current (mc_latest c).

(** [LatestPublisher::publish], which asks for a repaint as the receiver
    lives as long as the client: nothing when the revisions are exhausted,
    where the source panics. *)
Definition market_publish (s : MarketSnapshot) (c : MarketClient) : option MarketClient :=
  if la_revision (mc_latest c) <? u64_max
  then Some (c <| mc_latest ::= latest_store s |> <| mc_shown ::= λ l, l ++ [s] |>)
  else None.

Definition bump_generation (c : MarketClient) : MarketClient := c <| mc_generation ::= λ g, (g + 1) mod (u64_max + 1) |>.

(** [set_enabled], under the gate of publications. *)
Definition set_enabled (enabled : bool) (c : MarketClient) : option MarketClient :=
  if Bool.eqb (mc_enabled c) enabled then Some c
  else
    let c := bump_generation (c <| mc_enabled := enabled |>) in
    if negb enabled && (isSome (mk_status (published c)) || negb (mk_next_refresh_at_secs (published c) =? 0))
    then market_publish ((published c) <| mk_status := None |> <| mk_next_refresh_at_secs := 0 |>) c
    else Some c.

(** [send]: the sender's channel has a receiver until the worker has
    stopped. *)
Definition market_send (command : MarketCommand) (c : MarketClient) : option MarketClient :=
  match normalize_command command with
  | None => Some c
  | Some command =>
      if negb (mc_enabled c) then Some c
      else if is_refresh command && mc_refresh_pending c then Some c
      else
        let c := if is_refresh command then c <| mc_refresh_pending := true |> else c in
        let undo c := if is_refresh command then c <| mc_refresh_pending := false |> else c in
        match mc_worker c with
        | WorkerStopped =>
            let c := undo c in
            if bool_decide (mk_error (published c) = Some (lit "Market client unavailable")) then Some c
            else market_publish ((published c) <| mk_error := Some (lit "Market client unavailable") |>) c
        | _ =>
            if (length (mc_commands c) <? COMMAND_CAPACITY)%nat
            then Some (c <| mc_commands ::= λ l, l ++ [(mc_generation c, command)] |>)
            else
              let c := undo c in
              if bool_decide (mk_status (published c) = Some MARKET_BUSY) then Some c
              else market_publish ((published c) <| mk_status := Some MARKET_BUSY |>) c
        end
  end.

(** [drop], up to the join. *)
Definition market_drop (c : MarketClient) : MarketClient :=
  bump_generation (c <| mc_shutdown := true |> <| mc_enabled := false |>) <| mc_open := false |>.

Definition request_is_current (generation : Z) (c : MarketClient) : bool := mc_enabled c && (mc_generation c =? generation).

(** [publish_worker_if_current]: the gate excludes [set_enabled]. *)
Definition publish_worker_if_current (generation : Z) (s : MarketSnapshot) (c : MarketClient) : option MarketClient :=
  if mc_shutdown c || negb (request_is_current generation c) || bool_decide (published c = s) then Some c
  else market_publish s c.

Definition clear_pending (command : MarketCommand) (c : MarketClient) : MarketClient :=
  if is_refresh command then c <| mc_refresh_pending := false |> else c.

(** The end of the worker's loop. *)
Definition stop_worker (c : MarketClient) : MarketClient := c <| mc_refresh_pending := false |> <| mc_worker := WorkerStopped |>.

Definition note_health (call : HealthCall) (c : MarketClient) : MarketClient := c <| mc_health ::= λ l, l ++ [call] |>.

(** How an answer about orders changes the snapshot; a refresh keeps the
    status when it fails. *)
Definition orders_answer (r : result HttpError MarketItemDetail) (now_secs : Z) (keep_status : bool) (s : MarketSnapshot)
    (c : MarketClient) : MarketSnapshot * MarketClient :=
  match r with
  | Ok detail =>
      (s <| mk_selected := Some detail |> <| mk_selected_fetched_at_secs := now_secs |>
         <| mk_next_refresh_at_secs := saturating_add u64_max now_secs MARKET_ORDERS_REFRESH_SECS |>
         <| mk_error := None |> <| mk_status := None |>,
       note_health HealthRecovered c <| mc_backoff := MARKET_BACKOFF_INITIAL |>)
  | Err error =>
      let policy := retry_policy error (mc_backoff c) in
      (s <| mk_error := Some (market_bound_error (http_error_text error)) |>
         <| mk_status := if keep_status then mk_status s else None |>
         <| mk_next_refresh_at_secs := saturating_add u64_max now_secs (as_secs (rp_delay policy)) |>,
       note_health (HealthFailed (http_failure_category error)) c <| mc_backoff := rp_next_backoff policy |>)
  end.

Definition search_answer (r : result HttpError (list MarketItemSummary)) (s : MarketSnapshot) (c : MarketClient) :
    MarketSnapshot * MarketClient :=
  match r with
  | Ok results =>
      (s <| mk_results := results |> <| mk_selected := None |> <| mk_selected_fetched_at_secs := 0 |>
         <| mk_next_refresh_at_secs := 0 |> <| mk_status := None |>,
       note_health HealthRecovered c <| mc_backoff := MARKET_BACKOFF_INITIAL |>)
  | Err error =>
      (s <| mk_error := Some (market_bound_error (http_error_text error)) |> <| mk_status := None |>,
       note_health (HealthFailed (http_failure_category error)) c)
  end.

Section worker.
Context `{WebUrls, MarketJson}.

(** An operation of the backend, and its requests. *)
Definition with_backend {A} (m : BackendM A) (net : str → HttpAnswer) (c : MarketClient) : result HttpError A * MarketClient :=
  let '(r, catalog, requested) := m net (mc_catalog c) in
  (r, c <| mc_catalog := catalog |> <| mc_requested ::= λ l, l ++ requested |>).

(** The command at hand with the snapshot just read. *)
Definition worker_read (generation : Z) (command : MarketCommand) (c : MarketClient) : MarketClient :=
  let s := published c in
  match command with
  | CommandClear => c <| mc_backoff := MARKET_BACKOFF_INITIAL |> <| mc_worker := WorkerPublishing generation command market_default |>
  | CommandSearch query =>
      c <| mc_worker := WorkerLoading generation command (s <| mk_query := query |> <| mk_status := Some SEARCHING |> <| mk_error := None |>) |>
  | CommandSelect slug =>
      if is_safe_market_slug slug
      then c <| mc_worker := WorkerLoading generation command
             (s <| mk_status := Some LOADING_ORDERS |> <| mk_error := None |> <| mk_next_refresh_at_secs := u64_max |>) |>
      else note_health (HealthFailed FcValidation) c
             <| mc_worker := WorkerRefused generation (s <| mk_error := Some (lit "invalid item id") |> <| mk_status := None |>) |>
  | CommandRefreshSelected =>
      match mk_selected s with
      | None => c <| mc_refresh_pending := false |> <| mc_worker := WorkerWaiting |>
      | Some selected =>
          if is_safe_market_slug (mi_slug selected) then c <| mc_worker := WorkerAsking generation command s |>
          else note_health (HealthFailed FcValidation) c <| mc_refresh_pending := false |> <| mc_worker := WorkerWaiting |>
      end
  end.

(** Asking the backend, and what is made of its answer. *)
Definition worker_ask (net : str → HttpAnswer) (now_secs : Z) (command : MarketCommand) (s : MarketSnapshot) (c : MarketClient) :
    MarketSnapshot * MarketClient :=
  match command with
  | CommandClear => (s, c)
  | CommandSearch query => let '(r, c) := with_backend (backend_search query) net c in search_answer r s c
  | CommandSelect slug => let '(r, c) := with_backend (backend_orders slug) net c in orders_answer r now_secs false s c
  | CommandRefreshSelected =>
      let slug := default [] (mi_slug <$> mk_selected s) in
      let '(r, c) := with_backend (backend_orders slug) net c in orders_answer r now_secs true s c
  end.

(** One step of [worker_loop], to its next look at what it shares with the
    interface; nothing while it waits for a command. *)
Definition worker_step (net : str → HttpAnswer) (now_secs : Z) (c : MarketClient) : option MarketClient :=
  match mc_worker c with
  | WorkerWaiting =>
      match mc_commands c with
      | (generation, command) :: commands => Some (c <| mc_commands := commands |> <| mc_worker := WorkerReceived generation command |>)
      | [] => if mc_open c then None else Some (stop_worker c)
      end
  | WorkerReceived generation command =>
      if mc_shutdown c then Some (stop_worker (clear_pending command c))
      else if negb (request_is_current generation c) then Some (clear_pending command c <| mc_worker := WorkerWaiting |>)
      else Some (c <| mc_worker := WorkerReading generation command |>)
  | WorkerReading generation command => Some (worker_read generation command c)
  | WorkerLoading generation command s =>
      c ← publish_worker_if_current generation s c;
      Some (c <| mc_worker := WorkerAsking generation command s |>)
  | WorkerAsking generation command s =>
      let '(s, c) := worker_ask net now_secs command s c in
      Some (c <| mc_worker := WorkerPublishing generation command s |>)
  | WorkerPublishing generation command s =>
      c ← publish_worker_if_current generation s c;
      Some (c <| mc_worker := WorkerFinishing command |>)
  | WorkerRefused generation s =>
      c ← publish_worker_if_current generation s c;
      Some (c <| mc_worker := WorkerWaiting |>)
  | WorkerFinishing command =>
      let c := clear_pending command c in
      Some (if mc_shutdown c then stop_worker c else c <| mc_worker := WorkerWaiting |>)
  | WorkerStopped => None
  end.

(** The interface's thread, the worker, and the receiver's channel. *)
Inductive MarketStep :=
| MarketEnable (enabled : bool)
| MarketSend (command : MarketCommand)
| MarketDrop
| MarketWork (net : str → HttpAnswer) (now_secs : Z)
| MarketNotify
| MarketTryRecv
| MarketTake.

(** [nothing]: such a step is not possible. *)
Definition market_step (c : MarketClient) (s : MarketStep) : option MarketClient :=
  match s with
  | MarketWork net now_secs => worker_step net now_secs c
  | MarketNotify => (λ l, c <| mc_latest := l |>) <$> notify_receiver (mc_latest c)
  | _ =>
      if negb (mc_open c) then None
      else match s with
           | MarketEnable enabled => set_enabled enabled c
           | MarketSend command => market_send command c
           | MarketTryRecv => (λ l, c <| mc_latest := l |>) <$> latest_try_recv (mc_latest c)
           | MarketTake => (λ r, c <| mc_latest := snd r |>) <$> latest_take (mc_latest c)
           | _ => Some (market_drop c)
           end
  end.

Fixpoint market_run (c : MarketClient) (steps : list MarketStep) : option MarketClient :=
  match steps with [] => Some c | s :: steps => c ← market_step c s; market_run c steps end.
End worker.

(** * What is shown is bounded and clean *)

Definition clean_trader (trader : str) : Prop :=
  trader ≠ [] ∧ (length trader ≤ 32)%nat ∧ Forall (λ c, is_control c = false ∧ c ≠ 47 ∧ c ≠ 92) trader.

Definition market_order_ok (side : TradeSide) (o : MarketOrder) : Prop :=
  mo_side o = side ∧ mo_platinum o ≠ 0 ∧ mo_platinum o ≤ 1000000 ∧ clean_trader (mo_trader o).

Definition item_name_ok (name : str) : Prop := (length name ≤ STRING_MAX_CHARS)%nat.

Definition detail_ok (d : MarketItemDetail) : Prop :=
  item_name_ok (mi_name d) ∧ is_safe_market_slug (mi_slug d) = true
  ∧ (length (mi_top_sells d) ≤ MARKET_ORDERS_SHOWN)%nat ∧ Forall (market_order_ok TradeSell) (mi_top_sells d)
  ∧ (length (mi_top_buys d) ≤ MARKET_ORDERS_SHOWN)%nat ∧ Forall (market_order_ok TradeBuy) (mi_top_buys d).

Definition summary_ok (i : MarketItemSummary) : Prop := item_name_ok (ms_name i) ∧ is_safe_market_slug (ms_slug i) = true.

Definition market_snapshot_ok (s : MarketSnapshot) : Prop :=
  (length (mk_query s) ≤ STRING_MAX_CHARS)%nat ∧ (length (mk_results s) ≤ MARKET_RESULTS_MAX)%nat ∧ Forall summary_ok (mk_results s)
  ∧ from_option detail_ok True (mk_selected s) ∧ from_option (λ e, (length e ≤ ERROR_MAX_CHARS)%nat) True (mk_error s).

Definition catalog_ok (catalog : Catalog) : Prop :=
  from_option (Forall (λ i, item_name_ok (ci_name i) ∧ is_safe_market_slug (ci_slug i) = true)) True catalog.

Definition market_request_ok `{WebUrls} (url : str) : Prop :=
  (url = ITEMS_URL ∨ ∃ slug, url = ORDERS_URL_PREFIX ++ slug ∧ is_safe_market_slug slug = true)
  ∧ is_ok (validate_https_url url MARKET_HOST) = true.

Lemma sanitize_item_name_ok name : item_name_ok (sanitize_item_name name).
Proof. unfold item_name_ok, sanitize_item_name, sanitize_display. apply bound_chars_length. unfold STRING_MAX_CHARS. lia. Qed.

Lemma market_bound_error_ok m : (length (market_bound_error m) ≤ ERROR_MAX_CHARS)%nat.
Proof. apply bound_chars_length. unfold ERROR_MAX_CHARS. lia. Qed.

Lemma sanitize_player_name_clean name : sanitize_player_name name ≠ [] → clean_trader (sanitize_player_name name).
Proof.
  intros Hne. split; [done|]. unfold sanitize_player_name in *. set (l := filter _ name) in *. split.
  - etrans; [apply trim_length|]. rewrite length_take. lia.
  - apply Forall_forall. intros c Hc%trim_sub. apply elem_of_take in Hc as (i & Hi & _).
    apply list_elem_of_lookup_2 in Hi. by apply list_elem_of_filter in Hi as [? _].
Qed.

Lemma safe_slug_bounded slug : is_safe_market_slug slug = true → bound_chars slug STRING_MAX_CHARS = slug.
Proof.
  unfold is_safe_market_slug. intros [[_ Hl%Z.leb_le]%andb_true_iff Hc]%andb_true_iff.
  assert (str_len slug = Z.of_nat (length slug)) as E.
  { clear Hl. unfold str_len. induction slug as [|c slug IH]; cbn [foldr length forallb] in *; [done|].
    apply andb_true_iff in Hc as [Hc Hs]. rewrite IH by done.
    replace (len_utf8 c) with 1; [lia|]. unfold len_utf8. unfold is_ascii_lower, is_ascii_digit in Hc.
    destruct (Z.ltb_spec c 128); [done|]. exfalso. repeat (apply orb_true_iff in Hc as [Hc|Hc]); 
      rewrite ?andb_true_iff, ?Z.leb_le, ?Z.eqb_eq in Hc; lia. }
  unfold bound_chars. destruct (Nat.leb_spec (length slug) STRING_MAX_CHARS); [done|]. unfold STRING_MAX_CHARS in *. lia.
Qed.

(** ** The backend *)

Section backend_proofs.
Context `{WebUrls, MarketJson}.

(** From a clean catalog to a clean catalog by allowed requests. *)
Definition backend_ok {A} (m : BackendM A) (Q : A → Prop) : Prop :=
  ∀ net catalog, catalog_ok catalog →
    let '(r, catalog', requested) := m net catalog in
    catalog_ok catalog' ∧ Forall market_request_ok requested ∧ match r with Ok a => Q a | Err _ => True end.

Lemma backend_ok_ret {A} (a : A) (Q : A → Prop) : Q a → backend_ok (mret a) Q.
Proof. by intros Ha net catalog Hc. Qed.

Lemma backend_ok_bind {A B} (m : BackendM A) (f : A → BackendM B) P Q :
  backend_ok m P → (∀ a, P a → backend_ok (f a) Q) → backend_ok (m ≫= f) Q.
Proof.
  intros Hm Hf net catalog Hc. specialize (Hm net catalog Hc). unfold mbind, backend_bind.
  destruct (m net catalog) as [[[a|e] c1] r1]; destruct Hm as (Hc1 & Hr1 & Ha); [|done].
  specialize (Hf a Ha net c1 Hc1). destruct (f a net c1) as [[r c2] r2]. destruct Hf as (Hc2 & Hr2 & Hq).
  split; [done|]. split; [by apply Forall_app|done].
Qed.

Lemma backend_ok_weaken {A} (m : BackendM A) (P Q : A → Prop) : backend_ok m P → (∀ a, P a → Q a) → backend_ok m Q.
Proof.
  intros Hm Hq net catalog Hc. specialize (Hm net catalog Hc). destruct (m net catalog) as [[r c1] r1].
  destruct Hm as (? & ? & ?). split; [done|]. split; [done|]. destruct r; auto.
Qed.

Lemma backend_ok_result {A} (r : result HttpError A) : backend_ok (backend_result r) (λ _, True).
Proof. intros net catalog Hc. split; [done|]. split; [constructor|]. by destruct r. Qed.

Lemma backend_ok_get : backend_ok get_catalog catalog_ok.
Proof. by intros net catalog Hc. Qed.

Lemma backend_ok_put catalog : catalog_ok catalog → backend_ok (put_catalog catalog) (λ _, True).
Proof. by intros Hc net old _. Qed.

Lemma backend_ok_https url max :
  (url = ITEMS_URL ∨ ∃ slug, url = ORDERS_URL_PREFIX ++ slug ∧ is_safe_market_slug slug = true) →
  backend_ok (https_get_allowlisted url MARKET_HOST max) (λ _, True).
Proof.
  intros Hu net catalog Hc. unfold https_get_allowlisted. destruct (validate_https_url url MARKET_HOST) as [p|e] eqn:E.
  - split; [done|]. split; [constructor; [|constructor]; split; [done|by rewrite E]|]. by destruct (get_with_agent _ _).
  - done.
Qed.

Lemma ensure_catalog_ok : backend_ok ensure_catalog (λ l, catalog_ok (Some l)).
Proof.
  eapply backend_ok_bind; [apply backend_ok_get|]. intros [l|] Hl; [by apply backend_ok_ret|].
  eapply backend_ok_bind; [by apply backend_ok_https; left|]. intros body _.
  eapply backend_ok_bind; [apply backend_ok_result|]. intros data _.
  assert (catalog_ok (Some (omap catalog_item (take CATALOG_ITEM_MAX data)))) as Hok.
  { apply Forall_forall. intros i (e & _ & He)%list_elem_of_omap. unfold catalog_item in He.
    set (name := default [] _) in He. clearbody name. destruct (bool_decide _); [done|]. cbn [orb] in He.
    destruct (is_safe_market_slug _) eqn:Es; [|done]. injection He as <-. split; [apply sanitize_item_name_ok|done]. }
  eapply backend_ok_bind; [by apply backend_ok_put|]. intros _ _. by apply backend_ok_ret.
Qed.

Lemma backend_search_ok query :
  backend_ok (backend_search query) (λ l, (length l ≤ MARKET_RESULTS_MAX)%nat ∧ Forall summary_ok l).
Proof.
  unfold backend_search. case_bool_decide; [apply backend_ok_ret; cbn; split; [lia|constructor]|].
  destruct (_ <? _)%nat; [by intros net catalog Hc|].
  eapply backend_ok_bind; [apply ensure_catalog_ok|]. intros l Hl. apply backend_ok_ret.
  split; [rewrite length_fmap, length_take; lia|]. apply Forall_fmap, Forall_take, Forall_forall.
  intros i [_ Hi]%list_elem_of_filter. unfold catalog_ok in Hl. cbn in Hl. rewrite Forall_forall in Hl. by apply Hl.
Qed.

(** The book holds the orders that count, of each side. *)
Definition book_ok (b : OrderBook) : Prop := Forall (market_order_ok TradeSell) (ob_sells b) ∧ Forall (market_order_ok TradeBuy) (ob_buys b).

Lemma order_trader_clean o trader : order_trader o = Some trader → clean_trader trader.
Proof.
  unfold order_trader. intros [Hp Hs]%opt_filter_Some.
  apply fmap_Some in Hp as (name & _ & ->). apply sanitize_player_name_clean. intros E. by rewrite E in Hs.
Qed.

Lemma add_order_ok b o : book_ok b → book_ok (add_order b o).
Proof.
  intros [Hs Hb]. unfold add_order. destruct (order_valid o) eqn:Ev; [|done]. cbn [negb].
  destruct (order_trader o) as [trader|] eqn:Et; [|done]. apply order_trader_clean in Et.
  unfold order_valid in Ev. rewrite !andb_true_iff, negb_true_iff, Z.eqb_neq, Z.leb_le in Ev. destruct Ev as [[_ Hz] Hm].
  destruct (str_eqb _ _); [|destruct (str_eqb _ _); [|done]]; (split; cbn; try done); apply Forall_app; (split; [done|]); apply Forall_singleton; done.
Qed.

Lemma order_detail_ok name slug data :
  item_name_ok name → is_safe_market_slug slug = true → detail_ok (order_detail name slug data).
Proof.
  intros Hn Hs. unfold order_detail. set (b := foldl add_order _ data).
  assert (book_ok b) as [Hsell Hbuy].
  { unfold b. assert (book_ok (mkOrderBook None None 0 [] [])) as Hb by done. revert Hb. generalize (mkOrderBook None None 0 [] []).
    induction data as [|o data IH]; intros b0 Hb; [done|]. by apply IH, add_order_ok. }
  split; [done|]. split; [by cbn; rewrite safe_slug_bounded|].
  cbn [mi_top_sells mi_top_buys]. rewrite !length_take.
  split; [lia|]. split; [apply Forall_take; by rewrite sort_by_key_perm|].
  split; [lia|]. apply Forall_take; by rewrite sort_by_key_perm.
Qed.

Lemma backend_orders_ok slug : backend_ok (backend_orders slug) detail_ok.
Proof.
  unfold backend_orders. destruct (is_safe_market_slug slug) eqn:Es; [|by intros net catalog Hc]. cbn [negb].
  eapply backend_ok_bind; [apply backend_ok_https; right; by eexists|]. intros body _.
  eapply backend_ok_bind; [apply backend_ok_result|]. intros data _.
  eapply backend_ok_bind; [apply ensure_catalog_ok|]. intros l Hl. apply backend_ok_ret, order_detail_ok; [|done].
  destruct (find_first _ l) as [i|] eqn:E; cbn; [|apply sanitize_item_name_ok].
  apply find_first_Some in E as [Hi _]. unfold catalog_ok in Hl. cbn in Hl. rewrite Forall_forall in Hl. by apply Hl.
Qed.
End backend_proofs.

(** ** The invariant of the client *)

Definition loading (status : option str) : bool :=
  bool_decide (status = Some SEARCHING) || bool_decide (status = Some LOADING_ORDERS).
Definition calm (s : MarketSnapshot) : Prop := loading (mk_status s) = false.

Definition command_ok (command : MarketCommand) : Prop :=
  match command with
  | CommandSearch query => (length query ≤ STRING_MAX_CHARS)%nat
  | CommandSelect slug => is_safe_market_slug slug = true
  | _ => True
  end.

(** The command the worker holds. *)
Definition held (w : MarketWorker) : option MarketCommand :=
  match w with
  | WorkerReceived _ command | WorkerReading _ command | WorkerLoading _ command _ | WorkerAsking _ command _
  | WorkerPublishing _ command _ | WorkerFinishing command => Some command
  | _ => None
  end.

Definition worker_ok (w : MarketWorker) : Prop :=
  from_option command_ok True (held w) ∧
  match w with
  | WorkerLoading _ command s => market_snapshot_ok s ∧ is_refresh command = false ∧ command ≠ CommandClear
  | WorkerAsking _ command s => market_snapshot_ok s ∧ (is_refresh command = true → calm s ∧ isSome (mk_selected s) = true) ∧ command ≠ CommandClear
  | WorkerPublishing _ _ s | WorkerRefused _ s => market_snapshot_ok s ∧ calm s
  | _ => True
  end.

(** The request a loading notice is shown for. *)
Definition loading_for (w : MarketWorker) : option Z :=
  match w with WorkerAsking g command _ => if is_refresh command then None else Some g | WorkerPublishing g _ _ => Some g | _ => None end.

(** Where nothing may be loading, whether the client lives or not. *)
Definition quiet_phase (w : MarketWorker) : bool :=
  match w with WorkerWaiting | WorkerReceived _ _ | WorkerReading _ _ | WorkerLoading _ _ _ | WorkerRefused _ _ => true | _ => false end.

Definition outstanding (c : MarketClient) : nat :=
  length (filter (λ r, is_refresh (snd r) = true) (mc_commands c)) + (if from_option is_refresh false (held (mc_worker c)) then 1 else 0).

(** While the client lives. *)
Record live_inv (c : MarketClient) : Prop := mkLiveInv {
  lv_shutdown : mc_shutdown c = false;
  lv_worker : mc_worker c ≠ WorkerStopped;
  lv_disabled : mc_enabled c = false → mk_status (published c) = None ∧ mk_next_refresh_at_secs (published c) = 0;
  lv_loading : loading (mk_status (published c)) = true → mc_enabled c = true ∧ loading_for (mc_worker c) = Some (mc_generation c);
  lv_pending : outstanding c = (if mc_refresh_pending c then 1 else 0)%nat
}.

Record market_inv `{WebUrls} (c : MarketClient) : Prop := mkMarketInv {
  mv_published : market_snapshot_ok (published c);
  mv_shown : Forall market_snapshot_ok (mc_shown c);
  mv_catalog : catalog_ok (mc_catalog c);
  mv_requested : Forall market_request_ok (mc_requested c);
  mv_commands : Forall (λ r, command_ok (snd r)) (mc_commands c);
  mv_capacity : (length (mc_commands c) ≤ COMMAND_CAPACITY)%nat;
  mv_worker : worker_ok (mc_worker c);
  mv_backoff : MARKET_BACKOFF_INITIAL ≤ mc_backoff c ≤ MARKET_BACKOFF_MAX;
  mv_calm : quiet_phase (mc_worker c) = true → calm (published c);
  mv_closed : mc_open c = false → mc_shutdown c = true;
  mv_live : mc_open c = true → live_inv c
}.

Lemma market_publish_inv s c c' :
  market_publish s c = Some c' →
  published c' = s ∧ mc_shown c' = mc_shown c ++ [s] ∧ mc_commands c' = mc_commands c ∧ mc_open c' = mc_open c
  ∧ mc_enabled c' = mc_enabled c ∧ mc_generation c' = mc_generation c ∧ mc_refresh_pending c' = mc_refresh_pending c
  ∧ mc_shutdown c' = mc_shutdown c ∧ mc_worker c' = mc_worker c ∧ mc_backoff c' = mc_backoff c ∧ mc_catalog c' = mc_catalog c
  ∧ mc_requested c' = mc_requested c.
Proof.
  unfold market_publish. destruct (Z.ltb_spec (la_revision (mc_latest c)) u64_max); [|done]. intros Hx. apply Some_inj in Hx as <-.
  unfold published, latest_store, checked_add. cbn. destruct (Z.leb_spec (la_revision (mc_latest c) + 1) u64_max); [|lia]. done.
Qed.

Definition set_worker (w : MarketWorker) (c : MarketClient) : MarketClient := c <| mc_worker := w |>.

(** Publishing a clean snapshot that fits the state. *)
Lemma market_publish_ok `{WebUrls} s c c' :
  market_publish s c = Some c' → market_inv c → market_snapshot_ok s →
  (mc_open c = true → mc_enabled c = false → mk_status s = None ∧ mk_next_refresh_at_secs s = 0) →
  (mc_open c = true → loading (mk_status s) = true → mc_enabled c = true ∧ loading_for (mc_worker c) = Some (mc_generation c)) →
  (quiet_phase (mc_worker c) = true → calm s) →
  market_inv c'.
Proof.
  intros Hp Hi Hs Hd Hl Hq. apply market_publish_inv in Hp as (E1 & E2 & E3 & E4 & E5 & E6 & E7 & E8 & E9 & E10 & E11 & E12).
  destruct Hi as [H1 H2 H3 H4 H5 H6 H7 H8 H10 H11 H9]. split; rewrite ?E1, ?E2, ?E3, ?E4, ?E8, ?E9, ?E10, ?E11, ?E12; try done.
  - apply Forall_app. split; [done|]. by apply Forall_singleton.
  - intros Ho. destruct (H9 Ho) as [L1 L2 L3 L4 L5]. unfold outstanding in *.
    split; unfold outstanding; rewrite ?E1, ?E3, ?E5, ?E6, ?E7, ?E8, ?E9; try done; auto.
Qed.

Lemma publish_if_current_ok `{WebUrls} g s c c' :
  publish_worker_if_current g s c = Some c' → market_inv c → market_snapshot_ok s →
  (loading (mk_status s) = true → loading_for (mc_worker c) = Some g) →
  (quiet_phase (mc_worker c) = true → calm s) → market_inv c'.
Proof.
  unfold publish_worker_if_current, request_is_current. intros Hp Hi Hs Hl Hq.
  destruct (mc_shutdown c) eqn:Esh; [by apply Some_inj in Hp as <-|]. cbn [orb] in Hp.
  destruct (mc_enabled c) eqn:Een; [|by apply Some_inj in Hp as <-]. cbn [andb negb orb] in Hp.
  destruct (Z.eqb_spec (mc_generation c) g) as [<-|]; [|by apply Some_inj in Hp as <-]. cbn [negb orb] in Hp.
  destruct (bool_decide _); [by apply Some_inj in Hp as <-|].
  apply (market_publish_ok _ _ _ Hp Hi Hs); [congruence| |done]. auto.
Qed.

(** A publication of a current snapshot settles what was loading. *)
Lemma publish_calms g s c c' :
  publish_worker_if_current g s c = Some c' → calm s →
  (loading (mk_status (published c)) = true → mc_enabled c = true ∧ mc_generation c = g ∧ mc_shutdown c = false) → calm (published c').
Proof.
  unfold publish_worker_if_current, request_is_current. intros Hp Hs Hl.
  destruct (loading (mk_status (published c))) eqn:El.
  - destruct (Hl eq_refl) as (H1 & H2 & H3). rewrite H1, H3 in Hp. cbn in Hp. apply Z.eqb_eq in H2. rewrite H2 in Hp. cbn in Hp.
    case_bool_decide as E; [apply Some_inj in Hp as <-; by rewrite E|]. by apply market_publish_inv in Hp as [-> _].
  - destruct (_ || _); [by apply Some_inj in Hp as <-|]. by apply market_publish_inv in Hp as [-> _].
Qed.

(** What [publish_worker_if_current] leaves alone. *)
Lemma publish_if_current_same g s c c' :
  publish_worker_if_current g s c = Some c' →
  mc_worker c' = mc_worker c ∧ mc_commands c' = mc_commands c ∧ mc_refresh_pending c' = mc_refresh_pending c
  ∧ mc_enabled c' = mc_enabled c ∧ mc_generation c' = mc_generation c ∧ mc_open c' = mc_open c ∧ mc_shutdown c' = mc_shutdown c.
Proof.
  unfold publish_worker_if_current. destruct (_ || _); [by intros [= <-]|].
  intros (E1 & E2 & E3 & E4 & E5 & E6 & E7 & E8 & E9 & _)%market_publish_inv. done.
Qed.

(** The worker moves on, perhaps settling its refresh. *)
Lemma inv_worker `{WebUrls} (p : bool) w c :
  market_inv c → worker_ok w → (quiet_phase w = true → calm (published c)) →
  (mc_open c = true → w ≠ WorkerStopped
     ∧ (loading_for (mc_worker c) = Some (mc_generation c) → loading (mk_status (published c)) = true → loading_for w = Some (mc_generation c))
     ∧ outstanding (set_worker w c) = (if p then 1 else 0)%nat) →
  market_inv (set_worker w (c <| mc_refresh_pending := p |>)).
Proof.
  intros [H1 H2 H3 H4 H5 H6 H7 H8 H10 H11 H9] Hw Hq Hl. split; try done. intros Ho. destruct (Hl Ho) as (W1 & W2 & W3).
  destruct (H9 Ho) as [L1 L2 L3 L4 L5]. split; try done. intros E. destruct (L4 E) as [L6 L7]. split; [done|]. by apply W2.
Qed.

(** The worker moves on with the command it holds. *)
Lemma inv_same_command `{WebUrls} w c :
  market_inv c → worker_ok w → held w = held (mc_worker c) → w ≠ WorkerStopped → (quiet_phase w = true → calm (published c)) →
  (mc_open c = true → loading_for (mc_worker c) = Some (mc_generation c) → loading (mk_status (published c)) = true →
     loading_for w = Some (mc_generation c)) →
  market_inv (set_worker w c).
Proof.
  intros Hi Hw Hh Hs Hq Hl.
  assert (set_worker w c = set_worker w (c <| mc_refresh_pending := mc_refresh_pending c |>)) as -> by (by destruct c).
  apply inv_worker; [done..|]. intros Ho. split; [done|]. split; [by apply Hl|].
  destruct (mv_live _ Hi Ho) as [_ _ _ _ L5]. rewrite <- L5. unfold outstanding. cbn. by rewrite Hh.
Qed.

(** The worker is done with a command. *)
Lemma inv_done `{WebUrls} command c :
  market_inv c → held (mc_worker c) = Some command → loading_for (mc_worker c) = None → calm (published c) →
  market_inv (set_worker WorkerWaiting (clear_pending command c)).
Proof.
  intros Hi Hh Hl Hcalm.
  assert (clear_pending command c = c <| mc_refresh_pending := if is_refresh command then false else mc_refresh_pending c |>) as ->
    by (unfold clear_pending; destruct (is_refresh command); [done|by destruct c]).
  apply inv_worker; [done|done|done|]. intros Ho. split; [done|]. split; [by rewrite Hl|].
  destruct (mv_live _ Hi Ho) as [_ _ _ _ L5]. revert L5. unfold outstanding. cbn. rewrite Hh. cbn.
  destruct (is_refresh command), (mc_refresh_pending c); lia.
Qed.

Lemma inv_stop `{WebUrls} c : market_inv c → mc_open c = false → market_inv (stop_worker c).
Proof. intros [H1 H2 H3 H4 H5 H6 H7 H8 H10 H11 H9] Ho. by split; try (cbn; congruence). Qed.

(** Changes of the backend's state. *)
Lemma inv_backend `{WebUrls} (catalog : Catalog) (requested : list str) (health : list HealthCall) (backoff : duration) c :
  market_inv c → catalog_ok catalog → Forall market_request_ok requested →
  MARKET_BACKOFF_INITIAL ≤ backoff ≤ MARKET_BACKOFF_MAX →
  market_inv (c <| mc_catalog := catalog |> <| mc_requested ::= λ l, l ++ requested |> <| mc_health := health |> <| mc_backoff := backoff |>).
Proof.
  intros [H1 H2 H3 H4 H5 H6 H7 H8 H10 H11 H9] Hc Hr Hb. split; try done.
  - apply Forall_app. done.
  - intros Ho. destruct (H9 Ho). by split.
Qed.

Lemma retry_policy_ok e b : MARKET_BACKOFF_INITIAL ≤ b ≤ MARKET_BACKOFF_MAX → MARKET_BACKOFF_INITIAL ≤ rp_next_backoff (retry_policy e b) ≤ MARKET_BACKOFF_MAX.
Proof.
  intros Hb. assert (MARKET_BACKOFF_INITIAL ≤ Z.min (b * 2) MARKET_BACKOFF_MAX ≤ MARKET_BACKOFF_MAX)
    by (unfold MARKET_BACKOFF_INITIAL, MARKET_BACKOFF_MAX, from_secs, nanos_per_sec in *; lia).
  unfold retry_policy. destruct e as [| | |code [r|]| | |]; try done. by destruct (_ =? _).
Qed.

Section client_proofs.
Context `{WebUrls, MarketJson}.

(** An answer is shown clean, and leaves nothing loading. *)
Lemma worker_ask_ok net now command s c :
  market_inv c → worker_ok (WorkerAsking 0 command s) →
  let '(s', c') := worker_ask net now command s c in
  market_inv c' ∧ market_snapshot_ok s' ∧ calm s'
  ∧ mc_worker c' = mc_worker c ∧ published c' = published c ∧ mc_generation c' = mc_generation c ∧ mc_open c' = mc_open c.
Proof.
  intros Hi [Hc (Hs & Hr & Hn)]. cbn [held from_option] in Hc. destruct Hs as (S1 & S2 & S3 & S4 & S5).
  pose proof (mv_catalog _ Hi) as Hcat. pose proof (mv_backoff _ Hi) as Hback.
  assert (MARKET_BACKOFF_INITIAL ≤ MARKET_BACKOFF_INITIAL ≤ MARKET_BACKOFF_MAX) as H0b by done.
  assert (∀ slug keep, (keep = true → calm s) →
    let '(r, c1) := with_backend (backend_orders slug) net c in
    let '(s', c') := orders_answer r now keep s c1 in
    market_inv c' ∧ market_snapshot_ok s' ∧ calm s'
    ∧ mc_worker c' = mc_worker c ∧ published c' = published c ∧ mc_generation c' = mc_generation c ∧ mc_open c' = mc_open c) as Horders.
  { intros slug keep Hk. unfold with_backend. pose proof (backend_orders_ok slug net (mc_catalog c) Hcat) as Hb.
    destruct (backend_orders slug net (mc_catalog c)) as [[[d|e] catalog] requested]; destruct Hb as (B1 & B2 & B3); cbn [orders_answer].
    - split; [by apply (inv_backend catalog requested _ _ c)|]. split; [exact (conj S1 (conj S2 (conj S3 (conj B3 I))))|]. done.
    - split; [by apply (inv_backend catalog requested _ _ c); [..|exact (retry_policy_ok e _ Hback)]|]. split; [|split; [|done]].
      + exact (conj S1 (conj S2 (conj S3 (conj S4 (market_bound_error_ok _))))).
      + unfold calm. cbn. destruct keep; [by apply Hk|done]. }
  destruct command as [query|slug| |]; cbn [worker_ask].
  - unfold with_backend. pose proof (backend_search_ok query net (mc_catalog c) Hcat) as Hb.
    destruct (backend_search query net (mc_catalog c)) as [[[l|e] catalog] requested]; destruct Hb as (B1 & B2 & B3); cbn [search_answer].
    + split; [by apply (inv_backend catalog requested _ _ c)|]. split; [exact (conj S1 (conj (proj1 B3) (conj (proj2 B3) (conj I S5))))|]. done.
    + split; [by apply (inv_backend catalog requested (mc_health c ++ [HealthFailed (http_failure_category e)]) (mc_backoff c) c)|].
      split; [exact (conj S1 (conj S2 (conj S3 (conj S4 (market_bound_error_ok _)))))|]. done.
  - specialize (Horders slug false ltac:(done)). destruct (with_backend _ _ _) as [r c1]. exact Horders.
  - specialize (Horders (default [] (mi_slug <$> mk_selected s)) true (λ _, proj1 (Hr eq_refl))).
    destruct (with_backend _ _ _) as [r c1]. exact Horders.
  - done.
Qed.
Lemma inv_note call c : market_inv c → market_inv (note_health call c).
Proof. intros [H1' H2 H3 H4 H5 H6 H7 H8 H10 H11 H9]. split; try done. intros Ho. destruct (H9 Ho). by split. Qed.

Lemma worker_read_ok generation command c :
  market_inv c → mc_worker c = WorkerReading generation command → market_inv (worker_read generation command c).
Proof.
  intros Hi Hw. assert (calm (published c)) as Hcalm by (apply (mv_calm _ Hi); by rewrite Hw). pose proof (mv_worker _ Hi) as Hok. rewrite Hw in Hok. destruct Hok as [Hc _]. cbn in Hc.
  destruct (mv_published _ Hi) as (S1 & S2 & S3 & S4 & S5).
  destruct command as [query|slug| |]; cbn [worker_read].
  - apply inv_same_command; [done| |by rewrite Hw|done|done|by rewrite Hw]. split; [done|]. split; [|done].
    exact (conj Hc (conj S2 (conj S3 (conj S4 I)))).
  - cbn in Hc. rewrite Hc. apply inv_same_command; [done| |by rewrite Hw|done|done|by rewrite Hw]. split; [done|]. split; [|done].
    exact (conj S1 (conj S2 (conj S3 (conj S4 I)))).
  - destruct (mk_selected (published c)) as [d|] eqn:Ed.
    2:{ apply (inv_done CommandRefreshSelected c); by rewrite ?Hw. }
    cbn in S4. destruct S4 as (D1 & D2 & D3). rewrite D2.
    apply inv_same_command; [done| |by rewrite Hw|done|done|by rewrite Hw]. split; [done|]. split; [apply Hi|]. split; [|done].
    intros _. split; [done|by rewrite Ed].
  - change (market_inv (set_worker (WorkerPublishing generation CommandClear market_default) (c <| mc_backoff := MARKET_BACKOFF_INITIAL |>))).
    apply inv_same_command; [|split; [done|split; [|done]]| |done|done|].
    + destruct Hi as [H1' H2 H3 H4 H5 H6 H7 H8 H10 H11 H9]. split; try done. intros Ho. destruct (H9 Ho). by split.
    + repeat split; cbn; try lia. constructor.
    + cbn. by rewrite Hw.
    + cbn. by rewrite Hw.
Qed.
Lemma set_worker_publish w g s c :
  publish_worker_if_current g s (set_worker w c) = set_worker w <$> publish_worker_if_current g s c.
Proof.
  unfold publish_worker_if_current, request_is_current. cbn. change (published (set_worker w c)) with (published c).
  destruct (_ || _); [done|]. unfold market_publish. cbn. by destruct (_ <? _).
Qed.

Lemma worker_step_ok net now c c' : market_inv c → worker_step net now c = Some c' → market_inv c'.
Proof.
  intros Hi Hs. pose proof (mv_worker _ Hi) as Hok. unfold worker_step in Hs. destruct (mc_worker c) as
    [|g command|g command|g command s|g command s|g command s|g s|command|] eqn:Hw; [..|done].
  - destruct (mc_commands c) as [|[g command] commands] eqn:Eq.
    { destruct (mc_open c) eqn:Eo; [done|]. apply Some_inj in Hs as <-. by apply inv_stop. }
    apply Some_inj in Hs as <-. destruct Hi as [H1' H2 H3 H4 H5 H6 H7 H8 H10 H11 H9]. rewrite Eq in H5, H6. inversion H5; subst.
    split; try done; cbn [mc_commands mc_worker]; [cbn in *; lia|intros _; apply H10; by rewrite Hw|].
    intros Ho. destruct (H9 Ho) as [L1 L2 L3 L4 L5]. split; try done.
    + intros E. destruct (L4 E) as [_ L]. by rewrite Hw in L.
    + cbn. rewrite <- L5. unfold outstanding. rewrite Eq, Hw, filter_cons. cbn.
      destruct (is_refresh command); [rewrite decide_True by done|rewrite decide_False by done]; cbn; lia.
  - destruct (mc_shutdown c) eqn:Esh.
    + apply Some_inj in Hs as <-. assert (mc_open c = false) as Ho
        by (destruct (mc_open c) eqn:Eo; [destruct (mv_live _ Hi Eo); congruence|done]).
      assert (stop_worker (clear_pending command c) = stop_worker c) as -> by (unfold clear_pending; by destruct (is_refresh command)).
      by apply inv_stop.
    + destruct (request_is_current g c); cbn [negb] in Hs; apply Some_inj in Hs as <-.
      * apply inv_same_command; try done; rewrite ?Hw; try done. intros _. apply (mv_calm _ Hi). by rewrite Hw.
      * apply inv_done; try done; rewrite ?Hw; try done. apply (mv_calm _ Hi). by rewrite Hw.
  - apply Some_inj in Hs as <-. by apply worker_read_ok.
  - destruct (publish_worker_if_current g s c) as [c1|] eqn:Ep; [|done]. cbn in Hs. apply Some_inj in Hs as <-.
    destruct Hok as [Hc (Hs & Hr & Hn)]. cbn in Hc.
    apply (publish_if_current_ok g s (set_worker (WorkerAsking g command s) c)); try done.
    + by rewrite set_worker_publish, Ep.
    + apply inv_same_command; try done; rewrite ?Hw; try done. split; [done|]. split; [done|]. split; [by rewrite Hr|done].
    + intros _. cbn. by rewrite Hr.
  - pose proof (worker_ask_ok net now command s c Hi) as Ha.
    destruct (worker_ask net now command s c) as [s1 c1]. destruct (Ha Hok) as (A1 & A2 & A3 & A4 & A5 & A6 & A7).
    apply Some_inj in Hs as <-. apply inv_same_command; try done; rewrite ?A4, ?Hw; try done.
    + destruct Hok as [Hc _]. done.
    + cbn. destruct (is_refresh command); [done|]. intros _ E _. exact E.
  - destruct (publish_worker_if_current g s c) as [c1|] eqn:Ep; [|done]. cbn in Hs. apply Some_inj in Hs as <-.
    destruct Hok as [Hc [Hs Hcalm]]. cbn in Hc.
    destruct (publish_if_current_same _ _ _ _ Ep) as (P1 & P2 & P3 & P4 & P5 & P6 & P7).
    assert (market_inv c1) as Hi1 by (apply (publish_if_current_ok g s c); try done; rewrite ?Hw; done).
    apply inv_same_command; try done; rewrite ?P1, ?Hw; try done.
    intros Ho _ El. exfalso. assert (calm (published c1)) as Hc1; [|unfold calm in Hc1; congruence].
    apply (publish_calms _ _ _ _ Ep Hcalm). intros El'. rewrite P6 in Ho. destruct (mv_live _ Hi Ho) as [L1 L2 L3 L4 L5].
    destruct (L4 El') as [L6 L7]. rewrite Hw in L7. cbn in L7. split; [done|]. split; [congruence|done].
  - destruct (publish_worker_if_current g s c) as [c1|] eqn:Ep; [|done]. cbn in Hs. apply Some_inj in Hs as <-.
    destruct Hok as [_ [Hs Hcalm]]. destruct (publish_if_current_same _ _ _ _ Ep) as (P1 & P2 & P3 & P4 & P5 & P6 & P7).
    assert (market_inv c1) as Hi1.
    { apply (publish_if_current_ok g s c); try done. intros E. unfold calm in Hcalm. congruence. }
    apply inv_same_command; try done; rewrite ?P1, ?Hw; try done. intros _. apply (mv_calm _ Hi1). by rewrite P1, Hw.
  - destruct (mc_shutdown c) eqn:Esh.
    + assert (mc_shutdown (clear_pending command c) = true) as E by (unfold clear_pending; by destruct (is_refresh command)).
      rewrite E in Hs. apply Some_inj in Hs as <-. assert (mc_open c = false) as Ho
        by (destruct (mc_open c) eqn:Eo; [destruct (mv_live _ Hi Eo); congruence|done]).
      assert (stop_worker (clear_pending command c) = stop_worker c) as -> by (unfold clear_pending; by destruct (is_refresh command)).
      by apply inv_stop.
    + assert (mc_shutdown (clear_pending command c) = false) as E by (unfold clear_pending; by destruct (is_refresh command)).
      rewrite E in Hs. apply Some_inj in Hs as <-. apply inv_done; try done; rewrite ?Hw; try done.
      destruct (mc_open c) eqn:Eo; [|by rewrite (mv_closed _ Hi Eo) in Esh].
      destruct (mv_live _ Hi Eo) as [L1 L2 L3 L4 L5]. unfold calm. destruct (loading _) eqn:El; [|done].
      destruct (L4 eq_refl) as [_ L]. by rewrite Hw in L.
Qed.
Lemma inv_toggle enabled c :
  market_inv c → mk_status (published c) = None → (enabled = false → mk_next_refresh_at_secs (published c) = 0) →
  market_inv (bump_generation (c <| mc_enabled := enabled |>)).
Proof.
  intros [H1' H2 H3 H4 H5 H6 H7 H8 H10 H11 H9] Hs Hn. split; try done. intros Ho. destruct (H9 Ho) as [L1 L2 L3 L4 L5].
  split; try done; [by intros E; split; [|apply Hn]|].
  change (published (bump_generation (c <| mc_enabled := enabled |>))) with (published c). by rewrite Hs.
Qed.

Lemma set_enabled_publish enabled s c :
  market_publish s (bump_generation (c <| mc_enabled := enabled |>)) = (λ c, bump_generation (c <| mc_enabled := enabled |>)) <$> market_publish s c.
Proof. unfold market_publish. cbn. by destruct (_ <? _). Qed.

Lemma set_enabled_ok enabled c c' :
  market_inv c → mc_open c = true → set_enabled enabled c = Some c' →
  market_inv c' ∧ (mc_enabled c ≠ enabled → mk_status (published c') = None).
Proof.
  intros Hi Ho. destruct (mv_live _ Hi Ho) as [L1 L2 L3 L4 L5]. unfold set_enabled.
  destruct (Bool.eqb (mc_enabled c) enabled) eqn:Eb; [apply eqb_prop in Eb; intros Hx; apply Some_inj in Hx as <-; done|].
  apply eqb_false_iff in Eb. rewrite set_enabled_publish.
  change (published (bump_generation (c <| mc_enabled := enabled |>))) with (published c).
  destruct (negb enabled && _) eqn:Ec.
  - intros (c1 & Hp & ->)%fmap_Some. apply andb_true_iff in Ec as [Ee _]. apply negb_true_iff in Ee as ->.
    pose proof (market_publish_inv _ _ _ Hp) as [E1 _]. split; [|by intros _; cbn; unfold published in *; cbn; rewrite E1].
    apply inv_toggle; [|by rewrite E1..]. apply (market_publish_ok _ _ _ Hp Hi); try done.
    destruct (mv_published _ Hi) as (S1 & S2 & S3 & S4 & S5). exact (conj S1 (conj S2 (conj S3 (conj S4 S5)))).
  - intros Hx. apply Some_inj in Hx as <-.
    assert (mk_status (published c) = None ∧ (enabled = false → mk_next_refresh_at_secs (published c) = 0)) as [E1 E2].
    { destruct enabled; cbn in Ec.
      - split; [apply L3; by destruct (mc_enabled c)|done].
      - apply orb_false_iff in Ec as [E1 E2]. apply negb_false_iff, Z.eqb_eq in E2. by destruct (mk_status (published c)). }
    split; [by apply inv_toggle|done].
Qed.

Lemma normalize_command_ok command command' : normalize_command command = Some command' → command_ok command'.
Proof.
  destruct command as [query|slug| |]; cbn; [| |by intros [= <-]..].
  - intros [= <-]. apply bound_chars_length. unfold STRING_MAX_CHARS. lia.
  - destruct (is_safe_market_slug slug) eqn:E; [|done]. by intros [= <-].
Qed.

Lemma market_send_ok command c c' : market_inv c → mc_open c = true → market_send command c = Some c' → market_inv c'.
Proof.
  intros Hi Ho. destruct (mv_live _ Hi Ho) as [L1 L2 L3 L4 L5]. unfold market_send.
  destruct (normalize_command command) as [command'|] eqn:Ec; [|intros Hx; by apply Some_inj in Hx as <-].
  apply normalize_command_ok in Ec. clear command. rename command' into command.
  destruct (mc_enabled c) eqn:Een; cbn [negb]; [|intros Hx; by apply Some_inj in Hx as <-].
  destruct (is_refresh command && mc_refresh_pending c) eqn:Er; [intros Hx; by apply Some_inj in Hx as <-|].
  set (c1 := if is_refresh command then c <| mc_refresh_pending := true |> else c).
  assert (mc_worker c1 = mc_worker c ∧ mc_commands c1 = mc_commands c ∧ mc_generation c1 = mc_generation c) as (E1 & E2 & E3)
    by (unfold c1; by destruct (is_refresh command)).
  assert ((if is_refresh command then c1 <| mc_refresh_pending := false |> else c1) = c) as Egive.
  { unfold c1. destruct (is_refresh command); [|done]. cbn in Er. destruct c. cbn in *. by subst. }
  rewrite E1, E2, E3. cbn zeta. rewrite Egive.
  assert (∀ c', (if (length (mc_commands c) <? COMMAND_CAPACITY)%nat
            then Some (c1 <| mc_commands ::= λ l, l ++ [(mc_generation c, command)] |>)
            else if bool_decide (mk_status (published c) = Some MARKET_BUSY) then Some c
                 else market_publish ((published c) <| mk_status := Some MARKET_BUSY |>) c) = Some c' → market_inv c') as Hsend.
  2:{ destruct (mc_worker c); try apply Hsend. done. }
  clear c'. intros c'. destruct (Nat.ltb_spec (length (mc_commands c)) COMMAND_CAPACITY) as [Hl|Hl].
  - intros Hx. apply Some_inj in Hx as <-. destruct Hi as [H1' H2 H3 H4 H5 H6 H7 H8 H10 H11 H9].
    assert (Forall (λ r : Z * MarketCommand, command_ok r.2) (mc_commands c1 ++ [(mc_generation c, command)])) as Hc
      by (rewrite E2; apply Forall_app; split; [done|]; by apply Forall_singleton).
    assert (length (mc_commands c1 ++ [(mc_generation c, command)]) ≤ COMMAND_CAPACITY)%nat as Hlen by (rewrite E2, length_app; cbn; lia).
    assert (live_inv (c1 <| mc_commands ::= λ l, l ++ [(mc_generation c, command)] |>)) as Hlive.
    { destruct (H9 Ho) as [M1 M2 M3 M4 _].
      unfold c1 in *. destruct (is_refresh command) eqn:Ei; (split; [exact M1|exact M2|exact M3|exact M4|]); cbn in Er |- *; revert L5; unfold outstanding; cbn;
        rewrite filter_app, length_app, filter_cons, filter_nil; cbn; rewrite Ei;
        [rewrite decide_True by done; rewrite Er|rewrite decide_False by done]; cbn; lia. }
    unfold c1 in *. destruct (is_refresh command); by split.
  - case_bool_decide; [intros Hx; by apply Some_inj in Hx as <-|]. intros Hp.
    apply (market_publish_ok _ _ _ Hp Hi); [|congruence|done|done].
    destruct (mv_published _ Hi) as (S1 & S2 & S3 & S4 & S5). exact (conj S1 (conj S2 (conj S3 (conj S4 S5)))).
Qed.

Lemma inv_latest l c : market_inv c → la_current l = published c → market_inv (c <| mc_latest := l |>).
Proof.
  intros [H1' H2 H3 H4 H5 H6 H7 H8 H10 H11 H9] E. assert (published (c <| mc_latest := l |>) = published c) as E' by exact E.
  split; rewrite ?E'; try done. intros Ho. destruct (H9 Ho) as [L1 L2 L3 L4 L5]. split; rewrite ?E'; done.
Qed.

Lemma market_step_ok c s c' : market_inv c → market_step c s = Some c' → market_inv c'.
Proof.
  intros Hi. unfold market_step. destruct s as [enabled|command| |net now| | |].
  1-3,6-7: destruct (mc_open c) eqn:Ho; cbn [negb]; [|done].
  - intros Hs. by eapply set_enabled_ok.
  - by apply market_send_ok.
  - intros Hx. apply Some_inj in Hx as <-. destruct Hi as [H1' H2 H3 H4 H5 H6 H7 H8 H10 H11 H9]. by split.
  - intros (l & Hl & ->)%fmap_Some. apply inv_latest; [done|]. unfold latest_try_recv in Hl. destruct (_ && _); [|done]. by injection Hl as <-.
  - intros ((r & l) & Hl & ->)%fmap_Some. apply inv_latest; [done|]. unfold latest_take in Hl. destruct (la_taking _); [|done].
    by destruct (la_pending _); injection Hl as _ <-.
  - by apply worker_step_ok.
  - intros (l & Hl & ->)%fmap_Some. apply inv_latest; [done|]. unfold notify_receiver in Hl. destruct (la_notifying _); [done|]. by injection Hl as <-.
Qed.

Lemma market_new_ok : market_inv market_client_new.
Proof.
  split; try done; [|apply Nat.le_0_l].
  split; [apply Nat.le_0_l|]. split; [apply Nat.le_0_l|]. split; [constructor|done].
Qed.

Lemma market_run_ok steps : ∀ c c', market_inv c → market_run c steps = Some c' → market_inv c'.
Proof.
  induction steps as [|s steps IH]; intros c c' Hi; cbn; [by intros [= <-]|].
  destruct (market_step c s) as [c1|] eqn:E; [|done]. cbn. apply IH. by eapply market_step_ok.
Qed.
End client_proofs.

(** ** What the client promises *)


(** The generation of the request the worker holds. *)
Definition worker_generation (w : MarketWorker) : option Z :=
  match w with
  | WorkerReceived g _ | WorkerReading g _ | WorkerLoading g _ _ | WorkerAsking g _ _ | WorkerPublishing g _ _ | WorkerRefused g _ => Some g
  | _ => None
  end.

(** Every request in flight is of a generation that satisfies [P]. *)
Definition in_flight (P : Z → Prop) (c : MarketClient) : Prop :=
  Forall (λ r, P (fst r)) (mc_commands c) ∧ from_option P True (worker_generation (mc_worker c)).

Definition is_send (s : MarketStep) : bool := match s with MarketSend _ => true | _ => false end.

Section cancelling.
Context `{WebUrls, MarketJson}.

Ltac in_flight_same := (split; [by split|split; [done|split; [done|by left]]]).

Lemma in_flight_worker P net now c c' :
  worker_step net now c = Some c' → in_flight P c →
  in_flight P c' ∧ mc_generation c' = mc_generation c ∧ mc_enabled c' = mc_enabled c
  ∧ (mc_shown c' = mc_shown c ∧ published c' = published c ∨ P (mc_generation c)).
Proof.
  intros Hs [Hc Hw]. unfold worker_step in Hs.
  assert (∀ g s w, P g → (worker_generation w = Some g ∨ worker_generation w = None) →
    (c ← publish_worker_if_current g s c; Some (c <| mc_worker := w |>)) = Some c' →
    in_flight P c' ∧ mc_generation c' = mc_generation c ∧ mc_enabled c' = mc_enabled c
    ∧ (mc_shown c' = mc_shown c ∧ published c' = published c ∨ P (mc_generation c))) as Hpublish.
  { intros g s w Hg Hgw E. destruct (publish_worker_if_current g s c) as [c1|] eqn:Ep; [|done]. cbn in E. apply Some_inj in E as <-.
    destruct (publish_if_current_same _ _ _ _ Ep) as (P1 & P2 & P3 & P4 & P5 & P6 & P7). unfold in_flight. cbn. rewrite P2, P5, P4.
    split; [split; [done|by destruct Hgw as [->| ->]]|]. split; [done|]. split; [done|].
    unfold publish_worker_if_current, request_is_current in Ep.
    destruct (mc_shutdown c); [left; by apply Some_inj in Ep as <-|]. destruct (mc_enabled c); [|left; by apply Some_inj in Ep as <-].
    destruct (Z.eqb_spec (mc_generation c) g) as [->|]; [by right|left; by apply Some_inj in Ep as <-]. }
  destruct (mc_worker c) as [|g command|g command|g command s|g command s|g command s|g s|command|] eqn:Ew; [..|done]; cbn in Hw.
  - destruct (mc_commands c) as [|[g command] commands] eqn:Eq.
    + destruct (mc_open c); [done|]. apply Some_inj in Hs as <-. unfold in_flight. cbn. rewrite Eq. in_flight_same.
    + apply Some_inj in Hs as <-. inversion Hc; subst. unfold in_flight. cbn. in_flight_same.
  - destruct (mc_shutdown c); [|destruct (request_is_current g c); cbn [negb] in Hs]; apply Some_inj in Hs as <-; unfold in_flight, clear_pending;
      destruct (is_refresh command); cbn; in_flight_same.
  - apply Some_inj in Hs as <-. unfold worker_read.
    destruct command; [|destruct (is_safe_market_slug _)|destruct (mk_selected _); [destruct (is_safe_market_slug _)|]|];
      unfold in_flight; cbn; in_flight_same.
  - by apply (Hpublish g s (WorkerAsking g command s) Hw (or_introl eq_refl) Hs).
  - destruct (worker_ask net now command s c) as [s1 c1] eqn:Ea. apply Some_inj in Hs as <-.
    assert (mc_commands c1 = mc_commands c ∧ mc_generation c1 = mc_generation c ∧ mc_enabled c1 = mc_enabled c
            ∧ mc_shown c1 = mc_shown c ∧ published c1 = published c) as (E1 & E2 & E3 & E4 & E5).
    { unfold worker_ask, with_backend in Ea. destruct command as [query|slug| |].
      1: destruct (backend_search query net (mc_catalog c)) as [[[?|?] ?] ?].
      3: destruct (backend_orders slug net (mc_catalog c)) as [[[?|?] ?] ?].
      5: destruct (backend_orders _ net (mc_catalog c)) as [[[?|?] ?] ?].
      all: by injection Ea as _ <-. }
    unfold in_flight. cbn. rewrite E1, E2, E3, E4. split; [done|]. split; [done|]. split; [done|]. left. by split.
  - by apply (Hpublish g s (WorkerFinishing command) Hw (or_intror eq_refl) Hs).
  - by apply (Hpublish g s WorkerWaiting Hw (or_intror eq_refl) Hs).
  - apply Some_inj in Hs as <-. unfold in_flight, clear_pending. destruct (is_refresh command); cbn; destruct (mc_shutdown c); cbn; in_flight_same.
Qed.

(** What a step of the interface does to the generation. *)
Lemma step_generation c s c' :
  market_step c s = Some c' → in_flight (λ g, g ≤ mc_generation c) c → 0 ≤ mc_generation c < u64_max →
  in_flight (λ g, g ≤ mc_generation c') c' ∧ mc_generation c ≤ mc_generation c' ≤ mc_generation c + 1.
Proof.
  intros Hs Hf Hg.
  assert (∀ c1, mc_generation c1 = mc_generation c → mc_commands c1 = mc_commands c → mc_worker c1 = mc_worker c →
    in_flight (λ g, g ≤ mc_generation c1) c1 ∧ mc_generation c ≤ mc_generation c1 ≤ mc_generation c + 1) as Hsame.
  { intros c1 E1 E2 E3. unfold in_flight. rewrite E1, E2, E3. split; [done|lia]. }
  assert (∀ c1, mc_generation c1 = (mc_generation c + 1) mod (u64_max + 1) → mc_commands c1 = mc_commands c → mc_worker c1 = mc_worker c →
    in_flight (λ g, g ≤ mc_generation c1) c1 ∧ mc_generation c ≤ mc_generation c1 ≤ mc_generation c + 1) as Hbump.
  { intros c1 E1 E2 E3. rewrite Z.mod_small in E1 by lia. destruct Hf as [F1 F2]. unfold in_flight. rewrite E1, E2, E3. split; [|lia].
    split; [eapply Forall_impl; [exact F1|]; cbn; lia|]. destruct (worker_generation _); [cbn in *; lia|done]. }
  unfold market_step in Hs. destruct s as [enabled|command| |net now| | |].
  1-3,6-7: destruct (mc_open c) eqn:Ho; cbn [negb] in Hs; [|done].
  - unfold set_enabled in Hs. destruct (Bool.eqb _ _); [apply Some_inj in Hs as <-; by apply Hsame|].
    destruct (negb enabled && _); [|apply Some_inj in Hs as <-; by apply Hbump].
    apply market_publish_inv in Hs as (_ & _ & E3 & _ & _ & E6 & _ & _ & E9 & _). by apply Hbump.
  - unfold market_send in Hs. destruct (normalize_command command) as [cmd|]; [|apply Some_inj in Hs as <-; by apply Hsame].
    destruct (negb _); [apply Some_inj in Hs as <-; by apply Hsame|]. destruct (is_refresh cmd && _); [apply Some_inj in Hs as <-; by apply Hsame|].
    cbn zeta in Hs. set (c1 := if is_refresh cmd then c <| mc_refresh_pending := true |> else c) in *.
    assert (mc_generation c1 = mc_generation c ∧ mc_commands c1 = mc_commands c ∧ mc_worker c1 = mc_worker c) as (E1 & E2 & E3)
      by (unfold c1; by destruct (is_refresh cmd)).
    set (c2 := if is_refresh cmd then c1 <| mc_refresh_pending := false |> else c1) in *.
    assert (mc_generation c2 = mc_generation c ∧ mc_commands c2 = mc_commands c ∧ mc_worker c2 = mc_worker c) as (E4 & E5 & E6)
      by (unfold c2; by destruct (is_refresh cmd)).
    clearbody c1 c2.
    assert (∀ b s, (if b : bool then Some c2 else market_publish s c2) = Some c' →
      in_flight (λ g, g ≤ mc_generation c') c' ∧ mc_generation c ≤ mc_generation c' ≤ mc_generation c + 1) as Hbusy.
    { intros [] s E; [apply Some_inj in E as <-; by apply Hsame|].
      apply market_publish_inv in E as (_ & _ & F3 & _ & _ & F6 & _ & _ & F9 & _). apply Hsame; congruence. }
    assert ((if (length (mc_commands c1) <? COMMAND_CAPACITY)%nat then Some (c1 <| mc_commands ::= λ l, l ++ [(mc_generation c1, cmd)] |>)
             else if bool_decide (mk_status (published c2) = Some MARKET_BUSY) then Some c2
                  else market_publish ((published c2) <| mk_status := Some MARKET_BUSY |>) c2) = Some c' →
            in_flight (λ g, g ≤ mc_generation c') c' ∧ mc_generation c ≤ mc_generation c' ≤ mc_generation c + 1) as Henqueue.
    { destruct (_ <? _)%nat; [|apply Hbusy]. intros E. apply Some_inj in E as <-. unfold in_flight. cbn. rewrite E1, E2, E3.
      destruct Hf as [F1 F2]. split; [split; [|done]|lia]. apply Forall_app. split; [done|]. apply Forall_singleton. cbn. lia. }
    rewrite E3 in Hs. destruct (mc_worker c); first [by apply Henqueue|by eapply Hbusy].
  - apply Some_inj in Hs as <-. by apply Hbump.
  - apply fmap_Some in Hs as (l & _ & ->). by apply Hsame.
  - apply fmap_Some in Hs as (l & _ & ->). by apply Hsame.
  - destruct (in_flight_worker (λ g, g ≤ mc_generation c) net now c c' Hs Hf) as (F & E & _). rewrite E. split; [done|lia].
  - apply fmap_Some in Hs as (l & _ & ->). by apply Hsame.
Qed.
Lemma run_generation steps : ∀ c c',
  market_run c steps = Some c' → in_flight (λ g, g ≤ mc_generation c) c → 0 ≤ mc_generation c →
  mc_generation c + Z.of_nat (length steps) ≤ u64_max →
  in_flight (λ g, g ≤ mc_generation c') c' ∧ 0 ≤ mc_generation c' ≤ mc_generation c + Z.of_nat (length steps).
Proof.
  induction steps as [|s steps IH]; intros c c' Hrun Hf H0' Hl; cbn in Hrun; [injection Hrun as <-; split; [done|cbn; lia]|].
  destruct (market_step c s) as [c1|] eqn:Es; [|done]. cbn in Hrun. cbn [length] in *.
  destruct (step_generation c s c1 Es Hf ltac:(lia)) as [F1 F2].
  destruct (IH c1 c' Hrun F1 ltac:(lia) ltac:(lia)) as [F3 F4]. split; [done|lia].
Qed.

(** Nothing in flight is of this generation, and nothing is in progress. *)
Definition cancelled (c : MarketClient) : Prop :=
  in_flight (λ g, g < mc_generation c) c ∧ mk_status (published c) = None ∧ mk_next_refresh_at_secs (published c) = 0.

Lemma cancelled_step c s c' :
  market_step c s = Some c' → is_send s = false → cancelled c → 0 ≤ mc_generation c < u64_max →
  cancelled c' ∧ mc_shown c' = mc_shown c ∧ mc_generation c ≤ mc_generation c' ≤ mc_generation c + 1.
Proof.
  intros Hs Hn (Hf & Hst & Hne) Hg.
  assert (∀ c1, mc_commands c1 = mc_commands c → mc_worker c1 = mc_worker c → published c1 = published c →
    mc_generation c ≤ mc_generation c1 → cancelled c1) as Hsame.
  { intros c1 E1 E2 E3 E4. unfold cancelled, in_flight. rewrite E1, E2, E3. split; [|done]. destruct Hf as [F1 F2].
    split; [eapply Forall_impl; [exact F1|]; cbn; lia|]. destruct (worker_generation _); [cbn in *; lia|done]. }
  unfold market_step in Hs. destruct s as [enabled|command| |net now| | |]; try done.
  1-2,5-6: destruct (mc_open c) eqn:Ho; cbn [negb] in Hs; [|done].
  - unfold set_enabled in Hs. destruct (Bool.eqb _ _); [apply Some_inj in Hs as <-; split; [by apply Hsame|split; [done|lia]]|].
    change (published (bump_generation (c <| mc_enabled := enabled |>))) with (published c) in Hs.
    rewrite Hst, Hne in Hs. cbn [isSome Z.eqb negb orb] in Hs. rewrite andb_false_r in Hs. apply Some_inj in Hs as <-.
    assert (mc_generation (bump_generation (c <| mc_enabled := enabled |>)) = mc_generation c + 1) as E by (cbn; rewrite Z.mod_small; lia).
    rewrite E. split; [apply Hsame; [done..|rewrite E; lia]|]. split; [done|lia].
  - apply Some_inj in Hs as <-. assert (mc_generation (market_drop c) = mc_generation c + 1) as E by (cbn; rewrite Z.mod_small; lia).
    rewrite E. split; [apply Hsame; [done..|rewrite E; lia]|]. split; [done|lia].
  - apply fmap_Some in Hs as (l & Hl & ->). split; [|split; [done|cbn; lia]]. apply Hsame; try done. cbn. unfold latest_try_recv in Hl.
    destruct (_ && _); [|done]. by injection Hl as <-.
  - apply fmap_Some in Hs as ((r & l) & Hl & ->). split; [|split; [done|cbn; lia]]. apply Hsame; try done. cbn. unfold latest_take in Hl.
    destruct (la_taking _); [|done]. by destruct (la_pending _); injection Hl as _ <-.
  - destruct (in_flight_worker (λ g, g < mc_generation c) net now c c' Hs Hf) as (F & E & _ & [[E1 E2]|]); [|lia].
    unfold cancelled. rewrite E, E1, E2. split; [done|]. split; [done|lia].
  - apply fmap_Some in Hs as (l & Hl & ->). split; [|split; [done|cbn; lia]]. apply Hsame; try done. cbn. unfold notify_receiver in Hl.
    destruct (la_notifying _); [done|]. by injection Hl as <-.
Qed.

Lemma cancelled_run steps : ∀ c c',
  market_run c steps = Some c' → existsb is_send steps = false → cancelled c → 0 ≤ mc_generation c →
  mc_generation c + Z.of_nat (length steps) ≤ u64_max → mc_shown c' = mc_shown c.
Proof.
  induction steps as [|s steps IH]; intros c c' Hrun Hn Hc H0' Hl; cbn in Hrun; [by injection Hrun as <-|].
  destruct (market_step c s) as [c1|] eqn:Es; [|done]. cbn in Hrun. cbn [length existsb] in *. apply orb_false_iff in Hn as [Hn1 Hn2].
  destruct (cancelled_step c s c1 Es Hn1 Hc ltac:(lia)) as (C1 & C2 & C3). rewrite <- C2. apply IH; [done..|lia|lia].
Qed.

(** Turning the market off, or on, cancels what is in flight: whatever was
    sent before, however far the worker was, and whether the market is turned
    off and on again since, none of it is shown any more; what is shown next
    is of a command sent later. *)
Theorem market_toggle_cancels before enabled after c1 c2 c3
    (Hbefore : market_run market_client_new before = Some c1)
    (Hchanges : mc_enabled c1 ≠ enabled) (Htoggle : market_step c1 (MarketEnable enabled) = Some c2)
    (Hafter : market_run c2 after = Some c3) (Hsilent : existsb is_send after = false)
    (Hlength : Z.of_nat (length before + S (length after)) ≤ u64_max) :
  mc_shown c3 = mc_shown c2.
Proof.
  assert (in_flight (λ g, g ≤ mc_generation market_client_new) market_client_new) as Hnew by (by split; [constructor|]).
  destruct (run_generation before _ _ Hbefore Hnew ltac:(done) ltac:(cbn [market_client_new mc_generation]; lia)) as [F1 F2].
  cbn [market_client_new mc_generation] in F2.
  pose proof (market_run_ok before _ _ market_new_ok Hbefore) as Hi1.
  unfold market_step in Htoggle. destruct (mc_open c1) eqn:Ho; [|done]. cbn [negb] in Htoggle.
  destruct (set_enabled_ok enabled c1 c2 Hi1 Ho Htoggle) as [Hi2 Hstatus]. specialize (Hstatus Hchanges).
  assert (mc_commands c2 = mc_commands c1 ∧ mc_worker c2 = mc_worker c1 ∧ mc_generation c2 = mc_generation c1 + 1
          ∧ mk_next_refresh_at_secs (published c2) = 0) as (E1 & E2 & E3 & E4).
  { unfold set_enabled in Htoggle. apply eqb_false_iff in Hchanges. rewrite Hchanges in Htoggle.
    assert ((mc_generation c1 + 1) mod (u64_max + 1) = mc_generation c1 + 1) as Em by (apply Z.mod_small; lia).
    destruct (negb enabled && _) eqn:Ec.
    - apply market_publish_inv in Htoggle as (T1 & _ & T3 & _ & _ & T6 & _ & _ & T9 & _). rewrite T1, T3, T6, T9. cbn. by rewrite Em.
    - apply Some_inj in Htoggle as <-. split; [done|]. split; [done|]. split; [exact Em|]. destruct enabled; cbn [negb andb] in Ec.
      + apply (lv_disabled _ (mv_live _ Hi1 Ho)). by destruct (mc_enabled c1).
      + apply orb_false_iff in Ec as [_ Ec]. apply negb_false_iff, Z.eqb_eq in Ec. exact Ec. }
  apply (cancelled_run after); [done..| |lia|lia]. split; [|done]. unfold in_flight. rewrite E1, E2, E3. destruct F1 as [F3 F4].
  split; [eapply Forall_impl; [exact F3|]; cbn; lia|]. destruct (worker_generation _); [cbn in *; lia|done].
Qed.

(** ** The worker gets through its commands *)

Definition worker_rank (w : MarketWorker) : nat :=
  match w with
  | WorkerReceived _ _ => 6 | WorkerReading _ _ => 5 | WorkerLoading _ _ _ => 4 | WorkerAsking _ _ _ => 3
  | WorkerPublishing _ _ _ => 2 | WorkerFinishing _ | WorkerRefused _ _ => 1 | _ => 0
  end.

(** The steps left until the worker waits with nothing to do. *)
Definition work_left (c : MarketClient) : nat := 7 * length (mc_commands c) + worker_rank (mc_worker c).

Lemma publish_runs g s c :
  la_revision (mc_latest c) < u64_max →
  ∃ c', publish_worker_if_current g s c = Some c' ∧ la_revision (mc_latest c') ≤ la_revision (mc_latest c) + 1.
Proof.
  intros Hr. unfold publish_worker_if_current. destruct (_ || _); [exists c; split; [done|lia]|]. unfold market_publish.
  destruct (Z.ltb_spec (la_revision (mc_latest c)) u64_max); [|lia]. eexists. split; [done|]. cbn. unfold latest_store, checked_add.
  destruct (Z.leb_spec (la_revision (mc_latest c) + 1) u64_max); cbn; lia.
Qed.

Lemma worker_step_runs net now c :
  live_inv c → mc_open c = true → work_left c ≠ 0%nat → la_revision (mc_latest c) < u64_max →
  ∃ c', worker_step net now c = Some c' ∧ mc_open c' = true ∧ (work_left c' < work_left c)%nat
    ∧ la_revision (mc_latest c') ≤ la_revision (mc_latest c) + 1.
Proof.
  intros [L1 L2 _ _ _] Ho Hw Hr. unfold worker_step, work_left in *.
  assert (∀ g s w, (worker_rank w < worker_rank (mc_worker c))%nat →
    ∃ c', (c ← publish_worker_if_current g s c; Some (c <| mc_worker := w |>)) = Some c' ∧ mc_open c' = true
      ∧ (7 * length (mc_commands c') + worker_rank (mc_worker c') < 7 * length (mc_commands c) + worker_rank (mc_worker c))%nat
      ∧ la_revision (mc_latest c') ≤ la_revision (mc_latest c) + 1) as Hpublish.
  { intros g s w Hrank. destruct (publish_runs g s c Hr) as (c1 & Ep & Hr1). rewrite Ep. eexists. split; [done|].
    destruct (publish_if_current_same _ _ _ _ Ep) as (P1 & P2 & P3 & P4 & P5 & P6 & P7). cbn. rewrite P2, P6. split; [done|]. split; [lia|done]. }
  destruct (mc_worker c) as [|g command|g command|g command s|g command s|g command s|g s|command|] eqn:Ew; [..|done];
    try (apply Hpublish; cbn; lia).
  - destruct (mc_commands c) as [|[g command] commands] eqn:Eq; [done|]. eexists. split; [done|]. cbn. split; [done|]. split; lia.
  - rewrite L1. destruct (negb _); eexists; (split; [done|]); unfold clear_pending; try destruct (is_refresh command); cbn; (split; [done|]); lia.
  - eexists. split; [done|]. unfold worker_read.
    destruct command; [|destruct (is_safe_market_slug _)|destruct (mk_selected _); [destruct (is_safe_market_slug _)|]|];
      cbn; (split; [done|]); lia.
  - destruct (worker_ask net now command s c) as [s1 c1] eqn:Ea. eexists. split; [done|].
    assert (mc_commands c1 = mc_commands c ∧ mc_open c1 = mc_open c ∧ mc_latest c1 = mc_latest c) as (E1 & E2 & E3).
    { unfold worker_ask, with_backend in Ea. destruct command as [query|slug| |].
      1: destruct (backend_search query net (mc_catalog c)) as [[[?|?] ?] ?].
      3: destruct (backend_orders slug net (mc_catalog c)) as [[[?|?] ?] ?].
      5: destruct (backend_orders _ net (mc_catalog c)) as [[[?|?] ?] ?].
      all: by injection Ea as _ <-. }
    cbn. rewrite E1, E2, E3. split; [done|]. lia.
  - assert (mc_shutdown (clear_pending command c) = false) as -> by (unfold clear_pending; by destruct (is_refresh command)).
    eexists. split; [done|]. unfold clear_pending. destruct (is_refresh command); cbn; (split; [done|]); lia.
Qed.

(** Left alone, the worker of a living client gets through every command it
    was sent, whatever the network answers and the clock says: within seven
    steps for each it waits again, with nothing queued, nothing loading on the
    screen and no refresh outstanding. *)
Theorem market_worker_drains steps c (net : nat → str → HttpAnswer) (now : nat → Z)
    (Hrun : market_run market_client_new steps = Some c) (Hopen : mc_open c = true)
    (Hrevisions : la_revision (mc_latest c) + Z.of_nat (work_left c) ≤ u64_max) :
  ∃ n c', (n ≤ 7 * length (mc_commands c) + 6)%nat
    ∧ market_run c ((λ k, MarketWork (net k) (now k)) <$> seq 0 n) = Some c'
    ∧ mc_worker c' = WorkerWaiting ∧ mc_commands c' = [] ∧ calm (published c') ∧ mc_refresh_pending c' = false.
Proof.
  pose proof (market_run_ok steps _ _ market_new_ok Hrun) as Hi.
  enough (∀ m k c, work_left c = m → market_inv c → mc_open c = true → la_revision (mc_latest c) + Z.of_nat m ≤ u64_max →
    ∃ n c', (n ≤ m)%nat ∧ market_run c ((λ k, MarketWork (net k) (now k)) <$> seq k n) = Some c'
      ∧ mc_worker c' = WorkerWaiting ∧ mc_commands c' = [] ∧ calm (published c') ∧ mc_refresh_pending c' = false) as Hall.
  { destruct (Hall (work_left c) 0%nat c eq_refl Hi Hopen Hrevisions) as (n & c' & Hn & Hrest). exists n, c'. split; [|done].
    unfold work_left in Hn. assert (worker_rank (mc_worker c) ≤ 6)%nat by (by destruct (mc_worker c); cbn; lia). lia. }
  clear. intros m. induction m as [m IH] using lt_wf_ind. intros k c Hm Hi Ho Hr.
  pose proof (mv_live _ Hi Ho) as Hlive. destruct (decide (work_left c = 0%nat)) as [E0|E0].
  - exists 0%nat, c. split; [lia|]. split; [done|]. unfold work_left in E0.
    assert (mc_worker c = WorkerWaiting) as Ew by (destruct Hlive; by destruct (mc_worker c); cbn in E0; try lia).
    assert (mc_commands c = []) as Ec by (destruct (mc_commands c); [done|cbn in E0; lia]).
    split; [done|]. split; [done|]. split; [apply (mv_calm _ Hi); by rewrite Ew|].
    destruct Hlive as [_ _ _ _ L5]. unfold outstanding in L5. rewrite Ew, Ec in L5. by destruct (mc_refresh_pending c).
  - destruct (worker_step_runs (net k) (now k) c Hlive Ho E0 ltac:(lia)) as (c1 & Es & Ho1 & Hw1 & Hr1).
    destruct (IH (work_left c1) ltac:(lia) (S k) c1 eq_refl) as (n & c' & Hn & Hrun' & Hrest); [by eapply worker_step_ok|done|lia|].
    exists (S n), c'. split; [lia|]. split; [|done]. cbn. rewrite Es. exact Hrun'.
Qed.
End cancelling.

(** ** The orders shown are the best ones *)

(** The orders of a kind, in the order the market sends them. *)
Definition order_counted (o : OrderEntry) : bool := order_valid o && isSome (order_trader o).
Definition listed_order (side : TradeSide) (kind : str) (o : OrderEntry) : option MarketOrder :=
  if order_valid o && str_eqb (oe_order_type o) kind
  then (λ trader, mkMarketOrder side (oe_platinum o) trader (order_presence o)) <$> order_trader o
  else None.
Definition listed (side : TradeSide) (kind : str) (data : list OrderEntry) : list MarketOrder := omap (listed_order side kind) data.

(** [best] is the extreme price of the orders. *)
Definition extreme (better : Z → Z → Prop) (best : option Z) (orders : list MarketOrder) : Prop :=
  match best with
  | None => orders = []
  | Some price => price ∈ mo_platinum <$> orders ∧ Forall (λ o, better price (mo_platinum o)) orders
  end.

(** The first [n] of the orders as a key sorts them. *)
Definition best_by {K} `{BOrd K} (key : MarketOrder → K) (n : nat) (top orders : list MarketOrder) : Prop :=
  ∃ rest, top ++ rest ≡ₚ orders ∧ StronglySorted (λ x y, blt (key y) (key x) = false) (top ++ rest) ∧ length top = Nat.min n (length orders).

Lemma take_sort_best {K} `{BOrd K} (key : MarketOrder → K) n l : best_by key n (take n (sort_by_key key l)) l.
Proof.
  exists (drop n (sort_by_key key l)). rewrite take_drop, length_take. rewrite (Permutation_length (sort_by_key_perm key l)).
  split; [apply sort_by_key_perm|]. split; [apply sort_by_key_sorted|done].
Qed.

Lemma extreme_snoc (better : Z → Z → Prop) best orders o (pick : Z → Z → Z) :
  (∀ a, better a a) → (∀ a b c, better a b → better b c → better a c) →
  (∀ a b, (pick a b = a ∨ pick a b = b) ∧ better (pick a b) a ∧ better (pick a b) b) →
  extreme better best orders →
  extreme better (Some (match best with Some current => pick current (mo_platinum o) | None => mo_platinum o end)) (orders ++ [o]).
Proof.
  intros Hrefl Htrans Hpick He. unfold extreme in *. rewrite fmap_app. destruct best as [current|].
  - destruct He as [Hin Hall]. destruct (Hpick current (mo_platinum o)) as (Heq & Ha & Hb). split.
    + apply elem_of_app. destruct Heq as [-> | ->]; [by left|right; by left].
    + apply Forall_app. split; [eapply Forall_impl; [exact Hall|]; cbn; eauto|]. by apply Forall_singleton.
  - subst orders. split; [by left|]. by apply Forall_singleton.
Qed.

Lemma add_order_listed b o sells buys count :
  extreme Z.le (ob_lowest_sell b) sells → extreme Z.ge (ob_highest_buy b) buys → ob_sells b = sells → ob_buys b = buys →
  ob_order_count b = Z.min u32_max count → 0 ≤ count →
  let b' := add_order b o in
  let sells' := sells ++ option_list (listed_order TradeSell (lit "sell") o) in
  let buys' := buys ++ option_list (listed_order TradeBuy (lit "buy") o) in
  extreme Z.le (ob_lowest_sell b') sells' ∧ extreme Z.ge (ob_highest_buy b') buys' ∧ ob_sells b' = sells' ∧ ob_buys b' = buys'
  ∧ ob_order_count b' = Z.min u32_max (count + if order_counted o then 1 else 0).
Proof.
  intros Hs Hb Es Eb Ec Hc. unfold add_order, listed_order, order_counted.
  destruct (order_valid o); cbn [negb andb]; [|cbn; rewrite !app_nil_r; repeat split; try done; by rewrite Z.add_0_r].
  destruct (order_trader o) as [trader|]; cbn [isSome]; [|destruct (str_eqb _ _), (str_eqb _ _); cbn; rewrite !app_nil_r; repeat split; try done; by rewrite Z.add_0_r].
  assert (saturating_add u32_max (ob_order_count b) 1 = Z.min u32_max (count + 1)) as Ecount by (rewrite Ec; unfold saturating_add; lia).
  destruct (str_eqb (oe_order_type o) (lit "sell")) eqn:E1; [|destruct (str_eqb (oe_order_type o) (lit "buy")) eqn:E2].
  - assert (str_eqb (oe_order_type o) (lit "buy") = false) as ->.
    { apply bool_decide_eq_true in E1. rewrite E1. by vm_compute. }
    cbn. rewrite app_nil_r, Es. split; [|by repeat split].
    apply (extreme_snoc Z.le _ _ (mkMarketOrder _ _ _ _) Z.min); [intros; lia|intros; lia|intros; lia|done].
  - cbn. rewrite app_nil_r, Eb. split; [done|]. split; [|by repeat split].
    apply (extreme_snoc Z.ge _ _ (mkMarketOrder _ _ _ _) Z.max); [intros; lia|intros; lia|intros; lia|done].
  - cbn. rewrite !app_nil_r. by repeat split.
Qed.

(** The market view of an item is the reference one: of the visible orders
    with a price in range and a trader's name, it shows the six best of each
    side - those who can trade now first, then the price - the lowest price
    asked and the highest offered among all of them, and their number. *)
Theorem order_detail_reference name slug data :
  let sells := listed TradeSell (lit "sell") data in
  let buys := listed TradeBuy (lit "buy") data in
  let d := order_detail name slug data in
  best_by sell_key MARKET_ORDERS_SHOWN (mi_top_sells d) sells ∧ best_by buy_key MARKET_ORDERS_SHOWN (mi_top_buys d) buys
  ∧ extreme Z.le (mi_lowest_sell d) sells ∧ extreme Z.ge (mi_highest_buy d) buys
  ∧ mi_order_count d = Z.min u32_max (Z.of_nat (length (filter (λ o, order_counted o = true) data))).
Proof.
  cbn zeta. unfold order_detail. set (b := foldl add_order _ data).
  assert (extreme Z.le (ob_lowest_sell b) (listed TradeSell (lit "sell") data) ∧ extreme Z.ge (ob_highest_buy b) (listed TradeBuy (lit "buy") data)
          ∧ ob_sells b = listed TradeSell (lit "sell") data ∧ ob_buys b = listed TradeBuy (lit "buy") data
          ∧ ob_order_count b = Z.min u32_max (Z.of_nat (length (filter (λ o, order_counted o = true) data)))) as (H1 & H2 & H3 & H4 & H5).
  { unfold b. induction data as [|o data IH] using rev_ind; [done|]. rewrite foldl_app. destruct IH as (H1 & H2 & H3 & H4 & H5).
    pose proof (add_order_listed _ o _ _ _ H1 H2 H3 H4 H5 ltac:(lia)) as (G1 & G2 & G3 & G4 & G5).
    unfold listed in *. rewrite !omap_app, filter_app, length_app. cbn [omap list_omap foldl].
    assert (∀ side kind, match listed_order side kind o with Some y => [y] | None => [] end = option_list (listed_order side kind o)) as E
      by (intros side kind; by destruct (listed_order side kind o)).
    rewrite !E. split; [exact G1|]. split; [exact G2|]. split; [exact G3|]. split; [exact G4|].
    cbn [foldl] in G5 |- *. rewrite G5. f_equal.
    destruct (order_counted o) eqn:Eo; [rewrite filter_cons_True by done|rewrite filter_cons_False by congruence]; cbn; lia. }
  cbn [mi_top_sells mi_top_buys mi_lowest_sell mi_highest_buy mi_order_count]. rewrite H3, H4.
  split; [apply take_sort_best|]. split; [apply take_sort_best|]. done.
Qed.

(** ** Lines for the chat *)

Definition plain (s : str) : Prop := Forall (λ c, is_control c = false) s.

Lemma plain_app s t : plain (s ++ t) ↔ plain s ∧ plain t.
Proof. apply Forall_app. Qed.

Lemma filter_plain s : plain s → filter (λ c, c ≠ 0) s = s.
Proof.
  induction 1 as [|c s Hc _ IH]; [done|]. rewrite filter_cons_True; [by rewrite IH|]. intros ->. done.
Qed.

Lemma clipboard_accepts c s :
  plain (c :: s ++ lit "p") → is_whitespace c = false → (length s ≤ 510)%nat →
  sanitize_clipboard_text (c :: s ++ lit "p") = Ok (c :: s ++ lit "p").
Proof.
  intros Hp Hw Hl. unfold sanitize_clipboard_text. rewrite filter_plain by done. set (line := c :: s ++ lit "p") in *.
  assert ((λ c, if (c =? 10) || (c =? 13) then 32 else c) <$> line = line) as ->.
  { rewrite <- (list_fmap_id line) at 2. apply Forall_fmap_ext. eapply Forall_impl; [exact Hp|]. intros d Hd. cbn.
    destruct (Z.eqb_spec d 10) as [->|]; [done|]. by destruct (Z.eqb_spec d 13) as [->|]. }
  assert (trim line = line) as ->.
  { apply trim_id; [by intros ? ? [= <- _]|]. unfold line. rewrite app_comm_cons, reverse_app. by intros ? ? [= <- _]. }
  cbn zeta. rewrite bool_decide_eq_false_2 by done.
  assert (length line ≤ 512)%nat by (unfold line; cbn [length]; rewrite length_app; change (length (lit "p")) with 1%nat; lia).
  destruct (Nat.ltb_spec 512 (length line)); [lia|done].
Qed.

Lemma show_price_plain price : 0 ≤ price → plain (show_Z price).
Proof.
  intros Hp. eapply Forall_impl; [by apply show_Z_digits|]. intros c. unfold is_ascii_digit, is_control.
  rewrite andb_true_iff, !Z.leb_le. intros [? ?]. destruct (Z.leb_spec c 31); [lia|]. destruct (Z.leb_spec 127 c); [lia|done].
Qed.

Lemma item_name_plain name : plain (sanitize_item_name name).
Proof.
  apply Forall_forall. intros c [Hc| ->]%bound_chars_elem; [|done]. apply trim_sub in Hc. by apply list_elem_of_filter in Hc as [? _].
Qed.

Lemma trade_prefix_line side : trade_prefix side = lit "WTS" ∨ trade_prefix side = lit "WTB".
Proof. destruct side; auto. Qed.

(** What is copied for the game's chat is one plain line, whatever the market
    says of traders and items: no control characters, so neither a second
    line nor a second command; after the whisper command comes a name of at
    most 32 characters with neither slash nor backslash; and the clipboard
    takes the line as it is. *)
Theorem chat_lines_plain side trader item price (Hprice : 0 ≤ price ≤ u32_max) :
  let whisper := format_whisper_line side trader item price in
  let trade := format_trade_line side item price in
  plain whisper ∧ plain trade
  ∧ sanitize_clipboard_text whisper = Ok whisper ∧ sanitize_clipboard_text trade = Ok trade
  ∧ ∃ name rest, whisper = lit "/w " ++ name ++ lit " Hi, " ++ rest ∧ clean_trader name.
Proof.
  cbn zeta. unfold format_whisper_line, format_trade_line.
  set (name := if bool_decide (sanitize_player_name trader = []) then lit "Tenno" else sanitize_player_name trader).
  assert (clean_trader name) as Hname.
  { unfold name. case_bool_decide; [|by apply sanitize_player_name_clean].
    split; [done|]. split; [apply Nat.leb_le; by vm_compute|]. unfold lit. cbn. repeat constructor; done. }
  clearbody name. destruct Hname as (Hne & Hlen & Hchars).
  assert (plain name) as Hn by (eapply Forall_impl; [exact Hchars|]; cbn; tauto).
  assert (0 ≤ price < 10 ^ Z.of_nat 10) as Hb by (change (10 ^ Z.of_nat 10) with 10000000000; unfold u32_max in Hprice; lia).
  pose proof (show_price_plain price (proj1 Hb)) as Hp. pose proof (show_Z_length 10 price ltac:(lia) Hb) as Hpl.
  pose proof (item_name_plain item) as Hi. pose proof (sanitize_item_name_ok item) as Hil. unfold item_name_ok, STRING_MAX_CHARS in Hil.
  assert (plain (trade_prefix side) ∧ length (trade_prefix side) = 3%nat) as [Hs Hsl] by (destruct side; split; [by repeat constructor|done|by repeat constructor|done]).
  assert (∀ w : string, bool_decide (plain (lit w)) = true → plain (lit w)) as Hlit by (intros w; apply bool_decide_eq_true).
  assert (plain (lit "/w " ++ name ++ lit " Hi, " ++ trade_prefix side ++ lit " " ++ sanitize_item_name item ++ lit " for " ++ show_Z price ++ lit "p")) as Hw
    by (rewrite !plain_app; repeat split; try done; apply Hlit; by vm_compute).
  assert (plain (trade_prefix side ++ lit " " ++ sanitize_item_name item ++ lit " " ++ show_Z price ++ lit "p")) as Ht
    by (rewrite !plain_app; repeat split; try done; apply Hlit; by vm_compute).
  split; [done|]. split; [done|]. split; [|split].
  - set (middle := lit "w " ++ name ++ lit " Hi, " ++ trade_prefix side ++ lit " " ++ sanitize_item_name item ++ lit " for " ++ show_Z price).
    assert (lit "/w " ++ name ++ lit " Hi, " ++ trade_prefix side ++ lit " " ++ sanitize_item_name item ++ lit " for " ++ show_Z price ++ lit "p"
            = 47 :: middle ++ lit "p") as E by (unfold middle; rewrite <- !app_assoc; done).
    rewrite E in *. apply clipboard_accepts; [done|done|]. unfold middle. rewrite !length_app, Hsl.
    change (length (lit "w ")) with 2%nat. change (length (lit " Hi, ")) with 5%nat. change (length (lit " ")) with 1%nat.
    change (length (lit " for ")) with 5%nat. lia.
  - destruct side; cbn [trade_prefix] in *.
    + set (middle := lit "TS" ++ lit " " ++ sanitize_item_name item ++ lit " " ++ show_Z price).
      assert (lit "WTS" ++ lit " " ++ sanitize_item_name item ++ lit " " ++ show_Z price ++ lit "p" = 87 :: middle ++ lit "p") as E
        by (unfold middle; rewrite <- !app_assoc; done).
      rewrite E in *. apply clipboard_accepts; [done|done|]. unfold middle. rewrite !length_app. cbn [length]. change (length (lit "TS")) with 2%nat. change (length (lit " ")) with 1%nat. lia.
    + set (middle := lit "TB" ++ lit " " ++ sanitize_item_name item ++ lit " " ++ show_Z price).
      assert (lit "WTB" ++ lit " " ++ sanitize_item_name item ++ lit " " ++ show_Z price ++ lit "p" = 87 :: middle ++ lit "p") as E
        by (unfold middle; rewrite <- !app_assoc; done).
      rewrite E in *. apply clipboard_accepts; [done|done|]. unfold middle. rewrite !length_app. cbn [length]. change (length (lit "TB")) with 2%nat. change (length (lit " ")) with 1%nat. lia.
  - exists name, (trade_prefix side ++ lit " " ++ sanitize_item_name item ++ lit " for " ++ show_Z price ++ lit "p"). done.
Qed.

Lemma chat_lines_plain_witness :
  let whisper := format_whisper_line TradeBuy (lit "/kick\Ember") (lit "Ash Prime Set") 95 in
  whisper = lit "/w kickEmber Hi, WTB Ash Prime Set for 95p" ∧ sanitize_clipboard_text whisper = Ok whisper.
Proof.
  split; [by vm_compute|]. apply (chat_lines_plain TradeBuy (lit "/kick\Ember") (lit "Ash Prime Set") 95). done.
Defined.

(** ** Witnesses *)

#[local] Instance example_urls : WebUrls := λ url,
  if starts_with (lit "https://api.warframe.market/") url then Some (mkParsedUrl (lit "https") (Some MARKET_HOST) [] [] None (Some 443) (lit "/") None [] None) else None.

#[local] Instance example_market_json : MarketJson := {|
  decode_items bytes :=
    if bool_decide (bytes = [1])
    then Ok [mkItemEntry (Some (lit "ash_prime_set")) (Some (<[lit "en" := Some (lit "Ash Prime Set")]> ∅)); mkItemEntry (Some (lit "../admin")) None]
    else Err (lit "expected value");
  decode_orders bytes :=
    if bool_decide (bytes = [2])
    then Ok [mkOrderEntry (lit "sell") 90 true (Some (mkOrderUser (Some (lit "Offline")) (Some (lit "offline"))));
             mkOrderEntry (lit "sell") 95 true (Some (mkOrderUser (Some (lit "/Lotus\Ember")) (Some (lit "InGame"))));
             mkOrderEntry (lit "buy") 80 true (Some (mkOrderUser (Some (lit "Frost")) None)); mkOrderEntry (lit "buy") 99 false None]
    else Err (lit "expected value")
|}.

Definition example_answer (status : Z) (body : list Z) : HttpAnswer := AnsweredResponse (mkHttpResponse status None body None).
Definition example_net (url : str) : HttpAnswer := if str_eqb url ITEMS_URL then example_answer 200 [1] else example_answer 200 [2].
Definition example_limited (url : str) : HttpAnswer := AnsweredResponse (mkHttpResponse 429 (Some (lit "60")) [] None).

Definition example_works (n : nat) : list MarketStep := replicate n (MarketWork example_net 1000).

(** A search, a selection, a refresh the service limits, and a search the
    interface gives up on. *)
Definition example_market : list MarketStep :=
  [MarketEnable true; MarketSend (CommandSearch (lit " ash ")); MarketSend (CommandSelect (lit "ash_prime_set"))] ++ example_works 14
  ++ [MarketSend CommandRefreshSelected; MarketSend CommandRefreshSelected] ++ replicate 6 (MarketWork example_limited 1030)
  ++ [MarketSend (CommandSearch (lit "ash"))] ++ example_works 4.

Definition example_client : MarketClient := default market_client_new (market_run market_client_new example_market).

Definition example_sells (s : MarketSnapshot) : list (Z * str) :=
  from_option (λ d, (λ o, (mo_platinum o, mo_trader o)) <$> mi_top_sells d) [] (mk_selected s).


Definition example_cancelled : MarketClient := default market_client_new (market_step example_client (MarketEnable false)).
Definition example_after : list MarketStep := [MarketEnable true] ++ example_works 3.
Definition example_end : MarketClient := default market_client_new (market_run example_cancelled example_after).

Lemma market_toggle_cancels_witness :
  mk_status (published example_cancelled) = None ∧ mc_worker example_end = WorkerWaiting ∧ mc_shown example_end = mc_shown example_cancelled.
Proof.
  split; [by vm_compute|]. split; [by vm_compute|].
  apply (market_toggle_cancels example_market false example_after example_client example_cancelled example_end); try (by vm_compute).
Defined.

Lemma market_worker_drains_witness :
  ∃ n c', (n ≤ 6)%nat ∧ market_run example_client ((λ k, MarketWork example_net 2000) <$> seq 0 n) = Some c' ∧ calm (published c').
Proof.
  destruct (market_worker_drains example_market example_client (λ _, example_net) (λ _, 2000)) as (n & c' & Hn & Hrun & _ & _ & Hc & _);
    [by vm_compute..|].
  exists n, c'. split; [|done]. replace (mc_commands example_client) with (@nil (Z * MarketCommand)) in Hn by (by vm_compute). exact Hn.
Defined.
