(* ===== verification/TwitchChat.v ===== *)
(** What the Twitch chat widget shows
    ([crates/overcrow-overlay/src/twitch/{model,eventsub}.rs]): the buffer of
    messages, the reading of EventSub messages and the list of deliveries
    already seen ([DeliveryDedup] of [client.rs]). *)

From S2P Require Import Prelude Ordered Text Timing Bytes Http.

(** * The buffer of messages *)

Definition TWITCH_MESSAGE_BUFFER_MAX : nat := 200.
Definition TWITCH_PENDING_SEND_MAX : nat := 8.
Definition TWITCH_MESSAGE_MAX_CHARS : nat := 500.
Definition TWITCH_DISPLAY_NAME_MAX_CHARS : nat := 128.
Definition TWITCH_EMOTE_ID_MAX_BYTES : Z := 128.
#[global] Arguments TWITCH_MESSAGE_BUFFER_MAX : simpl never.
#[global] Arguments TWITCH_PENDING_SEND_MAX : simpl never.
#[global] Arguments TWITCH_MESSAGE_MAX_CHARS : simpl never.
#[global] Arguments TWITCH_DISPLAY_NAME_MAX_CHARS : simpl never.

(** A text of at most so many bytes, of these characters only: the tests of
    the source look at bytes, and every byte of another character fails
    them. *)
Definition bounded_ascii (max_bytes : Z) (allowed : char → bool) (value : str) : bool :=
  negb (bool_decide (value = [])) && (str_len value <=? max_bytes) && forallb allowed value.

Definition valid_twitch_emote_id (id : str) : bool :=
  bounded_ascii TWITCH_EMOTE_ID_MAX_BYTES (λ c, is_ascii_alphanumeric c || (c =? 45) || (c =? 95)) id.

Inductive TwitchMessageFragment := FragmentText (text : str) | FragmentEmote (id alt : str).

Record TwitchReplyContext := mkTwitchReplyContext { rc_message_id : str; rc_display_name : str; rc_body : str }.

Record ParsedChatMessage := mkParsedChatMessage {
  pm_id : str;
  pm_display_name : str;
  pm_name_color : option (Z * Z * Z);
  pm_text : str;
  pm_fragments : list TwitchMessageFragment;
  pm_reply : option TwitchReplyContext
}.

Inductive TwitchSendState := SendReceived | SendPending | SendFailed.
#[export] Instance TwitchSendState_eq_dec : EqDecision TwitchSendState.
Proof. solve_decision. Defined.

Record TwitchMessage := mkTwitchMessage {
  tm_id : str;
  tm_display_name : str;
  tm_name_color : option (Z * Z * Z);
  tm_text : str;
  tm_fragments : list TwitchMessageFragment;
  tm_reply : option TwitchReplyContext;
  tm_received_at : instant;
  tm_client_nonce : option str;
  tm_send_state : TwitchSendState
}.
#[export] Instance TwitchMessage_eta : Eta TwitchMessage := λ m,
  mkTwitchMessage (tm_id m) (tm_display_name m) (tm_name_color m) (tm_text m) (tm_fragments m) (tm_reply m)
    (tm_received_at m) (tm_client_nonce m) (tm_send_state m).

Definition message_received (p : ParsedChatMessage) (received_at : instant) : TwitchMessage :=
  mkTwitchMessage (pm_id p) (pm_display_name p) (pm_name_color p) (pm_text p) (pm_fragments p) (pm_reply p) received_at None SendReceived.

(** [MessageBuffer], the oldest first. *)
Definition buffer_push (message : TwitchMessage) (b : list TwitchMessage) : list TwitchMessage :=
  (if (length b =? TWITCH_MESSAGE_BUFFER_MAX)%nat then drop 1 b else b) ++ [message].

Definition is_pending (m : TwitchMessage) : bool := bool_decide (tm_send_state m = SendPending).
Definition pending_count (b : list TwitchMessage) : nat := length (filter (λ m, is_pending m = true) b).

(** The buffer after, and whether the message was taken. *)
Definition push_pending (nonce display_name text : str) (received_at : instant) (b : list TwitchMessage) : list TwitchMessage * bool :=
  if (TWITCH_PENDING_SEND_MAX <=? pending_count b)%nat then (b, false)
  else (buffer_push (mkTwitchMessage [] display_name None text [FragmentText text] None received_at (Some nonce) SendPending) b, true).

(** [iter_mut().find(..)], then a change. *)
Fixpoint change_first {A} (p : A → bool) (f : A → A) (l : list A) : list A :=
  match l with [] => [] | x :: l => if p x then f x :: l else x :: change_first p f l end.

Definition is_pending_nonce (nonce : str) (m : TwitchMessage) : bool := is_pending m && bool_decide (tm_client_nonce m = Some nonce).

Definition fail_pending (nonce : str) (b : list TwitchMessage) : list TwitchMessage :=
  change_first (is_pending_nonce nonce) (λ m, m <| tm_send_state := SendFailed |>) b.

Definition mark_sent (nonce message_id : str) (b : list TwitchMessage) : list TwitchMessage :=
  change_first (is_pending_nonce nonce) (λ m, m <| tm_send_state := SendReceived |> <| tm_id := message_id |>) b.

Definition has_id (id : str) (m : TwitchMessage) : bool := str_eqb (tm_id m) id.

Definition upsert_received (p : ParsedChatMessage) (received_at : instant) (b : list TwitchMessage) : list TwitchMessage :=
  let preserved_nonce := find_first (has_id (pm_id p)) b ≫= tm_client_nonce in
  let received := message_received p received_at <| tm_client_nonce := preserved_nonce |> in
  if existsb (has_id (pm_id p)) b then change_first (has_id (pm_id p)) (λ _, received) b
  else buffer_push received b.

Definition remove_message (message_id : str) (b : list TwitchMessage) : list TwitchMessage := filter (λ m, tm_id m ≠ message_id) b.

(** * EventSub messages *)

Definition EVENTSUB_MESSAGE_MAX_BYTES : Z := 64 * 1024.
Definition EVENTSUB_ID_MAX_BYTES : Z := 256.
Definition EVENTSUB_KEEPALIVE_MAX_SECS : Z := 10 * 60.
Definition MAX_FRAGMENTS : nat := 64.
#[global] Arguments MAX_FRAGMENTS : simpl never.

Inductive EventSubRevocation := RevokedAuthentication | RevokedChannelUnavailable | RevokedProvider.

Inductive EventSubKind :=
| EventWelcome (session_id : str) (keepalive_timeout : duration)
| EventKeepalive
| EventReconnect (url : str)
| EventRevocation (r : EventSubRevocation)
| EventChatMessage (broadcaster_user_id : str) (message : ParsedChatMessage)
| EventChatClear (broadcaster_user_id : str)
| EventChatMessageDelete (broadcaster_user_id message_id : str)
| EventUnsupported.

Record EventSubMessage := mkEventSubMessage { em_delivery_id : str; em_kind : EventSubKind }.

Inductive EventSubParseError :=
  EsOversized | EsMalformed | EsInvalidEnvelope | EsInvalidRouting | EsInvalidIdentity | EsInvalidContent.

(** The documents, as the derived [Deserialize] reads them. *)
Record EnvelopeWire (json : Type) := mkEnvelopeWire {
  ew_message_id : str; ew_message_type : str; ew_subscription_type : option str; ew_subscription_version : option str; ew_payload : json
}.
Arguments mkEnvelopeWire {json}. Arguments ew_message_id {json}. Arguments ew_message_type {json}.
Arguments ew_subscription_type {json}. Arguments ew_subscription_version {json}. Arguments ew_payload {json}.

Record SessionWire := mkSessionWire { sw_id : str; sw_keepalive : option Z; sw_reconnect_url : option str }.

Record ChatMessageWire (json : Type) := mkChatMessageWire {
  cm_broadcaster_user_id : str; cm_chatter_user_login : option str; cm_chatter_user_name : option str; cm_message_id : str;
  cm_color : option str; cm_text : str; cm_fragments : option json; cm_reply : option json
}.
Arguments mkChatMessageWire {json}. Arguments cm_broadcaster_user_id {json}. Arguments cm_chatter_user_login {json}.
Arguments cm_chatter_user_name {json}. Arguments cm_message_id {json}. Arguments cm_color {json}. Arguments cm_text {json}.
Arguments cm_fragments {json}. Arguments cm_reply {json}.

Record ChatFragmentWire := mkChatFragmentWire { fw_kind : str; fw_text : str; fw_emote : option str }.
Record ReplyWire := mkReplyWire { rw_message_id : option str; rw_body : option str; rw_user_name : option str; rw_user_login : option str }.

(** [serde_json] on them: a [Value], the envelope of a text, and what each
    payload is read as. *)
Class EventSubJson := {
  es_json : Type;
  envelope_of : str → option (EnvelopeWire es_json);
  session_of : es_json → option SessionWire;
  chat_message_of : es_json → option (ChatMessageWire es_json);
  chat_clear_of : es_json → option str;
  chat_delete_of : es_json → option (str * str);
  revocation_of : es_json → option str;
  fragments_of : es_json → option (list ChatFragmentWire);
  reply_of : es_json → option ReplyWire
}.

Definition valid_eventsub_url `{WebUrls} (value : str) : bool :=
  match parse_url value with
  | None => false
  | Some url =>
      str_eqb (pu_scheme url) (lit "wss") && bool_decide (pu_username url = []) && isNone (pu_password url)
      && is_some_and (λ host, eq_ignore_ascii_case host (lit "eventsub.wss.twitch.tv")) (pu_host_str url)
      && bool_decide (pu_port url = Some 443) && str_eqb (pu_path url) (lit "/ws") && isNone (pu_fragment url)
  end.

Definition valid_provider_id : str → bool :=
  bounded_ascii EVENTSUB_ID_MAX_BYTES (λ c, is_ascii_alphanumeric c || (c =? 45) || (c =? 95) || (c =? 46)).
Definition valid_opaque_delivery_id (value : str) : bool :=
  negb (bool_decide (value = [])) && (str_len value <=? EVENTSUB_ID_MAX_BYTES) && negb (existsb is_control value).
Definition valid_numeric_id : str → bool := bounded_ascii 32 is_ascii_digit.

Definition normalize_fragment_text (value : str) (max_chars : nat) : str := (λ c, if is_control c then 32 else c) <$> take max_chars value.

Definition normalize_display_text (value : str) (max_chars : nat) : option str :=
  let normalized := trim (normalize_fragment_text value max_chars) in
  if bool_decide (normalized = []) then None else Some normalized.

(** A slice of so many bytes from the start, and the rest: nothing when it
    would end inside a character, where the source panics. *)
Fixpoint slice_bytes (n : Z) (s : str) : option (str * str) :=
  if n =? 0 then Some ([], s)
  else match s with
       | [] => None
       | c :: s => if n <? len_utf8 c then None else '(l, r) ← slice_bytes (n - len_utf8 c) s; Some (c :: l, r)
       end.

Definition hex_value (c : char) : option Z :=
  if is_ascii_digit c then Some (c - 48)
  else if (97 <=? c) && (c <=? 102) then Some (c - 97 + 10)
  else if (65 <=? c) && (c <=? 70) then Some (c - 65 + 10)
  else None.

Fixpoint radix_16 (acc : Z) (s : str) : option Z :=
  match s with
  | [] => Some acc
  | c :: s => d ← hex_value c; a ← checked_mul 255 acc 16; a ← checked_add 255 a d; radix_16 a s
  end.

(** [u8::from_str_radix(.., 16)]. *)
Definition u8_from_hex (s : str) : option Z :=
  match s with
  | [] => None
  | c :: rest => if c =? 43 then match rest with [] => None | _ => radix_16 0 rest end else radix_16 0 s
  end.

(** [parse_color]: nothing when it panics. *)
Definition parse_color (value : str) : option (option (Z * Z * Z)) :=
  match opt_filter (λ hex, str_len hex =? 6) (strip_prefix (lit "#") value) with
  | None => Some None
  | Some hex =>
      '(r, rest) ← slice_bytes 2 hex;
      match u8_from_hex r with
      | None => Some None
      | Some red =>
          '(g, b) ← slice_bytes 2 rest;
          match u8_from_hex g with
          | None => Some None
          | Some green => Some ((λ blue, (red, green, blue)) <$> u8_from_hex b)
          end
      end
  end.

Definition push_text_fragment (fragments : list TwitchMessageFragment) (text : str) : list TwitchMessageFragment :=
  match last fragments with
  | Some (FragmentText previous) => take (length fragments - 1) fragments ++ [FragmentText (previous ++ text)]
  | _ => fragments ++ [FragmentText text]
  end.

(** The loop over the fragments: nothing where the whole text is used
    instead. *)
Fixpoint read_fragments (wires : list ChatFragmentWire) (remaining : nat) (combined : str) (fragments : list TwitchMessageFragment) :
    option (str * list TwitchMessageFragment) :=
  match wires with
  | [] => Some (combined, fragments)
  | wire :: wires =>
      if (remaining =? 0)%nat then None
      else
        let text := normalize_fragment_text (fw_text wire) remaining in
        if bool_decide (text = []) then None
        else
          let remaining := (remaining - length text)%nat in
          let combined := combined ++ text in
          if str_eqb (fw_kind wire) (lit "emote")
          then match opt_filter valid_twitch_emote_id (fw_emote wire) with
               | None => None
               | Some id => read_fragments wires remaining combined (fragments ++ [FragmentEmote id text])
               end
          else read_fragments wires remaining combined (push_text_fragment fragments text)
  end.

Definition bounded_name (name login : option str) : option str :=
  match name ≫= (λ value, normalize_display_text value TWITCH_DISPLAY_NAME_MAX_CHARS) with
  | Some name => Some name
  | None => login ≫= (λ value, normalize_display_text value TWITCH_DISPLAY_NAME_MAX_CHARS)
  end.

Section eventsub.
Context `{WebUrls, EventSubJson}.

Definition parse_message_fragments (value : option es_json) (fallback : str) : list TwitchMessageFragment :=
  let fallback_fragments := [FragmentText fallback] in
  match value ≫= fragments_of with
  | None => fallback_fragments
  | Some wires =>
      if bool_decide (wires = []) || (MAX_FRAGMENTS <? length wires)%nat then fallback_fragments
      else match read_fragments wires TWITCH_MESSAGE_MAX_CHARS [] [] with
           | None => fallback_fragments
           | Some (combined, fragments) =>
               if bool_decide (normalize_display_text combined TWITCH_MESSAGE_MAX_CHARS = Some fallback) then fragments
               else fallback_fragments
           end
  end.

Definition parse_reply (value : es_json) : option TwitchReplyContext :=
  wire ← reply_of value;
  message_id ← opt_filter valid_provider_id (rw_message_id wire);
  display_name ← bounded_name (rw_user_name wire) (rw_user_login wire);
  body ← rw_body wire ≫= (λ value, normalize_display_text value TWITCH_MESSAGE_MAX_CHARS);
  Some (mkTwitchReplyContext message_id display_name body).

Definition parse_chat_message (wire : ChatMessageWire es_json) : option (result EventSubParseError ParsedChatMessage) :=
  if negb (valid_numeric_id (cm_broadcaster_user_id wire)) || negb (valid_provider_id (cm_message_id wire))
  then Some (Err EsInvalidIdentity)
  else
    match bounded_name (cm_chatter_user_name wire) (cm_chatter_user_login wire) with
    | None => Some (Err EsInvalidContent)
    | Some display_name =>
        match normalize_display_text (cm_text wire) TWITCH_MESSAGE_MAX_CHARS with
        | None => Some (Err EsInvalidContent)
        | Some text =>
            let fragments := parse_message_fragments (cm_fragments wire) text in
            name_color ← match cm_color wire with Some value => parse_color value | None => Some None end;
            Some (Ok (mkParsedChatMessage (cm_message_id wire) display_name name_color text fragments (cm_reply wire ≫= parse_reply)))
        end
    end.

Definition parse_session (payload : es_json) : result EventSubParseError SessionWire :=
  session ← ok_or EsMalformed (session_of payload);
  if valid_provider_id (sw_id session) then Ok session else Err EsInvalidEnvelope.

Definition parse_revocation (payload : es_json) : result EventSubParseError EventSubRevocation :=
  status ← ok_or EsMalformed (revocation_of payload);
  if str_eqb status (lit "authorization_revoked") || str_eqb status (lit "user_removed") then Ok RevokedAuthentication
  else if str_eqb status (lit "chat_user_banned") then Ok RevokedChannelUnavailable
  else if str_eqb status (lit "version_removed") || str_eqb status (lit "notification_failures_exceeded") then Ok RevokedProvider
  else Err EsInvalidEnvelope.

Definition parse_notification (subscription_type subscription_version : option str) (payload : es_json) :
    option (result EventSubParseError EventSubKind) :=
  if negb (bool_decide (subscription_version = Some (lit "1"))) then Some (Err EsInvalidRouting)
  else
    match subscription_type with
    | None => Some (Err EsInvalidRouting)
    | Some kind =>
        if str_eqb kind (lit "channel.chat.message")
        then match chat_message_of payload with
             | None => Some (Err EsMalformed)
             | Some event => (λ r : result EventSubParseError ParsedChatMessage, EventChatMessage (cm_broadcaster_user_id event) <$> r) <$> parse_chat_message event
             end
        else if str_eqb kind (lit "channel.chat.clear")
        then Some (broadcaster ← ok_or EsMalformed (chat_clear_of payload);
                   if valid_numeric_id broadcaster then Ok (EventChatClear broadcaster) else Err EsInvalidIdentity)
        else if str_eqb kind (lit "channel.chat.message_delete")
        then Some (event ← ok_or EsMalformed (chat_delete_of payload);
                   if valid_numeric_id (fst event) && valid_provider_id (snd event)
                   then Ok (EventChatMessageDelete (fst event) (snd event)) else Err EsInvalidIdentity)
        else Some (Ok EventUnsupported)
    end.

(** [parse_eventsub_message]: nothing when it panics. *)
Definition parse_eventsub_message (raw : str) : option (result EventSubParseError EventSubMessage) :=
  if EVENTSUB_MESSAGE_MAX_BYTES <? str_len raw then Some (Err EsOversized)
  else
    match envelope_of raw with
    | None => Some (Err EsMalformed)
    | Some envelope =>
        if negb (valid_opaque_delivery_id (ew_message_id envelope)) then Some (Err EsInvalidEnvelope)
        else
          let payload := ew_payload envelope in
          let is_type name := str_eqb (ew_message_type envelope) (lit name) in
          kind ←
            (if is_type "session_welcome" then
               Some (session ← parse_session payload;
                     keepalive ← ok_or EsInvalidEnvelope
                       (opt_filter (λ seconds, (1 <=? seconds) && (seconds <=? EVENTSUB_KEEPALIVE_MAX_SECS)) (sw_keepalive session));
                     Ok (EventWelcome (sw_id session) (from_secs keepalive)))
             else if is_type "session_keepalive" then Some (Ok EventKeepalive)
             else if is_type "session_reconnect" then
               Some (session ← parse_session payload;
                     url ← ok_or EsInvalidRouting (opt_filter valid_eventsub_url (sw_reconnect_url session));
                     Ok (EventReconnect url))
             else if is_type "revocation" then Some (EventRevocation <$> parse_revocation payload)
             else if is_type "notification" then
               parse_notification (ew_subscription_type envelope) (ew_subscription_version envelope) payload
             else Some (Ok EventUnsupported));
          Some (mkEventSubMessage (ew_message_id envelope) <$> kind)
    end.
End eventsub.

(** * Deliveries already seen *)

Definition DELIVERY_DEDUP_CAPACITY : nat := 512.
#[global] Arguments DELIVERY_DEDUP_CAPACITY : simpl never.

Record DeliveryDedup := mkDeliveryDedup { dd_order : list str; dd_entries : gset str }.

Definition dedup_new : DeliveryDedup := mkDeliveryDedup [] ∅.

Definition dedup_insert (id : str) (d : DeliveryDedup) : bool * DeliveryDedup :=
  if bool_decide (id ∈ dd_entries d) then (false, d)
  else
    let d := if (length (dd_order d) =? DELIVERY_DEDUP_CAPACITY)%nat
             then match dd_order d with
                  | expired :: order => mkDeliveryDedup order (dd_entries d ∖ {[expired]})
                  | [] => d
                  end
             else d in
    (true, mkDeliveryDedup (dd_order d ++ [id]) ({[id]} ∪ dd_entries d)).

(** * What is read is clean *)

(** A text for display: not empty, no control characters, trimmed, short. *)
Definition display_text_ok (max_chars : nat) (s : str) : Prop :=
  s ≠ [] ∧ (length s ≤ max_chars)%nat ∧ Forall (λ c, is_control c = false) s ∧ trim s = s.

Definition fragment_text (f : TwitchMessageFragment) : str := match f with FragmentText text => text | FragmentEmote _ alt => alt end.
Definition fragment_ok (f : TwitchMessageFragment) : Prop :=
  fragment_text f ≠ [] ∧ Forall (λ c, is_control c = false) (fragment_text f)
  ∧ match f with FragmentEmote id _ => valid_twitch_emote_id id = true | FragmentText _ => True end.

(** The fragments spell the text: together they are the text, with white
    space around it at most. *)
Definition fragments_spell (fragments : list TwitchMessageFragment) (text : str) : Prop :=
  trim (concat (fragment_text <$> fragments)) = text ∧ (length (concat (fragment_text <$> fragments)) ≤ TWITCH_MESSAGE_MAX_CHARS)%nat.

Definition color_ok (c : Z * Z * Z) : Prop := let '(r, g, b) := c in 0 ≤ r ≤ 255 ∧ 0 ≤ g ≤ 255 ∧ 0 ≤ b ≤ 255.

Definition reply_ok (r : TwitchReplyContext) : Prop :=
  valid_provider_id (rc_message_id r) = true ∧ display_text_ok TWITCH_DISPLAY_NAME_MAX_CHARS (rc_display_name r)
  ∧ display_text_ok TWITCH_MESSAGE_MAX_CHARS (rc_body r).

Definition message_ok (p : ParsedChatMessage) : Prop :=
  valid_provider_id (pm_id p) = true ∧ display_text_ok TWITCH_DISPLAY_NAME_MAX_CHARS (pm_display_name p)
  ∧ display_text_ok TWITCH_MESSAGE_MAX_CHARS (pm_text p)
  ∧ fragments_spell (pm_fragments p) (pm_text p) ∧ Forall fragment_ok (pm_fragments p)
  ∧ from_option color_ok True (pm_name_color p) ∧ from_option reply_ok True (pm_reply p).

Definition event_kind_ok `{WebUrls, EventSubJson} (k : EventSubKind) : Prop :=
  match k with
  | EventWelcome session_id keepalive => valid_provider_id session_id = true ∧ from_secs 1 ≤ keepalive ≤ from_secs 600
  | EventReconnect url => url_ok (lit "wss") (lit "eventsub.wss.twitch.tv") url
  | EventChatMessage broadcaster message => valid_numeric_id broadcaster = true ∧ message_ok message
  | EventChatClear broadcaster => valid_numeric_id broadcaster = true
  | EventChatMessageDelete broadcaster message_id => valid_numeric_id broadcaster = true ∧ valid_provider_id message_id = true
  | _ => True
  end.

Lemma normalize_fragment_plain s n : Forall (λ c, is_control c = false) (normalize_fragment_text s n).
Proof. apply Forall_fmap, Forall_forall. intros c _. cbn. by destruct (is_control c) eqn:E. Qed.

Lemma normalize_fragment_length s n : (length (normalize_fragment_text s n) ≤ n)%nat.
Proof. unfold normalize_fragment_text. rewrite length_fmap, length_take. lia. Qed.

Lemma normalize_display_ok s n t : normalize_display_text s n = Some t → display_text_ok n t.
Proof.
  unfold normalize_display_text. case_bool_decide as E; [done|]. intros Hx. apply Some_inj in Hx as <-.
  split; [done|]. split; [etrans; [apply trim_length|apply normalize_fragment_length]|]. split; [|apply trim_trim].
  apply Forall_forall. intros c Hc%trim_sub. pose proof (normalize_fragment_plain s n) as Hp. rewrite Forall_forall in Hp. auto.
Qed.

Lemma bounded_name_ok name login t : bounded_name name login = Some t → display_text_ok TWITCH_DISPLAY_NAME_MAX_CHARS t.
Proof.
  unfold bounded_name. destruct (name ≫= _) as [n|] eqn:E.
  - intros [= <-]. apply bind_Some in E as (v & _ & E). by apply normalize_display_ok in E.
  - intros (v & _ & E2)%bind_Some. by apply normalize_display_ok in E2.
Qed.

Lemma normalize_plain s n : Forall (λ c, is_control c = false) s → (length s ≤ n)%nat → normalize_fragment_text s n = s.
Proof.
  intros Hp Hl. unfold normalize_fragment_text. rewrite take_ge by done.
  rewrite <- (list_fmap_id s) at 2. apply Forall_fmap_ext. eapply Forall_impl; [exact Hp|]. cbn. by intros c ->.
Qed.

Lemma push_text_concat fs t : concat (fragment_text <$> push_text_fragment fs t) = concat (fragment_text <$> fs) ++ t.
Proof.
  unfold push_text_fragment. destruct (last fs) as [[previous|id alt]|] eqn:E.
  - apply last_Some in E as [l ->]. rewrite length_app. cbn [length]. replace (length l + 1 - 1)%nat with (length l) by lia.
    rewrite take_app_length, !fmap_app, !concat_app. cbn. by rewrite !app_nil_r, <- app_assoc.
  - rewrite fmap_app, concat_app. cbn. by rewrite app_nil_r.
  - apply last_None in E as ->. cbn. by rewrite app_nil_r.
Qed.

Lemma push_text_ok fs t : Forall fragment_ok fs → t ≠ [] → Forall (λ c, is_control c = false) t → Forall fragment_ok (push_text_fragment fs t).
Proof.
  intros Hf Ht Hp. unfold push_text_fragment. destruct (last fs) as [[previous|id alt]|] eqn:E.
  - apply last_Some in E as [l ->]. apply Forall_app in Hf as [Hl Hlast]. apply Forall_singleton in Hlast as (H1 & H2 & _).
    rewrite length_app. cbn [length]. replace (length l + 1 - 1)%nat with (length l) by lia. rewrite take_app_length.
    apply Forall_app. split; [done|]. apply Forall_singleton. cbn in *. split; [by destruct previous|]. split; [by apply Forall_app|done].
  - apply Forall_app. split; [done|]. apply Forall_singleton. by split_and!.
  - apply Forall_app. split; [done|]. apply Forall_singleton. by split_and!.
Qed.

Lemma read_fragments_ok wires : ∀ remaining combined fragments combined' fragments',
  read_fragments wires remaining combined fragments = Some (combined', fragments') →
  Forall fragment_ok fragments → concat (fragment_text <$> fragments) = combined → (length combined + remaining ≤ TWITCH_MESSAGE_MAX_CHARS)%nat →
  Forall fragment_ok fragments' ∧ concat (fragment_text <$> fragments') = combined' ∧ (length combined' ≤ TWITCH_MESSAGE_MAX_CHARS)%nat.
Proof.
  induction wires as [|wire wires IH]; intros remaining combined fragments combined' fragments' Hr Hf Hc Hl; cbn [read_fragments] in Hr.
  { injection Hr as <- <-. split; [done|]. split; [done|lia]. }
  destruct (remaining =? 0)%nat; [done|]. set (text := normalize_fragment_text (fw_text wire) remaining) in *.
  pose proof (normalize_fragment_length (fw_text wire) remaining) as Ht. pose proof (normalize_fragment_plain (fw_text wire) remaining) as Hp.
  fold text in Ht, Hp. case_bool_decide as Hne; [done|]. cbn zeta in Hr.
  assert (length (combined ++ text) + (remaining - length text) ≤ TWITCH_MESSAGE_MAX_CHARS)%nat as Hl' by (rewrite length_app; lia).
  destruct (str_eqb _ _).
  - destruct (opt_filter valid_twitch_emote_id (fw_emote wire)) as [id|] eqn:Eid; [|done]. apply opt_filter_Some in Eid as [_ Hid].
    eapply IH; [exact Hr| | |exact Hl'].
    + apply Forall_app. split; [done|]. apply Forall_singleton. by split_and!.
    + rewrite fmap_app, concat_app, Hc. cbn. by rewrite app_nil_r.
  - eapply IH; [exact Hr|by apply push_text_ok|by rewrite push_text_concat, Hc|exact Hl'].
Qed.

Lemma radix_16_bounds s : ∀ acc v, 0 ≤ acc ≤ 255 → radix_16 acc s = Some v → 0 ≤ v ≤ 255.
Proof.
  induction s as [|c s IH]; intros acc v Ha; cbn; [by intros [= <-]|]. destruct (hex_value c) as [d|] eqn:Ed; [|done]. cbn.
  assert (0 ≤ d ≤ 15) as Hd.
  { unfold hex_value, is_ascii_digit in Ed. destruct ((48 <=? c) && (c <=? 57)) eqn:E1; [injection Ed as <-; lia|].
    destruct ((97 <=? c) && (c <=? 102)) eqn:E2; [injection Ed as <-; lia|].
    destruct ((65 <=? c) && (c <=? 70)) eqn:E3; [injection Ed as <-; lia|done]. }
  unfold checked_mul. destruct (Z.leb_spec (acc * 16) 255); [|done]. cbn. unfold checked_add.
  destruct (Z.leb_spec (acc * 16 + d) 255); [|done]. cbn. apply IH. lia.
Qed.

Lemma u8_from_hex_bounds s v : u8_from_hex s = Some v → 0 ≤ v ≤ 255.
Proof.
  unfold u8_from_hex. destruct s as [|c s]; [done|]. destruct (c =? 43); [destruct s; [done|]|]; by apply radix_16_bounds.
Qed.

Lemma parse_color_ok v c : parse_color v = Some (Some c) → color_ok c.
Proof.
  unfold parse_color. destruct (opt_filter _ _) as [hex|]; [|done]. destruct (slice_bytes 2 hex) as [[r rest]|]; [|done]. cbn.
  destruct (u8_from_hex r) as [red|] eqn:Er; [|done]. destruct (slice_bytes 2 rest) as [[g b]|]; [|done]. cbn.
  destruct (u8_from_hex g) as [green|] eqn:Eg; [|done]. destruct (u8_from_hex b) as [blue|] eqn:Eb; [|done].
  intros [= <-]. by split_and!; (eapply u8_from_hex_bounds; done).
Qed.

Section clean.
Context `{WebUrls, EventSubJson}.

Lemma parse_message_fragments_ok value text :
  display_text_ok TWITCH_MESSAGE_MAX_CHARS text →
  let fragments := parse_message_fragments value text in fragments_spell fragments text ∧ Forall fragment_ok fragments.
Proof.
  intros (Hne & Hl & Hp & Ht).
  assert (fragments_spell [FragmentText text] text ∧ Forall fragment_ok [FragmentText text]) as Hfallback.
  { split; [split; cbn; rewrite app_nil_r; done|]. apply Forall_singleton. by split_and!. }
  unfold parse_message_fragments. destruct (value ≫= fragments_of) as [wires|]; [|done]. cbn zeta. destruct (_ || _); [done|].
  destruct (read_fragments wires _ _ _) as [[combined fragments]|] eqn:E; [|done].
  apply read_fragments_ok in E as (H1 & H2 & H3); [|constructor|done|cbn; lia]. case_bool_decide as En; [|done].
  split; [|done]. split; [|by rewrite H2]. rewrite H2. unfold normalize_display_text in En. rewrite normalize_plain in En.
  - case_bool_decide; [done|]. by injection En as ->.
  - rewrite <- H2. clear -H1. induction H1 as [|f fs (_ & Hf & _) _ IH]; cbn; [constructor|]. by apply Forall_app.
  - done.
Qed.

Lemma parse_reply_ok value r : parse_reply value = Some r → reply_ok r.
Proof.
  unfold parse_reply. destruct (reply_of value) as [wire|]; [|done]. cbn [mbind option_bind].
  destruct (opt_filter valid_provider_id _) as [id|] eqn:E1; [|done]. cbn [mbind option_bind].
  destruct (bounded_name _ _) as [name|] eqn:E2; [|done]. cbn [mbind option_bind].
  destruct (rw_body wire) as [body|]; [|done]. cbn [mbind option_bind].
  destruct (normalize_display_text body _) as [t|] eqn:E3; [|done]. cbn [mbind option_bind]. intros [= <-].
  apply opt_filter_Some in E1 as [_ E1]. split; [done|]. split; [by apply bounded_name_ok in E2|by apply normalize_display_ok in E3].
Qed.

Lemma parse_chat_message_ok wire p : parse_chat_message wire = Some (Ok p) → valid_numeric_id (cm_broadcaster_user_id wire) = true ∧ message_ok p.
Proof.
  unfold parse_chat_message. destruct (valid_numeric_id _) eqn:E1; [|done]. destruct (valid_provider_id _) eqn:E2; [|done]. cbn [negb orb].
  destruct (bounded_name _ _) as [name|] eqn:E3; [|done].
  destruct (normalize_display_text _ _) as [text|] eqn:E4; [|done].
  destruct (match cm_color wire with Some value => _ | None => _ end) as [color|] eqn:E5; [|done]. cbn [mbind option_bind]. intros [= <-].
  apply bounded_name_ok in E3. apply normalize_display_ok in E4. destruct (parse_message_fragments_ok (cm_fragments wire) text E4) as [F1 F2].
  split; [done|]. split; [done|]. split; [done|]. split; [done|]. split; [done|]. split; [done|]. cbn [pm_name_color pm_reply]. split.
  - destruct color as [c|]; [|done]. cbn. destruct (cm_color wire) as [v|]; [|done]. by apply parse_color_ok in E5.
  - destruct (cm_reply wire) as [v|]; [|done]. cbn [mbind option_bind]. destruct (parse_reply v) as [r|] eqn:E6; [|done]. cbn. by apply parse_reply_ok in E6.
Qed.

Lemma isNone_true {A} (o : option A) : isNone o = true → o = None.
Proof. by destruct o. Qed.

Lemma valid_eventsub_url_ok url : valid_eventsub_url url = true → url_ok (lit "wss") (lit "eventsub.wss.twitch.tv") url.
Proof.
  unfold valid_eventsub_url. destruct (parse_url url) as [u|] eqn:E; [|done]. rewrite !andb_true_iff.
  intros ((((((Hs & Hn) & Hp) & Hh) & Hport) & _) & Hf). exists u. apply is_some_and_true in Hh.
  split_and!; [done|by apply str_eqb_eq|by apply bool_decide_eq_true in Hn|by apply isNone_true|done|by apply bool_decide_eq_true in Hport|by apply isNone_true].
Qed.

(** C40 Whatever Twitch sends, a message that is taken is clean: its ids are
    short and of safe characters; names and texts are bounded, trimmed and
    without control characters; the fragments together are exactly the text,
    and every emote has an id fit for a URL; a keepalive is between a second
    and ten minutes; and a new address is one of EventSub's. *)
Theorem eventsub_messages_clean raw m (Hparse : parse_eventsub_message raw = Some (Ok m)) :
  valid_opaque_delivery_id (em_delivery_id m) = true ∧ event_kind_ok (em_kind m).
Proof.
  unfold parse_eventsub_message in Hparse. destruct (_ <? _); [done|]. destruct (envelope_of raw) as [e|]; [|done].
  destruct (valid_opaque_delivery_id (ew_message_id e)) eqn:Ed; [|done]. cbn [negb] in Hparse.
  match type of Hparse with (?k ≫= _) = _ => destruct k as [kind|] eqn:Ek; [|done] end. cbn [mbind option_bind] in Hparse.
  destruct kind as [kind|err]; [|done]. injection Hparse as <-. cbn [em_delivery_id em_kind]. split; [done|].
  destruct (str_eqb _ (lit "session_welcome")).
  { injection Ek as Ek. unfold parse_session in Ek. destruct (session_of _) as [s|]; [|done]. cbn in Ek.
    destruct (valid_provider_id (sw_id s)) eqn:Es; [|done]. cbn in Ek.
    destruct (opt_filter _ (sw_keepalive s)) as [k|] eqn:Eo; [|done]. cbn in Ek. injection Ek as <-.
    apply opt_filter_Some in Eo as [_ Eo]. unfold EVENTSUB_KEEPALIVE_MAX_SECS in Eo. split; [done|]. unfold from_secs, nanos_per_sec. lia. }
  destruct (str_eqb _ (lit "session_keepalive")); [by injection Ek as <-|].
  destruct (str_eqb _ (lit "session_reconnect")).
  { injection Ek as Ek. unfold parse_session in Ek. destruct (session_of _) as [s|]; [|done]. cbn in Ek.
    destruct (valid_provider_id (sw_id s)); [|done]. cbn in Ek.
    destruct (opt_filter _ (sw_reconnect_url s)) as [u|] eqn:Eo; [|done]. injection Ek as <-. apply opt_filter_Some in Eo as [_ Eo].
    by apply valid_eventsub_url_ok. }
  destruct (str_eqb _ (lit "revocation")).
  { injection Ek as Ek. destruct (parse_revocation _); [|done]. by injection Ek as <-. }
  destruct (str_eqb _ (lit "notification")); [|by injection Ek as <-].
  unfold parse_notification in Ek. destruct (negb _); [done|]. destruct (ew_subscription_type e) as [t|]; [|done].
  destruct (str_eqb t _).
  { destruct (chat_message_of _) as [wire|]; [|done]. apply fmap_Some in Ek as (r & Hr & Ek). destruct r as [p|]; [|done].
    injection Ek as ->. by apply parse_chat_message_ok. }
  destruct (str_eqb t _).
  { injection Ek as Ek. destruct (chat_clear_of _) as [b|]; [|done]. cbn in Ek. destruct (valid_numeric_id b) eqn:Eb; [|done]. by injection Ek as <-. }
  destruct (str_eqb t _); [|by injection Ek as <-].
  injection Ek as Ek. destruct (chat_delete_of _) as [[b id]|]; [|done]. cbn in Ek. destruct (valid_numeric_id b) eqn:Eb; [|done].
  destruct (valid_provider_id id) eqn:Ei; [|done]. by injection Ek as <-.
Qed.

Lemma slice_bytes_ascii n s : 0 ≤ n ≤ Z.of_nat (length s) → Forall (λ c, c < 128) s → ∃ l r, slice_bytes n s = Some (l, r) ∧ s = l ++ r ∧ Z.of_nat (length l) = n.
Proof.
  revert n. induction s as [|c s IH]; intros n Hn Ha; cbn [slice_bytes length] in *.
  - replace n with 0 by lia. by exists [], [].
  - destruct (Z.eqb_spec n 0) as [->|]; [by exists [], (c :: s)|]. inversion Ha as [|?? Hc Hs]; subst.
    unfold len_utf8. destruct (Z.ltb_spec c 128); [|lia]. destruct (Z.ltb_spec n 1); [lia|].
    destruct (IH (n - 1) ltac:(lia) Hs) as (l & r & -> & -> & Hl). exists (c :: l), r. cbn. split; [done|]. split; [done|lia].
Qed.

Lemma parse_color_runs v : Forall (λ c, c < 128) v → is_Some (parse_color v).
Proof.
  intros Ha. unfold parse_color. destruct (opt_filter _ (strip_prefix (lit "#") v)) as [hex|] eqn:E; [|done].
  apply opt_filter_Some in E as [Es El]. apply Z.eqb_eq in El.
  assert (Forall (λ c, c < 128) hex) as Hh.
  { apply strip_prefix_Some in Es as ->. by apply Forall_app in Ha as [_ Ha]. }
  assert (length hex = 6%nat) as Hlen.
  { assert (str_len hex = Z.of_nat (length hex)) as E; [|lia]. clear -Hh. unfold str_len. induction Hh as [|c s Hc _ IH]; cbn [foldr length]; [done|].
    rewrite IH. unfold len_utf8. destruct (Z.ltb_spec c 128); lia. }
  destruct (slice_bytes_ascii 2 hex ltac:(lia) Hh) as (r & rest & -> & -> & Hr). cbn [mbind option_bind].
  destruct (u8_from_hex r); [|done]. apply Forall_app in Hh as [_ Hrest]. rewrite length_app in Hlen.
  destruct (slice_bytes_ascii 2 rest ltac:(lia) Hrest) as (g & b & -> & -> & Hg). cbn [mbind option_bind]. by destruct (u8_from_hex g).
Qed.

(** Reading a message panics at most over the color of a name: when the
    colors Twitch sends are ASCII, every message is read or refused. *)
Theorem eventsub_reading_ends raw
    (Hcolors : ∀ payload event color, chat_message_of payload = Some event → cm_color event = Some color → Forall (λ c, c < 128) color) :
  is_Some (parse_eventsub_message raw).
Proof.
  unfold parse_eventsub_message. destruct (_ <? _); [done|]. destruct (envelope_of raw) as [e|]; [|done]. destruct (negb _); [done|]. cbn zeta.
  match goal with |- is_Some (?k ≫= _) => enough (is_Some k) as [kind ->] by done end.
  destruct (str_eqb _ _); [done|]. destruct (str_eqb _ _); [done|]. destruct (str_eqb _ _); [done|]. destruct (str_eqb _ _); [done|].
  destruct (str_eqb _ _); [|done]. unfold parse_notification. destruct (negb _); [done|]. destruct (ew_subscription_type e) as [t|]; [|done].
  destruct (str_eqb t _); [|destruct (str_eqb t _); [done|by destruct (str_eqb t _)]].
  destruct (chat_message_of _) as [wire|] eqn:Ew; [|done]. apply fmap_is_Some. unfold parse_chat_message. destruct (_ || _); [done|].
  destruct (bounded_name _ _); [|done]. destruct (normalize_display_text _ _); [|done].
  destruct (cm_color wire) as [color|] eqn:Ec; [|done]. destruct (parse_color_runs color (Hcolors _ _ _ Ew Ec)) as [c ->]. done.
Qed.
End clean.

(** A color of six bytes with a character of two across the first slice. *)
Example color_across_a_slice : parse_color [35; 97; 233; 97; 98; 99] = None.
Proof. by vm_compute. Qed.

(** * A delivery is taken once *)

Fixpoint dedup_results (d : DeliveryDedup) (ids : list str) : list bool :=
  match ids with [] => [] | id :: ids => let '(taken, d) := dedup_insert id d in taken :: dedup_results d ids end.

(** The last [n] of a list. *)
Definition last_n {A} (n : nat) (l : list A) : list A := drop (length l - n) l.

(** Reference: a delivery is taken unless it is among the last taken. *)
Fixpoint window_results (n : nat) (taken : list str) (ids : list str) : list bool :=
  match ids with
  | [] => []
  | id :: ids =>
      if bool_decide (id ∈ last_n n taken) then false :: window_results n taken ids
      else true :: window_results n (taken ++ [id]) ids
  end.

Definition dedup_ok (taken : list str) (d : DeliveryDedup) : Prop :=
  dd_order d = last_n DELIVERY_DEDUP_CAPACITY taken ∧ NoDup (dd_order d) ∧ dd_entries d = list_to_set (dd_order d)
  ∧ (length (dd_order d) ≤ DELIVERY_DEDUP_CAPACITY)%nat.

Lemma last_n_snoc {A} n (l : list A) x :
  (0 < n)%nat → last_n n (l ++ [x]) = (if (length (last_n n l) =? n)%nat then drop 1 (last_n n l) else last_n n l) ++ [x].
Proof.
  intros Hn. unfold last_n. rewrite length_app, length_drop. cbn [length].
  destruct (Nat.eqb_spec (length l - (length l - n)) n) as [E|E].
  - rewrite drop_drop, drop_app_le by lia. do 2 f_equal. lia.
  - rewrite drop_app_le by lia. do 2 f_equal. lia.
Qed.

Lemma dedup_insert_ok taken id d :
  dedup_ok taken d →
  let '(r, d') := dedup_insert id d in
  r = negb (bool_decide (id ∈ last_n DELIVERY_DEDUP_CAPACITY taken)) ∧ dedup_ok (if r then taken ++ [id] else taken) d'.
Proof.
  intros (H1 & H2 & H3 & H4). unfold dedup_insert. rewrite H3.
  assert (bool_decide (id ∈ (list_to_set (dd_order d) : gset str)) = bool_decide (id ∈ last_n DELIVERY_DEDUP_CAPACITY taken)) as ->
    by (apply bool_decide_ext; rewrite elem_of_list_to_set, H1; done).
  case_bool_decide as E; [split; [done|]; by split_and!|]. split; [done|]. rewrite <- H1 in E.
  assert (0 < DELIVERY_DEDUP_CAPACITY)%nat as Hc by (apply Nat.ltb_lt; by vm_compute).
  unfold dedup_ok. rewrite last_n_snoc, <- H1 by done.
  destruct (Nat.eqb_spec (length (dd_order d)) DELIVERY_DEDUP_CAPACITY) as [El|El].
  - destruct (dd_order d) as [|expired order] eqn:Eo; [cbn in El; lia|]. cbn [dd_order dd_entries drop].
    inversion H2 as [|?? Hex Hnd]; subst. cbn [length] in *. split; [done|]. split; [|split].
    + apply NoDup_app. split; [done|]. split; [|apply NoDup_singleton]. intros x Hx ->%list_elem_of_singleton. apply E. by right.
    + rewrite list_to_set_app_L. cbn. set_solver.
    + rewrite length_app. cbn. lia.
  - cbn [dd_order dd_entries]. split; [done|]. split; [|split].
    + apply NoDup_app. split; [done|]. split; [|apply NoDup_singleton]. by intros x Hx ->%list_elem_of_singleton.
    + rewrite list_to_set_app_L. cbn. set_solver.
    + rewrite length_app. cbn. lia.
Qed.

(** The list of deliveries keeps its promise within bounded memory: in any
    sequence a delivery is taken exactly when it is not among the last 512
    that were taken. *)
Theorem dedup_reference ids : dedup_results dedup_new ids = window_results DELIVERY_DEDUP_CAPACITY [] ids.
Proof.
  assert (dedup_ok [] dedup_new) as Hok by (split; [done|split; [constructor|split; [done|cbn; lia]]]).
  revert Hok. generalize (@nil str) as taken, dedup_new as d. induction ids as [|id ids IH]; intros taken d Hok; cbn; [done|].
  pose proof (dedup_insert_ok taken id d Hok) as H. destruct (dedup_insert id d) as [r d']. destruct H as [-> Hok'].
  case_bool_decide; cbn in *; f_equal; by apply IH.
Qed.

(** * The buffer is bounded, and shows a message once *)

Inductive BufferOp :=
| BufPushPending (nonce display_name text : str) (at_ : instant)
| BufFail (nonce : str)
| BufMarkSent (nonce message_id : str)
| BufUpsert (p : ParsedChatMessage) (at_ : instant)
| BufRemove (message_id : str)
| BufClear.

Definition buffer_step (b : list TwitchMessage) (op : BufferOp) : list TwitchMessage :=
  match op with
  | BufPushPending nonce display_name text at_ => fst (push_pending nonce display_name text at_ b)
  | BufFail nonce => fail_pending nonce b
  | BufMarkSent nonce message_id => mark_sent nonce message_id b
  | BufUpsert p at_ => upsert_received p at_ b
  | BufRemove message_id => remove_message message_id b
  | BufClear => []
  end.

(** The ids given by Twitch; a message on its way has none. *)
Definition given_ids (b : list TwitchMessage) : list str := filter (λ id, id ≠ []) (tm_id <$> b).

Definition buffer_ok (b : list TwitchMessage) : Prop :=
  (length b ≤ TWITCH_MESSAGE_BUFFER_MAX)%nat ∧ (pending_count b ≤ TWITCH_PENDING_SEND_MAX)%nat ∧ NoDup (given_ids b)
  ∧ Forall (λ m, is_pending m = true → tm_id m = []) b.

(** An id Twitch gives to a message sent is new to the buffer. *)
Definition op_fresh (b : list TwitchMessage) (op : BufferOp) : Prop :=
  match op with
  | BufMarkSent _ message_id => message_id ∉ tm_id <$> b
  | _ => True
  end.

Fixpoint ops_fresh (b : list TwitchMessage) (ops : list BufferOp) : Prop :=
  match ops with [] => True | op :: ops => op_fresh b op ∧ ops_fresh (buffer_step b op) ops end.

Lemma change_first_app {A} (p : A → bool) f l :
  existsb p l = true → ∃ l1 x l2, l = l1 ++ x :: l2 ∧ p x = true ∧ Forall (λ y, p y = false) l1 ∧ change_first p f l = l1 ++ f x :: l2.
Proof.
  induction l as [|y l IH]; cbn; [done|]. destruct (p y) eqn:E; [intros _; by exists [], y, l|]. cbn. intros Hl.
  destruct (IH Hl) as (l1 & x & l2 & -> & Hx & Hl1 & ->). exists (y :: l1), x, l2. split; [done|]. split; [done|]. split; [by constructor|done].
Qed.

Lemma change_first_none {A} (p : A → bool) f l : existsb p l = false → change_first p f l = l.
Proof. induction l as [|y l IH]; cbn; [done|]. destruct (p y); [done|]. cbn. intros Hl. by rewrite IH. Qed.

Lemma pending_count_app l k : pending_count (l ++ k) = (pending_count l + pending_count k)%nat.
Proof. unfold pending_count. by rewrite filter_app, length_app. Qed.

Lemma pending_count_cons m l : pending_count (m :: l) = ((if is_pending m then 1 else 0) + pending_count l)%nat.
Proof. unfold pending_count. destruct (is_pending m) eqn:E; [rewrite filter_cons_True by done|rewrite filter_cons_False by congruence]; done. Qed.

Lemma given_ids_app l k : given_ids (l ++ k) = given_ids l ++ given_ids k.
Proof. unfold given_ids. by rewrite fmap_app, filter_app. Qed.

Lemma given_ids_cons m l : given_ids (m :: l) = (if bool_decide (tm_id m = []) then [] else [tm_id m]) ++ given_ids l.
Proof.
  unfold given_ids. rewrite fmap_cons. case_bool_decide; [rewrite filter_cons_False by (intros E; done)|rewrite filter_cons_True by done]; done.
Qed.

Lemma given_ids_sub x l : x ∈ given_ids l → x ∈ tm_id <$> l.
Proof. unfold given_ids. by intros [_ Hx]%list_elem_of_filter. Qed.

Lemma buffer_ok_push m b :
  buffer_ok b → (is_pending m = true → tm_id m = [] ∧ (pending_count b < TWITCH_PENDING_SEND_MAX)%nat) →
  (tm_id m ≠ [] → tm_id m ∉ tm_id <$> b) → buffer_ok (buffer_push m b).
Proof.
  intros (H1 & H2 & H3 & H4) Hm Hn. unfold buffer_push.
  set (b' := if (length b =? TWITCH_MESSAGE_BUFFER_MAX)%nat then drop 1 b else b).
  assert (0 < TWITCH_MESSAGE_BUFFER_MAX)%nat as Hmax by (apply Nat.ltb_lt; by vm_compute).
  assert ((length b' < TWITCH_MESSAGE_BUFFER_MAX)%nat ∧ ∃ l, b = l ++ b') as [Hl [l Eb]].
  { unfold b'. destruct (Nat.eqb_spec (length b) TWITCH_MESSAGE_BUFFER_MAX); [|split; [lia|by exists []]].
    rewrite length_drop. split; [lia|]. exists (take 1 b). by rewrite take_drop. }
  clearbody b'. subst b. rewrite pending_count_app in *. rewrite given_ids_app in H3. apply NoDup_app in H3 as (_ & _ & H3).
  apply Forall_app in H4 as [_ H4]. split; [rewrite length_app; cbn; lia|]. split; [|split].
  - rewrite pending_count_app, pending_count_cons. change (pending_count []) with 0%nat. destruct (is_pending m); [destruct (Hm eq_refl)|]; lia.
  - rewrite given_ids_app, given_ids_cons. change (given_ids []) with (@nil str). rewrite app_nil_r.
    apply NoDup_app. split; [done|]. case_bool_decide as E; [split; [by intros x _ ?%elem_of_nil|constructor]|].
    split; [|apply NoDup_singleton]. intros x Hx%given_ids_sub ->%list_elem_of_singleton. apply Hn; [done|]. rewrite fmap_app. apply elem_of_app. by right.
  - apply Forall_app. split; [done|]. apply Forall_singleton. intros Hp. by apply Hm.
Qed.

(** A message changed in place. *)
Lemma buffer_ok_change l1 m m' l2 :
  buffer_ok (l1 ++ m :: l2) → is_pending m' = false → (tm_id m' = tm_id m ∨ tm_id m' = [] ∨ tm_id m' ∉ tm_id <$> (l1 ++ m :: l2)) →
  buffer_ok (l1 ++ m' :: l2).
Proof.
  intros (H1 & H2 & H3 & H4) Hp Hid. rewrite length_app in H1. rewrite pending_count_app, pending_count_cons in H2.
  rewrite given_ids_app, given_ids_cons in H3. apply Forall_app in H4 as [H4 H5]. inversion H5; subst.
  split; [rewrite length_app; exact H1|]. split; [rewrite pending_count_app, pending_count_cons, Hp; lia|]. split.
  - rewrite given_ids_app, given_ids_cons. destruct Hid as [->|[-> |Hid]]; [done| |].
    + rewrite bool_decide_true by done. cbn [app]. apply NoDup_app in H3 as (N1 & N2 & N3). apply NoDup_app in N3 as (_ & _ & N3).
      apply NoDup_app. split; [done|]. split; [|done]. intros x Hx Hx2. apply (N2 x Hx). apply elem_of_app. by right.
    + assert (tm_id m' ∉ given_ids l1 ∧ tm_id m' ∉ given_ids l2) as [F1 F2].
      { split; intros Hx%given_ids_sub; apply Hid; rewrite fmap_app, fmap_cons; [apply elem_of_app; by left|apply elem_of_app; right; by right]. }
      apply NoDup_app in H3 as (N1 & N2 & N3). apply NoDup_app in N3 as (_ & _ & N3).
      destruct (bool_decide (tm_id m' = [])) eqn:E; cbn [app]; apply NoDup_app; (split; [done|]); (split; [|first [done|by constructor]]); intros x Hx.
      * intros Hx2. apply (N2 x Hx). apply elem_of_app. by right.
      * intros [->|Hx2]%elem_of_cons; [done|]. apply (N2 x Hx). apply elem_of_app. by right.
  - apply Forall_app. split; [done|]. constructor; [congruence|done].
Qed.

Lemma buffer_step_ok b op : buffer_ok b → op_fresh b op → buffer_ok (buffer_step b op).
Proof.
  intros Hb Hf. destruct op as [nonce name text at_|nonce|nonce message_id|p at_|message_id|]; cbn [buffer_step].
  - unfold push_pending. destruct (Nat.leb_spec TWITCH_PENDING_SEND_MAX (pending_count b)) as [|Hl]; [done|]. cbn [fst].
    apply buffer_ok_push; [done|done|]. intros E. done.
  - unfold fail_pending. destruct (existsb (is_pending_nonce nonce) b) eqn:E; [|by rewrite change_first_none].
    destruct (change_first_app _ (λ m, m <| tm_send_state := SendFailed |>) _ E) as (l1 & m & l2 & -> & _ & _ & ->).
    apply (buffer_ok_change l1 m); [done|done|by left].
  - unfold mark_sent. destruct (existsb (is_pending_nonce nonce) b) eqn:E; [|by rewrite change_first_none].
    destruct (change_first_app _ (λ m, m <| tm_send_state := SendReceived |> <| tm_id := message_id |>) _ E) as (l1 & m & l2 & -> & _ & _ & ->).
    apply (buffer_ok_change l1 m); [done|done|by right; right].
  - unfold upsert_received. destruct (existsb (has_id (pm_id p)) b) eqn:E.
    + set (received := _ <| tm_client_nonce := _ |>). destruct (change_first_app _ (λ _, received) _ E) as (l1 & m & l2 & Eb & Hm & _ & ->).
      assert (tm_id received = tm_id m) as Eid by (apply bool_decide_eq_true in Hm; done).
      assert (is_pending received = false) as Hp by done. clearbody received. subst b.
      apply (buffer_ok_change l1 m); [done|done|by left].
    + apply buffer_ok_push; [done|done|]. intros _ Hin. apply list_elem_of_fmap in Hin as (m & Em & Hm).
      assert (existsb (has_id (pm_id p)) b = true) as Ex; [|congruence]. apply existsb_exists. exists m.
      split; [by apply list_elem_of_In|]. apply bool_decide_eq_true. done.
  - destruct Hb as (H1 & H2 & H3 & H4). unfold remove_message. split; [etrans; [apply length_filter|done]|]. split; [|split].
    + etrans; [|exact H2]. unfold pending_count. clear. induction b as [|m b IH]; [done|].
      rewrite (filter_cons (λ m, tm_id m ≠ message_id)). destruct (decide _).
      * rewrite !filter_cons. destruct (decide _); cbn; lia.
      * rewrite (filter_cons (λ m, is_pending m = true) m). destruct (decide _); cbn; lia.
    + eapply sublist_NoDup; [exact H3|]. unfold given_ids. clear. induction b as [|m b IH]; [constructor|].
      rewrite (filter_cons (λ m, tm_id m ≠ message_id)), fmap_cons. destruct (decide _).
      * rewrite fmap_cons, !filter_cons. destruct (decide _); [by constructor|done].
      * rewrite filter_cons. destruct (decide _); [by constructor|done].
    + rewrite Forall_forall in *. intros m [_ Hm]%list_elem_of_filter. by apply H4.
  - split; [cbn; lia|]. split; [cbn; lia|]. split; constructor.
Qed.

(** However messages are sent, answered, received, deleted and cleared: the
    buffer never holds more than 200 messages, of which at most eight are on
    their way, and shows no message of Twitch twice. *)
Theorem chat_buffer_bounded ops (Hfresh : ops_fresh [] ops) :
  let b := foldl buffer_step [] ops in
  (length b ≤ TWITCH_MESSAGE_BUFFER_MAX)%nat ∧ (pending_count b ≤ TWITCH_PENDING_SEND_MAX)%nat ∧ NoDup (given_ids b).
Proof.
  assert (buffer_ok []) as Hok by (split; [cbn; lia|split; [cbn; lia|split; constructor]]).
  revert Hok Hfresh. generalize (@nil TwitchMessage) as b. induction ops as [|op ops IH]; intros b Hok Hf; cbn [foldl ops_fresh] in *.
  - destruct Hok as (H1 & H2 & H3 & _). done.
  - destruct Hf as [Hf Hfs]. apply IH; [by apply buffer_step_ok|done].
Qed.

Definition example_parsed (id text : string) : ParsedChatMessage :=
  mkParsedChatMessage (lit id) (lit "Viewer") None (lit text) [FragmentText (lit text)] None.

Definition example_chat : list BufferOp :=
  [BufUpsert (example_parsed "a1" "hi") 0; BufPushPending (lit "7") (lit "me") (lit "hello") 1; BufMarkSent (lit "7") (lit "b2");
   BufUpsert (example_parsed "b2" "hello") 2; BufPushPending (lit "8") (lit "me") (lit "again") 3; BufFail (lit "8"); BufRemove (lit "a1")].

Lemma chat_buffer_bounded_witness :
  (λ m, (tm_id m, tm_send_state m)) <$> foldl buffer_step [] example_chat = [(lit "b2", SendReceived); ([], SendFailed)]
  ∧ NoDup (given_ids (foldl buffer_step [] example_chat)).
Proof.
  split; [by vm_compute|]. apply (chat_buffer_bounded example_chat).
  split; [done|]. split; [done|]. split; [vm_compute; set_solver|]. by repeat split.
Defined.

(** A reader of one chat message with an emote. *)
#[local] Instance example_eventsub : EventSubJson := {|
  es_json := unit;
  envelope_of _ := Some (mkEnvelopeWire (lit "delivery-1") (lit "notification") (Some (lit "channel.chat.message")) (Some (lit "1")) tt);
  session_of _ := None;
  chat_message_of _ := Some (mkChatMessageWire (lit "42") (Some (lit "viewer")) (Some (lit " Viewer ")) (lit "a1") (Some (lit "#FF8000"))
                               (lit "hi Kappa") (Some tt) None);
  chat_clear_of _ := None;
  chat_delete_of _ := None;
  revocation_of _ := None;
  fragments_of _ := Some [mkChatFragmentWire (lit "text") (lit "hi ") None; mkChatFragmentWire (lit "emote") (lit "Kappa") (Some (lit "25"))];
  reply_of _ := None
|}.

(** No text is a URL. *)
#[local] Instance example_no_urls : WebUrls := λ _, None.

Definition example_event : EventSubMessage :=
  mkEventSubMessage (lit "delivery-1")
    (EventChatMessage (lit "42")
       (mkParsedChatMessage (lit "a1") (lit "Viewer") (Some (255, 128, 0)) (lit "hi Kappa") [FragmentText (lit "hi "); FragmentEmote (lit "25") (lit "Kappa")] None)).

Lemma eventsub_messages_clean_witness :
  parse_eventsub_message (lit "{}") = Some (Ok example_event) ∧ event_kind_ok (em_kind example_event).
Proof.
  split; [by vm_compute|]. apply (eventsub_messages_clean (lit "{}") example_event). by vm_compute.
Defined.

Lemma eventsub_reading_ends_witness : is_Some (parse_eventsub_message (lit "{}")).
Proof.
  apply (eventsub_reading_ends (lit "{}")). intros payload event color [= <-] [= <-]. vm_compute. repeat constructor.
Defined.
