(* ===== verification/TwitchHttp.v ===== *)
(** The requests the overlay makes to Twitch and what it takes of the answers
    ([crates/overcrow-overlay/src/twitch/http.rs]). [ureq], [url] and
    [serde_json] are parameters. *)

From S2P Require Import Prelude Ordered Text Decimal Timing Http TwitchChat.

Definition DEVICE_URL : str := lit "https://id.twitch.tv/oauth2/device".
Definition TOKEN_URL : str := lit "https://id.twitch.tv/oauth2/token".
Definition VALIDATE_URL : str := lit "https://id.twitch.tv/oauth2/validate".
Definition REVOKE_URL : str := lit "https://id.twitch.tv/oauth2/revoke".
Definition USERS_URL : str := lit "https://api.twitch.tv/helix/users".
Definition EVENTSUB_SUBSCRIPTIONS_URL : str := lit "https://api.twitch.tv/helix/eventsub/subscriptions".
Definition SEND_CHAT_MESSAGE_URL : str := lit "https://api.twitch.tv/helix/chat/messages".
(** With the version of the workspace's [Cargo.toml]. *)
Definition USER_AGENT : str := lit "PlayerVox-OverCrow/0.1.0-pre-alpha.5".
Definition OAUTH_BODY_MAX_BYTES : Z := 64 * 1024.
Definition HELIX_BODY_MAX_BYTES : Z := 256 * 1024.
Definition FORM_SCOPES : str := lit "user:read:chat user:write:chat".
#[global] Arguments DEVICE_URL : simpl never.
#[global] Arguments TOKEN_URL : simpl never.
#[global] Arguments VALIDATE_URL : simpl never.
#[global] Arguments REVOKE_URL : simpl never.
#[global] Arguments USERS_URL : simpl never.
#[global] Arguments EVENTSUB_SUBSCRIPTIONS_URL : simpl never.
#[global] Arguments SEND_CHAT_MESSAGE_URL : simpl never.
#[global] Arguments USER_AGENT : simpl never.
#[global] Arguments FORM_SCOPES : simpl never.

(** [http.rs]'s own [HttpError]. *)
Inductive TwitchHttpError :=
  TwInvalidUrl | TwInvalidRequest | TwTransport | TwTimeout | TwStatus (status : Z) | TwBodyTooLarge | TwProviderResponse.
#[export] Instance TwitchHttpError_eq_dec : EqDecision TwitchHttpError.
Proof. solve_decision. Defined.

Definition twitch_http_error_text (e : TwitchHttpError) : str :=
  match e with
  | TwInvalidUrl => lit "Twitch URL policy rejected the request"
  | TwInvalidRequest => lit "invalid Twitch request"
  | TwTransport => lit "Twitch transport failed"
  | TwTimeout => lit "Twitch request timed out"
  | TwStatus status => lit "Twitch returned HTTP status " ++ show_Z status
  | TwBodyTooLarge => lit "Twitch response exceeded its limit"
  | TwProviderResponse => lit "Twitch returned an invalid response"
  end.

Record DeviceCodeGrant := mkDeviceCodeGrant {
  dg_device_code : str; dg_user_code : str; dg_verification_uri : str; dg_expires_in_secs : Z; dg_interval_secs : Z
}.
Record TwitchToken := mkTwitchToken { tk_access_token : str; tk_refresh_token : str; tk_expires_in_secs : Z; tk_scopes : list str }.
Inductive TokenPoll := PollPending | PollSlowDown | PollDenied | PollExpired | PollAuthorized (token : TwitchToken).
Record TokenValidation := mkTokenValidation {
  tv_client_id : str; tv_login : str; tv_user_id : str; tv_scopes : list str; tv_expires_in_secs : Z
}.
Inductive ChatSubscription := SubMessage | SubClear | SubMessageDelete.
Record ChatSendResult := mkChatSendResult { cs_message_id : option str; cs_is_sent : bool }.

Definition event_type (s : ChatSubscription) : str :=
  match s with
  | SubMessage => lit "channel.chat.message"
  | SubClear => lit "channel.chat.clear"
  | SubMessageDelete => lit "channel.chat.message_delete"
  end.

(** * What is checked before a request *)

Definition when_valid (valid : bool) : result TwitchHttpError unit := if valid then Ok tt else Err TwInvalidRequest.

Definition client_id_character (c : char) : bool := is_ascii_alphanumeric c || (c =? 95) || (c =? 45).
(** Neither an ASCII control character nor ASCII white space. *)
Definition secret_character (c : char) : bool := negb ((c <=? 32) || (c =? 127)).
Definition login_character (c : char) : bool := is_ascii_alphanumeric c || (c =? 95).

Definition validate_client_id (value : str) : result TwitchHttpError unit := when_valid (bounded_ascii 128 client_id_character value).
Definition validate_secret (value : str) : result TwitchHttpError unit := when_valid (bounded_ascii (4 * 1024) secret_character value).
Definition validate_login (value : str) : result TwitchHttpError unit := when_valid (bounded_ascii 25 login_character value).
Definition validate_provider_id (value : str) : result TwitchHttpError unit :=
  when_valid (bounded_ascii 256 (λ c, is_ascii_alphanumeric c || (c =? 45) || (c =? 95) || (c =? 46)) value).
Definition validate_numeric_id (value : str) : result TwitchHttpError unit := when_valid (bounded_ascii 32 is_ascii_digit value).
Definition validate_chat_text (value : str) : result TwitchHttpError unit :=
  when_valid (negb (bool_decide (value = []) || (500 <? length (take 501 value))%nat || existsb is_control value)).

Definition validate_exact_https `{WebUrls} (value host : str) : result TwitchHttpError unit :=
  parsed ← ok_or TwInvalidUrl (parse_url value);
  if negb (str_eqb (pu_scheme parsed) (lit "https")) || negb (bool_decide (pu_username parsed = [])) || isSome (pu_password parsed)
     || negb (is_some_and (λ actual, eq_ignore_ascii_case actual host) (pu_host_str parsed))
     || negb (bool_decide (pu_port parsed = Some 443)) || isSome (pu_fragment parsed)
  then Err TwInvalidUrl else Ok tt.

Definition pairs_of_key (key : string) (pairs : list (str * str)) : list (str * str) := filter (λ pair, pair.1 = lit key) pairs.

Definition validate_verification_uri `{WebUrls} (value : str) : result TwitchHttpError unit :=
  _ ← validate_exact_https value (lit "www.twitch.tv");
  parsed ← ok_or TwInvalidUrl (parse_url value);
  if negb (str_eqb (pu_path parsed) (lit "/activate")) || isSome (pu_fragment parsed) then Err TwInvalidUrl
  else if isNone (pu_query parsed) then Ok tt
  else
    let pairs := pu_query_pairs parsed in
    let device_code_ok := match pairs_of_key "device-code" pairs with [(_, code)] => bounded_ascii 128 client_id_character code | _ => false end in
    let only_allowed_keys := forallb (λ pair, str_eqb pair.1 (lit "device-code") || str_eqb pair.1 (lit "public")) pairs in
    let public_ok := match pairs_of_key "public" pairs with [] => true | [(_, value)] => str_eqb value (lit "true") | _ => false end in
    if ((length pairs =? 1)%nat || (length pairs =? 2)%nat) && device_code_ok && only_allowed_keys && public_ok then Ok tt
    else Err TwInvalidUrl.

Definition validate_grant `{WebUrls} (grant : DeviceCodeGrant) : result TwitchHttpError unit :=
  _ ← validate_verification_uri (dg_verification_uri grant);
  _ ← validate_secret (dg_device_code grant);
  if negb (bounded_ascii 64 (λ c, is_ascii_alphanumeric c || (c =? 45)) (dg_user_code grant))
     || negb ((1 <=? dg_interval_secs grant) && (dg_interval_secs grant <=? 60))
     || negb ((1 <=? dg_expires_in_secs grant) && (dg_expires_in_secs grant <=? 1800))
  then Err TwProviderResponse else Ok tt.

(** * The documents *)

Record DeviceCodeWire := mkDeviceCodeWire { dw_device_code : str; dw_user_code : str; dw_verification_uri : str; dw_expires_in : Z; dw_interval : Z }.
Record TokenWire := mkTokenWire { tw_access_token : str; tw_refresh_token : str; tw_expires_in : Z; tw_scope : list str }.
Record ValidationWire := mkValidationWire { vw_client_id : str; vw_login : str; vw_scopes : list str; vw_user_id : str; vw_expires_in : Z }.
Record UserWire := mkUserWire { uw_id : str; uw_login : str }.
Record SubscriptionWire := mkSubscriptionWire { sb_id : str; sb_status : str; sb_event_type : str }.
Record SendWire := mkSendWire { sd_message_id : str; sd_is_sent : bool }.

(** [serde_json] on them, and [Url::parse] with [query_pairs_mut] on the
    address of a user. *)
Class TwitchJson := {
  device_code_of : list Z → option DeviceCodeWire;
  oauth_error_of : list Z → option str;
  token_of : list Z → option TokenWire;
  validation_of : list Z → option ValidationWire;
  users_of : list Z → option (list UserWire);
  subscriptions_of : list Z → option (list SubscriptionWire);
  sends_of : list Z → option (list SendWire);
  url_with_pair : str → str → str → option str
}.

Definition is_success (status : Z) : bool := (200 <=? status) && (status <? 300).

Definition read_body (r : HttpResponse) (max : Z) : result TwitchHttpError (list Z) :=
  let limit := saturating_add u64_max max 1 in
  body ← (if limit <=? Z.of_nat (length (hr_body r)) then Ok (take (Z.to_nat limit) (hr_body r))
          else match hr_body_failure r with
               | None => Ok (hr_body r)
               | Some (timed_out, _) => Err (if timed_out : bool then TwTimeout else TwTransport)
               end);
  if max <? Z.of_nat (length body) then Err TwBodyTooLarge else Ok body.

Definition read_success (r : HttpResponse) (max : Z) : result TwitchHttpError (list Z) :=
  if is_success (hr_status r) then read_body r max else Err (TwStatus (hr_status r)).

Definition response_of (answer : HttpAnswer) : result TwitchHttpError HttpResponse :=
  match answer with
  | AnsweredTimeout => Err TwTimeout
  | AnsweredFailure _ => Err TwTransport
  | AnsweredResponse r => Ok r
  end.

(** The error of a document is the service's, whatever was wrong. *)
Definition provider_response {T} (r : result TwitchHttpError T) : result TwitchHttpError T := map_error (λ _, TwProviderResponse) r.

Section documents.
Context `{TwitchJson}.

Definition parse_token_response (body : list Z) : result TwitchHttpError TwitchToken :=
  wire ← ok_or TwProviderResponse (token_of body);
  _ ← validate_secret (tw_access_token wire);
  _ ← validate_secret (tw_refresh_token wire);
  if (tw_expires_in wire =? 0) || (31536000 <? tw_expires_in wire) || (16 <? length (tw_scope wire))%nat
     || existsb (λ scope, bool_decide (scope = []) || (128 <? str_len scope) || existsb (λ c, (c <=? 31) || (c =? 127)) scope) (tw_scope wire)
  then Err TwProviderResponse
  else Ok (mkTwitchToken (tw_access_token wire) (tw_refresh_token wire) (tw_expires_in wire) (tw_scope wire)).

Definition parse_user_response (body : list Z) (expected_login : str) : result TwitchHttpError str :=
  _ ← provider_response (validate_login expected_login);
  data ← ok_or TwProviderResponse (users_of body);
  wire ← ok_or TwProviderResponse (only data);
  _ ← provider_response (validate_numeric_id (uw_id wire));
  _ ← provider_response (validate_login (uw_login wire));
  if str_eqb (uw_login wire) expected_login then Ok (uw_id wire) else Err TwProviderResponse.

Definition parse_subscription_response (body : list Z) (expected : ChatSubscription) : result TwitchHttpError unit :=
  data ← ok_or TwProviderResponse (subscriptions_of body);
  wire ← ok_or TwProviderResponse (only data);
  _ ← provider_response (validate_provider_id (sb_id wire));
  if str_eqb (sb_status wire) (lit "enabled") && str_eqb (sb_event_type wire) (event_type expected) then Ok tt else Err TwProviderResponse.

Definition parse_send_response (body : list Z) : result TwitchHttpError ChatSendResult :=
  data ← ok_or TwProviderResponse (sends_of body);
  wire ← ok_or TwProviderResponse (only data);
  message_id ← (if bool_decide (sd_message_id wire = []) then Ok None
                else _ ← provider_response (validate_provider_id (sd_message_id wire)); Ok (Some (sd_message_id wire)));
  if sd_is_sent wire && isNone message_id then Err TwProviderResponse else Ok (mkChatSendResult message_id (sd_is_sent wire)).
End documents.

(** * The requests *)

Inductive TwitchBody :=
| NoBody
| FormBody (fields : list (str * str))
| SubscriptionBody (event_type version broadcaster_user_id user_id method session_id : str)
| SendChatBody (broadcaster_id sender_id message : str) (reply_parent_message_id : option str).

Record TwitchRequest := mkTwitchRequest { tq_post : bool; tq_url : str; tq_headers : list (str * str); tq_body : TwitchBody }.

(** A call of the trait: refused before anything is sent, or one request and
    the reading of its answer. *)
Definition http_call (T : Type) : Type := result TwitchHttpError (TwitchRequest * (HttpAnswer → result TwitchHttpError T)).

(** The call where requests are answered so: what was sent and the result. *)
Definition run_call {T} (answers : TwitchRequest → HttpAnswer) (c : http_call T) : list TwitchRequest * result TwitchHttpError T :=
  match c with
  | Err e => ([], Err e)
  | Ok (request, read) => ([request], read (answers request))
  end.

Definition header_agent : str * str := (lit "User-Agent", USER_AGENT).
Definition header_accept : str * str := (lit "Accept", lit "application/json").
Definition header_client_id (client_id : str) : str * str := (lit "Client-Id", client_id).
Definition header_bearer (access_token : str) : str * str := (lit "Authorization", lit "Bearer " ++ access_token).
Definition helix_headers (client_id access_token : str) : list (str * str) :=
  [header_agent; header_accept; header_client_id client_id; header_bearer access_token].

Section requests.
Context `{WebUrls, TwitchJson}.

(** A response with a success status, and what is made of its body. *)
Definition reading {T} (max : Z) (parse : list Z → result TwitchHttpError T) (answer : HttpAnswer) : result TwitchHttpError T :=
  response ← response_of answer;
  body ← read_success response max;
  parse body.

Definition begin_device_authorization (client_id : str) : http_call DeviceCodeGrant :=
  _ ← validate_client_id client_id;
  Ok (mkTwitchRequest true DEVICE_URL [header_agent; header_accept] (FormBody [(lit "client_id", client_id); (lit "scopes", FORM_SCOPES)]),
      reading OAUTH_BODY_MAX_BYTES (λ body,
        wire ← ok_or TwProviderResponse (device_code_of body);
        let grant := mkDeviceCodeGrant (dw_device_code wire) (dw_user_code wire) (dw_verification_uri wire) (dw_expires_in wire) (dw_interval wire) in
        _ ← validate_grant grant;
        Ok grant)).

Definition read_poll (answer : HttpAnswer) : result TwitchHttpError TokenPoll :=
  response ← response_of answer;
  let status := hr_status response in
  body ← read_body response OAUTH_BODY_MAX_BYTES;
  if is_success status then PollAuthorized <$> parse_token_response body
  else
    message ← ok_or (TwStatus status) (oauth_error_of body);
    if str_eqb message (lit "authorization_pending") then Ok PollPending
    else if str_eqb message (lit "slow_down") then Ok PollSlowDown
    else if str_eqb message (lit "access_denied") then Ok PollDenied
    else if str_eqb message (lit "expired_token") then Ok PollExpired
    else Err (TwStatus status).

Definition poll_device_token (client_id device_code : str) : http_call TokenPoll :=
  _ ← validate_client_id client_id;
  _ ← validate_secret device_code;
  Ok (mkTwitchRequest true TOKEN_URL [header_agent; header_accept]
        (FormBody [(lit "client_id", client_id); (lit "scopes", FORM_SCOPES); (lit "device_code", device_code);
                   (lit "grant_type", lit "urn:ietf:params:oauth:grant-type:device_code")]),
      read_poll).

Definition refresh_token (client_id token : str) : http_call TwitchToken :=
  _ ← validate_client_id client_id;
  _ ← validate_secret token;
  Ok (mkTwitchRequest true TOKEN_URL [header_agent; header_accept]
        (FormBody [(lit "grant_type", lit "refresh_token"); (lit "refresh_token", token); (lit "client_id", client_id)]),
      reading OAUTH_BODY_MAX_BYTES parse_token_response).

Definition validate_token (access_token : str) : http_call TokenValidation :=
  _ ← validate_secret access_token;
  Ok (mkTwitchRequest false VALIDATE_URL [header_agent; header_accept; (lit "Authorization", lit "OAuth " ++ access_token)] NoBody,
      reading OAUTH_BODY_MAX_BYTES (λ body,
        wire ← ok_or TwProviderResponse (validation_of body);
        Ok (mkTokenValidation (vw_client_id wire) (vw_login wire) (vw_user_id wire) (vw_scopes wire) (vw_expires_in wire)))).

Definition revoke_token (client_id access_token : str) : http_call unit :=
  _ ← validate_client_id client_id;
  _ ← validate_secret access_token;
  Ok (mkTwitchRequest true REVOKE_URL [header_agent] (FormBody [(lit "client_id", client_id); (lit "token", access_token)]),
      reading OAUTH_BODY_MAX_BYTES (λ _, Ok tt)).

Definition resolve_channel (client_id access_token login : str) : http_call str :=
  _ ← validate_client_id client_id;
  _ ← validate_secret access_token;
  _ ← validate_login login;
  url ← ok_or TwInvalidUrl (url_with_pair USERS_URL (lit "login") login);
  Ok (mkTwitchRequest false url (helix_headers client_id access_token) NoBody,
      reading HELIX_BODY_MAX_BYTES (λ body, parse_user_response body login)).

Definition create_chat_subscription (client_id access_token session_id broadcaster_user_id user_id : str) (subscription : ChatSubscription) : http_call unit :=
  _ ← validate_client_id client_id;
  _ ← validate_secret access_token;
  _ ← validate_provider_id session_id;
  _ ← validate_numeric_id broadcaster_user_id;
  _ ← validate_numeric_id user_id;
  Ok (mkTwitchRequest true EVENTSUB_SUBSCRIPTIONS_URL (helix_headers client_id access_token)
        (SubscriptionBody (event_type subscription) (lit "1") broadcaster_user_id user_id (lit "websocket") session_id),
      reading HELIX_BODY_MAX_BYTES (λ body, parse_subscription_response body subscription)).

Definition send_chat_message (client_id access_token broadcaster_user_id sender_id message : str) (reply_parent_message_id : option str) :
    http_call ChatSendResult :=
  _ ← validate_client_id client_id;
  _ ← validate_secret access_token;
  _ ← validate_numeric_id broadcaster_user_id;
  _ ← validate_numeric_id sender_id;
  _ ← validate_chat_text message;
  _ ← match reply_parent_message_id with Some reply => validate_provider_id reply | None => Ok tt end;
  Ok (mkTwitchRequest true SEND_CHAT_MESSAGE_URL (helix_headers client_id access_token)
        (SendChatBody broadcaster_user_id sender_id message reply_parent_message_id),
      reading HELIX_BODY_MAX_BYTES parse_send_response).
End requests.

(** * What the requests and the answers are worth *)

(** Where requests go, with what kind of body. The secrets are in the headers
    and the forms, never in an address. *)
Definition addressed `{TwitchJson} (r : TwitchRequest) : Prop :=
  tq_url r ∈ [DEVICE_URL; TOKEN_URL; VALIDATE_URL; REVOKE_URL; EVENTSUB_SUBSCRIPTIONS_URL; SEND_CHAT_MESSAGE_URL]
  ∨ ∃ login, validate_login login = Ok tt ∧ url_with_pair USERS_URL (lit "login") login = Some (tq_url r).

(** No header can end its line. *)
Definition header_plain (h : str * str) : Prop := Forall (λ c, 32 ≤ c ∧ c ≠ 127) (h.2).

(** A send carries what a chat takes. *)
Definition body_fit (b : TwitchBody) : Prop :=
  match b with
  | SendChatBody broadcaster sender message reply =>
      validate_numeric_id broadcaster = Ok tt ∧ validate_numeric_id sender = Ok tt
      ∧ message ≠ [] ∧ (length message ≤ 500)%nat ∧ Forall (λ c, is_control c = false) message
      ∧ from_option (λ id, validate_provider_id id = Ok tt) True reply
  | SubscriptionBody _ _ broadcaster user _ session =>
      validate_numeric_id broadcaster = Ok tt ∧ validate_numeric_id user = Ok tt ∧ validate_provider_id session = Ok tt
  | _ => True
  end.

Definition request_safe `{TwitchJson} (r : TwitchRequest) : Prop := addressed r ∧ Forall header_plain (tq_headers r) ∧ body_fit (tq_body r).

Inductive TwitchCall :=
| CallBegin (client_id : str)
| CallPoll (client_id device_code : str)
| CallRefresh (client_id token : str)
| CallValidate (access_token : str)
| CallRevoke (client_id access_token : str)
| CallResolve (client_id access_token login : str)
| CallSubscribe (client_id access_token session_id broadcaster_user_id user_id : str) (subscription : ChatSubscription)
| CallSend (client_id access_token broadcaster_user_id sender_id message : str) (reply : option str).

Inductive TwitchResult :=
| GotGrant (g : DeviceCodeGrant) | GotPoll (p : TokenPoll) | GotToken (t : TwitchToken) | GotValidation (v : TokenValidation)
| GotRevoked | GotUser (id : str) | GotSubscribed | GotSend (s : ChatSendResult).

Definition twitch_perform `{WebUrls, TwitchJson} (answers : TwitchRequest → HttpAnswer) (c : TwitchCall) : list TwitchRequest * result TwitchHttpError TwitchResult :=
  let with_result {T} (f : T → TwitchResult) (r : list TwitchRequest * result TwitchHttpError T) := (r.1, f <$> r.2) in
  match c with
  | CallBegin client_id => with_result GotGrant (run_call answers (begin_device_authorization client_id))
  | CallPoll client_id device_code => with_result GotPoll (run_call answers (poll_device_token client_id device_code))
  | CallRefresh client_id token => with_result GotToken (run_call answers (refresh_token client_id token))
  | CallValidate access_token => with_result GotValidation (run_call answers (validate_token access_token))
  | CallRevoke client_id access_token => with_result (λ _ : unit, GotRevoked) (run_call answers (revoke_token client_id access_token))
  | CallResolve client_id access_token login => with_result GotUser (run_call answers (resolve_channel client_id access_token login))
  | CallSubscribe client_id access_token session broadcaster user subscription =>
      with_result (λ _ : unit, GotSubscribed) (run_call answers (create_chat_subscription client_id access_token session broadcaster user subscription))
  | CallSend client_id access_token broadcaster sender message reply =>
      with_result GotSend (run_call answers (send_chat_message client_id access_token broadcaster sender message reply))
  end.

Definition token_fit (t : TwitchToken) : Prop :=
  validate_secret (tk_access_token t) = Ok tt ∧ validate_secret (tk_refresh_token t) = Ok tt
  ∧ tk_expires_in_secs t ≠ 0 ∧ tk_expires_in_secs t ≤ 31536000 ∧ (length (tk_scopes t) ≤ 16)%nat.

(** What the rest of the overlay may rely on. *)
Definition result_fit `{WebUrls} (c : TwitchCall) (r : TwitchResult) : Prop :=
  match r with
  | GotGrant g =>
      url_ok (lit "https") (lit "www.twitch.tv") (dg_verification_uri g) ∧ validate_secret (dg_device_code g) = Ok tt
      ∧ 1 ≤ dg_interval_secs g ≤ 60 ∧ 1 ≤ dg_expires_in_secs g ≤ 1800
  | GotPoll (PollAuthorized t) | GotToken t => token_fit t
  | GotUser id => validate_numeric_id id = Ok tt
  | GotSend s => (cs_is_sent s = true → is_Some (cs_message_id s)) ∧ from_option (λ id, validate_provider_id id = Ok tt) True (cs_message_id s)
  | _ => True
  end.

Lemma bounded_ascii_true n p s : bounded_ascii n p s = true ↔ s ≠ [] ∧ str_len s ≤ n ∧ Forall (λ c, p c = true) s.
Proof.
  unfold bounded_ascii. rewrite !andb_true_iff, negb_true_iff, bool_decide_eq_false, Z.leb_le, forallb_Forall'. tauto.
Qed.

Lemma when_valid_Ok b : when_valid b = Ok tt ↔ b = true.
Proof. by destruct b. Qed.

Lemma result_unit {E} (r : result E unit) : r = Ok () ∨ ∃ e, r = Err e.
Proof. destruct r as [[]|e]; [by left|right; by exists e]. Qed.

(** Characters of what may stand in a header. *)
Definition plain_text (s : str) : Prop := Forall (λ c, 32 ≤ c ∧ c ≠ 127) s.

Lemma secret_plain s : validate_secret s = Ok tt → plain_text s.
Proof.
  unfold validate_secret. rewrite when_valid_Ok, bounded_ascii_true. intros (_ & _ & H). eapply Forall_impl; [exact H|].
  intros c Hc. unfold secret_character in Hc. bools. lia.
Qed.

Lemma client_id_plain s : validate_client_id s = Ok tt → plain_text s.
Proof.
  unfold validate_client_id. rewrite when_valid_Ok, bounded_ascii_true. intros (_ & _ & H). eapply Forall_impl; [exact H|].
  intros c Hc. unfold client_id_character, is_ascii_alphanumeric, is_ascii_alphabetic, is_ascii_upper, is_ascii_lower, is_ascii_digit in Hc. lia.
Qed.

Lemma plain_text_app s t : plain_text s → plain_text t → plain_text (s ++ t).
Proof. intros Hs Ht. by apply Forall_app. Qed.

Lemma plain_lit s : forallb (λ c, (32 <=? c) && negb (c =? 127)) (lit s) = true → plain_text (lit s).
Proof. rewrite forallb_Forall'. intros H. eapply Forall_impl; [exact H|]. intros c Hc. cbn in Hc. lia. Qed.

Lemma header_agent_plain : header_plain header_agent.
Proof. by apply plain_lit; vm_compute. Qed.
Lemma header_accept_plain : header_plain header_accept.
Proof. by apply plain_lit; vm_compute. Qed.

Lemma header_secret_plain scheme s :
  forallb (λ c, (32 <=? c) && negb (c =? 127)) (lit scheme) = true → validate_secret s = Ok tt → header_plain (lit "Authorization", lit scheme ++ s).
Proof. intros H1 H2. by apply plain_text_app; [apply plain_lit|apply secret_plain]. Qed.

(** A list of headers, one by one. *)
Ltac headers :=
  cbn [tq_headers];
  repeat match goal with
    | |- Forall header_plain (_ :: _) => apply Forall_cons_2
    | |- Forall header_plain [] => apply Forall_nil_2
    end; try first [apply header_agent_plain | apply header_accept_plain | apply header_secret_plain; [by vm_compute|done]].

Lemma helix_headers_plain client_id access_token :
  validate_client_id client_id = Ok tt → validate_secret access_token = Ok tt → Forall header_plain (helix_headers client_id access_token).
Proof.
  intros Hc Hs. unfold helix_headers. headers. by apply client_id_plain.
Qed.

Lemma chat_text_fit s : validate_chat_text s = Ok tt → s ≠ [] ∧ (length s ≤ 500)%nat ∧ Forall (λ c, is_control c = false) s.
Proof.
  unfold validate_chat_text. rewrite when_valid_Ok, negb_true_iff, !orb_false_iff, bool_decide_eq_false, Nat.ltb_ge, existsb_false, length_take.
  intros ((H1 & H2) & H3). split; [done|]. split; [lia|done].
Qed.

(** A call of the trait is safe: the request it makes, and what it makes of
    an answer. *)
Definition call_safe `{TwitchJson} {T} (P : T → Prop) (c : http_call T) : Prop :=
  match c with Err _ => True | Ok (request, read) => request_safe request ∧ ∀ answer x, read answer = Ok x → P x end.

Lemma call_safe_bind `{TwitchJson} {T} (P : T → Prop) (v : result TwitchHttpError unit) (k : unit → http_call T) :
  (v = Ok tt → call_safe P (k tt)) → call_safe P (mbind (M := result TwitchHttpError) k v).
Proof. destruct v as [[]|e]; cbn; auto. Qed.

Lemma run_call_safe `{TwitchJson} {T} (P : T → Prop) answers (c : http_call T) :
  call_safe P c → Forall request_safe (run_call answers c).1 ∧ (length (run_call answers c).1 ≤ 1)%nat ∧ ∀ x, (run_call answers c).2 = Ok x → P x.
Proof.
  destruct c as [[request read]|e]; cbn; [|intros _; split; [constructor|split; [lia|done]]].
  intros [Hr Hx]. split; [by constructor|]. split; [lia|]. intros x. apply Hx.
Qed.

Lemma reading_Ok {T} max (parse : list Z → result TwitchHttpError T) answer x : reading max parse answer = Ok x → ∃ body, parse body = Ok x.
Proof.
  unfold reading. intros (r & _ & Hr)%result_bind_Ok. apply result_bind_Ok in Hr as (body & _ & Hb). by exists body.
Qed.

Ltac call_steps := repeat (apply call_safe_bind; intro).
Ltac addressed_here := left; repeat (first [by left | right]).

Section safety.
Context `{WebUrls, TwitchJson}.

Lemma validate_verification_uri_ok uri : validate_verification_uri uri = Ok tt → url_ok (lit "https") (lit "www.twitch.tv") uri.
Proof.
  unfold validate_verification_uri, validate_exact_https. destruct (parse_url uri) as [u|] eqn:E; [|done]. cbn [ok_or mbind result_bind].
  match goal with |- context [if ?b then Err TwInvalidUrl else Ok tt] => destruct b eqn:Eb; [done|] end. intros _.
  rewrite !orb_false_iff, !negb_false_iff in Eb. destruct Eb as (((((Hs & Hn) & Hp) & Hh) & Hport) & Hf).
  exists u. apply is_some_and_true in Hh. split_and!; [done|by apply str_eqb_eq|by apply bool_decide_eq_true in Hn| |done|by apply bool_decide_eq_true in Hport|].
  - by destruct (pu_password u).
  - by destruct (pu_fragment u).
Qed.

Lemma validate_grant_ok g : validate_grant g = Ok tt → result_fit (CallBegin []) (GotGrant g).
Proof.
  unfold validate_grant. intros ([] & Hu & Hg)%result_bind_Ok. apply result_bind_Ok in Hg as ([] & Hs & Hg).
  destruct (_ || _ || _) eqn:E; [done|]. rewrite !orb_false_iff, !negb_false_iff in E. destruct E as ((_ & H1) & H2).
  cbn. split; [by apply validate_verification_uri_ok|]. split; [done|]. lia.
Qed.

Lemma parse_token_response_ok body t : parse_token_response body = Ok t → token_fit t.
Proof.
  unfold parse_token_response. intros (w & _ & Hw)%result_bind_Ok. apply result_bind_Ok in Hw as ([] & Ha & Hw).
  apply result_bind_Ok in Hw as ([] & Hr & Hw). destruct (_ || _ || _ || _) eqn:E; [done|]. injection Hw as <-.
  rewrite !orb_false_iff in E. destruct E as (((H1 & H2) & H3) & _). unfold token_fit. cbn. split_and!; [done|done|lia|lia|].
  by apply Nat.ltb_ge in H3.
Qed.

Lemma read_poll_ok answer p : read_poll answer = Ok p → result_fit (CallBegin []) (GotPoll p).
Proof.
  unfold read_poll. intros (r & _ & Hr)%result_bind_Ok. apply result_bind_Ok in Hr as (body & _ & Hb).
  destruct (is_success _).
  - destruct (parse_token_response body) as [t|] eqn:E; [|done]. injection Hb as <-. by apply parse_token_response_ok in E.
  - apply result_bind_Ok in Hb as (m & _ & Hb). by repeat (destruct (str_eqb m _); [by injection Hb as <-|]).
Qed.

Lemma provider_response_Ok {T} (r : result TwitchHttpError T) x : provider_response r = Ok x → r = Ok x.
Proof. apply map_error_Ok. Qed.

Lemma parse_send_response_ok body s : parse_send_response body = Ok s → result_fit (CallBegin []) (GotSend s).
Proof.
  unfold parse_send_response. intros (data & _ & Hw)%result_bind_Ok. apply result_bind_Ok in Hw as (w & _ & Hw).
  apply result_bind_Ok in Hw as (id & Hid & Hw). destruct (_ && _) eqn:E; [done|]. injection Hw as <-. cbn.
  case_bool_decide; [|apply result_bind_Ok in Hid as ([] & Hv%provider_response_Ok & Hid)]; injection Hid as <-; cbn in *.
  - split; [|done]. intros Hs. by rewrite Hs in E.
  - split; [by eexists|done].
Qed.

Lemma begin_device_authorization_safe client_id :
  call_safe (λ g, result_fit (CallBegin []) (GotGrant g)) (begin_device_authorization client_id).
Proof.
  unfold begin_device_authorization. call_steps. cbn. split.
  - split; [addressed_here|]. split; [|done]. headers.
  - intros answer g (body & Hb)%reading_Ok. apply result_bind_Ok in Hb as (w & _ & Hb).
    apply result_bind_Ok in Hb as ([] & Hg & Hb). injection Hb as <-. by apply validate_grant_ok in Hg.
Qed.

Lemma poll_device_token_safe client_id code : call_safe (λ p, result_fit (CallBegin []) (GotPoll p)) (poll_device_token client_id code).
Proof.
  unfold poll_device_token. call_steps. cbn [call_safe]. split; [|apply read_poll_ok].
  split; [addressed_here|]. split; [|done]. headers.
Qed.

Lemma refresh_token_safe client_id token : call_safe token_fit (refresh_token client_id token).
Proof.
  unfold refresh_token. call_steps. cbn [call_safe]. split; [|by intros answer t (body & Hb%parse_token_response_ok)%reading_Ok].
  split; [addressed_here|]. split; [|done]. headers.
Qed.

Lemma validate_token_safe token : call_safe (λ _, True) (validate_token token).
Proof.
  unfold validate_token. call_steps. cbn [call_safe]. split; [|done].
  split; [addressed_here|]. split; [|done]. headers.
Qed.

Lemma revoke_token_safe client_id token : call_safe (λ _, True) (revoke_token client_id token).
Proof.
  unfold revoke_token. call_steps. cbn [call_safe]. split; [|done].
  split; [addressed_here|]. split; [|done]. headers.
Qed.

Lemma resolve_channel_safe client_id token login : call_safe (λ id, validate_numeric_id id = Ok tt) (resolve_channel client_id token login).
Proof.
  unfold resolve_channel. call_steps. destruct (url_with_pair _ _ _) as [url|] eqn:Eu; [|done]. cbn [ok_or mbind result_bind call_safe]. split.
  - split; [right; by exists login|]. split; [by apply helix_headers_plain|done].
  - intros answer id (body & Hb)%reading_Ok. unfold parse_user_response in Hb. apply result_bind_Ok in Hb as (? & _ & Hb).
    apply result_bind_Ok in Hb as (data & _ & Hb). apply result_bind_Ok in Hb as (w & _ & Hb).
    apply result_bind_Ok in Hb as ([] & Hn%provider_response_Ok & Hb). apply result_bind_Ok in Hb as (? & _ & Hb).
    destruct (str_eqb _ _); [|done]. by injection Hb as <-.
Qed.

Lemma create_chat_subscription_safe client_id token session broadcaster user subscription :
  call_safe (λ _, True) (create_chat_subscription client_id token session broadcaster user subscription).
Proof.
  unfold create_chat_subscription. call_steps. cbn [call_safe]. split; [|done].
  split; [addressed_here|]. split; [by apply helix_headers_plain|done].
Qed.

Lemma send_chat_message_safe client_id token broadcaster sender message reply :
  call_safe (λ s, result_fit (CallBegin []) (GotSend s)) (send_chat_message client_id token broadcaster sender message reply).
Proof.
  unfold send_chat_message. call_steps. cbn [call_safe]. split; [|by intros answer s (body & Hb%parse_send_response_ok)%reading_Ok].
  split; [addressed_here|]. split; [by apply helix_headers_plain|]. cbn.
  destruct (chat_text_fit message) as (? & ? & ?); [done|]. split_and!; try done. by destruct reply.
Qed.
End safety.

