(* ===== verification/TwitchAuth.v ===== *)
(** Signing in to Twitch ([crates/overcrow-overlay/src/twitch/auth.rs] and
    [credentials.rs]): the device flow, the credentials in memory and in the
    key ring, and their refreshing. The key ring and Twitch are the
    environment of each call. *)

From S2P Require Import Prelude Ordered Text Timing Http TwitchChat TwitchHttp.

(** * Credentials *)

Definition CREDENTIAL_SCHEMA_VERSION : Z := 1.
Definition TW_TOKEN_MAX_BYTES : Z := 4 * 1024.
Definition CREDENTIAL_MAX_BYTES : Z := 12 * 1024.

Record TwitchCredentials := mkTwitchCredentials { tc_access_token : str; tc_refresh_token : str; tc_expires_at : Z }.
#[export] Instance TwitchCredentials_eta : Eta TwitchCredentials := λ c,
  mkTwitchCredentials (tc_access_token c) (tc_refresh_token c) (tc_expires_at c).

Inductive TwStoreError := TwStoreUnavailable | TwStoreCorrupt.

Definition tw_valid_token : str → bool := bounded_ascii TW_TOKEN_MAX_BYTES secret_character.

Definition tw_credentials_new (access_token refresh_token : str) (expires_at : Z) : result TwStoreError TwitchCredentials :=
  if negb (tw_valid_token access_token) || negb (tw_valid_token refresh_token) || (expires_at =? 0) then Err TwStoreCorrupt
  else Ok (mkTwitchCredentials access_token refresh_token expires_at).

Record CredentialWire := mkCredentialWire { cw_schema_version : Z; cw_access_token : str; cw_refresh_token : str; cw_expires_at : Z }.

(** [serde_json] on the stored document. *)
Class CredentialJson := { credential_to_vec : CredentialWire → option (list Z); credential_from_slice : list Z → option CredentialWire }.

Section store.
Context `{CredentialJson}.

Definition encode_credentials (c : TwitchCredentials) : result TwStoreError (list Z) :=
  encoded ← ok_or TwStoreCorrupt
    (credential_to_vec (mkCredentialWire CREDENTIAL_SCHEMA_VERSION (tc_access_token c) (tc_refresh_token c) (tc_expires_at c)));
  if CREDENTIAL_MAX_BYTES <? Z.of_nat (length encoded) then Err TwStoreCorrupt else Ok encoded.

Definition decode_credentials (bytes : list Z) : result TwStoreError TwitchCredentials :=
  if CREDENTIAL_MAX_BYTES <? Z.of_nat (length bytes) then Err TwStoreCorrupt
  else
    wire ← ok_or TwStoreCorrupt (credential_from_slice bytes);
    if negb (cw_schema_version wire =? CREDENTIAL_SCHEMA_VERSION) then Err TwStoreCorrupt
    else tw_credentials_new (cw_access_token wire) (cw_refresh_token wire) (cw_expires_at wire).

(** An entry of the key ring: nothing where it cannot be opened. Loading is
    given what [get_secret] answers, saving and deleting whether they were
    done. *)
Inductive KeyringSecret := SecretIs (secret : list Z) | SecretNoEntry | SecretFails.

Definition secret_store_load (entry : option KeyringSecret) : result TwStoreError (option TwitchCredentials) :=
  match entry with
  | None | Some SecretFails => Err TwStoreUnavailable
  | Some SecretNoEntry => Ok None
  | Some (SecretIs secret) => Some <$> decode_credentials secret
  end.

(** What is written, and the outcome. *)
Definition secret_store_save (entry_opens set_succeeds : bool) (c : TwitchCredentials) : option (list Z) * result TwStoreError unit :=
  if negb entry_opens then (None, Err TwStoreUnavailable)
  else match encode_credentials c with
       | Err e => (None, Err e)
       | Ok encoded => (Some encoded, if set_succeeds then Ok tt else Err TwStoreUnavailable)
       end.

Inductive KeyringDeletion := DeletionDone | DeletionNoEntry | DeletionFails.

Definition secret_store_delete (entry : option KeyringDeletion) : result TwStoreError unit :=
  match entry with
  | Some DeletionDone | Some DeletionNoEntry => Ok tt
  | Some DeletionFails | None => Err TwStoreUnavailable
  end.
End store.

(** * The machine *)

Definition VALIDATION_INTERVAL : duration := from_secs (60 * 60).
Definition RETRY_INTERVAL : duration := from_secs 30.
Definition TW_REFRESH_MARGIN_SECS : Z := 5 * 60.
Definition REQUIRED_SCOPES : list str := [lit "user:read:chat"; lit "user:write:chat"].
#[global] Arguments REQUIRED_SCOPES : simpl never.

Inductive TwitchFailureCategory :=
  TfAuthentication | TfAuthorizationExpired | TfChannelUnavailable | TfConnection | TfRateLimited | TfProviderResponse | TfCredentialStore.
#[export] Instance TwitchFailureCategory_eq_dec : EqDecision TwitchFailureCategory.
Proof. solve_decision. Defined.

Inductive AuthPresentation :=
| ShowDisconnected
| ShowAwaitingUser (user_code verification_uri : str) (expires_at : instant)
| ShowConnected (login user_id : str)
| ShowFailed (category : TwitchFailureCategory).

Inductive AuthTick := TickIdle | TickChanged | TickConnected.

Inductive TwAuthError :=
  AeClientUnavailable | AeSessionExists | AeInvalidCredentials | AeProvider (e : TwitchHttpError) | AeCredentials (e : TwStoreError).

Record PendingAuthorization := mkPendingAuthorization {
  pa_device_code : str; pa_expires_at : instant; pa_interval : duration; pa_next_poll : instant
}.
#[export] Instance PendingAuthorization_eta : Eta PendingAuthorization := λ p,
  mkPendingAuthorization (pa_device_code p) (pa_expires_at p) (pa_interval p) (pa_next_poll p).

Record AuthMachine := mkAuthMachine {
  au_client_id : str;
  au_credentials : option TwitchCredentials;
  au_pending : option PendingAuthorization;
  au_presentation : AuthPresentation;
  au_last_validated_at : option instant;
  au_retry_at : option instant;
  au_persisted : bool;
  au_need_persist : bool;
  au_store_may_contain : bool
}.
#[export] Instance AuthMachine_eta : Eta AuthMachine := λ m,
  mkAuthMachine (au_client_id m) (au_credentials m) (au_pending m) (au_presentation m) (au_last_validated_at m) (au_retry_at m)
    (au_persisted m) (au_need_persist m) (au_store_may_contain m).

Definition auth_machine_new (client_id : str) : AuthMachine :=
  mkAuthMachine client_id None None ShowDisconnected None None false false false.

Definition is_configured (m : AuthMachine) : bool := negb (bool_decide (au_client_id m = [])).
Definition credentials_available (m : AuthMachine) : bool := isSome (au_credentials m) || au_store_may_contain m.
Definition can_connect (m : AuthMachine) : bool :=
  isSome (au_credentials m) && match au_presentation m with ShowConnected _ _ => true | _ => false end.
Definition access_token (m : AuthMachine) : option str := tc_access_token <$> au_credentials m.
Definition authenticated_login (m : AuthMachine) : option str :=
  match au_presentation m with ShowConnected login _ => Some login | _ => None end.
Definition authenticated_user_id (m : AuthMachine) : option str :=
  match au_presentation m with ShowConnected _ user_id => Some user_id | _ => None end.

(** What a call asks of the key ring and of Twitch. *)
Inductive TwAuthRequest :=
| TaLoad | TaSave (c : TwitchCredentials) | TaDelete
| TaBegin | TaPoll (device_code : str) | TaRefresh (token : str) | TaValidate (token : str) | TaRevoke (token : str).

(** What they answer during one call, at [an_now], in which credentials may
    be saved more than once. Loading fails or gives what the key ring
    holds. *)
Record AuthAnswers := mkAuthAnswers {
  an_now : instant;
  an_unix : Z;
  an_load : option TwStoreError;
  an_save : nat → bool;
  an_delete : result TwStoreError unit;
  an_begin : result TwitchHttpError DeviceCodeGrant;
  an_poll : result TwitchHttpError TokenPoll;
  an_refresh : result TwitchHttpError TwitchToken;
  an_validate : result TwitchHttpError TokenValidation;
  an_revoke : result TwitchHttpError unit
}.

(** The machine, the credentials in the key ring, and what was asked when. *)
Record AuthEnv := mkAuthEnv { ev_machine : AuthMachine; ev_ring : option TwitchCredentials; ev_asked : list (instant * TwAuthRequest) }.
#[export] Instance AuthEnv_eta : Eta AuthEnv := λ e, mkAuthEnv (ev_machine e) (ev_ring e) (ev_asked e).

Definition on_machine (f : AuthMachine → AuthMachine) (e : AuthEnv) : AuthEnv := e <| ev_machine ::= f |>.

Definition begin_failure_category (e : TwitchHttpError) : TwitchFailureCategory :=
  match e with
  | TwTimeout | TwTransport => TfConnection
  | TwStatus status => if status =? 429 then TfRateLimited else TfProviderResponse
  | _ => TfProviderResponse
  end.

Definition has_required_scopes (scopes : list str) : bool :=
  (length scopes =? length REQUIRED_SCOPES)%nat && forallb (λ required, existsb (λ scope, str_eqb scope required) scopes) REQUIRED_SCOPES.

Definition identity_ok (login user_id : str) : bool := bounded_ascii 25 login_character login && bounded_ascii 32 is_ascii_digit user_id.

Definition validate_identity (expected_client_id : str) (v : TokenValidation) : result TwAuthError unit :=
  if negb (str_eqb (tv_client_id v) expected_client_id) || negb (identity_ok (tv_login v) (tv_user_id v))
     || (tv_expires_in_secs v =? 0) || (31536000 <? tv_expires_in_secs v) || negb (has_required_scopes (tv_scopes v))
  then Err AeInvalidCredentials else Ok tt.

Definition map_validation_error (e : TwitchHttpError) : TwAuthError :=
  if bool_decide (e = TwStatus 401) then AeInvalidCredentials else AeProvider e.
Definition map_refresh_error (e : TwitchHttpError) : TwAuthError :=
  if bool_decide (e = TwStatus 400) || bool_decide (e = TwStatus 401) then AeInvalidCredentials else AeProvider e.
Definition is_conclusive (e : TwAuthError) : bool := match e with AeInvalidCredentials => true | _ => false end.

Section machine.
Context `{WebUrls}.
Variable instant_max : instant.

(** [next_deadline]. *)
Definition next_deadline (now : instant) (now_unix : Z) (m : AuthMachine) : option instant :=
  match au_pending m with
  | Some p => Some (Z.min (pa_next_poll p) (pa_expires_at p))
  | None =>
      match au_retry_at m with
      | Some retry_at => Some retry_at
      | None =>
          c ← au_credentials m;
          let validation_deadline :=
            default now (validated ← au_last_validated_at m; checked_add instant_max validated VALIDATION_INTERVAL) in
          let seconds_until_refresh := saturating_sub (tc_expires_at c) (saturating_add u64_max now_unix TW_REFRESH_MARGIN_SECS) in
          let refresh_deadline := default validation_deadline (checked_add instant_max now (from_secs seconds_until_refresh)) in
          Some (Z.min validation_deadline refresh_deadline)
      end
  end.

Section call.
Variable an : AuthAnswers.

Definition ask (r : TwAuthRequest) (e : AuthEnv) : AuthEnv := e <| ev_asked ::= (λ l, l ++ [(an_now an, r)]) |>.

Definition is_save (r : instant * TwAuthRequest) : bool := match r.2 with TaSave _ => true | _ => false end.

(** [store.save], [store.delete] and [store.load]. *)
Definition store_save (c : TwitchCredentials) (e : AuthEnv) : bool * AuthEnv :=
  let saved := an_save an (length (filter (λ r, is_save r = true) (ev_asked e))) in
  (saved, ask (TaSave c) e <| ev_ring ::= (λ ring, if saved then Some c else ring) |>).
Definition store_delete (e : AuthEnv) : result TwStoreError unit * AuthEnv :=
  (an_delete an, ask TaDelete e <| ev_ring ::= (λ ring, if is_ok (an_delete an) then None else ring) |>).
Definition store_load (e : AuthEnv) : result TwStoreError (option TwitchCredentials) * AuthEnv :=
  (match an_load an with Some err => Err err | None => Ok (ev_ring e) end, ask TaLoad e).

Definition show (p : AuthPresentation) : AuthEnv → AuthEnv := on_machine (λ m, m <| au_presentation := p |>).

Definition persist_current_if_needed (e : AuthEnv) : AuthEnv :=
  if negb (au_need_persist (ev_machine e)) then e
  else
    let '(saved, e) := match au_credentials (ev_machine e) with Some c => store_save c e | None => (false, e) end in
    on_machine (λ m, m <| au_persisted := saved |> <| au_need_persist := negb saved |> <| au_store_may_contain := true |>) e.

Definition validate_current (e : AuthEnv) : result TwAuthError unit * AuthEnv :=
  match au_credentials (ev_machine e) with
  | None => (Err (AeProvider TwProviderResponse), e)
  | Some c =>
      let e := ask (TaValidate (tc_access_token c)) e in
      match an_validate an with
      | Err err => (Err (map_validation_error err), e)
      | Ok v =>
          match validate_identity (au_client_id (ev_machine e)) v with
          | Err err => (Err err, e)
          | Ok _ =>
              match checked_add u64_max (an_unix an) (tv_expires_in_secs v) with
              | None => (Err (AeProvider TwProviderResponse), e)
              | Some expires_at =>
                  let e := on_machine (λ m, m <| au_credentials := Some (c <| tc_expires_at := expires_at |>) |>
                                              <| au_presentation := ShowConnected (tv_login v) (tv_user_id v) |>
                                              <| au_last_validated_at := Some (an_now an) |> <| au_retry_at := None |>) e in
                  (Ok tt, persist_current_if_needed e)
              end
          end
      end
  end.

Definition clear_invalid_credentials (category : TwitchFailureCategory) (e : AuthEnv) : AuthEnv :=
  let e := on_machine (λ m, m <| au_credentials := None |> <| au_pending := None |> <| au_last_validated_at := None |> <| au_retry_at := None |>
                              <| au_persisted := false |> <| au_need_persist := false |>) e in
  let '(deleted, e) := store_delete e in
  on_machine (λ m, m <| au_store_may_contain := negb (is_ok deleted) |>
                     <| au_presentation := ShowFailed (if is_ok deleted then category else TfCredentialStore) |>) e.

Definition handle_credential_failure (err : TwAuthError) (e : AuthEnv) : AuthEnv :=
  if is_conclusive err then clear_invalid_credentials TfAuthentication e
  else on_machine (λ m, m <| au_last_validated_at := None |> <| au_retry_at := checked_add instant_max (an_now an) RETRY_INTERVAL |>
                          <| au_presentation := ShowFailed match err with
                                                           | AeCredentials _ => TfCredentialStore
                                                           | AeProvider TwTimeout | AeProvider TwTransport => TfConnection
                                                           | _ => TfProviderResponse
                                                           end |>) e.

Definition auth_begin (e : AuthEnv) : result TwAuthError unit * AuthEnv :=
  let m := ev_machine e in
  if bool_decide (au_client_id m = []) then (Err AeClientUnavailable, e)
  else if isSome (au_credentials m) || au_store_may_contain m then (Err AeSessionExists, e)
  else
    let e := ask TaBegin e in
    match an_begin an with
    | Err error => (Err (AeProvider error), show (ShowFailed (begin_failure_category error)) e)
    | Ok grant =>
        match validate_verification_uri (dg_verification_uri grant) with
        | Err error => (Err (AeProvider error), show (ShowFailed (begin_failure_category error)) e)
        | Ok _ =>
            match checked_add instant_max (an_now an) (from_secs (dg_expires_in_secs grant)) with
            | None => (Err (AeProvider TwProviderResponse), show (ShowFailed TfProviderResponse) e)
            | Some expires_at =>
                let interval := from_secs (Z.max 1 (Z.min 60 (dg_interval_secs grant))) in
                match checked_add instant_max (an_now an) interval with
                | None => (Err (AeProvider TwProviderResponse), show (ShowFailed TfProviderResponse) e)
                | Some next_poll =>
                    (Ok tt,
                     on_machine (λ m, m <| au_credentials := None |>
                                        <| au_pending := Some (mkPendingAuthorization (dg_device_code grant) expires_at interval next_poll) |>
                                        <| au_presentation := ShowAwaitingUser (dg_user_code grant) (dg_verification_uri grant) expires_at |>
                                        <| au_last_validated_at := None |> <| au_retry_at := None |>
                                        <| au_persisted := false |> <| au_need_persist := false |>) e)
                end
            end
        end
    end.

Definition auth_cancel : AuthEnv → AuthEnv := on_machine (λ m, m <| au_pending := None |> <| au_presentation := ShowDisconnected |>).
Definition auth_cancel_pending : AuthEnv → AuthEnv := on_machine (λ m,
  if isSome (au_pending m) then m <| au_pending := None |> <| au_presentation := ShowDisconnected |> else m).

Definition tw_restore (e : AuthEnv) : AuthTick * AuthEnv :=
  match store_load e with
  | (Ok None, e) => (TickIdle, on_machine (λ m, m <| au_store_may_contain := false |> <| au_retry_at := None |> <| au_presentation := ShowDisconnected |>) e)
  | (Err _, e) =>
      (TickChanged, on_machine (λ m, m <| au_store_may_contain := true |> <| au_retry_at := checked_add instant_max (an_now an) RETRY_INTERVAL |>
                                       <| au_presentation := ShowFailed TfCredentialStore |>) e)
  | (Ok (Some credentials), e) =>
      let e := on_machine (λ m, m <| au_credentials := Some credentials |> <| au_persisted := true |> <| au_need_persist := false |>
                                  <| au_store_may_contain := true |> <| au_retry_at := None |>) e in
      match validate_current e with
      | (Ok _, e) => (TickConnected, e)
      | (Err error, e) => (TickChanged, handle_credential_failure error e)
      end
  end.

(** Installing a token the service gave: the scopes, the expiry and the
    credentials are checked first. *)
Definition token_credentials (token : TwitchToken) : result TwAuthError TwitchCredentials :=
  if negb (has_required_scopes (tk_scopes token)) then Err AeInvalidCredentials
  else
    expires_at ← ok_or (AeProvider TwProviderResponse) (checked_add u64_max (an_unix an) (tk_expires_in_secs token));
    map_error AeCredentials (tw_credentials_new (tk_access_token token) (tk_refresh_token token) expires_at).

Definition install (c : TwitchCredentials) : AuthEnv → AuthEnv :=
  on_machine (λ m, m <| au_credentials := Some c |> <| au_persisted := false |> <| au_need_persist := true |>).

Definition accept_token (token : TwitchToken) (e : AuthEnv) : result TwAuthError unit * AuthEnv :=
  match token_credentials token with
  | Err error => (Err error, e)
  | Ok credentials => validate_current (install credentials e)
  end.

Definition tw_refresh (e : AuthEnv) : result TwAuthError unit * AuthEnv :=
  match au_credentials (ev_machine e) with
  | None => (Err (AeProvider TwProviderResponse), e)
  | Some c =>
      let e := ask (TaRefresh (tc_refresh_token c)) e in
      match an_refresh an with
      | Err error => (Err (map_refresh_error error), e)
      | Ok token =>
          match token_credentials token with
          | Err error => (Err error, e)
          | Ok credentials => validate_current (persist_current_if_needed (install credentials e))
          end
      end
  end.

Definition set_pending (p : option PendingAuthorization) : AuthEnv → AuthEnv := on_machine (λ m, m <| au_pending := p |>).

Definition poll_again (p : PendingAuthorization) : AuthEnv → AuthEnv :=
  set_pending (Some (p <| pa_next_poll := default (pa_expires_at p) (checked_add instant_max (an_now an) (pa_interval p)) |>)).

Definition tick_pending (e : AuthEnv) : AuthTick * AuthEnv :=
  match au_pending (ev_machine e) with
  | None => (TickIdle, e)
  | Some p =>
      if pa_expires_at p <=? an_now an then (TickChanged, show (ShowFailed TfAuthorizationExpired) (set_pending None e))
      else if an_now an <? pa_next_poll p then (TickIdle, e)
      else
        let e := ask (TaPoll (pa_device_code p)) e in
        match an_poll an with
        | Ok PollPending => (TickChanged, poll_again p e)
        | Ok PollSlowDown => (TickChanged, poll_again (p <| pa_interval := Z.min (pa_interval p + from_secs 5) (from_secs 60) |>) e)
        | Ok PollDenied => (TickChanged, show (ShowFailed TfAuthentication) (set_pending None e))
        | Ok PollExpired => (TickChanged, show (ShowFailed TfAuthorizationExpired) (set_pending None e))
        | Ok (PollAuthorized token) =>
            match accept_token token (set_pending None e) with
            | (Ok _, e) => (TickConnected, e)
            | (Err error, e) => (TickChanged, handle_credential_failure error e)
            end
        | Err _ => (TickChanged, poll_again p e)
        end
  end.

Definition auth_tick (e : AuthEnv) : AuthTick * AuthEnv :=
  let m := ev_machine e in
  let too_early := is_some_and (λ retry_at, an_now an <? retry_at) (au_retry_at m) in
  if isSome (au_pending m) then tick_pending e
  else match au_credentials m with
       | None => if au_store_may_contain m then (if too_early then (TickIdle, e) else tw_restore e) else (TickIdle, e)
       | Some c =>
           if too_early then (TickIdle, e)
           else if tc_expires_at c <=? saturating_add u64_max (an_unix an) TW_REFRESH_MARGIN_SECS then
             match tw_refresh e with
             | (Ok _, e) => (TickChanged, e)
             | (Err error, e) => (TickChanged, handle_credential_failure error e)
             end
           else
             let validation_due := is_none_or (λ elapsed, VALIDATION_INTERVAL <=? elapsed)
                                     (validated ← au_last_validated_at m; checked_duration_since (an_now an) validated) in
             if negb validation_due then (TickIdle, e)
             else match validate_current e with
                  | (Ok _, e) => (TickChanged, e)
                  | (Err error, e) => (TickChanged, handle_credential_failure error e)
                  end
       end.

Definition clear_local_session : AuthEnv → AuthEnv :=
  on_machine (λ m, m <| au_credentials := None |> <| au_last_validated_at := None |> <| au_retry_at := None |> <| au_persisted := false |>
                     <| au_need_persist := false |> <| au_store_may_contain := false |> <| au_presentation := ShowDisconnected |>).

Definition disconnect_local (e : AuthEnv) : result TwAuthError unit * AuthEnv :=
  match store_delete (set_pending None e) with
  | (Err error, e) =>
      (Err (AeCredentials error),
       on_machine (λ m, m <| au_store_may_contain := true |> <| au_presentation := ShowFailed TfCredentialStore |>
                          <| au_last_validated_at := None |> <| au_retry_at := None |>) e)
  | (Ok _, e) => (Ok tt, clear_local_session e)
  end.

Definition auth_disconnect (e : AuthEnv) : result TwAuthError unit * AuthEnv :=
  let '(revoked, e) := match au_credentials (ev_machine e) with
                       | Some c => (map_error AeProvider (an_revoke an), ask (TaRevoke (tc_access_token c)) e)
                       | None => (Ok tt, e)
                       end in
  match disconnect_local e with
  | (Err error, e) => (Err error, e)
  | (Ok _, e) => (revoked, e)
  end.
End call.
End machine.

(** * The machine over time *)

Inductive TwAuthOp := TopRestore | TopTick | TopBegin | TopCancel | TopCancelPending | TopInvalidate (category : TwitchFailureCategory) | TopSignOut.

(** Each operation, and whether it succeeded. *)
Definition auth_op `{WebUrls} (instant_max : instant) (op : TwAuthOp) (an : AuthAnswers) (e : AuthEnv) : bool * AuthEnv :=
  match op with
  | TopRestore => (true, (tw_restore instant_max an e).2)
  | TopTick => (true, (auth_tick instant_max an e).2)
  | TopBegin => let '(r, e) := auth_begin instant_max an e in (is_ok r, e)
  | TopCancel => (true, auth_cancel e)
  | TopCancelPending => (true, auth_cancel_pending e)
  | TopInvalidate category => (true, clear_invalid_credentials an category e)
  | TopSignOut => let '(r, e) := auth_disconnect an e in (is_ok r, e)
  end.

Definition auth_ops `{WebUrls} (instant_max : instant) (ops : list (TwAuthOp * AuthAnswers)) (e : AuthEnv) : AuthEnv :=
  foldl (λ e '(op, an), (auth_op instant_max op an e).2) e ops.

Definition tokens_valid (c : TwitchCredentials) : Prop := tw_valid_token (tc_access_token c) = true ∧ tw_valid_token (tc_refresh_token c) = true.
Definition same_tokens (a b : TwitchCredentials) : Prop := tc_access_token a = tc_access_token b ∧ tc_refresh_token a = tc_refresh_token b.

Definition shown_ok `{WebUrls} (m : AuthMachine) : Prop :=
  match au_presentation m with
  | ShowConnected login user_id => is_Some (au_credentials m) ∧ identity_ok login user_id = true
  | ShowAwaitingUser _ uri expires_at =>
      url_ok (lit "https") (lit "www.twitch.tv") uri ∧ ∃ p, au_pending m = Some p ∧ pa_expires_at p = expires_at
  | _ => True
  end.

(** What holds of the machine and the key ring at any time. *)
Record auth_inv `{WebUrls} (e : AuthEnv) : Prop := mkAuthInv {
  ai_persisted : au_persisted (ev_machine e) = true →
    ∃ c r, au_credentials (ev_machine e) = Some c ∧ ev_ring e = Some r ∧ same_tokens c r;
  ai_need : au_need_persist (ev_machine e) = isSome (au_credentials (ev_machine e)) && negb (au_persisted (ev_machine e));
  ai_credentials : from_option tokens_valid True (au_credentials (ev_machine e));
  ai_ring : from_option tokens_valid True (ev_ring e);
  ai_shown : shown_ok (ev_machine e);
  ai_interval : from_option (λ p, from_secs 1 ≤ pa_interval p ≤ from_secs 60) True (au_pending (ev_machine e))
}.

(** Nothing stored is forgotten. *)
Definition store_known (e : AuthEnv) : Prop := au_store_may_contain (ev_machine e) = false → ev_ring e = None.

Definition auth_env_new (client_id : str) (ring : option TwitchCredentials) : AuthEnv := mkAuthEnv (auth_machine_new client_id) ring [].

Section preserved.
Context `{WebUrls}.
Variable instant_max : instant.
Variable an : AuthAnswers.

(** The two parts of the invariant, kept together. *)
Definition keeps (e e' : AuthEnv) : Prop := (auth_inv e → auth_inv e') ∧ (auth_inv e → store_known e → store_known e').

Lemma keeps_trans e1 e2 e3 : keeps e1 e2 → keeps e2 e3 → keeps e1 e3.
Proof. intros [H1 H2] [H3 H4]. split; auto. Qed.

Lemma keeps_ask r e : keeps e (ask an r e).
Proof. split; [intros []; by constructor|auto]. Qed.

(** A change of the machine that touches neither credentials nor what is said
    of the store. *)
Lemma keeps_show p e : shown_ok (ev_machine e <| au_presentation := p |>) → keeps e (show p e).
Proof. intros Hp. split; [intros []; by constructor|auto]. Qed.

Lemma keeps_persist e : keeps e (persist_current_if_needed an e).
Proof.
  unfold persist_current_if_needed. destruct (au_need_persist (ev_machine e)) eqn:En; [|by split]. cbn [negb].
  destruct (au_credentials (ev_machine e)) as [c|] eqn:Ec.
  - split; [|done]. intros [I1 I2 I3 I4 I5 I6]. unfold store_save. cbn. rewrite Ec in I3. cbn in I3.
    destruct (an_save an _); constructor; cbn; try (by rewrite ?Ec); try done.
    intros _. rewrite Ec. by exists c, c.
  - split; [|done]. intros [I1 I2 I3 I4 I5 I6]. by rewrite Ec, En in I2.
Qed.

Lemma keeps_validate e : keeps e (validate_current an e).2.
Proof.
  unfold validate_current. destruct (au_credentials (ev_machine e)) as [c|] eqn:Ec; [|by split].
  destruct (an_validate an) as [v|]; [|apply keeps_ask].
  destruct (validate_identity _ v) eqn:Ev; [|apply keeps_ask]. destruct (checked_add _ _ _) as [x|]; [|apply keeps_ask].
  eapply keeps_trans; [apply (keeps_ask (TaValidate (tc_access_token c)))|].
  cbn [snd]. eapply keeps_trans; [|apply keeps_persist]. split; [|done]. intros [I1 I2 I3 I4 I5 I6].
  assert (identity_ok (tv_login v) (tv_user_id v) = true) as Hid.
  { unfold validate_identity in Ev. destruct (_ || _) eqn:E; [done|]. rewrite !orb_false_iff, !negb_false_iff in E. tauto. }
  cbn in *. rewrite Ec in *. constructor; cbn; try done.
  intros Hp. destruct (I1 Hp) as (c' & r & [= <-] & Hr & Hs). by exists (c <| tc_expires_at := x |>), r.
Qed.

Lemma keeps_clear_invalid category e : keeps e (clear_invalid_credentials an category e).
Proof.
  unfold clear_invalid_credentials, store_delete. cbn. destruct (an_delete an); cbn; (split; [intros []; by constructor|done]).
Qed.

Lemma keeps_failure err e : keeps e (handle_credential_failure instant_max an err e).
Proof.
  unfold handle_credential_failure. destruct (is_conclusive err); [apply keeps_clear_invalid|].
  split; [intros []; by constructor|auto].
Qed.

Lemma keeps_begin e : keeps e (auth_begin instant_max an e).2.
Proof.
  unfold auth_begin. case_bool_decide; [by split|]. destruct (isSome _ || _) eqn:Ea; [by split|].
  apply orb_false_iff in Ea as [Ea Es].
  destruct (an_begin an) as [g|]; cbn [snd]; [|by eapply keeps_trans; [apply (keeps_ask TaBegin)|by apply keeps_show]].
  destruct (validate_verification_uri _) as [[]|] eqn:Eu; cbn [snd]; [|by eapply keeps_trans; [apply (keeps_ask TaBegin)|by apply keeps_show]].
  apply validate_verification_uri_ok in Eu.
  destruct (checked_add _ _ _) as [x|]; cbn [snd]; [|by eapply keeps_trans; [apply (keeps_ask TaBegin)|by apply keeps_show]].
  destruct (checked_add _ _ (from_secs (Z.max _ _))) as [y|]; cbn [snd]; [|by eapply keeps_trans; [apply (keeps_ask TaBegin)|by apply keeps_show]].
  split; [|done]. intros []. constructor; cbn; try done.
  - split; [done|by eexists].
  - unfold from_secs, nanos_per_sec. lia.
Qed.

Lemma keeps_restore e : keeps e (tw_restore instant_max an e).2 ∧ (auth_inv e → store_known (tw_restore instant_max an e).2).
Proof.
  unfold tw_restore, store_load. destruct (an_load an) as [err|].
  { split; [split; [intros []; by constructor|done]|done]. }
  destruct (ev_ring e) as [c|] eqn:Er.
  2: { split; [split; [intros []; by constructor|intros _ _ _; exact Er]|intros _ _; exact Er]. }
  set (e1 := on_machine _ _).
  assert (auth_inv e → auth_inv e1) as H1.
  { intros [I1 I2 I3 I4 I5 I6]. rewrite Er in I4. constructor; cbn; try done; [by exists c, c|by rewrite Er|].
    unfold shown_ok in *. cbn. by destruct (au_presentation (ev_machine e)) as [| | ? ? |]; [|done|destruct I5|]. }
  assert (store_known e1) as H2 by done.
  destruct (keeps_validate e1) as [V1 V2]. destruct (validate_current an e1) as [[u|err] e2]; cbn [snd] in *.
  - split; [|by auto]. split; auto.
  - destruct (keeps_failure err e2) as [F1 F2]. split; [|by auto]. split; auto.
Qed.

(** Dropping the pending authorization, with what is then shown. *)
Lemma keeps_unset p e : (∀ l u, p ≠ ShowConnected l u) → (∀ c u x, p ≠ ShowAwaitingUser c u x) → keeps e (show p (set_pending None e)).
Proof.
  intros H1 H2. split; [|done]. intros []. constructor; cbn; try done. unfold shown_ok. cbn. destruct p; naive_solver.
Qed.

Lemma keeps_set_pending p p0 e :
  au_pending (ev_machine e) = Some p0 → pa_expires_at p = pa_expires_at p0 →
  (auth_inv e → from_secs 1 ≤ pa_interval p ≤ from_secs 60) → keeps e (set_pending (Some p) e).
Proof.
  intros Hp He Hi. split; [|done]. intros Hinv. specialize (Hi Hinv). destruct Hinv. constructor; cbn; try done.
  unfold shown_ok in *. cbn. destruct (au_presentation (ev_machine e)); try done. destruct ai_shown0 as (? & p' & Hp' & Hx).
  split; [done|]. exists p. split; [done|]. congruence.
Qed.

Lemma token_credentials_valid t c : token_credentials an t = Ok c → tokens_valid c.
Proof.
  unfold token_credentials. destruct (negb _); [done|]. intros (x & _ & Hc)%result_bind_Ok. apply map_error_Ok in Hc.
  unfold tw_credentials_new in Hc. destruct (_ || _) eqn:E; [done|]. injection Hc as <-.
  rewrite !orb_false_iff, !negb_false_iff in E. by destruct E as [[E1 E2] _].
Qed.

Lemma keeps_install c e : tokens_valid c → keeps e (install c e).
Proof.
  intros Hc. split; [|done]. intros []. constructor; cbn; try done.
  unfold shown_ok in *. cbn. by destruct (au_presentation (ev_machine e)) as [| | ? ? |]; [|done|destruct ai_shown0|].
Qed.

(** A call that may fail, and what becomes of its failure. *)
Definition handled (r : result TwAuthError unit * AuthEnv) : AuthEnv :=
  match r with (Ok _, e) => e | (Err error, e) => handle_credential_failure instant_max an error e end.

Lemma keeps_handled e r : keeps e r.2 → keeps e (handled r).
Proof. destruct r as [[u|err] e']; cbn [snd handled]; intros He; [done|]. eapply keeps_trans; [exact He|apply keeps_failure]. Qed.

Lemma handled_snd (r : result TwAuthError unit * AuthEnv) (f g : AuthTick) :
  (match r with (Ok _, e) => (f, e) | (Err error, e) => (g, handle_credential_failure instant_max an error e) end : AuthTick * AuthEnv).2 = handled r.
Proof. by destruct r as [[]]. Qed.

(** Accepting a token decides what is shown, whatever was shown before. *)
Lemma accept_shows t p e : handled (accept_token an t (show p e)) = handled (accept_token an t e).
Proof.
  destruct e as [m ring asked]. unfold accept_token. destruct (token_credentials an t) as [c|err]; cbn.
  - unfold validate_current. cbn. destruct (an_validate an) as [v|err]; cbn; [|unfold handle_credential_failure; by destruct (is_conclusive (map_validation_error err))].
    destruct (validate_identity _ v) as [u|err]; cbn; [|unfold handle_credential_failure; by destruct (is_conclusive err)].
    by destruct (checked_add _ _ _).
  - unfold handle_credential_failure. by destruct (is_conclusive err).
Qed.

Lemma keeps_refresh e : keeps e (tw_refresh an e).2.
Proof.
  unfold tw_refresh. destruct (au_credentials (ev_machine e)) as [c|]; [|by split].
  destruct (an_refresh an) as [t|]; [|apply keeps_ask]. destruct (token_credentials an t) as [c'|] eqn:Et; [|apply keeps_ask].
  eapply keeps_trans; [apply (keeps_ask (TaRefresh (tc_refresh_token c)))|].
  eapply keeps_trans; [eapply (keeps_install c'); by eapply token_credentials_valid|].
  eapply keeps_trans; [apply keeps_persist|apply keeps_validate].
Qed.

Lemma keeps_tick_pending e : keeps e (tick_pending instant_max an e).2.
Proof.
  unfold tick_pending. destruct (au_pending (ev_machine e)) as [p|] eqn:Ep; [|by split].
  destruct (_ <=? _); [by apply keeps_unset|]. destruct (_ <? _); [by split|].
  eapply keeps_trans; [apply (keeps_ask (TaPoll (pa_device_code p)))|]. set (e1 := ask _ _ _).
  assert (au_pending (ev_machine e1) = Some p) as Ep1 by done.
  assert (auth_inv e1 → from_secs 1 ≤ pa_interval p ≤ from_secs 60) as Hi by (intros [? ? ? ? ? Hi]; by rewrite Ep1 in Hi).
  destruct (an_poll an) as [[| | | |t]|]; cbn [snd]; try (by apply keeps_unset).
  - by eapply keeps_set_pending.
  - eapply keeps_set_pending; [done|done|]. intros Hinv. specialize (Hi Hinv). cbn. unfold from_secs, nanos_per_sec in *. lia.
  - rewrite handled_snd, <- (accept_shows t ShowDisconnected). apply keeps_handled.
    eapply keeps_trans; [by apply (keeps_unset ShowDisconnected)|].
    unfold accept_token. destruct (token_credentials an t) as [c|] eqn:Et; [|by split].
    eapply keeps_trans; [eapply (keeps_install c); by eapply token_credentials_valid|apply keeps_validate].
  - by eapply keeps_set_pending.
Qed.

Lemma keeps_tick e : keeps e (auth_tick instant_max an e).2.
Proof.
  unfold auth_tick. destruct (isSome _); [apply keeps_tick_pending|]. destruct (au_credentials _) as [c|].
  - destruct (is_some_and _ _); [by split|]. destruct (_ <=? _); [rewrite handled_snd; apply keeps_handled, keeps_refresh|].
    destruct (negb _); [by split|]. rewrite handled_snd. apply keeps_handled, keeps_validate.
  - destruct (au_store_may_contain _); [|by split]. destruct (is_some_and _ _); [by split|]. apply keeps_restore.
Qed.

Lemma keeps_disconnect e :
  keeps e (auth_disconnect an e).2 ∧
  (is_ok (auth_disconnect an e).1 = true → au_credentials (ev_machine (auth_disconnect an e).2) = None ∧ ev_ring (auth_disconnect an e).2 = None).
Proof.
  unfold auth_disconnect.
  set (re := match au_credentials _ with Some c => _ | None => _ end).
  assert (keeps e re.2) as Hre by (unfold re; destruct (au_credentials _); [apply keeps_ask|by split]).
  destruct re as [revoked e1]. cbn [snd] in Hre. unfold disconnect_local, store_delete.
  destruct (an_delete an) as [u|err]; cbn.
  - split; [|done]. eapply keeps_trans; [exact Hre|]. split; [intros []; by constructor|done].
  - split; [|done]. eapply keeps_trans; [exact Hre|]. split; [intros []; by constructor|done].
Qed.

Lemma keeps_op op e : keeps e (auth_op instant_max op an e).2.
Proof.
  destruct op; cbn [auth_op snd].
  - apply keeps_restore.
  - apply keeps_tick.
  - pose proof (keeps_begin e) as Hb. by destruct (auth_begin instant_max an e).
  - by apply (keeps_unset ShowDisconnected).
  - unfold auth_cancel_pending, on_machine. destruct e as [m ring asked]. cbn. destruct (isSome (au_pending m)) eqn:E; cbn.
    + by apply (keeps_unset ShowDisconnected (mkAuthEnv m ring asked)).
    + by split.
  - apply keeps_clear_invalid.
  - destruct (keeps_disconnect e) as [Hb _]. by destruct (auth_disconnect an e).
Qed.
End preserved.

(** C37 Whatever the order of operations and whatever the key ring and Twitch
    answer, once the credentials were restored: credentials said to be
    persisted are those of the key ring, and others still wait to be saved;
    tokens are single words; the client is connected only with credentials
    and a well-formed identity; the user is sent to Twitch only, while the
    authorization is pending; and as long as something is stored, the client
    knows it, so no other sign-in can begin. *)
Theorem twitch_sign_in_consistent `{WebUrls} instant_max client_id ring first ops
    (Hring : from_option tokens_valid True ring) :
  let e := auth_ops instant_max ((TopRestore, first) :: ops) (auth_env_new client_id ring) in
  let m := ev_machine e in
  (au_persisted m = true → ∃ c r, au_credentials m = Some c ∧ ev_ring e = Some r ∧ same_tokens c r)
  ∧ (is_Some (au_credentials m) → au_need_persist m = negb (au_persisted m))
  ∧ from_option tokens_valid True (au_credentials m) ∧ shown_ok m
  ∧ (credentials_available m = false → ev_ring e = None).
Proof.
  cbn zeta. unfold auth_ops. cbn [foldl].
  assert (auth_inv (auth_env_new client_id ring)) as H0 by (constructor; done).
  assert (auth_inv (auth_op instant_max TopRestore first (auth_env_new client_id ring)).2) as H1 by (by apply keeps_op).
  assert (store_known (auth_op instant_max TopRestore first (auth_env_new client_id ring)).2) as H2 by (by apply keeps_restore).
  revert H1 H2. generalize (auth_op instant_max TopRestore first (auth_env_new client_id ring)).2 as e. clear H0.
  induction ops as [|[op an] ops IH]; intros e H1 H2; cbn [foldl].
  - destruct H1 as [I1 I2 I3 I4 I5 I6]. split; [done|]. split; [intros [c Hc]; by rewrite I2, Hc|]. split; [done|]. split; [done|].
    intros [_ Hs]%orb_false_iff. by apply H2.
  - apply IH; [by apply keeps_op|by apply keeps_op].
Qed.

(** Signing out leaves nothing behind, or says that it failed. *)
Theorem twitch_sign_out_clears `{WebUrls} instant_max an e (Hdone : (auth_op instant_max TopSignOut an e).1 = true) :
  let e := (auth_op instant_max TopSignOut an e).2 in au_credentials (ev_machine e) = None ∧ ev_ring e = None.
Proof.
  cbn [auth_op] in *. destruct (keeps_disconnect an e) as [_ Hd]. destruct (auth_disconnect an e) as [r e']. by apply Hd.
Qed.

(** * How often the device code is polled *)

Definition poll_time (r : instant * TwAuthRequest) : option instant := match r.2 with TaPoll _ => Some r.1 | _ => None end.
Definition polls (e : AuthEnv) : list instant := omap poll_time (ev_asked e).

Fixpoint spaced (gap : duration) (l : list instant) : Prop :=
  match l with
  | [] => True
  | x :: l => match l with [] => True | y :: _ => x + gap ≤ y end ∧ spaced gap l
  end.

Lemma poll_spaced_snoc gap l x : spaced gap l → (∀ t, last l = Some t → t + gap ≤ x) → spaced gap (l ++ [x]).
Proof.
  induction l as [|y l IH]; intros Hs Hl; [by repeat split|]. destruct l as [|z l]; cbn [app spaced] in *.
  - split; [by apply Hl|by repeat split].
  - destruct Hs as [Hyz Hs]. split; [done|]. apply IH; [done|]. intros t Ht. apply Hl. by rewrite last_cons_cons.
Qed.

(** Polls are a second apart so far, the last is past, and the next will keep
    its distance, or never be made. *)
Record polls_ok (now : instant) (e : AuthEnv) : Prop := mkPollsOk {
  po_spaced : spaced (from_secs 1) (polls e);
  po_past : ∀ t, last (polls e) = Some t → t ≤ now;
  po_next : ∀ t p, last (polls e) = Some t → au_pending (ev_machine e) = Some p →
    t + from_secs 1 ≤ pa_next_poll p ∨ pa_expires_at p ≤ pa_next_poll p
}.

(** Operations that neither poll nor begin. *)
Definition quiet (e e' : AuthEnv) : Prop :=
  polls e' = polls e ∧ (au_pending (ev_machine e') = au_pending (ev_machine e) ∨ au_pending (ev_machine e') = None).

Lemma quiet_refl e : quiet e e.
Proof. split; [done|by left]. Qed.

Lemma quiet_trans e1 e2 e3 : quiet e1 e2 → quiet e2 e3 → quiet e1 e3.
Proof. intros [H1 H2] [H3 H4]. split; [congruence|]. destruct H4 as [->|]; tauto. Qed.

Lemma polls_ok_quiet now e e' : quiet e e' → polls_ok now e → polls_ok now e'.
Proof. intros [H1 H2] [P1 P2 P3]. constructor; rewrite H1; [done|done|]. intros t p Ht Hp. destruct H2 as [E|E]; rewrite E in Hp; [by apply P3|done]. Qed.

Section polls.
Context `{WebUrls}.
Variable instant_max : instant.
Variable an : AuthAnswers.

Lemma polls_ask r e : polls (ask an r e) = polls e ++ match r with TaPoll _ => [an_now an] | _ => [] end.
Proof. unfold polls, ask. cbn. rewrite omap_app. f_equal. by destruct r. Qed.

Lemma quiet_ask r e : (∀ code, r ≠ TaPoll code) → quiet e (ask an r e).
Proof. intros Hr. split; [|by left]. rewrite polls_ask. destruct r; try apply app_nil_r. by destruct (Hr device_code). Qed.

Lemma quiet_machine f e : au_pending (f (ev_machine e)) = au_pending (ev_machine e) ∨ au_pending (f (ev_machine e)) = None → quiet e (on_machine f e).
Proof. by split. Qed.

Lemma quiet_persist e : quiet e (persist_current_if_needed an e).
Proof.
  unfold persist_current_if_needed. destruct (negb _); [apply quiet_refl|]. destruct (au_credentials _) as [c|]; [|by apply quiet_machine; left].
  unfold store_save. eapply quiet_trans; [by apply (quiet_ask (TaSave c))|by split; [|left]].
Qed.

Lemma quiet_validate e : quiet e (validate_current an e).2.
Proof.
  unfold validate_current. destruct (au_credentials _) as [c|]; [|apply quiet_refl].
  destruct (an_validate an) as [v|]; [|by apply quiet_ask]. destruct (validate_identity _ v); [|by apply quiet_ask].
  destruct (checked_add _ _ _); [|by apply quiet_ask]. cbn [snd].
  eapply quiet_trans; [by apply (quiet_ask (TaValidate (tc_access_token c)))|].
  eapply quiet_trans; [|apply quiet_persist]. by apply quiet_machine; left.
Qed.

Lemma quiet_clear category e : quiet e (clear_invalid_credentials an category e).
Proof.
  unfold clear_invalid_credentials, store_delete. split; [|by right]. unfold polls. cbn. by rewrite omap_app, app_nil_r.
Qed.

Lemma quiet_failure err e : quiet e (handle_credential_failure instant_max an err e).
Proof. unfold handle_credential_failure. destruct (is_conclusive err); [apply quiet_clear|by apply quiet_machine; left]. Qed.

Lemma quiet_handled e r : quiet e r.2 → quiet e (handled instant_max an r).
Proof. destruct r as [[u|err] e']; cbn; intros He; [done|]. eapply quiet_trans; [exact He|apply quiet_failure]. Qed.

Lemma quiet_restore e : quiet e (tw_restore instant_max an e).2.
Proof.
  unfold tw_restore, store_load. destruct (match an_load an with Some err => _ | None => _ end) as [[c|]|err].
  - rewrite (handled_snd instant_max an). apply quiet_handled. eapply quiet_trans; [|apply quiet_validate].
    eapply quiet_trans; [by apply (quiet_ask TaLoad)|by apply quiet_machine; left].
  - eapply quiet_trans; [by apply (quiet_ask TaLoad)|by apply quiet_machine; left].
  - eapply quiet_trans; [by apply (quiet_ask TaLoad)|by apply quiet_machine; left].
Qed.

Lemma quiet_refresh e : quiet e (tw_refresh an e).2.
Proof.
  unfold tw_refresh. destruct (au_credentials _) as [c|]; [|apply quiet_refl].
  destruct (an_refresh an) as [t|]; [|by apply quiet_ask]. destruct (token_credentials an t) as [c'|]; [|by apply quiet_ask].
  eapply quiet_trans; [by apply (quiet_ask (TaRefresh (tc_refresh_token c)))|].
  eapply quiet_trans; [|apply quiet_validate]. eapply quiet_trans; [|apply quiet_persist]. by apply quiet_machine; left.
Qed.

Lemma quiet_accept t e : quiet e (accept_token an t e).2.
Proof.
  unfold accept_token. destruct (token_credentials an t) as [c|]; [|apply quiet_refl].
  eapply quiet_trans; [|apply quiet_validate]. by apply quiet_machine; left.
Qed.

Lemma quiet_disconnect e : quiet e (auth_disconnect an e).2.
Proof.
  unfold auth_disconnect. set (re := match au_credentials _ with Some c => _ | None => _ end).
  assert (quiet e re.2) as Hre by (unfold re; destruct (au_credentials _); [by apply quiet_ask|apply quiet_refl]).
  destruct re as [revoked e1]. cbn [snd] in Hre.
  assert (quiet e (store_delete an (set_pending None e1)).2) as Hd.
  { eapply quiet_trans; [exact Hre|]. unfold store_delete. eapply quiet_trans; [by apply (quiet_machine (λ m, m <| au_pending := None |>)); right|].
    eapply quiet_trans; [by apply (quiet_ask TaDelete)|by split; [|left]]. }
  unfold disconnect_local. destruct (store_delete an (set_pending None e1)) as [[u|err] e2]; cbn [snd] in *;
    (eapply quiet_trans; [exact Hd|by apply quiet_machine; left]).
Qed.

Lemma polls_begin e : polls_ok (an_now an) e → polls_ok (an_now an) (auth_begin instant_max an e).2.
Proof.
  intros Hok. unfold auth_begin. case_bool_decide; [done|]. destruct (isSome _ || _); [done|].
  assert (polls_ok (an_now an) (ask an TaBegin e)) as Hb by (eapply polls_ok_quiet; [by apply quiet_ask|done]).
  assert (∀ c, polls_ok (an_now an) (show (ShowFailed c) (ask an TaBegin e))) as Hf by (intros c; eapply polls_ok_quiet; [by apply quiet_machine; left|done]).
  destruct (an_begin an) as [g|]; [|apply Hf]. destruct (validate_verification_uri _); [|apply Hf].
  destruct (checked_add _ _ _) as [x|]; [|apply Hf]. destruct (checked_add _ _ (from_secs (Z.max _ _))) as [y|] eqn:Ey; [|apply Hf].
  destruct Hb as [P1 P2 P3]. constructor; [done|done|]. intros t p Ht Hp. cbn in Hp. injection Hp as <-. left. cbn.
  unfold checked_add in Ey. destruct (_ <=? _); [|done]. injection Ey as <-. specialize (P2 t Ht).
  unfold from_secs, nanos_per_sec. lia.
Qed.

Lemma polls_poll_again p e :
  polls e = polls e → spaced (from_secs 1) (polls e) → last (polls e) = Some (an_now an) → from_secs 1 ≤ pa_interval p →
  polls_ok (an_now an) (poll_again instant_max an p e).
Proof.
  intros _ Hs Hl Hi. constructor; [done|intros t Ht; change (last (polls e) = Some t) in Ht; simplify_eq; lia|].
  intros t q Ht Hq. change (last (polls e) = Some t) in Ht. rewrite Hl in Ht. injection Ht as <-. cbn in Hq. injection Hq as <-. cbn.
  unfold checked_add. destruct (_ <=? _); cbn; [left; lia|right; lia].
Qed.

Lemma polls_tick_pending e : auth_inv e → polls_ok (an_now an) e → polls_ok (an_now an) (tick_pending instant_max an e).2.
Proof.
  intros Hinv Hok. unfold tick_pending. destruct (au_pending (ev_machine e)) as [p|] eqn:Ep; [|done].
  assert (from_secs 1 ≤ pa_interval p) as Hi by (destruct Hinv as [_ _ _ _ _ Hi]; rewrite Ep in Hi; apply Hi).
  destruct (Z.leb_spec (pa_expires_at p) (an_now an)) as [|He]; [eapply polls_ok_quiet; [|exact Hok]; by split; [|right]|].
  destruct (Z.ltb_spec (an_now an) (pa_next_poll p)) as [|Hn]; [done|].
  set (e1 := ask an (TaPoll (pa_device_code p)) e).
  assert (polls e1 = polls e ++ [an_now an]) as E1 by apply polls_ask.
  assert (spaced (from_secs 1) (polls e1)) as Hs.
  { rewrite E1. destruct Hok as [P1 P2 P3]. apply poll_spaced_snoc; [done|]. intros t Ht. destruct (P3 t p Ht Ep); lia. }
  assert (last (polls e1) = Some (an_now an)) as Hl by (rewrite E1; apply last_snoc).
  assert (∀ e', polls e' = polls e1 → au_pending (ev_machine e') = None → polls_ok (an_now an) e') as Hnone.
  { intros e' E Hp. constructor; rewrite ?E; [done|intros t; rewrite Hl; intros [= <-]; lia|]. intros t q _. by rewrite Hp. }
  clearbody e1. clear E1. destruct (an_poll an) as [[| | | |t]|]; cbn [snd]; try (by apply Hnone); try (by apply polls_poll_again).
  - apply polls_poll_again; [done|done|done|]. cbn. unfold from_secs, nanos_per_sec in *. lia.
  - rewrite (handled_snd instant_max an). eapply polls_ok_quiet; [apply quiet_handled, quiet_accept|]. by apply Hnone.
Qed.

Lemma polls_op op e : auth_inv e → polls_ok (an_now an) e → polls_ok (an_now an) (auth_op instant_max op an e).2.
Proof.
  intros Hinv Hok. destruct op; cbn [auth_op snd].
  - eapply polls_ok_quiet; [apply quiet_restore|done].
  - unfold auth_tick. destruct (isSome _); [by apply polls_tick_pending|]. eapply polls_ok_quiet; [|exact Hok].
    destruct (au_credentials _) as [c|].
    + destruct (is_some_and _ _); [apply quiet_refl|]. destruct (_ <=? _); [rewrite (handled_snd instant_max an); apply quiet_handled, quiet_refresh|].
      destruct (negb _); [apply quiet_refl|]. rewrite (handled_snd instant_max an). apply quiet_handled, quiet_validate.
    + destruct (au_store_may_contain _); [|apply quiet_refl]. destruct (is_some_and _ _); [apply quiet_refl|]. apply quiet_restore.
  - pose proof (polls_begin e Hok) as Hb. by destruct (auth_begin instant_max an e).
  - eapply polls_ok_quiet; [|exact Hok]. by apply quiet_machine; right.
  - eapply polls_ok_quiet; [|exact Hok]. apply quiet_machine. destruct (isSome _); [by right|by left].
  - eapply polls_ok_quiet; [apply quiet_clear|done].
  - pose proof (quiet_disconnect e) as Hb. destruct (auth_disconnect an e). by eapply polls_ok_quiet.
Qed.
End polls.

(** Time does not go back from one operation to the next. *)
Fixpoint times_increase (now : instant) (ops : list (TwAuthOp * AuthAnswers)) : Prop :=
  match ops with [] => True | (_, an) :: ops => now ≤ an_now an ∧ times_increase (an_now an) ops end.

(** C38 However the operations and the answers follow one another, Twitch is
    never asked twice within a second whether the user has consented. *)
Theorem device_polls_spaced `{WebUrls} instant_max client_id ring start ops
    (Hring : from_option tokens_valid True ring) (Htimes : times_increase start ops) :
  spaced (from_secs 1) (polls (auth_ops instant_max ops (auth_env_new client_id ring))).
Proof.
  assert (auth_inv (auth_env_new client_id ring)) as Hinv by (constructor; done).
  assert (polls_ok start (auth_env_new client_id ring)) as Hok by (constructor; done).
  revert Hinv Hok Htimes. generalize (auth_env_new client_id ring) as e. clear Hring. revert start.
  induction ops as [|[op an] ops IH]; intros start e Hinv Hok Ht; cbn in *; [apply Hok|]. destruct Ht as [Hle Ht].
  eapply (IH (an_now an)); [by apply keeps_op| |done]. apply polls_op; [done|].
  destruct Hok as [P1 P2 P3]. constructor; [done| |done]. intros t Hl. specialize (P2 t Hl). lia.
Qed.

(** The refresh token Twitch rotated is stored before anything else is asked
    of the network. *)
Theorem rotated_token_stored_first `{WebUrls} an e c token fresh
    (Hc : au_credentials (ev_machine e) = Some c) (Htoken : an_refresh an = Ok token) (Hfresh : token_credentials an token = Ok fresh) :
  ∃ later, ev_asked (tw_refresh an e).2 =
    ev_asked e ++ [(an_now an, TaRefresh (tc_refresh_token c)); (an_now an, TaSave fresh)] ++ later.
Proof.
  unfold tw_refresh. rewrite Hc, Htoken, Hfresh. set (e1 := persist_current_if_needed an _).
  assert (ev_asked e1 = ev_asked e ++ [(an_now an, TaRefresh (tc_refresh_token c)); (an_now an, TaSave fresh)]) as E1.
  { unfold e1, persist_current_if_needed. cbn. by rewrite <- app_assoc. }
  assert (∃ later, ev_asked (validate_current an e1).2 = ev_asked e1 ++ later) as [later ->]; [|exists later; by rewrite E1, <- app_assoc].
  clearbody e1. clear Hc Htoken Hfresh. unfold validate_current. destruct (au_credentials (ev_machine e1)) as [c1|]; [|exists []; by rewrite app_nil_r].
  destruct (an_validate an) as [v|]; [|eexists; reflexivity]. destruct (validate_identity _ v); [|eexists; reflexivity].
  destruct (checked_add _ _ _); [|eexists; reflexivity]. cbn [snd]. unfold persist_current_if_needed. cbn.
  destruct (negb _); [by eexists|]. cbn. rewrite <- app_assoc. eexists; reflexivity.
Qed.

(** A credential written to the key ring is read back as it was, when
    [serde_json] reads what it wrote. *)
Theorem credentials_stored_back `{CredentialJson} c bytes
    (Hjson : ∀ w b, credential_to_vec w = Some b → credential_from_slice b = Some w)
    (Hvalid : tokens_valid c ∧ tc_expires_at c ≠ 0) (Hsaved : secret_store_save true true c = (Some bytes, Ok tt)) :
  secret_store_load (Some (SecretIs bytes)) = Ok (Some c).
Proof.
  unfold secret_store_save, encode_credentials in Hsaved. cbn [negb] in Hsaved.
  destruct (credential_to_vec _) as [b|] eqn:E; [|done]. cbn in Hsaved. destruct (_ <? _) eqn:El; [done|]. injection Hsaved as <-.
  cbn. unfold decode_credentials. rewrite El, (Hjson _ _ E). cbn. unfold tw_credentials_new.
  destruct Hvalid as [[H1 H2] H3%Z.eqb_neq]. rewrite H1, H2, H3. cbn. by destruct c.
Qed.

(** Cancelling a sign-in that was completed meanwhile leaves the credentials
    where they are but the machine disconnected: it neither connects nor lets
    the user begin again. *)
Theorem late_cancel_strands `{WebUrls} instant_max an e c (Hc : au_credentials (ev_machine e) = Some c) (Hid : au_client_id (ev_machine e) ≠ []) :
  let e := auth_cancel e in
  can_connect (ev_machine e) = false ∧ (auth_begin instant_max an e).1 = Err AeSessionExists ∧ au_credentials (ev_machine e) = Some c.
Proof.
  cbn. unfold can_connect. cbn. rewrite Hc. split; [done|]. split; [|done]. unfold auth_begin. cbn. by rewrite bool_decide_false, Hc by done.
Qed.

(** * A sign-in from begin to end *)

(** The one URL Twitch gives. *)
#[local] Instance example_twitch_urls : WebUrls := λ url,
  if str_eqb url (lit "https://www.twitch.tv/activate")
  then Some (mkParsedUrl (lit "https") (Some (lit "www.twitch.tv")) [] [] None (Some 443) (lit "/activate") None [] None) else None.

Definition example_grant : DeviceCodeGrant := mkDeviceCodeGrant (lit "device") (lit "ABCD") (lit "https://www.twitch.tv/activate") 600 5.
Definition example_token (access : string) : TwitchToken := mkTwitchToken (lit access) (lit "refresh") 14000 REQUIRED_SCOPES.
Definition example_identity : TokenValidation := mkTokenValidation (lit "client") (lit "viewer") (lit "42") REQUIRED_SCOPES 14000.

Definition example_answers (at_secs : Z) (poll : result TwitchHttpError TokenPoll) : AuthAnswers :=
  mkAuthAnswers (from_secs at_secs) (1000000 + at_secs) None (λ _, true) (Ok tt) (Ok example_grant) poll (Ok (example_token "fresh"))
    (Ok example_identity) (Ok tt).

Definition example_sign_in : list (TwAuthOp * AuthAnswers) :=
  [(TopBegin, example_answers 1 (Err TwTimeout)); (TopTick, example_answers 2 (Ok PollPending)); (TopTick, example_answers 6 (Ok PollPending));
   (TopTick, example_answers 11 (Ok PollSlowDown)); (TopTick, example_answers 16 (Ok PollPending));
   (TopTick, example_answers 21 (Ok (PollAuthorized (example_token "access"))))].

Definition example_signed_in : AuthEnv :=
  auth_ops (from_secs u32_max) ((TopRestore, example_answers 0 (Err TwTimeout)) :: example_sign_in) (auth_env_new (lit "client") None).

Lemma twitch_sign_in_consistent_witness :
  can_connect (ev_machine example_signed_in) = true ∧ au_persisted (ev_machine example_signed_in) = true
  ∧ ∃ c r, au_credentials (ev_machine example_signed_in) = Some c ∧ ev_ring example_signed_in = Some r ∧ same_tokens c r.
Proof.
  split; [by vm_compute|]. split; [by vm_compute|].
  destruct (twitch_sign_in_consistent (from_secs u32_max) (lit "client") None (example_answers 0 (Err TwTimeout)) example_sign_in I) as [H _].
  apply H. by vm_compute.
Defined.

Lemma twitch_sign_out_clears_witness :
  is_Some (ev_ring example_signed_in) ∧ ev_ring (auth_op (from_secs u32_max) TopSignOut (example_answers 30 (Err TwTimeout)) example_signed_in).2 = None.
Proof.
  split; [by eexists; vm_compute|]. apply twitch_sign_out_clears. by vm_compute.
Defined.

Lemma device_polls_spaced_witness :
  polls example_signed_in = [from_secs 6; from_secs 11; from_secs 21] ∧ spaced (from_secs 1) (polls example_signed_in).
Proof.
  split; [by vm_compute|]. apply (device_polls_spaced (from_secs u32_max) (lit "client") None 0 ((TopRestore, example_answers 0 (Err TwTimeout)) :: example_sign_in) I).
  vm_compute. by repeat split.
Defined.

Lemma rotated_token_stored_first_witness :
  ∃ later, ev_asked (tw_refresh (example_answers 14000 (Err TwTimeout)) example_signed_in).2 =
    ev_asked example_signed_in ++
    [(from_secs 14000, TaRefresh (lit "refresh")); (from_secs 14000, TaSave (mkTwitchCredentials (lit "fresh") (lit "refresh") 1028000))] ++ later.
Proof.
  apply (rotated_token_stored_first (example_answers 14000 (Err TwTimeout)) example_signed_in
    (mkTwitchCredentials (lit "access") (lit "refresh") 1014021) (example_token "fresh")); by vm_compute.
Defined.

Lemma late_cancel_strands_witness :
  can_connect (ev_machine example_signed_in) = true ∧ can_connect (ev_machine (auth_cancel example_signed_in)) = false.
Proof.
  split; [by vm_compute|].
  apply (late_cancel_strands (from_secs u32_max) (example_answers 30 (Err TwTimeout)) example_signed_in (mkTwitchCredentials (lit "access") (lit "refresh") 1014021));
    by vm_compute.
Defined.

(** A codec of credentials as lists, the lengths first. *)
#[local] Instance example_credential_json : CredentialJson := {|
  credential_to_vec w := Some ([cw_schema_version w; cw_expires_at w; Z.of_nat (length (cw_access_token w))] ++ cw_access_token w ++ cw_refresh_token w);
  credential_from_slice b :=
    match b with
    | version :: expires_at :: n :: rest => Some (mkCredentialWire version (take (Z.to_nat n) rest) (drop (Z.to_nat n) rest) expires_at)
    | _ => None
    end
|}.

Lemma credentials_stored_back_witness :
  ∃ bytes, secret_store_save true true (mkTwitchCredentials (lit "access") (lit "refresh") 7) = (Some bytes, Ok tt)
  ∧ secret_store_load (Some (SecretIs bytes)) = Ok (Some (mkTwitchCredentials (lit "access") (lit "refresh") 7)).
Proof.
  eexists. split; [by vm_compute|]. apply credentials_stored_back; [|by repeat split|by vm_compute].
  intros [v a r x] b [= <-]. cbn. by rewrite Nat2Z.id, take_app_length, drop_app_length.
Defined.
