(* ===== verification/TwitchClient.v ===== *)
(** The worker behind the Twitch chat widget
    ([crates/overcrow-overlay/src/twitch/client.rs]): the gate, the sign-in,
    the EventSub connection, the chat and its sending, as a machine that
    moves one turn of its loop at a time. Sockets and HTTP are the
    environment of a turn; the clock is read where the code reads it. *)

From S2P Require Import Prelude Ordered Text Timing Http OverlayRuntime TwitchPrefs TwitchChat TwitchHttp TwitchAuth.

Definition INITIAL_EVENTSUB_URL : str := lit "wss://eventsub.wss.twitch.tv/ws".
Definition TW_INITIAL_BACKOFF : duration := from_secs 1.
Definition TW_MAXIMUM_BACKOFF : duration := from_secs 60.
Definition KEEPALIVE_GRACE : duration := from_secs 10.
Definition CHAT_PUBLICATION_DELAY : duration := from_millis 33.
#[global] Arguments INITIAL_EVENTSUB_URL : simpl never.
#[global] Arguments TW_INITIAL_BACKOFF : simpl never.
#[global] Arguments TW_MAXIMUM_BACKOFF : simpl never.

(** [client.rs]'s own [BackendError]. *)
Inductive TwBackendError := BeConnection | BeTimeout | BeProtocol | BeAuthentication | BeChannelUnavailable | BeProvider.
#[export] Instance TwBackendError_eq_dec : EqDecision TwBackendError.
Proof. solve_decision. Defined.

Record TwitchGate := mkTwitchGate {
  tg_lifecycle_enabled : bool; tg_active_game_authorized : bool; tg_widget_enabled : bool; tg_channel : option str
}.
#[export] Instance TwitchGate_eta : Eta TwitchGate := λ g,
  mkTwitchGate (tg_lifecycle_enabled g) (tg_active_game_authorized g) (tg_widget_enabled g) (tg_channel g).
#[export] Instance TwitchGate_eq_dec : EqDecision TwitchGate.
Proof. solve_decision. Defined.

Definition gate_default : TwitchGate := mkTwitchGate false false false None.
Definition gate_normalized (g : TwitchGate) : TwitchGate := g <| tg_channel := tg_channel g ≫= (λ c, ok_opt (normalize_twitch_channel c)) |>.
Definition allows_control (g : TwitchGate) : bool := tg_lifecycle_enabled g && tg_active_game_authorized g && tg_widget_enabled g.
Definition gate_open (g : TwitchGate) : bool := allows_control g && isSome (tg_channel g).

(** [set_gate]: the gate the worker sees. *)
Definition set_gate (asked current : TwitchGate) : TwitchGate :=
  let gate := gate_normalized asked in if bool_decide (current = gate) then current else gate.

Inductive TwitchConnectionState :=
  CnInert | CnDisconnected | CnAuthorizing | CnConnecting | CnJoined | CnReconnecting | CnFailed (category : TwitchFailureCategory).
#[export] Instance TwitchConnectionState_eq_dec : EqDecision TwitchConnectionState.
Proof. solve_decision. Defined.

Inductive ReceiptState := ReceiptAccepted | ReceiptRejected.
Record TwitchSendReceipt := mkTwitchSendReceipt { sr_request_id : Z; sr_state : ReceiptState }.

Record DeviceAuthorization := mkDeviceAuthorization { da_user_code : str; da_verification_uri : str; da_expires_at : instant }.

Record TwitchSnapshot := mkTwitchSnapshot {
  ts_generation : Z;
  ts_channel : option str;
  ts_connection : TwitchConnectionState;
  ts_messages : list TwitchMessage;
  ts_authorization : option DeviceAuthorization;
  ts_authenticated_login : option str;
  ts_credentials_available : bool;
  ts_credentials_persisted : bool;
  ts_client_configured : bool;
  ts_send_receipt : option TwitchSendReceipt
}.

Inductive TwitchCommand :=
| TcBegin | TcCancel | TcDisconnect | TcSignOut | TcReconnect
| TcSend (request_id generation : Z) (channel text : str) (reply_to : option str).

Record TwWorkerState := mkTwWorkerState {
  ws_connection : TwitchConnectionState;
  ws_channel : option str;
  ws_channel_identity : option str;
  ws_buffer : list TwitchMessage;
  ws_send_receipt : option TwitchSendReceipt;
  ws_generation : Z;
  ws_user_paused : bool;
  ws_delivery_dedup : DeliveryDedup;
  ws_snapshot_due : option instant
}.
#[export] Instance TwWorkerState_eta : Eta TwWorkerState := λ s,
  mkTwWorkerState (ws_connection s) (ws_channel s) (ws_channel_identity s) (ws_buffer s) (ws_send_receipt s) (ws_generation s)
    (ws_user_paused s) (ws_delivery_dedup s) (ws_snapshot_due s).

Definition tw_worker_state_default : TwWorkerState := mkTwWorkerState CnInert None None [] None 0 false dedup_new None.

Definition state_snapshot (s : TwWorkerState) (m : AuthMachine) : TwitchSnapshot :=
  let '(authorization, connection) :=
    match au_presentation m with
    | ShowAwaitingUser user_code uri expires_at => (Some (mkDeviceAuthorization user_code uri expires_at), CnAuthorizing)
    | ShowFailed category => (None, CnFailed category)
    | ShowDisconnected | ShowConnected _ _ => (None, ws_connection s)
    end in
  mkTwitchSnapshot (ws_generation s) (ws_channel s) connection (ws_buffer s) authorization (authenticated_login m) (credentials_available m)
    (au_persisted m) (is_configured m) (ws_send_receipt s).

Definition tw_clear_private_state (s : TwWorkerState) : TwWorkerState :=
  s <| ws_channel_identity := None |> <| ws_buffer := [] |> <| ws_send_receipt := None |> <| ws_delivery_dedup := dedup_new |>
    <| ws_snapshot_due := None |> <| ws_generation := saturating_add u64_max (ws_generation s) 1 |>.
Definition pause_chat (s : TwWorkerState) : TwWorkerState := s <| ws_user_paused := true |> <| ws_connection := CnDisconnected |>.

(** * Backoff *)

Record TwBackoff := mkTwBackoff { bo_initial : duration; bo_current : duration; bo_maximum : duration }.
#[export] Instance TwBackoff_eta : Eta TwBackoff := λ b, mkTwBackoff (bo_initial b) (bo_current b) (bo_maximum b).
Definition tw_backoff_new (initial maximum : duration) : TwBackoff := mkTwBackoff initial initial maximum.
Definition tw_backoff_next (b : TwBackoff) : duration * TwBackoff :=
  (bo_current b, b <| bo_current := Z.min (saturating_mul duration_max (bo_current b) 2) (bo_maximum b) |>).
Definition tw_backoff_reset (b : TwBackoff) : TwBackoff := b <| bo_current := bo_initial b |>.

(** * The worker *)

(** What the worker does to the world besides its sign-in: what it publishes,
    asks of Twitch, and reports of its health. *)
Inductive TwAction :=
| DoPublish (s : TwitchSnapshot)
| DoResolve (login : str)
| DoConnect (url : str)
| DoSubscribe (session_id broadcaster_id user_id : str) (s : ChatSubscription)
| DoSend (broadcaster_id sender_id text : str) (reply_to : option str)
| DoCloseSocket
| DoHealth (c : HealthCall).

Record TwitchProvider := mkTwitchProvider {
  tp_auth : AuthEnv;
  tp_state : TwWorkerState;
  tp_gate : TwitchGate;                    (* [active_gate] *)
  tp_socket : bool;                        (* whether one is open *)
  tp_keepalive_timeout : option duration;
  tp_keepalive_deadline : option instant;
  tp_restore_attempted : bool;
  tp_reconnect_at : instant;
  tp_backoff : TwBackoff;
  tp_actions : list TwAction
}.
#[export] Instance TwitchProvider_eta : Eta TwitchProvider := λ p,
  mkTwitchProvider (tp_auth p) (tp_state p) (tp_gate p) (tp_socket p) (tp_keepalive_timeout p) (tp_keepalive_deadline p)
    (tp_restore_attempted p) (tp_reconnect_at p) (tp_backoff p) (tp_actions p).

(** What the world answers during one turn: the clock before and after the
    calls that block, the sign-in's answers, and the network's. A socket that
    connects says something, ends or fails before the timeout or not. *)
Record TwEnv := mkTwEnv {
  te_now : instant;
  te_after : instant;
  te_auth : AuthAnswers;
  te_resolve : result TwitchHttpError str;
  te_connect : result TwBackendError unit;
  te_first : result TwBackendError (option str);
  te_subscribe : ChatSubscription → result TwitchHttpError unit;
  te_send : result TwitchHttpError ChatSendResult
}.

(** What wakes the worker: [WakeDeadline] is the deadline of the sign-in, or
    of the next connection. *)
Inductive TwWake :=
| WakeStop
| WakeGate
| WakeCommand (c : option TwitchCommand)
| WakeDeadline
| WakeSocket (message : result TwBackendError (option str))
| WakeKeepalive
| WakeSnapshotDue.

Record TwTurn := mkTwTurn { tt_shutdown : bool; tt_gate : TwitchGate; tt_wake : option TwWake; tt_env : TwEnv }.

(** How a turn ends: with another, with the end of the worker, or in a
    panic. *)
Inductive TurnEnd := TurnContinues (p : TwitchProvider) | TurnStops (p : TwitchProvider) | TurnPanics (p : TwitchProvider).

Definition tw_act (a : TwAction) (p : TwitchProvider) : TwitchProvider := p <| tp_actions ::= (λ l, l ++ [a]) |>.
Definition tw_health (c : HealthCall) : TwitchProvider → TwitchProvider := tw_act (DoHealth c).
Definition tw_publish (p : TwitchProvider) : TwitchProvider := tw_act (DoPublish (state_snapshot (tp_state p) (ev_machine (tp_auth p)))) p.
Definition on_state (f : TwWorkerState → TwWorkerState) (p : TwitchProvider) : TwitchProvider := p <| tp_state ::= f |>.
Definition connecting (c : TwitchConnectionState) : TwitchProvider → TwitchProvider := on_state (λ s, s <| ws_connection := c |>).
Definition close_socket (p : TwitchProvider) : TwitchProvider := if tp_socket p then tw_act DoCloseSocket (p <| tp_socket := false |>) else p.
Definition forget_keepalive (p : TwitchProvider) : TwitchProvider := p <| tp_keepalive_timeout := None |> <| tp_keepalive_deadline := None |>.
Definition set_receipt (request_id : Z) (s : ReceiptState) : TwitchProvider → TwitchProvider :=
  on_state (λ st, st <| ws_send_receipt := Some (mkTwitchSendReceipt request_id s) |>).

Definition backend_category (e : TwBackendError) : FailureCategory :=
  match e with
  | BeConnection => FcConnection
  | BeTimeout => FcTimeout
  | BeProtocol => FcValidation
  | BeAuthentication | BeChannelUnavailable | BeProvider => FcResponse
  end.

Definition auth_error_category (e : TwAuthError) : FailureCategory :=
  match e with
  | AeClientUnavailable | AeSessionExists => FcValidation
  | AeInvalidCredentials => FcResponse
  | AeCredentials _ => FcFilesystem
  | AeProvider TwTimeout => FcTimeout
  | AeProvider TwTransport => FcTransport
  | AeProvider (TwInvalidUrl | TwInvalidRequest) => FcValidation
  | AeProvider (TwStatus _ | TwBodyTooLarge | TwProviderResponse) => FcResponse
  end.

Definition eventsub_category (e : EventSubParseError) : FailureCategory :=
  match e with
  | EsOversized => FcValidation
  | EsMalformed => FcParse
  | EsInvalidEnvelope => FcResponse
  | EsInvalidRouting => FcRouting
  | EsInvalidIdentity => FcIdentity
  | EsInvalidContent => FcContent
  end.

Definition report_auth_failure (p : TwitchProvider) : TwitchProvider :=
  match au_presentation (ev_machine (tp_auth p)) with
  | ShowFailed TfCredentialStore => tw_health (HealthFailed FcFilesystem) p
  | ShowFailed (TfAuthentication | TfAuthorizationExpired) => tw_health (HealthFailed FcResponse) p
  | ShowFailed _ => tw_health (HealthFailed FcValidation) p
  | _ => p
  end.

Definition map_http_error (e : TwitchHttpError) (resolving_channel : bool) : TwBackendError :=
  match e with
  | TwTimeout => BeTimeout
  | TwTransport => BeConnection
  | TwStatus status =>
      if (status =? 401) || (status =? 403) then BeAuthentication
      else if (status =? 404) && resolving_channel then BeChannelUnavailable
      else if resolving_channel then BeChannelUnavailable else BeProvider
  | TwInvalidUrl | TwInvalidRequest | TwBodyTooLarge => BeProtocol
  | TwProviderResponse => if resolving_channel then BeChannelUnavailable else BeProvider
  end.

Section worker.
Context `{WebUrls, EventSubJson}.
Variable instant_max : instant.

Section turn.
Variable env : TwEnv.

Definition later (at_ : instant) (d : duration) : option instant := checked_add instant_max at_ d.
Definition far_future : instant := default (te_now env) (later (te_now env) (from_secs (24 * 60 * 60))).
Definition auth_deadline (p : TwitchProvider) : instant :=
  default far_future (next_deadline instant_max (te_now env) (an_unix (te_auth env)) (ev_machine (tp_auth p))).
Definition keepalive_deadline_after (timeout : duration) : option instant := later (te_after env) (dur_saturating_add timeout KEEPALIVE_GRACE).

(** The next attempt to connect, after a failure. *)
Definition reconnect_after (p : TwitchProvider) : TwitchProvider :=
  let '(delay, backoff) := tw_backoff_next (tp_backoff p) in
  p <| tp_reconnect_at := default (te_after env) (later (te_after env) delay) |> <| tp_backoff := backoff |>.

Definition auth_ticks (p : TwitchProvider) : TwitchProvider :=
  report_auth_failure (p <| tp_auth ::= (λ e, (auth_tick instant_max (te_auth env) e).2) |>).

Definition apply_connection_failure (error : TwBackendError) (p : TwitchProvider) : TwitchProvider :=
  let p := on_state (λ s, s <| ws_channel_identity := None |>) p in
  match error with
  | BeAuthentication =>
      connecting (CnFailed TfAuthentication) (p <| tp_auth ::= clear_invalid_credentials (te_auth env) TfAuthentication |>)
  | BeChannelUnavailable => connecting (CnFailed TfChannelUnavailable) p
  | BeConnection | BeTimeout => connecting CnReconnecting p
  | BeProtocol | BeProvider => connecting (CnFailed TfProviderResponse) p
  end.

(** [connect_and_welcome]: nothing when reading the welcome panics. *)
Definition connect_and_welcome (url : str) (p : TwitchProvider) : TwitchProvider * option (result TwBackendError (str * duration)) :=
  if negb (valid_eventsub_url url) then (p, Some (Err BeProtocol))
  else
    let p := tw_act (DoConnect url) p in
    match te_connect env with
    | Err e => (p, Some (Err e))
    | Ok _ =>
        match te_first env with
        | Err e => (p, Some (Err e))
        | Ok None => (p, Some (Err BeConnection))
        | Ok (Some raw) =>
            match parse_eventsub_message raw with
            | None => (p, None)
            | Some (Err _) => (p, Some (Err BeProtocol))
            | Some (Ok message) =>
                (p, Some match em_kind message with EventWelcome session_id keepalive => Ok (session_id, keepalive) | _ => Err BeProtocol end)
            end
        end
    end.

(** The three subscriptions, until one is refused. *)
Fixpoint subscribe_all (session_id broadcaster_id user_id : str) (subscriptions : list ChatSubscription) (p : TwitchProvider) :
    TwitchProvider * result TwBackendError unit :=
  match subscriptions with
  | [] => (p, Ok tt)
  | subscription :: rest =>
      let p := tw_act (DoSubscribe session_id broadcaster_id user_id subscription) p in
      match te_subscribe env subscription with
      | Err error => (p, Err (map_http_error error false))
      | Ok _ => subscribe_all session_id broadcaster_id user_id rest p
      end
  end.

(** [connect_initial]: the channel and the keepalive timeout. *)
Definition connect_initial (p : TwitchProvider) : TwitchProvider * option (result TwBackendError (str * duration)) :=
  match access_token (ev_machine (tp_auth p)), authenticated_user_id (ev_machine (tp_auth p)) with
  | None, _ | _, None => (p, Some (Err BeAuthentication))
  | Some _, Some user_id =>
      match tg_channel (tp_gate p) with
      | None => (p, Some (Err BeChannelUnavailable))
      | Some login =>
          let p := tw_act (DoResolve login) p in
          match te_resolve env with
          | Err error => (p, Some (Err (map_http_error error true)))
          | Ok channel =>
              match connect_and_welcome INITIAL_EVENTSUB_URL p with
              | (p, None) => (p, None)
              | (p, Some (Err error)) => (p, Some (Err error))
              | (p, Some (Ok (session_id, keepalive))) =>
                  let '(p, r) := subscribe_all session_id channel user_id [SubMessage; SubClear; SubMessageDelete] p in
                  (p, Some (match r with Ok _ => Ok (channel, keepalive) | Err error => Err error end))
              end
          end
      end
  end.

Definition apply_event (event : EventSubKind) (s : TwWorkerState) : TwWorkerState * result TwBackendError bool :=
  match ws_channel_identity s with
  | None => (s, Err BeProtocol)
  | Some expected =>
      match event with
      | EventKeepalive | EventUnsupported => (s, Ok false)
      | EventChatMessage broadcaster message =>
          if str_eqb broadcaster expected then (s <| ws_buffer ::= upsert_received message (te_now env) |>, Ok true) else (s, Err BeProtocol)
      | EventChatClear broadcaster =>
          if str_eqb broadcaster expected then (s <| ws_buffer := [] |>, Ok true) else (s, Err BeProtocol)
      | EventChatMessageDelete broadcaster message_id =>
          if str_eqb broadcaster expected then (s <| ws_buffer ::= remove_message message_id |>, Ok true) else (s, Err BeProtocol)
      | EventRevocation RevokedAuthentication => (s, Err BeAuthentication)
      | EventRevocation RevokedChannelUnavailable => (s, Err BeChannelUnavailable)
      | EventRevocation RevokedProvider => (s, Err BeProvider)
      | EventWelcome _ _ | EventReconnect _ => (s, Err BeProtocol)
      end
  end.

Definition schedule_chat_publication (s : TwWorkerState) : TwWorkerState :=
  match ws_snapshot_due s with None => s <| ws_snapshot_due := later (te_now env) CHAT_PUBLICATION_DELAY |> | Some _ => s end.

(** The outcome of a sign-in operation, whose error is tw_reported. *)
Definition tw_reported (r : result TwAuthError unit) (p : TwitchProvider) : TwitchProvider :=
  match r with Ok _ => p | Err error => tw_health (HealthFailed (auth_error_category error)) p end.

Definition sign_out (p : TwitchProvider) : result TwAuthError unit * TwitchProvider :=
  let '(r, auth) := auth_disconnect (te_auth env) (tp_auth p) in (r, p <| tp_auth := auth |>).

Definition handle_closed_command (command : TwitchCommand) (allow_auth : bool) (p : TwitchProvider) : TwitchProvider :=
  let unpaused := on_state (λ s, s <| ws_user_paused := false |>) in
  match command with
  | TcBegin =>
      if allow_auth then
        if can_connect (ev_machine (tp_auth p)) then unpaused p
        else let '(r, auth) := auth_begin instant_max (te_auth env) (tp_auth p) in tw_reported r (p <| tp_auth := auth |>)
      else p
  | TcCancel => p <| tp_auth ::= auth_cancel |>
  | TcDisconnect => on_state pause_chat p
  | TcSignOut => let '(r, p) := sign_out p in tw_reported r (on_state tw_clear_private_state (unpaused p))
  | TcReconnect => if allow_auth then unpaused p else p
  | TcSend request_id _ _ _ _ => set_receipt request_id ReceiptRejected p
  end.

(** What a message must be to be sent at all. *)
Definition may_send (generation : Z) (channel text : str) (p : TwitchProvider) : bool :=
  bool_decide (ws_connection (tp_state p) = CnJoined) && (generation =? ws_generation (tp_state p))
  && bool_decide (ok_opt (normalize_twitch_channel channel) = tg_channel (tp_gate p))
  && negb (bool_decide (trim text = [])) && (length text <=? TWITCH_MESSAGE_MAX_CHARS)%nat && negb (existsb is_control text).

(** The provider after, and whether to disconnect. *)
Definition send_message (request_id generation : Z) (channel text : str) (reply_to : option str) (p : TwitchProvider) : TwitchProvider * bool :=
  let reject := set_receipt request_id ReceiptRejected in
  if negb (may_send generation channel text p) then (reject p, false)
  else
    match ws_channel_identity (tp_state p), access_token (ev_machine (tp_auth p)), authenticated_user_id (ev_machine (tp_auth p)) with
    | Some broadcaster, Some _, Some sender =>
        let display_name := default [] (authenticated_login (ev_machine (tp_auth p))) in
        let nonce := show_Z request_id in
        let '(buffer, pushed) := push_pending nonce display_name text (te_now env) (ws_buffer (tp_state p)) in
        if negb pushed then (reject p, false)
        else
          let p := tw_act (DoSend broadcaster sender text reply_to) (on_state (λ s, s <| ws_buffer := buffer |>) p) in
          let failed := λ p, reject (on_state (λ s, s <| ws_buffer ::= fail_pending nonce |>) p) in
          match te_send env with
          | Ok answer =>
              match cs_is_sent answer, cs_message_id answer with
              | true, Some message_id =>
                  (tw_health HealthRecovered
                     (set_receipt request_id ReceiptAccepted (on_state (λ s, s <| ws_buffer ::= mark_sent nonce message_id |>) p)), false)
              | _, _ => (tw_health (HealthFailed FcResponse) (failed p), false)
              end
          | Err error =>
              let error := map_http_error error false in
              let p := tw_health (HealthFailed (backend_category error)) (failed p) in
              if bool_decide (error = BeAuthentication) then (apply_connection_failure error p, true) else (p, false)
          end
    | _, _, _ => (reject p, false)
    end.

Definition handle_live_command (command : TwitchCommand) (p : TwitchProvider) : TwitchProvider * bool :=
  match command with
  | TcSend request_id generation channel text reply_to => send_message request_id generation channel text reply_to p
  | TcReconnect => (on_state (λ s, s <| ws_user_paused := false |> <| ws_connection := CnReconnecting |>) p, true)
  | TcDisconnect => (on_state pause_chat p, true)
  | TcSignOut =>
      let '(r, p) := sign_out p in
      (on_state (λ s, tw_clear_private_state (s <| ws_user_paused := false |>) <| ws_connection := CnDisconnected |>) (tw_reported r p), true)
  | TcBegin => (p, false)
  | TcCancel => (p <| tp_auth ::= auth_cancel |>, false)
  end.

(** A change of the gate, at the top of the loop. *)
Definition change_gate (gate : TwitchGate) (p : TwitchProvider) : TwitchProvider :=
  if bool_decide (gate = tp_gate p) then p
  else
    let channel_changed := negb (bool_decide (tg_channel gate = tg_channel (tp_gate p))) in
    let lost_lifecycle := negb (tg_lifecycle_enabled gate) || negb (tg_widget_enabled gate) in
    let p := forget_keepalive (close_socket p) in
    let p := if lost_lifecycle || channel_changed then on_state tw_clear_private_state p else p in
    let p := if channel_changed then on_state (λ s, s <| ws_user_paused := false |>) p else p in
    let p := if lost_lifecycle then p <| tp_auth ::= auth_cancel_pending |> else p in
    let p := on_state (λ s, s <| ws_channel := tg_channel gate |>
                              <| ws_connection := if allows_control gate then CnDisconnected else CnInert |>) p in
    tw_publish (p <| tp_gate := gate |> <| tp_reconnect_at := te_now env |> <| tp_backoff ::= tw_backoff_reset |>).

(** A connection that ended, or could not be replaced. *)
Definition dropped (error : TwBackendError) (p : TwitchProvider) : TwitchProvider :=
  reconnect_after
    (tw_health (HealthFailed (backend_category error))
       (apply_connection_failure error ((close_socket p) <| tp_keepalive_timeout := None |>))).

(** What a message of the socket does: the provider after it and whether to
    publish, or nothing when reading it panics. A message that cannot be read
    skips the end of the turn altogether. *)
Inductive SocketEffect := EffPanic (p : TwitchProvider) | EffSkip (p : TwitchProvider) | EffDone (p : TwitchProvider) (publish_now : bool).

Definition handle_socket_message (raw : str) (p : TwitchProvider) : SocketEffect :=
  let p := p <| tp_keepalive_deadline := tp_keepalive_timeout p ≫= keepalive_deadline_after |> in
  match parse_eventsub_message raw with
  | None => EffPanic p
  | Some (Err error) => EffSkip (tw_health (HealthFailed (eventsub_category error)) p)
  | Some (Ok parsed) =>
      let '(fresh, dedup) := dedup_insert (em_delivery_id parsed) (ws_delivery_dedup (tp_state p)) in
      let p := on_state (λ s, s <| ws_delivery_dedup := dedup |>) p in
      if negb fresh then EffDone p false
      else
        match em_kind parsed with
        | EventReconnect url =>
            let p := tw_publish (connecting CnReconnecting p) in
            match connect_and_welcome url p with
            | (p, None) => EffPanic p
            | (p, Some (Ok (_, timeout))) =>
                let p := close_socket p <| tp_socket := true |> <| tp_keepalive_timeout := Some timeout |>
                           <| tp_keepalive_deadline := keepalive_deadline_after timeout |> in
                EffDone (tw_health HealthRecovered (connecting CnJoined p)) true
            | (p, Some (Err error)) => EffDone (dropped error p) true
            end
        | kind =>
            match apply_event kind (tp_state p) with
            | (s, Ok true) => EffDone (on_state schedule_chat_publication (tw_health HealthRecovered (p <| tp_state := s |>))) false
            | (s, Ok false) => EffDone (tw_health HealthRecovered (p <| tp_state := s |>)) false
            | (s, Err BeProtocol) => EffDone (tw_health (HealthFailed FcValidation) (p <| tp_state := s |>)) false
            | (s, Err error) => EffDone (dropped error (p <| tp_state := s |>)) true
            end
        end
  end.

(** The end of a turn with an open connection. *)
Definition end_of_turn (publish_now : bool) (p : TwitchProvider) : TwitchProvider :=
  if publish_now then tw_publish (on_state (λ s, s <| ws_snapshot_due := None |>) p) else p.

Definition connection_lost (p : TwitchProvider) : TwitchProvider :=
  reconnect_after (tw_health (HealthFailed FcConnection) (connecting CnReconnecting (forget_keepalive (close_socket p)))).

Definition live_turn (wake : TwWake) (p : TwitchProvider) : option TurnEnd :=
  match wake with
  | WakeStop => Some (TurnStops (close_socket p))
  | WakeGate => Some (TurnContinues p)
  | WakeCommand None => Some (TurnStops p)
  | WakeCommand (Some command) =>
      let '(p, disconnect) := handle_live_command command p in
      let p := if disconnect : bool then forget_keepalive (close_socket p) <| tp_reconnect_at := te_after env |> else p in
      Some (TurnContinues (end_of_turn true p))
  | WakeSocket (Ok (Some raw)) =>
      Some match handle_socket_message raw p with
           | EffPanic p => TurnPanics p
           | EffSkip p => TurnContinues p
           | EffDone p publish_now => TurnContinues (end_of_turn publish_now p)
           end
  | WakeSocket (Ok None) | WakeSocket (Err _) => Some (TurnContinues (end_of_turn true (connection_lost p)))
  | WakeKeepalive =>
      if default far_future (tp_keepalive_deadline p) <=? te_after env then Some (TurnContinues (end_of_turn true (connection_lost p))) else None
  | WakeDeadline =>
      if auth_deadline p <=? te_after env then
        let p := auth_ticks p in
        let p := if can_connect (ev_machine (tp_auth p)) then p else connecting CnDisconnected (forget_keepalive (close_socket p)) in
        Some (TurnContinues (end_of_turn true p))
      else None
  | WakeSnapshotDue =>
      if default far_future (ws_snapshot_due (tp_state p)) <=? te_after env
      then Some (TurnContinues (end_of_turn true (on_state (λ s, s <| ws_snapshot_due := None |>) p))) else None
  end.

(** Waiting without a connection: for another gate, a command, or a deadline
    that does [timely]. *)
Definition waiting_turn (wake : TwWake) (deadline : instant) (timely : TwitchProvider → TwitchProvider) (p : TwitchProvider) : option TurnEnd :=
  match wake with
  | WakeStop => Some (TurnStops p)
  | WakeGate => Some (TurnContinues (tw_publish p))
  | WakeCommand None => Some (TurnStops p)
  | WakeCommand (Some command) => Some (TurnContinues (tw_publish (handle_closed_command command true p)))
  | WakeDeadline => if deadline <=? te_after env then Some (TurnContinues (tw_publish (timely p))) else None
  | _ => None
  end.

(** Waiting while the gate forbids everything. *)
Definition forbidden_turn (wake : TwWake) (p : TwitchProvider) : option TurnEnd :=
  match wake with
  | WakeStop | WakeCommand None => Some (TurnStops p)
  | WakeGate => Some (TurnContinues p)
  | WakeCommand (Some command) => Some (TurnContinues (tw_publish (handle_closed_command command false p)))
  | _ => None
  end.

Definition connect_turn (p : TwitchProvider) : TurnEnd :=
  let p := tw_publish (connecting CnConnecting p) in
  match connect_initial p with
  | (p, None) => TurnPanics p
  | (p, Some (Ok (channel, keepalive))) =>
      let p := on_state (λ s, s <| ws_channel_identity := Some channel |>) p in
      let p := p <| tp_socket := true |> <| tp_keepalive_timeout := Some keepalive |> <| tp_keepalive_deadline := keepalive_deadline_after keepalive |> in
      TurnContinues (tw_publish (tw_health HealthRecovered (connecting CnJoined p <| tp_backoff ::= tw_backoff_reset |>)))
  | (p, Some (Err error)) =>
      TurnContinues (tw_publish (reconnect_after (tw_health (HealthFailed (backend_category error)) (apply_connection_failure error p))))
  end.

Definition restore_turn (p : TwitchProvider) : TwitchProvider :=
  tw_publish (report_auth_failure (p <| tp_restore_attempted := true |> <| tp_auth ::= (λ e, (tw_restore instant_max (te_auth env) e).2) |>)).

(** What the loop does below its check of the gate; turns that wait for
    nothing have no wake. *)
Definition gated_turn (wake : option TwWake) (p : TwitchProvider) : option TurnEnd :=
  if negb (allows_control (tp_gate p)) then wake ≫= λ w, forbidden_turn w p
  else if negb (tp_restore_attempted p) then match wake with None => Some (TurnContinues (restore_turn p)) | Some _ => None end
  else if negb (can_connect (ev_machine (tp_auth p))) || negb (gate_open (tp_gate p)) || ws_user_paused (tp_state p) then
    let p := if ws_user_paused (tp_state p) || isNone (tg_channel (tp_gate p)) then connecting CnDisconnected p else p in
    wake ≫= λ w, waiting_turn w (auth_deadline p) auth_ticks p
  else if negb (tp_socket p) then
    if te_now env <? tp_reconnect_at p then
      let deadline := Z.min (tp_reconnect_at p) (auth_deadline p) in
      wake ≫= λ w, waiting_turn w deadline (λ p, if deadline =? auth_deadline p then auth_ticks p else p) p
    else match wake with None => Some (connect_turn p) | Some _ => None end
  else wake ≫= λ w, live_turn w p.
End turn.

(** One turn of [run_provider]'s loop. *)
Definition provider_turn (t : TwTurn) (p : TwitchProvider) : option TurnEnd :=
  if tt_shutdown t then Some (TurnStops (close_socket p))
  else gated_turn (tt_env t) (tt_wake t) (change_gate (tt_env t) (tt_gate t) p).

(** The worker as it is spawned, its first snapshot published. *)
Definition twitch_spawned (client_id : str) (ring : option TwitchCredentials) (now : instant) : TwitchProvider :=
  tw_publish (mkTwitchProvider (auth_env_new client_id ring) tw_worker_state_default gate_default false None None false now
                (tw_backoff_new TW_INITIAL_BACKOFF TW_MAXIMUM_BACKOFF) []).

(** Turn after turn while the worker runs. *)
Fixpoint twitch_run (turns : list TwTurn) (p : TwitchProvider) : option TurnEnd :=
  match turns with
  | [] => Some (TurnContinues p)
  | t :: turns =>
      match provider_turn t p with
      | Some (TurnContinues p) => twitch_run turns p
      | Some end_ => match turns with [] => Some end_ | _ => None end
      | None => None
      end
  end.

Definition turn_provider (e : TurnEnd) : TwitchProvider := match e with TurnContinues p | TurnStops p | TurnPanics p => p end.
End worker.

(** * What is shown comes from the channel *)

Section shown.
Context `{WebUrls, EventSubJson}.

(** A message of the chat: one Twitch sent for the channel that a login was
    resolved to, or one sent from here. *)
Definition from_channel (turns : list TwTurn) (channel : option str) (m : TwitchMessage) : Prop :=
  ∃ broadcaster asked heard raw delivery p,
    asked ∈ turns ∧ tg_channel (tt_gate asked) = channel ∧ te_resolve (tt_env asked) = Ok broadcaster
    ∧ heard ∈ turns ∧ tt_wake heard = Some (WakeSocket (Ok (Some raw)))
    ∧ parse_eventsub_message raw = Some (Ok (mkEventSubMessage delivery (EventChatMessage broadcaster p)))
    ∧ tm_id m = pm_id p ∧ tm_display_name m = pm_display_name p ∧ tm_text m = pm_text p ∧ tm_fragments m = pm_fragments p.

Definition from_here (turns : list TwTurn) (m : TwitchMessage) : Prop :=
  ∃ sent request_id generation channel reply_to,
    sent ∈ turns ∧ tt_wake sent = Some (WakeCommand (Some (TcSend request_id generation channel (tm_text m) reply_to)))
    ∧ tm_client_nonce m = Some (show_Z request_id).

Definition message_shown (turns : list TwTurn) (channel : option str) (m : TwitchMessage) : Prop :=
  (from_channel turns channel m ∨ from_here turns m) ∧ tm_send_state m ≠ SendPending.

Definition chat_ok (turns : list TwTurn) (channel : option str) (b : list TwitchMessage) : Prop :=
  (length b ≤ TWITCH_MESSAGE_BUFFER_MAX)%nat ∧ Forall (message_shown turns channel) b.

Definition action_ok (turns : list TwTurn) (a : TwAction) : Prop :=
  match a with DoPublish s => chat_ok turns (ts_channel s) (ts_messages s) | _ => True end.

Definition backoff_ok (b : TwBackoff) : Prop :=
  bo_initial b = TW_INITIAL_BACKOFF ∧ bo_maximum b = TW_MAXIMUM_BACKOFF ∧ TW_INITIAL_BACKOFF ≤ bo_current b ≤ TW_MAXIMUM_BACKOFF.

(** The worker at any point of a turn. *)
Record worker_inv (turns : list TwTurn) (p : TwitchProvider) : Prop := mkWorkerInv {
  wi_channel : ws_channel (tp_state p) = tg_channel (tp_gate p);
  wi_identity : ∀ id, ws_channel_identity (tp_state p) = Some id →
    ∃ t, t ∈ turns ∧ tg_channel (tt_gate t) = tg_channel (tp_gate p) ∧ te_resolve (tt_env t) = Ok id;
  wi_chat : chat_ok turns (tg_channel (tp_gate p)) (ws_buffer (tp_state p));
  wi_backoff : backoff_ok (tp_backoff p);
  wi_published : Forall (action_ok turns) (tp_actions p)
}.

Lemma message_shown_mono turns turns' channel m : turns ⊆ turns' → message_shown turns channel m → message_shown turns' channel m.
Proof.
  intros Ht [Hm Hp]. split; [|done]. destruct Hm as [Hm|Hm]; [left|right].
  - destruct Hm as (b & t1 & t2 & raw & d & p & H1 & H2 & H3 & H4 & Hr). exists b, t1, t2, raw, d, p. split_and!; try apply Hr; auto.
  - destruct Hm as (t & r & g & c & re & H1 & Hr). exists t, r, g, c, re. split; [auto|done].
Qed.

Lemma worker_inv_mono turns turns' p : turns ⊆ turns' → worker_inv turns p → worker_inv turns' p.
Proof.
  intros Ht [I1 I2 [I3 I3'] I4 I5]. constructor; [done| | |done|].
  - intros id Hid. destruct (I2 id Hid) as (t & Hin & Hr). exists t. auto.
  - split; [done|]. eapply Forall_impl; [exact I3'|]. intros m. by apply message_shown_mono.
  - eapply Forall_impl; [exact I5|]. intros [s| | | | | |]; cbn; try done. intros [H1 H2]. split; [done|].
    eapply Forall_impl; [exact H2|]. intros m. by apply message_shown_mono.
Qed.

Section turns.
Variable turns : list TwTurn.
Abbreviation inv := (worker_inv turns).

Lemma inv_act a p : inv p → action_ok turns a → inv (tw_act a p).
Proof. intros [] Ha. constructor; cbn; try done. apply Forall_app. split; [done|by constructor]. Qed.

Lemma inv_health c p : inv p → inv (tw_health c p).
Proof. intros Hp. by apply inv_act. Qed.

Lemma inv_publish p : inv p → inv (tw_publish p).
Proof.
  intros Hp. apply inv_act; [done|]. destruct Hp as [I1 I2 I3 I4 I5]. unfold state_snapshot.
  destruct (au_presentation _); cbn; by rewrite I1.
Qed.

Lemma inv_close p : inv p → inv (close_socket p).
Proof. intros Hp. unfold close_socket. destruct (tp_socket p); [|done]. apply inv_act; [|done]. by destruct Hp. Qed.

Lemma inv_forget p : inv p → inv (forget_keepalive p).
Proof. by intros []. Qed.

Lemma inv_auth f p : inv p → inv (p <| tp_auth ::= f |>).
Proof. by intros []. Qed.

(** A change of the state that keeps channel, identity and chat. *)
Lemma inv_state f p :
  ws_channel (f (tp_state p)) = ws_channel (tp_state p) →
  (ws_channel_identity (f (tp_state p)) = ws_channel_identity (tp_state p) ∨ ws_channel_identity (f (tp_state p)) = None) →
  chat_ok turns (tg_channel (tp_gate p)) (ws_buffer (f (tp_state p))) → inv p → inv (on_state f p).
Proof. intros H1 H2 H3 []. constructor; cbn; try done; [by rewrite H1|]. intros id Hid. destruct H2 as [H2|H2]; rewrite H2 in Hid; [auto|done]. Qed.

Lemma inv_connecting c p : inv p → inv (connecting c p).
Proof. intros Hp. apply inv_state; [done|by left|apply Hp|done]. Qed.

Lemma inv_receipt i r p : inv p → inv (set_receipt i r p).
Proof. intros Hp. apply inv_state; [done|by left|apply Hp|done]. Qed.

Lemma inv_reconnect_after env instant_max p : inv p → inv (reconnect_after instant_max env p).
Proof.
  intros [I1 I2 I3 (B1 & B2 & B3) I5]. constructor; cbn; try done. split; [done|]. split; [done|]. cbn. rewrite B2.
  unfold TW_INITIAL_BACKOFF, TW_MAXIMUM_BACKOFF, saturating_mul, duration_max, from_secs, nanos_per_sec, u64_max in *. lia.
Qed.

Lemma inv_report p : inv p → inv (report_auth_failure p).
Proof. intros Hp. unfold report_auth_failure. destruct (au_presentation _) as [| | |[]]; try done; by apply inv_health. Qed.

Lemma inv_failure env e p : inv p → inv (apply_connection_failure env e p).
Proof.
  intros Hp. unfold apply_connection_failure. assert (inv (on_state (λ s, s <| ws_channel_identity := None |>) p)) as Hp1.
  { apply inv_state; [done|by right|apply Hp|done]. }
  destruct e; apply inv_connecting; [done..|by apply inv_auth|done|done].
Qed.

Lemma inv_dropped env instant_max e p : inv p → inv (dropped instant_max env e p).
Proof. intros Hp. apply inv_reconnect_after, inv_health, inv_failure. apply inv_close in Hp. by destruct Hp. Qed.

Lemma inv_lost env instant_max p : inv p → inv (connection_lost instant_max env p).
Proof. intros Hp. by apply inv_reconnect_after, inv_health, inv_connecting, inv_forget, inv_close. Qed.

Lemma inv_end_of_turn b p : inv p → inv (end_of_turn b p).
Proof. intros Hp. destruct b; [|done]. apply inv_publish, inv_state; [done|by left|apply Hp|done]. Qed.

Lemma inv_auth_ticks env instant_max p : inv p → inv (auth_ticks instant_max env p).
Proof. intros Hp. by apply inv_report, inv_auth. Qed.

Lemma inv_clear p : inv p → inv (on_state tw_clear_private_state p).
Proof. intros Hp. apply inv_state; [done|by right| |done]. split; [cbn; lia|constructor]. Qed.

Lemma inv_connect_welcome env url p : inv p → inv (connect_and_welcome env url p).1.
Proof.
  intros Hp. unfold connect_and_welcome. destruct (negb _); [done|].
  assert (inv (tw_act (DoConnect url) p)) by (by apply inv_act). destruct (te_connect env); [|done].
  destruct (te_first env) as [[raw|]|]; [|done|done]. by destruct (parse_eventsub_message raw) as [[m|]|].
Qed.

Lemma inv_subscribe_all env session broadcaster user subs p : inv p → inv (subscribe_all env session broadcaster user subs p).1.
Proof.
  revert p. induction subs as [|s subs IH]; intros p Hp; cbn; [done|].
  assert (inv (tw_act (DoSubscribe session broadcaster user s) p)) by (by apply inv_act). destruct (te_subscribe env s); [by apply IH|done].
Qed.

Lemma inv_connect_initial env p : inv p → inv (connect_initial env p).1.
Proof.
  intros Hp. unfold connect_initial.
  destruct (access_token (ev_machine (tp_auth p))) as [token|], (authenticated_user_id (ev_machine (tp_auth p))) as [user|]; try done.
  destruct (tg_channel (tp_gate p)) as [login|]; [|done].
  assert (inv (tw_act (DoResolve login) p)) as Hr by (by apply inv_act). destruct (te_resolve env) as [channel|]; [|done].
  pose proof (inv_connect_welcome env INITIAL_EVENTSUB_URL _ Hr) as Hc. destruct (connect_and_welcome _ _ _) as [p1 [[[session keepalive]|]|]]; cbn [fst] in *; [|done|done].
  pose proof (inv_subscribe_all env session channel user [SubMessage; SubClear; SubMessageDelete] p1 Hc) as Hs.
  by destruct (subscribe_all env session channel user _ p1).
Qed.

(** Pieces of the buffer's operations. *)
Lemma change_first_Forall {A} (P : A → Prop) q (f : A → A) l : Forall P l → (∀ x, P x → q x = true → P (f x)) → Forall P (change_first q f l).
Proof. induction 1 as [|x l Hx Hl IH]; intros Hf; cbn; [constructor|]. destruct (q x) eqn:E; constructor; auto. Qed.

Lemma change_first_length {A} q (f : A → A) l : length (change_first q f l) = length l.
Proof. induction l as [|x l IH]; cbn; [done|]. destruct (q x); cbn; congruence. Qed.

Lemma buffer_push_ok channel m b : message_shown turns channel m → chat_ok turns channel b → chat_ok turns channel (buffer_push m b).
Proof.
  intros Hm [Hl Hb]. unfold buffer_push.
  assert (0 < TWITCH_MESSAGE_BUFFER_MAX)%nat as Hmax by (apply Nat.ltb_lt; by vm_compute).
  split.
  - rewrite length_app. cbn. destruct (Nat.eqb_spec (length b) TWITCH_MESSAGE_BUFFER_MAX); [rewrite length_drop|]; lia.
  - apply Forall_app. split; [|by constructor]. destruct (_ =? _)%nat; [by apply Forall_drop|done].
Qed.

Lemma upsert_ok channel parsed at_ b :
  (∀ m, tm_id m = pm_id parsed → tm_display_name m = pm_display_name parsed → tm_text m = pm_text parsed → tm_fragments m = pm_fragments parsed →
    from_channel turns channel m) →
  chat_ok turns channel b → chat_ok turns channel (upsert_received parsed at_ b).
Proof.
  intros Hm Hb. unfold upsert_received. set (received := _ <| tm_client_nonce := _ |>).
  assert (message_shown turns channel received) as Hr by (split; [left; by apply Hm|done]). clearbody received.
  destruct (existsb _ b); [|by apply buffer_push_ok]. destruct Hb as [Hl Hb]. split; [by rewrite change_first_length|].
  by apply change_first_Forall.
Qed.

Lemma remove_ok channel id b : chat_ok turns channel b → chat_ok turns channel (remove_message id b).
Proof.
  intros [Hl Hb]. unfold remove_message. split; [etrans; [apply length_filter|done]|].
  rewrite Forall_forall in *. intros m [_ Hm]%list_elem_of_filter. by apply Hb.
Qed.

(** The event of a delivery heard in one of the turns. *)
Lemma inv_apply_event env heard raw delivery event p :
  heard ∈ turns → tt_wake heard = Some (WakeSocket (Ok (Some raw))) → parse_eventsub_message raw = Some (Ok (mkEventSubMessage delivery event)) →
  inv p → inv (p <| tp_state := (apply_event env event (tp_state p)).1 |>).
Proof.
  intros Ht Hw Hraw Hp. unfold apply_event. destruct (ws_channel_identity (tp_state p)) as [expected|] eqn:Ei; [|by destruct Hp].
  assert (inv (p <| tp_state := tp_state p |>)) as Hsame by (by destruct Hp).
  destruct event as [| |url|[]|broadcaster parsed|broadcaster|broadcaster id|]; cbn [fst]; try done.
  - destruct (str_eqb broadcaster expected) eqn:Eb; [|done]. apply str_eqb_eq in Eb as ->.
    apply (inv_state (λ s, s <| ws_buffer ::= upsert_received parsed (te_now env) |>)); [done|by left| |done]. cbn.
    destruct Hp as [I1 I2 I3 I4 I5]. apply upsert_ok; [|done]. intros m H1 H2 H3 H4.
    destruct (I2 _ Ei) as (t & Hin & Hch & Hres). by exists expected, t, heard, raw, delivery, parsed.
  - destruct (str_eqb broadcaster expected); [|done].
    apply (inv_state (λ s, s <| ws_buffer := [] |>)); [done|by left| |done]. split; [cbn; lia|constructor].
  - destruct (str_eqb broadcaster expected); [|done].
    apply (inv_state (λ s, s <| ws_buffer ::= remove_message id |>)); [done|by left| |done]. cbn. by apply remove_ok, Hp.
Qed.

Definition effect_provider (e : SocketEffect) : TwitchProvider := match e with EffPanic p | EffSkip p | EffDone p _ => p end.

Lemma inv_socket_message env instant_max heard raw p :
  heard ∈ turns → tt_wake heard = Some (WakeSocket (Ok (Some raw))) → inv p → inv (effect_provider (handle_socket_message instant_max env raw p)).
Proof.
  intros Ht Hw Hp. unfold handle_socket_message.
  set (p1 := p <| tp_keepalive_deadline := _ |>). assert (inv p1) as Hp1 by (by destruct Hp). clearbody p1. clear Hp.
  destruct (parse_eventsub_message raw) as [[[delivery event]|error]|] eqn:Eraw; cbn [effect_provider em_delivery_id em_kind]; [|by apply inv_health|done].
  destruct (dedup_insert delivery _) as [fresh dedup]. cbn beta iota.
  set (p2 := on_state _ p1). assert (inv p2) as Hp2 by (apply inv_state; [done|by left|apply Hp1|done]). clearbody p2. clear Hp1 p1.
  destruct (negb fresh); [done|].
  assert (inv (p2 <| tp_state := (apply_event env event (tp_state p2)).1 |>)) as Hev by (by eapply inv_apply_event).
  assert (∀ x, apply_event env event (tp_state p2) = x → inv (effect_provider match x with
            | (s, Ok true) => EffDone (on_state (schedule_chat_publication instant_max env) (tw_health HealthRecovered (p2 <| tp_state := s |>))) false
            | (s, Ok false) => EffDone (tw_health HealthRecovered (p2 <| tp_state := s |>)) false
            | (s, Err BeProtocol) => EffDone (tw_health (HealthFailed FcValidation) (p2 <| tp_state := s |>)) false
            | (s, Err error) => EffDone (dropped instant_max env error (p2 <| tp_state := s |>)) true
            end)) as Hrest.
  { intros [s r] Ex. rewrite Ex in Hev. cbn [fst] in Hev. destruct r as [[]|e]; cbn [effect_provider].
    - unfold schedule_chat_publication. apply inv_state; [|left| |by apply inv_health]; destruct (ws_snapshot_due _); try done; apply Hev.
    - by apply inv_health.
    - destruct e; cbn [effect_provider]; first [by apply inv_dropped | by apply inv_health]. }
  destruct event; try (by apply (Hrest _ eq_refl)). clear Hrest Hev.
  pose proof (inv_connect_welcome env url _ (inv_publish _ (inv_connecting CnReconnecting _ Hp2))) as Hc.
  destruct (connect_and_welcome env url _) as [p3 [[[session timeout]|error]|]]; cbn [fst effect_provider] in *; [|by apply inv_dropped|done].
  apply inv_health, inv_connecting. apply inv_close in Hc. by destruct Hc.
Qed.

Lemma change_first_last {A} q (f : A → A) l x : Forall (λ y, q y = false) l → q x = true → change_first q f (l ++ [x]) = l ++ [f x].
Proof. intros Hl Hx. induction Hl as [|y l Hy Hl IH]; cbn; [by rewrite Hx|]. by rewrite Hy, IH. Qed.

(** A message pushed as pending and answered: the buffer after. *)
Lemma pending_answered channel nonce name text at_ b b' (f : TwitchMessage → TwitchMessage) :
  chat_ok turns channel b → push_pending nonce name text at_ b = (b', true) →
  let m := mkTwitchMessage [] name None text [FragmentText text] None at_ (Some nonce) SendPending in
  message_shown turns channel (f m) → chat_ok turns channel (change_first (is_pending_nonce nonce) f b').
Proof.
  intros Hb Hpush m Hm. unfold push_pending in Hpush. destruct (_ <=? _)%nat; [done|]. injection Hpush as <-. fold m.
  pose proof (buffer_push_ok channel (f m) b Hm Hb) as Hok. unfold buffer_push in *.
  rewrite change_first_last; [done| |].
  - assert (Forall (λ y, is_pending_nonce nonce y = false) b) as Hn.
    { destruct Hb as [_ Hb]. eapply Forall_impl; [exact Hb|]. intros y [_ Hy]. unfold is_pending_nonce, is_pending. by rewrite bool_decide_false. }
    destruct (_ =? _)%nat; [by apply Forall_drop|done].
  - unfold is_pending_nonce, is_pending. cbn. by rewrite !bool_decide_true.
Qed.

Lemma inv_sent (f : list TwitchMessage → list TwitchMessage) buffer broadcaster sender text reply_to p :
  inv p → chat_ok turns (tg_channel (tp_gate p)) (f buffer) →
  inv (on_state (λ s, s <| ws_buffer ::= f |>) (tw_act (DoSend broadcaster sender text reply_to) (on_state (λ s, s <| ws_buffer := buffer |>) p))).
Proof. intros [] Hf. constructor; cbn; try done. apply Forall_app. split; [done|by constructor]. Qed.

Lemma inv_send env sent request_id generation channel text reply_to p :
  sent ∈ turns → tt_wake sent = Some (WakeCommand (Some (TcSend request_id generation channel text reply_to))) →
  inv p → inv (send_message env request_id generation channel text reply_to p).1.
Proof.
  intros Ht Hw Hp. unfold send_message. destruct (negb (may_send _ _ _ _)); [by apply inv_receipt|].
  destruct (ws_channel_identity (tp_state p)) as [broadcaster|]; [|by apply inv_receipt].
  destruct (access_token (ev_machine (tp_auth p))); [|by apply inv_receipt].
  destruct (authenticated_user_id (ev_machine (tp_auth p))) as [sender|]; [|by apply inv_receipt].
  destruct (push_pending _ _ _ _ _) as [buffer pushed] eqn:Epush. destruct pushed; cbn [negb]; [|by apply inv_receipt].
  assert (∀ f : TwitchMessage → TwitchMessage, (∀ m, tm_text (f m) = tm_text m ∧ tm_client_nonce (f m) = tm_client_nonce m ∧ tm_send_state (f m) ≠ SendPending) →
    chat_ok turns (tg_channel (tp_gate p)) (change_first (is_pending_nonce (show_Z request_id)) f buffer)) as Hf.
  { intros f Hm. eapply pending_answered; [apply Hp|exact Epush|]. set (m := mkTwitchMessage _ _ _ _ _ _ _ _ _).
    destruct (Hm m) as (E1 & E2 & E3). split; [right|done]. exists sent, request_id, generation, channel, reply_to. rewrite E1, E2. done. }
  assert (inv (on_state (λ s, s <| ws_buffer ::= fail_pending (show_Z request_id) |>)
            (tw_act (DoSend broadcaster sender text reply_to) (on_state (λ s, s <| ws_buffer := buffer |>) p)))) as Hfail by (apply inv_sent; [done|by apply Hf]).
  destruct (te_send env) as [answer|error]; cbn beta iota.
  - destruct (cs_is_sent answer), (cs_message_id answer) as [id|]; cbn [fst]; try (by apply inv_health, inv_receipt).
    apply inv_health, inv_receipt. apply inv_sent; [done|by apply Hf].
  - case_bool_decide; cbn [fst]; [apply inv_failure|]; by apply inv_health, inv_receipt.
Qed.

Lemma inv_reported r p : inv p → inv (tw_reported r p).
Proof. destruct r; [done|apply inv_health]. Qed.

Lemma inv_unpaused p : inv p → inv (on_state (λ s, s <| ws_user_paused := false |>) p).
Proof. intros Hp. apply inv_state; [done|by left|apply Hp|done]. Qed.

Lemma inv_pause p : inv p → inv (on_state pause_chat p).
Proof. intros Hp. apply inv_state; [done|by left|apply Hp|done]. Qed.

Lemma inv_closed_command env instant_max c allow p : inv p → inv (handle_closed_command instant_max env c allow p).
Proof.
  intros Hp. destruct c; cbn [handle_closed_command].
  - destruct allow; [|done]. destruct (can_connect _); [by apply inv_unpaused|]. destruct (auth_begin _ _ _) as [r a]. apply inv_reported. by destruct Hp.
  - by apply inv_auth.
  - by apply inv_pause.
  - unfold sign_out. destruct (auth_disconnect _ _) as [r a]. apply inv_reported, inv_clear, inv_unpaused. by destruct Hp.
  - destruct allow; [by apply inv_unpaused|done].
  - by apply inv_receipt.
Qed.

Lemma inv_live_command env sent c p : sent ∈ turns → tt_wake sent = Some (WakeCommand (Some c)) → inv p → inv (handle_live_command env c p).1.
Proof.
  intros Ht Hw Hp. destruct c; cbn [handle_live_command fst]; try done.
  - by apply inv_auth.
  - by apply inv_pause.
  - unfold sign_out. destruct (auth_disconnect _ _) as [r a]. cbn [fst].
    apply inv_state; [done|by right|split; [cbn; lia|constructor]|]. apply inv_reported. by destruct Hp.
  - apply inv_state; [done|by left|apply Hp|done].
  - by eapply inv_send.
Qed.

Lemma inv_live_turn env instant_max sent w p e :
  sent ∈ turns → tt_wake sent = Some w → inv p → live_turn instant_max env w p = Some e → inv (turn_provider e).
Proof.
  intros Ht Hw Hp. destruct w as [| |[c|]| |[[raw|]|err]| |]; cbn [live_turn].
  - intros Hx; apply Some_inj in Hx as <-; cbn [turn_provider]. by apply inv_close.
  - by intros Hx; apply Some_inj in Hx as <-.
  - pose proof (inv_live_command env sent c p Ht Hw Hp) as Hc. destruct (handle_live_command env c p) as [p1 d]. cbn [fst] in Hc.
    intros Hx; apply Some_inj in Hx as <-; cbn [turn_provider]. apply inv_end_of_turn. destruct d; [|done]. apply inv_close, inv_forget in Hc. by destruct Hc.
  - by intros Hx; apply Some_inj in Hx as <-.
  - destruct (_ <=? _); [|done]. intros Hx; apply Some_inj in Hx as <-; cbn [turn_provider]. apply inv_end_of_turn. apply (inv_auth_ticks env instant_max) in Hp.
    destruct (can_connect _); [done|]. by apply inv_connecting, inv_forget, inv_close.
  - pose proof (inv_socket_message env instant_max sent raw p Ht Hw Hp) as Hm. intros Hx; apply Some_inj in Hx as <-; cbn [turn_provider].
    destruct (handle_socket_message _ _ _ _) as [p1|p1|p1 b]; cbn in *; [done|done|by apply inv_end_of_turn].
  - intros Hx; apply Some_inj in Hx as <-; cbn [turn_provider]. by apply inv_end_of_turn, inv_lost.
  - intros Hx; apply Some_inj in Hx as <-; cbn [turn_provider]. by apply inv_end_of_turn, inv_lost.
  - destruct (_ <=? _); [|done]. intros Hx; apply Some_inj in Hx as <-; cbn [turn_provider]. by apply inv_end_of_turn, inv_lost.
  - destruct (_ <=? _); [|done]. intros Hx; apply Some_inj in Hx as <-; cbn [turn_provider]. apply inv_end_of_turn, inv_state; [done|by left|apply Hp|done].
Qed.

Lemma inv_waiting_turn env instant_max w deadline timely p e :
  (inv p → inv (timely p)) → inv p → waiting_turn instant_max env w deadline timely p = Some e → inv (turn_provider e).
Proof.
  intros Hf Hp. destruct w as [| |[c|]| | | |]; cbn [waiting_turn]; try done; try (by intros Hx; apply Some_inj in Hx as <-; cbn [turn_provider]; first [done|by apply inv_publish]).
  - intros Hx; apply Some_inj in Hx as <-; cbn [turn_provider]. by apply inv_publish, inv_closed_command.
  - destruct (_ <=? _); [|done]. intros Hx; apply Some_inj in Hx as <-; cbn [turn_provider]. by apply inv_publish, Hf.
Qed.

Lemma inv_forbidden_turn env instant_max w p e : inv p → forbidden_turn instant_max env w p = Some e → inv (turn_provider e).
Proof.
  intros Hp. destruct w as [| |[c|]| | | |]; cbn [forbidden_turn]; try done; try (by intros Hx; apply Some_inj in Hx as <-).
  intros Hx; apply Some_inj in Hx as <-; cbn [turn_provider]. by apply inv_publish, inv_closed_command.
Qed.

(** Connecting changes nothing but what was asked, and joins the channel that
    was resolved. *)
Lemma connect_and_welcome_same env url p :
  tp_gate (connect_and_welcome env url p).1 = tp_gate p ∧ tp_socket (connect_and_welcome env url p).1 = tp_socket p.
Proof.
  unfold connect_and_welcome. destruct (negb _); [done|]. destruct (te_connect env); [|done].
  destruct (te_first env) as [[raw|]|]; [|done|done]. by destruct (parse_eventsub_message raw) as [[m|]|].
Qed.

Lemma subscribe_all_same env session broadcaster user subs p :
  tp_gate (subscribe_all env session broadcaster user subs p).1 = tp_gate p ∧ tp_socket (subscribe_all env session broadcaster user subs p).1 = tp_socket p.
Proof. revert p. induction subs as [|s subs IH]; intros p; cbn; [done|]. destruct (te_subscribe env s); [|done]. by destruct (IH (tw_act (DoSubscribe session broadcaster user s) p)) as [-> ->]. Qed.

Lemma connect_initial_resolved env p :
  (tp_gate (connect_initial env p).1 = tp_gate p ∧ tp_socket (connect_initial env p).1 = tp_socket p)
  ∧ ∀ channel k, (connect_initial env p).2 = Some (Ok (channel, k)) → te_resolve env = Ok channel.
Proof.
  unfold connect_initial.
  destruct (access_token (ev_machine (tp_auth p))) as [token|], (authenticated_user_id (ev_machine (tp_auth p))) as [user|]; try done.
  destruct (tg_channel (tp_gate p)) as [login|]; [|done]. destruct (te_resolve env) as [channel|]; [|done].
  pose proof (connect_and_welcome_same env INITIAL_EVENTSUB_URL (tw_act (DoResolve login) p)) as Hg.
  destruct (connect_and_welcome _ _ _) as [p1 [[[session keepalive]|]|]]; cbn [fst snd] in *; [|done|done].
  pose proof (subscribe_all_same env session channel user [SubMessage; SubClear; SubMessageDelete] p1) as [H1 H2].
  destruct (subscribe_all env session channel user _ p1) as [p2 r]. cbn [fst snd] in *. split; [by rewrite H1, H2|].
  intros c k. destruct r; [|done]. by intros [= <- <-].
Qed.

Lemma inv_connect_turn env instant_max current p :
  current ∈ turns → tt_env current = env → tg_channel (tt_gate current) = tg_channel (tp_gate p) →
  inv p → inv (turn_provider (connect_turn instant_max env p)).
Proof.
  intros Ht He Hg Hp. unfold connect_turn. set (p0 := tw_publish _).
  assert (inv p0) as Hp0 by (by apply inv_publish, inv_connecting). assert (tp_gate p0 = tp_gate p) as Eg by done. clearbody p0.
  pose proof (inv_connect_initial env p0 Hp0) as Hc.
  pose proof (connect_initial_resolved env p0) as [[Eg1 _] Er].
  destruct (connect_initial env p0) as [p1 [[[channel keepalive]|error]|]] eqn:Ec; cbn [fst snd turn_provider] in *; [| |done].
  - apply inv_publish, inv_health. specialize (Er _ _ eq_refl).
    destruct Hc as [I1 I2 I3 (B1 & B2 & B3) I5]. constructor; cbn; try done.
    + intros id [= <-]. exists current. split; [done|]. split; [congruence|congruence].
    + split; [done|]. split; [done|]. cbn. rewrite B1. unfold TW_INITIAL_BACKOFF, TW_MAXIMUM_BACKOFF, from_secs, nanos_per_sec. lia.
  - by apply inv_publish, inv_reconnect_after, inv_health, inv_failure.
Qed.

Lemma inv_change_gate env gate p : inv p → inv (change_gate env gate p) ∧ tp_gate (change_gate env gate p) = gate.
Proof.
  intros Hp. unfold change_gate. destruct (bool_decide (gate = tp_gate p)) eqn:E; [by apply bool_decide_eq_true in E as ->|].
  cbv zeta. split; [|done]. apply inv_publish.
  set (changed := negb (bool_decide (tg_channel gate = tg_channel (tp_gate p)))).
  set (lost := negb (tg_lifecycle_enabled gate) || negb (tg_widget_enabled gate)).
  assert (inv (forget_keepalive (close_socket p))) as H1 by (by apply inv_forget, inv_close).
  set (p1 := if lost || changed then _ else _).
  assert (inv p1 ∧ tp_gate p1 = tp_gate p ∧ (changed = true → ws_channel_identity (tp_state p1) = None ∧ ws_buffer (tp_state p1) = [])) as (H2 & G2 & C2).
  { unfold p1. assert (tp_gate (forget_keepalive (close_socket p)) = tp_gate p) as G by (unfold close_socket; by destruct (tp_socket p)).
    destruct lost, changed; cbn [orb]; split_and!; try done; by apply inv_clear. }
  clearbody p1. clear H1.
  set (p2 := if changed then on_state _ p1 else p1).
  assert (inv p2 ∧ tp_gate p2 = tp_gate p ∧ (changed = true → ws_channel_identity (tp_state p2) = None ∧ ws_buffer (tp_state p2) = [])) as (H3 & G3 & C3).
  { unfold p2. destruct changed; [|done]. split; [by apply inv_unpaused|done]. }
  clearbody p2. clear H2 G2 C2 p1.
  set (p3 := if lost then _ else p2).
  assert (inv p3 ∧ tp_gate p3 = tp_gate p ∧ (changed = true → ws_channel_identity (tp_state p3) = None ∧ ws_buffer (tp_state p3) = [])) as (H4 & G4 & C4).
  { unfold p3. destruct lost; [|done]. split; [by apply inv_auth|done]. }
  clearbody p3. clear H3 G3 C3 p2 lost.
  destruct H4 as [I1 I2 I3 (B1 & B2 & B3) I5]. constructor; cbn; try done.
  - intros id Hid. destruct changed eqn:Ec; [by destruct (C4 eq_refl) as [C _]; rewrite C in Hid|].
    apply negb_false_iff, bool_decide_eq_true in Ec. rewrite Ec, <- G4. by apply I2.
  - destruct changed eqn:Ec; [destruct (C4 eq_refl) as [_ ->]; split; [cbn; lia|constructor]|].
    apply negb_false_iff, bool_decide_eq_true in Ec. by rewrite Ec, <- G4.
  - split; [done|]. split; [done|]. cbn. rewrite B1. unfold TW_INITIAL_BACKOFF, TW_MAXIMUM_BACKOFF, from_secs, nanos_per_sec. lia.
Qed.

Lemma inv_turn instant_max t p e : t ∈ turns → inv p → provider_turn instant_max t p = Some e → inv (turn_provider e).
Proof.
  intros Ht Hp. unfold provider_turn. destruct (tt_shutdown t); [intros Hx; apply Some_inj in Hx as <-; by apply inv_close|].
  destruct (inv_change_gate (tt_env t) (tt_gate t) p Hp) as [Hg Eg]. set (p1 := change_gate _ _ _) in *. clearbody p1. clear Hp p.
  unfold gated_turn. destruct (negb (allows_control _)).
  { destruct (tt_wake t) as [w|]; [|done]. by apply inv_forbidden_turn. }
  destruct (negb (tp_restore_attempted p1)).
  { destruct (tt_wake t); [done|]. intros Hx; apply Some_inj in Hx as <-. apply inv_publish, inv_report. by destruct Hg. }
  destruct (_ || _).
  { destruct (tt_wake t) as [w|]; [|done]. apply inv_waiting_turn; [by apply inv_auth_ticks|]. destruct (_ || _); [by apply inv_connecting|done]. }
  destruct (negb (tp_socket p1)).
  { destruct (_ <? _).
    - destruct (tt_wake t) as [w|]; [|done]. apply inv_waiting_turn; [|done]. intros Hq. destruct (_ =? _); [by apply inv_auth_ticks|done].
    - destruct (tt_wake t) as [w|]; [done|]. intros Hx; apply Some_inj in Hx as <-. apply (inv_connect_turn _ _ t); [done|done|by rewrite Eg|done]. }
  destruct (tt_wake t) as [w|] eqn:Ew; [|done]. by apply (inv_live_turn (tt_env t) instant_max t).
Qed.
End turns.

Lemma inv_spawned client_id ring now : worker_inv [] (twitch_spawned client_id ring now).
Proof.
  apply inv_publish. constructor; cbn; try done.
  split; [cbn; lia|constructor].
Qed.

Lemma inv_run instant_max turns past p e : worker_inv past p → twitch_run instant_max turns p = Some e → worker_inv (past ++ turns) (turn_provider e).
Proof.
  revert past p. induction turns as [|t turns IH]; intros past p Hp He; cbn [twitch_run] in He.
  - apply Some_inj in He as <-. by rewrite app_nil_r.
  - assert (worker_inv (past ++ [t]) p) as Hp1 by (eapply worker_inv_mono; [|exact Hp]; by apply list_subseteq_app_l).
    destruct (provider_turn instant_max t p) as [end_|] eqn:Et; [|done].
    assert (worker_inv (past ++ [t]) (turn_provider end_)) as Hend.
    { eapply inv_turn; [|exact Hp1|exact Et]. apply elem_of_app. right. by apply list_elem_of_singleton. }
    assert (past ++ t :: turns = (past ++ [t]) ++ turns) as -> by (by rewrite <- app_assoc).
    destruct end_ as [p1|p1|p1]; [by eapply IH| |]; (destruct turns; [|done]); apply Some_inj in He as <-; by rewrite app_nil_r.
Qed.
End shown.


(** * Nothing is asked while the gate is closed *)

Definition is_network (a : TwAction) : bool :=
  match a with DoResolve _ | DoConnect _ | DoSubscribe _ _ _ _ | DoSend _ _ _ _ => true | _ => false end.

(** Forgetting a sign-in, on the user's demand. *)
Definition forgetting (r : instant * TwAuthRequest) : Prop := match r.2 with TaRevoke _ | TaDelete => True | _ => False end.

(** What a step adds to what was done. *)
Definition adds (P : TwAction → Prop) (Q : instant * TwAuthRequest → Prop) (p p' : TwitchProvider) : Prop :=
  ∃ acts asks, tp_actions p' = tp_actions p ++ acts ∧ Forall P acts
    ∧ ev_asked (tp_auth p') = ev_asked (tp_auth p) ++ asks ∧ Forall Q asks.

(** The socket is open only while the gate is, and [Joined] means it is
    open. *)
Definition joined_ok (p : TwitchProvider) : Prop :=
  (tp_socket p = true → gate_open (tp_gate p) = true) ∧ (ws_connection (tp_state p) = CnJoined → tp_socket p = true).

Section closed.
Context `{WebUrls, EventSubJson}.

Section adds.
Context (P : TwAction → Prop) (Q : instant * TwAuthRequest → Prop).

Lemma adds_refl p : adds P Q p p.
Proof. exists [], []. by rewrite !app_nil_r. Qed.

Lemma adds_trans p1 p2 p3 : adds P Q p1 p2 → adds P Q p2 p3 → adds P Q p1 p3.
Proof.
  intros (a1 & k1 & A1 & A2 & A3 & A4) (a2 & k2 & B1 & B2 & B3 & B4). exists (a1 ++ a2), (k1 ++ k2).
  rewrite B1, B3, A1, A3, !app_assoc. split_and!; try done; by apply Forall_app.
Qed.

Lemma adds_act a p : P a → adds P Q p (tw_act a p).
Proof. intros Ha. exists [a], []. rewrite app_nil_r. split_and!; try done. by constructor. Qed.

Lemma adds_same p p' : tp_actions p' = tp_actions p → ev_asked (tp_auth p') = ev_asked (tp_auth p) → adds P Q p p'.
Proof. intros H1 H2. exists [], []. by rewrite !app_nil_r. Qed.
End adds.

Abbreviation quietly := (adds (λ a, is_network a = false) forgetting).

Lemma quietly_close p : quietly p (close_socket p).
Proof. unfold close_socket. destruct (tp_socket p); [|apply adds_refl]. eapply adds_trans; [|by apply adds_act]. by apply adds_same. Qed.

Lemma quietly_change_gate env gate p : quietly p (change_gate env gate p).
Proof.
  unfold change_gate. case_bool_decide; [apply adds_refl|]. cbv zeta. eapply adds_trans; [apply quietly_close|].
  eapply adds_trans; [|by apply adds_act]. apply adds_same; destruct (_ || _), (negb (bool_decide _)), (_ || _); try done;
    cbn; unfold auth_cancel_pending; by destruct (isSome _).
Qed.

Lemma quietly_sign_out env p : quietly p (sign_out env p).2.
Proof.
  unfold sign_out, auth_disconnect. destruct (au_credentials _) as [c|]; unfold disconnect_local, store_delete; cbn;
    destruct (an_delete _); cbn; exists [].
  - exists [(an_now (te_auth env), TaRevoke (tc_access_token c)); (an_now (te_auth env), TaDelete)]. rewrite app_nil_r. cbn.
    rewrite <- app_assoc. split_and!; try done. by repeat constructor.
  - exists [(an_now (te_auth env), TaRevoke (tc_access_token c)); (an_now (te_auth env), TaDelete)]. rewrite app_nil_r. cbn.
    rewrite <- app_assoc. split_and!; try done. by repeat constructor.
  - exists [(an_now (te_auth env), TaDelete)]. rewrite app_nil_r. split_and!; try done. by repeat constructor.
  - exists [(an_now (te_auth env), TaDelete)]. rewrite app_nil_r. split_and!; try done. by repeat constructor.
Qed.

Lemma quietly_closed_command instant_max env c p : quietly p (handle_closed_command instant_max env c false p).
Proof.
  destruct c; cbn [handle_closed_command]; try (by apply adds_same).
  pose proof (quietly_sign_out env p) as Hs. destruct (sign_out env p) as [r p1]. cbn [snd] in Hs.
  eapply adds_trans; [exact Hs|]. destruct r; [by apply adds_same|]. eapply adds_trans; [|by apply adds_act]. by apply adds_same.
Qed.

Lemma quietly_forbidden instant_max env w p e : forbidden_turn instant_max env w p = Some e → quietly p (turn_provider e).
Proof.
  destruct w as [| |[c|]| | | |]; cbn [forbidden_turn]; try done; try (by intros Hx; apply Some_inj in Hx as <-; apply adds_refl).
  intros Hx; apply Some_inj in Hx as <-. eapply adds_trans; [apply quietly_closed_command|]. by apply adds_act.
Qed.

(** * The socket and what is shown of it *)

Lemma joined_close c p : c ≠ CnJoined → joined_ok (connecting c (close_socket p)).
Proof. intros Hc. unfold joined_ok, close_socket. destruct (tp_socket p) eqn:E; cbn; split; try done; rewrite E; done. Qed.

(** Not joined, whatever the socket. *)
Lemma joined_not p : (tp_socket p = true → gate_open (tp_gate p) = true) → ws_connection (tp_state p) ≠ CnJoined → joined_ok p.
Proof. intros H1 H2. by split. Qed.

(** A failure that finds the socket closed. *)
Lemma joined_closed env e p : tp_socket p = false → joined_ok (apply_connection_failure env e p).
Proof. intros Hs. destruct e; split; cbn; try done; by rewrite Hs. Qed.

Lemma failure_not_joined env e p : ws_connection (tp_state (apply_connection_failure env e p)) ≠ CnJoined.
Proof. by destruct e. Qed.

Lemma failure_socket env e p :
  tp_socket (apply_connection_failure env e p) = tp_socket p ∧ tp_gate (apply_connection_failure env e p) = tp_gate p.
Proof. by destruct e. Qed.

Lemma close_fields p : tp_socket (close_socket p) = false ∧ tp_gate (close_socket p) = tp_gate p ∧ tp_state (close_socket p) = tp_state p.
Proof. unfold close_socket. by destruct (tp_socket p) eqn:E. Qed.

Lemma joined_dropped instant_max env e p : joined_ok (dropped instant_max env e p).
Proof.
  assert (joined_ok (apply_connection_failure env e (close_socket p <| tp_keepalive_timeout := None |>))) as Hj; [|exact Hj].
  apply joined_closed. by destruct (close_fields p).
Qed.

Lemma joined_lost instant_max env p : joined_ok (connection_lost instant_max env p).
Proof.
  unfold connection_lost, reconnect_after. apply joined_not; [|done]. destruct (close_fields p) as [E _]. cbn. by rewrite E.
Qed.

Lemma send_message_joined env r g c text reply p :
  tp_socket (send_message env r g c text reply p).1 = tp_socket p ∧ tp_gate (send_message env r g c text reply p).1 = tp_gate p
  ∧ (ws_connection (tp_state (send_message env r g c text reply p).1) = ws_connection (tp_state p)
     ∨ ws_connection (tp_state (send_message env r g c text reply p).1) ≠ CnJoined).
Proof.
  unfold send_message. destruct (negb (may_send _ _ _ _)); [split_and!; auto|].
  destruct (ws_channel_identity (tp_state p)) as [broadcaster|]; [|split_and!; auto].
  destruct (access_token (ev_machine (tp_auth p))); [|split_and!; auto].
  destruct (authenticated_user_id (ev_machine (tp_auth p))) as [sender|]; [|split_and!; auto].
  destruct (push_pending _ _ _ _ _) as [buffer []]; cbn [negb]; [|split_and!; auto].
  destruct (te_send env) as [answer|error].
  - destruct (cs_is_sent answer), (cs_message_id answer); split_and!; auto.
  - case_bool_decide; cbn [fst]; [|split_and!; auto].
    set (p1 := tw_health _ _). destruct (failure_socket env (map_http_error error false) p1) as [-> ->].
    split_and!; [done|done|right; apply failure_not_joined].
Qed.

Lemma send_message_disconnects env r g c text reply p :
  (send_message env r g c text reply p).2 = true → ws_connection (tp_state (send_message env r g c text reply p).1) ≠ CnJoined.
Proof.
  unfold send_message. destruct (negb (may_send _ _ _ _)); [done|].
  destruct (ws_channel_identity (tp_state p)) as [broadcaster|]; [|done].
  destruct (access_token (ev_machine (tp_auth p))); [|done].
  destruct (authenticated_user_id (ev_machine (tp_auth p))) as [sender|]; [|done].
  destruct (push_pending _ _ _ _ _) as [buffer []]; cbn [negb]; [|done].
  destruct (te_send env) as [answer|error]; [by destruct (cs_is_sent answer), (cs_message_id answer)|].
  case_bool_decide; cbn [fst snd]; [|done]. intros _. apply failure_not_joined.
Qed.

Lemma joined_change_gate env gate p : joined_ok p → joined_ok (change_gate env gate p) ∧ tp_gate (change_gate env gate p) = gate.
Proof.
  intros Hj. unfold change_gate. destruct (bool_decide (gate = tp_gate p)) eqn:E; [by apply bool_decide_eq_true in E as ->|].
  cbv zeta. split; [|done]. destruct (close_fields p) as [E1 _].
  set (changed := negb (bool_decide (tg_channel gate = tg_channel (tp_gate p)))).
  set (lost := negb (tg_lifecycle_enabled gate) || negb (tg_widget_enabled gate)).
  apply joined_not; destruct changed, lost; cbn; try (by rewrite E1); by destruct (allows_control gate).
Qed.

Lemma joined_report p : joined_ok p → joined_ok (report_auth_failure p).
Proof. intros Hj. unfold report_auth_failure. by destruct (au_presentation _) as [| | |[]]. Qed.

Lemma joined_auth_ticks instant_max env p : joined_ok p → joined_ok (auth_ticks instant_max env p).
Proof. intros Hj. by apply joined_report. Qed.

Lemma joined_disconnected p : joined_ok p → joined_ok (connecting CnDisconnected p).
Proof. intros [H1 _]. by apply joined_not. Qed.

Lemma joined_closed_command instant_max env c allow p : joined_ok p → joined_ok (handle_closed_command instant_max env c allow p).
Proof.
  intros Hj. destruct c; cbn [handle_closed_command]; try done.
  - destruct allow; [|done]. destruct (can_connect _); [done|]. destruct (auth_begin _ _ _) as [r a]. by destruct r.
  - destruct Hj. by apply joined_not.
  - unfold sign_out. destruct (auth_disconnect _ _) as [r a]. by destruct r.
  - by destruct allow.
Qed.

Lemma joined_socket_message instant_max env raw p :
  tp_socket p = true → joined_ok p → joined_ok (effect_provider (handle_socket_message instant_max env raw p)).
Proof.
  intros Hs Hj. assert (gate_open (tp_gate p) = true) as Hg by (by apply Hj). unfold handle_socket_message.
  set (p1 := p <| tp_keepalive_deadline := _ |>).
  destruct (parse_eventsub_message raw) as [[[delivery event]|error]|]; cbn [effect_provider em_delivery_id em_kind]; [|done|done].
  destruct (dedup_insert delivery _) as [fresh dedup]. cbn beta iota. set (p2 := on_state _ p1). destruct (negb fresh); [done|].
  assert (∀ s r, apply_event env event (tp_state p2) = (s, r) → ws_connection s = ws_connection (tp_state p2)) as Hc.
  { intros s r. unfold apply_event. destruct (ws_channel_identity _); [|by intros [= <- _]].
    destruct event as [| |url|[]|? ?|?|? ?|]; try (by intros [= <- _]); destruct (str_eqb _ _); by intros [= <- _]. }
  assert (∀ x, apply_event env event (tp_state p2) = x → joined_ok (effect_provider match x with
            | (s, Ok true) => EffDone (on_state (schedule_chat_publication instant_max env) (tw_health HealthRecovered (p2 <| tp_state := s |>))) false
            | (s, Ok false) => EffDone (tw_health HealthRecovered (p2 <| tp_state := s |>)) false
            | (s, Err BeProtocol) => EffDone (tw_health (HealthFailed FcValidation) (p2 <| tp_state := s |>)) false
            | (s, Err error) => EffDone (dropped instant_max env error (p2 <| tp_state := s |>)) true
            end)) as Hrest.
  { intros [s r] Ex. apply Hc in Ex. assert (joined_ok (p2 <| tp_state := s |>)) as Hs2 by (split; cbn; [done|by rewrite Ex]).
    destruct r as [[]|e]; cbn [effect_provider].
    - unfold schedule_chat_publication. split; cbn; [done|]. by destruct (ws_snapshot_due s).
    - done.
    - destruct e; cbn [effect_provider]; first [apply joined_dropped | done]. }
  destruct event; try (by apply (Hrest _ eq_refl)). clear Hrest Hc.
  pose proof (connect_and_welcome_same env url (tw_publish (connecting CnReconnecting p2))) as [E1 E2].
  destruct (connect_and_welcome env url _) as [p3 [[[session timeout]|error]|]]; cbn [fst effect_provider] in *.
  - destruct (close_fields p3) as (_ & F2 & _). split; cbn; [|done]. intros _. by rewrite F2, E1.
  - apply joined_dropped.
  - split; rewrite E2; [by rewrite E1|done].
Qed.

Lemma joined_live_turn instant_max env w p p' :
  tp_socket p = true → joined_ok p → live_turn instant_max env w p = Some (TurnContinues p') → joined_ok p'.
Proof.
  intros Hs Hj. assert (gate_open (tp_gate p) = true) as Hg by (by apply Hj).
  destruct w as [| |[c|]| |[[raw|]|err]| |]; cbn [live_turn]; try done.
  - intros Hx; by apply Some_inj in Hx as [= <-].
  - destruct (handle_live_command env c p) as [p1 d] eqn:Ec. intros Hx; apply Some_inj in Hx.
    assert (p' = end_of_turn true (if d then forget_keepalive (close_socket p1) <| tp_reconnect_at := te_after env |> else p1)) as -> by (by injection Hx).
    assert (joined_ok (if d then forget_keepalive (close_socket p1) <| tp_reconnect_at := te_after env |> else p1)) as Hend; [|exact Hend].
    assert (tp_gate p1 = tp_gate p ∧ (if d then ws_connection (tp_state p1) ≠ CnJoined else joined_ok p1)) as [Eg Hd].
    { destruct c; cbn [handle_live_command] in Ec; try (by injection Ec as <- <-).
      - unfold sign_out in Ec. destruct (auth_disconnect _ _) as [[u|e] a]; by injection Ec as <- <-.
      - pose proof (send_message_joined env request_id generation channel text reply_to p) as (E1 & E2 & E3).
        pose proof (send_message_disconnects env request_id generation channel text reply_to p) as E4.
        rewrite Ec in E1, E2, E3, E4. cbn [fst snd] in *. split; [done|]. destruct d; [by apply E4|].
        split; rewrite E1, ?E2; [done|done]. }
    destruct d; [|done]. destruct (close_fields p1) as (F1 & F2 & F3). apply joined_not; cbn; [by rewrite F1|by rewrite F3].
  - destruct (_ <=? _); [|done]. set (p1 := if can_connect _ then _ else _). intros Hx; apply Some_inj in Hx.
    assert (p' = end_of_turn true p1) as -> by (by injection Hx). assert (joined_ok p1) as Hend; [|exact Hend].
    unfold p1. destruct (can_connect _); [by apply joined_auth_ticks|]. destruct (close_fields (auth_ticks instant_max env p)) as (F1 & _).
    apply joined_not; cbn; [by rewrite F1|done].
  - pose proof (joined_socket_message instant_max env raw p Hs Hj) as Hm.
    destruct (handle_socket_message _ _ _ _) as [p1|p1|p1 b]; cbn in *; intros Hx; apply Some_inj in Hx; try done; injection Hx as <-; [done|].
    by destruct b.
  - intros Hx; apply Some_inj in Hx as [= <-]. apply (joined_lost instant_max env p).
  - intros Hx; apply Some_inj in Hx as [= <-]. apply (joined_lost instant_max env p).
  - destruct (_ <=? _); [|done]. intros Hx; apply Some_inj in Hx as [= <-]. apply (joined_lost instant_max env p).
  - destruct (_ <=? _); [|done]. intros Hx; apply Some_inj in Hx as [= <-]. exact Hj.
Qed.

Lemma joined_waiting instant_max env w deadline timely p p' :
  (joined_ok p → joined_ok (timely p)) → joined_ok p → waiting_turn instant_max env w deadline timely p = Some (TurnContinues p') → joined_ok p'.
Proof.
  intros Hf Hj. destruct w as [| |[c|]| | | |]; cbn [waiting_turn]; try done.
  - intros Hx; apply Some_inj in Hx as [= <-]. exact Hj.
  - intros Hx; apply Some_inj in Hx as [= <-]. apply (joined_closed_command instant_max env c true p Hj).
  - destruct (_ <=? _); [|done]. intros Hx; apply Some_inj in Hx as [= <-]. exact (Hf Hj).
Qed.

Lemma joined_connect instant_max env p p' :
  tp_socket p = false → gate_open (tp_gate p) = true → connect_turn instant_max env p = TurnContinues p' → joined_ok p'.
Proof.
  intros Hs Hg. unfold connect_turn. set (p0 := tw_publish _). pose proof (connect_initial_resolved env p0) as [[E1 E2] _].
  destruct (connect_initial env p0) as [p1 [[[channel keepalive]|error]|]]; cbn [fst snd] in *; [| |done].
  - intros [= <-]. split; cbn; [|done]. intros _. by rewrite E1.
  - intros Hx. assert (joined_ok (apply_connection_failure env error p1)) as Hj by (apply joined_closed; by rewrite E2).
    injection Hx as <-. exact Hj.
Qed.

Lemma joined_turn instant_max t p p' : joined_ok p → provider_turn instant_max t p = Some (TurnContinues p') → joined_ok p'.
Proof.
  intros Hj. unfold provider_turn. destruct (tt_shutdown t); [done|].
  destruct (joined_change_gate (tt_env t) (tt_gate t) p Hj) as [Hg _]. set (p1 := change_gate _ _ _) in *. clearbody p1. clear Hj p.
  unfold gated_turn. destruct (negb (allows_control _)) eqn:Ea.
  { destruct (tt_wake t) as [w|]; [|done]. destruct w as [| |[c|]| | | |]; cbn [forbidden_turn mbind option_bind]; try done.
    - intros Hx; by apply Some_inj in Hx as [= <-].
    - intros Hx; apply Some_inj in Hx as [= <-]. apply (joined_closed_command instant_max (tt_env t) c false p1 Hg). }
  destruct (negb (tp_restore_attempted p1)).
  { destruct (tt_wake t); [done|]. intros Hx. assert (p' = restore_turn instant_max (tt_env t) p1) as -> by (by injection Hx).
    assert (joined_ok (report_auth_failure (p1 <| tp_restore_attempted := true |> <| tp_auth ::= (λ e, (tw_restore instant_max (te_auth (tt_env t)) e).2) |>))) as Hr
      by (by apply joined_report). exact Hr. }
  destruct (_ || _) eqn:Eo.
  { destruct (tt_wake t) as [w|]; [|done]. apply joined_waiting; [by apply joined_auth_ticks|].
    destruct (ws_user_paused (tp_state p1) || isNone (tg_channel (tp_gate p1))); [by apply joined_disconnected|done]. }
  destruct (tp_socket p1) eqn:Es; cbn [negb].
  - destruct (tt_wake t) as [w|]; [|done]. by apply joined_live_turn.
  - destruct (_ <? _).
    + destruct (tt_wake t) as [w|]; [|done]. apply joined_waiting; [|done]. intros Hq. destruct (_ =? _); [by apply joined_auth_ticks|done].
    + destruct (tt_wake t) as [w|]; [done|]. intros Hx; apply Some_inj in Hx. apply (joined_connect instant_max (tt_env t) p1); [done| |done].
      apply orb_false_iff in Eo as [[_ Eo]%orb_false_iff _]. by apply negb_false_iff in Eo.
Qed.

Lemma joined_run instant_max turns p p' : joined_ok p → twitch_run instant_max turns p = Some (TurnContinues p') → joined_ok p'.
Proof.
  revert p. induction turns as [|t turns IH]; intros p Hj; cbn [twitch_run]; [intros Hx; by apply Some_inj in Hx as [= <-]|].
  destruct (provider_turn instant_max t p) as [[p1|p1|p1]|] eqn:Et; [|by destruct turns..|done].
  apply IH. by eapply joined_turn.
Qed.
End closed.

Lemma forbidden_stays `{WebUrls, EventSubJson} instant_max env w p e :
  tp_socket p = false → ws_connection (tp_state p) ≠ CnJoined → forbidden_turn instant_max env w p = Some e →
  tp_socket (turn_provider e) = false ∧ ws_connection (tp_state (turn_provider e)) ≠ CnJoined.
Proof.
  intros Hs Hc. destruct w as [| |[c|]| | | |]; cbn [forbidden_turn]; try done; try (by intros Hx; apply Some_inj in Hx as <-).
  intros Hx; apply Some_inj in Hx as <-. cbn [turn_provider].
  destruct c; cbn [handle_closed_command]; try done. unfold sign_out. destruct (auth_disconnect _ _) as [r a]. by destruct r.
Qed.

(** C36 While the gate forbids control nothing is asked of the network, but the
    forgetting of a sign-in the user demanded; the socket is closed, and the
    chat is not shown as joined. *)
Theorem twitch_quiet_when_closed `{WebUrls, EventSubJson} instant_max client_id ring now turns p t e
    (Hrun : twitch_run instant_max turns (twitch_spawned client_id ring now) = Some (TurnContinues p))
    (Hgate : allows_control (tt_gate t) = false) (Hopen : tt_shutdown t = false) (Hturn : provider_turn instant_max t p = Some e) :
  adds (λ a, is_network a = false) forgetting p (turn_provider e)
  ∧ tp_socket (turn_provider e) = false ∧ ws_connection (tp_state (turn_provider e)) ≠ CnJoined.
Proof.
  assert (joined_ok p) as Hj by (by eapply joined_run; [|exact Hrun]). clear Hrun.
  unfold provider_turn in Hturn. rewrite Hopen in Hturn.
  destruct (joined_change_gate (tt_env t) (tt_gate t) p Hj) as [[H1 H2] Eg].
  pose proof (quietly_change_gate (tt_env t) (tt_gate t) p) as Hq. set (p1 := change_gate _ _ p) in *. clearbody p1.
  unfold gated_turn in Hturn. rewrite Eg, Hgate in Hturn. cbn [negb] in Hturn. destruct (tt_wake t) as [w|]; [|done].
  cbn [mbind option_bind] in Hturn. split; [eapply adds_trans; [exact Hq|by eapply quietly_forbidden]|].
  assert (tp_socket p1 = false) as Hs.
  { destruct (tp_socket p1); [|done]. specialize (H1 eq_refl). unfold gate_open in H1. by rewrite Eg, Hgate in H1. }
  eapply forbidden_stays; [exact Hs| |exact Hturn]. intros Hc. specialize (H2 Hc). congruence.
Qed.

(** * Every message to send is answered *)

Definition is_send (a : TwAction) : bool := match a with DoSend _ _ _ _ => true | _ => false end.
Definition sends (l : list TwAction) : list TwAction := filter (λ a, is_send a = true) l.

(** What was done for a command to send, and the receipt. *)
Definition answer_ok (gate_channel : option str) (answer : result TwitchHttpError ChatSendResult) (channel text : str) (reply_to : option str)
    (acts : list TwAction) (r : ReceiptState) : Prop :=
  (length (sends acts) ≤ 1)%nat
  ∧ (∀ a, a ∈ sends acts → (∃ broadcaster sender, a = DoSend broadcaster sender text reply_to)
       ∧ ok_opt (normalize_twitch_channel channel) = gate_channel
       ∧ trim text ≠ [] ∧ (length text ≤ TWITCH_MESSAGE_MAX_CHARS)%nat ∧ Forall (λ c, is_control c = false) text)
  ∧ (r = ReceiptAccepted ↔ sends acts ≠ [] ∧ ∃ message_id, answer = Ok (mkChatSendResult (Some message_id) true)).

(** The snapshot published last shows the receipt of the command. *)
Definition send_answered (request_id : Z) (channel text : str) (reply_to : option str) (t : TwTurn) (p p' : TwitchProvider) : Prop :=
  ∃ acts r s,
    tp_actions p' = tp_actions p ++ acts ∧ last acts = Some (DoPublish s)
    ∧ ts_send_receipt s = Some (mkTwitchSendReceipt request_id r) ∧ ws_send_receipt (tp_state p') = Some (mkTwitchSendReceipt request_id r)
    ∧ answer_ok (tg_channel (tt_gate t)) (te_send (tt_env t)) channel text reply_to acts r.

Lemma sends_app l k : sends (l ++ k) = sends l ++ sends k.
Proof. apply filter_app. Qed.

Lemma sends_none l : Forall (λ a, is_send a = false) l → sends l = [].
Proof. induction 1 as [|a l Ha Hl IH]; [done|]. unfold sends in *. rewrite filter_cons_False; [done|congruence]. Qed.

Lemma answer_none gate_channel answer channel text reply_to acts :
  sends acts = [] → answer_ok gate_channel answer channel text reply_to acts ReceiptRejected.
Proof. unfold answer_ok. intros ->. split; [cbn; lia|]. split; [by intros a ?%elem_of_nil|]. split; [done|]. by intros [? _]. Qed.

(** Other actions around the send do not matter. *)
Lemma answer_around gate_channel answer channel text reply_to before acts after r :
  sends before = [] → sends after = [] → answer_ok gate_channel answer channel text reply_to acts r →
  answer_ok gate_channel answer channel text reply_to (before ++ acts ++ after) r.
Proof. unfold answer_ok. rewrite !sends_app. intros -> ->. cbn. by rewrite app_nil_r. Qed.

Section answered.
Context `{WebUrls, EventSubJson}.

Lemma send_message_answer env request_id generation channel text reply_to p :
  ∃ acts r, tp_actions (send_message env request_id generation channel text reply_to p).1 = tp_actions p ++ acts
    ∧ ws_send_receipt (tp_state (send_message env request_id generation channel text reply_to p).1) = Some (mkTwitchSendReceipt request_id r)
    ∧ answer_ok (tg_channel (tp_gate p)) (te_send env) channel text reply_to acts r.
Proof.
  assert (∀ q, tp_actions q = tp_actions p → ∃ acts r, tp_actions (set_receipt request_id ReceiptRejected q) = tp_actions p ++ acts
    ∧ ws_send_receipt (tp_state (set_receipt request_id ReceiptRejected q)) = Some (mkTwitchSendReceipt request_id r)
    ∧ answer_ok (tg_channel (tp_gate p)) (te_send env) channel text reply_to acts r) as Hreject.
  { intros q Hq. exists [], ReceiptRejected. rewrite app_nil_r. split; [done|]. split; [done|]. by apply answer_none. }
  unfold send_message. destruct (may_send generation channel text p) eqn:Em; cbn [negb]; [|by apply Hreject].
  destruct (ws_channel_identity (tp_state p)) as [broadcaster|]; [|by apply Hreject].
  destruct (access_token (ev_machine (tp_auth p))); [|by apply Hreject].
  destruct (authenticated_user_id (ev_machine (tp_auth p))) as [sender|]; [|by apply Hreject].
  destruct (push_pending _ _ _ _ _) as [buffer []]; cbn [negb]; [|by apply Hreject].
  assert (∀ h r, (r = ReceiptAccepted ↔ ∃ message_id, te_send env = Ok (mkChatSendResult (Some message_id) true)) →
    answer_ok (tg_channel (tp_gate p)) (te_send env) channel text reply_to [DoSend broadcaster sender text reply_to; DoHealth h] r) as Hsent.
  { intros h r Hr. unfold answer_ok, sends. rewrite filter_cons_True, filter_cons_False, filter_nil by done.
    split; [done|]. split; [|rewrite Hr; naive_solver]. intros a ->%list_elem_of_singleton. split; [by eexists _, _|].
    unfold may_send in Em. rewrite !andb_true_iff, !negb_true_iff, existsb_false in Em. destruct Em as (((((_ & _) & Hc) & Ht) & Hl) & Hf).
    apply bool_decide_eq_true in Hc. apply bool_decide_eq_false in Ht. apply Nat.leb_le in Hl. done. }
  destruct (te_send env) as [[[message_id|] []]|error] eqn:Ee; cbn [cs_is_sent cs_message_id].
  1: eexists [_; _], ReceiptAccepted; cbn; rewrite <- app_assoc; split; [reflexivity|split; [done|apply Hsent; naive_solver]].
  1-3: eexists [_; _], ReceiptRejected; cbn; rewrite <- app_assoc; split; [reflexivity|split; [done|apply Hsent; naive_solver]].
  case_bool_decide; cbn [fst]; eexists [_; _], ReceiptRejected.
  - rewrite H1. cbn. rewrite <- app_assoc. split; [reflexivity|]. split; [done|]. apply Hsent. naive_solver.
  - cbn. rewrite <- app_assoc. split; [reflexivity|]. split; [done|]. apply Hsent. naive_solver.
Qed.

(** What was done before, what was done for the command, and what follows. *)
Lemma answered_published request_id channel text reply_to t p q before acts after r :
  tp_actions q = tp_actions p ++ before ++ acts ++ after → sends before = [] → sends after = [] →
  ws_send_receipt (tp_state q) = Some (mkTwitchSendReceipt request_id r) →
  answer_ok (tg_channel (tt_gate t)) (te_send (tt_env t)) channel text reply_to acts r →
  send_answered request_id channel text reply_to t p (tw_publish q).
Proof.
  intros Hq Hb Ha Hr Hok. set (s := state_snapshot (tp_state q) (ev_machine (tp_auth q))).
  exists (before ++ acts ++ after ++ [DoPublish s]), r, s. cbn. rewrite Hq. split; [by rewrite <- !app_assoc|].
  split; [by rewrite !app_assoc, last_snoc|]. split; [unfold s, state_snapshot; by destruct (au_presentation _)|]. split; [done|].
  apply answer_around; [done| |done]. by rewrite sends_app, Ha.
Qed.

Lemma sends_change_gate env gate p : ∃ acts, tp_actions (change_gate env gate p) = tp_actions p ++ acts ∧ sends acts = [].
Proof.
  destruct (quietly_change_gate env gate p) as (acts & _ & Ha & Hn & _). exists acts. split; [done|]. apply sends_none.
  eapply Forall_impl; [exact Hn|]. by intros [].
Qed.
End answered.

(** C35 Every command to send that reaches the worker while it runs is answered
    in the same turn: one snapshot shows the receipt, at most one message is
    sent, only of text fit for the chat and to the channel it was meant for,
    and it is said to be accepted exactly when Twitch confirmed it by an id. *)
Theorem twitch_sends_answered `{WebUrls, EventSubJson} instant_max t p e request_id generation channel text reply_to
    (Hrunning : tt_shutdown t = false) (Hwake : tt_wake t = Some (WakeCommand (Some (TcSend request_id generation channel text reply_to))))
    (Hturn : provider_turn instant_max t p = Some e) :
  ∃ p', e = TurnContinues p' ∧ send_answered request_id channel text reply_to t p p'.
Proof.
  unfold provider_turn in Hturn. rewrite Hrunning in Hturn. destruct (sends_change_gate (tt_env t) (tt_gate t) p) as (before & Hb & Hn).
  assert (tp_gate (change_gate (tt_env t) (tt_gate t) p) = tt_gate t) as Eg.
  { unfold change_gate. case_bool_decide; [done|]. by destruct (_ || _), (negb (bool_decide _)), (_ || _). }
  set (p1 := change_gate _ _ p) in *. clearbody p1. unfold gated_turn in Hturn. rewrite Hwake in Hturn. cbn [mbind option_bind] in Hturn.
  assert (∀ q, tp_actions q = tp_actions p1 →
    send_answered request_id channel text reply_to t p (tw_publish (set_receipt request_id ReceiptRejected q))) as Hreject.
  { intros q Hq. eapply (answered_published _ _ _ _ _ _ _ before [] []); [cbn; by rewrite Hq, Hb, app_nil_r|done|done|done|by apply answer_none]. }
  destruct (negb (allows_control _)); [apply Some_inj in Hturn as <-; eexists; split; [done|by apply Hreject]|].
  destruct (negb (tp_restore_attempted p1)); [done|].
  destruct (negb (can_connect _) || _ || _).
  { apply Some_inj in Hturn as <-. eexists. split; [done|]. apply Hreject. by destruct (_ || _). }
  destruct (negb (tp_socket p1)).
  { destruct (_ <? _); [|done]. apply Some_inj in Hturn as <-. eexists. split; [done|by apply Hreject]. }
  cbn [live_turn handle_live_command] in Hturn.
  destruct (send_message_answer (tt_env t) request_id generation channel text reply_to p1) as (acts & r & Ha & Hr & Hok).
  destruct (send_message _ _ _ _ _ _ p1) as [q d]. cbn [fst] in *. apply Some_inj in Hturn as <-. eexists. split; [done|].
  rewrite Eg in Hok. destruct d.
  - destruct (tp_socket q) eqn:Eq; unfold close_socket; rewrite Eq.
    + eapply (answered_published _ _ _ _ _ _ _ before acts [DoCloseSocket]); [cbn; by rewrite Ha, Hb, <- !app_assoc|done|done|exact Hr|done].
    + eapply (answered_published _ _ _ _ _ _ _ before acts []); [cbn; by rewrite Ha, Hb, app_nil_r, <- !app_assoc|done|done|exact Hr|done].
  - eapply (answered_published _ _ _ _ _ _ _ before acts []); [cbn; by rewrite Ha, Hb, app_nil_r, <- !app_assoc|done|done|exact Hr|done].
Qed.

(** * A session from begin to end *)

#[local] Instance example_eventsub_urls : WebUrls := λ url,
  if str_eqb url INITIAL_EVENTSUB_URL
  then Some (mkParsedUrl (lit "wss") (Some (lit "eventsub.wss.twitch.tv")) [] [] None (Some 443) (lit "/ws") None [] None) else None.

(** The documents of the example: a welcome, and a chat message. *)
#[local] Instance example_events : EventSubJson := {|
  es_json := unit;
  envelope_of raw :=
    if str_eqb raw (lit "welcome") then Some (mkEnvelopeWire (lit "w1") (lit "session_welcome") None None tt)
    else if str_eqb raw (lit "chat")
    then Some (mkEnvelopeWire (lit "c1") (lit "notification") (Some (lit "channel.chat.message")) (Some (lit "1")) tt) else None;
  session_of _ := Some (mkSessionWire (lit "session") (Some 10) None);
  chat_message_of _ := Some (mkChatMessageWire (lit "7") None (Some (lit "Viewer")) (lit "m1") None (lit "hello") None None);
  chat_clear_of _ := None;
  chat_delete_of _ := None;
  revocation_of _ := None;
  fragments_of _ := None;
  reply_of _ := None
|}.

Definition example_gate : TwitchGate := mkTwitchGate true true true (Some (lit "streamer")).
Definition example_env (at_secs : Z) : TwEnv :=
  mkTwEnv (from_secs at_secs) (from_secs at_secs)
    (mkAuthAnswers (from_secs at_secs) at_secs None (λ _, true) (Ok tt) (Err TwTimeout) (Err TwTimeout) (Err TwTimeout)
       (Ok (mkTokenValidation (lit "client") (lit "me") (lit "42") REQUIRED_SCOPES 14000)) (Ok tt))
    (Ok (lit "7")) (Ok tt) (Ok (Some (lit "welcome"))) (λ _, Ok tt) (Ok (mkChatSendResult (Some (lit "m2")) true)).
Definition example_turn (at_secs : Z) (wake : option TwWake) : TwTurn := mkTwTurn false example_gate wake (example_env at_secs).
Definition example_send : TwTurn := example_turn 4 (Some (WakeCommand (Some (TcSend 5 1 (lit "Streamer") (lit "hi") None)))).
Definition example_closing : TwTurn :=
  mkTwTurn false (example_gate <| tg_lifecycle_enabled := false |>) (Some (WakeCommand (Some TcSignOut))) (example_env 5).

Definition example_turns : list TwTurn :=
  [example_turn 1 None; example_turn 2 None; example_turn 3 (Some (WakeSocket (Ok (Some (lit "chat"))))); example_send].
Definition example_ring : option TwitchCredentials := Some (mkTwitchCredentials (lit "access") (lit "refresh") 10000).
Definition example_max : instant := from_secs u32_max.
Definition example_start : TwitchProvider := twitch_spawned (lit "client") example_ring 0.
Definition example_running (turns : list TwTurn) : TwitchProvider :=
  from_option turn_provider example_start (twitch_run example_max turns example_start).

(** The provider of a worker that goes on, where the provider is too large to
    be compared by computing. *)
Lemma turn_provider_continues p : turn_provider (TurnContinues p) = p.
Proof. done. Qed.


Lemma twitch_sends_answered_witness :
  ∃ p', provider_turn example_max example_send (example_running (take 3 example_turns)) = Some (TurnContinues p')
    ∧ send_answered 5 (lit "Streamer") (lit "hi") None example_send (example_running (take 3 example_turns)) p'
    ∧ ws_send_receipt (tp_state p') = Some (mkTwitchSendReceipt 5 ReceiptAccepted).
Proof.
  eexists. split; [by vm_compute|]. split; [|by vm_compute].
  destruct (twitch_sends_answered example_max example_send (example_running (take 3 example_turns))
    (TurnContinues (example_running example_turns)) 5 1 (lit "Streamer") (lit "hi") None) as (p' & E & Hp'); [done|done|by vm_compute|].
  injection E as <-. exact Hp'.
Defined.

Lemma twitch_quiet_when_closed_witness :
  let p := example_running example_turns in
  let e := default (TurnStops p) (provider_turn example_max example_closing p) in
  tp_socket p = true ∧ (λ r, r.2) <$> drop (length (ev_asked (tp_auth p))) (ev_asked (tp_auth (turn_provider e))) = [TaRevoke (lit "access"); TaDelete]
  ∧ tp_socket (turn_provider e) = false.
Proof.
  cbn zeta. split; [by vm_compute|]. split; [by vm_compute|].
  destruct (twitch_quiet_when_closed example_max (lit "client") example_ring 0 example_turns (example_running example_turns) example_closing
    (default (TurnStops (example_running example_turns)) (provider_turn example_max example_closing (example_running example_turns))))
    as (_ & H & _); [by vm_compute|done|done|by vm_compute|exact H].
Defined.
