(* ===== verification/Media.v ===== *)
(** The media player of the overlay
    ([crates/overcrow-overlay/src/media/{model,mpris,client}.rs]): what is
    read of the players on the session bus, which of them is shown, and the
    worker that polls them and passes commands on. The bus is the
    environment. *)

From S2P Require Import Prelude Ordered Text Truncate Timing OverlayRuntime.

(** * The data *)

Definition MEDIA_ERROR_MAX_BYTES : Z := 256.
Definition TITLE_MAX_BYTES : Z := 256.
Definition ARTIST_MAX_BYTES : Z := 256.
Definition ARTIST_MAX_COUNT : nat := 8.
Definition MPRIS_CANDIDATE_LIMIT : nat := 16.
Definition MPRIS_BUS_PREFIX : str := lit "org.mpris.MediaPlayer2.".
#[global] Arguments MPRIS_CANDIDATE_LIMIT : simpl never.
#[global] Arguments ARTIST_MAX_COUNT : simpl never.
#[global] Arguments MPRIS_BUS_PREFIX : simpl never.

Inductive MediaPlaybackStatus := MpPlaying | MpPaused | MpStopped.
#[export] Instance MediaPlaybackStatus_eq_dec : EqDecision MediaPlaybackStatus.
Proof. solve_decision. Defined.

Definition playback_priority (s : MediaPlaybackStatus) : Z := match s with MpPlaying => 2 | MpPaused => 1 | MpStopped => 0 end.

Record MediaCapabilities := mkMediaCapabilities { can_go_previous : bool; can_play : bool; can_pause : bool; can_go_next : bool }.
#[export] Instance MediaCapabilities_eq_dec : EqDecision MediaCapabilities.
Proof. solve_decision. Defined.
Definition media_capabilities_default : MediaCapabilities := mkMediaCapabilities false false false false.

Record MediaSnapshot := mkMediaSnapshot {
  md_bus_name : option str;
  md_title : option str;
  md_artist : option str;
  md_playback_status : MediaPlaybackStatus;
  md_capabilities : MediaCapabilities;
  md_error : option str
}.
#[export] Instance MediaSnapshot_eq_dec : EqDecision MediaSnapshot.
Proof. solve_decision. Defined.
#[export] Instance MediaSnapshot_eta : Eta MediaSnapshot := λ s,
  mkMediaSnapshot (md_bus_name s) (md_title s) (md_artist s) (md_playback_status s) (md_capabilities s) (md_error s).
Definition media_snapshot_default : MediaSnapshot := mkMediaSnapshot None None None MpStopped media_capabilities_default None.

(** [bound_nonempty_text]: the text trimmed and cut at a character boundary. *)
Definition bound_nonempty_text (value : str) (maximum_bytes : Z) : option str :=
  let value := trim value in
  if bool_decide (value = []) then None
  else
    let end_ := Z.min (str_len value) maximum_bytes in
    let cut := slice_to_boundary (Z.to_nat end_) value end_ in
    if bool_decide (cut = []) then None else Some cut.

Definition media_provider_error (message : str) : MediaSnapshot :=
  media_snapshot_default <| md_error := bound_nonempty_text message MEDIA_ERROR_MAX_BYTES |>.

Inductive MediaAction := MaPrevious | MaPlayPause | MaNext.
#[export] Instance MediaAction_eq_dec : EqDecision MediaAction.
Proof. solve_decision. Defined.

Definition media_supports (s : MediaSnapshot) (a : MediaAction) : bool :=
  isSome (md_bus_name s)
  && match a with
     | MaPrevious => can_go_previous (md_capabilities s)
     | MaPlayPause => match md_playback_status s with
                      | MpPlaying => can_pause (md_capabilities s)
                      | MpPaused | MpStopped => can_play (md_capabilities s)
                      end
     | MaNext => can_go_next (md_capabilities s)
     end.

Record MediaCommand := mkMediaCommand { mc_bus_name : str; mc_action : MediaAction }.

(** [command_for]: what the interface sends. *)
Definition command_for (a : MediaAction) (s : MediaSnapshot) : option MediaCommand :=
  if media_supports s a then (λ bus_name, mkMediaCommand bus_name a) <$> md_bus_name s else None.

(** * Reading a player *)

(** A value of the metadata: a text, an array of texts and other things, or
    something else. *)
Inductive MetadataValue := MvText (s : str) | MvArray (items : list (option str)) | MvOther.

Definition parse_playback_status (value : str) : option MediaPlaybackStatus :=
  if str_eqb value (lit "Playing") then Some MpPlaying
  else if str_eqb value (lit "Paused") then Some MpPaused
  else if str_eqb value (lit "Stopped") then Some MpStopped
  else None.

(** The artists so far, and whether there may be more. *)
Definition append_artist (output artist : str) : str * bool :=
  let artist := trim artist in
  if bool_decide (artist = []) then (output, true)
  else
    let separator := if bool_decide (output = []) then [] else lit ", " in
    let remaining := saturating_sub ARTIST_MAX_BYTES (str_len output) in
    if remaining <=? str_len separator then (output, false)
    else
      let end_ := Z.min (str_len artist) (remaining - str_len separator) in
      let cut := slice_to_boundary (Z.to_nat end_) artist end_ in
      if bool_decide (cut = []) then (output, false)
      else (output ++ separator ++ cut, str_len cut =? str_len artist).

(** Nothing when one of the artists looked at is no text. *)
Fixpoint append_artists (output : str) (items : list (option str)) : option str :=
  match items with
  | [] => Some output
  | None :: _ => None
  | Some artist :: items => let '(output, more) := append_artist output artist in if more then append_artists output items else Some output
  end.

Definition parse_artists (value : MetadataValue) : option str :=
  match value with
  | MvArray items => output ← append_artists [] (take ARTIST_MAX_COUNT items); if bool_decide (output = []) then None else Some output
  | _ => None
  end.

(** [parse_metadata]: the title and the artists. *)
Definition parse_metadata (metadata : gmap str MetadataValue) : option str * option str :=
  (value ← metadata !! lit "xesam:title"; text ← match value with MvText s => Some s | _ => None end; bound_nonempty_text text TITLE_MAX_BYTES,
   metadata !! lit "xesam:artist" ≫= parse_artists).

(** What a player answers, nothing where a property cannot be read. *)
Record PlayerAnswers := mkPlayerAnswers {
  pl_reachable : bool;                       (* [Proxy::new] *)
  pl_playback_status : option str;
  pl_metadata : option (gmap str MetadataValue);
  pl_can_control : option bool;
  pl_can_go_previous : option bool;
  pl_can_play : option bool;
  pl_can_pause : option bool;
  pl_can_go_next : option bool
}.

(** Nothing where reading fails. *)
Definition read_player (bus_name : str) (answers : PlayerAnswers) : option MediaSnapshot :=
  if negb (pl_reachable answers) then None
  else
    status ← pl_playback_status answers;
    playback_status ← parse_playback_status status;
    let '(title, artist) := match pl_metadata answers with Some m => parse_metadata m | None => (None, None) end in
    let capabilities :=
      if default false (pl_can_control answers)
      then mkMediaCapabilities (default false (pl_can_go_previous answers)) (default false (pl_can_play answers))
             (default false (pl_can_pause answers)) (default false (pl_can_go_next answers))
      else media_capabilities_default in
    Some (mkMediaSnapshot (Some bus_name) title artist playback_status capabilities None).

(** * Which player is shown *)

(** The names of players, in the order of the bus: nothing when there are too
    many. *)
Fixpoint filter_mpris_bus_names (candidates names : list str) : option (list str) :=
  match names with
  | [] => Some candidates
  | name :: names =>
      if negb (starts_with MPRIS_BUS_PREFIX name) then filter_mpris_bus_names candidates names
      else if (length candidates =? MPRIS_CANDIDATE_LIMIT)%nat then None
      else filter_mpris_bus_names (candidates ++ [name]) names
  end.

(** [Option<String>] in its order, nothing before all texts. *)
Definition bus_name_lt (a b : option str) : bool :=
  match a, b with
  | None, Some _ => true
  | Some a, Some b => blt a b
  | _, None => false
  end.

Definition consider_player (selected : option MediaSnapshot) (candidate : MediaSnapshot) : option MediaSnapshot :=
  if isNone (md_bus_name candidate) then selected
  else
    let better current :=
      (playback_priority (md_playback_status current) <? playback_priority (md_playback_status candidate))
      || ((playback_priority (md_playback_status candidate) =? playback_priority (md_playback_status current))
          && bus_name_lt (md_bus_name candidate) (md_bus_name current)) in
    if is_none_or better selected then Some candidate else selected.

Definition TOO_MANY_CANDIDATES : str := lit "more than 16 MPRIS candidates".
#[global] Arguments TOO_MANY_CANDIDATES : simpl never.

(** [discover_player] on a bus that lists these names, or fails, and whose
    players answer so. *)
Definition discover_player (list_names : result str (list str)) (player : str → PlayerAnswers) : result str MediaSnapshot :=
  names ← list_names;
  names ← ok_or TOO_MANY_CANDIDATES (filter_mpris_bus_names [] names);
  Ok (default media_snapshot_default (foldl (λ selected bus_name,
        match read_player bus_name (player bus_name) with Some p => consider_player selected p | None => selected end) None names)).

Definition method_name (a : MediaAction) : str :=
  match a with MaPrevious => lit "Previous" | MaPlayPause => lit "PlayPause" | MaNext => lit "Next" end.

Definition command_method (current : MediaSnapshot) (command : MediaCommand) : option str :=
  if negb (bool_decide (md_bus_name current = Some (mc_bus_name command))) || negb (media_supports current (mc_action command)) then None
  else Some (method_name (mc_action command)).

(** * The worker *)

Definition MEDIA_INITIAL_BACKOFF : duration := from_secs 1.
Definition MEDIA_MAXIMUM_BACKOFF : duration := from_secs 5.
#[global] Arguments MEDIA_INITIAL_BACKOFF : simpl never.
#[global] Arguments MEDIA_MAXIMUM_BACKOFF : simpl never.

Record MediaBackoff := mkMediaBackoff { mb_initial : duration; mb_maximum : duration; mb_current : duration }.
#[export] Instance MediaBackoff_eta : Eta MediaBackoff := λ b, mkMediaBackoff (mb_initial b) (mb_maximum b) (mb_current b).
Definition media_backoff_new (initial maximum : duration) : MediaBackoff :=
  let initial := Z.min initial maximum in mkMediaBackoff initial maximum initial.
Definition media_next_delay (b : MediaBackoff) : duration * MediaBackoff :=
  (mb_current b, b <| mb_current := Z.min (default (mb_maximum b) (checked_mul duration_max (mb_current b) 2)) (mb_maximum b) |>).
Definition media_backoff_reset (b : MediaBackoff) : MediaBackoff := b <| mb_current := mb_initial b |>.

Inductive MediaOutput := MoPublish (s : MediaSnapshot) | MoHealth (c : HealthCall) | MoCall (bus_name method : str).

(** Where the worker waits: for the connection, the delay before the next
    one, the first tick of the poll timer, the discovery, a tick or a command,
    and the command's execution. *)
Inductive MediaPhase :=
| PhConnect | PhBackoff (delay : duration) | PhFirstPoll | PhDiscover | PhIdle (current : MediaSnapshot)
| PhExecute (current : MediaSnapshot) | PhStopped.

Record MediaWorker := mkMediaWorker {
  mw_phase : MediaPhase;
  mw_backoff : MediaBackoff;
  mw_published : MediaSnapshot;      (* the publisher's current value *)
  mw_outputs : list MediaOutput
}.
#[export] Instance MediaWorker_eta : Eta MediaWorker := λ w, mkMediaWorker (mw_phase w) (mw_backoff w) (mw_published w) (mw_outputs w).

(** How an operation of the backend ends. *)
Inductive MediaOutcome (T : Type) := OperationDone (x : T) | OperationFailed (message : str) | OperationTimedOut.
Arguments OperationDone {T} x. Arguments OperationFailed {T} message. Arguments OperationTimedOut {T}.

Definition await_operation {T} (name : string) (category : FailureCategory) (o : MediaOutcome T) : result (FailureCategory * str) T :=
  match o with
  | OperationDone x => Ok x
  | OperationFailed message => Err (category, message)
  | OperationTimedOut => Err (FcTimeout, lit "MPRIS " ++ lit name ++ lit " timed out")
  end.

Inductive MediaInput :=
| MiShutdown
| MiConnected (o : MediaOutcome unit)
| MiElapsed
| MiTick
| MiDiscovered (o : MediaOutcome MediaSnapshot)
| MiCommand (c : option MediaCommand)
| MiExecuted (o : MediaOutcome unit).

Definition media_output (o : MediaOutput) (w : MediaWorker) : MediaWorker := w <| mw_outputs ::= (λ l, l ++ [o]) |>.
Definition media_phase (p : MediaPhase) (w : MediaWorker) : MediaWorker := w <| mw_phase := p |>.

Definition media_publish_if_changed (s : MediaSnapshot) (w : MediaWorker) : MediaWorker :=
  if bool_decide (mw_published w = s) then w else media_output (MoPublish s) (w <| mw_published := s |>).

(** A failure of the connection: shown, and waited for. *)
Definition connection_failed (failure : FailureCategory * str) (w : MediaWorker) : MediaWorker :=
  let w := media_publish_if_changed (media_provider_error failure.2) (media_output (MoHealth (HealthFailed failure.1)) w) in
  let '(delay, backoff) := media_next_delay (mw_backoff w) in
  w <| mw_backoff := backoff |> <| mw_phase := PhBackoff delay |>.

Definition media_worker_new : MediaWorker :=
  mkMediaWorker PhConnect (media_backoff_new MEDIA_INITIAL_BACKOFF MEDIA_MAXIMUM_BACKOFF) media_snapshot_default [].

(** [run_worker], up to the provider's loop: without a runtime it only says so. *)
Definition media_run_worker (runtime_built : bool) : MediaWorker :=
  if runtime_built then media_worker_new
  else media_phase PhStopped (media_publish_if_changed (media_provider_error (lit "MPRIS runtime unavailable")) (media_output (MoHealth (HealthFailed FcStartup)) media_worker_new)).

(** [MediaClient::send]: a command waits when the queue has room, and the
    answer says so. *)
Definition COMMAND_CAPACITY_MEDIA : nat := 8.
Definition media_send (s : MediaSnapshot) (a : MediaAction) (queue : list MediaCommand) : list MediaCommand * bool :=
  match command_for a s with
  | Some command => if (length queue <? COMMAND_CAPACITY_MEDIA)%nat then (queue ++ [command], true) else (queue, false)
  | None => (queue, false)
  end.

(** One step of [run_provider] and [connection_cycle]; nothing where the
    worker does not wait for the input. A shutdown is looked at first. *)
Definition media_step (i : MediaInput) (w : MediaWorker) : option MediaWorker :=
  match mw_phase w, i with
  | PhStopped, _ => None
  | _, MiShutdown => Some (media_phase PhStopped w)
  | PhConnect, MiConnected o =>
      Some match await_operation "connection" FcConnection o with
           | Ok _ => media_phase PhFirstPoll w
           | Err failure => connection_failed failure w
           end
  | PhBackoff _, MiElapsed => Some (media_phase PhConnect w)
  | PhFirstPoll, MiTick => Some (media_phase PhDiscover w)
  | PhDiscover, MiDiscovered o =>
      Some match await_operation "discovery" FcDiscovery o with
           | Ok current =>
               let w := media_publish_if_changed current (media_output (MoHealth HealthRecovered) w) in
               w <| mw_backoff ::= media_backoff_reset |> <| mw_phase := PhIdle current |>
           | Err failure => connection_failed failure w
           end
  | PhIdle _, MiTick => Some (media_phase PhDiscover w)
  | PhIdle _, MiCommand None => Some (media_phase PhStopped w)
  | PhIdle current, MiCommand (Some command) =>
      let w := match command_method current command with Some method => media_output (MoCall (mc_bus_name command) method) w | None => w end in
      Some (media_phase (PhExecute current) w)
  | PhExecute current, MiExecuted o =>
      let w := match await_operation "command" FcCommand o with
               | Ok _ => w
               | Err failure => media_output (MoHealth (HealthFailed failure.1)) w
               end in
      Some (media_phase (PhIdle current) w)
  | _, _ => None
  end.

Fixpoint media_run (inputs : list MediaInput) (w : MediaWorker) : option MediaWorker :=
  match inputs with [] => Some w | i :: inputs => media_step i w ≫= media_run inputs end.

(** * What is shown of the players is bounded *)

Definition short_text (n : Z) (t : option str) : Prop := from_option (λ s, s ≠ [] ∧ str_len s ≤ n) True t.

Definition media_ok (s : MediaSnapshot) : Prop :=
  short_text TITLE_MAX_BYTES (md_title s) ∧ short_text ARTIST_MAX_BYTES (md_artist s) ∧ short_text MEDIA_ERROR_MAX_BYTES (md_error s).

Lemma slice_fits s n : 0 ≤ n → str_len (slice_to_boundary (Z.to_nat (Z.min (str_len s) n)) s (Z.min (str_len s) n)) ≤ n.
Proof.
  intros Hn. pose proof (str_len_nonneg s). etrans; [apply slice_to_boundary_length; lia|lia].
Qed.

Lemma bound_nonempty_text_ok value n : 0 ≤ n → short_text n (bound_nonempty_text value n).
Proof.
  intros Hn. unfold bound_nonempty_text. case_bool_decide; [done|]. case_bool_decide as E; [done|]. cbn. split; [done|]. by apply slice_fits.
Qed.

(** What is read is a piece of the trimmed text, the longest that fits. *)
Lemma bound_nonempty_text_prefix value n t : 0 ≤ n → bound_nonempty_text value n = Some t →
  t `prefix_of` trim value ∧ ∀ q, q `prefix_of` trim value → str_len q ≤ n → str_len q ≤ str_len t.
Proof.
  intros Hn. unfold bound_nonempty_text. case_bool_decide; [done|]. case_bool_decide as E; [done|]. intros [= <-].
  pose proof (str_len_nonneg (trim value)) as H0.
  destruct (slice_to_boundary_spec (Z.to_nat (Z.min (str_len (trim value)) n)) (trim value) (Z.min (str_len (trim value)) n)) as (H1 & H2 & H3); [lia|].
  split; [done|]. intros q Hq Hl. apply H3; [done|]. destruct Hq as [r Hr]. rewrite Hr, str_len_app. pose proof (str_len_nonneg r). lia.
Qed.

Lemma append_artist_fits output artist : str_len output ≤ ARTIST_MAX_BYTES → str_len (append_artist output artist).1 ≤ ARTIST_MAX_BYTES.
Proof.
  intros Ho. unfold append_artist. case_bool_decide; [done|].
  set (separator := if bool_decide (output = []) then [] else lit ", ").
  destruct (Z.leb_spec (saturating_sub ARTIST_MAX_BYTES (str_len output)) (str_len separator)) as [|Hr]; [done|].
  case_bool_decide; [done|]. cbn [fst]. rewrite !str_len_app.
  pose proof (slice_fits (trim artist) (saturating_sub ARTIST_MAX_BYTES (str_len output) - str_len separator) ltac:(lia)) as Hs.
  unfold saturating_sub in *. lia.
Qed.

Lemma append_artists_fits items output artists :
  str_len output ≤ ARTIST_MAX_BYTES → append_artists output items = Some artists → str_len artists ≤ ARTIST_MAX_BYTES.
Proof.
  revert output. induction items as [|[artist|] items IH]; intros output Ho; cbn; [by intros [= <-]| |done].
  pose proof (append_artist_fits output artist Ho) as Ha. destruct (append_artist output artist) as [o []]; cbn in Ha; [by apply IH|by intros [= <-]].
Qed.

Lemma parse_metadata_ok m : short_text TITLE_MAX_BYTES (parse_metadata m).1 ∧ short_text ARTIST_MAX_BYTES (parse_metadata m).2.
Proof.
  unfold parse_metadata. cbn. split.
  - destruct (m !! _) as [[t|items|]|]; cbn; try done. by apply bound_nonempty_text_ok.
  - destruct (m !! lit "xesam:artist") as [[t|items|]|]; cbn; try done. unfold parse_artists.
    destruct (append_artists [] (take ARTIST_MAX_COUNT items)) as [o|] eqn:E; [|done]. cbn. case_bool_decide; [done|].
    split; [done|]. by apply (append_artists_fits (take ARTIST_MAX_COUNT items) []).
Qed.

Lemma read_player_ok name answers p : read_player name answers = Some p → media_ok p ∧ md_bus_name p = Some name.
Proof.
  unfold read_player. destruct (negb _); [done|]. destruct (pl_playback_status answers) as [status|]; [|done]. cbn.
  destruct (parse_playback_status status); [|done]. cbn.
  destruct (pl_metadata answers) as [metadata|].
  - pose proof (parse_metadata_ok metadata) as [H1 H2]. destruct (parse_metadata metadata) as [title artist]. by intros [= <-].
  - by intros [= <-].
Qed.

Lemma media_error_ok message : media_ok (media_provider_error message).
Proof. split; [done|]. split; [done|]. by apply bound_nonempty_text_ok. Qed.

(** * The player shown is the best one *)

(** The order of players: playing before paused before stopped, then by
    name. *)
Definition player_key (p : MediaSnapshot) : Z * str := (2 - playback_priority (md_playback_status p), default [] (md_bus_name p)).

(** The players that can be read, in the order of the bus. *)
Definition readable_players (player : str → PlayerAnswers) (names : list str) : list MediaSnapshot := omap (λ name, read_player name (player name)) names.

Lemma consider_player_key selected candidate :
  is_Some (md_bus_name candidate) → (∀ p, selected = Some p → is_Some (md_bus_name p)) →
  consider_player selected candidate =
    Some (match selected with Some current => if blt (player_key candidate) (player_key current) then candidate else current | None => candidate end).
Proof.
  intros [name Hn] Hs. unfold consider_player. rewrite Hn. cbn. destruct selected as [current|]; [|done].
  destruct (Hs current eq_refl) as [other Ho]. unfold player_key. rewrite Hn, Ho. cbn. rewrite Ho.
  set (a := playback_priority (md_playback_status candidate)). set (b := playback_priority (md_playback_status current)).
  assert ((b <? a) || ((a =? b) && lex_lt name other) = (2 - a <? 2 - b) || (negb (2 - b <? 2 - a) && lex_lt name other)) as ->; [|by destruct (_ || _)].
  destruct (lex_lt name other); rewrite ?andb_true_r, ?andb_false_r, ?orb_false_r; lia.
Qed.

#[local] Arguments blt : simpl never.

Lemma discover_fold player names : ∀ selected,
  (∀ p, selected = Some p → is_Some (md_bus_name p)) →
  let best := foldl (λ selected name, match read_player name (player name) with Some p => consider_player selected p | None => selected end) selected names in
  let all := option_list selected ++ readable_players player names in
  match best with
  | Some p => p ∈ all ∧ ∀ q, q ∈ all → blt (player_key q) (player_key p) = false
  | None => all = []
  end.
Proof.
  induction names as [|name names IH]; intros selected Hs; cbn [foldl].
  - cbn. rewrite app_nil_r. destruct selected as [p|]; cbn; [|done]. split; [by left|]. intros q ->%list_elem_of_singleton. apply blt_irrefl.
  - unfold readable_players. cbn [omap list_omap]. destruct (read_player name (player name)) as [p|] eqn:Er; [|by apply IH].
    apply read_player_ok in Er as [_ En]. rewrite consider_player_key by (rewrite ?En; done).
    specialize (IH (Some (match selected with Some current => if blt (player_key p) (player_key current) then p else current | None => p end))).
    cbn zeta in IH. unfold readable_players in IH.
    destruct (foldl _ _ names) as [best|].
    + destruct IH as [I1 I2].
      { intros q [= <-]. destruct selected as [current|]; [|by eexists]. destruct (blt _ _); [by eexists|by apply Hs]. }
      destruct selected as [current|]; cbn in *; [|done]. destruct (blt (player_key p) (player_key current)) eqn:E.
      * split; [by apply elem_of_cons; right|]. intros q [->|Hq]%elem_of_cons; [|by apply I2].
        destruct (blt (player_key current) (player_key best)) eqn:E2; [|done].
        assert (blt (player_key p) (player_key best) = true) as E3 by (by eapply blt_trans). by rewrite I2 in E3 by (by left).
      * split; [apply elem_of_cons in I1 as [->|I1]; [by left|by apply elem_of_cons; right; apply elem_of_cons; right]|].
        intros q [->|[->|Hq]%elem_of_cons]%elem_of_cons; [apply I2; by left| |apply I2; by apply elem_of_cons; right].
        destruct (blt (player_key p) (player_key best)) eqn:E2; [|done].
        destruct (blt (player_key current) (player_key best)) eqn:E3; [by rewrite I2 in E3 by (by left)|].
        destruct (blt (player_key best) (player_key current)) eqn:E4.
        { assert (blt (player_key p) (player_key current) = true) by (by eapply blt_trans). congruence. }
        rewrite (blt_total _ _ E3 E4) in E. congruence.
    + exfalso. discriminate IH. intros q [= <-]. destruct selected as [current|]; [|by eexists]. destruct (blt _ _); [by eexists|by apply Hs].
Qed.

Lemma filter_names_spec names : ∀ candidates,
  (length candidates ≤ MPRIS_CANDIDATE_LIMIT)%nat →
  let players := candidates ++ filter (λ name, starts_with MPRIS_BUS_PREFIX name = true) names in
  filter_mpris_bus_names candidates names = if (length players <=? MPRIS_CANDIDATE_LIMIT)%nat then Some players else None.
Proof.
  induction names as [|name names IH]; intros candidates Hc; cbn [filter_mpris_bus_names].
  - cbn. rewrite app_nil_r. by apply Nat.leb_le in Hc as ->.
  - destruct (starts_with MPRIS_BUS_PREFIX name) eqn:E; cbn [negb]; [rewrite filter_cons_True by done|rewrite filter_cons_False by congruence; by apply IH].
    destruct (Nat.eqb_spec (length candidates) MPRIS_CANDIDATE_LIMIT) as [El|El].
    + rewrite length_app. cbn. destruct (Nat.leb_spec (length candidates + S (length (filter (λ n, starts_with MPRIS_BUS_PREFIX n = true) names))) MPRIS_CANDIDATE_LIMIT);
        [lia|done].
    + rewrite IH by (rewrite length_app; cbn; lia). cbn zeta. by rewrite <- app_assoc.
Qed.

(** The player shown is the best of those that can be read: playing before
    paused before stopped, then the first by name; nothing is shown exactly
    when none can be read; and a bus with more than 16 players is an error. *)
Theorem discover_player_reference list_names player names (Hnames : list_names = Ok names) :
  let players := filter (λ name, starts_with MPRIS_BUS_PREFIX name = true) names in
  let readable := readable_players player players in
  if (length players <=? MPRIS_CANDIDATE_LIMIT)%nat then
    ∃ shown, discover_player list_names player = Ok shown
      ∧ (readable = [] → shown = media_snapshot_default)
      ∧ (readable ≠ [] → shown ∈ readable ∧ ∀ p, p ∈ readable → blt (player_key p) (player_key shown) = false)
  else discover_player list_names player = Err TOO_MANY_CANDIDATES.
Proof.
  cbn zeta. subst list_names. unfold discover_player. cbn [mbind result_bind].
  pose proof (filter_names_spec names []) as Hf. cbn [app] in Hf. rewrite Hf by (cbn; lia). clear Hf.
  set (players := filter _ names). destruct (_ <=? _)%nat; cbn [ok_or mbind result_bind]; [|done].
  pose proof (discover_fold player players None) as Hb. cbn [option_list app] in Hb.
  destruct (foldl _ None players) as [best|]; cbn [default].
  - destruct Hb as [H1 H2]; [done|]. exists best. split; [done|]. split; [|done]. intros E. by rewrite E in H1; apply elem_of_nil in H1.
  - exists media_snapshot_default. split; [done|]. split; [done|]. intros []. by apply Hb.
Qed.

(** * The worker *)

Definition media_backoff_ok (b : MediaBackoff) : Prop :=
  mb_initial b = MEDIA_INITIAL_BACKOFF ∧ mb_maximum b = MEDIA_MAXIMUM_BACKOFF ∧ MEDIA_INITIAL_BACKOFF ≤ mb_current b ≤ MEDIA_MAXIMUM_BACKOFF.

(** What was published last. *)
Definition last_published (l : list MediaOutput) : MediaSnapshot :=
  foldl (λ shown o, match o with MoPublish s => s | _ => shown end) media_snapshot_default l.

(** Each output, after the ones before it: a snapshot is bounded and differs
    from the one it replaces; a player is only called when it is the one
    shown, by a method it supports. *)
Definition output_ok (before : list MediaOutput) (o : MediaOutput) : Prop :=
  match o with
  | MoPublish s => media_ok s ∧ s ≠ last_published before
  | MoCall bus_name method =>
      md_bus_name (last_published before) = Some bus_name
      ∧ ∃ a, media_supports (last_published before) a = true ∧ method = method_name a
  | MoHealth _ => True
  end.

Fixpoint outputs_ok (before l : list MediaOutput) : Prop :=
  match l with [] => True | o :: l => output_ok before o ∧ outputs_ok (before ++ [o]) l end.

Record media_inv (w : MediaWorker) : Prop := mkMediaInv {
  mi_published : mw_published w = last_published (mw_outputs w);
  mi_outputs : outputs_ok [] (mw_outputs w);
  mi_backoff : media_backoff_ok (mw_backoff w);
  mi_phase : match mw_phase w with
             | PhIdle current | PhExecute current => current = mw_published w
             | PhBackoff delay => MEDIA_INITIAL_BACKOFF ≤ delay ≤ MEDIA_MAXIMUM_BACKOFF
             | _ => True
             end
}.

Lemma outputs_ok_snoc before l o : outputs_ok before l → output_ok (before ++ l) o → outputs_ok before (l ++ [o]).
Proof.
  revert before. induction l as [|x l IH]; intros before; cbn; [rewrite app_nil_r; by split|].
  intros [Hx Hl] Ho. split; [done|]. apply IH; [done|]. by rewrite <- app_assoc.
Qed.

Lemma last_published_snoc l o : last_published (l ++ [o]) = match o with MoPublish s => s | _ => last_published l end.
Proof. unfold last_published. by rewrite foldl_app. Qed.

Lemma media_inv_health c w : media_inv w → media_inv (media_output (MoHealth c) w).
Proof.
  intros [I1 I2 I3 I4]. constructor; cbn; try done; [by rewrite last_published_snoc|]. by apply outputs_ok_snoc.
Qed.

(** Publishing, and going on in a phase that fits what is shown. *)
Lemma media_inv_publish s w backoff phase :
  media_inv w → media_ok s → media_backoff_ok backoff →
  match phase with PhIdle current | PhExecute current => current = s | PhBackoff delay => MEDIA_INITIAL_BACKOFF ≤ delay ≤ MEDIA_MAXIMUM_BACKOFF | _ => True end →
  media_inv (media_publish_if_changed s w <| mw_backoff := backoff |> <| mw_phase := phase |>).
Proof.
  intros [I1 I2 I3 I4] Hs Hb Hp. unfold media_publish_if_changed. case_bool_decide as E.
  - constructor; cbn; try done. destruct phase; subst; done.
  - constructor; cbn; try done.
    + by rewrite last_published_snoc.
    + apply outputs_ok_snoc; [done|]. split; [done|]. intros ->. by apply E.
Qed.

Lemma media_delay_ok b : media_backoff_ok b →
  MEDIA_INITIAL_BACKOFF ≤ (media_next_delay b).1 ≤ MEDIA_MAXIMUM_BACKOFF ∧ media_backoff_ok (media_next_delay b).2.
Proof.
  intros (H1 & H2 & H3). split; [done|]. cbn. split; [done|]. split; [done|]. cbn. rewrite H2.
  unfold checked_mul, MEDIA_INITIAL_BACKOFF, MEDIA_MAXIMUM_BACKOFF, from_secs, nanos_per_sec in *. destruct (_ <=? _); cbn; lia.
Qed.

Lemma media_inv_failed failure w : media_inv w → media_inv (connection_failed failure w).
Proof.
  intros Hw. unfold connection_failed. apply (media_inv_health (HealthFailed failure.1)) in Hw.
  set (w1 := media_output _ w) in *. clearbody w1.
  assert (mw_backoff (media_publish_if_changed (media_provider_error failure.2) w1) = mw_backoff w1) as -> by (unfold media_publish_if_changed; by case_bool_decide).
  destruct (media_delay_ok (mw_backoff w1)) as [Hd Hb]; [apply Hw|]. destruct (media_next_delay (mw_backoff w1)) as [delay backoff].
  apply media_inv_publish; [done|apply media_error_ok|done|done].
Qed.

(** Discoveries give what [discover_player] can give. *)
Definition discovery_ok (i : MediaInput) : Prop := match i with MiDiscovered (OperationDone s) => media_ok s | _ => True end.

Lemma media_step_inv i w w' : discovery_ok i → media_inv w → media_step i w = Some w' → media_inv w'.
Proof.
  intros Hi Hw. assert (∀ phase, (match phase with PhIdle current | PhExecute current => current = mw_published w | PhBackoff _ => False | _ => True end) →
    media_inv (media_phase phase w)) as Hphase.
  { intros phase Hp. destruct Hw as [I1 I2 I3 I4]. constructor; cbn; try done. by destruct phase. }
  unfold media_step. destruct (mw_phase w) as [|delay| | |current|current|] eqn:Ep, i as [|o| | |o|c|o]; try done;
    try (intros Hx; apply Some_inj in Hx as <-; by apply Hphase).
  - intros Hx; apply Some_inj in Hx as <-. destruct (await_operation _ _ o); [by apply Hphase|by apply media_inv_failed].
  - intros Hx; apply Some_inj in Hx as <-. destruct o as [s|message|]; cbn [await_operation]; [|by apply media_inv_failed|by apply media_inv_failed].
    apply (media_inv_health HealthRecovered) in Hw. set (w1 := media_output _ w) in *. clearbody w1. clear Hphase Ep w.
    assert (media_publish_if_changed s w1 <| mw_backoff ::= media_backoff_reset |> <| mw_phase := PhIdle s |>
      = media_publish_if_changed s w1 <| mw_backoff := media_backoff_reset (mw_backoff w1) |> <| mw_phase := PhIdle s |>) as ->
      by (unfold media_publish_if_changed; by case_bool_decide).
    apply media_inv_publish; [done|done| |done]. destruct Hw as [_ _ (B1 & B2 & B3) _]. split; [done|]. split; [done|]. cbn. rewrite B1.
    unfold MEDIA_INITIAL_BACKOFF, MEDIA_MAXIMUM_BACKOFF, from_secs, nanos_per_sec. lia.
  - destruct c as [command|]; intros Hx; apply Some_inj in Hx as <-; [|by apply Hphase].
    destruct Hw as [I1 I2 I3 I4]. rewrite Ep in I4. subst current.
    unfold command_method. destruct (negb _ || negb _) eqn:E; [constructor; by cbn|].
    apply orb_false_iff in E as [E1%negb_false_iff%bool_decide_eq_true E2%negb_false_iff].
    constructor; cbn; try done; [by rewrite last_published_snoc|]. apply outputs_ok_snoc; [done|].
    unfold output_ok. rewrite app_nil_l, <- I1. split; [done|]. by eexists.
  - intros Hx; apply Some_inj in Hx as <-. assert (current = mw_published w) as Hc by (destruct Hw as [_ _ _ I4]; by rewrite Ep in I4).
    destruct (await_operation _ _ o); [by apply Hphase|].
    destruct (media_inv_health (HealthFailed error.1) w Hw) as [J1 J2 J3 J4]. by constructor.
Qed.

(** Whatever players, bus, timers and the interface do: a snapshot is only
    published when it differs from the one before, with texts of at most 256
    bytes; a player is only ever called when it is the one shown, by a method
    it then supports; and between two connections the worker waits one to
    five seconds. *)
Theorem media_worker_disciplined inputs w
    (Hdiscoveries : Forall discovery_ok inputs) (Hrun : media_run inputs media_worker_new = Some w) :
  outputs_ok [] (mw_outputs w) ∧ match mw_phase w with PhBackoff delay => from_secs 1 ≤ delay ≤ from_secs 5 | _ => True end.
Proof.
  assert (media_inv media_worker_new) as Hw by (constructor; done). revert Hw Hrun. generalize media_worker_new as w0.
  induction Hdiscoveries as [|i inputs Hi Hinputs IH]; intros w0 Hw; cbn [media_run].
  - intros [= ->]. destruct Hw as [I1 I2 I3 I4]. split; [done|]. by destruct (mw_phase w).
  - destruct (media_step i w0) as [w1|] eqn:E; [|done]. cbn [mbind option_bind]. apply IH. by eapply media_step_inv.
Qed.

(** A command that was sent is executed while what is shown has not changed. *)
Lemma media_send_executed s a queue queue' command :
  media_send s a queue = (queue', true) → last queue' = Some command → command_method s command = Some (method_name a).
Proof.
  unfold media_send, command_for, command_method. destruct (media_supports s a) eqn:E; [|done].
  pose proof E as E'. unfold media_supports in E'. destruct (md_bus_name s) as [name|]; [|done]. cbn. destruct (_ <? _)%nat; [|done].
  intros [= <-]. rewrite last_snoc. intros [= <-]. cbn. rewrite bool_decide_eq_true_2 by done. cbn. by rewrite E.
Qed.

(** What [discover_player] gives is such a discovery. *)
Lemma discover_player_bounded list_names player s : discover_player list_names player = Ok s → media_ok s.
Proof.
  unfold discover_player. destruct list_names as [names|]; [|done]. cbn. destruct (filter_mpris_bus_names [] names) as [players|]; [|done]. cbn.
  intros [= <-]. pose proof (discover_fold player players None) as Hb. cbn [option_list app] in Hb.
  destruct (foldl _ None players) as [best|]; cbn [default]; [|done]. destruct Hb as [H1 _]; [done|].
  unfold readable_players in H1. apply list_elem_of_omap in H1 as (name & _ & Hr). by apply read_player_ok in Hr as [].
Qed.

(** A shutdown ends the worker at once, wherever it waits. *)
Theorem media_shutdown_stops w (Hrunning : mw_phase w ≠ PhStopped) : ∃ w', media_step MiShutdown w = Some w' ∧ mw_phase w' = PhStopped ∧ mw_outputs w' = mw_outputs w.
Proof. unfold media_step. destruct (mw_phase w); try done; by eexists. Qed.

(** * Two players *)

Definition example_player (status : string) : PlayerAnswers :=
  mkPlayerAnswers true (Some (lit status)) (Some {[lit "xesam:title" := MvText (lit " Song "); lit "xesam:artist" := MvArray [Some (lit "A"); Some (lit "B")]]})
    (Some true) (Some false) (Some true) (Some true) (Some true).

Definition example_players (name : str) : PlayerAnswers :=
  if str_eqb name (lit "org.mpris.MediaPlayer2.b") then example_player "Playing" else example_player "Paused".

Definition example_bus : result str (list str) :=
  Ok [lit "org.freedesktop.DBus"; lit "org.mpris.MediaPlayer2.a"; lit "org.mpris.MediaPlayer2.b"; lit "org.mpris.MediaPlayer2.c"].

Definition example_shown : MediaSnapshot :=
  mkMediaSnapshot (Some (lit "org.mpris.MediaPlayer2.b")) (Some (lit "Song")) (Some (lit "A, B")) MpPlaying (mkMediaCapabilities false true true true) None.

Lemma discover_player_reference_witness :
  discover_player example_bus example_players = Ok example_shown
  ∧ ∃ shown, discover_player example_bus example_players = Ok shown ∧ (readable_players example_players (filter (λ name, starts_with MPRIS_BUS_PREFIX name = true) (default [] (ok_opt example_bus))) = [] → shown = media_snapshot_default).
Proof.
  split; [by vm_compute|].
  destruct (discover_player_reference example_bus example_players _ eq_refl) as (shown & E & H & _). by exists shown.
Defined.

Definition example_media_inputs : list MediaInput :=
  [MiConnected (OperationFailed (lit "no bus")); MiElapsed; MiConnected (OperationDone tt); MiTick; MiDiscovered (OperationDone example_shown);
   MiCommand (command_for MaNext example_shown); MiExecuted OperationTimedOut].

Lemma media_worker_disciplined_witness :
  ∃ w, media_run example_media_inputs media_worker_new = Some w
  ∧ mw_outputs w = [MoHealth (HealthFailed FcConnection); MoPublish (media_provider_error (lit "no bus")); MoHealth HealthRecovered;
                    MoPublish example_shown; MoCall (lit "org.mpris.MediaPlayer2.b") (lit "Next"); MoHealth (HealthFailed FcTimeout)]
  ∧ outputs_ok [] (mw_outputs w).
Proof.
  eexists. split; [by vm_compute|]. split; [by vm_compute|].
  apply (media_worker_disciplined example_media_inputs); [|by vm_compute].
  repeat constructor; vm_compute; done.
Defined.

Lemma media_shutdown_stops_witness : mw_phase media_worker_new ≠ PhStopped ∧ ∃ w', media_step MiShutdown media_worker_new = Some w' ∧ mw_phase w' = PhStopped.
Proof. split; [done|]. destruct (media_shutdown_stops media_worker_new) as (w' & H1 & H2 & _); [done|]. by exists w'. Defined.
